(* ===== verification/_CoqProject ===== *)
-Q . S2P
Prelude.v
Sql.v
PyString.v
Address.v
Url.v
Ssrf.v
Json.v
Models.v
Retry.v
RateLimit.v
Attempts.v
Ready.v
History.v
Store.v
StoreInv.v
Dependents.v
Claim.v
Complete.v
Demo.v
Sweep.v
Queue.v
Outcomes.v
Limits.v
Crontab.v
Rotation.v
Lease.v
Scheduler.v
System.v
Executor.v
Child.v
Result.v
Canvas.v
Trigger.v
Liveness.v
Async.v
AsyncWorker.v
Cleanup.v
Partitioning.v
Horizon.v
Claiming.v
Django.v
DjangoInv.v
DjangoClaim.v
Webhook.v
DjangoAgree.v
