(* ===== verification/Prelude.v ===== *)
(** * sqlery: a verified model of a database-backed job queue

    sqlery (src/src/sqlery) is a job queue that lives in five SQL tables: live jobs
    ([sqlery_queued_job]), finished jobs ([sqlery_job_history]), execution attempts
    ([sqlery_job_attempt]), and the two index tables of waiting jobs ([sqlery_job_ready],
    [sqlery_job_blocked]). A job is running exactly when it is queued and has an open attempt;
    completing a job closes its attempt, presented as a handle with a token, and moves the row
    to history in one transaction. This library models that queue (the standalone SQLAlchemy
    backend, its asynchronous and Django mirrors and the core modules they call), the executor that
    runs jobs and recovers from crashes, results and workflows, the asynchronous worker, the
    partitions the tables are split into, the recurring-schedule parser, the rotation of the ready
    table, the scheduler leases, the guard of outbound webhooks and the signed HTTP triggers, and
    proves what makes them correct.

    ** Files

    - [Prelude]: the error monad, generic list lemmas, tactics and the hint database.
    - [Sql]: tables as lists of rows; [UPDATE], [DELETE], row counts, [INSERT .. ON CONFLICT DO
      NOTHING], [ORDER BY]. [PyString]: the string operations the parsers use ([split], [strip],
      [int], [str], [LIKE]) on ASCII text. [Json]: Python values, [json.dumps] and [json.loads]
      on code points, and that a value survives the two.
    - [Address] and [Url]: the parts of the standard library's [ipaddress] and [urllib.parse] the
      security modules use, with their round trips. [Ssrf] (security/ssrf.py): the networks a
      webhook must not reach, the check of a URL, the rewritten URL. [Trigger] (core/signature.py,
      core/triggers.py): signatures, the allow-list, the cache of requests, [handle].
    - [Models] (core/models.py): the rows and the in-memory operations of a job object; job ids.
    - [Retry] (core/retry.py): retry marker, budget, delay shaping, the columns of a retry.
      [RateLimit] (core/utils.py): rate limit strings.
    - [Attempts] (core/attempts.py, fastapi_sqlery/attempt_sql.py), [Ready] (core/ready.py),
      [History] (core/history.py): decisions on claims, completions, dependencies and
      terminal states.
    - [Store] (fastapi_sqlery/backend.py, core/ready_sql.py, fastapi_sqlery/history_sql.py): the
      database state [store], what a transaction reads besides it [env] (clock, process, limits,
      row locks held by others), and the statements the operations are made of: the union view
      [job_all], [write_ready], [next_entry], the terminal transition [_finish_in], the second
      half of a claim [_start_attempt], tag limits.
    - [StoreInv]: the invariants [wf] and [covered_except] and their preservation by every
      statement; [evolves] (what never changes), [sound] and [quiet] (what an operation does).
    - [Dependents]: [_recheck_blocked], [release_dependents], [block_job]. [Claim]: [claim_job],
      [claim_job_by_id], [atomic_claim_job], [get_claimable_jobs]. [Complete]: [create_job],
      [mark_job_success], [mark_job_failed], [_fenced_update], [cancel_job], [fail_zombie_job],
      [release_job], [release_claimed_job], [expire_queued_job], [cascade_ancestor_status],
      [retry_failed_jobs] and their kin. [Sweep]: [settle_finished_jobs], [maintain_ready_queue].
    - [Outcomes] and [Limits]: the functional theorems about these operations. [Demo]: the
      concrete queue the witnesses evaluate.
    - [System]: the queue as a transition system. A step is one call of an operation by any
      process, with any clock, locks and (possibly stale) arguments; the system remembers the
      handles it issued. Theorems are by induction on the steps.
    - [Queue]: the abstract queue of job phases (waiting, running an attempt, gone), its
      operations, and the refinement of claim, completion, release and cancellation to it.
    - [Executor] (core/worker.py, [JobExecutor]): retries, the sweep that finishes the retries a
      dead worker left, an outcome the supervisor persists for its child. [Child] (the same file):
      running one job in the process or in a worker child, the hand-over of its outcome, the sweep
      over stale jobs.
    - [Result] (core/result.py, core/execution.py): the encoding of outputs, the handle of a job,
      the arguments a job takes from the jobs before it. [Canvas] (core/canvas.py): signatures,
      groups, chains and chords, enqueued on the [store].
    - [Async] (fastapi_sqlery/async_backend.py): the asynchronous backend on the same [store];
      [AsyncWorker] (core/async_worker.py): the worker that runs jobs as tasks of one event loop, as
      a step relation over the store and the handles it holds.
    - [Liveness] (core/daemon.py, core/liveness.py, fastapi_sqlery/backend.py): worker rows,
      heartbeats and the zombie sweep. [Cleanup] (core/cleanup.py, fastapi_sqlery/backend.py):
      retention of history and attempts.
    - [Claiming] (core/claiming.py): the claim loop over any [ClaimBackend], proved against the
      laws [ClaimLaws]. [Django] (django_sqlery/models.py, ready.py, history.py, backend.py): the
      Django operations on the same [store]; [DjangoInv] their invariants; [DjangoClaim] the Django
      instance of the claim loop; [Webhook] (django_sqlery/webhooks.py, models.py, history.py) the
      delivery of webhooks, completions to their end and the settle sweep, on a [world] of the store,
      the delivery columns and the requests made; [DjangoAgree] where both backends write the same rows.
    - [Partitioning] (core/partitioning.py): range partitions of the live and history tables, their
      creation ahead of time and their removal. [Horizon] (core/horizon.py): the health report
      about them.
    - [Scheduler] (core/scheduler.py and the task operations of fastapi_sqlery/backend.py):
      recurring tasks over any [Schedule], of which the cron model is an instance, and the
      promotion of staged jobs.
    - [Crontab] (crontab.py, core/utils.py), [Rotation] (core/rotation.py), [Lease]
      (fastapi_sqlery/backend.py, the [queue_leases] operations): models and theorems of these
      components. [Rotation] states the interface of the rotator to its database as a class,
      and the tick is proved against it.

    ** What the theorems show

    - Safety of the queue ([System]): in every reachable state the tables are well-formed and
      every waiting job has an entry; a claim is exclusive; a handle completes at most once and
      a stale one is rejected without an effect; history only grows; no job is lost.
    - Progress: a claim returns and takes the first claimable entry in claim order or one before
      it ([System]); dependents of a succeeded job are released, and a sweep restores entries
      lost by any means ([Outcomes]); the retry budget bounds retries ([Retry]).
    - Refinement: the tables implement the abstract queue ([Queue]), and so does the claim of the
      Django backend ([DjangoClaim]); both backends complete, cancel, release and judge
      dependencies alike ([DjangoAgree]).
    - The asynchronous backend judges dependencies as the synchronous one, agrees with it on plain
      queues and implements the same abstract queue ([Async]); its worker stays within its
      concurrency and holds only handles of its own jobs, and a failure with budget left gets
      exactly one retry ([AsyncWorker]).
    - Workflows: a chain is linked step to step, a claimed step has the decoded results of the steps
      before it ([Canvas]); a result survives its storage, the handle of a job and the judgement of
      its dependents agree ([Json], [Result]).
    - Security: a webhook URL is accepted exactly when every address of its host is outside the
      forbidden ranges, and the rewritten URL reads back with the checked address as its host
      ([Ssrf]); only an allowed, freshly signed and new request changes the queue, and no signature
      is admitted twice while it lives at most half as long as the cache remembers ([Trigger]).
    - Webhooks: the periodic retry resolves every delivery within its tries, with one request per
      try, and settles the job; the settle sweep moves exactly what is resolved ([Webhook]).
    - Crashes: wherever a worker dies between failing a job and retrying it, the recovery sweep
      ends with exactly one retry; a retry is idempotent ([Executor]); an outcome handed over to
      the supervisor leaves what the child would have left, and is discarded when the attempt was
      closed meanwhile ([Child], [Executor]).
    - Daemon: the zombie sweep fails exactly the jobs its checks condemn, and a job whose worker
      lives and beats is never taken from it ([Liveness]); retention removes exactly what the
      configuration condemns ([Cleanup]).
    - Partitions: creation covers the whole window, the reclaim never loses a row under any
      interleaving and drops exactly the drained partitions ([Partitioning]); the report is
      degraded exactly when a limit is breached ([Horizon]).
    - Function: what success, failure, failure with a retry owed, re-check, cancellation,
      release and manual retry leave in the tables ([Outcomes]); the view shows each job once
      and claims respect concurrency limits ([Limits]).
    - Cron: the parser's lists are sorted and in range, and the search returns the earliest
      matching minute or raises exactly when there is none.
    - Recurring tasks: the next run is the first occurrence in the future, a due time fires at
      most once under any number of leaders, promotion moves staged jobs without loss.
    - Rotation: no ready entry is lost, the slot a rotation enters is clean, writers stay within
      one generation of the current one. Leases: one live holder per queue as long as rows are
      not deleted in between, exact outcome of a claim.
    - Findings, each a theorem on a concrete input: a cron validation that leaks [ValueError]
      ([Crontab]), lease versions that restart at 0 ([Lease]), job ids without the time their
      documentation promises ([Models]), a Django failure that fails its dependents while its
      retry is owed ([DjangoAgree]), a claim scan that a page of stale entries ends
      ([DjangoClaim]), a partition skipped because its name is taken ([Partitioning]), a race and
      a staged row that each lead to two retries ([Executor]), a stale sweep that runs a job again
      that succeeded ([Child]), dead worker rows that are never purged ([Liveness]), an asynchronous
      claim that ignores dependencies and a re-check that fails a running job ([Async]), a load
      failure that is never retried, a drain that leaves a job stuck and a lease taken twice
      ([AsyncWorker]), a staged step that fails the next and an empty group that breaks a chain
      ([Canvas]), a retry owed that reads as failure ([Result]), an IPv4-mapped address the guard
      lets through ([Ssrf]), a malformed URL that starves the other deliveries and a delivered failure that
      enters history with its retry owed ([Webhook]), a replay after the cache has forgotten and inputs that raise
      ([Trigger]).

    ** Transactions, fuel and bounds

    An operation that runs one transaction is a function on [store]; a rollback returns the store
    it started from. Operations that run several (a claim scan, the release of dependents, a
    sweep) are folds of such functions; other processes run between operations, and locks they
    hold appear in [env]. What an operation read in an earlier transaction is an argument
    ([seen], a stale job object). Times are microseconds in [Z]; ids and versions are [Z].

    Loops run on fuel with a proof that it is enough: the claim scan on the number of ready
    entries plus one (the cursor moves strictly forward), the release of dependents on the number
    of live jobs plus one (each push moved a job out of the live table), the ancestor cascade on
    the number of jobs plus one (no job is visited twice), the cron search on the years left
    until 9999, the cron parser on three levels, a rotation tick on its own bound of 50 steps. The
    claim loop of the core takes at most one page per ready entry plus one, the Django failure
    cascade one round per live job plus two (each fails a job), a batched deletion one round per
    history row plus one (each removes a row), and the walk over live partitions
    10,000 rounds, the hard stop written in the code. The JSON reader takes two steps per character,
    the asynchronous claim scan one per ready entry plus one, its release of dependents one per live
    job plus one, the Django release with webhooks the same, and its failures nest at most once per
    live job plus one; an HTTP trigger runs at most the jobs it may run.

    ** Not modelled

    Worker and daemon processes, forks, signals and sockets (only the database operations they
    call), the event loop and the timing of polls and heartbeats, LISTEN and NOTIFY, the web
    applications (but for the triggers), the command line, the adapters to other queues, DDL and
    migrations, solar schedules, statistics queries, callbacks and the tasks themselves, the forms,
    signals and interval or once tasks of the Django models. Digests, name resolution and the HTTP
    client are arguments. Planned next, on top of this library: the executor and the
    sweeps of the Django backend, the worker pool, the resilience to lost connections
    (core/db_resilience.py), the adapters of compat/. *)

From Stdlib Require Export ZArith Lia.
From stdpp Require Export sorting strings prelude.

#[global] Open Scope Z_scope.

(** ** Errors as values

    A Python call that may raise is a function into [result]; [E] is the type of the
    exceptions the caller distinguishes. *)
Inductive result (E A : Type) : Type :=
  | Ok (a : A)
  | Err (e : E).
Arguments Ok {E A} a.
Arguments Err {E A} e.

#[global] Instance result_ret E : MRet (result E) := λ A a, Ok a.
#[global] Instance result_bind E : MBind (result E) := λ A B f r,
  match r with Ok a => f a | Err e => Err e end.
#[global] Instance result_map E : FMap (result E) := λ A B f r,
  match r with Ok a => Ok (f a) | Err e => Err e end.

Lemma result_bind_Ok {E A B} (f : A → result E B) (r : result E A) (b : B) :
  (r ≫= f) = Ok b ↔ ∃ a, r = Ok a ∧ f a = Ok b.
Proof. destruct r; simpl; naive_solver. Qed.

Fixpoint map_result {E A B} (f : A → result E B) (l : list A) : result E (list B) :=
  match l with
  | [] => Ok []
  | x :: l => y ← f x; ys ← map_result f l; Ok (y :: ys)
  end.

Lemma map_result_Ok {E A B} (f : A → result E B) l ys :
  map_result f l = Ok ys ↔ Forall2 (λ x y, f x = Ok y) l ys.
Proof.
  revert ys; induction l as [|x l IH]; intros ys; simpl.
  { split; [by intros [= <-]|by inversion 1]. }
  rewrite result_bind_Ok; split.
  - intros (y & Hy & (ys' & Hl & [= <-])%result_bind_Ok).
    constructor; [done|]. by apply IH.
  - inversion_clear 1 as [|??? ys' Hy Hl]. exists y; split; [done|].
    rewrite result_bind_Ok. exists ys'; split; [by apply IH|done].
Qed.

Lemma map_result_Err {E A B} (f : A → result E B) l e :
  map_result f l = Err e → ∃ x, x ∈ l ∧ f x = Err e.
Proof.
  induction l as [|x l IH]; simpl; [done|]. destruct (f x) as [y|e'] eqn:Hx; simpl.
  - destruct (map_result f l) as [ys|e']; simpl; [done|]. intros [= ->].
    destruct (IH eq_refl) as (z & ? & ?). exists z. by split; [right|].
  - intros [= ->]. exists x. by split; [left|].
Qed.

(** ** Time

    [datetime] and [timedelta] have microsecond resolution; both are microsecond counts
    (a datetime counts from the Unix epoch, UTC). *)
Abbreviation time := Z (only parsing).
Definition usec_per_sec : Z := 1000000.
Definition seconds (n : Z) : Z := n * usec_per_sec.

(** Python's rounding of [n / d], halves to the even neighbour. *)
Definition round_half_even (n d : Z) : Z :=
  let q := n / d in
  let r := n mod d in
  if 2 * r <? d then q else if d <? 2 * r then q + 1 else if Z.even q then q else q + 1.

(** ** Sorted lists *)

Lemma StronglySorted_filter {A} (R : relation A) (P : A → Prop) {HD : ∀ x, Decision (P x)} l :
  StronglySorted R l → StronglySorted R (filter P l).
Proof.
  induction l as [|x l IH]; [done|]. rewrite StronglySorted_cons, filter_cons.
  intros [Hx Hl]. case_decide; [|auto]. rewrite StronglySorted_cons. split; [|auto].
  rewrite Forall_forall in *. intros y [_ Hy]%list_elem_of_filter. auto.
Qed.

Lemma StronglySorted_bind {A B} (R : relation A) (S : relation B) (f : A → list B) l :
  StronglySorted R l → (∀ x, x ∈ l → StronglySorted S (f x)) →
  (∀ x1 x2 y1 y2, R x1 x2 → y1 ∈ f x1 → y2 ∈ f x2 → S y1 y2) → StronglySorted S (l ≫= f).
Proof.
  intros Hl Hf HS. induction l as [|x l IH]; [constructor|].
  apply StronglySorted_cons in Hl as [Hx Hl]. csimpl. apply StronglySorted_app_2.
  - intros y1 y2 Hy1 Hy2. apply list_elem_of_bind in Hy2 as (x2 & Hy2 & Hx2).
    rewrite Forall_forall in Hx. eauto.
  - apply Hf. by left.
  - apply IH; [done|]. intros x' Hx'. apply Hf. by right.
Qed.

Lemma StronglySorted_head {A} (R : relation A) x l y :
  StronglySorted R (x :: l) → y ∈ x :: l → y = x ∨ R x y.
Proof.
  rewrite StronglySorted_cons, Forall_forall. intros [Hx _] [->|Hy]%elem_of_cons; auto.
Qed.

Lemma StronglySorted_seqZ m n : StronglySorted Z.lt (seqZ m n).
Proof.
  destruct (Z_le_gt_dec 0 n) as [Hn|]; [|rewrite seqZ_nil by lia; constructor].
  revert m. pattern n. apply natlike_ind; [constructor| |done].
  intros i Hi IH m. rewrite seqZ_cons by lia. apply StronglySorted_cons. split.
  - rewrite Forall_forall. intros x. rewrite elem_of_seqZ. lia.
  - replace (Z.pred (Z.succ i)) with i by lia. apply IH.
Qed.

Lemma NoDup_fmap_inj {A B} (f : A → B) (l : list A) x y :
  NoDup (f <$> l) → x ∈ l → y ∈ l → f x = f y → x = y.
Proof.
  induction l as [|z l IH]; intros Hn Hx Hy Heq; [by apply elem_of_nil in Hx|].
  rewrite fmap_cons, NoDup_cons in Hn. destruct Hn as [Hz Hn].
  apply elem_of_cons in Hx as [->|Hx]; apply elem_of_cons in Hy as [->|Hy]; try done.
  - destruct Hz. rewrite Heq. by apply list_elem_of_fmap_2.
  - destruct Hz. rewrite <-Heq. by apply list_elem_of_fmap_2.
  - by apply IH.
Qed.

(** ** Tactics of the development *)

(** Splits every [match] and [decide] of the goal or of a hypothesis. *)
Ltac split_cases :=
  repeat first
    [ progress simplify_eq/=
    | case_decide
    | case_match ].

Ltac solve_ord := unfold strict in *; intros; simpl in *; lia.

Create HintDb sqlery.
