(* ===== verification/Sql.v ===== *)
(** * SQL tables

    A table is the list of its rows. [SELECT .. WHERE P] is [filter P]; [UPDATE], [DELETE]
    and [INSERT .. ON CONFLICT DO NOTHING] return the new table, and the row counts the
    program tests are separate functions. [ORDER BY .. LIMIT n] is a merge sort cut at [n].
    The generic lemmas below are shared by every component that works on tables. *)

From S2P Require Import Prelude.

Lemma filter_all {A} (P : A → Prop) {HD : ∀ x, Decision (P x)} (l : list A) :
  (∀ x, x ∈ l → P x) → filter P l = l.
Proof.
  induction l as [|x l IH]; intros Hl; [done|].
  rewrite filter_cons_True, IH; set_solver.
Qed.

Lemma filter_none {A} (P : A → Prop) {HD : ∀ x, Decision (P x)} (l : list A) :
  (∀ x, x ∈ l → ¬ P x) → filter P l = [].
Proof.
  induction l as [|x l IH]; intros Hl; [done|].
  rewrite filter_cons_False, IH; set_solver.
Qed.

Lemma filter_iff_on {A} (P Q : A → Prop) {HP : ∀ x, Decision (P x)} {HQ : ∀ x, Decision (Q x)} (l : list A) :
  (∀ x, x ∈ l → P x ↔ Q x) → filter P l = filter Q l.
Proof.
  induction l as [|x l IH]; intros Hl; [done|]. rewrite !filter_cons, IH by (intros; apply Hl; by right).
  pose proof (Hl x (list_elem_of_here _ _)). repeat case_decide; tauto.
Qed.

Lemma NoDup_all_eq {A} (l : list A) a : NoDup l → a ∈ l → (∀ x, x ∈ l → x = a) → l = [a].
Proof.
  intros Hn Ha Hall. destruct l as [|x l]; [by apply elem_of_nil in Ha|].
  pose proof (Hall x (list_elem_of_here _ _)) as ->. apply NoDup_cons in Hn as [Hx _].
  destruct l as [|y l]; [done|]. destruct Hx. rewrite (Hall y); set_solver.
Qed.

Lemma filter_unique {A} (P : A → Prop) {HD : ∀ x, Decision (P x)} (l : list A) a :
  NoDup l → a ∈ l → P a → (∀ x, x ∈ l → P x → x = a) → filter P l = [a].
Proof.
  intros Hn Ha HP Hu. apply NoDup_all_eq; [by apply NoDup_filter|by apply list_elem_of_filter|].
  intros x [Hx Hl]%list_elem_of_filter. auto.
Qed.

Section table.
Context {A : Type} (P : A → Prop) {HD : ∀ x, Decision (P x)}.
Implicit Types (t : list A) (x : A).

(** [UPDATE t SET f WHERE P] *)
Definition update_where (f : A → A) t : list A :=
  (λ x, if decide (P x) then f x else x) <$> t.

(** [DELETE FROM t WHERE P] *)
Definition delete_where t : list A := filter (λ x, ¬ P x) t.

(** the row count of an [UPDATE] or [DELETE] with this [WHERE] *)
Definition rowcount t : nat := length (filter P t).

(** [EXISTS (SELECT 1 FROM t WHERE P)] *)
Definition exists_where t : bool := bool_decide (Exists P t).

(** [SELECT * FROM t WHERE P LIMIT 1] / [.first()] *)
Definition first_where t : option A := head (filter P t).

Lemma elem_of_delete_where t x : x ∈ delete_where t ↔ x ∈ t ∧ ¬ P x.
Proof using. unfold delete_where. rewrite list_elem_of_filter. naive_solver. Qed.

Lemma elem_of_update_where f t x :
  x ∈ update_where f t ↔ ∃ y, y ∈ t ∧ x = if decide (P y) then f y else y.
Proof using. unfold update_where. rewrite list_elem_of_fmap. naive_solver. Qed.

Lemma exists_where_true t : exists_where t = true ↔ ∃ x, x ∈ t ∧ P x.
Proof using. unfold exists_where. rewrite bool_decide_eq_true. apply Exists_exists. Qed.

Lemma exists_where_false t : exists_where t = false ↔ ∀ x, x ∈ t → ¬ P x.
Proof using.
  unfold exists_where. rewrite bool_decide_eq_false, Exists_exists. naive_solver.
Qed.

Lemma first_where_Some t x : first_where t = Some x → x ∈ t ∧ P x.
Proof using.
  unfold first_where. intros Hx%head_Some_elem_of.
  apply list_elem_of_filter in Hx. naive_solver.
Qed.

Lemma first_where_None t : first_where t = None ↔ ∀ x, x ∈ t → ¬ P x.
Proof using.
  unfold first_where. split.
  - intros Hf x Hx HP. assert (x ∈ filter P t) as Hin by by apply list_elem_of_filter.
    destruct (filter P t); [by apply elem_of_nil in Hin|done].
  - intros Hn. by rewrite filter_none.
Qed.

Lemma first_where_is_Some t x : x ∈ t → P x → is_Some (first_where t).
Proof using.
  intros Hx HP. destruct (first_where t) eqn:E; [eauto|].
  rewrite first_where_None in E. naive_solver.
Qed.

Lemma rowcount_zero t : rowcount t = 0%nat ↔ ∀ x, x ∈ t → ¬ P x.
Proof using.
  unfold rowcount. rewrite <-first_where_None. unfold first_where.
  by destruct (filter P t).
Qed.

Lemma rowcount_pos t : (0 < rowcount t)%nat ↔ ∃ x, x ∈ t ∧ P x.
Proof using.
  rewrite <-exists_where_true. destruct (exists_where t) eqn:E.
  - split; [done|]. intros _. destruct (decide (rowcount t = 0%nat)) as [Hz|]; [|lia].
    rewrite rowcount_zero in Hz. apply exists_where_true in E. naive_solver.
  - split; [|done]. rewrite exists_where_false, <-rowcount_zero in E. lia.
Qed.

Lemma delete_where_none t : (∀ x, x ∈ t → ¬ P x) → delete_where t = t.
Proof using. intros Hn. unfold delete_where. by apply filter_all. Qed.

Lemma update_where_none f t : (∀ x, x ∈ t → ¬ P x) → update_where f t = t.
Proof using.
  intros Hn. unfold update_where. induction t as [|x t IH]; csimpl; [done|].
  rewrite decide_False, IH; set_solver.
Qed.

(** columns the [UPDATE] does not assign keep their values, row by row *)
Lemma update_where_column {B} (g : A → B) f t :
  (∀ x, P x → g (f x) = g x) → g <$> update_where f t = g <$> t.
Proof using.
  intros Hg. unfold update_where. rewrite <-list_fmap_compose.
  apply list_fmap_ext. intros i x _. simpl. case_decide; auto.
Qed.

Lemma length_delete_where t : (length (delete_where t) + rowcount t = length t)%nat.
Proof using.
  unfold delete_where, rowcount. induction t as [|x t IH]; [done|].
  rewrite !filter_cons. repeat case_decide; csimpl; lia || tauto.
Qed.

Lemma fmap_delete_where_sublist {B} (g : A → B) t :
  g <$> delete_where t `sublist_of` g <$> t.
Proof using.
  unfold delete_where. induction t as [|x t IH]; [done|].
  rewrite filter_cons. case_decide; csimpl; by constructor.
Qed.
End table.

Section rowcount_compare.
Context {A : Type} (P Q : A → Prop) {HP : ∀ x, Decision (P x)} {HQ : ∀ x, Decision (Q x)}.
Context (HPQ : ∀ x, P x → Q x).

Lemma rowcount_mono l1 l2 : l1 `sublist_of` l2 → (rowcount P l1 <= rowcount Q l2)%nat.
Proof using HPQ.
  unfold rowcount. induction 1 as [|x l1 l2 _ IH|x l1 l2 _ IH]; [done| |];
    rewrite !filter_cons; repeat case_decide; simpl; try lia; exfalso; auto.
Qed.

Lemma rowcount_lt x l : x ∈ l → Q x → ¬ P x → (rowcount P l < rowcount Q l)%nat.
Proof using HPQ.
  intros Hx HQx HPx. apply list_elem_of_split in Hx as (l1 & l2 & ->).
  pose proof (rowcount_mono l1 l1 (reflexivity _)).
  pose proof (rowcount_mono l2 l2 (reflexivity _)).
  unfold rowcount in *. rewrite !filter_app, !filter_cons, !length_app.
  rewrite decide_False, decide_True by done. simpl. lia.
Qed.
End rowcount_compare.

(** [INSERT .. ON CONFLICT (key) DO NOTHING]: a row whose key is present is not inserted *)
Section insert_on_conflict.
Context {A K : Type} `{EqDecision K} (key : A → K).

Definition insert_nothing (t : list A) (x : A) : list A :=
  if decide (Exists (λ y, key y = key x) t) then t else t ++ [x].

Definition insert_all_nothing (t : list A) (xs : list A) : list A :=
  foldl insert_nothing t xs.

Lemma insert_nothing_subseteq t x y : y ∈ t → y ∈ insert_nothing t x.
Proof using. unfold insert_nothing. case_decide; set_solver. Qed.

Lemma insert_nothing_elem t x y : y ∈ insert_nothing t x → y ∈ t ∨ y = x.
Proof using. unfold insert_nothing. case_decide; set_solver. Qed.

Lemma insert_nothing_key t x : ∃ y, y ∈ insert_nothing t x ∧ key y = key x.
Proof using.
  unfold insert_nothing. case_decide as Hd.
  - apply Exists_exists in Hd. naive_solver.
  - exists x. set_solver.
Qed.

Lemma insert_nothing_NoDup t x :
  NoDup (key <$> t) → NoDup (key <$> insert_nothing t x).
Proof using.
  intros Hn. unfold insert_nothing. case_decide as Hd; [done|].
  rewrite fmap_app. apply NoDup_app. split_and!; [done| |apply NoDup_singleton].
  intros k Hk Hx. csimpl in *. apply list_elem_of_singleton in Hx as ->.
  apply Hd, Exists_exists. apply list_elem_of_fmap in Hk. naive_solver.
Qed.

Lemma insert_all_nothing_NoDup xs t :
  NoDup (key <$> t) → NoDup (key <$> insert_all_nothing t xs).
Proof using.
  revert t. induction xs as [|x xs IH]; intros t Hn; [done|].
  by apply IH, insert_nothing_NoDup.
Qed.

Lemma insert_all_nothing_subseteq xs t y : y ∈ t → y ∈ insert_all_nothing t xs.
Proof using.
  revert t. induction xs as [|x xs IH]; intros t Hy; [done|].
  apply IH. by apply insert_nothing_subseteq.
Qed.

Lemma insert_all_nothing_elem xs t y : y ∈ insert_all_nothing t xs → y ∈ t ∨ y ∈ xs.
Proof using.
  revert t. induction xs as [|x xs IH]; intros t Hy; [by left|].
  destruct (IH _ Hy) as [[?| ->]%insert_nothing_elem|]; set_solver.
Qed.

Lemma insert_all_nothing_key xs t x :
  x ∈ xs → ∃ y, y ∈ insert_all_nothing t xs ∧ key y = key x.
Proof using.
  revert t. induction xs as [|x' xs IH]; intros t Hx; [by apply elem_of_nil in Hx|].
  apply elem_of_cons in Hx as [->|Hx]; [|by apply IH].
  destruct (insert_nothing_key t x') as (y & Hy & Hk). exists y; split; [|done].
  change (y ∈ insert_all_nothing (insert_nothing t x') xs).
  by apply insert_all_nothing_subseteq.
Qed.
End insert_on_conflict.

(** [ORDER BY .. LIMIT 1]: the head of the sorted table is below every row *)
Section order_by.
Context {A : Type} (R : relation A) `{!∀ x y, Decision (R x y)}.

Definition order_by (t : list A) : list A := merge_sort R t.

Lemma elem_of_order_by t x : x ∈ order_by t ↔ x ∈ t.
Proof using. unfold order_by. by rewrite (merge_sort_Permutation R t). Qed.

Lemma order_by_head_le `{!Total R, !Transitive R} t x y :
  head (order_by t) = Some x → y ∈ t → y = x ∨ R x y.
Proof using.
  intros Hx Hy. unfold order_by in *. pose proof (StronglySorted_merge_sort R t) as Hs.
  rewrite <-(merge_sort_Permutation R t) in Hy.
  destruct (merge_sort R t) as [|z l]; [done|]; simplify_eq/=.
  inversion_clear Hs as [|?? _ Hall]. apply elem_of_cons in Hy as [->|Hy]; [by left|].
  right. by eapply Forall_forall in Hall.
Qed.

Lemma order_by_head_None t : head (order_by t) = None ↔ t = [].
Proof using.
  unfold order_by. pose proof (merge_sort_Permutation R t) as Hp. split.
  - intros He. destruct (merge_sort R t); [|done]. by apply Permutation_nil_l in Hp.
  - intros ->. by destruct (merge_sort R []) as [|x l] eqn:E.
Qed.
End order_by.

Lemma delete_where_iff {A} (P Q : A → Prop) {HP : ∀ x, Decision (P x)} {HQ : ∀ x, Decision (Q x)} (l : list A) :
  (∀ x, x ∈ l → P x ↔ Q x) → delete_where P l = delete_where Q l.
Proof. intros Hiff. apply filter_iff_on. intros x Hx. by rewrite Hiff. Qed.

Lemma delete_where_twice {A} (P Q R : A → Prop) {HP : ∀ x, Decision (P x)} {HQ : ∀ x, Decision (Q x)}
    {HR : ∀ x, Decision (R x)} (l : list A) :
  (∀ x, x ∈ l → R x ↔ P x ∨ Q x) → delete_where Q (delete_where P l) = delete_where R l.
Proof.
  intros Hiff. unfold delete_where. rewrite list_filter_filter. apply filter_iff_on. intros x Hx. rewrite Hiff by done. tauto.
Qed.

Lemma elem_of_take_inv {A} n (l : list A) x : x ∈ take n l → x ∈ l.
Proof. intros Hx. rewrite <-(take_drop n l). apply elem_of_app. by left. Qed.

Lemma elem_of_drop_inv {A} n (l : list A) x : x ∈ drop n l → x ∈ l.
Proof. intros Hx. rewrite <-(take_drop n l). apply elem_of_app. by right. Qed.
