(* ===== verification/PyString.v ===== *)
(** * Python strings

    The parts of Python's [str] and [int] that the program uses, on ASCII text, as functions
    on character lists: [split], [isnumeric], [strip], [int(s)], [str(n)], [startswith],
    [lower], and SQL's [LIKE]. *)

From S2P Require Import Prelude.
From Stdlib Require Import Ascii String.
#[local] Open Scope Z_scope.

Abbreviation chars := (list ascii).
Definition to_chars (s : string) : chars := list_ascii_of_string s.
Definition of_chars (l : chars) : string := string_of_list_ascii l.

Lemma of_to_chars s : of_chars (to_chars s) = s.
Proof. apply string_of_list_ascii_of_string. Qed.
Lemma to_of_chars l : to_chars (of_chars l) = l.
Proof. apply list_ascii_of_string_of_list_ascii. Qed.
Lemma to_chars_app s1 s2 : to_chars (String.append s1 s2) = to_chars s1 ++ to_chars s2.
Proof. induction s1 as [|c s1 IH]; simpl; [done|]. by rewrite IH. Qed.

#[global] Instance ascii_eq_dec : EqDecision ascii := ascii_dec.

Definition code (c : ascii) : Z := Z.of_N (N_of_ascii c).

Definition is_digit (c : ascii) : bool := (48 <=? code c) && (code c <=? 57).

(** [str.isspace] on ASCII: tab..carriage return, the four separators, space *)
Definition is_space (c : ascii) : bool :=
  ((9 <=? code c) && (code c <=? 13)) || ((28 <=? code c) && (code c <=? 32)).

(** [s.isnumeric()] *)
Definition isnumeric (l : chars) : bool :=
  negb (bool_decide (l = [])) && forallb is_digit l.

(** [c in s] *)
Definition contains (c : ascii) (l : chars) : bool := bool_decide (c ∈ l).

(** [s.split(c)]: never empty; the pieces between the occurrences of [c] *)
Fixpoint split (c : ascii) (l : chars) : list chars :=
  match l with
  | [] => [[]]
  | x :: l =>
      if decide (x = c) then [] :: split c l
      else match split c l with
           | [] => [[x]]
           | p :: ps => (x :: p) :: ps
           end
  end.

Fixpoint lstrip (l : chars) : chars :=
  match l with
  | [] => []
  | c :: l' => if is_space c then lstrip l' else l
  end.

(** [s.strip()] *)
Definition strip (l : chars) : chars := reverse (lstrip (reverse (lstrip l))).

Definition digit_value (c : ascii) : Z := code c - 48.

(** The digits of [int(s)]: at least one, single underscores allowed between digits. *)
Fixpoint int_digits (acc : Z) (prev_digit : bool) (l : chars) : option Z :=
  match l with
  | [] => if prev_digit then Some acc else None
  | c :: l =>
      if is_digit c then int_digits (10 * acc + digit_value c) true l
      else if decide (c = "_"%char) then
        if prev_digit then
          match l with
          | d :: _ => if is_digit d then int_digits acc false l else None
          | [] => None
          end
        else None
      else None
  end.

(** [int(s)]; [None] is [ValueError] *)
Definition py_int (l : chars) : option Z :=
  match strip l with
  | "+"%char :: l => int_digits 0 false l
  | "-"%char :: l => Z.opp <$> int_digits 0 false l
  | l => int_digits 0 false l
  end.

Definition digit_char (d : Z) : ascii := ascii_of_N (Z.to_N (48 + d)).

Fixpoint dec_go (fuel : nat) (n : Z) (acc : chars) : chars :=
  match fuel with
  | O => acc
  | S fuel =>
      let acc := digit_char (n mod 10) :: acc in
      if n <? 10 then acc else dec_go fuel (n / 10) acc
  end.

(** [str(n)] for a non-negative [n]; the fuel is one step per binary digit plus one *)
Definition py_str (n : Z) : chars := dec_go (S (Z.to_nat (Z.log2 n))) n [].

(** [str(n)] of any integer *)
Definition py_str_int (n : Z) : string :=
  of_chars (if n <? 0 then "-"%char :: py_str (- n) else py_str n).

(** [str(l)] of a list of integers, e.g. ["[1, 2]"] *)
Definition py_str_list (l : list Z) : string :=
  let fix items (l : list Z) : string :=
    match l with
    | [] => ""%string
    | [n] => py_str_int n
    | n :: l => String.append (py_str_int n) (String.append ", " (items l))
    end in
  String.append "[" (String.append (items l) "]").

(** [s.startswith(p)] *)
Fixpoint startswith (p l : chars) : bool :=
  match p, l with
  | [], _ => true
  | _, [] => false
  | c :: p, d :: l => bool_decide (c = d) && startswith p l
  end.

Definition lower_char (c : ascii) : ascii :=
  if (65 <=? code c) && (code c <=? 90) then ascii_of_N (N_of_ascii c + 32) else c.

(** [s.lower()] *)
Definition lower (l : chars) : chars := lower_char <$> l.

(** [s LIKE p] (case sensitive, as PostgreSQL): [%] any run, [_] any character *)
Fixpoint sql_like (p : chars) : chars → bool :=
  match p with
  | [] => λ l, bool_decide (l = [])
  | c :: p =>
      if decide (c = "%"%char) then
        fix any (l : chars) : bool :=
          sql_like p l || match l with [] => false | _ :: l' => any l' end
      else λ l,
        match l with
        | [] => false
        | d :: l => (bool_decide (c = "_"%char) || bool_decide (c = d)) && sql_like p l
        end
  end.

(** ** Lemmas *)

Lemma code_bound c : 0 <= code c < 256.
Proof. unfold code. pose proof (N_ascii_bounded c). lia. Qed.

Lemma code_digit_char d : 0 <= d < 10 → code (digit_char d) = 48 + d.
Proof.
  intros Hd. unfold code, digit_char. rewrite N_ascii_embedding; lia.
Qed.

Lemma is_digit_digit_char d : 0 <= d < 10 → is_digit (digit_char d) = true.
Proof. intros Hd. unfold is_digit. rewrite code_digit_char by done. lia. Qed.

Lemma digit_value_digit_char d : 0 <= d < 10 → digit_value (digit_char d) = d.
Proof. intros Hd. unfold digit_value. rewrite code_digit_char; lia. Qed.

Lemma is_digit_not_space c : is_digit c = true → is_space c = false.
Proof. unfold is_digit, is_space. lia. Qed.

Lemma is_digit_range c : is_digit c = true → 0 <= digit_value c < 10.
Proof. unfold is_digit, digit_value. lia. Qed.

Lemma split_nil_inv c l : split c l ≠ [].
Proof. destruct l as [|x l]; simpl; [done|]. split_cases; done. Qed.

Lemma split_no_sep c l : c ∉ l → split c l = [l].
Proof.
  induction l as [|x l IH]; intros Hc; [done|]; simpl.
  rewrite decide_False by set_solver. rewrite IH by set_solver. done.
Qed.

Lemma split_app c l l' : c ∉ l → split c (l ++ c :: l') = l :: split c l'.
Proof.
  induction l as [|x l IH]; intros Hc; simpl.
  - by rewrite decide_True.
  - rewrite decide_False by set_solver. rewrite IH by set_solver. done.
Qed.

(** joining the pieces with the separator gives the text back *)
Fixpoint join (c : ascii) (ps : list chars) : chars :=
  match ps with
  | [] => []
  | [p] => p
  | p :: ps => p ++ c :: join c ps
  end.

Lemma join_split c l : join c (split c l) = l.
Proof.
  induction l as [|x l IH]; [done|]; simpl.
  destruct (split c l) as [|p ps] eqn:E; [by apply split_nil_inv in E|].
  case_decide as Hx; subst; [done|]. destruct ps; simpl in *; by f_equal.
Qed.

Lemma split_pieces c l p : p ∈ split c l → c ∉ p.
Proof.
  revert p; induction l as [|x l IH]; intros p; simpl.
  - intros ->%list_elem_of_singleton. by apply not_elem_of_nil.
  - destruct (split c l) as [|q qs] eqn:E; [by apply split_nil_inv in E|].
    case_decide as Hx; rewrite elem_of_cons; intros [->|Hp]; try set_solver.
Qed.

Lemma forallb_isnumeric l : isnumeric l = true ↔ l ≠ [] ∧ ∀ c, c ∈ l → is_digit c = true.
Proof.
  unfold isnumeric. rewrite andb_true_iff, negb_true_iff, bool_decide_eq_false, forallb_forall.
  by setoid_rewrite <-list_elem_of_In.
Qed.

Lemma lstrip_id l : (∀ c, c ∈ l → is_space c = false) → lstrip l = l.
Proof. destruct l as [|c l]; intros Hl; [done|]; simpl. by rewrite Hl by left. Qed.

Lemma strip_id l : (∀ c, c ∈ l → is_space c = false) → strip l = l.
Proof.
  intros Hl. unfold strip. rewrite (lstrip_id l) by done.
  rewrite lstrip_id; [apply reverse_involutive|].
  intros c. rewrite elem_of_reverse. auto.
Qed.

Lemma int_digits_numeric l acc b :
  (∀ c, c ∈ l → is_digit c = true) → (b = true ∨ l ≠ []) →
  int_digits acc b l = Some (foldl (λ a c, 10 * a + digit_value c) acc l).
Proof.
  revert acc b; induction l as [|c l IH]; intros acc b Hl Hb; simpl.
  - destruct Hb as [->|]; done.
  - rewrite Hl by left. apply IH; [set_solver|by left].
Qed.

(** [int(s)] of a numeric string is the number its digits denote *)
Lemma py_int_numeric l :
  isnumeric l = true → py_int l = Some (foldl (λ a c, 10 * a + digit_value c) 0 l).
Proof.
  intros [Hne Hl]%forallb_isnumeric. unfold py_int.
  rewrite strip_id by (intros c Hc; by apply is_digit_not_space, Hl).
  destruct l as [|c l]; [done|].
  assert (is_digit c = true) as Hc by (apply Hl; left).
  transitivity (int_digits 0 false (c :: l)); [|apply int_digits_numeric; auto].
  destruct c as [[] [] [] [] [] [] [] []]; first [reflexivity|discriminate Hc].
Qed.

Lemma dec_go_spec fuel n acc :
  0 <= n → n < 2 ^ Z.of_nat fuel →
  ∃ ds, dec_go fuel n acc = ds ++ acc ∧ (∀ c, c ∈ ds → is_digit c = true) ∧
    ((0 < fuel)%nat → ds ≠ []) ∧
    foldl (λ a c, 10 * a + digit_value c) 0 ds = n.
Proof.
  revert n acc; induction fuel as [|fuel IH]; intros n acc Hn Hf.
  { exists []. split_and!; [done|set_solver|lia|]. simpl in *. lia. }
  simpl. pose proof (Z.mod_pos_bound n 10 ltac:(lia)) as Hm.
  case_match eqn:E.
  - exists [digit_char (n mod 10)]. split_and!; [done| |done|].
    + intros c ->%list_elem_of_singleton. by apply is_digit_digit_char.
    + simpl. rewrite digit_value_digit_char by done. rewrite Z.mod_small; lia.
  - assert (0 < n / 10) by (apply Z.div_str_pos; lia).
    assert (n / 10 < 2 ^ Z.of_nat fuel) as Hq.
    { apply Z.div_lt_upper_bound; [lia|].
      rewrite Nat2Z.inj_succ, Z.pow_succ_r in Hf by lia. lia. }
    destruct (IH (n / 10) (digit_char (n mod 10) :: acc)) as (ds & -> & Hd & Hne & Hv); [lia|done|].
    exists (ds ++ [digit_char (n mod 10)]). split_and!.
    + by rewrite <-app_assoc.
    + intros c. rewrite elem_of_app, list_elem_of_singleton. intros [?| ->]; [auto|].
      by apply is_digit_digit_char.
    + intros _ [_ ?]%app_nil. done.
    + rewrite foldl_app, Hv. simpl. rewrite digit_value_digit_char by done.
      pose proof (Z.div_mod n 10). lia.
Qed.

Lemma py_str_spec n :
  0 <= n → isnumeric (py_str n) = true ∧
    foldl (λ a c, 10 * a + digit_value c) 0 (py_str n) = n.
Proof.
  intros Hn. unfold py_str.
  destruct (dec_go_spec (S (Z.to_nat (Z.log2 n))) n []) as (ds & -> & Hd & Hne & Hv); [done| |].
  - rewrite Nat2Z.inj_succ, Z2Nat.id by apply Z.log2_nonneg.
    destruct (decide (n = 0)) as [->|]; [done|]. apply Z.log2_spec. lia.
  - rewrite app_nil_r. split; [|done]. apply forallb_isnumeric. split; [apply Hne; lia|done].
Qed.

(** [int(str(n)) == n] *)
Lemma py_int_py_str n : 0 <= n → py_int (py_str n) = Some n.
Proof. intros [Hnum Hv]%py_str_spec. by rewrite py_int_numeric, Hv. Qed.
