(* ===== verification/Address.v ===== *)
(** * IP addresses as text

    The part of Python's [ipaddress] the security modules use: [ip_address(s)] of a string (strict
    dotted octets; colon-separated groups with one [::], an IPv4 suffix and a [%scope]), [str] of
    an address, and the proof that they are inverse to each other. Groups and octets are read and
    printed as the library does it, on ASCII text. *)

From S2P Require Import Prelude PyString.
From Stdlib Require Import Ascii.
#[local] Open Scope Z_scope.

(** An address is a number of 32 or 128 bits; an IPv6 address may carry a scope id. *)
Inductive ip_addr : Type := V4 (n : Z) | V6 (n : Z) (scope : option chars).

#[global] Instance ip_addr_eq_dec : EqDecision ip_addr.
Proof. solve_decision. Defined.

Definition dot : ascii := ".".
Definition colon : ascii := ":".
Definition percent : ascii := "%".
Definition slash : ascii := "/".

(** [s.partition(c)]: the text before the first [c], and the text after it if there is one *)
Fixpoint partition_at (c : ascii) (l : chars) : chars * option chars :=
  match l with
  | [] => ([], None)
  | x :: l =>
      if decide (x = c) then ([], Some l)
      else let '(a, b) := partition_at c l in (x :: a, b)
  end.

(** ** IPv4 *)

Definition number (l : chars) : Z := foldl (λ a c, 10 * a + digit_value c) 0 l.

Definition parse_octet (s : chars) : option Z :=
  if negb (isnumeric s) then None
  else if (3 <? length s)%nat then None
  else if negb (bool_decide (s = ["0"%char])) && bool_decide (head s = Some "0"%char) then None
  else let n := number s in if 255 <? n then None else Some n.

Definition ipv4_address (s : chars) : option Z :=
  if contains slash s then None
  else match split dot s with
       | [a; b; c; d] =>
           a ← parse_octet a; b ← parse_octet b; c ← parse_octet c; d ← parse_octet d;
           Some (((a * 256 + b) * 256 + c) * 256 + d)
       | _ => None
       end.

Definition ipv4_str (n : Z) : chars :=
  join dot [py_str (n / 2 ^ 24); py_str (n / 2 ^ 16 mod 256); py_str (n / 2 ^ 8 mod 256);
            py_str (n mod 256)].

(** ** IPv6 *)

Definition is_hex (c : ascii) : bool :=
  is_digit c || ((97 <=? code c) && (code c <=? 102)) || ((65 <=? code c) && (code c <=? 70)).

Definition hex_digit_value (c : ascii) : Z :=
  if is_digit c then digit_value c else if 97 <=? code c then code c - 87 else code c - 55.

Definition parse_hextet (s : chars) : option Z :=
  if negb (forallb is_hex s) then None
  else if (4 <? length s)%nat then None
  else match s with [] => None | _ => Some (foldl (λ a c, 16 * a + hex_digit_value c) 0 s) end.

Definition hex_char (d : Z) : ascii := ascii_of_N (Z.to_N (if d <? 10 then 48 + d else 87 + d)).

(** ['%x' % n] for [n] below 65536 *)
Definition hextet_str (n : Z) : chars :=
  if n <? 16 then [hex_char n]
  else if n <? 256 then [hex_char (n / 16); hex_char (n mod 16)]
  else if n <? 4096 then [hex_char (n / 256); hex_char (n / 16 mod 16); hex_char (n mod 16)]
  else [hex_char (n / 4096); hex_char (n / 256 mod 16); hex_char (n / 16 mod 16); hex_char (n mod 16)].

Definition HEXTET_COUNT : nat := 8.

Definition hextets_value (l : list Z) : Z := foldl (λ a h, 2 ^ 16 * a + h) 0 l.

(** An IPv4-style last group becomes two groups. *)
Definition expand_suffix (parts : list chars) : option (list chars) :=
  match last parts with
  | Some p =>
      if contains dot p then
        n ← ipv4_address p;
        Some (removelast parts ++ [hextet_str (n / 2 ^ 16); hextet_str (n mod 2 ^ 16)])
      else Some parts
  | None => Some parts
  end.

(** The interior positions with an empty group: where [::] stands. *)
Definition empty_groups (parts : list chars) : list nat :=
  filter (λ i, parts !! i = Some []) (seq 1 (length parts - 2)).

Definition groups_value (parts : list chars) : option Z :=
  if (HEXTET_COUNT + 1 <? length parts)%nat then None
  else match empty_groups parts with
  | [skip] =>
      let lead := bool_decide (head parts = Some []) in
      let trail := bool_decide (last parts = Some []) in
      let hi := if lead then (skip - 1)%nat else skip in
      let lo := if trail then (length parts - skip - 2)%nat else (length parts - skip - 1)%nat in
      if lead && negb (hi =? 0)%nat then None
      else if trail && negb (lo =? 0)%nat then None
      else if (HEXTET_COUNT <=? hi + lo)%nat then None
      else
        his ← mapM parse_hextet (take hi parts);
        los ← mapM parse_hextet (drop (length parts - lo) parts);
        Some (hextets_value (his ++ replicate (HEXTET_COUNT - (hi + lo)) 0 ++ los))
  | [] =>
      if negb (length parts =? HEXTET_COUNT)%nat then None
      else hextets_value <$> mapM parse_hextet parts
  | _ => None
  end.

Definition ipv6_int (s : chars) : option Z :=
  let parts := split colon s in
  if (length parts <? 3)%nat then None
  else parts ← expand_suffix parts; groups_value parts.

Definition ipv6_address (s : chars) : option (Z * option chars) :=
  if contains slash s then None
  else match partition_at percent s with
       | (addr, None) => (λ n, (n, None)) <$> ipv6_int addr
       | (addr, Some scope) =>
           if bool_decide (scope = []) || contains percent scope then None
           else (λ n, (n, Some scope)) <$> ipv6_int addr
       end.

(** [ipaddress.ip_address(s)]; [None] is [ValueError] *)
Definition ip_address (s : chars) : option ip_addr :=
  match ipv4_address s with
  | Some n => Some (V4 n)
  | None => (λ '(n, scope), V6 n scope) <$> ipv6_address s
  end.

(** *** Printing *)

(** The 16-bit groups of a number, most significant first. *)
Fixpoint groups (k : nat) (n : Z) : list Z :=
  match k with
  | O => []
  | S k => groups k (n / 2 ^ 16) ++ [n mod 2 ^ 16]
  end.

(** The first longest run of zero groups, as its start and length: [start] and [len] describe the
    run that ends before position [i]. *)
Fixpoint best_run (i start len : nat) (best : nat * nat) (l : list Z) : nat * nat :=
  match l with
  | [] => best
  | h :: l =>
      if h =? 0 then
        let start := if (len =? 0)%nat then i else start in
        let len := S len in
        best_run (S i) start len (if (best.2 <? len)%nat then (start, len) else best) l
      else best_run (S i) start 0 best l
  end.

(** The texts of the groups around the run that [::] replaces. *)
Definition run_side (l : list Z) : list chars :=
  match l with [] => [[]] | _ => hextet_str <$> l end.

Definition around_run (hi lo : list Z) : list chars := run_side hi ++ [] :: run_side lo.

Definition compress_hextets (l : list Z) : list chars :=
  let '(s, n) := best_run 0 0 0 (0, 0)%nat l in
  if (1 <? n)%nat then around_run (take s l) (drop (s + n) l) else hextet_str <$> l.

Definition string_from_ip_int (n : Z) : chars := join colon (compress_hextets (groups HEXTET_COUNT n)).

Definition ipv4_mapped (n : Z) : option Z := if n / 2 ^ 32 =? 65535 then Some (n mod 2 ^ 32) else None.

Definition ipv6_str (n : Z) : chars :=
  match ipv4_mapped n with
  | Some v4 => string_from_ip_int (n / 2 ^ 32) ++ colon :: ipv4_str v4
  | None => string_from_ip_int n
  end.

(** [str(ip)] *)
Definition ip_str (a : ip_addr) : chars :=
  match a with
  | V4 n => ipv4_str n
  | V6 n None => ipv6_str n
  | V6 n (Some scope) => ipv6_str n ++ percent :: scope
  end.

(** The addresses there are: a number in range, a scope without the characters that end it. *)
Definition ip_ok (a : ip_addr) : Prop :=
  match a with
  | V4 n => 0 <= n < 2 ^ 32
  | V6 n None => 0 <= n < 2 ^ 128
  | V6 n (Some scope) => 0 <= n < 2 ^ 128 ∧ scope ≠ [] ∧ percent ∉ scope ∧ slash ∉ scope
  end.

(** ** Lemmas on text *)

Lemma split_join c ps : ps ≠ [] → (∀ p, p ∈ ps → c ∉ p) → split c (join c ps) = ps.
Proof.
  induction ps as [|p ps IH]; intros Hne Hps; [done|].
  destruct ps as [|q ps]; simpl; [apply split_no_sep, Hps; left|].
  rewrite split_app by (apply Hps; left). f_equal. apply IH; [done|]. intros r Hr. apply Hps. by right.
Qed.

Lemma join_chars c ps x : x ∈ join c ps → x = c ∨ ∃ p, p ∈ ps ∧ x ∈ p.
Proof.
  induction ps as [|p ps IH]; [by intros ?%not_elem_of_nil|].
  destruct ps as [|q ps]; [intros Hx; right; exists p; by split; [left|]|].
  change (join c (p :: q :: ps)) with (p ++ c :: join c (q :: ps)).
  rewrite elem_of_app, elem_of_cons. intros [Hx|[->|Hx]]; [right; exists p; by split; [left|]|by left|].
  destruct (IH Hx) as [->|(r & Hr & Hxr)]; [by left|]. right. exists r. by split; [right|].
Qed.

Lemma split_elem c l x : x ∈ l → x = c ∨ ∃ p, p ∈ split c l ∧ x ∈ p.
Proof. rewrite <-(join_split c l) at 1. apply join_chars. Qed.

Lemma partition_join c a b : c ∉ a → partition_at c (a ++ c :: b) = (a, Some b).
Proof.
  induction a as [|x a IH]; intros Ha; simpl; [by rewrite decide_True|].
  rewrite decide_False by set_solver. rewrite IH by set_solver. done.
Qed.

Lemma partition_none c a : c ∉ a → partition_at c a = (a, None).
Proof.
  induction a as [|x a IH]; intros Ha; simpl; [done|].
  rewrite decide_False by set_solver. rewrite IH by set_solver. done.
Qed.

Lemma partition_spec c l a b :
  partition_at c l = (a, b) → c ∉ a ∧ l = a ++ (match b with Some b => c :: b | None => [] end).
Proof.
  revert a b; induction l as [|x l IH]; intros a b; simpl.
  - intros [= <- <-]. split; [set_solver|done].
  - case_decide as Hx; [intros [= <- <-]; subst; split; [set_solver|done]|].
    destruct (partition_at c l) as [a' b'] eqn:E. intros [= <- <-].
    destruct (IH _ _ eq_refl) as [Ha ->]. split; [set_solver|done].
Qed.

Lemma contains_false c l : contains c l = false ↔ c ∉ l.
Proof. unfold contains. apply bool_decide_eq_false. Qed.

Lemma numeric_digits l c : isnumeric l = true → c ∈ l → is_digit c = true.
Proof. intros [_ H]%forallb_isnumeric. auto. Qed.

(** ** IPv4: text and number *)

(** Checks a decidable property of all numbers below a bound by evaluation. *)
Lemma below_dec (P : Z → bool) (n : Z) :
  forallb P (seqZ 0 n) = true → ∀ x, 0 <= x < n → P x = true.
Proof.
  intros H x Hx. rewrite forallb_forall in H. apply H, list_elem_of_In, elem_of_seqZ. lia.
Qed.

Lemma parse_octet_str n : 0 <= n < 256 → parse_octet (py_str n) = Some n ∧ isnumeric (py_str n) = true.
Proof.
  intros Hn. apply (below_dec (λ n, bool_decide (parse_octet (py_str n) = Some n ∧
    isnumeric (py_str n) = true)) 256) in Hn; [by apply bool_decide_eq_true in Hn|].
  vm_compute. reflexivity.
Qed.

Lemma number_nonneg l : (∀ c, c ∈ l → is_digit c = true) → 0 <= number l.
Proof.
  unfold number. generalize (Z.le_refl 0). generalize 0 at 2 4 as a.
  induction l as [|c l IH]; intros a Ha Hl; [done|].
  assert (is_digit c = true) as Hc%is_digit_range by (apply Hl; left).
  apply (IH (10 * a + digit_value c)); [lia|set_solver].
Qed.

Lemma parse_octet_inv s n : parse_octet s = Some n → isnumeric s = true ∧ 0 <= n < 256.
Proof.
  unfold parse_octet. destruct (isnumeric s) eqn:Hs; [|done]. cbn [negb].
  case_match; [done|]. case_match; [done|]. destruct (255 <? number s) eqn:Hn; [done|].
  intros [= <-]. split; [done|]. split; [|lia].
  apply number_nonneg. intros c. by apply numeric_digits.
Qed.

Lemma ipv4_address_inv s n :
  ipv4_address s = Some n →
  0 <= n < 2 ^ 32 ∧ ∀ c, c ∈ s → c = dot ∨ is_digit c = true.
Proof.
  unfold ipv4_address. case_match; [done|].
  destruct (split dot s) as [|a [|b [|c [|d []]]]] eqn:Hs; try done.
  destruct (parse_octet a) as [na|] eqn:Ha; [|done].
  destruct (parse_octet b) as [nb|] eqn:Hb; [|done].
  destruct (parse_octet c) as [nc|] eqn:Hc; [|done].
  destruct (parse_octet d) as [nd|] eqn:Hd; [|done].
  intros [= <-].
  apply parse_octet_inv in Ha as [Ha ?], Hb as [Hb ?], Hc as [Hc ?], Hd as [Hd ?].
  split; [lia|].
  intros x Hx. apply (split_elem dot) in Hx as [->|(p & Hp & Hx)]; [by left|right].
  rewrite Hs in Hp. repeat (apply elem_of_cons in Hp as [->|Hp];
    [eapply numeric_digits; [|exact Hx]; assumption|]).
  by apply not_elem_of_nil in Hp.
Qed.

Lemma digit_not c d : is_digit c = false → is_digit d = true → c ≠ d.
Proof. intros ? ? ->. congruence. Qed.

Lemma ipv4_str_chars n c : 0 <= n < 2 ^ 32 → c ∈ ipv4_str n → c = dot ∨ is_digit c = true.
Proof.
  intros Hn [->|(p & Hp & Hc)]%join_chars; [by left|right].
  eapply numeric_digits; [|done].
  assert (0 <= n / 2 ^ 24 < 256) by (split; [apply Z.div_pos|apply Z.div_lt_upper_bound]; lia).
  pose proof (Z.mod_pos_bound (n / 2 ^ 16) 256 ltac:(lia)). pose proof (Z.mod_pos_bound (n / 2 ^ 8) 256 ltac:(lia)).
  pose proof (Z.mod_pos_bound n 256 ltac:(lia)).
  repeat (apply elem_of_cons in Hp as [->|Hp]; [apply parse_octet_str; lia|]).
  by apply not_elem_of_nil in Hp.
Qed.

Lemma ipv4_value n :
  ((n / 2 ^ 24 * 256 + n / 2 ^ 16 mod 256) * 256 + n / 2 ^ 8 mod 256) * 256 + n mod 256 = n.
Proof.
  change (2 ^ 24) with 16777216. change (2 ^ 16) with 65536. change (2 ^ 8) with 256.
  Z.to_euclidean_division_equations. lia.
Qed.

Lemma ipv4_address_str n : 0 <= n < 2 ^ 32 → ipv4_address (ipv4_str n) = Some n.
Proof.
  intros Hn. unfold ipv4_address.
  assert (contains slash (ipv4_str n) = false) as ->.
  { apply contains_false. by intros [?|?]%ipv4_str_chars. }
  assert (0 <= n / 2 ^ 24 < 256) by (split; [apply Z.div_pos|apply Z.div_lt_upper_bound]; lia).
  pose proof (Z.mod_pos_bound (n / 2 ^ 16) 256 ltac:(lia)). pose proof (Z.mod_pos_bound (n / 2 ^ 8) 256 ltac:(lia)).
  pose proof (Z.mod_pos_bound n 256 ltac:(lia)).
  unfold ipv4_str. rewrite split_join.
  - do 4 (erewrite (proj1 (parse_octet_str _ _)); simpl). f_equal. apply ipv4_value.
  - done.
  - intros p Hp Hdot.
    repeat (apply elem_of_cons in Hp as [->|Hp];
            [eapply numeric_digits in Hdot; [done|apply parse_octet_str; lia]|]).
    by apply not_elem_of_nil in Hp.
  Unshelve. all: lia.
Qed.

(** ** IPv6: groups, runs and text *)

Definition hextet_ok (h : Z) : Prop := 0 <= h < 2 ^ 16.

(** The digits the printer uses are in lower case. *)
Definition hex_text (c : ascii) : bool := is_hex c && bool_decide (lower_char c = c).

Lemma hex_text_hex c : hex_text c = true → is_hex c = true.
Proof. by intros [? _]%andb_true_iff. Qed.

Lemma hex_char_spec d : 0 <= d < 16 → hex_text (hex_char d) = true ∧ hex_digit_value (hex_char d) = d.
Proof.
  intros Hd. apply (below_dec (λ d, hex_text (hex_char d) && (hex_digit_value (hex_char d) =? d)) 16) in Hd.
  - apply andb_true_iff in Hd as [? ?%Z.eqb_eq]. done.
  - vm_compute. reflexivity.
Qed.

(** One text of at most four hexadecimal digits. *)
Lemma parse_hextet_digits ds n :
  ds ≠ [] → (length ds ≤ 4)%nat → Forall (λ d, 0 <= d < 16) ds →
  foldl (λ a d, 16 * a + d) 0 ds = n →
  parse_hextet (hex_char <$> ds) = Some n ∧ forallb hex_text (hex_char <$> ds) = true ∧
  hex_char <$> ds ≠ [].
Proof.
  intros Hne Hlen Hds Hn.
  assert (forallb hex_text (hex_char <$> ds) = true) as Htext.
  { rewrite forallb_forall. intros c (d & -> & Hd)%list_elem_of_In%list_elem_of_fmap.
    rewrite Forall_forall in Hds. by apply hex_char_spec, Hds. }
  assert (forallb is_hex (hex_char <$> ds) = true) as Hhex.
  { rewrite forallb_forall in *. intros c Hc. by apply hex_text_hex, Htext. }
  assert (hex_char <$> ds ≠ []) as Hne' by by destruct ds.
  assert (∀ a, foldl (λ a c, 16 * a + hex_digit_value c) a (hex_char <$> ds) =
               foldl (λ a d, 16 * a + d) a ds) as Hfold.
  { clear - Hds. induction Hds as [|d ds Hd Hds IH]; intros a; [done|].
    cbn [fmap list_fmap foldl]. by rewrite IH, (proj2 (hex_char_spec d Hd)). }
  split_and!; [|done|done]. unfold parse_hextet. rewrite Hhex, length_fmap. cbn [negb].
  destruct (Nat.ltb_spec 4 (length ds)); [lia|]. rewrite Hfold, Hn. by destruct (hex_char <$> ds).
Qed.

Lemma hextet_str_spec n : hextet_ok n →
  parse_hextet (hextet_str n) = Some n ∧ forallb hex_text (hextet_str n) = true ∧ hextet_str n ≠ [].
Proof.
  unfold hextet_ok, hextet_str. change (2 ^ 16) with 65536. intros Hn.
  destruct (Z.ltb_spec n 16); [|destruct (Z.ltb_spec n 256); [|destruct (Z.ltb_spec n 4096)]];
    [apply (parse_hextet_digits [n])
    |apply (parse_hextet_digits [n / 16; n mod 16])
    |apply (parse_hextet_digits [n / 256; n / 16 mod 16; n mod 16])
    |apply (parse_hextet_digits [n / 4096; n / 256 mod 16; n / 16 mod 16; n mod 16])];
    try done; try (simpl length; lia);
    try (repeat (constructor; [Z.to_euclidean_division_equations; lia|]); constructor);
    cbn [foldl]; Z.to_euclidean_division_equations; lia.
Qed.

Lemma hextet_chars n c : hextet_ok n → c ∈ hextet_str n → hex_text c = true.
Proof.
  intros (_ & H & _)%hextet_str_spec Hc. rewrite forallb_forall in H. by apply H, list_elem_of_In.
Qed.

Lemma mapM_hextets l : Forall hextet_ok l → mapM parse_hextet (hextet_str <$> l) = Some l.
Proof.
  intros Hl. apply mapM_fmap_Forall_Some. eapply Forall_impl; [done|].
  intros h Hh. by apply hextet_str_spec.
Qed.

Lemma hextets_value_snoc l h : hextets_value (l ++ [h]) = 2 ^ 16 * hextets_value l + h.
Proof. unfold hextets_value. by rewrite foldl_app. Qed.

Lemma groups_spec k n :
  0 <= n < 2 ^ (16 * Z.of_nat k) →
  hextets_value (groups k n) = n ∧ Forall hextet_ok (groups k n) ∧ length (groups k n) = k.
Proof.
  revert n; induction k as [|k IH]; intros n Hn.
  - change (2 ^ (16 * Z.of_nat 0)) with 1 in Hn. split_and!; [|constructor|done]. simpl. unfold hextets_value. simpl. lia.
  - destruct (IH (n / 2 ^ 16)) as (Hv & Hok & Hlen).
    { split; [apply Z.div_pos; lia|]. apply Z.div_lt_upper_bound; [done|].
      rewrite <-Z.pow_add_r by lia. replace (16 + 16 * Z.of_nat k) with (16 * Z.of_nat (S k)) by lia. lia. }
    cbn [groups]. rewrite hextets_value_snoc, Hv, length_app, Hlen. split_and!.
    + pose proof (Z.div_mod n (2 ^ 16) ltac:(done)). lia.
    + apply Forall_app. split; [done|]. constructor; [|done]. by apply Z.mod_pos_bound.
    + simpl. lia.
Qed.

(** The run the printer replaces is a run of zero groups. *)
Lemma best_run_zero l0 l pre start len best s n :
  l0 = pre ++ l →
  ((start + len)%nat = length pre ∨ len = O) →
  (∀ k, (start ≤ k < start + len)%nat → l0 !! k = Some 0) →
  ((best.1 + best.2 ≤ length l0)%nat ∧ ∀ k, (best.1 ≤ k < best.1 + best.2)%nat → l0 !! k = Some 0) →
  best_run (length pre) start len best l = (s, n) →
  (s + n ≤ length l0)%nat ∧ ∀ k, (s ≤ k < s + n)%nat → l0 !! k = Some 0.
Proof.
  revert pre start len best; induction l as [|h l IH]; intros pre start len best Hl0 Hrun Hz Hb; simpl.
  { intros ->. done. }
  assert (l0 = (pre ++ [h]) ++ l) as Hl0' by by rewrite <-app_assoc.
  assert (length (pre ++ [h]) = S (length pre)) as Hpre by (rewrite length_app; simpl; lia).
  assert (length l0 = length pre + S (length l))%nat as Hlen by (rewrite Hl0, length_app; done).
  rewrite <-Hpre. destruct (h =? 0) eqn:Hh; cycle 1.
  { apply IH; auto. intros k Hk. lia. }
  set (start' := if (len =? 0)%nat then length pre else start).
  assert (l0 !! length pre = Some 0) as Hat.
  { rewrite Hl0, list_lookup_middle by done. f_equal. lia. }
  assert ((start' + S len)%nat = length (pre ++ [h])) as Hrun'.
  { subst start'. case_match eqn:E; [apply Nat.eqb_eq in E|apply Nat.eqb_neq in E]; lia. }
  assert (∀ k, (start' ≤ k < start' + S len)%nat → l0 !! k = Some 0) as Hz'.
  { intros k Hk. destruct (decide (k = length pre)) as [->|]; [done|].
    subst start'. case_match eqn:E; [lia|]. apply Hz. lia. }
  apply IH; auto. case_match; [|done]. simpl. split; [lia|done].
Qed.

Lemma run_split (l : list Z) s n :
  (s + n ≤ length l)%nat → (∀ k, (s ≤ k < s + n)%nat → l !! k = Some 0) →
  l = take s l ++ replicate n 0 ++ drop (s + n) l.
Proof.
  intros Hlen Hz. rewrite <-(take_drop s l) at 1. f_equal.
  rewrite <-(take_drop n (drop s l)) at 1. rewrite drop_drop. f_equal.
  apply list_eq. intros k. destruct (decide (k < n)%nat) as [Hk|Hk].
  - rewrite lookup_take_lt, lookup_drop, Hz, lookup_replicate_2 by lia. done.
  - rewrite lookup_take_ge by lia. symmetry. apply lookup_replicate_None. lia.
Qed.

Lemma filter_seq_single (P : nat → Prop) {HP : ∀ i, Decision (P i)} a n k :
  (a ≤ k < a + n)%nat → P k → (∀ i, (a ≤ i < a + n)%nat → P i → i = k) → filter P (seq a n) = [k].
Proof.
  revert a; induction n as [|n IH]; intros a Hk HPk Hu; [lia|]. cbn [seq].
  destruct (decide (a = k)) as [->|Hne].
  - rewrite filter_cons_True by done. f_equal. apply elem_of_nil_inv.
    intros i (Hi & [? ?]%elem_of_seq)%list_elem_of_filter. pose proof (Hu i ltac:(lia) Hi). lia.
  - rewrite filter_cons_False by (intros Ha; apply Hne, Hu; [lia|done]).
    apply IH; [lia|done|]. intros i Hi. apply Hu. lia.
Qed.

Lemma run_side_length l : length (run_side l) = (length l `max` 1)%nat.
Proof. destruct l; simpl; [done|]. rewrite length_fmap. lia. Qed.

Lemma run_side_empty l i : Forall hextet_ok l → run_side l !! i = Some [] → l = [] ∧ i = O.
Proof.
  destruct l as [|h l]; intros Hl.
  - destruct i; [done|]. by rewrite lookup_nil || done.
  - unfold run_side. rewrite list_lookup_fmap.
    destruct ((h :: l) !! i) as [x|] eqn:E; [|done]. simpl. intros [= Hx].
    rewrite Forall_forall in Hl. by destruct (hextet_str_spec x) as (_ & _ & ?); [by eapply Hl, list_elem_of_lookup_2|].
Qed.

Lemma run_side_head l : Forall hextet_ok l →
  bool_decide (head (run_side l) = Some []) = bool_decide (l = []).
Proof.
  intros Hl. apply bool_decide_ext. rewrite head_lookup. split; [|by intros ->].
  by intros [? _]%run_side_empty.
Qed.

Lemma run_side_last l : Forall hextet_ok l →
  bool_decide (last (run_side l) = Some []) = bool_decide (l = []).
Proof.
  intros Hl. apply bool_decide_ext. rewrite last_lookup. split; [|by intros ->].
  by intros [? _]%run_side_empty.
Qed.

Lemma around_run_groups hi lo :
  Forall hextet_ok hi → Forall hextet_ok lo →
  empty_groups (around_run hi lo) = [length hi `max` 1]%nat.
Proof.
  intros Hhi Hlo. unfold empty_groups, around_run. rewrite length_app. cbn [length].
  rewrite !run_side_length. apply filter_seq_single.
  - lia.
  - rewrite lookup_app_r by (rewrite run_side_length; lia).
    by rewrite run_side_length, Nat.sub_diag.
  - intros i Hi. destruct (decide (i < length hi `max` 1)%nat) as [Hlt|Hge].
    + rewrite lookup_app_l by (rewrite run_side_length; lia).
      intros [_ ->]%run_side_empty; [lia|done].
    + rewrite lookup_app_r, run_side_length by (rewrite run_side_length; lia).
      destruct (i - length hi `max` 1)%nat as [|k] eqn:E; [lia|]. cbn [lookup list_lookup].
      intros [-> ->]%run_side_empty; [|done]. simpl in Hi. lia.
Qed.

(** Groups around a run are read back with zeros for the run. *)
Lemma groups_value_run hi lo :
  Forall hextet_ok hi → Forall hextet_ok lo → (length hi + length lo ≤ 7)%nat →
  groups_value (around_run hi lo) =
    Some (hextets_value (hi ++ replicate (8 - (length hi + length lo)) 0 ++ lo)).
Proof.
  intros Hhi Hlo Hlen. unfold groups_value. rewrite around_run_groups by done.
  assert (length (around_run hi lo) = (length hi `max` 1) + S (length lo `max` 1))%nat as Hl.
  { unfold around_run. rewrite length_app. cbn [length]. by rewrite !run_side_length. }
  rewrite Hl. destruct (Nat.ltb_spec (HEXTET_COUNT + 1) (length hi `max` 1 + S (length lo `max` 1)));
    [unfold HEXTET_COUNT in *; lia|].
  assert (bool_decide (head (around_run hi lo) = Some []) = bool_decide (hi = [])) as ->.
  { rewrite <-run_side_head by done. unfold around_run. by destruct hi. }
  assert (bool_decide (last (around_run hi lo) = Some []) = bool_decide (lo = [])) as ->.
  { rewrite <-run_side_last by done. unfold around_run. rewrite last_app_cons.
    rewrite last_cons. destruct (last (run_side lo)) eqn:E; [done|].
    apply last_None in E. by destruct lo. }
  assert ((if bool_decide (hi = []) then (length hi `max` 1 - 1)%nat else length hi `max` 1)%nat = length hi) as ->.
  { case_bool_decide; destruct hi; simpl in *; try done; lia. }
  assert ((if bool_decide (lo = [])
           then length hi `max` 1 + S (length lo `max` 1) - length hi `max` 1 - 2
           else length hi `max` 1 + S (length lo `max` 1) - length hi `max` 1 - 1)%nat = length lo) as ->.
  { case_bool_decide; destruct lo; simpl length in *; try done; lia. }
  assert (bool_decide (hi = []) && negb (length hi =? 0)%nat = false) as -> by by destruct hi.
  assert (bool_decide (lo = []) && negb (length lo =? 0)%nat = false) as -> by by destruct lo.
  destruct (Nat.leb_spec HEXTET_COUNT (length hi + length lo)); [unfold HEXTET_COUNT in *; lia|].
  assert (take (length hi) (around_run hi lo) = hextet_str <$> hi) as ->.
  { unfold around_run. destruct hi as [|h hi]; [done|]. cbn [run_side].
    by rewrite take_app_length' by by rewrite length_fmap. }
  assert (drop (length hi `max` 1 + S (length lo `max` 1) - length lo) (around_run hi lo) = hextet_str <$> lo) as ->.
  { unfold around_run. change ([] :: run_side lo) with ([[]] ++ run_side lo). rewrite app_assoc.
    destruct lo as [|l lo]; [apply drop_ge; rewrite !length_app, run_side_length; simpl; lia|].
    cbn [run_side]. rewrite drop_app_length'; [done|]. rewrite length_app, run_side_length. cbn [length]. lia. }
  rewrite !mapM_hextets by done. done.
Qed.

Lemma run_side_chars l p c : Forall hextet_ok l → p ∈ run_side l → c ∈ p → hex_text c = true.
Proof.
  destruct l as [|h l]; intros Hl.
  - intros ->%list_elem_of_singleton ?%not_elem_of_nil. done.
  - intros (x & -> & Hx)%list_elem_of_fmap. apply hextet_chars. by eapply Forall_forall.
Qed.

Lemma around_run_chars hi lo p c :
  Forall hextet_ok hi → Forall hextet_ok lo → p ∈ around_run hi lo → c ∈ p → hex_text c = true.
Proof.
  intros Hhi Hlo [Hp|[->|Hp]%elem_of_cons]%elem_of_app Hc; [|by apply not_elem_of_nil in Hc|].
  - by apply (run_side_chars hi p).
  - by apply (run_side_chars lo p).
Qed.

Lemma texts_value l :
  Forall hextet_ok l → length l = HEXTET_COUNT → groups_value (hextet_str <$> l) = Some (hextets_value l).
Proof.
  intros Hl Hlen. unfold groups_value. rewrite length_fmap, Hlen. cbn [Nat.ltb Nat.leb].
  assert (empty_groups (hextet_str <$> l) = []) as ->.
  { apply elem_of_nil_inv. intros i [Hi _]%list_elem_of_filter. rewrite list_lookup_fmap in Hi.
    destruct (l !! i) as [h|] eqn:E; [|done]. simpl in Hi. injection Hi as Hi.
    apply list_elem_of_lookup_2 in E. eapply Forall_forall in E; [|done].
    by apply hextet_str_spec in E as (_ & _ & ?). }
  simpl. by rewrite mapM_hextets.
Qed.

Lemma compress_spec l :
  Forall hextet_ok l → length l = HEXTET_COUNT →
  groups_value (compress_hextets l) = Some (hextets_value l) ∧ (3 ≤ length (compress_hextets l))%nat ∧
  ∀ p c, p ∈ compress_hextets l → c ∈ p → hex_text c = true.
Proof.
  intros Hl Hlen. unfold compress_hextets. destruct (best_run 0 0 0 (0, 0)%nat l) as [s n] eqn:Hb.
  apply (best_run_zero l l []) in Hb as [Hsn Hz]; [|done|by right|simpl; lia|split; simpl; lia].
  unfold HEXTET_COUNT in Hlen.
  destruct (Nat.ltb_spec 1 n) as [Hn|Hn]; cycle 1.
  { split_and!; [by apply texts_value|rewrite length_fmap; lia|].
    intros p c (h & -> & Hh)%list_elem_of_fmap. apply hextet_chars. by eapply Forall_forall. }
  assert (Forall hextet_ok (take s l)) as Hhi by by apply Forall_take.
  assert (Forall hextet_ok (drop (s + n) l)) as Hlo by by apply Forall_drop.
  split_and!.
  - rewrite groups_value_run; [|done|done|rewrite length_take, length_drop; lia].
    rewrite length_take, length_drop, Hlen. replace (8 - (s `min` 8 + (8 - (s + n))))%nat with n by lia.
    by rewrite <-(run_split l s n Hsn Hz).
  - unfold around_run. rewrite length_app. cbn [length]. rewrite !run_side_length. lia.
  - intros p c. by apply around_run_chars.
Qed.

Lemma hex_not_punct c : hex_text c = true → c ≠ colon ∧ c ≠ dot ∧ c ≠ slash ∧ c ≠ percent.
Proof. intros Hc. split_and!; intros ->; discriminate Hc. Qed.

Lemma ipv6_int_join parts n :
  (3 ≤ length parts)%nat → (∀ p c, p ∈ parts → c ∈ p → hex_text c = true) →
  groups_value parts = Some n → ipv6_int (join colon parts) = Some n.
Proof.
  intros Hlen Hhex Hv. unfold ipv6_int.
  rewrite split_join; [|by destruct parts|].
  - destruct (Nat.ltb_spec (length parts) 3); [lia|]. unfold expand_suffix.
    destruct (last parts) as [p|] eqn:E; [|done].
    assert (contains dot p = false) as ->; [|done].
    apply contains_false. intros Hd. apply last_Some_elem_of in E.
    by destruct (hex_not_punct dot (Hhex _ _ E Hd)) as (_ & ? & _).
  - intros p Hp Hc. by destruct (hex_not_punct colon (Hhex _ _ Hp Hc)).
Qed.

Lemma string_from_ip_int_spec n :
  0 <= n < 2 ^ 128 →
  ipv6_int (string_from_ip_int n) = Some n ∧
  colon ∈ string_from_ip_int n ∧
  ∀ c, c ∈ string_from_ip_int n → c = colon ∨ hex_text c = true.
Proof.
  intros Hn. destruct (groups_spec HEXTET_COUNT n Hn) as (Hv & Hok & Hlen).
  destruct (compress_spec _ Hok Hlen) as (Hg & H3 & Hhex). unfold string_from_ip_int. split_and!.
  - apply ipv6_int_join; [done|done|]. by rewrite Hg, Hv.
  - destruct (compress_hextets (groups HEXTET_COUNT n)) as [|p [|q ps]]; simpl in H3; [lia|lia|].
    change (join colon (p :: q :: ps)) with (p ++ colon :: join colon (q :: ps)).
    apply elem_of_app. right. left.
  - intros c [->|(p & Hp & Hc)]%join_chars; [by left|right]. by eapply Hhex.
Qed.

Lemma digit_hex c : is_digit c = true → hex_text c = true.
Proof.
  intros Hc. unfold hex_text, is_hex. rewrite Hc. simpl. apply bool_decide_eq_true.
  unfold lower_char, is_digit in *. case_match; [lia|done].
Qed.

Lemma ipv6_str_spec n :
  0 <= n < 2 ^ 128 →
  ipv6_int (ipv6_str n) = Some n ∧ colon ∈ ipv6_str n ∧
  ∀ c, c ∈ ipv6_str n → c = colon ∨ c = dot ∨ hex_text c = true.
Proof.
  intros Hn. unfold ipv6_str, ipv4_mapped. destruct (Z.eqb_spec (n / 2 ^ 32) 65535) as [Hm|Hm]; cycle 1.
  { destruct (string_from_ip_int_spec n Hn) as (? & ? & Hc). split_and!; [done|done|].
    intros c [->|?]%Hc; auto. }
  rewrite Hm. set (v4 := n mod 2 ^ 32).
  assert (0 <= v4 < 2 ^ 32) as Hv4 by (apply Z.mod_pos_bound; lia).
  assert (n = 65535 * 2 ^ 32 + v4) as Hnv by (pose proof (Z.div_mod n (2 ^ 32) ltac:(lia)); subst v4; lia).
  set (parts := [[]; []; hextet_str 65535; ipv4_str v4]).
  assert (string_from_ip_int 65535 ++ colon :: ipv4_str v4 = join colon parts) as -> by done.
  assert (hextet_ok 65535 ∧ hextet_ok (v4 / 2 ^ 16) ∧ hextet_ok (v4 mod 2 ^ 16)) as (Hf & Hh & Hl).
  { unfold hextet_ok. split_and!; try lia; Z.to_euclidean_division_equations; lia. }
  assert (∀ p c, p ∈ parts → c ∈ p → c = dot ∨ hex_text c = true) as Hchars.
  { intros p c [->|[->|[->|[->|[]%not_elem_of_nil]%elem_of_cons]%elem_of_cons]%elem_of_cons]%elem_of_cons Hc.
    - by apply not_elem_of_nil in Hc.
    - by apply not_elem_of_nil in Hc.
    - right. by apply (hextet_chars 65535).
    - apply ipv4_str_chars in Hc as [->|?%digit_hex]; auto. }
  split_and!.
  - unfold ipv6_int. rewrite split_join; [|done|].
    2: { intros p Hp Hc. by destruct (Hchars _ _ Hp Hc). }
    cbn [length Nat.ltb Nat.leb]. unfold expand_suffix. cbn [last parts].
    assert (contains dot (ipv4_str v4) = true) as ->.
    { apply bool_decide_eq_true. unfold ipv4_str. cbn [join]. apply elem_of_app. right. left. }
    rewrite ipv4_address_str by done.
    change (groups_value (around_run [] [65535; v4 / 2 ^ 16; v4 mod 2 ^ 16]) = Some n).
    rewrite groups_value_run; [|by apply Forall_nil|by rewrite !Forall_cons, Forall_nil|simpl; lia].
    f_equal. change (hextets_value ([] ++ replicate (8 - (0 + 3)) 0 ++ [65535; v4 / 2 ^ 16; v4 mod 2 ^ 16]) = n).
    rewrite Hnv. unfold hextets_value. cbn [app replicate foldl Nat.sub Nat.add].
    change (2 ^ 16) with 65536. change (2 ^ 32) with 4294967296.
    pose proof (Z.div_mod v4 65536 ltac:(lia)). lia.
  - apply elem_of_app. right. left.
  - intros c [->|(p & Hp & Hc)]%join_chars; [by left|right]. by eapply Hchars.
Qed.

Lemma str_not_ipv4 s : colon ∈ s → ipv4_address s = None.
Proof.
  intros Hc. destruct (ipv4_address s) as [n|] eqn:E; [|done].
  apply ipv4_address_inv in E as [_ Hd]. by destruct (Hd _ Hc).
Qed.

(** [ip_address(str(ip)) == ip] *)
Lemma ip_address_str a : ip_ok a → ip_address (ip_str a) = Some a.
Proof.
  destruct a as [n|n [scope|]]; cbn [ip_ok ip_str]; intros Ha; unfold ip_address.
  - by rewrite ipv4_address_str.
  - destruct Ha as (Hn & Hne & Hp & Hs). destruct (ipv6_str_spec n Hn) as (Hv & Hc & Hchars).
    rewrite str_not_ipv4 by (apply elem_of_app; by left). unfold ipv6_address.
    assert (contains slash (ipv6_str n ++ percent :: scope) = false) as ->.
    { apply contains_false. intros [H|[H|H]%elem_of_cons]%elem_of_app; [|done|done].
      by destruct (Hchars _ H) as [?|[?|?]]. }
    rewrite partition_join by (intros H; by destruct (Hchars _ H) as [?|[?|?]]).
    rewrite bool_decide_eq_false_2 by done. rewrite (proj2 (contains_false percent scope)) by done.
    simpl. by rewrite Hv.
  - destruct (ipv6_str_spec n Ha) as (Hv & Hc & Hchars).
    rewrite str_not_ipv4 by done. unfold ipv6_address.
    rewrite (proj2 (contains_false slash (ipv6_str n)))
      by (intros H; by destruct (Hchars _ H) as [?|[?|?]]).
    rewrite partition_none by (intros H; by destruct (Hchars _ H) as [?|[?|?]]).
    by rewrite Hv.
Qed.

(** ** What is read is an address *)

Lemma hex_value_range c : is_hex c = true → 0 <= hex_digit_value c < 16.
Proof. unfold is_hex, hex_digit_value, is_digit, digit_value. repeat case_match; lia. Qed.

Lemma hex_fold_range l a k :
  (∀ c, c ∈ l → is_hex c = true) → 0 <= a < 16 ^ Z.of_nat k →
  0 <= foldl (λ a c, 16 * a + hex_digit_value c) a l < 16 ^ Z.of_nat (k + length l).
Proof.
  revert a k; induction l as [|c l IH]; intros a k Hl Ha; cbn [foldl length].
  { by rewrite Nat.add_0_r. }
  rewrite Nat.add_succ_r, <-Nat.add_succ_l.
  assert (is_hex c = true) as Hc%hex_value_range by (apply Hl; left).
  apply (IH (16 * a + hex_digit_value c) (S k)); [set_solver|].
  rewrite Nat2Z.inj_succ, Z.pow_succ_r by apply Nat2Z.is_nonneg. lia.
Qed.

Lemma parse_hextet_ok s h : parse_hextet s = Some h → hextet_ok h.
Proof.
  unfold parse_hextet. destruct (forallb is_hex s) eqn:Hs; [|done]. cbn [negb].
  destruct (Nat.ltb_spec 4 (length s)) as [|Hlen]; [done|].
  intros Hh. destruct s as [|c s]; [done|].
  assert (foldl (λ a c, 16 * a + hex_digit_value c) 0 (c :: s) = h) as <- by congruence.
  rewrite forallb_forall in Hs.
  pose proof (hex_fold_range (c :: s) 0 0 ltac:(intros x Hx; by apply Hs, list_elem_of_In) ltac:(lia)) as Hr.
  assert (16 ^ Z.of_nat (0 + length (c :: s)) <= 16 ^ 4) by (apply Z.pow_le_mono_r; [done|simpl length; simpl length in Hlen; lia]).
  unfold hextet_ok. change (2 ^ 16) with 65536. change (16 ^ 4) with 65536 in *. lia.
Qed.

Lemma mapM_hextets_ok ps l : mapM parse_hextet ps = Some l → Forall hextet_ok l ∧ length l = length ps.
Proof.
  intros H%mapM_Some. split; [|symmetry; by eapply Forall2_length].
  eapply Forall2_Forall_r; [done|]. apply Forall_forall. intros p _ h. apply parse_hextet_ok.
Qed.

Lemma hextets_range l :
  Forall hextet_ok l → 0 <= hextets_value l < 2 ^ (16 * Z.of_nat (length l)).
Proof.
  induction l as [|h l IH] using rev_ind; [done|].
  rewrite Forall_app, Forall_singleton. unfold hextet_ok. intros [Hl%IH Hh].
  rewrite hextets_value_snoc, length_app, Nat.add_1_r, Nat2Z.inj_succ.
  replace (16 * Z.succ (Z.of_nat (length l))) with (16 + 16 * Z.of_nat (length l)) by lia.
  rewrite Z.pow_add_r by lia. nia.
Qed.

Lemma groups_value_range parts n : groups_value parts = Some n → 0 <= n < 2 ^ 128.
Proof.
  unfold groups_value. case_match; [done|].
  destruct (empty_groups parts) as [|skip []]; [| |done].
  - case_match eqn:E; [done|]. destruct (mapM parse_hextet parts) as [l|] eqn:Hm; [|done].
    apply mapM_hextets_ok in Hm as [Hok Hlen]. intros [= <-]. apply hextets_range in Hok.
    apply negb_false_iff, Nat.eqb_eq in E. by rewrite Hlen, E in Hok.
  - set (hi := if bool_decide (head parts = Some []) then _ else _).
    set (lo := if bool_decide (last parts = Some []) then _ else _).
    case_match; [done|]. case_match; [done|].
    destruct (Nat.leb_spec HEXTET_COUNT (hi + lo)) as [|Hn]; [done|].
    destruct (mapM parse_hextet (take hi parts)) as [his|] eqn:Hm1; [|done].
    destruct (mapM parse_hextet (drop (length parts - lo) parts)) as [los|] eqn:Hm2; [|done].
    apply mapM_hextets_ok in Hm1 as [Hh1 Hl1], Hm2 as [Hh2 Hl2]. intros [= <-].
    assert (Forall hextet_ok (his ++ replicate (HEXTET_COUNT - (hi + lo)) 0 ++ los)) as Hr.
    { rewrite !Forall_app. split_and!; [done| |done]. by apply Forall_replicate. }
    apply hextets_range in Hr. split; [apply Hr|]. eapply Z.lt_le_trans; [apply Hr|].
    apply Z.pow_le_mono_r; [lia|]. rewrite !length_app, length_replicate, Hl1, Hl2.
    rewrite length_take, length_drop. unfold HEXTET_COUNT in *. lia.
Qed.

Lemma ip_address_ok s a : ip_address s = Some a → ip_ok a.
Proof.
  unfold ip_address. destruct (ipv4_address s) as [n|] eqn:E4.
  { intros [= <-]. by apply ipv4_address_inv in E4 as [? _]. }
  assert (∀ t n, ipv6_int t = Some n → 0 <= n < 2 ^ 128) as Hint.
  { intros t n. unfold ipv6_int. case_match; [done|]. destruct (expand_suffix _); [|done].
    apply groups_value_range. }
  unfold ipv6_address. destruct (contains slash s) eqn:Hsl; [done|].
  apply contains_false in Hsl.
  destruct (partition_at percent s) as [addr [scope|]] eqn:Hp.
  - apply partition_spec in Hp as [_ ->].
    destruct (bool_decide (scope = []) || contains percent scope) eqn:Hs; [done|].
    apply orb_false_iff in Hs as [?%bool_decide_eq_false ?%contains_false].
    destruct (ipv6_int addr) as [n|] eqn:En; [|done]. intros [= <-]. cbn [ip_ok].
    split_and!; try done; [by eapply Hint|by eapply Hint|]. intros Hin. apply Hsl. apply elem_of_app. by right; right.
  - destruct (ipv6_int addr) as [n|] eqn:En; [|done]. intros [= <-]. by eapply Hint.
Qed.
