(* ===== verification/Url.v ===== *)
(** * URLs as text

    The part of Python's [urllib.parse] the webhook guard uses: [urlparse], the [hostname], [port]
    and [username] of its result, [geturl] of a result with a network location, and the proof that
    a URL put together again is read back. ASCII text; [None] and [Err] stand for [ValueError]. *)

From S2P Require Import Prelude PyString Address.
From Stdlib Require Import Ascii.
#[local] Open Scope Z_scope.

Record url : Type := {
  u_scheme : chars;
  u_netloc : chars;
  u_path : chars;
  u_params : chars;
  u_query : chars;
  u_fragment : chars;
}.

Definition at_sign : ascii := "@".
Definition lbracket : ascii := "[".
Definition rbracket : ascii := "]".
Definition qmark : ascii := "?".
Definition hash : ascii := "#".
Definition semicolon : ascii := ";".

(** [s.rpartition(c)]: the text before the last [c], if there is one, and the text after it *)
Fixpoint rpartition (c : ascii) (l : chars) : option chars * chars :=
  match l with
  | [] => (None, [])
  | x :: l =>
      match rpartition c l with
      | (Some before, after) => (Some (x :: before), after)
      | (None, after) => if decide (x = c) then (Some [], after) else (None, x :: after)
      end
  end.

Definition is_alpha (c : ascii) : bool :=
  ((65 <=? code c) && (code c <=? 90)) || ((97 <=? code c) && (code c <=? 122)).

Definition scheme_char (c : ascii) : bool :=
  is_alpha c || is_digit c || bool_decide (c ∈ ["+"; "-"; "."]%char).

(** [_WHATWG_C0_CONTROL_OR_SPACE] and [_UNSAFE_URL_BYTES_TO_REMOVE] *)
Fixpoint lstrip_c0 (l : chars) : chars :=
  match l with
  | [] => []
  | c :: l' => if code c <=? 32 then lstrip_c0 l' else l
  end.

Definition unsafe_byte (c : ascii) : Prop := code c ∈ [9; 10; 13].
#[global] Instance unsafe_byte_dec c : Decision (unsafe_byte c).
Proof. unfold unsafe_byte. apply _. Defined.

Definition split_scheme (l : chars) : chars * chars :=
  match partition_at colon l with
  | (c :: s, Some rest) =>
      if is_alpha c && forallb scheme_char (c :: s) then (lower (c :: s), rest) else ([], l)
  | _ => ([], l)
  end.

Definition netloc_end (c : ascii) : bool := bool_decide (c ∈ [slash; qmark; hash]).

Fixpoint splitnetloc (l : chars) : chars * chars :=
  match l with
  | [] => ([], [])
  | c :: l' => if netloc_end c then ([], l) else let '(a, b) := splitnetloc l' in (c :: a, b)
  end.

Definition check_bracketed_host (h : chars) : bool :=
  match h with
  | "v"%char :: l =>
      match partition_at dot l with
      | (version, Some rest) =>
          negb (bool_decide (version = [])) && forallb is_hex version && negb (bool_decide (rest = []))
      | _ => false
      end
  | _ => match ip_address h with Some (V6 _ _) => true | _ => false end
  end.

Definition check_bracketed_netloc (netloc : chars) : bool :=
  let h := (rpartition at_sign netloc).2 in
  match partition_at lbracket h with
  | (before, Some bracketed) =>
      let '(hostname, port) := partition_at rbracket bracketed in
      bool_decide (before = []) &&
      match port with None | Some [] => true | Some (c :: _) => bool_decide (c = colon) end &&
      check_bracketed_host hostname
  | (_, None) => check_bracketed_host (partition_at colon h).1
  end.

(** The checks on the brackets of a network location; [false] raises [ValueError]. *)
Definition netloc_ok (netloc : chars) : bool :=
  match contains lbracket netloc, contains rbracket netloc with
  | true, true => check_bracketed_netloc netloc
  | false, false => true
  | _, _ => false
  end.

(** The parameters after the last [;] of the last path segment. *)
Definition splitparams (l : chars) : chars * chars :=
  match rpartition slash l with
  | (Some dirs, seg) =>
      match partition_at semicolon seg with
      | (a, Some b) => (dirs ++ slash :: a, b)
      | (_, None) => (l, [])
      end
  | (None, seg) => let '(a, b) := partition_at semicolon seg in (a, default [] b)
  end.

(** The schemes of [uses_params]. *)
Definition uses_params : list chars :=
  to_chars <$> [""; "ftp"; "hdl"; "prospero"; "http"; "imap"; "https"; "shttp"; "rtsp"; "rtsps"; "rtspu";
                "sip"; "sips"; "mms"; "sftp"; "tel"]%string.

(** [urlparse(url)] *)
Definition urlparse (l : chars) : option url :=
  let l := filter (λ c, ¬ unsafe_byte c) (lstrip_c0 l) in
  let '(scheme, l) := split_scheme l in
  let '(netloc, l) :=
    match l with
    | x :: y :: l' => if decide (x = slash ∧ y = slash) then splitnetloc l' else ([], l)
    | _ => ([], l)
    end in
  if negb (netloc_ok netloc) then None
  else
    let '(l, fragment) := partition_at hash l in
    let '(l, query) := partition_at qmark l in
    let '(path, params) := if bool_decide (scheme ∈ uses_params) then splitparams l else (l, []) in
    Some {| u_scheme := scheme; u_netloc := netloc; u_path := path; u_params := params;
            u_query := default [] query; u_fragment := default [] fragment |}.

(** [_hostinfo]: host and port as they are written *)
Definition hostinfo (netloc : chars) : chars * option chars :=
  let h := (rpartition at_sign netloc).2 in
  let '(hostname, port) :=
    match partition_at lbracket h with
    | (_, Some bracketed) =>
        let '(hostname, rest) := partition_at rbracket bracketed in
        (hostname, rest ≫= λ rest, (partition_at colon rest).2)
    | (_, None) => partition_at colon h
    end in
  (hostname, match port with Some [] => None | _ => port end).

Definition hostname (u : url) : option chars :=
  match (hostinfo (u_netloc u)).1 with
  | [] => None
  | h => Some (let '(a, zone) := partition_at percent h in
               lower a ++ match zone with Some z => percent :: z | None => [] end)
  end.

(** [parsed.port]; [Err] is [ValueError] *)
Definition url_port (u : url) : result unit (option Z) :=
  match (hostinfo (u_netloc u)).2 with
  | None => Ok None
  | Some p => if isnumeric p && (number p <=? 65535) then Ok (Some (number p)) else Err tt
  end.

(** [parsed.username] and [parsed.password] *)
Definition userinfo (u : url) : option (chars * option chars) :=
  partition_at colon <$> (rpartition at_sign (u_netloc u)).1.

(** A part of a URL with its mark, nothing when it is empty. *)
Definition marked (c : ascii) (l : chars) : chars := match l with [] => [] | _ => c :: l end.

(** [geturl()] of a result whose network location is not empty *)
Definition geturl (u : url) : chars :=
  let path := u_path u ++ marked semicolon (u_params u) in
  let path := match path with
              | [] => []
              | c :: _ => if decide (c = slash) then path else slash :: path
              end in
  match u_scheme u with [] => [] | s => s ++ [colon] end ++
  slash :: slash :: u_netloc u ++ path ++
  marked qmark (u_query u) ++
  marked hash (u_fragment u).

Definition with_netloc (n : chars) (u : url) : url :=
  {| u_scheme := u_scheme u; u_netloc := n; u_path := u_path u; u_params := u_params u;
     u_query := u_query u; u_fragment := u_fragment u |}.

(** ** Lemmas *)

Lemma rpartition_spec c l b a :
  rpartition c l = (b, a) → c ∉ a ∧ l = match b with Some b => b ++ c :: a | None => a end.
Proof.
  revert b a; induction l as [|x l IH]; intros b a; simpl.
  { intros [= <- <-]. split; [set_solver|done]. }
  destruct (rpartition c l) as [[b'|] a'] eqn:E; destruct (IH _ _ eq_refl) as [Ha ->].
  - intros [= <- <-]. done.
  - case_decide; intros [= <- <-]; subst; [done|]. split; [set_solver|done].
Qed.

Lemma rpartition_none c a : c ∉ a → rpartition c a = (None, a).
Proof.
  induction a as [|x a IH]; intros Ha; simpl; [done|].
  rewrite IH by set_solver. by rewrite decide_False by set_solver.
Qed.

Lemma rpartition_app c b a : c ∉ a → rpartition c (b ++ c :: a) = (Some b, a).
Proof.
  intros Ha. induction b as [|x b IH]; simpl.
  - by rewrite rpartition_none, decide_True by done.
  - by rewrite IH.
Qed.

(** Parts of a text have only characters of the text. *)
Lemma partition_sub c l a b : partition_at c l = (a, b) → a ⊆ l ∧ default [] b ⊆ l.
Proof.
  intros [_ ->]%partition_spec. destruct b as [b|]; simpl; [|rewrite app_nil_r; set_solver].
  split; set_solver.
Qed.

Lemma rpartition_sub c l a b : rpartition c l = (b, a) → a ⊆ l ∧ default [] b ⊆ l.
Proof. intros [_ ->]%rpartition_spec. destruct b as [b|]; simpl; set_solver. Qed.

Lemma splitnetloc_spec l n r :
  splitnetloc l = (n, r) →
  l = n ++ r ∧ (∀ c, c ∈ n → netloc_end c = false) ∧
  match r with [] => True | c :: _ => netloc_end c = true end.
Proof.
  revert n r; induction l as [|x l IH]; intros n r; simpl.
  { intros [= <- <-]. split_and!; [done|set_solver|done]. }
  destruct (netloc_end x) eqn:Hx.
  { intros [= <- <-]. split_and!; [done|set_solver|done]. }
  destruct (splitnetloc l) as [n' r'] eqn:E. intros [= <- <-].
  destruct (IH _ _ eq_refl) as (-> & Hn & Hr). split_and!; [done| |done].
  intros c [->|Hc]%elem_of_cons; auto.
Qed.

Lemma splitnetloc_app n r :
  (∀ c, c ∈ n → netloc_end c = false) → match r with [] => True | c :: _ => netloc_end c = true end →
  splitnetloc (n ++ r) = (n, r).
Proof.
  intros Hn Hr. induction n as [|x n IH]; simpl.
  - destruct r as [|c r]; [done|]. simpl. by rewrite Hr.
  - rewrite Hn by left. rewrite IH by (intros c Hc; apply Hn; by right). done.
Qed.

(** The results of [urlparse] that have a network location and a web scheme, and those that read
    back: the characters of each part, and the path that starts with a slash. *)
Record web_url (u : url) : Prop := {
  web_scheme : u_scheme u ∈ [to_chars "http"; to_chars "https"];
  web_netloc_ok : netloc_ok (u_netloc u) = true;
  web_netloc_end : ∀ c, c ∈ u_netloc u → netloc_end c = false;
  web_netloc_safe : ∀ c, c ∈ u_netloc u → ¬ unsafe_byte c;
  web_tail_safe : ∀ c, c ∈ u_path u ++ u_params u ++ u_query u ++ u_fragment u → ¬ unsafe_byte c;
  web_path : u_path u = [] ∨ head (u_path u) = Some slash;
  web_path_marks : ∀ c, c ∈ u_path u ++ u_params u → c ≠ hash ∧ c ≠ qmark;
  web_query : hash ∉ u_query u;
  web_params : slash ∉ u_params u ∧ semicolon ∉ (rpartition slash (u_path u)).2 ∧
               (u_params u ≠ [] → u_path u ≠ []);
}.

Lemma lstrip_c0_sub l : lstrip_c0 l ⊆ l.
Proof. induction l as [|c l IH]; simpl; [done|]. case_match; set_solver. Qed.

Lemma splitparams_spec l p q :
  splitparams l = (p, q) →
  slash ∉ q ∧ semicolon ∉ (rpartition slash p).2 ∧ p ⊆ l ∧ q ⊆ l ∧
  (l = [] ∨ head l = Some slash → (p = [] ∨ head p = Some slash) ∧ (q ≠ [] → p ≠ [])).
Proof.
  unfold splitparams. destruct (rpartition slash l) as [[dirs|] seg] eqn:E;
    pose proof (rpartition_spec _ _ _ _ E) as [Hseg Hl].
  - destruct (partition_at semicolon seg) as [a [b|]] eqn:Ep;
      pose proof (partition_spec _ _ _ _ Ep) as [Ha Hs]; intros [= <- <-].
    + rewrite Hs in Hseg. rewrite rpartition_app by set_solver. subst. split_and!; try set_solver.
      intros Hh. split; [|by destruct dirs]. right. destruct Hh as [Hh|Hh]; [by destruct dirs|].
      by destruct dirs.
    + rewrite E. rewrite app_nil_r in Hs. subst. split_and!; try set_solver.
  - destruct (partition_at semicolon seg) as [a b] eqn:Ep.
    pose proof (partition_spec _ _ _ _ Ep) as [Ha Hs]. intros [= <- <-].
    rewrite Hs in Hseg. rewrite rpartition_none by set_solver. subst.
    split_and!; [destruct b; set_solver|done|set_solver|destruct b; set_solver|].
    intros [Hh|Hh]; [destruct a, b; simpl in *; by try (split; [left|])|].
    exfalso. apply Hseg. destruct a as [|x a]; [|simpl in Hh; set_solver].
    destruct b as [b|]; [|done]. simpl in Hh. by injection Hh.
Qed.

Lemma filter_safe (l : chars) c : c ∈ filter (λ c, ¬ unsafe_byte c) l → ¬ unsafe_byte c.
Proof. by intros [? _]%list_elem_of_filter. Qed.

Lemma netloc_end_slash c : netloc_end c = true → c = slash ∨ c = qmark ∨ c = hash.
Proof. unfold netloc_end. rewrite bool_decide_eq_true. set_solver. Qed.

Lemma scheme_cases s : s ∈ [to_chars "http"; to_chars "https"] → s = to_chars "http" ∨ s = to_chars "https".
Proof. rewrite elem_of_cons, list_elem_of_singleton. done. Qed.

Lemma marks_safe c : c ∈ [slash; semicolon; qmark; hash] → ¬ unsafe_byte c.
Proof. revert c. apply Forall_forall. by apply (bool_decide_unpack _). Qed.

(** What [urlparse] returns for a web URL with a network location. *)
Lemma urlparse_web l u :
  urlparse l = Some u → u_scheme u ∈ [to_chars "http"; to_chars "https"] → u_netloc u ≠ [] → web_url u.
Proof.
  unfold urlparse. set (l1 := filter (λ c, ¬ unsafe_byte c) (lstrip_c0 l)).
  assert (∀ c, c ∈ l1 → ¬ unsafe_byte c) as Hsafe by (intros c; apply filter_safe).
  destruct (split_scheme l1) as [scheme l2] eqn:Es.
  assert (l2 ⊆ l1) as H2.
  { unfold split_scheme in Es. destruct (partition_at colon l1) as [a [b|]] eqn:Ep; [|destruct a; by simplify_eq].
    pose proof (partition_sub _ _ _ _ Ep) as [_ Hb]. destruct a; simplify_eq; [done|].
    case_match; by simplify_eq. }
  destruct (match l2 with x :: y :: l' => if decide (x = slash ∧ y = slash) then splitnetloc l' else ([], l2)
                        | _ => ([], l2) end) as [n l3] eqn:En.
  destruct (netloc_ok n) eqn:Hok; [|done]. cbn [negb].
  destruct (partition_at hash l3) as [l4 frag] eqn:Ef. destruct (partition_at qmark l4) as [l5 query] eqn:Eq.
  intros Hu Hscheme Hn. assert (u_scheme u = scheme ∧ u_netloc u = n) as [Hus Hun].
  { destruct (bool_decide (scheme ∈ uses_params)); [destruct (splitparams l5)|]; by injection Hu as <-. }
  rewrite Hus in Hscheme. rewrite Hun in Hn.
  assert (bool_decide (scheme ∈ uses_params) = true) as Hup by by destruct (scheme_cases _ Hscheme) as [-> | ->].
  rewrite Hup in Hu.
  destruct (splitparams l5) as [p q] eqn:Esp. injection Hu as <-. simpl in *.
  assert (∃ l2', l2 = slash :: slash :: l2' ∧ splitnetloc l2' = (n, l3)) as (l2' & -> & Hsn).
  { destruct l2 as [|x [|y l2]]; [by simplify_eq|by simplify_eq|].
    case_decide as Hxy; [destruct Hxy as [-> ->]; by exists l2|by simplify_eq]. }
  apply splitnetloc_spec in Hsn as (-> & Hnend & Hl3).
  pose proof (partition_spec _ _ _ _ Ef) as [Hf4 Hl3e]. pose proof (partition_sub _ _ _ _ Ef) as [H4 Hfr].
  pose proof (partition_spec _ _ _ _ Eq) as [Hq5 Hl4e]. pose proof (partition_sub _ _ _ _ Eq) as [H5 Hqu].
  destruct (splitparams_spec _ _ _ Esp) as (Hqs & Hseg & Hp & Hq & Hslash).
  assert (l5 = [] ∨ head l5 = Some slash) as Hhead.
  { destruct l5 as [|x l5]; [by left|right]. simpl. f_equal.
    subst l4. subst l3. simpl in Hl3. apply netloc_end_slash in Hl3 as [?|[->| ->]]; [done| |]; set_solver. }
  destruct (Hslash Hhead) as [Hp1 Hp2].
  assert (l3 ⊆ l1) as Hl31 by (intros c Hc; apply H2; do 2 right; apply elem_of_app; by right).
  clear - Hscheme Hok Hnend Hsafe H2 Hl31 Hfr H4 Hqu H5 Hp Hq Hp1 Hp2 Hqs Hseg Hf4 Hq5 Hl4e.
  assert (l5 ⊆ l4) as Hl54 by done.
  constructor; simpl; auto.
  - intros c Hc. apply Hsafe, H2. do 2 right. apply elem_of_app. by left.
  - intros c Hc. apply Hsafe, Hl31. rewrite !elem_of_app in Hc.
    destruct Hc as [?|[?|[?|?]]]; auto.
  - intros c Hc. assert (c ∈ l5) as Hc5 by (apply elem_of_app in Hc as [?|?]; auto).
    split; intros ->; auto.
Qed.

Lemma filter_all_safe (l : chars) : (∀ c, c ∈ l → ¬ unsafe_byte c) → filter (λ c, ¬ unsafe_byte c) l = l.
Proof.
  induction l as [|c l IH]; intros Hl; [done|].
  rewrite filter_cons_True by (apply Hl; left). f_equal. apply IH. intros d Hd. apply Hl. by right.
Qed.

Lemma splitparams_join p q :
  slash ∉ q → semicolon ∉ (rpartition slash p).2 → (p = [] ∨ head p = Some slash) → (q ≠ [] → p ≠ []) →
  splitparams (p ++ marked semicolon q) = (p, q).
Proof.
  intros Hq Hseg Hp Hpq. destruct (rpartition slash p) as [[dirs|] seg] eqn:E;
    pose proof (rpartition_spec _ _ _ _ E) as [Hs Hpe]; simpl in Hseg.
  - destruct q as [|y q].
    + rewrite app_nil_r. unfold splitparams. by rewrite E, partition_none by done.
    + subst p. rewrite <-app_assoc. simpl. unfold splitparams.
      rewrite rpartition_app by (rewrite elem_of_app, elem_of_cons; intros [?|[?|?]]; done).
      by rewrite partition_join by done.
  - assert (p = []) as ->.
    { destruct Hp as [?|Hp]; [done|]. subst. destruct seg; simpl in *; [done|].
      injection Hp as ->. exfalso. apply Hs. by left. }
    destruct q as [|y q]; [done|]. by destruct Hpq.
Qed.

(** The scheme of a web URL is read off its text. *)
Lemma split_scheme_web s rest :
  s ∈ [to_chars "http"; to_chars "https"] →
  (∀ c, c ∈ rest → ¬ unsafe_byte c) →
  split_scheme (filter (λ c, ¬ unsafe_byte c) (lstrip_c0 (s ++ colon :: rest))) = (s, rest).
Proof.
  intros Hs Hrest. assert (lstrip_c0 (s ++ colon :: rest) = s ++ colon :: rest) as ->
    by by destruct (scheme_cases s Hs) as [-> | ->].
  rewrite filter_all_safe.
  - unfold split_scheme. rewrite partition_join by by destruct (scheme_cases s Hs) as [-> | ->]; vm_compute; set_solver.
    by destruct (scheme_cases s Hs) as [-> | ->].
  - intros c [Hc|[->|Hc]%elem_of_cons]%elem_of_app; [|by vm_compute; set_solver|auto].
    revert c Hc. apply Forall_forall.
    by destruct (scheme_cases s Hs) as [-> | ->]; vm_compute; repeat constructor; set_solver.
Qed.

(** [urlparse(parsed.geturl()) == parsed] for a web URL with a network location *)
Lemma urlparse_geturl u : web_url u → u_netloc u ≠ [] → urlparse (geturl u) = Some u.
Proof.
  intros [Hscheme Hok Hend Hsafe Htail Hpath Hmarks Hquery (Hps & Hseg & Hpp)] Hne.
  set (path := u_path u ++ marked semicolon (u_params u)).
  set (q := marked qmark (u_query u)).
  set (f := marked hash (u_fragment u)).
  assert (path = [] ∨ head path = Some slash) as Hph.
  { subst path. destruct Hpath as [Hp|Hp]; [|right; by destruct (u_path u)].
    rewrite Hp in *. left. destruct (u_params u); [done|]. by destruct Hpp. }
  assert (geturl u = u_scheme u ++ colon :: slash :: slash :: u_netloc u ++ path ++ q ++ f) as ->.
  { unfold geturl. fold path. fold q. fold f.
    assert (match path with [] => [] | c :: _ => if decide (c = slash) then path else slash :: path end = path) as ->.
    { destruct path as [|c p]; [done|]. destruct Hph as [?|[= ->]]; [done|]. by rewrite decide_True. }
    destruct (u_scheme u) eqn:E; [by destruct (scheme_cases _ Hscheme)|]. by rewrite <-app_assoc. }
  assert (∀ c, c ∈ path ++ q ++ f → ¬ unsafe_byte c) as Hrest.
  { intros c Hc. subst path q f. rewrite !elem_of_app in Hc.
    destruct Hc as [[Hc|Hc]|[Hc|Hc]]; [apply Htail; rewrite !elem_of_app; auto| | |];
      [destruct (u_params u) eqn:E|destruct (u_query u) eqn:E|destruct (u_fragment u) eqn:E];
      try (by apply not_elem_of_nil in Hc);
      (apply elem_of_cons in Hc as [->|Hc]; [apply marks_safe; set_solver|apply Htail; rewrite !elem_of_app; auto]). }
  unfold urlparse. rewrite split_scheme_web; [|done|].
  2: { intros c [->|[->|Hc]%elem_of_cons]%elem_of_cons; [by apply marks_safe; left..|].
       apply elem_of_app in Hc as [Hc|Hc]; auto. }
  rewrite decide_True by done.
  rewrite splitnetloc_app; [|done|].
  2: { subst q f. destruct path as [|c p]; [|by destruct Hph as [?|[= ->]]].
       destruct (u_query u); [|done]. by destruct (u_fragment u). }
  rewrite Hok. cbn [negb].
  assert (∀ c, c ∈ path → c ≠ hash ∧ c ≠ qmark) as Hpm.
  { subst path. intros c [Hc|Hc]%elem_of_app; [apply Hmarks, elem_of_app; by left|].
    destruct (u_params u) eqn:E; [by apply not_elem_of_nil in Hc|].
    apply elem_of_cons in Hc as [->|Hc]; [done|]. apply Hmarks, elem_of_app; by right. }
  assert (hash ∉ path) as Hhp by (intros Hc; by destruct (Hpm _ Hc)).
  assert (qmark ∉ path) as Hqp by (intros Hc; by destruct (Hpm _ Hc)).
  assert (hash ∉ q) as Hhq.
  { subst q. destruct (u_query u); [set_solver|]. intros [?|?]%elem_of_cons; done. }
  assert (partition_at hash (path ++ q ++ f) =
    (path ++ q, match u_fragment u with [] => None | f => Some f end)) as ->.
  { rewrite app_assoc. subst f. destruct (u_fragment u).
    - rewrite app_nil_r. apply partition_none. rewrite elem_of_app. tauto.
    - apply partition_join. rewrite elem_of_app. tauto. }
  assert (partition_at qmark (path ++ q) = (path, match u_query u with [] => None | q => Some q end)) as ->.
  { subst q. destruct (u_query u); [rewrite app_nil_r; by apply partition_none|by apply partition_join]. }
  assert (bool_decide (u_scheme u ∈ uses_params) = true) as -> by by destruct (scheme_cases _ Hscheme) as [-> | ->].
  assert (splitparams path = (u_path u, u_params u)) as -> by by apply splitparams_join.
  destruct u as [us un up upar uq uf]. simpl. f_equal. f_equal; [by destruct uq|by destruct uf].
Qed.
