(* ===== verification/Ssrf.v ===== *)
(** * The guard of outbound webhooks

    security/ssrf.py: the networks and names a webhook must not reach, the check of a URL and of
    every address its host resolves to ([resolve_webhook_url]), and the rewritten URL the client
    connects to ([pin_url]). Name resolution is an argument, [getaddrinfo]: the numeric addresses
    it answers, or how it failed. *)

From S2P Require Import Prelude PyString Address Url.
From Stdlib Require Import Ascii.
#[local] Open Scope Z_scope.

(** ** Networks *)

Record network : Type := { net_address : Z; net_prefix : Z }.
#[global] Instance network_eq_dec : EqDecision network.
Proof. solve_decision. Defined.

(** [_ALL_ONES ^ (_ALL_ONES >> prefixlen)] *)
Definition netmask (w prefix : Z) : Z := Z.lxor (Z.ones w) (Z.shiftr (Z.ones w) prefix).

(** [ip in net] *)
Definition in_network (w n : Z) (net : network) : bool :=
  Z.land n (netmask w (net_prefix net)) =? net_address net.

Definition v4_network (s : string) (prefix : Z) : network :=
  {| net_address := default 0 (ipv4_address (to_chars s)); net_prefix := prefix |}.

Definition v6_network (s : string) (prefix : Z) : network :=
  {| net_address := default 0 (ipv6_int (to_chars s)); net_prefix := prefix |}.

Definition BLOCKED_V4_NETS : list network :=
  [v4_network "127.0.0.0" 8; v4_network "10.0.0.0" 8; v4_network "172.16.0.0" 12;
   v4_network "192.168.0.0" 16; v4_network "169.254.0.0" 16; v4_network "0.0.0.0" 8;
   v4_network "100.64.0.0" 10].

Definition BLOCKED_V6_NETS : list network :=
  [v6_network "::1" 128; v6_network "::" 128; v6_network "fe80::" 10; v6_network "fc00::" 7].

Definition BLOCKED_HOSTNAMES : list chars :=
  to_chars <$> ["localhost"; "metadata.google.internal"; "metadata"]%string.

Definition _LOOPBACK_V4 : network := v4_network "127.0.0.0" 8.
Definition _LOOPBACK_V6 : network := v6_network "::1" 128.

(** The scope id of an address plays no part. *)
Definition _ip_blocked (ip : ip_addr) (allow_loopback : bool) : bool :=
  match ip with
  | V4 n => existsb (λ net, in_network 32 n net && negb (allow_loopback && bool_decide (net = _LOOPBACK_V4)))
              BLOCKED_V4_NETS
  | V6 n _ => existsb (λ net, in_network 128 n net && negb (allow_loopback && bool_decide (net = _LOOPBACK_V6)))
              BLOCKED_V6_NETS
  end.

(** ** The check of a URL *)

Record ResolvedTarget : Type := {
  rt_scheme : chars;
  rt_host : chars;
  rt_port : option Z;
  rt_ip : chars;
}.

(** Why [WebhookURLBlocked] was raised. *)
Inductive blocked_reason : Type :=
  SchemeNotAllowed | MissingHost | HostnameBlocked | IpBlocked | DnsFailure | UnparseableAddress
| ResolvedBlocked | NoAddresses | InvalidPort.

(** [UrlInvalid] is the [ValueError] of [urlparse], [ResolverRaises] any exception of the resolver
    but [socket.gaierror]: neither is a [WebhookURLBlocked]. *)
Inductive guard_error : Type :=
  WebhookURLBlocked (r : blocked_reason) | UrlInvalid | ResolverRaises.

Inductive dns_answer : Type := Infos (ips : list chars) | GaiError | OtherError.

Definition _explicit_port (parsed : url) : result guard_error (option Z) :=
  match url_port parsed with
  | Ok p => Ok p
  | Err _ => Err (WebhookURLBlocked InvalidPort)
  end.

(** The loop over the answers; [chosen] is the first address. *)
Fixpoint check_answers (allow_loopback : bool) (chosen : option chars) (ips : list chars)
    : result guard_error (option chars) :=
  match ips with
  | [] => Ok chosen
  | s :: ips =>
      match ip_address s with
      | None => Err (WebhookURLBlocked UnparseableAddress)
      | Some ip =>
          if _ip_blocked ip allow_loopback then Err (WebhookURLBlocked ResolvedBlocked)
          else check_answers allow_loopback
                 (match chosen with None => Some (ip_str ip) | Some _ => chosen end) ips
      end
  end.

Section Guard.
Context (getaddrinfo : chars → dns_answer).

Definition resolve_webhook_url (l : chars) (allow_loopback : bool) : result guard_error ResolvedTarget :=
  match urlparse l with
  | None => Err UrlInvalid
  | Some parsed =>
      if negb (bool_decide (u_scheme parsed ∈ [to_chars "http"; to_chars "https"]))
      then Err (WebhookURLBlocked SchemeNotAllowed)
      else
        let host := lower (default [] (hostname parsed)) in
        if bool_decide (host = []) then Err (WebhookURLBlocked MissingHost)
        else if bool_decide (host ∈ BLOCKED_HOSTNAMES) then Err (WebhookURLBlocked HostnameBlocked)
        else
          match ip_address host with
          | Some ip =>
              if _ip_blocked ip allow_loopback then Err (WebhookURLBlocked IpBlocked)
              else (λ port, {| rt_scheme := u_scheme parsed; rt_host := host; rt_port := port;
                               rt_ip := ip_str ip |}) <$> _explicit_port parsed
          | None =>
              match getaddrinfo host with
              | GaiError => Err (WebhookURLBlocked DnsFailure)
              | OtherError => Err ResolverRaises
              | Infos ips =>
                  chosen ← check_answers allow_loopback None ips;
                  match chosen with
                  | None => Err (WebhookURLBlocked NoAddresses)
                  | Some ip =>
                      (λ port, {| rt_scheme := u_scheme parsed; rt_host := host; rt_port := port;
                                  rt_ip := ip |}) <$> _explicit_port parsed
                  end
              end
          end
  end.

Definition validate_webhook_url (l : chars) (allow_loopback : bool) : result guard_error unit :=
  (λ _, tt) <$> resolve_webhook_url l allow_loopback.

End Guard.

(** ** The pinned URL *)

(** An address as it stands in a network location. *)
Definition bracketed (s : chars) : chars :=
  if contains colon s then lbracket :: s ++ [rbracket] else s.

Definition port_part (port : option Z) : chars :=
  match port with
  | Some p => if p =? 0 then [] else colon :: py_str p
  | None => []
  end.

(** The URL to connect to and the [Host] header. *)
Definition pin_url (l : chars) (t : ResolvedTarget) : option (chars * chars) :=
  parsed ← urlparse l;
  let user := match userinfo parsed with
              | None => []
              | Some (name, password) => name ++ marked colon (default [] password) ++ [at_sign]
              end in
  Some (geturl (with_netloc (user ++ bracketed (rt_ip t) ++ port_part (rt_port t)) parsed),
        bracketed (rt_host t) ++ port_part (rt_port t)).

(** ** What the guard promises *)

Definition dotted (a b c d : Z) : Z := ((a * 256 + b) * 256 + c) * 256 + d.

(** The addresses a webhook must not reach, by their ranges. *)
Inductive forbidden (allow_loopback : bool) : ip_addr → Prop :=
| loopback_v4 n : allow_loopback = false →
    dotted 127 0 0 0 <= n <= dotted 127 255 255 255 → forbidden allow_loopback (V4 n)
| private_10 n : dotted 10 0 0 0 <= n <= dotted 10 255 255 255 → forbidden allow_loopback (V4 n)
| private_172 n : dotted 172 16 0 0 <= n <= dotted 172 31 255 255 → forbidden allow_loopback (V4 n)
| private_192 n : dotted 192 168 0 0 <= n <= dotted 192 168 255 255 → forbidden allow_loopback (V4 n)
| link_local_v4 n : dotted 169 254 0 0 <= n <= dotted 169 254 255 255 → forbidden allow_loopback (V4 n)
| this_network n : dotted 0 0 0 0 <= n <= dotted 0 255 255 255 → forbidden allow_loopback (V4 n)
| carrier_nat n : dotted 100 64 0 0 <= n <= dotted 100 127 255 255 → forbidden allow_loopback (V4 n)
| loopback_v6 s : allow_loopback = false → forbidden allow_loopback (V6 1 s)
| unspecified_v6 s : forbidden allow_loopback (V6 0 s)
| link_local_v6 n s : 0xfe80 * 2 ^ 112 <= n < 0xfec0 * 2 ^ 112 → forbidden allow_loopback (V6 n s)
| unique_local_v6 n s : 0xfc00 * 2 ^ 112 <= n < 0xfe00 * 2 ^ 112 → forbidden allow_loopback (V6 n s).

(** Membership in a network is membership in a range. *)
Lemma in_network_range w n net :
  0 <= n < 2 ^ w → 0 <= net_prefix net <= w → net_address net mod 2 ^ (w - net_prefix net) = 0 →
  in_network w n net = true ↔ net_address net <= n < net_address net + 2 ^ (w - net_prefix net).
Proof.
  intros Hn Hp Ha. set (k := w - net_prefix net) in *.
  assert (0 < 2 ^ k) as Hk by (apply Z.pow_pos_nonneg; lia).
  assert (netmask w (net_prefix net) = Z.ldiff (Z.ones w) (Z.ones k)) as Hm.
  { unfold netmask. apply Z.bits_inj'. intros i Hi.
    rewrite Z.lxor_spec, Z.ldiff_spec, Z.shiftr_spec by done. subst k.
    destruct (Z.ltb_spec (i + net_prefix net) w); destruct (Z.ltb_spec i w);
      rewrite ?(Z.ones_spec_low w i), ?(Z.ones_spec_high w i),
        ?(Z.ones_spec_low w (i + net_prefix net)), ?(Z.ones_spec_high w (i + net_prefix net)) by lia;
      destruct (Z.ltb_spec i (w - net_prefix net));
      rewrite ?(Z.ones_spec_low (w - net_prefix net) i), ?(Z.ones_spec_high (w - net_prefix net) i) by lia;
      try done; lia. }
  assert (Z.land n (netmask w (net_prefix net)) = n / 2 ^ k * 2 ^ k) as Hl.
  { rewrite Hm, <-Z.shiftl_mul_pow2, <-Z.shiftr_div_pow2, <-Z.ldiff_ones_r by lia.
    apply Z.bits_inj'. intros i Hi. rewrite Z.land_spec, !Z.ldiff_spec.
    destruct (Z.ltb_spec i w); [by rewrite (Z.ones_spec_low w i) by lia|].
    assert (Z.testbit n i = false) as ->; [|done]. apply Z.testbit_false; [done|].
    rewrite Z.div_small; [done|]. split; [lia|].
    eapply Z.lt_le_trans; [apply Hn|]. apply Z.pow_le_mono_r; lia. }
  unfold in_network. rewrite Hl, Z.eqb_eq.
  pose proof (Z.div_mod (net_address net) (2 ^ k) ltac:(lia)) as Hd. rewrite Ha in Hd.
  pose proof (Z.div_mod n (2 ^ k) ltac:(lia)) as Hdn. pose proof (Z.mod_pos_bound n (2 ^ k) Hk) as Hmn.
  split; [intros <-; lia|]. intros Hr. 
  rewrite <-(Z.div_unique n (2 ^ k) (net_address net / 2 ^ k) (n - net_address net)); lia.
Qed.

Lemma blocked_v4_nets : BLOCKED_V4_NETS =
  [Build_network (dotted 127 0 0 0) 8; Build_network (dotted 10 0 0 0) 8; Build_network (dotted 172 16 0 0) 12;
   Build_network (dotted 192 168 0 0) 16; Build_network (dotted 169 254 0 0) 16;
   Build_network (dotted 0 0 0 0) 8; Build_network (dotted 100 64 0 0) 10].
Proof. vm_compute. reflexivity. Qed.

Lemma blocked_v6_nets : BLOCKED_V6_NETS =
  [Build_network 1 128; Build_network 0 128; Build_network (0xfe80 * 2 ^ 112) 10;
   Build_network (0xfc00 * 2 ^ 112) 7].
Proof. vm_compute. reflexivity. Qed.

Lemma existsb_net (f : network → bool) nets :
  existsb f nets = true ↔ ∃ net, net ∈ nets ∧ f net = true.
Proof. rewrite existsb_exists. by setoid_rewrite <-list_elem_of_In. Qed.

(** The network of a given address and prefix holds the number. *)
Ltac net_at Hnet a p :=
  exists (Build_network a p); split; [rewrite !elem_of_cons; tauto|]; apply andb_true_iff; split;
  [apply Hnet; [lia|reflexivity|unfold dotted; simpl; lia]|].

Lemma blocked_v4 n allow :
  0 <= n < 2 ^ 32 → _ip_blocked (V4 n) allow = true ↔ forbidden allow (V4 n).
Proof.
  intros Hn. cbn [_ip_blocked]. rewrite existsb_net, blocked_v4_nets.
  assert (∀ a p, 0 <= p <= 32 → a mod 2 ^ (32 - p) = 0 →
    in_network 32 n (Build_network a p) = true ↔ a <= n < a + 2 ^ (32 - p)) as Hnet
    by (intros a p Hp Ha; by apply (in_network_range 32 n (Build_network a p))).
  split.
  - intros (net & Hin & [Hin' Hloop]%andb_true_iff).
    rewrite !elem_of_cons in Hin. destruct Hin as [->|[->|[->|[->|[->|[->|[->|[]%not_elem_of_nil]]]]]]];
      apply Hnet in Hin'; try lia; try reflexivity; unfold dotted in *; simpl in Hin'.
    + apply loopback_v4; [by destruct allow|]. unfold dotted. lia.
    + apply private_10. unfold dotted. lia.
    + apply private_172. unfold dotted. lia.
    + apply private_192. unfold dotted. lia.
    + apply link_local_v4. unfold dotted. lia.
    + apply this_network. unfold dotted. lia.
    + apply carrier_nat. unfold dotted. lia.
  - intros Hf. inversion Hf; subst; unfold dotted in *;
      [net_at Hnet (dotted 127 0 0 0) 8|net_at Hnet (dotted 10 0 0 0) 8|net_at Hnet (dotted 172 16 0 0) 12
      |net_at Hnet (dotted 192 168 0 0) 16|net_at Hnet (dotted 169 254 0 0) 16
      |net_at Hnet (dotted 0 0 0 0) 8|net_at Hnet (dotted 100 64 0 0) 10];
      by rewrite ?andb_false_r.
Qed.

Lemma blocked_v6 n s allow :
  0 <= n < 2 ^ 128 → _ip_blocked (V6 n s) allow = true ↔ forbidden allow (V6 n s).
Proof.
  intros Hn. cbn [_ip_blocked]. rewrite existsb_net, blocked_v6_nets.
  assert (∀ a p, 0 <= p <= 128 → a mod 2 ^ (128 - p) = 0 →
    in_network 128 n (Build_network a p) = true ↔ a <= n < a + 2 ^ (128 - p)) as Hnet
    by (intros a p Hp Ha; by apply (in_network_range 128 n (Build_network a p))).
  split.
  - intros (net & Hin & [Hin' Hloop]%andb_true_iff).
    rewrite !elem_of_cons in Hin. destruct Hin as [->|[->|[->|[->|[]%not_elem_of_nil]]]];
      apply Hnet in Hin'; try lia; try reflexivity; simpl in Hin'.
    + replace n with 1 by lia. apply loopback_v6. by destruct allow.
    + replace n with 0 by lia. apply unspecified_v6.
    + apply link_local_v6. simpl. lia.
    + apply unique_local_v6. simpl. lia.
  - intros Hf. inversion Hf; subst;
      [net_at Hnet 1 128|net_at Hnet 0 128|net_at Hnet (0xfe80 * 2 ^ 112) 10|net_at Hnet (0xfc00 * 2 ^ 112) 7];
      by rewrite ?andb_false_r.
Qed.

(** The loops over the networks decide exactly the forbidden ranges. *)
Lemma ip_blocked_forbidden ip allow : ip_ok ip → _ip_blocked ip allow = true ↔ forbidden allow ip.
Proof.
  destruct ip as [n|n s]; intros Hok; [by apply blocked_v4|]. apply blocked_v6. by destruct s as [s|]; [destruct Hok|].
Qed.

Lemma ip_not_blocked ip allow : ip_ok ip → _ip_blocked ip allow = false ↔ ¬ forbidden allow ip.
Proof. intros Hok. rewrite <-(ip_blocked_forbidden ip allow Hok). by destruct (_ip_blocked ip allow). Qed.

(** ** Lemmas on the check *)

(** The addresses a host stands for: its own, or the answers of the resolver. *)
Definition host_addresses (getaddrinfo : chars → dns_answer) (host : chars) : option (list ip_addr) :=
  match ip_address host with
  | Some a => Some [a]
  | None => match getaddrinfo host with Infos ips => mapM ip_address ips | _ => None end
  end.

Lemma mapM_answers s ips :
  mapM ip_address (s :: ips) = a ← ip_address s; addrs ← mapM ip_address ips; Some (a :: addrs).
Proof. done. Qed.

Lemma check_answers_Ok allow chosen ips r :
  check_answers allow chosen ips = Ok r ↔
  ∃ addrs, mapM ip_address ips = Some addrs ∧ Forall (λ a, ¬ forbidden allow a) addrs ∧
    r = match chosen with Some c => Some c | None => ip_str <$> head addrs end.
Proof.
  revert chosen; induction ips as [|s ips IH]; intros chosen.
  { split; [intros [= <-]; exists []; by destruct chosen|]. intros (? & [= <-] & _ & ->). by destruct chosen. }
  rewrite mapM_answers. cbn [check_answers].
  destruct (ip_address s) as [a|] eqn:Ea; cbn [mbind option_bind]; [|split; [done|by intros (? & ? & _)]].
  pose proof (ip_not_blocked a allow (ip_address_ok _ _ Ea)) as Hb.
  destruct (_ip_blocked a allow).
  - split; [done|]. intros (addrs & Hm & Hall & _).
    destruct (mapM ip_address ips); [|done]. injection Hm as <-. apply Forall_cons in Hall as [Ha _]. by apply Hb in Ha.
  - rewrite IH. split.
    + intros (addrs & Hm & Hall & ->). exists (a :: addrs). rewrite Hm. split_and!; [done| |by destruct chosen].
      constructor; [by apply Hb|done].
    + intros (addrs & Hm & Hall & ->). destruct (mapM ip_address ips) as [addrs'|]; [|done]. injection Hm as <-.
      apply Forall_cons in Hall as [_ Hall]. exists addrs'. split_and!; [done|done|by destruct chosen].
Qed.

Lemma explicit_port_Ok u p : _explicit_port u = Ok p ↔ url_port u = Ok p.
Proof. unfold _explicit_port. destruct (url_port u); split; congruence. Qed.

Lemma resolve_accepts getaddrinfo l allow t :
  resolve_webhook_url getaddrinfo l allow = Ok t ↔
  ∃ u host port a addrs,
    urlparse l = Some u ∧ u_scheme u ∈ [to_chars "http"; to_chars "https"] ∧
    host = lower (default [] (hostname u)) ∧ host ≠ [] ∧ host ∉ BLOCKED_HOSTNAMES ∧
    url_port u = Ok port ∧
    host_addresses getaddrinfo host = Some (a :: addrs) ∧ Forall (λ a, ¬ forbidden allow a) (a :: addrs) ∧
    t = {| rt_scheme := u_scheme u; rt_host := host; rt_port := port; rt_ip := ip_str a |}.
Proof.
  unfold resolve_webhook_url, host_addresses.
  destruct (urlparse l) as [u|]; [|split; [done|by intros (? & ? & ? & ? & ? & ? & _)]].
  destruct (decide (u_scheme u ∈ [to_chars "http"; to_chars "https"])) as [Hs|Hs]; cycle 1.
  { rewrite bool_decide_eq_false_2 by done. split; [done|]. intros (? & ? & ? & ? & ? & [= <-] & ? & _). done. }
  rewrite bool_decide_eq_true_2 by done. cbn [negb]. set (host := lower (default [] (hostname u))).
  destruct (decide (host = [])) as [He|He]; [rewrite bool_decide_eq_true_2 by done; split; [done|]|].
  { intros (? & ? & ? & ? & ? & [= <-] & _ & -> & ? & _). done. }
  rewrite (bool_decide_eq_false_2 (host = [])) by done.
  destruct (decide (host ∈ BLOCKED_HOSTNAMES)) as [Hb|Hb]; [rewrite bool_decide_eq_true_2 by done; split; [done|]|].
  { intros (? & ? & ? & ? & ? & [= <-] & _ & -> & _ & ? & _). done. }
  rewrite (bool_decide_eq_false_2 (host ∈ BLOCKED_HOSTNAMES)) by done.
  transitivity (∃ port a addrs, url_port u = Ok port ∧
    host_addresses getaddrinfo host = Some (a :: addrs) ∧ Forall (λ a, ¬ forbidden allow a) (a :: addrs) ∧
    t = {| rt_scheme := u_scheme u; rt_host := host; rt_port := port; rt_ip := ip_str a |}); cycle 1.
  { split.
    - intros (port & a & addrs & ? & ? & ? & ->). exists u, host, port, a, addrs. done.
    - intros (? & ? & port & a & addrs & [= <-] & _ & -> & _ & _ & ? & ? & ? & ->). by exists port, a, addrs. }
  unfold host_addresses. setoid_rewrite <-explicit_port_Ok.
  destruct (ip_address host) as [a|] eqn:Ea.
  - pose proof (ip_not_blocked a allow (ip_address_ok _ _ Ea)) as Hnb. destruct (_ip_blocked a allow).
    { split; [done|]. intros (? & ? & ? & _ & [= <- <-] & [Ha _]%Forall_cons & _). by apply Hnb in Ha. }
    split.
    + destruct (_explicit_port u) as [p|]; [|done]. intros [= <-]. exists p, a, [].
      split_and!; [done|done| |done]. constructor; [by apply Hnb|done].
    + intros (p & ? & ? & -> & [= <- <-] & _ & ->). done.
  - destruct (getaddrinfo host) as [ips| |]; [|split; [done|by intros (? & ? & ? & _ & ? & _)]..].
    split.
    + destruct (check_answers allow None ips) as [[c|]|] eqn:Ec; try done.
      apply check_answers_Ok in Ec as (addrs & Hm & Hall & Hc).
      destruct addrs as [|a addrs]; [done|]. injection Hc as ->. simpl.
      destruct (_explicit_port u) as [p|]; [|done]. intros [= <-]. by exists p, a, addrs.
    + intros (p & a & addrs & -> & Hm & Hall & ->).
      assert (check_answers allow None ips = Ok (Some (ip_str a))) as ->; [|done].
      apply check_answers_Ok. by exists (a :: addrs).
Qed.

(** ** Lemmas on the pinned URL *)

(** The characters an address may contain in a network location. *)
Definition host_char (c : ascii) : bool :=
  negb (netloc_end c) && negb (bool_decide (unsafe_byte c)) && negb (bool_decide (c = at_sign)) &&
  negb (bool_decide (c = rbracket)).

Lemma host_char_spec c : host_char c = true ↔
  netloc_end c = false ∧ ¬ unsafe_byte c ∧ c ≠ at_sign ∧ c ≠ rbracket.
Proof.
  unfold host_char. rewrite !andb_true_iff, !negb_true_iff, !bool_decide_eq_false. tauto.
Qed.

Lemma host_char_lower c : host_char (lower_char c) = host_char c.
Proof. destruct c as [[] [] [] [] [] [] [] []]; vm_compute; reflexivity. Qed.

Lemma host_char_text c : c = colon ∨ c = dot ∨ c = percent ∨ is_hex c = true → host_char c = true.
Proof.
  intros [->|[->|[->|Hc]]]; try done. revert Hc.
  destruct c as [[] [] [] [] [] [] [] []]; vm_compute; congruence.
Qed.

Lemma ip_scope s n scope : ip_address s = Some (V6 n (Some scope)) → scope ⊆ s.
Proof.
  unfold ip_address. destruct (ipv4_address s); [done|]. unfold ipv6_address.
  destruct (contains slash s); [done|]. destruct (partition_at percent s) as [a [b|]] eqn:E.
  - apply partition_sub in E as [_ Hb]. destruct (bool_decide (b = []) || contains percent b); [done|].
    destruct (ipv6_int a); [|done]. by intros [= _ <-].
  - destruct (ipv6_int a); [|done]. by intros [= _ ?].
Qed.

(** The text of an address that was read from safe text is safe. *)
Lemma ip_str_safe s a :
  ip_address s = Some a → (∀ c, c ∈ s → host_char c = true) → ∀ c, c ∈ ip_str a → host_char c = true.
Proof.
  intros Ha Hs c Hc. pose proof (ip_address_ok _ _ Ha) as Hok.
  destruct a as [n|n [scope|]]; cbn [ip_ok ip_str] in *.
  - apply ipv4_str_chars in Hc as [->|Hd]; [| |done]; apply host_char_text; [auto|].
    right; right; right. unfold is_hex. by rewrite Hd.
  - destruct Hok as (Hn & _). apply elem_of_app in Hc as [Hc|[->|Hc]%elem_of_cons]; [|done|].
    + apply (ipv6_str_spec n Hn) in Hc as [?|[?|?%hex_text_hex]]; apply host_char_text; auto.
    + apply Hs. by eapply ip_scope.
  - apply (ipv6_str_spec n Hok) in Hc as [?|[?|?%hex_text_hex]]; apply host_char_text; auto.
Qed.

Lemma lower_id l : (∀ c, c ∈ l → lower_char c = c) → lower l = l.
Proof.
  unfold lower. induction l as [|c l IH]; intros Hl; [done|]. csimpl.
  rewrite Hl by left. f_equal. apply IH. intros d Hd. apply Hl. by right.
Qed.

Lemma digit_lower c : is_digit c = true → lower_char c = c.
Proof. intros Hc. apply digit_hex, andb_true_iff in Hc as [_ ?%bool_decide_eq_true]. done. Qed.

(** The host name of a URL whose host is the text of an address. *)
Lemma ip_str_hostname a :
  ip_ok a →
  (let '(x, zone) := partition_at percent (ip_str a) in
   lower x ++ match zone with Some z => percent :: z | None => [] end) = ip_str a.
Proof.
  intros Hok.
  assert (∀ n, 0 <= n < 2 ^ 128 → percent ∉ ipv6_str n ∧ lower (ipv6_str n) = ipv6_str n) as Hv6.
  { intros n Hn. destruct (ipv6_str_spec n Hn) as (_ & _ & Hc). split.
    - intros H. by destruct (Hc _ H) as [?|[?|?]].
    - apply lower_id. intros c [->|[->|Ht]]%Hc; [done|done|].
      by apply andb_true_iff in Ht as [_ ?%bool_decide_eq_true]. }
  destruct a as [n|n [scope|]]; cbn [ip_ok ip_str] in *.
  - assert (∀ c, c ∈ ipv4_str n → c = dot ∨ is_digit c = true) as Hc by (intros c; by apply ipv4_str_chars).
    rewrite partition_none by (intros H; by destruct (Hc _ H)). rewrite app_nil_r.
    apply lower_id. intros c [->|?%digit_lower]%Hc; done.
  - destruct Hok as (Hn & _). destruct (Hv6 n Hn) as [Hp Hl]. by rewrite partition_join, Hl by done.
  - destruct (Hv6 n Hok) as [Hp Hl]. by rewrite partition_none, Hl, app_nil_r by done.
Qed.

Lemma ip_str_colon a : ip_ok a → contains colon (ip_str a) = match a with V4 _ => false | V6 _ _ => true end.
Proof.
  destruct a as [n|n [scope|]]; cbn [ip_ok ip_str]; intros Hok.
  - apply contains_false. intros Hc. by destruct (ipv4_str_chars n colon Hok Hc).
  - apply bool_decide_eq_true. apply elem_of_app. left. destruct Hok as [Hn _]. by apply ipv6_str_spec.
  - apply bool_decide_eq_true. by apply ipv6_str_spec.
Qed.

Lemma ip_str_head n scope s : ip_ok (V6 n scope) → ip_str (V6 n scope) ≠ "v"%char :: s.
Proof.
  intros Hok Hs. assert (0 <= n < 2 ^ 128) as Hn by (by destruct scope; [destruct Hok|]).
  destruct (ipv6_str_spec n Hn) as (_ & Hcolon & Hc).
  destruct (ipv6_str n) as [|c l] eqn:E; [by apply not_elem_of_nil in Hcolon|].
  assert (c = "v"%char) as -> by (destruct scope; cbn [ip_str] in Hs; rewrite E in Hs; by injection Hs).
  by destruct (Hc "v"%char ltac:(by left)) as [?|[?|?]].
Qed.

Lemma port_text_digits p c : 0 <= p → c ∈ py_str p → is_digit c = true.
Proof. intros [Hn _]%py_str_spec. by apply numeric_digits. Qed.

Lemma port_part_chars port c :
  (∀ p, port = Some p → 0 <= p) → c ∈ port_part port → c = colon ∨ is_digit c = true.
Proof.
  destruct port as [p|]; simpl; intros Hp; [|by intros ?%not_elem_of_nil].
  destruct (p =? 0); [by intros ?%not_elem_of_nil|]. intros [->|Hc]%elem_of_cons; [by left|right].
  eapply port_text_digits; [by apply Hp|done].
Qed.

(** The port text of a network location. *)
Definition port_digits (port : option Z) : option chars :=
  match port with Some p => if p =? 0 then None else Some (py_str p) | None => None end.

Lemma port_digits_some port : (∀ p, port = Some p → 0 <= p) → port_digits port ≠ Some [].
Proof.
  destruct port as [p|]; simpl; intros Hp; [|done]. destruct (p =? 0); [done|].
  destruct (py_str_spec p (Hp p eq_refl)) as [Hn _]. by destruct (py_str p).
Qed.

Lemma partition_port s port : colon ∉ s → partition_at colon (s ++ port_part port) = (s, port_digits port).
Proof.
  intros Hs. unfold port_part, port_digits.
  destruct port as [p|]; [destruct (p =? 0)|]; rewrite ?app_nil_r; by rewrite ?partition_join, ?partition_none.
Qed.

Definition user_part (user : option chars) : chars :=
  match user with Some x => x ++ [at_sign] | None => [] end.

(** A network location with an address for its host is accepted and read back. *)
Lemma pinned_netloc user a port :
  ip_ok a → (∀ c, c ∈ ip_str a → host_char c = true) →
  (∀ x, user = Some x → lbracket ∉ x ∧ rbracket ∉ x) → (∀ p, port = Some p → 0 <= p) →
  let n := user_part user ++ bracketed (ip_str a) ++ port_part port in
  rpartition at_sign n = (user, bracketed (ip_str a) ++ port_part port) ∧
  hostinfo n = (ip_str a, port_digits port) ∧ netloc_ok n = true.
Proof.
  intros Hok Hsafe Huser Hport n. pose proof (port_digits_some port Hport) as Hpd.
  assert (∀ c, c ∈ bracketed (ip_str a) → host_char c = true ∨ c = rbracket) as Hb.
  { unfold bracketed. intros c. case_match; [|by left; apply Hsafe].
    rewrite elem_of_cons, elem_of_app, list_elem_of_singleton. intros [->|[?|?]]; auto. }
  assert (at_sign ∉ bracketed (ip_str a) ++ port_part port) as Hat.
  { intros [Hc|Hc]%elem_of_app; [by destruct (Hb _ Hc)|by destruct (port_part_chars _ _ Hport Hc)]. }
  assert (rpartition at_sign n = (user, bracketed (ip_str a) ++ port_part port)) as Hr.
  { subst n. destruct user as [x|]; simpl; [|by apply rpartition_none].
    rewrite <-app_assoc. by apply rpartition_app. }
  assert (∀ c, c ∈ [lbracket; rbracket] → c ∉ user_part user ∧ c ∉ port_part port) as Hbr.
  { intros c Hc. rewrite elem_of_cons, list_elem_of_singleton in Hc. split.
    - destruct user as [x|]; simpl; [|by apply not_elem_of_nil].
      destruct (Huser x eq_refl). rewrite elem_of_app, list_elem_of_singleton. by destruct Hc as [-> | ->]; intros [?|?].
    - intros Hp. by destruct (port_part_chars _ _ Hport Hp), Hc; subst. }
  destruct (Hbr lbracket ltac:(by left)) as [Hl1 Hl2], (Hbr rbracket ltac:(by right; left)) as [Hr1 Hr2].
  pose proof (ip_str_colon a Hok) as Hcolon.
  assert (rbracket ∉ ip_str a) as Hra by (intros Hc; by apply Hsafe in Hc).
  destruct a as [v4|v6 scope].
  - set (s := ip_str (V4 v4)) in *. assert (bracketed s = s) as Hbs by (unfold bracketed; by rewrite Hcolon).
    rewrite Hbs in *. apply contains_false in Hcolon.
    assert (lbracket ∉ s) as Hls by (intros Hc; by apply ipv4_str_chars in Hc as [?|?]).
    split_and!; [done| |].
    + unfold hostinfo. rewrite Hr. cbn [snd].
      rewrite partition_none by (rewrite elem_of_app; tauto).
      rewrite partition_port by done. by destruct (port_digits port) as [[]|].
    + unfold netloc_ok. rewrite (proj2 (contains_false lbracket n)), (proj2 (contains_false rbracket n));
        [done|subst n; rewrite Hbs, !elem_of_app; tauto..].
  - set (s := ip_str (V6 v6 scope)) in *.
    assert (bracketed s = lbracket :: s ++ [rbracket]) as Hbs by (unfold bracketed; by rewrite Hcolon).
    rewrite Hbs in *.
    assert (partition_at rbracket (s ++ [rbracket] ++ port_part port) = (s, Some (port_part port))) as Hp
      by by apply partition_join.
    split_and!; [done| |].
    + unfold hostinfo. rewrite Hr. cbn [snd]. rewrite <-app_comm_cons, <-app_assoc.
      cbn [partition_at]. rewrite decide_True, Hp by done. cbn [mbind option_bind].
      pose proof (partition_port [] port ltac:(set_solver)) as Hpp. simpl in Hpp. rewrite Hpp. simpl.
      by destruct (port_digits port) as [[]|].
    + assert (contains lbracket n = true ∧ contains rbracket n = true) as [Hcl Hcr].
      { unfold contains. rewrite !bool_decide_eq_true. subst n. rewrite Hbs, !elem_of_app.
        split; right; left; [by left|right]. apply elem_of_app. right. by left. }
      unfold netloc_ok. rewrite Hcl, Hcr. unfold check_bracketed_netloc. rewrite Hr. cbn [snd].
      rewrite <-app_comm_cons, <-app_assoc. cbn [partition_at]. rewrite decide_True, Hp by done.
      rewrite bool_decide_eq_true_2 by done.
      assert ((match port_part port with [] => true | c :: _ => bool_decide (c = colon) end) = true) as Hpc.
      { unfold port_part. destruct port as [p|]; [destruct (p =? 0)|]; done. }
      assert (check_bracketed_host s = true) as Hhost.
      { unfold check_bracketed_host. assert (ip_address s = Some (V6 v6 scope)) as Hs by by apply ip_address_str.
        destruct s as [|c s'] eqn:Es; [done|].
        assert (c ≠ "v"%char) as Hv; [|by destruct c as [[] [] [] [] [] [] [] []]; try (by destruct Hv); rewrite Hs].
        intros ->. by destruct (ip_str_head v6 scope s'). }
      destruct (port_part port); [by rewrite Hhost|by rewrite Hpc, Hhost].
Qed.

Lemma ip_v6_colon s n scope : ip_address s = Some (V6 n scope) → colon ∈ s.
Proof.
  assert (∀ t m, ipv6_int t = Some m → colon ∈ t) as Hint.
  { intros t m Ht. destruct (decide (colon ∈ t)) as [|Hc]; [done|]. unfold ipv6_int in Ht.
    by rewrite split_no_sep in Ht by done. }
  unfold ip_address. destruct (ipv4_address s); [done|]. unfold ipv6_address.
  destruct (contains slash s); [done|]. destruct (partition_at percent s) as [a [b|]] eqn:E;
    apply partition_sub in E as [Ha _].
  - destruct (bool_decide (b = []) || contains percent b); [done|].
    destruct (ipv6_int a) eqn:Ei; [|done]. intros _. by eapply Ha, Hint.
  - destruct (ipv6_int a) eqn:Ei; [|done]. intros _. by eapply Ha, Hint.
Qed.

Lemma hostinfo_chars n c :
  colon ∈ (hostinfo n).1 → c ∈ (hostinfo n).1 → c ∈ n ∧ c ≠ at_sign ∧ c ≠ rbracket.
Proof.
  unfold hostinfo. destruct (rpartition at_sign n) as [user h] eqn:Er. cbn [snd].
  pose proof (rpartition_spec _ _ _ _ Er) as [Hat _]. pose proof (rpartition_sub _ _ _ _ Er) as [Hsub _].
  destruct (partition_at lbracket h) as [a [br|]] eqn:El.
  - pose proof (partition_sub _ _ _ _ El) as [_ Hbr]. destruct (partition_at rbracket br) as [hn rest] eqn:Eb.
    pose proof (partition_spec _ _ _ _ Eb) as [Hnb _]. pose proof (partition_sub _ _ _ _ Eb) as [Hhn _].
    simpl in *. intros _ Hc. split_and!; [by apply Hsub, Hbr, Hhn| |by intros ->].
    intros ->. by apply Hat, Hbr, Hhn.
  - destruct (partition_at colon h) as [hn p] eqn:Ec. simpl. by apply partition_spec in Ec as [Hnc _].
Qed.

Lemma lower_elem c l : c ∈ lower l → ∃ d, d ∈ l ∧ c = lower_char d.
Proof. intros (d & -> & Hd)%list_elem_of_fmap. by exists d. Qed.

(** The characters of the host name, however it was lowered. *)
Lemma hostname_elem u h c :
  hostname u = Some h → c ∈ h → ∃ d, d ∈ (hostinfo (u_netloc u)).1 ∧ (c = d ∨ c = lower_char d).
Proof.
  unfold hostname. destruct (hostinfo (u_netloc u)).1 as [|x l] eqn:E; [done|]. rewrite <-E. clear E x l.
  destruct (partition_at percent (hostinfo (u_netloc u)).1) as [a zone] eqn:Ep. intros [= <-] Hc.
  pose proof (partition_spec _ _ _ _ Ep) as [_ ->].
  apply elem_of_app in Hc as [(d & Hd & ->)%lower_elem|Hc].
  - exists d. split; [apply elem_of_app; by left|by right].
  - exists c. split; [apply elem_of_app; right; by destruct zone|by left].
Qed.

Lemma literal_safe u a :
  web_url u → ip_address (lower (default [] (hostname u))) = Some a →
  ∀ c, c ∈ ip_str a → host_char c = true.
Proof.
  intros Hw Ha. destruct a as [n|n scope].
  { intros c Hc. pose proof (ip_address_ok _ _ Ha) as Hok. apply ipv4_str_chars in Hc as [->|Hd]; [done| |done].
    apply host_char_text. right; right; right. unfold is_hex. by rewrite Hd. }
  pose proof (ip_v6_colon _ _ _ Ha) as Hcolon.
  eapply ip_str_safe; [done|]. clear Ha.
  destruct (hostname u) as [h|] eqn:Eh; [|by apply not_elem_of_nil in Hcolon]. simpl in *.
  assert (∀ d, lower_char d = colon → d = colon) as Hlc.
  { intros d. destruct d as [[] [] [] [] [] [] [] []]; vm_compute; congruence. }
  assert (colon ∈ (hostinfo (u_netloc u)).1) as Hc.
  { apply lower_elem in Hcolon as (d & Hd & Hcd). symmetry in Hcd. apply Hlc in Hcd as ->.
    destruct (hostname_elem u h colon Eh Hd) as (d & Hd' & [->|Hl]); [done|].
    symmetry in Hl. by apply Hlc in Hl as ->. }
  intros c (d & Hd & ->)%lower_elem. rewrite host_char_lower.
  destruct (hostname_elem u h d Eh Hd) as (e & He & Hde).
  assert (host_char e = true) as Hhe.
  { destruct (hostinfo_chars _ _ Hc He) as (Hen & ? & ?). apply host_char_spec.
    split_and!; [by eapply web_netloc_end|by eapply web_netloc_safe|done|done]. }
  destruct Hde as [-> | ->]; [done|]. by rewrite host_char_lower.
Qed.

Lemma user_text x name password :
  partition_at colon x = (name, password) →
  name ++ marked colon (default [] password) ⊆ x.
Proof.
  intros [_ ->]%partition_spec c [Hc|Hc]%elem_of_app; apply elem_of_app; [by left|right].
  destruct password as [[|y p]|]; [by apply not_elem_of_nil in Hc|done|by apply not_elem_of_nil in Hc].
Qed.

Lemma url_port_range u port : url_port u = Ok port → ∀ p, port = Some p → 0 <= p.
Proof.
  unfold url_port. destruct (hostinfo (u_netloc u)).2 as [s|]; [|by intros [= <-]].
  destruct (isnumeric s) eqn:Hs; [|done]. destruct (number s <=? 65535); [|done]. simpl.
  intros [= <-] p [= <-]. apply number_nonneg. intros c. by apply numeric_digits.
Qed.

(** The part of a network location before the host, when there is one, has no brackets. *)
Definition plain_userinfo (u : url) : Prop :=
  ∀ x, (rpartition at_sign (u_netloc u)).1 = Some x → lbracket ∉ x ∧ rbracket ∉ x.

(** The user part [pin_url] writes. *)
Definition pinned_user (u : url) : option chars :=
  (λ '(name, password), name ++ marked colon (default [] password)) <$> userinfo u.

Lemma pinned_user_sub u x :
  pinned_user u = Some x → ∃ y, (rpartition at_sign (u_netloc u)).1 = Some y ∧ x ⊆ y.
Proof.
  unfold pinned_user, userinfo. destruct (rpartition at_sign (u_netloc u)).1 as [y|]; [|done]. simpl.
  destruct (partition_at colon y) as [name pw] eqn:E. intros [= <-]. exists y. split; [done|]. by apply user_text.
Qed.

Lemma pin_url_eq l u t :
  urlparse l = Some u →
  pin_url l t = Some (geturl (with_netloc (user_part (pinned_user u) ++ bracketed (rt_ip t) ++
                        port_part (rt_port t)) u), bracketed (rt_host t) ++ port_part (rt_port t)).
Proof.
  intros Hu. unfold pin_url. rewrite Hu. cbn [mbind option_bind]. cbv zeta.
  unfold pinned_user. destruct (userinfo u) as [[name pw]|]; [|done].
  cbn [fmap option_fmap option_map user_part]. by rewrite (app_assoc name).
Qed.

Lemma with_netloc_web u n :
  web_url u → netloc_ok n = true → (∀ c, c ∈ n → netloc_end c = false ∧ ¬ unsafe_byte c) →
  web_url (with_netloc n u).
Proof. intros [] Hok Hn. constructor; simpl; auto; intros c Hc; by apply Hn. Qed.

Lemma netloc_marks c : c ∈ [at_sign; lbracket; rbracket] → netloc_end c = false ∧ ¬ unsafe_byte c.
Proof. revert c. apply Forall_forall. by apply (bool_decide_unpack _). Qed.

(** The network location [pin_url] writes has no character that would end it. *)
Lemma pinned_netloc_safe u a port :
  web_url u → (∀ c, c ∈ ip_str a → host_char c = true) → (∀ p, port = Some p → 0 <= p) →
  ∀ c, c ∈ user_part (pinned_user u) ++ bracketed (ip_str a) ++ port_part port →
  netloc_end c = false ∧ ¬ unsafe_byte c.
Proof.
  intros Hw Hip Hport c Hc. rewrite !elem_of_app in Hc. destruct Hc as [Hc|[Hc|Hc]].
  - destruct (pinned_user u) as [x|] eqn:Ex; [|by apply not_elem_of_nil in Hc].
    apply elem_of_app in Hc as [Hc|Hc]; cycle 1.
    { apply list_elem_of_singleton in Hc as ->. apply netloc_marks. by left. }
    apply pinned_user_sub in Ex as (y & Hy & Hxy).
    assert (c ∈ u_netloc u) as Hcn.
    { destruct (rpartition at_sign (u_netloc u)) as [b h] eqn:E. simpl in Hy. subst b.
      apply rpartition_sub in E as [_ E]. by apply E, Hxy. }
    split; [by eapply web_netloc_end|by eapply web_netloc_safe].
  - unfold bracketed in Hc. assert (c = lbracket ∨ c = rbracket ∨ c ∈ ip_str a) as [->|[->|Hs]].
    { destruct (contains colon (ip_str a)); [|auto].
      rewrite elem_of_cons, elem_of_app, list_elem_of_singleton in Hc. tauto. }
    + apply netloc_marks. by right; left.
    + apply netloc_marks. by right; right; left.
    + by apply Hip, host_char_spec in Hs as (? & ? & _).
  - apply port_part_chars in Hc; [|done].
    assert (host_char c = true) as (? & ? & _)%host_char_spec; [|done].
    apply host_char_text. destruct Hc as [->|Hd]; [by left|]. right; right; right. unfold is_hex. by rewrite Hd.
Qed.

(** ** Theorems *)

(** C29: A URL is accepted exactly when it parses, its scheme is http or https, it names a host that
    is not on the list of names, its port is valid and every address the host stands for, its own or
    each answer of the resolver, is outside the forbidden ranges; the target then is the first of
    these addresses, written so that it reads back as that address. *)
Theorem webhook_accepted_exactly getaddrinfo l allow :
  (validate_webhook_url getaddrinfo l allow = Ok tt ↔
   ∃ u host port a addrs,
     urlparse l = Some u ∧ u_scheme u ∈ [to_chars "http"; to_chars "https"] ∧
     host = lower (default [] (hostname u)) ∧ host ≠ [] ∧ host ∉ BLOCKED_HOSTNAMES ∧
     url_port u = Ok port ∧ host_addresses getaddrinfo host = Some (a :: addrs) ∧
     Forall (λ a, ¬ forbidden allow a) (a :: addrs)) ∧
  (∀ t, resolve_webhook_url getaddrinfo l allow = Ok t →
     ∃ a addrs, host_addresses getaddrinfo (rt_host t) = Some (a :: addrs) ∧
       ip_address (rt_ip t) = Some a ∧ ¬ forbidden allow a).
Proof.
  split.
  - unfold validate_webhook_url. split.
    + destruct (resolve_webhook_url getaddrinfo l allow) as [t|e] eqn:Hr; [|done]. intros _.
      apply resolve_accepts in Hr as (u & host & port & a & addrs & ? & ? & ? & ? & ? & ? & ? & ? & _).
      by exists u, host, port, a, addrs.
    + intros (u & host & port & a & addrs & ? & ? & ? & ? & ? & ? & ? & ?).
      assert (resolve_webhook_url getaddrinfo l allow = Ok
        {| rt_scheme := u_scheme u; rt_host := host; rt_port := port; rt_ip := ip_str a |}) as ->; [|done].
      apply resolve_accepts. by exists u, host, port, a, addrs.
  - intros t (u & host & port & a & addrs & _ & _ & _ & _ & _ & _ & Ha & Hall & ->)%resolve_accepts.
    exists a, addrs. simpl. split_and!; [done| |by apply Forall_cons in Hall as [? _]].
    apply ip_address_str. unfold host_addresses in Ha.
    destruct (ip_address host) as [b|] eqn:Eb; [injection Ha as <- _; by eapply ip_address_ok|].
    destruct (getaddrinfo host) as [ips| |]; [|done..].
    destruct ips as [|s ips]; [done|]. rewrite mapM_answers in Ha.
    destruct (ip_address s) as [b|] eqn:Es; [|done]. simpl in Ha.
    destruct (mapM ip_address ips); [|done]. injection Ha as <- _. by eapply ip_address_ok.
Qed.

(** What an accepted URL is made of, and that the text of its address can stand in a URL. *)
Lemma resolved_parts getaddrinfo l allow t :
  (∀ h ips s c, getaddrinfo h = Infos ips → s ∈ ips → c ∈ s → host_char c = true) →
  resolve_webhook_url getaddrinfo l allow = Ok t →
  ∃ u a, urlparse l = Some u ∧ web_url u ∧ url_port u = Ok (rt_port t) ∧
    rt_ip t = ip_str a ∧ ip_ok a ∧ ¬ forbidden allow a ∧ ∀ c, c ∈ ip_str a → host_char c = true.
Proof.
  intros Hdns (u & host & port & a & addrs & Hu & Hs & Hh & Hne & _ & Hp & Ha & Hall & ->)%resolve_accepts.
  assert (web_url u) as Hw.
  { eapply urlparse_web; [done|done|]. intros Hn. apply Hne. rewrite Hh. unfold hostname. by rewrite Hn. }
  exists u, a. simpl. apply Forall_cons in Hall as [Hf _].
  unfold host_addresses in Ha. destruct (ip_address host) as [b|] eqn:Eb.
  { injection Ha as -> _. split_and!; try done; [by eapply ip_address_ok|].
    rewrite Hh in Eb. by apply (literal_safe u). }
  destruct (getaddrinfo host) as [ips| |] eqn:Eg; [|done..].
  destruct ips as [|s ips]; [done|]. rewrite mapM_answers in Ha.
  destruct (ip_address s) as [b|] eqn:Es; [|done]. simpl in Ha.
  destruct (mapM ip_address ips); [|done]. injection Ha as -> _.
  split_and!; try done; [by eapply ip_address_ok|].
  eapply ip_str_safe; [done|]. intros c. eapply Hdns; [done|by left].
Qed.

Lemma pinned_user_plain u x :
  plain_userinfo u → pinned_user u = Some x → lbracket ∉ x ∧ rbracket ∉ x.
Proof.
  intros Hpl (y & Hy & Hsub)%pinned_user_sub. destruct (Hpl y Hy) as [Hl Hr].
  split; intros H; by apply Hsub in H.
Qed.

(** C30: The URL a webhook is sent to differs from the configured one in its network location only,
    and whoever parses it finds as its host the text of the address that was checked, which is no
    forbidden address and needs no second look-up, with the port of the original (zero counts as
    none). The resolver answers with texts free of URL punctuation, and the user part of the
    original has no brackets. *)
Theorem pinned_url_reaches_checked getaddrinfo l allow t u :
  (∀ h ips s c, getaddrinfo h = Infos ips → s ∈ ips → c ∈ s → host_char c = true) →
  resolve_webhook_url getaddrinfo l allow = Ok t →
  urlparse l = Some u → plain_userinfo u →
  ∃ pinned header a n,
    pin_url l t = Some (pinned, header) ∧ urlparse pinned = Some (with_netloc n u) ∧
    hostname (with_netloc n u) = Some (rt_ip t) ∧
    ip_address (rt_ip t) = Some a ∧ ¬ forbidden allow a ∧
    url_port (with_netloc n u) = Ok (match rt_port t with Some 0 => None | p => p end).
Proof.
  intros Hdns Hr Hu Hplain.
  destruct (resolved_parts _ _ _ _ Hdns Hr) as (u' & a & Hu' & Hw & Hport & Hip & Hok & Hf & Hsafe).
  rewrite Hu in Hu'. injection Hu' as <-.
  pose proof (url_port_range _ _ Hport) as Hrange.
  destruct (pinned_netloc (pinned_user u) a (rt_port t) Hok Hsafe
              (λ x Hx, pinned_user_plain u x Hplain Hx) Hrange) as (Hat & Hinfo & Hnok).
  pose proof (pinned_netloc_safe u a (rt_port t) Hw Hsafe Hrange) as Hsafe'.
  rewrite (pin_url_eq l u t Hu), Hip.
  set (n := user_part (pinned_user u) ++ bracketed (ip_str a) ++ port_part (rt_port t)) in *.
  assert (ip_str a ≠ []) as Hne by (intros He; pose proof (ip_address_str a Hok) as Hs; by rewrite He in Hs).
  eexists _, _, a, n. split_and!; [done| | |by apply ip_address_str|done|].
  - apply (urlparse_geturl (with_netloc n u)); [by apply with_netloc_web|]. simpl. intros Hn.
    rewrite Hn in Hinfo. by injection Hinfo as Hs _.
  - unfold hostname. simpl. rewrite Hinfo. simpl. rewrite <-(ip_str_hostname a Hok) at 2.
    by destruct (ip_str a).
  - unfold url_port. simpl. rewrite Hinfo. simpl.
    destruct (rt_port t) as [p|] eqn:Ep; [|done]. pose proof (Hrange p eq_refl) as Hp.
    unfold url_port in Hport. destruct (hostinfo (u_netloc u)).2 as [s|]; [|done].
    destruct (isnumeric s && (number s <=? 65535)) eqn:Es; [|done]. injection Hport as <-.
    apply andb_true_iff in Es as [_ Hmax]. simpl.
    destruct (Z.eqb_spec (number s) 0) as [->|Hz]; [done|].
    destruct (py_str_spec (number s) Hp) as [Hnum Hv]. change (number (py_str (number s)) = number s) in Hv.
    rewrite Hnum, Hv, Hmax. by destruct (number s).
Qed.

(** ** Concrete URLs *)

Definition demo_dns (h : chars) : dns_answer :=
  if decide (h = to_chars "example.com")
  then Infos [to_chars "2001:db8::7"; to_chars "93.184.216.34"] else GaiError.

Definition demo_url : chars := to_chars "HTTPS://bob:pw@Example.com:8443/hook;v=1?x=2#end".

Definition demo_parsed : url :=
  {| u_scheme := to_chars "https"; u_netloc := to_chars "bob:pw@Example.com:8443";
     u_path := to_chars "/hook"; u_params := to_chars "v=1"; u_query := to_chars "x=2";
     u_fragment := to_chars "end" |}.

Definition demo_target : ResolvedTarget :=
  {| rt_scheme := to_chars "https"; rt_host := to_chars "example.com"; rt_port := Some 8443;
     rt_ip := to_chars "2001:db8::7" |}.

Lemma pinned_url_reaches_checked_witness :
  pin_url demo_url demo_target =
    Some (to_chars "https://bob:pw@[2001:db8::7]:8443/hook;v=1?x=2#end", to_chars "example.com:8443") ∧
  ∃ pinned header a n,
    pin_url demo_url demo_target = Some (pinned, header) ∧
    urlparse pinned = Some (with_netloc n demo_parsed) ∧
    hostname (with_netloc n demo_parsed) = Some (rt_ip demo_target) ∧
    ip_address (rt_ip demo_target) = Some a ∧ ¬ forbidden false a ∧
    url_port (with_netloc n demo_parsed) = Ok (Some 8443).
Proof.
  split; [vm_compute; reflexivity|].
  apply (pinned_url_reaches_checked demo_dns demo_url false demo_target demo_parsed).
  - intros h ips s c Hips Hs. unfold demo_dns in Hips. case_decide; [|discriminate].
    injection Hips as <-. revert c. apply Forall_forall. revert s Hs. apply Forall_forall.
    by apply (bool_decide_unpack _).
  - vm_compute. reflexivity.
  - vm_compute. reflexivity.
  - intros x Hx. vm_compute in Hx. injection Hx as <-. by split; apply (bool_decide_unpack _).
Defined.

(** An IPv4-mapped IPv6 address is in no blocked network, so the metadata service and the loopback
    interface are accepted in this spelling. *)
Lemma mapped_address_accepted :
  (rt_ip <$> resolve_webhook_url demo_dns (to_chars "http://[::ffff:169.254.169.254]/latest/meta-data") false)
    = Ok (to_chars "::ffff:169.254.169.254") ∧
  (rt_ip <$> resolve_webhook_url demo_dns (to_chars "http://[::ffff:127.0.0.1]/") false)
    = Ok (to_chars "::ffff:127.0.0.1").
Proof. split; vm_compute; reflexivity. Qed.

(** A URL with an unbalanced bracket makes [urlparse] raise, which is not a [WebhookURLBlocked]. *)
Lemma malformed_url_escapes :
  resolve_webhook_url demo_dns (to_chars "http://[::1/hook") false = Err UrlInvalid.
Proof. vm_compute. reflexivity. Qed.

(** The checks one by one. *)
Lemma guard_refuses :
  (resolve_webhook_url demo_dns (to_chars "ftp://example.com/") false = Err (WebhookURLBlocked SchemeNotAllowed)) ∧
  (resolve_webhook_url demo_dns (to_chars "http://LOCALHOST:80/") false = Err (WebhookURLBlocked HostnameBlocked)) ∧
  (resolve_webhook_url demo_dns (to_chars "http://10.1.2.3/") true = Err (WebhookURLBlocked IpBlocked)) ∧
  (resolve_webhook_url demo_dns (to_chars "http://unknown.test/") false = Err (WebhookURLBlocked DnsFailure)) ∧
  (resolve_webhook_url demo_dns (to_chars "http://example.com:70000/") false = Err (WebhookURLBlocked InvalidPort)) ∧
  (rt_ip <$> resolve_webhook_url demo_dns (to_chars "http://127.0.0.1/") true = Ok (to_chars "127.0.0.1")).
Proof. split_and!; vm_compute; reflexivity. Qed.
