(* ===== verification/Json.v ===== *)
(** * JSON texts (the json module as core/result.py uses it)

    [json.dumps] with its default separators and [ensure_ascii], and [json.loads], on text as
    lists of code points. A float is the text that denotes it (what [repr] prints, or the number
    [loads] read); integers have the 4,300-digit limit of [int(str)] and [str(int)]. A dictionary
    has text keys, in insertion order. The recursion limit of the interpreter is not modelled. *)

From S2P Require Import Prelude PyString.
#[local] Open Scope list_scope.
#[local] Open Scope Z_scope.

Abbreviation text := (list Z).

(** The code points of an ASCII text. *)
Definition codes (s : string) : text := code <$> to_chars s.

Inductive value : Type :=
  | VNull
  | VBool (b : bool)
  | VInt (n : Z)
  | VFloat (t : text)
  | VStr (s : text)
  | VList (l : list value)
  | VDict (m : list (text * value)).

(** [m[k] = v]: a key keeps its position. *)
Fixpoint dict_set (k : text) (v : value) (m : list (text * value)) : list (text * value) :=
  match m with
  | [] => [(k, v)]
  | (k', v') :: m => if decide (k' = k) then (k, v) :: m else (k', v') :: dict_set k v m
  end.

(** ** Printing *)

Definition hex_digit (n : Z) : Z := if n <? 10 then 48 + n else 87 + n.

Definition hex4 (n : Z) : text :=
  [hex_digit (n / 4096 mod 16); hex_digit (n / 256 mod 16); hex_digit (n / 16 mod 16); hex_digit (n mod 16)].

Definition escape_u (n : Z) : text := 92 :: 117 :: hex4 n.

Definition escape (c : Z) : text :=
  if c =? 34 then [92; 34]
  else if c =? 92 then [92; 92]
  else if c =? 10 then [92; 110]
  else if c =? 13 then [92; 114]
  else if c =? 9 then [92; 116]
  else if c =? 12 then [92; 102]
  else if c =? 8 then [92; 98]
  else if (32 <=? c) && (c <=? 126) then [c]
  else if c <? 65536 then escape_u c
  else escape_u (55296 + (c - 65536) / 1024) ++ escape_u (56320 + (c - 65536) mod 1024).

Definition encode_string (s : text) : text := 34 :: (s ≫= escape) ++ [34].

Definition int_text (n : Z) : text := codes (py_str_int n).

Definition comma : text := [44; 32].

(** [sep.join(parts)] *)
Fixpoint join_with (sep : text) (parts : list text) : text :=
  match parts with
  | [] => []
  | [p] => p
  | p :: parts => p ++ sep ++ join_with sep parts
  end.

Fixpoint dumps (v : value) : text :=
  match v with
  | VNull => codes "null"
  | VBool b => codes (if b then "true" else "false")
  | VInt n => int_text n
  | VFloat t => t
  | VStr s => encode_string s
  | VList l => 91 :: join_with comma (map dumps l) ++ [93]
  | VDict m =>
      123 :: join_with comma (map (λ kv, encode_string kv.1 ++ [58; 32] ++ dumps kv.2) m) ++ [125]
  end.

(** ** Scanning *)

Definition is_white (c : Z) : bool := (c =? 32) || (c =? 9) || (c =? 10) || (c =? 13).

Fixpoint skip_white (s : text) : text :=
  match s with
  | c :: s' => if is_white c then skip_white s' else s
  | [] => []
  end.

Definition is_dec (c : Z) : bool := (48 <=? c) && (c <=? 57).

Fixpoint span_dec (s : text) : text * text :=
  match s with
  | c :: s' => if is_dec c then let '(ds, r) := span_dec s' in (c :: ds, r) else ([], s)
  | [] => ([], [])
  end.

Definition dec_value (ds : text) : Z := foldl (λ a c, 10 * a + (c - 48)) 0 ds.

Definition max_str_digits : nat := Z.to_nat 4300.

(** A point and digits, when they follow. *)
Definition scan_fraction (s : text) : text * text :=
  match s with
  | c :: r =>
      if c =? 46 then match span_dec r with ([], _) => ([], s) | (ds, r') => (c :: ds, r') end
      else ([], s)
  | [] => ([], [])
  end.

(** An exponent with digits, when it follows. *)
Definition scan_exponent (s : text) : text * text :=
  match s with
  | c :: r =>
      if (c =? 101) || (c =? 69) then
        let '(sign, r1) :=
          match r with
          | d :: r' => if (d =? 43) || (d =? 45) then ([d], r') else ([], r)
          | [] => ([], [])
          end in
        match span_dec r1 with ([], _) => ([], s) | (ds, r2) => (c :: sign ++ ds, r2) end
      else ([], s)
  | [] => ([], [])
  end.

(** A sign, [0] or digits without leading zero, fraction and exponent; [None]: no number, or too
    many digits. *)
Definition scan_number (s : text) : option (value * text) :=
  let '(sign, s0) :=
    match s with c :: r => if c =? 45 then ([c], r) else ([], s) | [] => ([], []) end in
  match span_dec s0 with
  | ([], _) => None
  | (d :: ds, r) =>
      let '(ip, s1) := if d =? 48 then ([d], ds ++ r) else (d :: ds, r) in
      let '(fr, s2) := scan_fraction s1 in
      let '(ex, s3) := scan_exponent s2 in
      if decide (fr ++ ex = []) then
        if (max_str_digits <? length ip)%nat then None
        else Some (VInt (if decide (sign = []) then dec_value ip else - dec_value ip), s3)
      else Some (VFloat (sign ++ ip ++ fr ++ ex), s3)
  end.

Definition hex_value (c : Z) : option Z :=
  if is_dec c then Some (c - 48)
  else if (97 <=? c) && (c <=? 102) then Some (c - 87)
  else if (65 <=? c) && (c <=? 70) then Some (c - 55)
  else None.

Definition hex4_value (a b c d : Z) : option Z :=
  a ← hex_value a; b ← hex_value b; c ← hex_value c; d ← hex_value d;
  Some (4096 * a + 256 * b + 16 * c + d).

(** The escapes of one letter. *)
Definition unescape (c : Z) : option Z :=
  if (c =? 34) || (c =? 92) || (c =? 47) then Some c
  else if c =? 98 then Some 8
  else if c =? 102 then Some 12
  else if c =? 110 then Some 10
  else if c =? 114 then Some 13
  else if c =? 116 then Some 9
  else None.

Definition high_surrogate (u : Z) : bool := (55296 <=? u) && (u <=? 56319).
Definition low_surrogate (u : Z) : bool := (56320 <=? u) && (u <=? 57343).

(** The second half of a surrogate pair, when [\uXXXX] follows and is one. *)
Definition low_half (s : text) : option Z :=
  match s with
  | x :: y :: a :: b :: c :: d :: _ =>
      if (x =? 92) && (y =? 117) then
        u ← hex4_value a b c d; if low_surrogate u then Some u else None
      else None
  | _ => None
  end.

Definition cons_char (c : Z) (r : option (text * text)) : option (text * text) :=
  '(s, rest) ← r; Some (c :: s, rest).

(** The characters after an opening quote, up to the closing one. *)
Fixpoint scanstring (s : text) : option (text * text) :=
  match s with
  | [] => None
  | c :: r =>
      if c =? 34 then Some ([], r)
      else if c <? 32 then None
      else if c =? 92 then
        match r with
        | [] => None
        | e :: r1 =>
            if e =? 117 then
              match r1 with
              | a1 :: a2 :: a3 :: a4 :: r2 =>
                  match hex4_value a1 a2 a3 a4 with
                  | None => None
                  | Some u =>
                      if high_surrogate u then
                        match r2 with
                        | x1 :: x2 :: x3 :: x4 :: x5 :: x6 :: r3 =>
                            match low_half r2 with
                            | Some l => cons_char (65536 + (u - 55296) * 1024 + (l - 56320)) (scanstring r3)
                            | None => cons_char u (scanstring r2)
                            end
                        | _ => cons_char u (scanstring r2)
                        end
                      else cons_char u (scanstring r2)
                  end
              | _ => None
              end
            else match unescape e with
                 | None => None
                 | Some c' => cons_char c' (scanstring r1)
                 end
        end
      else cons_char c (scanstring r)
  end.

(** [s.startswith(p)] and what follows *)
Fixpoint strip_prefix (p s : text) : option text :=
  match p, s with
  | [], _ => Some s
  | c :: p, d :: s => if c =? d then strip_prefix p s else None
  | _, [] => None
  end.

Definition literals : list (text * value) :=
  [(codes "null", VNull); (codes "true", VBool true); (codes "false", VBool false);
   (codes "NaN", VFloat (codes "NaN")); (codes "Infinity", VFloat (codes "Infinity"));
   (codes "-Infinity", VFloat (codes "-Infinity"))].

Fixpoint scan_literal (ls : list (text * value)) (s : text) : option (value * text) :=
  match ls with
  | [] => None
  | (p, v) :: ls =>
      match strip_prefix p s with Some r => Some (v, r) | None => scan_literal ls s end
  end.

Fixpoint scan_once (n : nat) (s : text) : option (value * text) :=
  match n with
  | O => None
  | S n =>
      match s with
      | [] => None
      | c :: r =>
          if c =? 34 then '(t, r) ← scanstring r; Some (VStr t, r)
          else if c =? 123 then
            match skip_white r with
            | [] => None
            | d :: r' =>
                if d =? 125 then Some (VDict [], r')
                else '(m, r'') ← scan_members n (d :: r');
                     Some (VDict (foldl (λ m kv, dict_set kv.1 kv.2 m) [] m), r'')
            end
          else if c =? 91 then
            match skip_white r with
            | [] => None
            | d :: r' =>
                if d =? 93 then Some (VList [], r')
                else '(l, r'') ← scan_items n (d :: r'); Some (VList l, r'')
            end
          else match scan_literal literals s with Some x => Some x | None => scan_number s end
      end
  end
with scan_items (n : nat) (s : text) : option (list value * text) :=
  match n with
  | O => None
  | S n =>
      '(v, r) ← scan_once n s;
      match skip_white r with
      | [] => None
      | d :: r' =>
          if d =? 93 then Some ([v], r')
          else if d =? 44 then '(l, r'') ← scan_items n (skip_white r'); Some (v :: l, r'')
          else None
      end
  end
with scan_members (n : nat) (s : text) : option (list (text * value) * text) :=
  match n with
  | O => None
  | S n =>
      match s with
      | [] => None
      | q :: r =>
          if q =? 34 then
            '(k, r1) ← scanstring r;
            match skip_white r1 with
            | [] => None
            | c :: r2 =>
                if c =? 58 then
                  '(v, r3) ← scan_once n (skip_white r2);
                  match skip_white r3 with
                  | [] => None
                  | d :: r4 =>
                      if d =? 125 then Some ([(k, v)], r4)
                      else if d =? 44 then
                        '(m, r5) ← scan_members n (skip_white r4); Some ((k, v) :: m, r5)
                      else None
                  end
                else None
            end
          else None
      end
  end.

(** A call scans at least one character or hands its text to a call that does: two steps of fuel a
    character are enough ([scan_fuel]). [None] is a [ValueError]. *)
Definition loads (s : text) : option value :=
  '(v, r) ← scan_once (2 * length s + 2)%nat (skip_white s);
  if decide (skip_white r = []) then Some v else None.

(** ** Lemmas: the fuel *)

Lemma skip_white_length s : (length (skip_white s) <= length s)%nat.
Proof. induction s as [|c s IH]; simpl; [done|]. case_match; simpl; lia. Qed.

Lemma span_dec_length s ds r : span_dec s = (ds, r) → length s = (length ds + length r)%nat.
Proof.
  revert ds r. induction s as [|c s IH]; intros ds r; simpl; [by intros [= <- <-]|].
  case_match; [|by intros [= <- <-]]. destruct (span_dec s) as [ds' r'].
  intros [= <- <-]. simpl. by rewrite (IH ds' r').
Qed.

Lemma cons_char_Some c x t r : cons_char c x = Some (t, r) → ∃ t', x = Some (t', r).
Proof. destruct x as [[t' r']|]; simpl; naive_solver. Qed.

Lemma scanstring_length s t r : scanstring s = Some (t, r) → (length r < length s)%nat.
Proof.
  remember (length s) as n eqn:Hn. revert s t r Hn.
  induction (lt_wf n) as [n _ IH]; intros s t r -> Hs.
  assert (∀ c s' , (length s' < length s)%nat → cons_char c (scanstring s') = Some (t, r) → (length r < length s)%nat) as Hc.
  { intros c s' Hl [t' Ht]%cons_char_Some. eapply IH in Ht; [|exact Hl|done]. lia. }
  destruct s as [|c s]; [done|]. cbn [scanstring] in Hs.
  destruct (c =? 34); [injection Hs as <- <-; simpl; lia|].
  destruct (c <? 32); [done|].
  destruct (c =? 92); [|by eapply Hc, Hs; simpl; lia].
  destruct s as [|e s]; [done|]. destruct (e =? 117).
  2: { destruct (unescape e); [|done]. eapply Hc, Hs; simpl; lia. }
  destruct s as [|a1 [|a2 [|a3 [|a4 s]]]]; [done..|].
  destruct (hex4_value a1 a2 a3 a4) as [u|]; [|done].
  destruct (high_surrogate u); [|eapply Hc, Hs; simpl; lia].
  destruct s as [|x1 [|x2 [|x3 [|x4 [|x5 [|x6 s]]]]]]; [eapply Hc, Hs; simpl; lia..|].
  destruct (low_half _); eapply Hc, Hs; simpl; lia.
Qed.

Lemma strip_prefix_length p s r : strip_prefix p s = Some r → length s = (length p + length r)%nat.
Proof.
  revert s. induction p as [|c p IH]; intros [|d s]; try (by intros [= <-]).
  cbn [strip_prefix]. destruct (c =? d); [|done]. intros Hr. simpl. by rewrite (IH s Hr).
Qed.

Lemma scan_literal_length s v r : scan_literal literals s = Some (v, r) → (length r < length s)%nat.
Proof.
  assert (∀ ls, Forall (λ l, l.1 ≠ []) ls → scan_literal ls s = Some (v, r) → (length r < length s)%nat) as Hl.
  { induction 1 as [|[p w] ls Hp Hls IH]; [done|]. simpl in *. case_match eqn:E; [|done].
    intros [= <- <-]. apply strip_prefix_length in E. destruct p; [done|]. simpl in E. lia. }
  apply Hl. by repeat constructor.
Qed.

Lemma scan_fraction_length s fr r : scan_fraction s = (fr, r) → (length r <= length s)%nat.
Proof.
  unfold scan_fraction. intros H. repeat first [progress simplify_eq/= | case_match]; try lia.
  apply span_dec_length in H1. simpl in *. lia.
Qed.

Lemma scan_exponent_length s ex r : scan_exponent s = (ex, r) → (length r <= length s)%nat.
Proof.
  unfold scan_exponent. intros H. repeat first [progress simplify_eq/= | case_match]; try lia;
    repeat match goal with H : span_dec _ = _ |- _ => apply span_dec_length in H end; simpl in *; lia.
Qed.

Lemma scan_number_length s v r : scan_number s = Some (v, r) → (length r < length s)%nat.
Proof.
  unfold scan_number. intros H.
  repeat first [progress simplify_eq/= | case_match]; try lia;
    repeat match goal with
    | H : span_dec _ = _ |- _ => apply span_dec_length in H
    | H : scan_fraction _ = _ |- _ => apply scan_fraction_length in H
    | H : scan_exponent _ = _ |- _ => apply scan_exponent_length in H
    end; rewrite ?length_app in *; simpl in *; lia.
Qed.

Lemma scan_shorter n :
  (∀ s v r, scan_once n s = Some (v, r) → (length r < length s)%nat) ∧
  (∀ s v r, scan_items n s = Some (v, r) → (length r < length s)%nat) ∧
  (∀ s v r, scan_members n s = Some (v, r) → (length r < length s)%nat).
Proof.
  induction n as [|n (IH1 & IH2 & IH3)]; [done|].
  split_and!; intros s v r H; cbn [scan_once scan_items scan_members] in H.
  - destruct s as [|c s]; [done|]. pose proof (skip_white_length s) as Hw. cbn [length].
    destruct (c =? 34).
    { apply bind_Some in H as ([t r1] & Hs & [= <- <-]). apply scanstring_length in Hs. lia. }
    destruct (c =? 123).
    { destruct (skip_white s) as [|d s1]; [done|]. cbn [length] in Hw.
      destruct (d =? 125); [injection H as <- <-; lia|].
      apply bind_Some in H as ([m r1] & Hs & [= <- <-]). apply IH3 in Hs. cbn [length] in Hs. lia. }
    destruct (c =? 91).
    { destruct (skip_white s) as [|d s1]; [done|]. cbn [length] in Hw.
      destruct (d =? 93); [injection H as <- <-; lia|].
      apply bind_Some in H as ([m r1] & Hs & [= <- <-]). apply IH2 in Hs. cbn [length] in Hs. lia. }
    destruct (scan_literal literals (c :: s)) as [[w r1]|] eqn:Hl.
    + injection H as <- <-. by apply scan_literal_length in Hl.
    + by apply scan_number_length in H.
  - apply bind_Some in H as ([w r1] & Hs & H). apply IH1 in Hs. pose proof (skip_white_length r1) as Hw.
    destruct (skip_white r1) as [|d r2]; [done|]. cbn [length] in Hw.
    destruct (d =? 93); [injection H as <- <-; lia|]. destruct (d =? 44); [|done].
    apply bind_Some in H as ([l r3] & Hs2 & [= <- <-]). apply IH2 in Hs2.
    pose proof (skip_white_length r2). lia.
  - destruct s as [|q s]; [done|]. destruct (q =? 34); [|done]. cbn [length].
    apply bind_Some in H as ([k r1] & Hs & H). apply scanstring_length in Hs.
    pose proof (skip_white_length r1) as Hw1. destruct (skip_white r1) as [|c r2]; [done|]. cbn [length] in Hw1.
    destruct (c =? 58); [|done]. apply bind_Some in H as ([w r3] & Hs1 & H). apply IH1 in Hs1.
    pose proof (skip_white_length r2). pose proof (skip_white_length r3) as Hw3.
    destruct (skip_white r3) as [|d r4]; [done|]. cbn [length] in Hw3.
    destruct (d =? 125); [injection H as <- <-; lia|]. destruct (d =? 44); [|done].
    apply bind_Some in H as ([m r5] & Hs2 & [= <- <-]). apply IH3 in Hs2.
    pose proof (skip_white_length r4). lia.
Qed.

(** More fuel than two steps a character changes nothing. *)
Lemma scan_fuel_step n n' :
  (∀ s, (2 * length s < n)%nat → (2 * length s < n')%nat → scan_once n s = scan_once n' s) ∧
  (∀ s, (2 * length s + 1 < n)%nat → (2 * length s + 1 < n')%nat → scan_items n s = scan_items n' s) ∧
  (∀ s, (2 * length s < n)%nat → (2 * length s < n')%nat → scan_members n s = scan_members n' s).
Proof.
  revert n'. induction n as [|n IH]; intros n'; [split_and!; intros; lia|].
  destruct n' as [|n']; [split_and!; intros; lia|]. destruct (IH n') as (IH1 & IH2 & IH3).
  split_and!; intros s H H'; cbn [scan_once scan_items scan_members].
  - destruct s as [|c s]; [done|]. pose proof (skip_white_length s) as Hw. cbn [length] in *.
    destruct (c =? 34); [done|]. destruct (c =? 123); [|destruct (c =? 91); [|done]];
      destruct (skip_white s) as [|d s1]; try done; cbn [length] in Hw.
    + destruct (d =? 125); [done|]. by rewrite IH3 by (cbn [length]; lia).
    + destruct (d =? 93); [done|]. by rewrite IH2 by (cbn [length]; lia).
  - rewrite IH1 by lia. destruct (scan_once n' s) as [[v r]|] eqn:E; [|done]. cbn [mbind option_bind].
    apply (scan_shorter n') in E. pose proof (skip_white_length r) as Hw.
    destruct (skip_white r) as [|d r']; [done|]. cbn [length] in Hw. pose proof (skip_white_length r').
    destruct (d =? 93); [done|]. destruct (d =? 44); [|done]. by rewrite IH2 by lia.
  - destruct s as [|q s]; [done|]. destruct (q =? 34); [|done]. cbn [length] in *.
    destruct (scanstring s) as [[k r1]|] eqn:E1; [|done]. apply scanstring_length in E1.
    cbn [mbind option_bind]. pose proof (skip_white_length r1) as Hw1.
    destruct (skip_white r1) as [|c r2]; [done|]. cbn [length] in Hw1. pose proof (skip_white_length r2).
    destruct (c =? 58); [|done]. rewrite IH1 by lia.
    destruct (scan_once n' (skip_white r2)) as [[v r3]|] eqn:E2; [|done]. apply (scan_shorter n') in E2.
    cbn [mbind option_bind]. pose proof (skip_white_length r3) as Hw3.
    destruct (skip_white r3) as [|d r4]; [done|]. cbn [length] in Hw3. pose proof (skip_white_length r4).
    destruct (d =? 125); [done|]. destruct (d =? 44); [|done]. by rewrite IH3 by lia.
Qed.

Lemma scan_fuel n s : (2 * length s < n)%nat → scan_once n s = scan_once (2 * length s + 1) s.
Proof. intros Hn. apply scan_fuel_step; lia. Qed.

(** ** Lemmas: strings *)

(** A code point that is not a surrogate. *)
Definition valid_char (c : Z) : Prop :=
  0 <= c < 1114112 ∧ high_surrogate c = false ∧ low_surrogate c = false.
#[global] Instance valid_char_dec c : Decision (valid_char c).
Proof. unfold valid_char. apply _. Defined.

Lemma hex_value_digit d : 0 <= d < 16 → hex_value (hex_digit d) = Some d.
Proof. intros Hd. unfold hex_value, hex_digit, is_dec. repeat case_match; try lia; f_equal; lia. Qed.

Lemma hex4_round n : 0 <= n < 65536 →
  hex4_value (hex_digit (n / 4096 mod 16)) (hex_digit (n / 256 mod 16))
             (hex_digit (n / 16 mod 16)) (hex_digit (n mod 16)) = Some n.
Proof.
  intros Hn. unfold hex4_value. rewrite !hex_value_digit by (apply Z.mod_pos_bound; lia). simpl. f_equal.
  Z.to_euclidean_division_equations. lia.
Qed.

Lemma scan_escape_u u s :
  0 <= u < 65536 → high_surrogate u = false →
  scanstring (escape_u u ++ s) = cons_char u (scanstring s).
Proof. intros Hu Hh. cbn -[hex4_value hex_digit Z.div Z.modulo high_surrogate cons_char]. by rewrite hex4_round, Hh. Qed.

Lemma scan_escape_pair u l s :
  0 <= u < 65536 → 0 <= l < 65536 → high_surrogate u = true → low_surrogate l = true →
  scanstring (escape_u u ++ escape_u l ++ s) =
  cons_char (65536 + (u - 55296) * 1024 + (l - 56320)) (scanstring s).
Proof.
  intros Hu Hl Hh Hlo.
  cbn -[hex4_value hex_digit Z.div Z.modulo high_surrogate low_surrogate cons_char].
  rewrite hex4_round, Hh by done. rewrite hex4_round by done.
  cbn -[hex_digit Z.div Z.modulo high_surrogate low_surrogate cons_char Z.mul Z.sub Z.add]. by rewrite Hlo.
Qed.

Lemma scan_escape c s : valid_char c → scanstring (escape c ++ s) = cons_char c (scanstring s).
Proof.
  intros (Hc & Hh & Hl). unfold escape.
  repeat match goal with
  | |- context [if c =? ?n then _ else _] =>
      destruct (Z.eqb_spec c n) as [->|]; [reflexivity|]
  end.
  destruct ((32 <=? c) && (c <=? 126)) eqn:Hp.
  { simpl. destruct (Z.eqb_spec c 34); [done|]. rewrite (proj2 (Z.ltb_ge c 32)) by lia.
    destruct (Z.eqb_spec c 92); [done|]. done. }
  case_match.
  { apply scan_escape_u; [lia|done]. }
  assert (0 <= (c - 65536) / 1024 < 1024) by (split; [apply Z.div_pos|apply Z.div_lt_upper_bound]; lia).
  pose proof (Z.mod_pos_bound (c - 65536) 1024 ltac:(lia)).
  rewrite <-app_assoc, scan_escape_pair; [|lia|lia|unfold high_surrogate; lia|unfold low_surrogate; lia].
  f_equal. pose proof (Z.div_mod (c - 65536) 1024). lia.
Qed.

Lemma scanstring_encoded s rest :
  Forall valid_char s → scanstring ((s ≫= escape) ++ 34 :: rest) = Some (s, rest).
Proof.
  induction 1 as [|c s Hc Hs IH]; [done|]. csimpl.
  by rewrite <-app_assoc, scan_escape, IH.
Qed.

(** ** Lemmas: numbers *)

(** What follows a value inside a list or a dictionary, or at the end. *)
Definition stops (s : text) : Prop :=
  match s with [] => True | c :: _ => c = 44 ∨ c = 93 ∨ c = 125 end.

Lemma span_dec_frame s ds r rest :
  stops rest → span_dec s = (ds, r) → span_dec (s ++ rest) = (ds, r ++ rest).
Proof.
  intros Hr. revert ds r. induction s as [|c s IH]; intros ds r; simpl.
  - intros [= <- <-]. destruct rest as [|c rest]; [done|]. simpl in *. unfold is_dec.
    destruct Hr as [->|[->| ->]]; done.
  - destruct (is_dec c).
    + destruct (span_dec s) as [ds' r']. intros [= <- <-]. by rewrite (IH ds' r').
    + by intros [= <- <-].
Qed.

Lemma span_dec_digits ds rest :
  Forall (λ c, is_dec c = true) ds → stops rest → span_dec (ds ++ rest) = (ds, rest).
Proof.
  intros Hd Hr. apply (span_dec_frame ds ds []); [done|].
  induction Hd as [|c ds Hc Hd IH]; [done|]. simpl. by rewrite Hc, IH.
Qed.

Lemma scan_fraction_frame s fr r rest :
  stops rest → scan_fraction s = (fr, r) → scan_fraction (s ++ rest) = (fr, r ++ rest).
Proof.
  intros Hr. destruct s as [|c s]; simpl.
  - intros [= <- <-]. destruct rest as [|c rest]; [done|]. simpl in *. by destruct Hr as [->|[->| ->]].
  - destruct (c =? 46); [|by intros [= <- <-]].
    destruct (span_dec s) as [ds r'] eqn:E. rewrite (span_dec_frame _ _ _ _ Hr E).
    destruct ds; by intros [= <- <-].
Qed.

Lemma scan_exponent_frame s ex r rest :
  stops rest → scan_exponent s = (ex, r) → scan_exponent (s ++ rest) = (ex, r ++ rest).
Proof.
  intros Hr. destruct s as [|c s]; simpl.
  - intros [= <- <-]. destruct rest as [|c rest]; [done|]. simpl in *. by destruct Hr as [->|[->| ->]].
  - destruct ((c =? 101) || (c =? 69)); [|by intros [= <- <-]].
    destruct s as [|d s]; simpl.
    + intros [= <- <-]. destruct rest as [|d rest]; [done|].
      simpl in *. by destruct Hr as [->|[->| ->]].
    + destruct ((d =? 43) || (d =? 45)).
      * destruct (span_dec s) as [ds r'] eqn:E. rewrite (span_dec_frame _ _ _ _ Hr E).
        destruct ds; by intros [= <- <-].
      * destruct (span_dec (d :: s)) as [ds r'] eqn:E.
        rewrite (span_dec_frame (d :: s) _ _ _ Hr E : span_dec (d :: s ++ rest) = _).
        destruct ds; by intros [= <- <-].
Qed.

Lemma scan_number_frame s v r rest :
  stops rest → scan_number s = Some (v, r) → scan_number (s ++ rest) = Some (v, r ++ rest).
Proof.
  intros Hr. unfold scan_number.
  destruct s as [|c s]; [done|]. simpl.
  assert (∃ sign s0, (if c =? 45 then ([c], s) else ([], c :: s)) = (sign, s0) ∧
    (if c =? 45 then ([c], s ++ rest) else ([], c :: s ++ rest)) = (sign, s0 ++ rest)) as (sign & s0 & -> & ->).
  { destruct (c =? 45); eauto. }
  destruct (span_dec s0) as [[|d ds] r0] eqn:E; [done|]. rewrite (span_dec_frame _ _ _ _ Hr E).
  assert (∃ ip s1, (if d =? 48 then ([d], ds ++ r0) else (d :: ds, r0)) = (ip, s1) ∧
    (if d =? 48 then ([d], ds ++ r0 ++ rest) else (d :: ds, r0 ++ rest)) = (ip, s1 ++ rest)) as (ip & s1 & -> & ->).
  { destruct (d =? 48); [|eauto]. do 2 eexists. split; [done|]. by rewrite <-app_assoc. }
  destruct (scan_fraction s1) as [fr s2] eqn:Ef. rewrite (scan_fraction_frame _ _ _ _ Hr Ef).
  destruct (scan_exponent s2) as [ex s3] eqn:Ee. rewrite (scan_exponent_frame _ _ _ _ Hr Ee).
  case_decide; [|by intros [= <- <-]]. by destruct (_ <? _)%nat; [|intros [= <- <-]].
Qed.

(** The text of an integer that [int(str)] accepts. *)
Definition short_int (n : Z) : Prop := (length (py_str (Z.abs n)) <= max_str_digits)%nat.

Lemma dec_go_head fuel n acc :
  0 < n → n < 2 ^ Z.of_nat fuel →
  ∃ c ds, dec_go fuel n acc = c :: ds ∧ code c ≠ 48.
Proof.
  revert n acc; induction fuel as [|fuel IH]; intros n acc Hn Hf; [simpl in Hf; lia|].
  simpl. pose proof (Z.mod_pos_bound n 10 ltac:(lia)) as Hm. case_match eqn:E.
  - do 2 eexists. split; [done|]. rewrite code_digit_char by done. rewrite Z.mod_small; lia.
  - apply IH; [apply Z.div_str_pos; lia|]. apply Z.div_lt_upper_bound; [lia|].
    rewrite Nat2Z.inj_succ, Z.pow_succ_r in Hf by lia. lia.
Qed.

Lemma py_str_digits n : 0 <= n →
  ∃ c ds, py_str n = c :: ds ∧ Forall (λ c, is_digit c = true) (c :: ds) ∧
    foldl (λ a c, 10 * a + digit_value c) 0 (c :: ds) = n ∧ (code c = 48 → ds = []).
Proof.
  intros Hn. destruct (py_str_spec n Hn) as [Hnum Hv].
  apply forallb_isnumeric in Hnum as [Hne Hd].
  destruct (py_str n) as [|c ds] eqn:E; [done|]. exists c, ds. split_and!; [done| |done|].
  { apply Forall_forall. intros x Hx. by apply Hd. }
  intros Hc. destruct (decide (n = 0)) as [->|Hn0]; [by vm_compute in E; simplify_eq|].
  destruct (dec_go_head (S (Z.to_nat (Z.log2 n))) n []) as (c' & ds' & E' & Hc'); [lia| |].
  - rewrite Nat2Z.inj_succ, Z2Nat.id by apply Z.log2_nonneg. apply Z.log2_spec. lia.
  - unfold py_str in E. rewrite E in E'. by simplify_eq.
Qed.

Lemma dec_value_codes ds : dec_value (code <$> ds) = foldl (λ a c, 10 * a + digit_value c) 0 ds.
Proof.
  unfold dec_value, digit_value. generalize 0 at 1 2 as acc.
  induction ds as [|d ds IH]; intros acc; [done|]. csimpl. by rewrite IH.
Qed.

Lemma int_text_codes n :
  int_text n = (if n <? 0 then 45 :: (code <$> py_str (- n)) else code <$> py_str n).
Proof. unfold int_text, codes, py_str_int. rewrite to_of_chars. by destruct (n <? 0). Qed.

Lemma scan_digits_number sign n :
  0 <= n → short_int n → sign = [] ∨ sign = [45] →
  scan_number (sign ++ (code <$> py_str n)) =
  Some (VInt (if decide (sign = []) then n else - n), []).
Proof.
  intros Hn Hs Hsign. destruct (py_str_digits n Hn) as (c & ds & E & Hd & Hv & Hz).
  assert (scan_number (sign ++ (code <$> py_str n)) =
    match span_dec (code <$> py_str n) with
    | ([], _) => None
    | (d :: ds, r) =>
      let '(ip, s1) := if d =? 48 then ([d], ds ++ r) else (d :: ds, r) in
      let '(fr, s2) := scan_fraction s1 in
      let '(ex, s3) := scan_exponent s2 in
      if decide (fr ++ ex = []) then
        if (max_str_digits <? length ip)%nat then None
        else Some (VInt (if decide (sign = []) then dec_value ip else - dec_value ip), s3)
      else Some (VFloat (sign ++ ip ++ fr ++ ex), s3)
    end) as ->.
  { destruct Hsign as [-> | ->]; [|done]. rewrite E, fmap_cons.
    apply Forall_cons in Hd as [Hc _]. unfold is_digit in Hc.
    assert ((code c =? 45) = false) as H45 by lia. unfold scan_number. cbn [app]. by rewrite H45. }
  pose proof (span_dec_digits (code <$> py_str n) []) as Hspan. rewrite app_nil_r in Hspan.
  rewrite Hspan; [|rewrite Forall_fmap, E; eapply Forall_impl; [exact Hd|]; unfold is_dec, is_digit; by intros ? <-|done].
  unfold short_int in Hs. rewrite Z.abs_eq, E in Hs by done. rewrite E. csimpl.
  rewrite <-Hv, <-dec_value_codes.
  destruct (Z.eqb_spec (code c) 48) as [H0|H0].
  - rewrite (Hz H0). csimpl. by case_decide.
  - cbn [scan_fraction scan_exponent app]. rewrite decide_True by done.
    rewrite (proj2 (Nat.ltb_ge _ _)); [by case_decide|]. csimpl in Hs. simpl. rewrite length_fmap. exact Hs.
Qed.

Lemma scan_int_text n : short_int n → scan_number (int_text n) = Some (VInt n, []).
Proof.
  intros Hs. rewrite int_text_codes. destruct (Z.ltb_spec n 0).
  - pose proof (scan_digits_number [45] (- n)) as Hn. rewrite Z.opp_involutive in Hn.
    apply Hn; [lia| |by right]. unfold short_int in *. by rewrite Z.abs_opp.
  - by apply (scan_digits_number []); [| |left].
Qed.

(** A number is neither a literal nor the start of a string, a list or a dictionary. *)
Lemma literals_codes : literals = ltac:(let l := eval vm_compute in literals in exact l).
Proof. by vm_compute. Qed.

Lemma number_head s x : scan_number s = Some x →
  scan_literal literals s = None ∧
  match s with [] => False | c :: _ => c = 45 ∨ is_dec c = true end.
Proof.
  unfold scan_number. rewrite literals_codes. destruct s as [|c s]; [done|].
  assert (∀ d t, is_dec d = true → scan_literal literals (d :: t) = None) as Hdec.
  { intros d t Hd. unfold is_dec in Hd. rewrite literals_codes. cbn [scan_literal strip_prefix].
    repeat match goal with |- context [?a =? d] => rewrite (proj2 (Z.eqb_neq a d)) by lia end. done. }
  destruct (Z.eqb_spec c 45) as [->|Hc].
  - destruct s as [|d s]; [done|]. simpl span_dec. destruct (is_dec d) eqn:Hd; [|done].
    intros _. split; [|by left]. cbn [scan_literal strip_prefix]. unfold is_dec in Hd.
    by rewrite (proj2 (Z.eqb_neq 73 d)) by lia.
  - simpl span_dec. destruct (is_dec c) eqn:Hd; [|done]. intros _. split; [by apply Hdec|by right].
Qed.

(** ** Lemmas: the printed text of a value reads back *)

Definition is_float (t : text) : Prop :=
  (t, VFloat t) ∈ literals ∨ scan_number t = Some (VFloat t, []).

(** The values [dumps] and [loads] exchange without loss: integers with at most 4,300 digits, the
    text of floats as [repr] prints it, text without surrogates, dictionaries with distinct keys. *)
Inductive json_value : value → Prop :=
  | jv_null : json_value VNull
  | jv_bool b : json_value (VBool b)
  | jv_int n : short_int n → json_value (VInt n)
  | jv_float t : is_float t → json_value (VFloat t)
  | jv_str s : Forall valid_char s → json_value (VStr s)
  | jv_list l : Forall json_value l → json_value (VList l)
  | jv_dict m : NoDup m.*1 → Forall (λ kv, Forall valid_char kv.1 ∧ json_value kv.2) m → json_value (VDict m).

Section value_ind.
Context (P : value → Prop) (Hnull : P VNull) (Hbool : ∀ b, P (VBool b)) (Hint : ∀ n, P (VInt n))
  (Hfloat : ∀ t, P (VFloat t)) (Hstr : ∀ s, P (VStr s)) (Hlist : ∀ l, Forall P l → P (VList l))
  (Hdict : ∀ m, Forall (λ kv, P kv.2) m → P (VDict m)).

Fixpoint value_nested_ind (v : value) : P v :=
  match v with
  | VNull => Hnull
  | VBool b => Hbool b
  | VInt n => Hint n
  | VFloat t => Hfloat t
  | VStr s => Hstr s
  | VList l => Hlist l ((fix go l : Forall P l :=
      match l with [] => Forall_nil_2 _ | v :: l => Forall_cons_2 _ _ _ (value_nested_ind v) (go l) end) l)
  | VDict m => Hdict m ((fix go m : Forall (λ kv, P kv.2) m :=
      match m with [] => Forall_nil_2 _ | kv :: m => Forall_cons_2 _ _ _ (value_nested_ind kv.2) (go m) end) m)
  end.
End value_ind.

Lemma skip_white_id c s : is_white c = false → skip_white (c :: s) = c :: s.
Proof. intros Hc. simpl. by rewrite Hc. Qed.

Lemma skip_white_stops s : stops s → skip_white s = s.
Proof. destruct s as [|c s]; [done|]. simpl. by intros [->|[->| ->]]. Qed.

(** The first character of the text of a value is not mistaken for what may stand in its place. *)
Definition starts (s : text) : Prop :=
  match s with [] => False | c :: _ => is_white c = false ∧ c ≠ 93 ∧ c ≠ 125 end.

Lemma number_starts s x : scan_number s = Some x → starts s.
Proof.
  intros [_ Hs]%number_head. destruct s as [|c s]; [done|]. simpl. unfold is_white, is_dec in *. lia.
Qed.

Lemma dumps_starts v : json_value v → starts (dumps v).
Proof.
  destruct 1 as [|[]|n Hn|t [Ht|Ht]| | |]; try done.
  - by apply scan_int_text, number_starts in Hn.
  - rewrite literals_codes in Ht. repeat (apply elem_of_cons in Ht as [Ht|Ht]; [simplify_eq; done|]).
    by apply elem_of_nil in Ht.
  - by apply number_starts in Ht.
Qed.

Lemma starts_app s rest : starts s → starts (s ++ rest).
Proof. by destruct s. Qed.

Lemma scan_scalar n s v rest :
  stops rest → scan_number s = Some (v, []) → scan_once (S n) (s ++ rest) = Some (v, rest).
Proof.
  intros Hr Hs. pose proof (scan_number_frame _ _ _ _ Hr Hs) as Hf.
  pose proof (number_head _ _ Hf) as [Hlit Hh]. simpl in Hf. cbn [scan_once]. rewrite Hlit, Hf.
  destruct (s ++ rest) as [|c r]; [done|].
  unfold is_dec in Hh. by rewrite !(proj2 (Z.eqb_neq _ _)) by lia.
Qed.

Lemma scan_float n t rest :
  stops rest → is_float t → scan_once (S n) (t ++ rest) = Some (VFloat t, rest).
Proof.
  intros Hr [Ht|Ht]; [|by apply scan_scalar].
  rewrite literals_codes in Ht. repeat (apply elem_of_cons in Ht as [Ht|Ht]; [simplify_eq; reflexivity|]).
  by apply elem_of_nil in Ht.
Qed.

Lemma foldl_dict_set m acc :
  NoDup (acc ++ m).*1 → foldl (λ m kv, dict_set kv.1 kv.2 m) acc m = acc ++ m.
Proof.
  revert acc. induction m as [|[k v] m IH]; intros acc Hn; simpl; [by rewrite app_nil_r|].
  assert (dict_set k v acc = acc ++ [(k, v)]) as ->.
  { assert (k ∉ acc.*1) as Hk.
    { rewrite fmap_app, NoDup_app in Hn. destruct Hn as (_ & Hd & _). intros Hk. apply (Hd k Hk). csimpl. left. }
    clear Hn. induction acc as [|[k' v'] acc IHa]; [done|]. csimpl in Hk.
    apply not_elem_of_cons in Hk as [Hne Hk]. simpl. rewrite decide_False by done. by rewrite IHa. }
  rewrite IH; [by rewrite <-app_assoc|]. by rewrite <-app_assoc.
Qed.

Definition reads (v : value) : Prop :=
  ∀ n rest, stops rest → (2 * length (dumps v) <= n)%nat →
    scan_once n (dumps v ++ rest) = Some (v, rest).

Lemma scan_items_dumps l : l ≠ [] → Forall (λ v, json_value v ∧ reads v) l →
  ∀ n rest, (2 * length (join_with comma (map dumps l)) < n)%nat →
    scan_items n (join_with comma (map dumps l) ++ 93 :: rest) = Some (l, rest).
Proof.
  induction l as [|v l IH]; intros Hne Hl n rest Hn; [done|].
  apply Forall_cons in Hl as [[Hj Hv] Hl].
  destruct n as [|n]; [lia|]. destruct l as [|w l].
  - simpl in *. by rewrite Hv by (simpl; auto; lia).
  - set (tail := join_with comma (map dumps (w :: l))) in *.
    assert (join_with comma (map dumps (v :: w :: l)) = dumps v ++ comma ++ tail) as Heq by done.
    rewrite Heq in *. rewrite !length_app in Hn. simpl length in Hn.
    rewrite <-!app_assoc. cbn [scan_items]. rewrite Hv by (simpl; auto; lia). simpl.
    assert (starts (tail ++ 93 :: rest)) as Hs.
    { apply starts_app. apply Forall_cons in Hl as [[Hw _] _]. apply dumps_starts in Hw.
      unfold tail. destruct l; [done|]. simpl. by apply starts_app. }
    replace (skip_white (tail ++ 93 :: rest)) with (tail ++ 93 :: rest).
    + rewrite IH by (done || lia). done.
    + destruct (tail ++ 93 :: rest) as [|c r]; [done|]. by rewrite skip_white_id by apply Hs.
Qed.

Definition member_text (kv : text * value) : text := encode_string kv.1 ++ [58; 32] ++ dumps kv.2.

Lemma scan_members_dumps m : m ≠ [] →
  Forall (λ kv, Forall valid_char kv.1 ∧ json_value kv.2 ∧ reads kv.2) m →
  ∀ n rest, (2 * length (join_with comma (map member_text m)) < n)%nat →
    scan_members n (join_with comma (map member_text m) ++ 125 :: rest) = Some (m, rest).
Proof.
  assert (∀ n k v s, Forall valid_char k → json_value v → reads v → stops s →
    (2 * length (dumps v) <= n)%nat →
    scan_members (S n) (member_text (k, v) ++ s) =
    match skip_white s with
    | [] => None
    | d :: r4 =>
        if d =? 125 then Some ([(k, v)], r4)
        else if d =? 44 then '(m, r5) ← scan_members n (skip_white r4); Some ((k, v) :: m, r5)
        else None
    end) as Hone.
  { intros n k v s Hk Hj Hv Hs Hn. unfold member_text, encode_string. cbn [fst snd].
    rewrite <-!app_assoc. cbn [app scan_members]. rewrite Z.eqb_refl.
    rewrite <-!app_assoc. cbn [app]. rewrite scanstring_encoded by done. cbn [mbind option_bind].
    rewrite skip_white_id by done. rewrite Z.eqb_refl.
    assert (skip_white (32 :: dumps v ++ s) = dumps v ++ s) as ->.
    { change (skip_white (dumps v ++ s) = dumps v ++ s). apply dumps_starts in Hj.
      destruct (dumps v) as [|c r]; [done|]. by apply skip_white_id, Hj. }
    by rewrite Hv. }
  induction m as [|[k v] m IH]; intros Hne Hm n rest Hn; [done|].
  apply Forall_cons in Hm as [(Hk & Hj & Hv) Hm].
  destruct n as [|n]; [lia|]. destruct m as [|kv m].
  - change (join_with comma (map member_text [(k, v)])) with (member_text (k, v)) in *.
    rewrite Hone; [done|done..|simpl; auto|]. unfold member_text in Hn. rewrite !length_app in Hn. simpl in *. lia.
  - set (tail := join_with comma (map member_text (kv :: m))) in *.
    assert (join_with comma (map member_text ((k, v) :: kv :: m)) = member_text (k, v) ++ comma ++ tail) as Heq by done.
    rewrite Heq in *. rewrite !length_app in Hn. simpl length in Hn.
    rewrite <-!app_assoc. rewrite Hone; [|done..|simpl; auto|].
    2: { unfold member_text in Hn. rewrite !length_app in Hn. simpl in Hn. lia. }
    unfold comma. cbn [app]. rewrite skip_white_id by done.
    assert (skip_white (32 :: tail ++ 125 :: rest) = tail ++ 125 :: rest) as ->.
    { unfold tail. destruct m; done. }
    change (44 =? 125) with false. change (44 =? 44) with true. cbv iota.
    rewrite IH by (done || lia). done.
Qed.

Lemma dumps_reads v : json_value v → reads v.
Proof.
  induction v as [|b|n|t|s|l IH|m IH] using value_nested_ind; inversion_clear 1 as [| |? Hv|? Hv|? Hv|? Hv|? Hd Hv];
    intros k rest Hr Hk; (destruct k as [|k]; [simpl in Hk; try lia|]).
  - done.
  - destruct b; simpl in Hk; lia.
  - by destruct b.
  - apply scan_int_text, number_head in Hv as [_ Hv]. by destruct (int_text n); [|simpl in Hk; lia].
  - apply (scan_scalar k (int_text n)); [done|]. by apply scan_int_text.
  - pose proof (dumps_starts (VFloat t) (jv_float t Hv)) as Hs. simpl in Hs. destruct t; [done|simpl in Hk; lia].
  - by apply scan_float.
  - simpl. rewrite <-app_assoc. cbn [app]. by rewrite scanstring_encoded.
  - cbn [dumps app]. rewrite <-app_assoc. cbn [app scan_once].
    change (91 =? 34) with false. change (91 =? 123) with false. change (91 =? 91) with true. cbv iota.
    destruct l as [|v l]; [done|].
    assert (Forall (λ v, json_value v ∧ reads v) (v :: l)) as Hl.
    { apply Forall_and. split; [done|]. rewrite Forall_forall in *. auto. }
    pose proof (scan_items_dumps (v :: l) ltac:(done) Hl k rest) as Hi.
    change (dumps (VList (v :: l))) with (91 :: join_with comma (map dumps (v :: l)) ++ [93]) in Hk.
    set (t := join_with comma (map dumps (v :: l))) in *.
    assert (starts t) as Hs.
    { apply Forall_cons in Hv as [Hv _]. apply dumps_starts in Hv. unfold t. destruct l; [done|].
      by apply starts_app. }
    cbn [length] in Hk. rewrite length_app in Hk. cbn [length] in Hk.
    destruct t as [|c t]; [done|]. cbn [app] in *. rewrite skip_white_id by apply Hs.
    rewrite (proj2 (Z.eqb_neq c 93)) by apply Hs. rewrite Hi by lia. done.
  - destruct m as [|kv m]; [done|].
    assert (Forall (λ kv, Forall valid_char kv.1 ∧ json_value kv.2 ∧ reads kv.2) (kv :: m)) as Hm.
    { rewrite Forall_forall in *. intros x Hx. destruct (Hv x Hx). auto. }
    pose proof (scan_members_dumps (kv :: m) ltac:(done) Hm k rest) as Hi.
    change (dumps (VDict (kv :: m))) with (123 :: join_with comma (map member_text (kv :: m)) ++ [125]) in *.
    set (t := join_with comma (map member_text (kv :: m))) in *.
    assert (∃ t', t = 34 :: t') as [t' Ht].
    { unfold t, member_text, encode_string. destruct m; simpl; eauto. }
    cbn [length] in Hk. rewrite length_app in Hk. cbn [length] in Hk.
    cbn [app]. rewrite <-app_assoc. cbn [app scan_once]. rewrite Ht in *. cbn [app] in *.
    change (123 =? 34) with false. change (123 =? 123) with true. cbv iota.
    rewrite skip_white_id by done. change (34 =? 125) with false. cbv iota. rewrite Hi by lia.
    cbn [mbind option_bind]. by rewrite foldl_dict_set.
Qed.

(** [json.loads(json.dumps(v)) == v] *)
Lemma loads_dumps v : json_value v → loads (dumps v) = Some v.
Proof.
  intros Hv. unfold loads. pose proof (dumps_starts v Hv) as Hs.
  assert (skip_white (dumps v) = dumps v) as -> by (destruct (dumps v); [done|]; by apply skip_white_id, Hs).
  pose proof (dumps_reads v Hv (2 * length (dumps v) + 2)%nat [] I ltac:(lia)) as Hr.
  rewrite app_nil_r in Hr. by rewrite Hr.
Qed.

(** ** Lemmas: the printed text is ASCII *)

Definition is_ascii (c : Z) : Prop := 0 <= c < 128.

Lemma codes_ascii_chars (l : chars) : Forall (λ c, code c < 128) l → Forall is_ascii (code <$> l).
Proof.
  intros Hl. rewrite Forall_fmap. eapply Forall_impl; [exact Hl|]. intros c Hc.
  pose proof (code_bound c). cbv beta in Hc. change (0 <= code c < 128). lia.
Qed.

Lemma is_dec_ascii c : is_dec c = true → is_ascii c.
Proof. unfold is_dec, is_ascii. lia. Qed.

Lemma span_dec_ascii s ds r : span_dec s = (ds, r) → Forall is_ascii ds.
Proof.
  revert ds r. induction s as [|c s IH]; intros ds r; simpl; [by intros [= <- <-]|].
  destruct (is_dec c) eqn:Hc; [|by intros [= <- <-]]. destruct (span_dec s) as [ds' r'].
  intros [= <- <-]. constructor; [by apply is_dec_ascii|by eapply IH].
Qed.

Lemma scan_fraction_ascii s fr r : scan_fraction s = (fr, r) → Forall is_ascii fr.
Proof.
  unfold scan_fraction. destruct s as [|c s]; [by intros [= <- <-]|].
  destruct (Z.eqb_spec c 46) as [->|]; [|by intros [= <- <-]].
  destruct (span_dec s) as [[|d ds] r'] eqn:E; intros [= <- <-]; constructor; [done|].
  by eapply span_dec_ascii.
Qed.

Lemma scan_exponent_ascii s ex r : scan_exponent s = (ex, r) → Forall is_ascii ex.
Proof.
  unfold scan_exponent. destruct s as [|c s]; [by intros [= <- <-]|].
  destruct ((c =? 101) || (c =? 69)) eqn:Hc; [|by intros [= <- <-]].
  assert (is_ascii c) as Hca by (unfold is_ascii; lia).
  assert (∃ sign r1, match s with
    | [] => ([], []) | d :: r' => if (d =? 43) || (d =? 45) then ([d], r') else ([], s) end = (sign, r1) ∧
    Forall is_ascii sign) as (sign & r1 & -> & Hs).
  { destruct s as [|d s]; [by eauto|]. destruct ((d =? 43) || (d =? 45)) eqn:Hd; [|by eauto].
    do 2 eexists. split; [done|]. apply Forall_singleton. unfold is_ascii. lia. }
  destruct (span_dec r1) as [[|d ds] r'] eqn:E; intros [= <- <-]; [done|].
  constructor; [done|]. apply Forall_app. split; [done|]. by eapply span_dec_ascii.
Qed.

Lemma scan_number_ascii s t r : scan_number s = Some (VFloat t, r) → Forall is_ascii t.
Proof.
  unfold scan_number.
  assert (∃ sign s0, match s with
    | [] => ([], []) | c :: r => if c =? 45 then ([c], r) else ([], s) end = (sign, s0) ∧
    Forall is_ascii sign) as (sign & s0 & -> & Hs).
  { destruct s as [|d s]; [by eauto|]. destruct (Z.eqb_spec d 45) as [->|]; [|by eauto].
    do 2 eexists. split; [done|]. by repeat constructor. }
  destruct (span_dec s0) as [[|d ds] r0] eqn:E; [done|]. apply span_dec_ascii in E.
  assert (∃ ip s1, (if d =? 48 then ([d], ds ++ r0) else (d :: ds, r0)) = (ip, s1) ∧ Forall is_ascii ip)
    as (ip & s1 & -> & Hip).
  { apply Forall_cons in E as [Hd Hds]. destruct (d =? 48); do 2 eexists; (split; [done|]); by constructor. }
  destruct (scan_fraction s1) as [fr s2] eqn:Ef. apply scan_fraction_ascii in Ef.
  destruct (scan_exponent s2) as [ex s3] eqn:Ee. apply scan_exponent_ascii in Ee.
  case_decide; [by destruct (_ <? _)%nat|]. intros [= <- <-]. by rewrite !Forall_app.
Qed.

Lemma hex_digit_ascii d : 0 <= d < 16 → is_ascii (hex_digit d).
Proof. unfold hex_digit, is_ascii. case_match; lia. Qed.

Lemma escape_u_ascii n : Forall is_ascii (escape_u n).
Proof. unfold escape_u, hex4. repeat constructor; try done; apply hex_digit_ascii, Z.mod_pos_bound; lia. Qed.

Lemma escape_ascii c : Forall is_ascii (escape c).
Proof.
  unfold escape. repeat (case_match; [try (by repeat constructor)|]).
  - constructor; [|done]. unfold is_ascii. lia.
  - apply escape_u_ascii.
  - apply Forall_app. split; apply escape_u_ascii.
Qed.

Lemma encode_string_ascii s : Forall is_ascii (encode_string s).
Proof.
  unfold encode_string. constructor; [done|]. apply Forall_app. split; [|by repeat constructor].
  apply Forall_bind, Forall_true. apply escape_ascii.
Qed.

Lemma join_with_ascii parts : Forall (Forall is_ascii) parts → Forall is_ascii (join_with comma parts).
Proof.
  induction 1 as [|p parts Hp Hps IH]; [done|]. destruct parts as [|q parts]; [done|].
  change (join_with comma (p :: q :: parts)) with (p ++ comma ++ join_with comma (q :: parts)).
  rewrite !Forall_app. split_and!; [done| |done]. by repeat constructor.
Qed.

Lemma dumps_ascii v : json_value v → Forall is_ascii (dumps v).
Proof.
  induction v as [|b|n|t|s|l IH|m IH] using value_nested_ind; inversion_clear 1 as [| |? Hv|? Hv|? Hv|? Hv|? Hd Hv].
  - by repeat constructor.
  - destruct b; by repeat constructor.
  - simpl. rewrite int_text_codes.
    assert (∀ m, 0 <= m → Forall is_ascii (code <$> py_str m)) as Hpos.
    { intros m (c & ds & -> & Hd & _)%py_str_digits. apply codes_ascii_chars.
      eapply Forall_impl; [exact Hd|]. intros x. unfold is_digit. simpl. lia. }
    case_match; [constructor; [done|]|]; apply Hpos; lia.
  - simpl. destruct Hv as [Ht|Ht]; [|by eapply scan_number_ascii].
    rewrite literals_codes in Ht. repeat (apply elem_of_cons in Ht as [Ht|Ht]; [simplify_eq; by repeat constructor|]).
    by apply elem_of_nil in Ht.
  - apply encode_string_ascii.
  - simpl. constructor; [done|]. apply Forall_app. split; [|by repeat constructor].
    apply join_with_ascii. rewrite Forall_fmap. rewrite Forall_forall in *. intros v Hin. by apply IH, Hv.
  - simpl. constructor; [done|]. apply Forall_app. split; [|by repeat constructor].
    apply join_with_ascii. rewrite Forall_fmap. rewrite Forall_forall in *. intros [k v] Hin.
    change (Forall is_ascii (encode_string k ++ [58; 32] ++ dumps v)).
    rewrite !Forall_app. split_and!; [apply encode_string_ascii|by repeat constructor|].
    apply (IH _ Hin). by apply (Hv _ Hin).
Qed.
