(* ===== verification/Models.v ===== *)
(** * The job model (core/models.py)

    The rows of the five tables the queue lives in: [sqlery_queued_job] (live jobs),
    [sqlery_job_history] (finished jobs, the same columns), [sqlery_job_attempt],
    [sqlery_job_ready] and [sqlery_job_blocked]; and the in-memory operations of a job
    object ([mark_success], [mark_failed], [_record_run], [should_retry],
    [calculate_retry_delay]).

    The columns of a job are split in two records: [job_spec], which the life cycle never
    writes, and [job_run], which it does. *)

From S2P Require Import Prelude.
From Stdlib Require Import Qcanon.
#[local] Open Scope string_scope.
#[local] Open Scope Z_scope.

(** JSON values of the opaque columns ([kwargs], [meta]) and of [dependencies]. *)
Inductive json : Type :=
  | JNull
  | JBool (b : bool)
  | JNum (n : Z)
  | JStr (s : string)
  | JList (l : list json)
  | JObj (m : list (string * json)).

(** The values of the [status] column. *)
Inductive job_status : Type :=
  | Queued
  | Running
  | Success
  | Failed
  | Archived
  | ShuttingDown.

#[global] Instance job_status_eq_dec : EqDecision job_status.
Proof. solve_decision. Defined.

Record job_spec : Type := {
  js_task_path : string;
  js_kwargs : json;
  js_queue_name : string;
  js_priority : Z;
  js_parent_job_id : option Z;
  js_retry_count : Z;
  js_max_retries : Z;
  js_retry_backoff : Qc;
  js_allow_parallel : bool;
  js_timeout_seconds : option Z;
  js_job_name : option string;
  js_tags : list string;
  js_retry_intervals : option (list Qc);
  js_meta : option json;
  js_dependencies : list json;
  js_on_success_path : string;
  js_on_failure_path : string;
  js_ttl : option Z;
  js_result_ttl : option Z;
  js_failure_ttl : option Z;
  js_scheduled_task_id : option Z;
  js_created_at : time;
  js_scheduled_at : option time;
}.

(** One element of the [runs] column. *)
Record run_record : Type := {
  rr_attempt_number : Z;
  rr_started_at : option time;
  rr_finished_at : option time;
  rr_status : job_status;
  rr_duration : option Z;
  rr_output : string;
  rr_error : string;
}.

Record job_run : Type := {
  jr_status : job_status;
  jr_version : Z;
  jr_worker_id : option Z;
  jr_worker_pid : option Z;
  jr_child_pid : option Z;
  jr_started_at : option time;
  jr_finished_at : option time;
  jr_duration : option Z;
  jr_output : string;
  jr_error : string;
  jr_traceback : string;
  jr_termination_reason : string;
  jr_runs : list run_record;
}.

Record queued_job : Type := {
  j_id : Z;
  j_spec : job_spec;
  j_run : job_run;
}.

Abbreviation j_status j := (jr_status (j_run j)).
Abbreviation j_version j := (jr_version (j_run j)).
Abbreviation j_created_at j := (js_created_at (j_spec j)).
Abbreviation j_parent j := (js_parent_job_id (j_spec j)).

(** A row of [sqlery_job_attempt]; [at_finished_at = None] is an open attempt. *)
Inductive attempt_outcome : Type := OSuccess | OFailed | OAbandoned.

#[global] Instance attempt_outcome_eq_dec : EqDecision attempt_outcome.
Proof. solve_decision. Defined.

Record job_attempt : Type := {
  at_id : Z;
  at_job_id : Z;
  at_token : string;
  at_worker_id : option Z;
  at_worker_pid : option Z;
  at_child_pid : option Z;
  at_claimed_at : time;
  at_finished_at : option time;
  at_outcome : option attempt_outcome;
}.

Record job_ready : Type := {
  re_slot : Z;
  re_job_id : Z;
  re_queue_name : string;
  re_priority : Z;
  re_created_at : time;
  re_scheduled_at : option time;
}.

Record job_blocked : Type := {
  bl_job_id : Z;
  bl_dependency_id : Z;
  bl_created_at : time;
  bl_blocked_at : time;
}.

(** ** Operations of the in-memory job object *)

(** What [mark_success] is given: a text, or an awaitable the caller forgot to await. *)
Inductive task_output : Type :=
  | Text (s : string)
  | Awaitable.

Inductive model_error : Type := TypeError.

Definition reject_unawaited_coroutine (output : task_output) : result model_error string :=
  match output with
  | Awaitable => Err TypeError
  | Text s => Ok s
  end.

Definition clip (s : string) : string := String.substring 0 1000 s.

Definition _record_run (sp : job_spec) (r : job_run) (status : job_status)
    (output error : string) : job_run :=
  {| jr_status := jr_status r; jr_version := jr_version r;
     jr_worker_id := jr_worker_id r; jr_worker_pid := jr_worker_pid r;
     jr_child_pid := jr_child_pid r; jr_started_at := jr_started_at r;
     jr_finished_at := jr_finished_at r; jr_duration := jr_duration r;
     jr_output := jr_output r; jr_error := jr_error r; jr_traceback := jr_traceback r;
     jr_termination_reason := jr_termination_reason r;
     jr_runs := jr_runs r ++
       [ {| rr_attempt_number := js_retry_count sp;
            rr_started_at := jr_started_at r;
            rr_finished_at := jr_finished_at r;
            rr_status := status;
            rr_duration := jr_duration r;
            rr_output := clip output;
            rr_error := clip error |} ] |}.

(** [duration_seconds] after finishing at [now]: it is only assigned when the job started. *)
Definition finished_duration (r : job_run) (now : time) : option Z :=
  match jr_started_at r with
  | Some started => Some (now - started)
  | None => jr_duration r
  end.

Definition mark_success (sp : job_spec) (r : job_run) (now : time) (output : task_output)
    : result model_error job_run :=
  out ← reject_unawaited_coroutine output;
  Ok (_record_run sp
    {| jr_status := Success; jr_version := jr_version r;
       jr_worker_id := jr_worker_id r; jr_worker_pid := jr_worker_pid r;
       jr_child_pid := jr_child_pid r; jr_started_at := jr_started_at r;
       jr_finished_at := Some now; jr_duration := finished_duration r now;
       jr_output := out; jr_error := jr_error r; jr_traceback := jr_traceback r;
       jr_termination_reason := jr_termination_reason r; jr_runs := jr_runs r |}
    Success out "").

Definition mark_failed (sp : job_spec) (r : job_run) (now : time)
    (error traceback termination_reason : string) : job_run :=
  _record_run sp
    {| jr_status := Failed; jr_version := jr_version r;
       jr_worker_id := jr_worker_id r; jr_worker_pid := jr_worker_pid r;
       jr_child_pid := jr_child_pid r; jr_started_at := jr_started_at r;
       jr_finished_at := Some now; jr_duration := finished_duration r now;
       jr_output := jr_output r; jr_error := error; jr_traceback := traceback;
       jr_termination_reason := termination_reason; jr_runs := jr_runs r |}
    Failed "" error.

Definition should_retry (j : queued_job) : bool :=
  bool_decide (j_status j = Failed)
  && (0 <? js_max_retries (j_spec j))
  && (js_retry_count (j_spec j) <? js_max_retries (j_spec j)).

Definition calculate_retry_delay (sp : job_spec) : Qc :=
  (js_retry_backoff sp * Qc_of_Z (2 ^ js_retry_count sp))%Qc.

(** ** Worker liveness (core/worker_admin.py) *)

Inductive worker_status : Type := Idle | Busy | Dead.

#[global] Instance worker_status_eq_dec : EqDecision worker_status.
Proof. solve_decision. Defined.

Definition worker_delete_staleness_threshold_seconds : Z := 300.

Definition is_worker_deletable (status : option worker_status) (last_heartbeat : option time)
    (now : time) (threshold_seconds : Z) : bool :=
  if decide (status = Some Dead) then true else
  match last_heartbeat with
  | None => true
  | Some hb => seconds threshold_seconds <=? now - hb
  end.

Definition is_worker_beating (status : option worker_status) (last_heartbeat : option time)
    (now : time) (timeout_seconds : Z) : bool :=
  if decide (status = Some Dead) then false else
  match last_heartbeat with
  | None => false
  | Some hb => now - hb <? seconds timeout_seconds
  end.

(** ** Job ids *)

(** [uuid7().int & ((1 << 62) - 1)]; [u] is the 128-bit value the library returns. *)
Definition _generate_job_id_from_uuid7 (u : Z) : Z := Z.land u (Z.shiftl 1 62 - 1).

Lemma job_id_mod u : _generate_job_id_from_uuid7 u = u mod 2 ^ 62.
Proof. unfold _generate_job_id_from_uuid7. exact (Z.land_ones u 62 ltac:(lia)). Qed.

(** A generated id fits a signed 64-bit column and is not negative, but it does not depend
    on the time: the millisecond timestamp of a version 7 UUID is in its top 48 bits (bits 80
    to 127), and replacing it does not change the id. *)
Theorem job_id_drops_timestamp u ts :
  0 <= _generate_job_id_from_uuid7 u < 2 ^ 63 ∧
  _generate_job_id_from_uuid7 (u mod 2 ^ 80 + ts * 2 ^ 80) = _generate_job_id_from_uuid7 u.
Proof.
  rewrite !job_id_mod. split; [pose proof (Z.mod_pos_bound u (2 ^ 62)); lia|].
  replace (ts * 2 ^ 80) with (ts * 2 ^ 18 * 2 ^ 62) by lia. rewrite Z.mod_add by lia.
  replace (2 ^ 80) with (2 ^ 62 * 2 ^ 18) by lia. rewrite Z.rem_mul_r by lia.
  rewrite (Z.mul_comm (2 ^ 62)), Z.mod_add by lia. apply Z.mod_mod. lia.
Qed.
