(* ===== verification/Retry.v ===== *)
(** * Retry policy (core/retry.py)

    The retry marker kept in [termination_reason], the retry budget, the per-task policy
    ([autoretry_for], [retry_backoff_max], [retry_jitter]) and the columns of the retry row. *)

From S2P Require Import Prelude PyString Models.
From Stdlib Require Import Ascii Qcanon.
#[local] Open Scope string_scope.
#[local] Open Scope Z_scope.

Definition RETRY_PENDING : string := "retry_pending".

Definition str_startswith (s p : string) : bool := startswith (to_chars p) (to_chars s).

(** [s[n:]] *)
Definition str_from (n : nat) (s : string) : string := of_chars (drop n (to_chars s)).

Definition pending_reason (reason : string) : string :=
  String.append RETRY_PENDING
    (if decide (reason = "") then "" else String.append ":" reason).

Definition settled_reason (reason : string) : string :=
  if decide (reason = RETRY_PENDING) then ""
  else if str_startswith reason (String.append RETRY_PENDING ":")
  then str_from (length (to_chars RETRY_PENDING) + 1) reason
  else reason.

Definition is_retry_pending (reason : option string) : bool :=
  match reason with
  | None => false
  | Some r =>
      negb (bool_decide (r = "")) &&
      (bool_decide (r = RETRY_PENDING) ||
       str_startswith r (String.append RETRY_PENDING ":"))
  end.

(** [getattr(job, "max_retries", 0) or 0] and [retry_count or 0]: the columns of a job. *)
Definition retry_budget_left (sp : job_spec) : bool :=
  (0 <? js_max_retries sp) && (js_retry_count sp <? js_max_retries sp).

(** ** Exception policy

    [exn_class] and [isinstance] stand for Python's exception classes: they are arguments
    of the model, not code of the program. *)
Section policy.
Context {exn_class : Type} (isinstance : exn_class → exn_class → bool).
(** [random.uniform] *)
Context (uniform : Qc → Qc → Qc).

(** What a task raised: a [Retry] with its countdown, or any other exception. *)
Inductive task_exception : Type :=
  | Retry (countdown : option Qc)
  | Raised (cls : exn_class).

Record RetryPolicy : Type := {
  autoretry_for : option (list exn_class);
  backoff_max : option Qc;
  jitter : option bool;
}.

(** The attributes [@job(...)] leaves on a task function. *)
Record task_attrs : Type := {
  ta_autoretry_for : option (list exn_class);
  ta_retry_backoff_max : option Qc;
  ta_retry_jitter : option bool;
}.

Definition get_retry_policy (t : task_attrs) : RetryPolicy :=
  {| autoretry_for :=
       match ta_autoretry_for t with
       | Some (_ :: _) => ta_autoretry_for t
       | _ => None
       end;
     backoff_max := ta_retry_backoff_max t;
     jitter := ta_retry_jitter t |}.

Definition default_policy : RetryPolicy :=
  {| autoretry_for := None; backoff_max := None; jitter := None |}.

(** [task = None]: the task could not be imported. *)
Definition policy_allows_retry (task : option task_attrs) (exc : option task_exception) : bool :=
  match exc with
  | Some (Retry _) => true
  | _ =>
      match task with
      | None => true
      | Some t =>
          match autoretry_for (get_retry_policy t) with
          | None => true
          | Some classes =>
              match exc with
              | Some (Raised c) => existsb (isinstance c) classes
              | _ => false
              end
          end
      end
  end.

Definition retry_countdown (exc : option task_exception) : option Qc :=
  match exc with Some (Retry c) => c | _ => None end.

Definition shape_retry_delay (delay : Qc) (task : option task_attrs) (global_jitter : bool)
    (countdown : option Qc) : Qc :=
  match countdown with
  | Some c => c
  | None =>
      let policy := match task with Some t => get_retry_policy t | None => default_policy end in
      let delay :=
        match backoff_max policy with
        | Some m => if decide (m = 0%Qc) then delay
                    else if decide (m < delay)%Qc then m else delay
        | None => delay
        end in
      match jitter policy with
      | Some true => if global_jitter then delay else uniform 0%Qc delay
      | _ => delay
      end
  end.
End policy.

(** ** The retry row *)

(** The longest run of digits at the head, and the rest. *)
Fixpoint span_digits (l : chars) : chars * chars :=
  match l with
  | c :: l' => if is_digit c then let '(ds, r) := span_digits l' in (c :: ds, r) else ([], l)
  | [] => ([], [])
  end.

(** A match of the pattern [:retry:\d+] at the head, with what follows it. *)
Definition match_retry (l : chars) : option chars :=
  if startswith (to_chars ":retry:") l then
    match span_digits (drop 7 l) with
    | ([], _) => None
    | (_ :: _, r) => Some r
    end
  else None.

(** [re.sub(r":retry:\d+", "", s)]; a match consumes at least one character, so the length of
    the text is enough fuel. *)
Fixpoint sub_retry (fuel : nat) (l : chars) : chars :=
  match fuel with
  | O => l
  | S fuel =>
      match l with
      | [] => []
      | c :: l' =>
          match match_retry l with
          | Some r => sub_retry fuel r
          | None => c :: sub_retry fuel l'
          end
      end
  end.

Definition retry_name (name : string) (n : Z) : string :=
  of_chars (sub_retry (length (to_chars name)) (to_chars name)
            ++ to_chars ":retry:" ++ py_str n).

(** [intervals[min(retry_count, len(intervals) - 1)]]; a negative index counts from the end *)
Definition py_index {A} (l : list A) (i : Z) : option A :=
  if i <? 0 then l !! Z.to_nat (Z.of_nat (length l) + i) else l !! Z.to_nat i.

Definition retry_delay (sp : job_spec) : Qc :=
  let backoff := if decide (js_retry_backoff sp = 0%Qc) then 1%Qc else js_retry_backoff sp in
  match js_retry_intervals sp with
  | Some ((_ :: _) as intervals) =>
      default 0%Qc
        (py_index intervals (Z.min (js_retry_count sp) (Z.of_nat (length intervals) - 1)))
  | _ => (backoff * Qc_of_Z (2 ^ js_retry_count sp))%Qc
  end.

(** The job columns of the retry row and its delay. [created_at] and [scheduled_at] are
    chosen by the caller, as in the code; [ttl] and [scheduled_task_id] are not among the
    fields and take the column defaults. *)
Definition retry_job_fields (failed : queued_job) (created_at : time) (scheduled_at : option time)
    : job_spec * Qc :=
  let sp := j_spec failed in
  ({| js_task_path := js_task_path sp;
      js_kwargs := match js_kwargs sp with JObj m => JObj m | _ => JObj [] end;
      js_queue_name := js_queue_name sp;
      js_priority := js_priority sp;
      js_parent_job_id := Some (j_id failed);
      js_retry_count := js_retry_count sp + 1;
      js_max_retries := js_max_retries sp;
      js_retry_backoff :=
        if decide (js_retry_backoff sp = 0%Qc) then 1%Qc else js_retry_backoff sp;
      js_allow_parallel := js_allow_parallel sp;
      js_timeout_seconds := js_timeout_seconds sp;
      js_job_name :=
        match js_job_name sp with
        | Some n => if decide (n = "") then None else Some (retry_name n (js_retry_count sp + 1))
        | None => None
        end;
      js_tags := js_tags sp;
      js_retry_intervals := js_retry_intervals sp;
      js_meta := js_meta sp;
      js_dependencies := js_dependencies sp;
      js_on_success_path := js_on_success_path sp;
      js_on_failure_path := js_on_failure_path sp;
      js_ttl := None;
      js_result_ttl := js_result_ttl sp;
      js_failure_ttl := js_failure_ttl sp;
      js_scheduled_task_id := None;
      js_created_at := created_at;
      js_scheduled_at := scheduled_at |},
   retry_delay sp).

(** ** Lemmas *)

#[local] Close Scope string_scope.

(** One retry after another, each with budget left. *)
Inductive retry_chain : queued_job → nat → queued_job → Prop :=
| chain_refl j : retry_chain j 0 j
| chain_step j n j' created sched child :
    retry_chain j n j' → retry_budget_left (j_spec j') = true →
    j_spec child = (retry_job_fields j' created sched).1 →
    retry_chain j (S n) child.

(** ** Theorems *)

(** The retry marker round trips: a reason that is marked as pending is recognised as
    pending, and settling it gives the reason back. *)
Theorem retry_marker_roundtrip reason :
  is_retry_pending (Some (pending_reason reason)) = true ∧ settled_reason (pending_reason reason) = reason.
Proof.
  unfold pending_reason. case_decide as He; [by subst|].
  assert (∀ r, String.append RETRY_PENDING (String.append ":" r) ≠ RETRY_PENDING) as Hne by (intros r [=]).
  split.
  - unfold is_retry_pending. rewrite (bool_decide_false _ (Hne reason)). simpl. by destruct reason.
  - unfold settled_reason. rewrite decide_False by apply Hne. simpl. apply of_to_chars.
Qed.

(** Retries end. Along a chain of retries the budget and the name-independent columns are
    those of the first job, the count goes up by one per retry, and the chain is no longer
    than the budget that was left. *)
Theorem retry_chain_bounded j n j' :
  retry_chain j n j' →
  js_max_retries (j_spec j') = js_max_retries (j_spec j) ∧
  js_retry_count (j_spec j') = js_retry_count (j_spec j) + Z.of_nat n ∧
  js_queue_name (j_spec j') = js_queue_name (j_spec j) ∧
  js_task_path (j_spec j') = js_task_path (j_spec j) ∧
  Z.of_nat n <= Z.max 0 (js_max_retries (j_spec j) - js_retry_count (j_spec j)).
Proof.
  induction 1 as [j|j n j' created sched child _ (IHm & IHc & IHq & IHt & IHn) Hb Hsp];
    [split_and!; done || lia|].
  rewrite Hsp. simpl. unfold retry_budget_left in Hb. split_and!; try done; lia.
Qed.

(** The shape of a retry delay. An explicit countdown wins; otherwise the delay is capped
    by [retry_backoff_max], jitter only shortens it, and it is never negative. *)
Theorem retry_delay_shaped {exn_class} (uniform : Qc → Qc → Qc) delay (task : option (@task_attrs exn_class))
    global_jitter countdown :
  (∀ a b, (a <= b)%Qc → (a <= uniform a b <= b)%Qc) → (0 <= delay)%Qc →
  (∀ t m, task = Some t → ta_retry_backoff_max t = Some m → (0 <= m)%Qc) →
  let d := shape_retry_delay uniform delay task global_jitter countdown in
  match countdown with
  | Some c => d = c
  | None => (0 <= d <= delay)%Qc ∧
      ∀ t m, task = Some t → ta_retry_backoff_max t = Some m → m ≠ 0%Qc → (d <= m)%Qc
  end.
Proof.
  intros Hu Hd Hm d. subst d. unfold shape_retry_delay. destruct countdown as [c|]; [done|].
  set (policy := match task with Some t => _ | None => _ end).
  set (d0 := match backoff_max policy with Some m => _ | None => delay end).
  assert ((0 <= d0 <= delay)%Qc ∧
    ∀ t m, task = Some t → ta_retry_backoff_max t = Some m → m ≠ 0%Qc → (d0 <= m)%Qc) as [[H0 H1] H2].
  { subst d0 policy. destruct task as [t|]; simpl.
    2: { split; [split; [done|apply Qcle_refl]|]. by intros. }
    specialize (Hm t). destruct (ta_retry_backoff_max t) as [m|] eqn:Hmax.
    2: { split; [split; [done|apply Qcle_refl]|]. intros t' m' [= <-]. congruence. }
    specialize (Hm m eq_refl eq_refl).
    assert (∀ x, (x <= m)%Qc → ∀ t' m', Some t = Some t' → ta_retry_backoff_max t' = Some m' → m' ≠ 0%Qc → (x <= m')%Qc)
      as Hcap by (intros x Hx t' m' [= <-]; congruence).
    destruct (decide (m = 0%Qc)) as [Hz|Hz].
    { split; [split; [done|apply Qcle_refl]|]. intros t' m' [= <-]. congruence. }
    destruct (decide (m < delay)%Qc) as [Hlt|Hge].
    - split; [split; [done|by apply Qclt_le_weak]|]. apply Hcap, Qcle_refl.
    - split; [split; [done|apply Qcle_refl]|]. by apply Hcap, Qcnot_lt_le. }
  assert (∀ x, (0 <= x <= d0)%Qc → (0 <= x <= delay)%Qc ∧
    ∀ t m, task = Some t → ta_retry_backoff_max t = Some m → m ≠ 0%Qc → (x <= m)%Qc) as Hx.
  { intros x [Hx0 Hx1]. split; [split; [done|by eapply Qcle_trans]|].
    intros t m Ht Hmax Hz. eapply Qcle_trans; [exact Hx1|]. by eapply H2. }
  destruct (jitter policy) as [[]|]; [destruct global_jitter|..]; apply Hx;
    (split; [done|apply Qcle_refl]) || by apply Hu.
Qed.

(** ** Witnesses *)

Definition retry_demo (count : Z) (parent : option Z) : queued_job :=
  {| j_id := 10 + count;
     j_spec := {| js_task_path := "app.task"; js_kwargs := JObj []; js_queue_name := "default";
       js_priority := 0; js_parent_job_id := parent; js_retry_count := count; js_max_retries := 2;
       js_retry_backoff := 1%Qc; js_allow_parallel := true; js_timeout_seconds := None;
       js_job_name := None; js_tags := []; js_retry_intervals := None; js_meta := None;
       js_dependencies := []; js_on_success_path := ""; js_on_failure_path := "";
       js_ttl := None; js_result_ttl := None; js_failure_ttl := None;
       js_scheduled_task_id := None; js_created_at := 0; js_scheduled_at := None |};
     j_run := {| jr_status := Failed; jr_version := 0; jr_worker_id := None; jr_worker_pid := None;
       jr_child_pid := None; jr_started_at := None; jr_finished_at := None; jr_duration := None;
       jr_output := ""; jr_error := ""; jr_traceback := ""; jr_termination_reason := "";
       jr_runs := [] |} |}.

Lemma retry_demo_chain : retry_chain (retry_demo 0 None) 2 (retry_demo 2 (Some 11)).
Proof.
  apply (chain_step _ 1 (retry_demo 1 (Some 10)) 0 None); [|reflexivity..].
  apply (chain_step _ 0 (retry_demo 0 None) 0 None); [constructor|reflexivity..].
Qed.

Lemma retry_chain_bounded_witness :
  retry_budget_left (j_spec (retry_demo 2 (Some 11))) = false ∧
  js_retry_count (j_spec (retry_demo 2 (Some 11))) = js_retry_count (j_spec (retry_demo 0 None)) + Z.of_nat 2.
Proof.
  split; [reflexivity|].
  exact (proj1 (proj2 (retry_chain_bounded (retry_demo 0 None) 2 (retry_demo 2 (Some 11)) retry_demo_chain))).
Defined.

Lemma retry_delay_shaped_witness :
  let t := {| ta_autoretry_for := None; ta_retry_backoff_max := Some (Qc_of_Z 60);
              ta_retry_jitter := Some true |} : @task_attrs unit in
  (shape_retry_delay (λ a b, a) (Qc_of_Z 600) (Some t) false None <= Qc_of_Z 60)%Qc.
Proof.
  intros t.
  refine (proj2 (retry_delay_shaped (λ a b, a) (Qc_of_Z 600) (Some t) false None _ _ _) t (Qc_of_Z 60) eq_refl eq_refl _).
  - intros a b H. split; [apply Qcle_refl|exact H].
  - discriminate.
  - intros t' m Ht Hm. injection Ht as <-. injection Hm as <-. discriminate.
  - discriminate.
Defined.
