(* ===== verification/RateLimit.v ===== *)
(** * Rate limits (core/utils.py, [parse_rate_limit])

    The format [count/unit] or [count/Nunit], matched by the regular expression
    [^(\d+)/(\d+)?([smh])$], whose [$] also matches before a final newline. *)

From S2P Require Import Prelude PyString Models Retry.
From Stdlib Require Import Ascii.
#[local] Open Scope Z_scope.

Inductive rate_error : Type :=
  | BadFormat
  | CountNotPositive
  | MultiplierNotPositive.

Definition digits_value (l : chars) : Z := foldl (λ a c, 10 * a + digit_value c) 0 l.

(** Seconds of a unit letter. *)
Definition unit_seconds (c : ascii) : option Z :=
  if decide (c = "s"%char) then Some 1
  else if decide (c = "m"%char) then Some 60
  else if decide (c = "h"%char) then Some 3600
  else None.

Definition at_end (l : chars) : bool :=
  bool_decide (l = []) || bool_decide (l = ["010"%char]).

(** The groups of the match: count, multiplier (if present) and seconds of the unit. *)
Definition match_rate (l : chars) : option (chars * chars * Z) :=
  match span_digits l with
  | ((_ :: _) as count, "/"%char :: rest) =>
      let '(mult, rest) := span_digits rest in
      match rest with
      | u :: rest =>
          match unit_seconds u with
          | Some secs => if at_end rest then Some (count, mult, secs) else None
          | None => None
          end
      | [] => None
      end
  | _ => None
  end.

(** [(count, window)], the window in microseconds *)
Definition parse_rate_limit (s : string) : result rate_error (Z * Z) :=
  match match_rate (to_chars s) with
  | None => Err BadFormat
  | Some (count, mult, secs) =>
      let count := digits_value count in
      let multiplier := match mult with [] => 1 | _ => digits_value mult end in
      if count <=? 0 then Err CountNotPositive
      else if multiplier <=? 0 then Err MultiplierNotPositive
      else Ok (count, seconds (multiplier * secs))
  end.

(** [(count, seconds)] *)
Definition calculate_rate_limit_seconds (s : string) : result rate_error (Z * Z) :=
  '(count, window) ← parse_rate_limit s; Ok (count, window / usec_per_sec).

(** ** Lemmas *)

Lemma span_digits_app ds r c :
  (∀ d, d ∈ ds → is_digit d = true) → is_digit c = false →
  span_digits (ds ++ c :: r) = (ds, c :: r).
Proof.
  intros Hd Hc. induction ds as [|d ds IH]; simpl; [by rewrite Hc|].
  rewrite Hd by left. by rewrite IH by set_solver.
Qed.

Lemma span_digits_all ds :
  (∀ d, d ∈ ds → is_digit d = true) → span_digits ds = (ds, []).
Proof.
  intros Hd. induction ds as [|d ds IH]; simpl; [done|].
  rewrite Hd by left. by rewrite IH by set_solver.
Qed.

Lemma span_digits_digits l ds r :
  span_digits l = (ds, r) → l = ds ++ r ∧ ∀ d, d ∈ ds → is_digit d = true.
Proof.
  revert ds r; induction l as [|c l IH]; intros ds r; simpl.
  { intros [= <- <-]. set_solver. }
  destruct (is_digit c) eqn:Hc.
  - destruct (span_digits l) as [ds' r']. intros [= <- <-].
    destruct (IH _ _ eq_refl) as [-> Hd]. split; [done|]. set_solver.
  - intros [= <- <-]. set_solver.
Qed.

(** The canonical spelling of a rate limit. *)
Definition rate_text (count : Z) (mult : option Z) (u : ascii) : string :=
  of_chars (py_str count ++ "/"%char :: from_option py_str [] mult ++ [u]).

Lemma unit_not_digit u secs : unit_seconds u = Some secs → is_digit u = false ∧ 0 < secs.
Proof. unfold unit_seconds. intros H. split_cases; done. Qed.

Lemma match_rate_text count mult u secs :
  0 <= count → (∀ m, mult = Some m → 0 <= m) → unit_seconds u = Some secs →
  match_rate (to_chars (rate_text count mult u)) = Some (py_str count, from_option py_str [] mult, secs).
Proof.
  intros Hc Hm Hu. destruct (unit_not_digit _ _ Hu) as [Hd _].
  destruct (py_str_spec count Hc) as [[Hne Hall]%forallb_isnumeric _].
  assert (∀ d, d ∈ from_option py_str [] mult → is_digit d = true) as Hmult.
  { destruct mult as [m|]; [|set_solver]. simpl. by destruct (py_str_spec m (Hm m eq_refl)) as [[_ ?]%forallb_isnumeric _]. }
  unfold rate_text, match_rate. rewrite to_of_chars, span_digits_app by done.
  destruct (py_str count) as [|c0 cs] eqn:E; [done|].
  rewrite (span_digits_app (from_option py_str [] mult) [] u) by done. by rewrite Hu.
Qed.

(** Rate limits round trip. The text of a positive count, an optional positive multiplier
    and a unit parses to that count and to the window of so many units, in microseconds; and
    whatever parses, from any text, has a positive count and a positive window. *)
Theorem rate_limit_roundtrip count mult u secs s :
  0 < count → (∀ m, mult = Some m → 0 < m) → unit_seconds u = Some secs →
  parse_rate_limit (rate_text count mult u) = Ok (count, seconds (default 1 mult * secs)) ∧
  (∀ n w, parse_rate_limit s = Ok (n, w) → 0 < n ∧ 0 < w).
Proof.
  intros Hc Hm Hu. split.
  - unfold parse_rate_limit. rewrite (match_rate_text count mult u secs) by (done || lia || (intros m Hmm; specialize (Hm m Hmm); lia)).
    assert (digits_value (py_str count) = count) as Hv by (apply py_str_spec; lia).
    rewrite Hv. rewrite (proj2 (Z.leb_gt _ _) Hc). destruct mult as [m|]; simpl; [|done].
    specialize (Hm m eq_refl). destruct (py_str_spec m) as [Hn Hmv]; [lia|].
    assert (digits_value (py_str m) = m) as Hmv' by done.
    destruct (py_str m) as [|c cs]; [done|]. rewrite Hmv'. by rewrite (proj2 (Z.leb_gt _ _) Hm).
  - intros n w. unfold parse_rate_limit.
    destruct (match_rate (to_chars s)) as [[[c m] secs']|] eqn:Hmr; [|done].
    destruct (digits_value c <=? 0) eqn:H1; [done|].
    destruct (match m with [] => 1 | _ => digits_value m end <=? 0) eqn:H2; [done|].
    intros Heq. injection Heq as <- <-. apply Z.leb_gt in H1, H2. split; [done|].
    assert (0 < secs').
    { unfold match_rate in Hmr. destruct (span_digits (to_chars s)) as [[|c0 c'] [|ch rest]]; [done..|].
      destruct (decide (ch = "/"%char)) as [->|Hch].
      - destruct (span_digits rest) as [m' [|u' rest']]; [done|].
        destruct (unit_seconds u') as [x|] eqn:Hx; [|done]. destruct (at_end rest'); [|done].
        apply unit_not_digit in Hx as [_ Hx]. congruence.
      - exfalso. destruct ch as [[] [] [] [] [] [] [] []]; done. }
    unfold seconds, usec_per_sec. lia.
Qed.

Lemma rate_limit_roundtrip_witness :
  parse_rate_limit "10/5m" = Ok (10, 300000000) ∧ parse_rate_limit "3/s" = Ok (3, 1000000).
Proof.
  split.
  - exact (proj1 (rate_limit_roundtrip 10 (Some 5) "m"%char 60 "" eq_refl
      (λ m H, eq_rect 5 (λ x, 0 < x) eq_refl m (f_equal (default 0) H)) eq_refl)).
  - refine (proj1 (rate_limit_roundtrip 3 None "s"%char 1 "" eq_refl _ eq_refl)). intros m H. discriminate H.
Defined.
