(* ===== verification/Attempts.v ===== *)
(** * Execution attempts (core/attempts.py, fastapi_sqlery/attempt_sql.py)

    The decisions on a claim and on a completion, and the statements on the attempt table
    that both SQLAlchemy backends share. *)

From S2P Require Import Prelude Sql Models.
#[local] Open Scope Z_scope.

(** ** Decisions *)

(** The status readers see: [running] iff the row is [queued] and an attempt is open. *)
Definition derived_status (stored_status : option job_status) (has_open_attempt : bool)
    : option job_status :=
  if has_open_attempt && bool_decide (stored_status = Some Queued) then Some Running
  else stored_status.

Inductive verdict : Type := VOk | VStale.

Definition claim_verdict (stored_status : option job_status) (version expected_version : option Z)
    (has_open_attempt : bool) : verdict :=
  if negb (bool_decide (stored_status = Some Queued)) then VStale
  else if has_open_attempt then VStale
  else match expected_version with
       | Some e => if decide (default 0 version = e) then VOk else VStale
       | None => VOk
       end.

(** What a completion presents. *)
Record AttemptHandle : Type := {
  h_id : Z;
  h_token : string;
  h_job_id : Z;
  h_claimed_at : option time;
  h_worker_id : option Z;
  h_worker_pid : option Z;
}.

(** The exceptions a completion can raise. *)
Inductive store_error : Type :=
  | JobFencingError
  | RuntimeError
  | BadOutput.

Definition decide_close (count : nat) (handle : AttemptHandle) : result store_error unit :=
  if decide (count = 1%nat) then Ok tt else Err JobFencingError.

(** ** Statements on the attempt table *)

(** [finished_at IS NULL AND job_id = j] *)
Definition open_for (j : Z) (a : job_attempt) : Prop :=
  at_job_id a = j ∧ at_finished_at a = None.

#[global] Instance open_for_dec j a : Decision (open_for j a).
Proof. unfold open_for. apply _. Defined.

Definition open_attempt_exists (attempts : list job_attempt) (j : Z) : bool :=
  exists_where (open_for j) attempts.

(** [running_clause] and [waiting_clause] of a live row *)
Definition running_clause (attempts : list job_attempt) (j : queued_job) : bool :=
  bool_decide (j_status j = Queued) && open_attempt_exists attempts (j_id j).

Definition waiting_clause (attempts : list job_attempt) (j : queued_job) : bool :=
  bool_decide (j_status j = Queued) && negb (open_attempt_exists attempts (j_id j)).

Definition close_attempt (now : time) (o : attempt_outcome) (a : job_attempt) : job_attempt :=
  {| at_id := at_id a; at_job_id := at_job_id a; at_token := at_token a;
     at_worker_id := at_worker_id a; at_worker_pid := at_worker_pid a;
     at_child_pid := at_child_pid a; at_claimed_at := at_claimed_at a;
     at_finished_at := Some now; at_outcome := Some o |}.

Definition abandon_open_stmt (j : Z) (now : time) (attempts : list job_attempt) :=
  update_where (open_for j) (close_attempt now OAbandoned) attempts.

(** [id = h.id AND token = h.token AND finished_at IS NULL] *)
Definition exact_open (h : AttemptHandle) (a : job_attempt) : Prop :=
  at_id a = h_id h ∧ at_token a = h_token h ∧ at_finished_at a = None.

#[global] Instance exact_open_dec h a : Decision (exact_open h a).
Proof. unfold exact_open. apply _. Defined.

Definition close_exact_stmt (h : AttemptHandle) (o : attempt_outcome) (now : time)
    (attempts : list job_attempt) :=
  update_where (exact_open h) (close_attempt now o) attempts.

Definition unfenced_outcome (o : attempt_outcome) : attempt_outcome :=
  match o with OSuccess => OSuccess | _ => OAbandoned end.

Definition close_unfenced_stmt (j : Z) (o : attempt_outcome) (now : time)
    (attempts : list job_attempt) :=
  update_where (open_for j) (close_attempt now (unfenced_outcome o)) attempts.

Definition new_attempt (id j : Z) (token : string) (worker_id : option Z) (pid : Z) (now : time)
    : job_attempt :=
  {| at_id := id; at_job_id := j; at_token := token; at_worker_id := worker_id;
     at_worker_pid := Some pid; at_child_pid := None; at_claimed_at := now;
     at_finished_at := None; at_outcome := None |}.

Definition set_child_pid (pid : Z) (a : job_attempt) : job_attempt :=
  {| at_id := at_id a; at_job_id := at_job_id a; at_token := at_token a;
     at_worker_id := at_worker_id a; at_worker_pid := at_worker_pid a;
     at_child_pid := Some pid; at_claimed_at := at_claimed_at a;
     at_finished_at := at_finished_at a; at_outcome := at_outcome a |}.

Definition child_pid_stmt (j pid : Z) (attempt : option AttemptHandle)
    (attempts : list job_attempt) :=
  match attempt with
  | Some h => update_where (exact_open h) (set_child_pid pid) attempts
  | None => update_where (open_for j) (set_child_pid pid) attempts
  end.

(** The attempt shown for a job: open attempts are read in id order into a dictionary keyed
    by job, so the newest wins. *)
Definition attempt_id_le (a b : job_attempt) : Prop := at_id a <= at_id b.
#[global] Instance attempt_id_le_dec a b : Decision (attempt_id_le a b).
Proof. unfold attempt_id_le. apply _. Defined.

Definition open_attempt_of (attempts : list job_attempt) (j : Z) : option job_attempt :=
  last (order_by attempt_id_le (filter (open_for j) attempts)).

(** [ORDER BY id DESC LIMIT 1] over every attempt of the job, open or closed *)
Definition newest_attempt (attempts : list job_attempt) (j : Z) : option job_attempt :=
  last (order_by attempt_id_le (filter (λ a, at_job_id a = j) attempts)).

(** [overlay_running]: the job as its open attempt shows it, in memory only. *)
Definition overlay_running (j : queued_job) (a : option job_attempt) : queued_job :=
  match a with
  | None => j
  | Some a =>
      {| j_id := j_id j; j_spec := j_spec j;
         j_run :=
           {| jr_status := Running; jr_version := jr_version (j_run j);
              jr_worker_id := at_worker_id a; jr_worker_pid := at_worker_pid a;
              jr_child_pid := at_child_pid a; jr_started_at := Some (at_claimed_at a);
              jr_finished_at := jr_finished_at (j_run j);
              jr_duration := jr_duration (j_run j); jr_output := jr_output (j_run j);
              jr_error := jr_error (j_run j); jr_traceback := jr_traceback (j_run j);
              jr_termination_reason := jr_termination_reason (j_run j);
              jr_runs := jr_runs (j_run j) |} |}
  end.

(** ** Lemmas *)

Lemma open_attempt_exists_true attempts j :
  open_attempt_exists attempts j = true ↔ ∃ a, a ∈ attempts ∧ open_for j a.
Proof. apply exists_where_true. Qed.

Lemma open_attempt_exists_false attempts j :
  open_attempt_exists attempts j = false ↔ ∀ a, a ∈ attempts → ¬ open_for j a.
Proof. apply exists_where_false. Qed.

Lemma claim_verdict_ok st v e has_open :
  claim_verdict st v (Some e) has_open = VOk ↔
  st = Some Queued ∧ has_open = false ∧ default 0 v = e.
Proof.
  unfold claim_verdict. destruct (bool_decide_reflect (st = Some Queued)), has_open; simpl;
    try case_decide; naive_solver.
Qed.

(** A closed attempt is never open again, under any of the close statements. *)
Lemma update_close_open (P : job_attempt → Prop) {HD : ∀ a, Decision (P a)} now o attempts a j :
  a ∈ update_where P (close_attempt now o) attempts → open_for j a → a ∈ attempts ∧ ¬ P a.
Proof.
  rewrite elem_of_update_where. intros (b & Hb & ->) Ho. case_decide; [|done].
  destruct Ho; done.
Qed.

Lemma close_unfenced_none_open j o now attempts :
  open_attempt_exists (close_unfenced_stmt j o now attempts) j = false.
Proof.
  apply open_attempt_exists_false. intros a Ha Ho.
  destruct (update_close_open _ _ _ _ _ _ Ha Ho). naive_solver.
Qed.

Lemma close_ids (P : job_attempt → Prop) {HD : ∀ a, Decision (P a)} now o attempts :
  at_id <$> update_where P (close_attempt now o) attempts = at_id <$> attempts.
Proof. by apply update_where_column. Qed.
