(* ===== verification/Ready.v ===== *)
(** * Ready queue decisions (core/ready.py)

    Dependency ids, the judgement of a job by its dependencies, and the throttle of the
    periodic sweeps. *)

From S2P Require Import Prelude PyString Models.
From Stdlib Require Import Qcanon.
#[local] Open Scope Z_scope.

Definition SLOT_CURRENT : Z := 0.
Definition SLOTS : list Z := [0; 1; 2].
Definition MAX_CHAIN_HOPS : nat := Z.to_nat 1000.

(** [int(raw)] of a JSON value: numbers, booleans and numeric strings convert; [None] is a
    [TypeError] or [ValueError]. *)
Definition json_int (v : json) : option Z :=
  match v with
  | JNum n => Some n
  | JBool b => Some (if b then 1 else 0)
  | JStr s => py_int (to_chars s)
  | _ => None
  end.

Fixpoint dependency_ids_go (seen : list Z) (raws : list json) : list Z :=
  match raws with
  | [] => seen
  | raw :: raws =>
      match json_int raw with
      | None => dependency_ids_go seen raws
      | Some dep =>
          if decide (dep ∈ seen) then dependency_ids_go seen raws
          else dependency_ids_go (seen ++ [dep]) raws
      end
  end.

Definition dependency_ids (sp : job_spec) : list Z := dependency_ids_go [] (js_dependencies sp).

Inductive dep_state : Type := MET | PENDING | FAILED.

#[global] Instance dep_state_eq_dec : EqDecision dep_state.
Proof. solve_decision. Defined.

Record DependencyVerdict : Type := {
  dv_state : dep_state;
  dv_failed : list Z;
}.

Section judge.
(** [fetch(id)], [latest_retry(id)] and [is_retry_pending(reason)] *)
Context (fetch : Z → option queued_job) (latest_retry : Z → option queued_job).
Context (pending_marker : string → bool).

Definition failed_or_archived (j : queued_job) : bool :=
  bool_decide (j_status j = Failed) || bool_decide (j_status j = Archived).

(** Follow the retry chain of a failed or archived job, at most [hops] times. *)
Fixpoint follow_retries (hops : nat) (dep : queued_job) : queued_job :=
  match hops with
  | O => dep
  | S hops =>
      if failed_or_archived dep then
        match latest_retry (j_id dep) with
        | None => dep
        | Some child => follow_retries hops child
        end
      else dep
  end.

(** One dependency: met, pending, or failed (with the id that failed). *)
Definition judge_one (dep_id : Z) : dep_state * Z :=
  match fetch dep_id with
  | None => (FAILED, dep_id)
  | Some dep =>
      let dep := follow_retries MAX_CHAIN_HOPS dep in
      match j_status dep with
      | Success => (MET, dep_id)
      | Failed =>
          if pending_marker (jr_termination_reason (j_run dep)) then (PENDING, dep_id)
          else (FAILED, j_id dep)
      | _ => (PENDING, dep_id)
      end
  end.

Fixpoint judge_loop (deps : list Z) (failed : list Z) (pending : bool) : list Z * bool :=
  match deps with
  | [] => (failed, pending)
  | dep_id :: deps =>
      match judge_one dep_id with
      | (MET, _) => judge_loop deps failed pending
      | (FAILED, id) => judge_loop deps (failed ++ [id]) pending
      | (PENDING, _) => judge_loop deps failed true
      end
  end.

Definition judge_dependencies (deps : list Z) : DependencyVerdict :=
  let '(failed, pending) := judge_loop deps [] false in
  match failed with
  | _ :: _ => {| dv_state := FAILED; dv_failed := failed |}
  | [] => {| dv_state := if pending then PENDING else MET; dv_failed := [] |}
  end.

(** ** What the verdict means *)

Lemma judge_loop_spec deps failed pending :
  let r := judge_loop deps failed pending in
  (r.1 = [] ↔ failed = [] ∧ Forall (λ d, (judge_one d).1 ≠ FAILED) deps) ∧
  (r.2 = true ↔ pending = true ∨ Exists (λ d, (judge_one d).1 = PENDING) deps).
Proof using.
  revert failed pending. induction deps as [|d deps IH]; intros failed pending; simpl.
  { rewrite Forall_nil, Exists_nil. tauto. }
  rewrite Forall_cons, Exists_cons.
  destruct (judge_one d) as [[] id]; simpl;
    match goal with |- context [judge_loop deps ?f ?p] => destruct (IH f p) as [-> ->] end.
  - intuition congruence.
  - intuition congruence.
  - split; [|intuition congruence]. split; [intros [[_ ?]%app_nil _]; done|intuition].
Qed.

Lemma judge_dependencies_spec deps :
  dv_state (judge_dependencies deps) =
    if decide (Exists (λ d, (judge_one d).1 = FAILED) deps) then FAILED
    else if decide (Exists (λ d, (judge_one d).1 = PENDING) deps) then PENDING
    else MET.
Proof using.
  unfold judge_dependencies. pose proof (judge_loop_spec deps [] false) as Hs.
  destruct (judge_loop deps [] false) as [failed pending]; simpl in Hs.
  destruct Hs as [Hf Hp].
  assert (failed = [] ↔ ¬ Exists (λ d, (judge_one d).1 = FAILED) deps) as Hf'.
  { rewrite Hf, <-Forall_Exists_neg. tauto. }
  repeat case_decide; destruct failed; simpl; try tauto.
  all: destruct pending; intuition congruence.
Qed.

Lemma judge_dependencies_failed_nonempty deps :
  dv_state (judge_dependencies deps) = FAILED ↔ dv_failed (judge_dependencies deps) ≠ [].
Proof using.
  unfold judge_dependencies. destruct (judge_loop deps [] false) as [[|x l] []]; simpl; naive_solver.
Qed.
End judge.

(** ** Throttle *)

Record Throttle : Type := {
  th_interval : Z;
  th_last : option time;
}.

(** [due(now)] with the clock reading as argument *)
Definition due (t : Throttle) (now : time) : bool * Throttle :=
  if th_interval t <=? 0 then (false, t)
  else match th_last t with
       | Some l => if now - l <? th_interval t then (false, t)
                   else (true, {| th_interval := th_interval t; th_last := Some now |})
       | None => (true, {| th_interval := th_interval t; th_last := Some now |})
       end.

(** ** Lemmas *)

Lemma dependency_ids_go_NoDup seen raws :
  NoDup seen → NoDup (dependency_ids_go seen raws).
Proof.
  revert seen; induction raws as [|r raws IH]; intros seen Hn; simpl; [done|].
  destruct (json_int r); [|auto]. case_decide; [auto|]. apply IH.
  apply NoDup_app. split_and!; [done|set_solver|apply NoDup_singleton].
Qed.

Lemma dependency_ids_go_elem seen raws d :
  d ∈ dependency_ids_go seen raws ↔ d ∈ seen ∨ ∃ r, r ∈ raws ∧ json_int r = Some d.
Proof.
  revert seen; induction raws as [|r raws IH]; intros seen; simpl; [set_solver|].
  setoid_rewrite elem_of_cons. destruct (json_int r) as [z|] eqn:E.
  - case_decide; rewrite IH, ?elem_of_app, ?list_elem_of_singleton; naive_solver.
  - rewrite IH. naive_solver.
Qed.

(** two due calls are at least an interval apart *)
Lemma due_spacing t now1 now2 b t' :
  due t now1 = (true, t') → due t' now2 = (true, b) → th_interval t <= now2 - now1.
Proof. unfold due. intros H1 H2. split_cases; lia. Qed.
