(* ===== verification/History.v ===== *)
(** * Terminal jobs (core/history.py)

    The decisions on a job that reaches, or is stranded in, a terminal state. *)

From S2P Require Import Prelude PyString Models Retry.
#[local] Open Scope string_scope.
#[local] Open Scope Z_scope.

Definition TERMINAL_STATUSES : list job_status := [Success; Failed; Archived].

Definition is_terminal (status : option job_status) : bool :=
  match status with
  | Some s => bool_decide (s ∈ TERMINAL_STATUSES)
  | None => false
  end.

(** The column is [NOT NULL]; [None] is the value a caller may pass. *)
Definition settled_termination_reason (reason : option string) : string :=
  settled_reason (default "" reason).

Definition settle_status (status : job_status) (reason : option string) (has_retry : bool)
    : option job_status :=
  match status with
  | Success => Some Success
  | Archived => Some Archived
  | Failed =>
      if is_retry_pending reason then None
      else Some (if has_retry then Archived else Failed)
  | _ => None
  end.

(** [termination_reason LIKE 'retry_pending%'], the test the sweeps use in SQL *)
Definition like_retry_pending (reason : string) : bool :=
  sql_like (to_chars "retry_pending%") (to_chars reason).

(** ** Lemmas *)

Lemma settle_status_terminal status reason has_retry s :
  settle_status status reason has_retry = Some s →
  is_terminal (Some status) = true ∧ is_terminal (Some s) = true.
Proof.
  destruct status, has_retry; simpl; try destruct (is_retry_pending reason);
    intros [= <-]; split; reflexivity.
Qed.
