(* ===== verification/Store.v ===== *)
(** * The job store (fastapi_sqlery/backend.py, core/ready_sql.py, history_sql.py)

    The database state of the standalone backend and the statements its operations are made
    of: the union view, the claim order, the ready/blocked writes, the terminal transition
    [_finish_in], the second half of a claim [_start_attempt] and the dependency judgement.

    An operation that runs one transaction is a function on the whole [store]; a rollback
    returns the store it started from. *)

From S2P Require Import Prelude Sql PyString Models Retry RateLimit Attempts Ready History.
From stdpp Require Import gmap.
From Stdlib Require Import Qcanon.
#[local] Open Scope string_scope.
#[local] Open Scope Z_scope.

(** A row of [sqlery_scheduled_job]: the job's columns ([sj_spec] carries the payload). *)
Record scheduled_job : Type := {
  sj_id : Z;
  sj_spec : job_spec;
}.

Record worker_row : Type := {
  w_id : Z;
  w_node_id : string;
  w_pid : Z;
  w_status : worker_status;
  w_current_job_id : option Z;
  w_jobs_processed : Z;
  w_last_heartbeat : time;
}.

Record store : Type := {
  live : list queued_job;
  history : list queued_job;
  attempts : list job_attempt;
  ready : list job_ready;
  blocked : list job_blocked;
  staged : list scheduled_job;
  workers : list worker_row;
  attempt_seq : Z;  (** the next attempt id *)
}.

(** What a transaction reads besides the tables: the clock, the process, the slot writers
    use, the configured tag limits, whether the job table is partitioned, and the row locks
    other transactions hold (never any on SQLite). *)
Record env : Type := {
  e_now : time;
  e_token : string;
  e_pid : Z;
  e_slot : Z;
  e_conc : gmap string Z;
  e_rate : gmap string string;
  e_partitioned : bool;
  e_entry_locked : Z → bool;
  e_row_locked : Z → bool;
  e_tag_lock : string → bool;
}.

(** ** Table updates *)

Definition with_live (l : list queued_job) (st : store) : store :=
  {| live := l; history := history st; attempts := attempts st; ready := ready st;
     blocked := blocked st; staged := staged st; workers := workers st;
     attempt_seq := attempt_seq st |}.
Definition with_history (h : list queued_job) (st : store) : store :=
  {| live := live st; history := h; attempts := attempts st; ready := ready st;
     blocked := blocked st; staged := staged st; workers := workers st;
     attempt_seq := attempt_seq st |}.
Definition with_attempts (a : list job_attempt) (st : store) : store :=
  {| live := live st; history := history st; attempts := a; ready := ready st;
     blocked := blocked st; staged := staged st; workers := workers st;
     attempt_seq := attempt_seq st |}.
Definition with_ready (r : list job_ready) (st : store) : store :=
  {| live := live st; history := history st; attempts := attempts st; ready := r;
     blocked := blocked st; staged := staged st; workers := workers st;
     attempt_seq := attempt_seq st |}.
Definition with_blocked (b : list job_blocked) (st : store) : store :=
  {| live := live st; history := history st; attempts := attempts st; ready := ready st;
     blocked := b; staged := staged st; workers := workers st;
     attempt_seq := attempt_seq st |}.
Definition with_staged (s : list scheduled_job) (st : store) : store :=
  {| live := live st; history := history st; attempts := attempts st; ready := ready st;
     blocked := blocked st; staged := s; workers := workers st;
     attempt_seq := attempt_seq st |}.
Definition with_workers (w : list worker_row) (st : store) : store :=
  {| live := live st; history := history st; attempts := attempts st; ready := ready st;
     blocked := blocked st; staged := staged st; workers := w;
     attempt_seq := attempt_seq st |}.

(** ** Reads *)

Definition job_by_id (st : store) (id : Z) : option queued_job :=
  first_where (λ j, j_id j = id) (live st).

Definition job_by_key (st : store) (id : Z) (created : time) : option queued_job :=
  first_where (λ j, j_id j = id ∧ j_created_at j = created) (live st).

Definition history_by_id (st : store) (id : Z) : option queued_job :=
  first_where (λ j, j_id j = id) (history st).

Definition _is_running (st : store) (id : Z) : bool := open_attempt_exists (attempts st) id.

(** The [sqlery_job_all] view: live rows joined with their open attempts, then history. *)
Definition live_view (atts : list job_attempt) (j : queued_job) : list queued_job :=
  if decide (j_status j = Queued) then
    match filter (open_for (j_id j)) atts with
    | [] => [j]
    | opens => (λ a, overlay_running j (Some a)) <$> opens
    end
  else [j].

Definition job_all (st : store) : list queued_job :=
  (live st ≫= live_view (attempts st)) ++ history st.

Definition anywhere_by_id (st : store) (id : Z) : option queued_job :=
  first_where (λ j, j_id j = id) (job_all st).

(** [ORDER BY created_at DESC, id DESC] *)
Definition newest_first (a b : queued_job) : Prop :=
  j_created_at b < j_created_at a ∨ (j_created_at a = j_created_at b ∧ j_id b <= j_id a).
#[global] Instance newest_first_dec a b : Decision (newest_first a b).
Proof. unfold newest_first. apply _. Defined.

Definition latest_retry (st : store) (id : Z) : option queued_job :=
  head (order_by newest_first (filter (λ j, j_parent j = Some id) (job_all st))).

Definition _judge_dependencies (st : store) (deps : list Z) : DependencyVerdict :=
  judge_dependencies (anywhere_by_id st) (latest_retry st)
    (λ r, is_retry_pending (Some r)) deps.

(** ** Ready and blocked tables (ready_sql.py) *)

Definition ready_values (j : queued_job) (slot : Z) : job_ready :=
  {| re_slot := slot; re_job_id := j_id j; re_queue_name := js_queue_name (j_spec j);
     re_priority := js_priority (j_spec j); re_created_at := j_created_at j;
     re_scheduled_at := js_scheduled_at (j_spec j) |}.

Definition ready_key (e : job_ready) : Z * Z := (re_slot e, re_job_id e).
Definition blocked_key (b : job_blocked) : Z * Z := (bl_job_id b, bl_dependency_id b).

(** [write_ready]: jobs with an open attempt get no entry, unless they are [fresh]. *)
Definition write_ready (ev : env) (jobs : list queued_job) (fresh : bool) (st : store) : store :=
  let jobs := if fresh then jobs else filter (λ j, _is_running st (j_id j) = false) jobs in
  with_ready
    (insert_all_nothing ready_key (ready st) ((λ j, ready_values j (e_slot ev)) <$> jobs)) st.

Definition blocked_rows (j : queued_job) (now : time) : list job_blocked :=
  (λ d, {| bl_job_id := j_id j; bl_dependency_id := d;
           bl_created_at := j_created_at j; bl_blocked_at := now |})
  <$> dependency_ids (j_spec j).

(** [insert_blocked_stmt]: [None] when there is no usable dependency id. *)
Definition insert_blocked (j : queued_job) (now : time) (st : store) : option store :=
  match blocked_rows j now with
  | [] => None
  | rows => Some (with_blocked (insert_all_nothing blocked_key (blocked st) rows) st)
  end.

Definition is_entry (slot id : Z) (e : job_ready) : Prop := re_slot e = slot ∧ re_job_id e = id.
#[global] Instance is_entry_dec slot id e : Decision (is_entry slot id e).
Proof. unfold is_entry. apply _. Defined.

Definition delete_entry (slot id : Z) (st : store) : store :=
  with_ready (delete_where (is_entry slot id) (ready st)) st.

Definition entry_of (ids : list Z) (e : job_ready) : Prop := re_slot e ∈ SLOTS ∧ re_job_id e ∈ ids.
#[global] Instance entry_of_dec ids e : Decision (entry_of ids e).
Proof. unfold entry_of. apply _. Defined.

Definition delete_ready (ids : list Z) (st : store) : store :=
  with_ready (delete_where (entry_of ids) (ready st)) st.

Definition delete_blocked (ids : list Z) (st : store) : store :=
  with_blocked (delete_where (λ b, bl_job_id b ∈ ids) (blocked st)) st.

(** [update_ready_stmt]: the editable columns of every entry of a job. *)
Definition update_ready (j : queued_job) (st : store) : store :=
  with_ready
    (update_where (entry_of [j_id j])
       (λ e, {| re_slot := re_slot e; re_job_id := re_job_id e;
                re_queue_name := js_queue_name (j_spec j);
                re_priority := js_priority (j_spec j);
                re_created_at := re_created_at e;
                re_scheduled_at := js_scheduled_at (j_spec j) |}) (ready st)) st.

Definition _ensure_entry (ev : env) (j : queued_job) (fresh : bool) (st : store) : store :=
  update_ready j (write_ready ev [j] fresh st).

Definition _drop_entries (ids : list Z) (st : store) : store :=
  delete_blocked ids (delete_ready ids st).

(** *** Claim order *)

(** [ORDER BY priority DESC, created_at, job_id] *)
Definition entry_le (a b : job_ready) : Prop :=
  re_priority b < re_priority a ∨
  (re_priority a = re_priority b ∧
    (re_created_at a < re_created_at b ∨
     (re_created_at a = re_created_at b ∧ re_job_id a <= re_job_id b))).
#[global] Instance entry_le_dec a b : Decision (entry_le a b).
Proof. unfold entry_le. apply _. Defined.

(** The keyset cursor: [(priority, created_at, job_id)] of the last entry inspected. *)
Abbreviation cursor := (Z * Z * Z)%type (only parsing).

Definition after_cursor (c : option cursor) (e : job_ready) : Prop :=
  match c with
  | None => True
  | Some (p, t, id) =>
      re_priority e < p ∨
      (re_priority e = p ∧ (t < re_created_at e ∨ (re_created_at e = t ∧ id < re_job_id e)))
  end.
#[global] Instance after_cursor_dec c e : Decision (after_cursor c e).
Proof. destruct c as [[[??]?]|]; simpl; apply _. Defined.

Definition entry_due (queues : list string) (now : time) (e : job_ready) : Prop :=
  re_queue_name e ∈ queues ∧
  match re_scheduled_at e with None => True | Some t => t <= now end.
#[global] Instance entry_due_dec queues now e : Decision (entry_due queues now e).
Proof. unfold entry_due. destruct (re_scheduled_at e); apply _. Defined.

Definition claim_candidates (ev : env) (queues : list string) (c : option cursor)
    (r : list job_ready) : list job_ready :=
  filter (λ e, entry_due queues (e_now ev) e ∧ after_cursor c e ∧
               e_entry_locked ev (re_job_id e) = false) r.

Definition next_entry (ev : env) (queues : list string) (c : option cursor)
    (r : list job_ready) : option job_ready :=
  head (order_by entry_le (claim_candidates ev queues c r)).

(** ** The terminal transition *)

(** The columns a caller may override when a job moves to history. *)
Record move_values : Type := {
  mv_finished_at : option time;
  mv_duration : option (option Z);
  mv_output : option string;
  mv_error : option string;
  mv_traceback : option string;
  mv_termination_reason : option string;
  mv_runs : option (list run_record);
  mv_started_at : option (option time);
  mv_worker_id : option (option Z);
  mv_worker_pid : option (option Z);
  mv_child_pid : option (option Z);
}.

Definition no_values : move_values :=
  {| mv_finished_at := None; mv_duration := None; mv_output := None; mv_error := None;
     mv_traceback := None; mv_termination_reason := None; mv_runs := None;
     mv_started_at := None; mv_worker_id := None; mv_worker_pid := None; mv_child_pid := None |}.

Definition coalesce {A} (a b : option A) : option A :=
  match a with Some _ => a | None => b end.

(** The history row [move_statements] selects from a live row. *)
Definition history_row (now : time) (atts : list job_attempt) (status : job_status)
    (v : move_values) (j : queued_job) : queued_job :=
  let r := j_run j in
  let newest := newest_attempt atts (j_id j) in
  {| j_id := j_id j; j_spec := j_spec j;
     j_run :=
       {| jr_status := status;
          jr_version := jr_version r + 1;
          jr_worker_id := default (coalesce (newest ≫= at_worker_id) (jr_worker_id r)) (mv_worker_id v);
          jr_worker_pid := default (coalesce (newest ≫= at_worker_pid) (jr_worker_pid r)) (mv_worker_pid v);
          jr_child_pid := default (coalesce (newest ≫= at_child_pid) (jr_child_pid r)) (mv_child_pid v);
          jr_started_at :=
            default (coalesce (at_claimed_at <$> newest) (jr_started_at r)) (mv_started_at v);
          jr_finished_at :=
            Some (default (default now (jr_finished_at r)) (mv_finished_at v));
          jr_duration := default (jr_duration r) (mv_duration v);
          jr_output := default (jr_output r) (mv_output v);
          jr_error := default (jr_error r) (mv_error v);
          jr_traceback := default (jr_traceback r) (mv_traceback v);
          jr_termination_reason := default (jr_termination_reason r) (mv_termination_reason v);
          jr_runs := default (jr_runs r) (mv_runs v) |} |}.

(** The fences of a terminal transition. *)
Record fences : Type := {
  fe_created_at : option time;
  fe_version : option Z;
  fe_status : option (list job_status);
  fe_idle : bool;
}.

Definition no_fences : fences :=
  {| fe_created_at := None; fe_version := None; fe_status := None; fe_idle := false |}.

Definition opt_eq {A} (o : option A) (x : A) : Prop :=
  match o with None => True | Some y => y = x end.
#[global] Instance opt_eq_dec `{EqDecision A} (o : option A) x : Decision (opt_eq o x).
Proof. destruct o; simpl; apply _. Defined.

Definition move_where (st : store) (id : Z) (f : fences) (j : queued_job) : Prop :=
  j_id j = id ∧ opt_eq (fe_created_at f) (j_created_at j) ∧
  opt_eq (fe_version f) (j_version j) ∧
  match fe_status f with None => True | Some ss => j_status j ∈ ss end ∧
  (fe_idle f = true → _is_running st (j_id j) = false).
#[global] Instance move_where_dec st id f j : Decision (move_where st id f j).
Proof.
  unfold move_where. destruct (fe_status f), (fe_idle f); apply _.
Defined.

(** [close_stragglers_stmt] *)
Definition close_stragglers (id : Z) (status : job_status) (now : time) (st : store) : store :=
  with_attempts
    (update_where (open_for id)
       (close_attempt now (if decide (status = Success) then OSuccess else OAbandoned))
       (attempts st)) st.

(** Move one live job into history. [Ok false]: no row is in the state the fences demand.
    [RuntimeError]: an unexpected row count (the transaction is rolled back). *)
Definition _finish_in (ev : env) (id : Z) (status : job_status) (v : move_values) (f : fences)
    (st : store) : store * result store_error bool :=
  match filter (move_where st id f) (live st) with
  | [] => (st, Ok false)
  | [j] =>
      (close_stragglers id status (e_now ev)
         (with_live (delete_where (move_where st id f) (live st))
           (with_history (history st ++ [history_row (e_now ev) (attempts st) status v j]) st)),
       Ok true)
  | _ => (st, Err RuntimeError)
  end.

(** Fail a job that is still queued and idle; its entries go with it. *)
Definition _fail_queued (ev : env) (j : queued_job) (error reason : string) (st : store)
    : store * result store_error bool :=
  _finish_in ev (j_id j) Failed
    {| mv_finished_at := Some (e_now ev); mv_duration := None; mv_output := None;
       mv_error := Some error; mv_traceback := None; mv_termination_reason := Some reason;
       mv_runs := None; mv_started_at := None; mv_worker_id := None;
       mv_worker_pid := None; mv_child_pid := None |}
    {| fe_created_at := Some (j_created_at j); fe_version := None;
       fe_status := Some [Queued]; fe_idle := true |}
    (delete_blocked [j_id j] (delete_ready [j_id j] st)).

(** [f"Dependencies failed: {verdict.failed}"] *)
Definition dependency_error (v : DependencyVerdict) : string :=
  String.append "Dependencies failed: " (py_str_list (dv_failed v)).

(** ** The second half of a claim *)

Inductive start_outcome : Type :=
  | SClaimed (h : AttemptHandle)
  | SKeep
  | SRestore.

Definition _open_attempt (ev : env) (id : Z) (worker : option Z) (st : store)
    : store * AttemptHandle :=
  let a := new_attempt (attempt_seq st) id (e_token ev) worker (e_pid ev) (e_now ev) in
  ({| live := live st; history := history st; attempts := attempts st ++ [a];
      ready := ready st; blocked := blocked st; staged := staged st; workers := workers st;
      attempt_seq := attempt_seq st + 1 |},
   {| h_id := at_id a; h_token := at_token a; h_job_id := id;
      h_claimed_at := Some (e_now ev); h_worker_id := worker; h_worker_pid := Some (e_pid ev) |}).

(** The row [SELECT .. FOR UPDATE SKIP LOCKED] returns for a claim. *)
Definition lock_job_row (ev : env) (j : queued_job) (st : store) : option queued_job :=
  if e_row_locked ev (j_id j) then None else job_by_key st (j_id j) (j_created_at j).

Definition _start_attempt (ev : env) (j : queued_job) (worker : option Z) (st : store)
    : store * start_outcome :=
  match lock_job_row ev j st with
  | None => (st, SRestore)
  | Some row =>
      let running := _is_running st (j_id j) in
      match claim_verdict (Some (j_status row)) (Some (j_version row)) (Some (j_version j)) running with
      | VOk => let '(st', h) := _open_attempt ev (j_id j) worker st in (st', SClaimed h)
      | VStale =>
          if negb (bool_decide (j_status row = Queued)) || running then (st, SKeep)
          else (st, SRestore)
      end
  end.

(** [_as_running]: the claimed job as the caller sees it. *)
Definition _as_running (j : queued_job) (h : AttemptHandle) : queued_job :=
  overlay_running j
    (Some {| at_id := h_id h; at_job_id := h_job_id h; at_token := h_token h;
             at_worker_id := h_worker_id h; at_worker_pid := h_worker_pid h;
             at_child_pid := None; at_claimed_at := default 0 (h_claimed_at h);
             at_finished_at := None; at_outcome := None |}).

(** ** Tag limits *)

(** [started_at IS NOT NULL AND started_at >= since], when a [since] is given *)
Definition started_since (since : option time) (j : queued_job) : Prop :=
  match since, jr_started_at (j_run j) with
  | None, _ => True
  | Some s, Some t => s <= t
  | Some _, None => False
  end.
#[global] Instance started_since_dec since j : Decision (started_since since j).
Proof. unfold started_since. destruct since, (jr_started_at (j_run j)); apply _. Defined.

Definition _count_tag_in_session (st : store) (tag : string) (statuses : list job_status)
    (since : option time) : Z :=
  Z.of_nat (rowcount (λ j,
    j_status j ∈ statuses ∧
    started_since since j ∧ tag ∈ js_tags (j_spec j)) (job_all st)).

Definition tag_over_limit (ev : env) (st : store) (tag : string) : bool :=
  match e_conc ev !! tag with
  | Some limit => limit <=? _count_tag_in_session st tag [Running] None
  | None => false
  end ||
  match e_rate ev !! tag with
  | Some s =>
      if decide (s = "") then false else
      match parse_rate_limit s with
      | Err _ => false
      | Ok (count, window) =>
          count <=? _count_tag_in_session st tag [Running; Success; Failed] (Some (e_now ev - window))
      end
  | None => false
  end.

Definition limited_tags (ev : env) (j : queued_job) : list string :=
  filter (λ t, is_Some (e_conc ev !! t) ∨ is_Some (e_rate ev !! t)) (js_tags (j_spec j)).

Definition _tag_limited (ev : env) (j : queued_job) (st : store) : bool :=
  let limited := limited_tags ev j in
  negb (forallb (e_tag_lock ev) limited) || existsb (tag_over_limit ev st) limited.
