(* ===== verification/StoreInv.v ===== *)
(** * Invariants of the job store

    [wf]: keys are unique, a job is in the live table or in history but never in both, a
    history row is final, and a job has at most one open attempt. [covered_except X]: every
    queued job that is not running, except those in [X], has a ready or a blocked entry (so
    it is claimable or will be re-judged). Each statement of [Store] is shown to preserve
    them; the operations' proofs compose these lemmas. *)

From S2P Require Import Prelude Sql PyString Models Retry Attempts Ready History Store.
#[local] Open Scope Z_scope.

Record wf (st : store) : Prop := {
  wf_live_ids : NoDup (j_id <$> live st);
  wf_hist_ids : NoDup (j_id <$> history st);
  wf_disjoint : ∀ j h, j ∈ live st → h ∈ history st → j_id j ≠ j_id h;
  wf_hist_final : ∀ h, h ∈ history st →
    is_terminal (Some (j_status h)) = true ∧ is_Some (jr_finished_at (j_run h));
  wf_att_ids : NoDup (at_id <$> attempts st);
  wf_att_seq : ∀ a, a ∈ attempts st → at_id a < attempt_seq st;
  wf_one_open : ∀ id a b, a ∈ attempts st → b ∈ attempts st →
    open_for id a → open_for id b → a = b;
  wf_hist_closed : ∀ h a, h ∈ history st → a ∈ attempts st → ¬ open_for (j_id h) a;
  wf_ready_keys : NoDup (ready_key <$> ready st);
  wf_ready_slots : ∀ e, e ∈ ready st → re_slot e ∈ SLOTS;
  wf_ready_created : ∀ e j, e ∈ ready st → j ∈ live st →
    re_job_id e = j_id j → re_created_at e = j_created_at j;
  wf_blocked_created : ∀ b j, b ∈ blocked st → j ∈ live st →
    bl_job_id b = j_id j → bl_created_at b = j_created_at j;
}.

(** The job is queued and nobody runs it. *)
Definition waiting (st : store) (j : queued_job) : Prop :=
  j ∈ live st ∧ j_status j = Queued ∧ _is_running st (j_id j) = false.

Definition has_entry (st : store) (id : Z) : Prop :=
  (∃ e, e ∈ ready st ∧ re_job_id e = id) ∨ (∃ b, b ∈ blocked st ∧ bl_job_id b = id).

Definition covered_except (X : list Z) (st : store) : Prop :=
  ∀ j, waiting st j → j_id j ∈ X ∨ has_entry st (j_id j).

Abbreviation covered := (covered_except []).

(** ** Consequences of key uniqueness *)

Section facts.
Context (st : store) (Hwf : wf st).

Lemma live_inj j j' : j ∈ live st → j' ∈ live st → j_id j = j_id j' → j = j'.
Proof using Hwf. apply NoDup_fmap_inj, Hwf. Qed.

Lemma job_by_id_Some id j : job_by_id st id = Some j ↔ j ∈ live st ∧ j_id j = id.
Proof using Hwf.
  unfold job_by_id. split; [intros Hf; by apply first_where_Some in Hf|]. intros [Hj Hid].
  destruct (first_where_is_Some (λ j, j_id j = id) _ _ Hj Hid) as [j' Hj'].
  rewrite Hj'. apply first_where_Some in Hj' as [??]. f_equal.
  apply live_inj; naive_solver.
Qed.

Lemma job_by_id_None id : job_by_id st id = None ↔ ∀ j, j ∈ live st → j_id j ≠ id.
Proof using. apply first_where_None. Qed.

Lemma job_by_key_Some id created j :
  job_by_key st id created = Some j ↔ j ∈ live st ∧ j_id j = id ∧ j_created_at j = created.
Proof using Hwf.
  unfold job_by_key. split; [intros Hf; by apply first_where_Some in Hf|].
  intros (Hj & Hid & Hc).
  destruct (first_where_is_Some (λ j, j_id j = id ∧ j_created_at j = created) _ _ Hj (conj Hid Hc))
    as [j' Hj'].
  rewrite Hj'. apply first_where_Some in Hj' as [?[??]]. f_equal.
  apply live_inj; naive_solver.
Qed.

Lemma job_by_key_None id created :
  job_by_key st id created = None ↔
  ∀ j, j ∈ live st → ¬ (j_id j = id ∧ j_created_at j = created).
Proof using. apply first_where_None. Qed.
End facts.

Lemma is_running_true st id :
  _is_running st id = true ↔ ∃ a, a ∈ attempts st ∧ open_for id a.
Proof. apply open_attempt_exists_true. Qed.

Lemma is_running_false st id :
  _is_running st id = false ↔ ∀ a, a ∈ attempts st → ¬ open_for id a.
Proof. apply open_attempt_exists_false. Qed.

(** An entry (ready or blocked) names the creation time of the job it is about. *)
Definition ready_agrees (st : store) (e : job_ready) : Prop :=
  ∀ j, j ∈ live st → re_job_id e = j_id j → re_created_at e = j_created_at j.

Definition blocked_agrees (st : store) (b : job_blocked) : Prop :=
  ∀ j, j ∈ live st → bl_job_id b = j_id j → bl_created_at b = j_created_at j.

(** A job object a caller holds describes the live row of its id (its spec never changes). *)
Definition knows (st : store) (j : queued_job) : Prop :=
  ∀ j', j' ∈ live st → j_id j' = j_id j → j_spec j' = j_spec j.

Lemma knows_live st j : wf st → j ∈ live st → knows st j.
Proof. intros Hwf Hj j' Hj' Hid. by rewrite (live_inj st Hwf j' j Hj' Hj Hid). Qed.

(** ** Coverage *)

Lemma covered_weaken X Y st : X ⊆ Y → covered_except X st → covered_except Y st.
Proof. intros HXY Hc j Hj. destruct (Hc j Hj); auto. Qed.

(** The jobs that wait after a step either waited before, with their entries kept, or are
    exempt, or have an entry. *)
Lemma covered_frame X Y st st' :
  covered_except X st →
  (∀ j, waiting st' j → j_id j ∉ Y →
     has_entry st' (j_id j) ∨
     (j_id j ∉ X ∧ (∃ j0, waiting st j0 ∧ j_id j0 = j_id j) ∧
      (has_entry st (j_id j) → has_entry st' (j_id j)))) →
  covered_except Y st'.
Proof.
  intros Hc Hf j Hj. destruct (decide (j_id j ∈ Y)) as [|HY]; [by left|right].
  destruct (Hf j Hj HY) as [|(HX & (j0 & Hj0 & Hid) & Hk)]; [done|].
  apply Hk. rewrite <-Hid. destruct (Hc j0 Hj0); [congruence|done].
Qed.

(** ** Writes to the ready and the blocked table *)

Lemma wf_with_ready r st :
  wf st → NoDup (ready_key <$> r) →
  (∀ e, e ∈ r → e ∈ ready st ∨ re_slot e ∈ SLOTS ∧ ready_agrees st e) → wf (with_ready r st).
Proof.
  intros [] Hn Hr. split; simpl; try done; intros e; intros.
  - destruct (Hr e) as [|[]]; auto.
  - destruct (Hr e) as [|[]]; eauto.
Qed.

Lemma wf_delete_ready_rows (P : job_ready → Prop) {HD : ∀ e, Decision (P e)} st :
  wf st → wf (with_ready (delete_where P (ready st)) st).
Proof.
  intros Hwf. apply wf_with_ready; [done| |].
  - eapply sublist_NoDup; [|apply fmap_delete_where_sublist]. apply Hwf.
  - intros e [He _]%elem_of_delete_where. by left.
Qed.

Lemma wf_with_blocked b st :
  wf st → (∀ x, x ∈ b → x ∈ blocked st ∨ blocked_agrees st x) → wf (with_blocked b st).
Proof.
  intros [] Hb. split; simpl; try done; intros x; intros. destruct (Hb x); eauto.
Qed.

Lemma wf_delete_entry slot id st : wf st → wf (delete_entry slot id st).
Proof. apply wf_delete_ready_rows. Qed.

Lemma wf_delete_ready ids st : wf st → wf (delete_ready ids st).
Proof. apply wf_delete_ready_rows. Qed.

Lemma wf_delete_blocked ids st : wf st → wf (delete_blocked ids st).
Proof.
  intros Hwf. apply wf_with_blocked; [done|]. intros x [Hx _]%elem_of_delete_where. by left.
Qed.

Lemma wf_drop_entries ids st : wf st → wf (_drop_entries ids st).
Proof. intros. by apply wf_delete_blocked, wf_delete_ready. Qed.

#[export] Hint Resolve wf_delete_entry wf_delete_ready wf_delete_blocked wf_drop_entries : sqlery.

(** a deletion of entries of [ids] exempts [ids] *)
Lemma covered_delete_entry slot id X st :
  covered_except X st → covered_except (id :: X) (delete_entry slot id st).
Proof.
  intros Hc. apply (covered_frame X _ _ _ Hc). intros j Hj HY. right.
  apply not_elem_of_cons in HY as [Hne HX]. split; [done|]. split; [by exists j|].
  intros [(e & He & Hid)|Hb]; [|by right]. left. exists e. split; [|done].
  apply elem_of_delete_where. split; [done|]. intros [_ Hin]. congruence.
Qed.

Lemma covered_delete_ready ids X st :
  covered_except X st → covered_except (ids ++ X) (delete_ready ids st).
Proof.
  intros Hc. apply (covered_frame X _ _ _ Hc). intros j Hj HY. right.
  apply not_elem_of_app in HY as [Hne HX]. split; [done|]. split; [by exists j|].
  intros [(e & He & Hid)|Hb]; [|by right]. left. exists e. split; [|done].
  apply elem_of_delete_where. split; [done|]. intros [_ Hin]. congruence.
Qed.

Lemma covered_delete_blocked ids X st :
  covered_except X st → covered_except (ids ++ X) (delete_blocked ids st).
Proof.
  intros Hc. apply (covered_frame X _ _ _ Hc). intros j Hj HY. right.
  apply not_elem_of_app in HY as [Hne HX]. split; [done|]. split; [by exists j|].
  intros [He|(b & Hb & Hid)]; [by left|]. right. exists b. split; [|done].
  apply elem_of_delete_where. split; [done|]. congruence.
Qed.

(** The slot new entries are written to is one of the three slots. *)
Definition env_ok (ev : env) : Prop := e_slot ev ∈ SLOTS.

Lemma wf_insert_ready rows st :
  wf st → (∀ e, e ∈ rows → re_slot e ∈ SLOTS ∧ ready_agrees st e) →
  wf (with_ready (insert_all_nothing ready_key (ready st) rows) st).
Proof.
  intros Hwf Hr. apply wf_with_ready; [done| |].
  - apply insert_all_nothing_NoDup, Hwf.
  - intros e [He|He]%insert_all_nothing_elem; auto.
Qed.

Lemma wf_write_ready ev jobs fresh st :
  env_ok ev → wf st → (∀ j, j ∈ jobs → knows st j) → wf (write_ready ev jobs fresh st).
Proof.
  intros Hev Hwf Hk. apply wf_insert_ready; [done|].
  intros e (j & -> & Hj)%list_elem_of_fmap. split; [done|].
  assert (j ∈ jobs) as Hin
    by (destruct fresh; [done|by apply list_elem_of_filter in Hj as [_ ?]]).
  intros j' Hj' Hid. simpl in *. by rewrite (Hk j Hin j' Hj' (eq_sym Hid)).
Qed.

(** An insert into the entry tables keeps every entry. *)
Lemma has_entry_write_ready ev jobs fresh st id :
  has_entry st id → has_entry (write_ready ev jobs fresh st) id.
Proof.
  intros [(e & He & Hid)|Hb]; [|by right].
  left. exists e. split; [by apply insert_all_nothing_subseteq|done].
Qed.

Lemma covered_write_ready ev j fresh X st :
  covered_except (j_id j :: X) st → covered_except X (write_ready ev [j] fresh st).
Proof.
  intros Hc. apply (covered_frame _ _ _ _ Hc). intros j' Hj' HX.
  destruct (decide (j_id j' = j_id j)) as [Hid|Hid].
  - left. left.
    assert (ready_values j (e_slot ev) ∈ (λ j, ready_values j (e_slot ev)) <$>
      (if fresh then [j] else filter (λ j, _is_running st (j_id j) = false) [j])) as Hin.
    { apply list_elem_of_fmap. exists j. split; [done|]. destruct fresh; [set_solver|].
      apply list_elem_of_filter. split; [|set_solver]. rewrite <-Hid. apply Hj'. }
    destruct (insert_all_nothing_key ready_key _ (ready st) _ Hin) as (y & Hy & Hk).
    exists y. split; [done|]. rewrite Hid. by injection Hk.
  - right. split; [set_solver|]. split; [by exists j'|]. apply has_entry_write_ready.
Qed.

Lemma wf_update_ready j st : wf st → wf (update_ready j st).
Proof.
  intros Hwf. apply wf_with_ready; [done| |].
  - rewrite update_where_column; [apply Hwf|done].
  - intros e (e0 & He0 & ->)%elem_of_update_where. case_decide; [|by left].
    right. split; [by apply (wf_ready_slots st Hwf e0)|].
    intros j' Hj' Hid. exact (wf_ready_created st Hwf e0 j' He0 Hj' Hid).
Qed.

Lemma covered_update_ready j X st : covered_except X st → covered_except X (update_ready j st).
Proof.
  intros Hc. apply (covered_frame _ _ _ _ Hc). intros j' Hj' HX. right.
  split; [done|]. split; [by exists j'|]. intros [(e & He & Hid)|Hb]; [left|by right].
  eexists. split; [apply elem_of_update_where; eauto|]. by case_decide.
Qed.

Lemma blocked_rows_agree st j now x : knows st j → x ∈ blocked_rows j now → blocked_agrees st x.
Proof.
  intros Hk (d & -> & _)%list_elem_of_fmap j' Hj' Hid. simpl in *. by rewrite (Hk j').
Qed.

Lemma wf_insert_blocked j now st st' :
  wf st → knows st j → insert_blocked j now st = Some st' → wf st'.
Proof.
  intros Hwf Hk. unfold insert_blocked. destruct (blocked_rows j now) as [|b rows] eqn:Hr; [done|].
  intros [= <-]. apply wf_with_blocked; [done|].
  intros x Hx. apply (insert_all_nothing_elem blocked_key (b :: rows)) in Hx as [?|Hx];
    [by left|right]. rewrite <-Hr in Hx. by eapply blocked_rows_agree.
Qed.

Lemma covered_insert_blocked j now X st st' :
  insert_blocked j now st = Some st' →
  covered_except (j_id j :: X) st → covered_except X st'.
Proof.
  unfold insert_blocked. destruct (blocked_rows j now) as [|b rows] eqn:Hr; [done|].
  intros [= <-] Hc. apply (covered_frame _ _ _ _ Hc). intros j' Hj' HX.
  destruct (decide (j_id j' = j_id j)) as [Hid|Hid].
  - left. right. assert (b ∈ b :: rows) as Hin by set_solver.
    destruct (insert_all_nothing_key blocked_key _ (blocked st) _ Hin) as (y & Hy & Hk).
    exists y. split; [done|]. injection Hk as Hj _. rewrite Hj, Hid.
    rewrite <-Hr in Hin. apply list_elem_of_fmap in Hin as (d & -> & _). done.
  - right. split; [set_solver|]. split; [by exists j'|].
    intros [?|(y & Hy & ?)]; [by left|right]. exists y.
    split; [by apply (insert_all_nothing_subseteq blocked_key (b :: rows))|done].
Qed.

(** ** Writes to the attempt table *)

(** An [UPDATE] that reopens no attempt. *)
Lemma wf_update_attempts (P : job_attempt → Prop) {HD : ∀ a, Decision (P a)} f st :
  wf st →
  (∀ a, at_id (f a) = at_id a ∧ at_job_id (f a) = at_job_id a ∧
        (at_finished_at (f a) = None → at_finished_at a = None)) →
  wf (with_attempts (update_where P f (attempts st)) st).
Proof.
  intros Hwf Hf.
  assert (∀ id a, open_for id (if decide (P a) then f a else a) → open_for id a) as Ho.
  { intros id a. unfold open_for. case_decide; [|done].
    destruct (Hf a) as (_ & -> & ?). naive_solver. }
  destruct Hwf. split; simpl; try done.
  - rewrite update_where_column; [done|]. naive_solver.
  - intros a (b & Hb & ->)%elem_of_update_where. case_decide; [|eauto].
    destruct (Hf b) as [-> _]. eauto.
  - intros id a b (a0 & Ha & ->)%elem_of_update_where (b0 & Hb & ->)%elem_of_update_where Hoa Hob.
    by rewrite (wf_one_open0 id a0 b0 Ha Hb (Ho _ _ Hoa) (Ho _ _ Hob)).
  - intros h a Hh (a0 & Ha & ->)%elem_of_update_where Hoa. eapply wf_hist_closed0, Ho, Hoa; done.
Qed.

Lemma wf_close (P : job_attempt → Prop) {HD : ∀ a, Decision (P a)} now o st :
  wf st → wf (with_attempts (update_where P (close_attempt now o) (attempts st)) st).
Proof. intros Hwf. by apply wf_update_attempts. Qed.

(** Closing attempts of [id] can only make [id] wait. *)
Lemma is_running_close (P : job_attempt → Prop) {HD : ∀ a, Decision (P a)} now o st id id' :
  (∀ a, a ∈ attempts st → P a → at_job_id a = id) → id' ≠ id →
  _is_running (with_attempts (update_where P (close_attempt now o) (attempts st)) st) id' =
  _is_running st id'.
Proof.
  intros HP Hne. destruct (_is_running st id') eqn:E.
  - apply is_running_true in E as (a & Ha & Ho). apply is_running_true.
    exists a. split; [|done]. simpl. apply elem_of_update_where. exists a. split; [done|].
    case_decide as HPa; [|done]. destruct Ho as [Hj _]. specialize (HP a Ha HPa). congruence.
  - apply is_running_false. intros a (b & Hb & ->)%elem_of_update_where Ho.
    rewrite is_running_false in E. case_decide; [by destruct Ho|]. by apply (E b).
Qed.

Lemma covered_close (P : job_attempt → Prop) {HD : ∀ a, Decision (P a)} now o id X st :
  (∀ a, a ∈ attempts st → P a → at_job_id a = id) →
  covered_except X st →
  covered_except (id :: X) (with_attempts (update_where P (close_attempt now o) (attempts st)) st).
Proof.
  intros HP Hc. apply (covered_frame _ _ _ _ Hc). intros j (Hj & Hs & Hr) HX. right.
  split; [set_solver|]. split; [|done]. exists j. split; [|done]. split_and!; [done..|].
  rewrite <-Hr. symmetry. apply (is_running_close P _ _ _ id); [done|set_solver].
Qed.

Lemma wf_open_attempt ev id worker st :
  wf st → _is_running st id = false → (∃ j, j ∈ live st ∧ j_id j = id) →
  wf (_open_attempt ev id worker st).1.
Proof.
  intros Hwf Hr (j & Hj & Hid). rewrite is_running_false in Hr. destruct Hwf. split; simpl; try done.
  - rewrite fmap_app. apply NoDup_app. split_and!; [done| |apply NoDup_singleton].
    intros i (a & -> & Ha)%list_elem_of_fmap Hi. csimpl in *.
    apply list_elem_of_singleton in Hi. specialize (wf_att_seq0 a Ha). lia.
  - intros a [Ha| ->%list_elem_of_singleton]%elem_of_app; simpl; [|lia].
    specialize (wf_att_seq0 a Ha). lia.
  - intros id' a b [Ha| ->%list_elem_of_singleton]%elem_of_app
      [Hb| ->%list_elem_of_singleton]%elem_of_app Hoa Hob; [by eapply wf_one_open0| | |done].
    + destruct Hob as [Hid' _]. simpl in Hid'. subst id'. by destruct (Hr a Ha).
    + destruct Hoa as [Hid' _]. simpl in Hid'. subst id'. by destruct (Hr b Hb).
  - intros h a Hh [Ha| ->%list_elem_of_singleton]%elem_of_app; [eauto|].
    intros [Hid' _]. simpl in Hid'. apply (wf_disjoint0 j h); congruence.
Qed.

Lemma is_running_open ev id worker st id' :
  _is_running (_open_attempt ev id worker st).1 id' = bool_decide (id' = id) || _is_running st id'.
Proof.
  unfold _is_running, open_attempt_exists, exists_where; simpl.
  destruct (bool_decide_reflect (id' = id)) as [->|Hne]; simpl.
  - apply bool_decide_eq_true, Exists_app. right. by apply Exists_cons_hd.
  - apply bool_decide_ext. rewrite Exists_app, Exists_cons, Exists_nil.
    unfold open_for at 2. simpl. intuition congruence.
Qed.

Lemma covered_open_attempt ev id worker X st :
  covered_except (id :: X) st → covered_except X (_open_attempt ev id worker st).1.
Proof.
  intros Hc. apply (covered_frame _ _ _ _ Hc). intros j (Hj & Hs & Hr) HX. right.
  rewrite is_running_open in Hr. apply orb_false_iff in Hr as [Hne Hr].
  apply bool_decide_eq_false in Hne. split; [set_solver|]. split; [|done]. by exists j.
Qed.

(** ** The live table *)

(** An [UPDATE] of the life-cycle columns. *)
Lemma wf_update_live (P : queued_job → Prop) {HD : ∀ j, Decision (P j)} f st :
  wf st → (∀ j, j_id (f j) = j_id j ∧ j_spec (f j) = j_spec j) →
  wf (with_live (update_where P f (live st)) st).
Proof.
  intros Hwf Hf.
  assert (∀ j', j' ∈ update_where P f (live st) →
    ∃ j, j ∈ live st ∧ j_id j' = j_id j ∧ j_spec j' = j_spec j) as Hin.
  { intros j' (j & Hj & ->)%elem_of_update_where. exists j. destruct (Hf j).
    by case_decide. }
  destruct Hwf. split; simpl; try done.
  - rewrite update_where_column; [done|]. naive_solver.
  - intros j' h (j & Hj & -> & _)%Hin Hh. eauto.
  - intros e j' He (j & Hj & -> & ->)%Hin Hid. eauto.
  - intros b j' Hb (j & Hj & -> & ->)%Hin Hid. eauto.
Qed.

Lemma wf_delete_live (P : queued_job → Prop) {HD : ∀ j, Decision (P j)} st :
  wf st → wf (with_live (delete_where P (live st)) st).
Proof.
  intros Hwf. assert (∀ j, j ∈ delete_where P (live st) → j ∈ live st) as Hin.
  { by intros j [Hj _]%elem_of_delete_where. }
  destruct Hwf. split; simpl; try done; eauto.
  eapply sublist_NoDup; [exact wf_live_ids0|]. apply fmap_delete_where_sublist.
Qed.

(** A job that is in none of the tables. *)
Record unused_id (id : Z) (st : store) : Prop := {
  un_live : ∀ j, j ∈ live st → j_id j ≠ id;
  un_history : ∀ h, h ∈ history st → j_id h ≠ id;
  un_ready : ∀ e, e ∈ ready st → re_job_id e ≠ id;
  un_blocked : ∀ b, b ∈ blocked st → bl_job_id b ≠ id;
}.

Definition used_ids (st : store) : list Z :=
  (j_id <$> live st) ++ (j_id <$> history st) ++ (re_job_id <$> ready st) ++ (bl_job_id <$> blocked st).

Lemma unused_id_intro id st : id ∉ used_ids st → unused_id id st.
Proof.
  unfold used_ids. rewrite !elem_of_app, !list_elem_of_fmap. intros Hn.
  split; intros x Hx Hid; apply Hn; naive_solver.
Qed.

Lemma wf_append_live j st :
  wf st → (∀ j', j' ∈ live st → j_id j' ≠ j_id j) → (∀ h, h ∈ history st → j_id h ≠ j_id j) →
  (∀ e, e ∈ ready st → re_job_id e = j_id j → re_created_at e = j_created_at j) →
  (∀ b, b ∈ blocked st → bl_job_id b = j_id j → bl_created_at b = j_created_at j) →
  wf (with_live (live st ++ [j]) st).
Proof.
  intros [] Hl Hh Hr Hb. split; simpl; try done.
  - rewrite fmap_app. apply NoDup_app. split_and!; [done| |apply NoDup_singleton].
    intros i (j' & -> & Hj')%list_elem_of_fmap Hi. csimpl in Hi.
    apply list_elem_of_singleton in Hi. by eapply Hl.
  - intros j' h [Hj'| ->%list_elem_of_singleton]%elem_of_app Hh'; [eauto|].
    intros Heq. by eapply Hh.
  - intros e j' He [Hj'| ->%list_elem_of_singleton]%elem_of_app; eauto.
  - intros b j' Hb' [Hj'| ->%list_elem_of_singleton]%elem_of_app; eauto.
Qed.

(** ** The terminal transition *)

Definition finished (ev : env) (id : Z) (status : job_status) (v : move_values) (f : fences)
    (j : queued_job) (st : store) : store :=
  close_stragglers id status (e_now ev)
    (with_live (delete_where (move_where st id f) (live st))
      (with_history (history st ++ [history_row (e_now ev) (attempts st) status v j]) st)).

(** With unique ids the row count is 0 or 1: [_finish_in] never raises. *)
Lemma finish_in_cases ev id status v f st :
  wf st →
  (∃ j, j ∈ live st ∧ move_where st id f j ∧
     _finish_in ev id status v f st = (finished ev id status v f j st, Ok true)) ∨
  ((∀ j, j ∈ live st → ¬ move_where st id f j) ∧
     _finish_in ev id status v f st = (st, Ok false)).
Proof.
  intros Hwf. unfold _finish_in.
  destruct (filter (move_where st id f) (live st)) as [|j [|j' l]] eqn:Hf.
  - right. split; [|done]. apply (rowcount_zero (move_where st id f)).
    unfold rowcount. by rewrite Hf.
  - left. exists j. assert (j ∈ filter (move_where st id f) (live st)) as Hj
      by (rewrite Hf; set_solver).
    apply list_elem_of_filter in Hj as [??]. done.
  - exfalso. assert (j_id <$> filter (move_where st id f) (live st) `sublist_of` j_id <$> live st)
      as Hs by apply fmap_sublist, sublist_filter.
    apply sublist_NoDup in Hs; [|apply Hwf]. rewrite Hf in Hs. csimpl in Hs.
    assert (∀ x, x ∈ j :: j' :: l → j_id x = id) as Hid.
    { intros x. rewrite <-Hf. intros [[? _] _]%list_elem_of_filter. done. }
    apply NoDup_cons in Hs as [Hs _]. apply Hs. rewrite (Hid j), (Hid j') by set_solver.
    set_solver.
Qed.

Lemma finished_live ev id status v f j st x :
  wf st → j ∈ live st → move_where st id f j →
  x ∈ live (finished ev id status v f j st) ↔ x ∈ live st ∧ j_id x ≠ id.
Proof.
  intros Hwf Hj Hm. simpl. rewrite elem_of_delete_where. split; intros [Hx Hn]; split; try done.
  - intros Hid. apply Hn. destruct Hm as [Hid' Hm].
    rewrite (live_inj st Hwf x j Hx Hj (eq_trans Hid (eq_sym Hid'))). by split.
  - by intros [? _].
Qed.

Lemma wf_finished ev id status v f j st :
  wf st → j ∈ live st → move_where st id f j → is_terminal (Some status) = true →
  wf (finished ev id status v f j st).
Proof.
  intros Hwf Hj Hm Ht. pose proof (proj1 Hm) as Hid.
  pose proof (wf_close (open_for id) (e_now ev)
    (if decide (status = Success) then OSuccess else OAbandoned) _
    (wf_delete_live (move_where st id f) st Hwf)) as Hwf'.
  destruct Hwf'. split; simpl in *; try done.
  - rewrite fmap_app. apply NoDup_app. split_and!; [done| |apply NoDup_singleton].
    intros i (h & -> & Hh)%list_elem_of_fmap Hi. csimpl in Hi.
    apply list_elem_of_singleton in Hi. by eapply (wf_disjoint st Hwf j h).
  - intros x h Hx [Hh| ->%list_elem_of_singleton]%elem_of_app; [eauto|]. simpl.
    rewrite Hid. eapply (finished_live ev id status v f j); [done..|]. exact Hx.
  - intros h [Hh| ->%list_elem_of_singleton]%elem_of_app; [eauto|]. split; [done|]. simpl. eauto.
  - intros h a [Hh| ->%list_elem_of_singleton]%elem_of_app Ha; [eauto|]. simpl.
    rewrite Hid. intros Ho. by destruct (update_close_open _ _ _ _ _ _ Ha Ho).
Qed.

Lemma covered_finished ev id status v f j X st :
  wf st → j ∈ live st → move_where st id f j →
  covered_except (id :: X) st → covered_except X (finished ev id status v f j st).
Proof.
  intros Hwf Hj Hm Hc. apply (covered_frame _ _ _ _ Hc). intros x (Hx & Hs & Hr) HX. right.
  apply finished_live in Hx as [Hx Hne]; [|done..]. split; [set_solver|]. split; [|done].
  exists x. split; [|done]. split_and!; [done..|]. rewrite <-Hr. symmetry.
  by apply (is_running_close (open_for id) _ _ st id); [intros a _ []|].
Qed.

Section finish.
Context (ev : env) (id : Z) (status : job_status) (v : move_values) (f : fences).

Lemma wf_finish_in st :
  wf st → is_terminal (Some status) = true → wf (_finish_in ev id status v f st).1.
Proof using.
  intros Hwf Ht. destruct (finish_in_cases ev id status v f st Hwf) as [(j & ? & ? & ->)|[_ ->]];
    [|done]. by apply wf_finished.
Qed.

Lemma covered_finish_in_true X st st' :
  wf st → covered_except (id :: X) st →
  _finish_in ev id status v f st = (st', Ok true) → covered_except X st'.
Proof using.
  intros Hwf Hc. destruct (finish_in_cases ev id status v f st Hwf) as [(j & ? & ? & ->)|[_ ->]];
    [|done]. intros [= <-]. by apply covered_finished.
Qed.

Lemma covered_finish_in X st :
  wf st → covered_except X st → covered_except X (_finish_in ev id status v f st).1.
Proof using.
  intros Hwf Hc. destruct (finish_in_cases ev id status v f st Hwf) as [(j & ? & ? & ->)|[_ ->]];
    [|done]. apply covered_finished; [done..|]. by eapply covered_weaken, Hc; set_solver.
Qed.
End finish.

(** ** How a store may change

    [evolves st st']: history only grows, at its end; a live job stays live or is in history,
    with the columns of its specification; an attempt is never removed, and a closed one
    never changes. *)

Record same_attempt (a a' : job_attempt) : Prop := {
  sa_id : at_id a' = at_id a;
  sa_job : at_job_id a' = at_job_id a;
  sa_token : at_token a' = at_token a;
  sa_closed : at_finished_at a ≠ None → a' = a;
}.

#[global] Instance same_attempt_preorder : PreOrder same_attempt.
Proof.
  split; [done|]. intros a b c [Hi Hj Ht Hc] [Hi' Hj' Ht' Hc'].
  split; [congruence..|]. intros Ha. specialize (Hc Ha). subst. auto.
Qed.

Record evolves (st st' : store) : Prop := {
  ev_history : history st `prefix_of` history st';
  ev_live : ∀ j, j ∈ live st →
    ∃ j', (j' ∈ live st' ∨ j' ∈ history st') ∧ j_id j' = j_id j ∧ j_spec j' = j_spec j;
  ev_attempts : ∀ a, a ∈ attempts st → ∃ a', a' ∈ attempts st' ∧ same_attempt a a';
  ev_seq : attempt_seq st <= attempt_seq st';
}.

#[global] Instance evolves_preorder : PreOrder evolves.
Proof.
  split.
  - intros st. split; try done; eauto. intros a Ha. by exists a.
  - intros s1 s2 s3 [Hh Hl Ha Hs] [Hh' Hl' Ha' Hs']. split; [by etrans| | |lia].
    + intros j Hj. destruct (Hl j Hj) as (j2 & [Hj2|Hj2] & Hid & Hsp).
      * destruct (Hl' j2 Hj2) as (j3 & Hj3 & ? & ?). exists j3. intuition congruence.
      * exists j2. split; [|done]. right. by eapply elem_of_prefix.
    + intros a H1. destruct (Ha a H1) as (a2 & H2 & ?).
      destruct (Ha' a2 H2) as (a3 & H3 & ?). exists a3. split; [done|by etrans].
Qed.

Lemma evolves_entries st st' :
  live st' = live st → history st' = history st → attempts st' = attempts st →
  attempt_seq st' = attempt_seq st → evolves st st'.
Proof.
  intros Hl Hh Ha Hs. split; rewrite ?Hl, ?Hh, ?Ha, ?Hs; try done; eauto.
  intros a Hin. by exists a.
Qed.

Lemma evolves_update_attempts (P : job_attempt → Prop) {HD : ∀ a, Decision (P a)} f st :
  (∀ a, a ∈ attempts st → P a → same_attempt a (f a)) →
  evolves st (with_attempts (update_where P f (attempts st)) st).
Proof.
  intros Hf. split; simpl; try done; eauto.
  intros a Ha. eexists. split; [apply elem_of_update_where; eauto|]. by case_decide; [apply Hf|].
Qed.

Lemma evolves_close (P : job_attempt → Prop) {HD : ∀ a, Decision (P a)} now o st :
  (∀ a, P a → at_finished_at a = None) →
  evolves st (with_attempts (update_where P (close_attempt now o) (attempts st)) st).
Proof.
  intros HP. apply evolves_update_attempts. intros a _ Ha. split; try done.
  intros Hn. by destruct Hn; apply HP.
Qed.

Lemma evolves_open_attempt ev id worker st : evolves st (_open_attempt ev id worker st).1.
Proof.
  split; simpl; try done; eauto; [|lia]. intros a Ha. exists a. set_solver.
Qed.

Lemma evolves_update_live (P : queued_job → Prop) {HD : ∀ j, Decision (P j)} f st :
  (∀ j, j_id (f j) = j_id j ∧ j_spec (f j) = j_spec j) →
  evolves st (with_live (update_where P f (live st)) st).
Proof.
  intros Hf. split; simpl; try done.
  - intros j Hj. eexists. split; [left; apply elem_of_update_where; eauto|]. by case_decide.
  - intros a Ha. by exists a.
Qed.

Lemma evolves_finished ev id status v f j st :
  wf st → j ∈ live st → move_where st id f j →
  evolves st (finished ev id status v f j st).
Proof.
  intros Hwf Hj Hm. split; simpl; try done.
  - by apply prefix_app_r.
  - intros x Hx. destruct (decide (j_id x = id)) as [Hid|Hne].
    + rewrite (live_inj st Hwf x j Hx Hj (eq_trans Hid (eq_sym (proj1 Hm)))).
      eexists. split; [right; apply elem_of_app; right; by apply list_elem_of_singleton|done].
    + exists x. split; [|done]. left. by apply (finished_live ev id status v f j).
  - intros a Ha. eexists. split; [apply elem_of_update_where; eauto|].
    case_decide as Ho; [|done]. split; try done. intros Hn. by destruct Ho.
Qed.

(** The invariant, and what each operation is shown to do from a state that satisfies it. *)
Definition inv (X : list Z) (st : store) : Prop := wf st ∧ covered_except X st.

Definition sound (X : list Z) (st st' : store) : Prop := inv X st' ∧ evolves st st'.

(** The ids of the jobs the store knows, live or finished. *)
Definition job_ids (st : store) : list Z := (j_id <$> live st) ++ (j_id <$> history st).

Lemma job_ids_update_live (P : queued_job → Prop) {HD : ∀ j, Decision (P j)} f st :
  (∀ j, j_id (f j) = j_id j) → job_ids (with_live (update_where P f (live st)) st) ⊆ job_ids st.
Proof.
  intros Hf i. unfold job_ids. simpl. rewrite !elem_of_app. intros [Hi|Hi]; [left|by right].
  apply list_elem_of_fmap in Hi as (x & -> & (y & Hy & ->)%elem_of_update_where).
  case_decide; [rewrite Hf|]; by apply (list_elem_of_fmap_2 j_id _ y).
Qed.

(** A step that starts and ends no attempt and adds no job. *)
Record quiet (X : list Z) (st st' : store) : Prop := {
  qu_sound : sound X st st';
  qu_live : live st' ⊆ live st;
  qu_attempts : attempts st' = attempts st;
  qu_seq : attempt_seq st' = attempt_seq st;
  qu_ids : job_ids st' ⊆ job_ids st;
}.

Section preserve.
Context {X : list Z}.

Lemma sound_refl st : inv X st → sound X st st.
Proof. by split. Qed.

Lemma sound_trans st1 st2 st3 : sound X st1 st2 → (inv X st2 → sound X st2 st3) → sound X st1 st3.
Proof. intros [Hi He] Hs. destruct (Hs Hi) as [??]. split; [done|by etrans]. Qed.

Lemma sound_foldl {A} (f : store → A → store) l st :
  inv X st → (∀ st x, inv X st → x ∈ l → sound X st (f st x)) → sound X st (foldl f st l).
Proof.
  revert st. induction l as [|x l IH]; intros st Hi Hf; simpl; [by apply sound_refl|].
  eapply sound_trans; [apply (Hf st x); [done|set_solver]|]. intros Hi'.
  apply IH; [done|]. intros st' y Hst' Hy. apply Hf; [done|set_solver].
Qed.

Lemma quiet_refl st : inv X st → quiet X st st.
Proof. split; [by apply sound_refl|done..]. Qed.

Lemma quiet_trans st1 st2 st3 : quiet X st1 st2 → (inv X st2 → quiet X st2 st3) → quiet X st1 st3.
Proof.
  intros [Hs Hl Ha Hq Hd] H. destruct (H (proj1 Hs)) as [Hs' Hl' Ha' Hq' Hd'].
  split; [by eapply sound_trans|by etrans|congruence..|by etrans].
Qed.

Lemma quiet_inv st st' : quiet X st st' → inv X st'.
Proof. intros [[? _]]. done. Qed.

Lemma quiet_foldl {A} (f : store → A → store) (P : store → A → Prop) l st :
  (∀ st st' x, live st' ⊆ live st → P st x → P st' x) →
  (∀ st x, inv X st → P st x → quiet X st (f st x)) →
  inv X st → Forall (P st) l → quiet X st (foldl f st l).
Proof.
  intros HP Hf. revert st. induction l as [|x l IH]; intros st Hi Hl; simpl; [by apply quiet_refl|].
  apply Forall_cons in Hl as [Hx Hl]. pose proof (Hf st x Hi Hx) as Hq.
  eapply quiet_trans; [done|]. intros Hi'. apply IH; [done|].
  eapply Forall_impl; [done|]. intros y. apply HP, Hq.
Qed.

Lemma finish_in_true_length ev id status v f st st' :
  _finish_in ev id status v f st = (st', Ok true) → S (length (live st')) = length (live st).
Proof.
  unfold _finish_in. destruct (filter (move_where st id f) (live st)) as [|j [|??]] eqn:Hf; try done.
  intros [= <-]. simpl. rewrite <-(length_delete_where (move_where st id f) (live st)).
  unfold rowcount. rewrite Hf. simpl. lia.
Qed.

Lemma finish_in_subset ev id status v f st st' r :
  _finish_in ev id status v f st = (st', r) → live st' ⊆ live st.
Proof.
  unfold _finish_in. destruct (filter (move_where st id f) (live st)) as [|j [|??]];
    intros [= <- <-]; simpl; try done. by intros x [? _]%elem_of_delete_where.
Qed.

Lemma finish_in_ids ev id status v f st st' r :
  _finish_in ev id status v f st = (st', r) → job_ids st' ⊆ job_ids st.
Proof.
  unfold _finish_in. destruct (filter (move_where st id f) (live st)) as [|j [|??]] eqn:Hf;
    intros [= <- <-]; try done.
  assert (j ∈ filter (move_where st id f) (live st)) as [_ Hj]%list_elem_of_filter
    by (rewrite Hf; apply list_elem_of_here).
  intros i. unfold job_ids. simpl. rewrite fmap_app, !elem_of_app. intros [Hi|[Hi|Hi]]; [left|by right|left].
  - apply list_elem_of_fmap in Hi as (x & -> & [Hx _]%elem_of_delete_where). by apply list_elem_of_fmap_2.
  - apply list_elem_of_singleton in Hi as ->. by apply (list_elem_of_fmap_2 j_id _ j Hj).
Qed.

Lemma finish_in_idle_attempts ev id status v f st st' :
  wf st → fe_idle f = true → _finish_in ev id status v f st = (st', Ok true) →
  attempts st' = attempts st ∧ attempt_seq st' = attempt_seq st.
Proof.
  intros Hwf Hidle.
  destruct (finish_in_cases ev id status v f st Hwf) as [(j & Hj & Hm & ->)|[_ ->]]; [|done].
  intros [= <-]. split; [|done]. simpl. apply update_where_none.
  destruct Hm as (Hid & _ & _ & _ & Hr). specialize (Hr Hidle). rewrite Hid in Hr.
  by apply is_running_false.
Qed.

Lemma finish_in_true ev id status v f st st' :
  wf st → covered_except (id :: X) st → is_terminal (Some status) = true →
  _finish_in ev id status v f st = (st', Ok true) →
  wf st' ∧ covered_except X st' ∧ evolves st st'.
Proof.
  intros Hwf Hc Ht Hf. split_and!.
  - pose proof (wf_finish_in ev id status v f st Hwf Ht) as H. by rewrite Hf in H.
  - by eapply covered_finish_in_true.
  - destruct (finish_in_cases ev id status v f st Hwf) as [(j & ? & ? & E)|[_ E]];
      rewrite E in Hf; [|done]. injection Hf as <-. by apply evolves_finished.
Qed.

Lemma drop_entries_job ids st : evolves st (delete_blocked ids (delete_ready ids st)).
Proof. by apply evolves_entries. Qed.

Lemma covered_drop_entries id st :
  covered_except X st → covered_except (id :: X) (delete_blocked [id] (delete_ready [id] st)).
Proof.
  intros Hc. eapply covered_weaken, covered_delete_blocked, covered_delete_ready, Hc. set_solver.
Qed.

(** *** Failing a queued job *)

Section fail_queued.
Context (ev : env) (j : queued_job) (error reason : string) (st : store).

Lemma fail_queued_true st' :
  inv X st → _fail_queued ev j error reason st = (st', Ok true) →
  quiet X st st' ∧ S (length (live st')) = length (live st).
Proof using.
  intros [Hwf Hc] Hf. split; [|by apply finish_in_true_length in Hf].
  assert (attempts st' = attempts st ∧ attempt_seq st' = attempt_seq st) as [Ha Hq].
  { apply (finish_in_idle_attempts) in Hf; [done|by apply wf_delete_blocked, wf_delete_ready|done]. }
  assert (live st' ⊆ live st) as Hl by (by apply finish_in_subset in Hf).
  assert (job_ids st' ⊆ job_ids st) as Hids by (by apply finish_in_ids in Hf).
  split; [clear Ha Hq Hl Hids|done..].
  apply (finish_in_true) in Hf as (? & ? & He); [| |by apply covered_drop_entries|done].
  - split; [by split|]. etrans; [apply (drop_entries_job [j_id j])|done].
  - by apply wf_delete_blocked, wf_delete_ready.
Qed.

(** It succeeds on a waiting job, and it never raises. *)
Lemma fail_queued_waiting :
  wf st → waiting st j → ∃ st', _fail_queued ev j error reason st = (st', Ok true).
Proof using.
  intros Hwf (Hj & Hs & Hr). unfold _fail_queued.
  match goal with |- context [_finish_in _ ?id ?s ?v ?f ?st1] =>
    destruct (finish_in_cases ev id s v f st1) as [(j' & _ & _ & ->)|[Hn _]] end.
  - by apply wf_delete_blocked, wf_delete_ready.
  - eauto.
  - exfalso. apply (Hn j Hj). split_and!; simpl; try done. by rewrite Hs, list_elem_of_singleton.
Qed.

Lemma fail_queued_no_error :
  wf st → ∃ st' b, _fail_queued ev j error reason st = (st', Ok b).
Proof using.
  intros Hwf. unfold _fail_queued.
  match goal with |- context [_finish_in _ ?id ?s ?v ?f ?st1] =>
    destruct (finish_in_cases ev id s v f st1) as [(j' & _ & _ & ->)|[Hn ->]] end;
    [auto with sqlery|eauto..].
Qed.
End fail_queued.

(** Entries of a job that is not waiting may go. *)
Lemma covered_drop_idle id st :
  (∀ j, waiting st j → j_id j ≠ id) → covered_except (id :: X) st → covered_except X st.
Proof.
  intros Hn Hc j Hj. destruct (Hc j Hj) as [[Hid|?]%elem_of_cons|?]; auto.
  by destruct (Hn j Hj).
Qed.

Lemma finish_in_gone ev id status v f st st' :
  wf st → _finish_in ev id status v f st = (st', Ok true) → ∀ x, x ∈ live st' → j_id x ≠ id.
Proof.
  intros Hwf. destruct (finish_in_cases ev id status v f st Hwf) as [(j & Hj & Hm & ->)|[_ ->]];
    [|done]. intros [= <-] x Hx. by apply finished_live in Hx as [_ ?].
Qed.

Lemma finish_in_ready ev id status v f st st' r :
  _finish_in ev id status v f st = (st', r) → ready st' = ready st.
Proof.
  unfold _finish_in. by destruct (filter (move_where st id f) (live st)) as [|j [|??]];
    intros [= <- <-].
Qed.

(** Entries of a job that is gone or no longer waits may be deleted. *)
Lemma quiet_delete_ready ids st :
  inv X st → (∀ j, waiting st j → j_id j ∉ ids) → quiet X st (delete_ready ids st).
Proof.
  intros [Hwf Hc] Hn. split; [|done..]. split; [split|by apply evolves_entries].
  - by apply wf_delete_ready.
  - intros j Hj. destruct (covered_delete_ready ids X st Hc j Hj) as [[Hin|Hin]%elem_of_app|];
      [|by left|by right]. by destruct (Hn j Hj).
Qed.

Lemma quiet_delete_entry slot id st :
  inv X st → (∀ j, waiting st j → j_id j ≠ id) → quiet X st (delete_entry slot id st).
Proof.
  intros [Hwf Hc] Hn. split; [|done..]. split; [split|by apply evolves_entries].
  - by apply wf_delete_entry.
  - apply (covered_drop_idle id); [done|]. by apply covered_delete_entry.
Qed.

(** ** The second half of a claim *)

Lemma start_attempt_claimed ev j worker st st' h :
  _start_attempt ev j worker st = (st', SClaimed h) →
  e_row_locked ev (j_id j) = false ∧ _is_running st (j_id j) = false ∧
  (∃ row, job_by_key st (j_id j) (j_created_at j) = Some row ∧
     j_status row = Queued ∧ j_version row = j_version j) ∧
  _open_attempt ev (j_id j) worker st = (st', h).
Proof.
  unfold _start_attempt, lock_job_row. destruct (e_row_locked ev (j_id j)); [done|].
  destruct (job_by_key st (j_id j) (j_created_at j)) as [row|]; [|done].
  destruct (claim_verdict _ _ _ _) eqn:Hv; [|by case_match].
  apply claim_verdict_ok in Hv as (Hs & Hr & Hver). simpl in Hver. injection Hs as Hs.
  intros [= <- <-]. split_and!; eauto.
Qed.

Lemma start_attempt_keep ev j worker st st' :
  _start_attempt ev j worker st = (st', SKeep) →
  st' = st ∧ ∃ row, job_by_key st (j_id j) (j_created_at j) = Some row ∧
    (j_status row ≠ Queued ∨ _is_running st (j_id j) = true).
Proof.
  unfold _start_attempt, lock_job_row. destruct (e_row_locked ev (j_id j)); [done|].
  destruct (job_by_key st (j_id j) (j_created_at j)) as [row|]; [|done].
  destruct (claim_verdict _ _ _ _); [done|].
  destruct (negb _ || _) eqn:Hk; [|done]. intros [= <-]. split; [done|]. exists row.
  split; [done|]. apply orb_true_iff in Hk as [Hk|Hk]; [left|by right].
  by apply negb_true_iff, bool_decide_eq_false in Hk.
Qed.

(** Opening an attempt on a job that waits, after its entries are deleted. *)
Lemma open_attempt_sound ev id worker st0 st :
  wf st → covered_except (id :: X) st → evolves st0 st → _is_running st id = false →
  (∃ j, j ∈ live st ∧ j_id j = id) →
  sound X st0 (_open_attempt ev id worker st).1.
Proof.
  intros Hwf Hc He Hr Hj. split; [split|].
  - by apply wf_open_attempt.
  - by apply covered_open_attempt.
  - etrans; [done|apply evolves_open_attempt].
Qed.

End preserve.

(** The reflexive cases, the invariant of a state from the step that led to it, and its
    well-formedness. *)
Lemma inv_wf X st : inv X st → wf st.
Proof. by intros []. Qed.
#[export] Hint Resolve sound_refl quiet_refl inv_wf : sqlery.
#[export] Hint Extern 1 (inv _ _) => split; assumption : sqlery.
#[export] Hint Extern 2 (inv _ _) => eapply quiet_inv; eassumption : sqlery.

Lemma quiet_waiting {X} st st' j : quiet X st st' → waiting st' j → waiting st j.
Proof.
  intros [_ Hl Ha _] (Hj & Hs & Hr). split_and!; [by apply Hl|done|].
  unfold _is_running in *. by rewrite <-Ha.
Qed.

(** What survives even the replacement of a named job: history and the attempts. *)
Record persists (st st' : store) : Prop := {
  pe_history : history st `prefix_of` history st';
  pe_attempts : ∀ a, a ∈ attempts st → ∃ a', a' ∈ attempts st' ∧ same_attempt a a';
  pe_seq : attempt_seq st <= attempt_seq st';
}.

#[global] Instance persists_preorder : PreOrder persists.
Proof.
  split.
  - intros st. split; try done. intros a Ha. by exists a.
  - intros s1 s2 s3 [Hh Ha Hs] [Hh' Ha' Hs']. split; [by etrans| |lia].
    intros a H1. destruct (Ha a H1) as (a2 & H2 & ?).
    destruct (Ha' a2 H2) as (a3 & H3 & ?). exists a3. split; [done|by etrans].
Qed.

Lemma evolves_persists st st' : evolves st st' → persists st st'.
Proof. by intros []. Qed.

Lemma persists_attempts st st' :
  history st' = history st → attempts st' = attempts st → attempt_seq st' = attempt_seq st →
  persists st st'.
Proof.
  intros Hh Ha Hs. split; rewrite ?Hh, ?Ha, ?Hs; try done. intros a Hin. by exists a.
Qed.
