(* ===== verification/Dependents.v ===== *)
(** * Blocked jobs and their release (fastapi_sqlery/backend.py)

    [_recheck_blocked], [_dependents_of], [release_dependents] and [block_job]: a job that
    waits on dependencies is out of the ready table until one of them reaches a terminal
    state, and is then moved back, failed, or left blocked. *)

From S2P Require Import Prelude Sql PyString Models Retry Attempts Ready History Store StoreInv.
#[local] Open Scope string_scope.
#[local] Open Scope Z_scope.

Inductive recheck_outcome : Type := RReady | RFailed | RBlocked | RGone.

(** Re-judge one blocked job. *)
Definition _recheck_blocked (ev : env) (id : Z) (created : time) (st : store)
    : store * result store_error recheck_outcome :=
  match job_by_key st id created with
  | None => (delete_blocked [id] st, Ok RGone)
  | Some j =>
      if negb (bool_decide (j_status j = Queued)) || _is_running st id
      then (delete_blocked [id] st, Ok RGone)
      else
        let v := _judge_dependencies st (dependency_ids (j_spec j)) in
        match dv_state v with
        | PENDING => (st, Ok RBlocked)
        | FAILED =>
            match _fail_queued ev j (dependency_error v) "dependency_failed" st with
            | (st', Ok _) => (st', Ok RFailed)
            | (_, Err e) => (st, Err e)
            end
        | MET => (write_ready ev [j] false (delete_blocked [id] st), Ok RReady)
        end
  end.

(** The retry ancestors of a job, newest first ([ids] grows at the end). *)
Fixpoint ancestors (hops : nat) (st : store) (ids : list Z) (parent : option Z) : list Z :=
  match hops, parent with
  | S hops, Some p =>
      if decide (p = 0 ∨ p ∈ ids) then ids
      else ancestors hops st (ids ++ [p]) (anywhere_by_id st p ≫= λ j, j_parent j)
  | _, _ => ids
  end.

(** [(job_id, created_at)] of the jobs blocked on a job or on one of its retry ancestors *)
Definition _dependents_of (st : store) (id : Z) (parent : option Z) : list (Z * Z) :=
  let ids := ancestors MAX_CHAIN_HOPS st [id] parent in
  remove_dups ((λ b, (bl_job_id b, bl_created_at b)) <$>
    filter (λ b, bl_dependency_id b ∈ ids) (blocked st)).

(** Re-check the dependents of one job: failed ones are pushed on the work stack. *)
Fixpoint recheck_all (ev : env) (rows : list (Z * Z)) (work : list (Z * option Z))
    (released : Z) (st : store)
    : store * result store_error (list (Z * option Z) * Z) :=
  match rows with
  | [] => (st, Ok (work, released))
  | (id, created) :: rows =>
      match _recheck_blocked ev id created st with
      | (st', Err e) => (st', Err e)
      | (st', Ok RReady) => recheck_all ev rows work (released + 1) st'
      | (st', Ok RFailed) => recheck_all ev rows ((id, None) :: work) released st'
      | (st', Ok _) => recheck_all ev rows work released st'
      end
  end.

(** The result of a loop that runs on fuel. *)
Inductive loop_result (A : Type) : Type :=
  | Done (a : A)
  | Raised (e : store_error)
  | OutOfFuel.
Arguments Done {A} a.
Arguments Raised {A} e.
Arguments OutOfFuel {A}.

(** [while work: pop ..]; [work] is the stack with its top first. *)
Fixpoint release_loop (fuel : nat) (ev : env) (work : list (Z * option Z)) (seen : list Z)
    (released : Z) (st : store) : store * loop_result Z :=
  match work with
  | [] => (st, Done released)
  | (current, parent) :: work =>
      match fuel with
      | O => (st, OutOfFuel)
      | S fuel =>
          if decide (current ∈ seen) then release_loop fuel ev work seen released st
          else
            match recheck_all ev (_dependents_of st current parent) work released st with
            | (st', Err e) => (st', Raised e)
            | (st', Ok (work', released')) =>
                release_loop fuel ev work' (current :: seen) released' st'
            end
      end
  end.

(** Every pop removes one item and every push moves one live job to history, so the number
    of live jobs plus one is enough fuel ([release_loop_quiet]). *)
Definition release_dependents (ev : env) (id : Z) (parent : option Z) (st : store)
    : store * loop_result Z :=
  release_loop (S (length (live st))) ev [(id, parent)] [] 0 st.

(** Never raises: what was committed before an error stays. *)
Definition _release_dependents_quietly (ev : env) (id : Z) (parent : option Z) (st : store) : store :=
  (release_dependents ev id parent st).1.

Definition _recheck_blocked_quietly (ev : env) (id : Z) (created : time) (st : store) : store :=
  (_recheck_blocked ev id created st).1.

(** Move a ready job whose dependencies are unmet to the blocked set, then re-check it. *)
Definition block_job (ev : env) (j : queued_job) (st : store) : store * bool :=
  match blocked_rows j (e_now ev) with
  | [] => (st, false)
  | _ =>
      if decide (rowcount (entry_of [j_id j]) (ready st) < 1)%nat then (st, false)
      else
        let st := delete_ready [j_id j] st in
        let st := default st (insert_blocked j (e_now ev) st) in
        (_recheck_blocked_quietly ev (j_id j) (j_created_at j) st, true)
  end.

(** ** What the operations preserve *)

Section preserve.
Context {X : list Z}.

Lemma waiting_by_key st id created j :
  wf st → job_by_key st id created = Some j →
  negb (bool_decide (j_status j = Queued)) || _is_running st id = false →
  waiting st j ∧ j_id j = id ∧ j_created_at j = created.
Proof.
  intros Hwf (Hj & Hid & Hc)%job_by_key_Some [Hs Hr]%orb_false_iff; [|done].
  apply negb_false_iff, bool_decide_eq_true in Hs. subst id. by split.
Qed.

Section recheck.
Context (ev : env) (Hev : env_ok ev).

(** A re-check deletes blocked rows only of a job that no longer waits on them. *)
Lemma recheck_blocked_quiet id created st st' r :
  inv X st → (∀ j, waiting st j → j_id j = id → j_created_at j = created) →
  _recheck_blocked ev id created st = (st', r) →
  quiet X st st' ∧
  (∃ o, r = Ok o ∧
     match o with
     | RFailed => S (length (live st')) = length (live st)
     | _ => live st' = live st
     end).
Proof using Hev.
  intros [Hwf Hc] Hcr Hrun. unfold _recheck_blocked in Hrun.
  assert ((∀ j, waiting st j → j_id j ≠ id) → quiet X st (delete_blocked [id] st)) as Hgone.
  { intros Hn. split; [|done..]. split; [split|by apply evolves_entries].
    - by apply wf_delete_blocked.
    - apply (covered_drop_idle id); [done|].
      by apply (covered_delete_blocked [id] X). }
  destruct (job_by_key st id created) as [j|] eqn:Hk.
  2: { injection Hrun as <- <-. split; [|by eexists]. apply Hgone. intros j Hw Hid.
       apply (proj1 (job_by_key_None st id created) Hk j); [apply Hw|]. auto. }
  destruct (negb (bool_decide (j_status j = Queued)) || _is_running st id) eqn:Hidle.
  { injection Hrun as <- <-. split; [|by eexists]. apply Hgone. intros j' (Hj' & Hs' & Hr') Hid'.
    apply job_by_key_Some in Hk as (Hj & Hid & _); [|done].
    assert (j' = j) as -> by (eapply live_inj; eauto; congruence).
    rewrite Hs', bool_decide_true, <-Hid, Hr' in Hidle by done. done. }
  destruct (waiting_by_key _ _ _ _ Hwf Hk Hidle) as (Hw & Hid & Hcreated).
  destruct (dv_state _) eqn:Hv.
  - injection Hrun as <- <-. split; [|by eexists]. split; [|done..].
    split; [split|by apply evolves_entries].
    + apply wf_write_ready; [done|by apply wf_delete_blocked|].
      intros j' ->%list_elem_of_singleton. by apply knows_live; [apply wf_delete_blocked|apply Hw].
    + apply covered_write_ready. rewrite Hid. by apply (covered_delete_blocked [id] X).
  - injection Hrun as <- <-. split; [auto with sqlery|by eexists].
  - edestruct (fail_queued_waiting ev j) as [st1 Hf]; [done..|]. rewrite Hf in Hrun.
    injection Hrun as <- <-. apply (fail_queued_true (X:=X)) in Hf as [Hq Hl]; [|done].
    split; [done|]. by eexists.
Qed.

(** [(job_id, created_at)] names the live row of the job, if there is one. *)
Definition row_ok (st : store) (row : Z * Z) : Prop :=
  ∀ j, j ∈ live st → j_id j = row.1 → j_created_at j = row.2.

Lemma row_ok_subset st st' row : live st' ⊆ live st → row_ok st row → row_ok st' row.
Proof using. intros Hs Hr j Hj. auto. Qed.

Lemma recheck_all_quiet rows work released st :
  inv X st → Forall (row_ok st) rows →
  ∃ st' work' released',
    recheck_all ev rows work released st = (st', Ok (work', released')) ∧ quiet X st st' ∧
    (length work' + length (live st') = length work + length (live st))%nat.
Proof using Hev.
  revert work released st. induction rows as [|[id created] rows IH];
    intros work released st Hinv Hrows; simpl.
  { do 3 eexists. split; [done|]. split; [auto with sqlery|done]. }
  apply Forall_cons in Hrows as [Hrow Hrows].
  destruct (_recheck_blocked ev id created st) as [st1 r] eqn:Hr.
  apply (recheck_blocked_quiet) in Hr as [Hq (o & -> & Ho)]; [|done|intros j [Hj _]; by apply Hrow].
  assert (Forall (row_ok st1) rows) as Hrows1.
  { eapply Forall_impl; [done|]. intros row. apply row_ok_subset, Hq. }
  destruct o.
  1: specialize (IH work (released + 1) st1).
  2: specialize (IH ((id, None) :: work) released st1).
  3,4: specialize (IH work released st1).
  all: destruct IH as (st2 & work2 & rel2 & Heq & Hq2 & Hlen2); [eauto with sqlery|done|];
    exists st2, work2, rel2; split_and!; [done|by eapply quiet_trans|]; simpl in *;
    congruence || lia.
Qed.

Lemma dependents_rows_ok st id parent : wf st → Forall (row_ok st) (_dependents_of st id parent).
Proof using.
  intros Hwf. apply Forall_forall. intros row Hrow. unfold _dependents_of in Hrow.
  apply elem_of_remove_dups, list_elem_of_fmap in Hrow as (b & -> & Hb).
  apply list_elem_of_filter in Hb as [_ Hb]. intros j Hj Hid. simpl in *.
  symmetry. by eapply wf_blocked_created.
Qed.

(** Work and live jobs together bound the loop: each round pops one item, and each push
    moved a job out of the live table. *)
Lemma release_loop_quiet fuel work seen released st :
  inv X st → (length work + length (live st) <= fuel)%nat →
  ∃ st' n, release_loop fuel ev work seen released st = (st', Done n) ∧ quiet X st st'.
Proof using Hev.
  revert work seen released st.
  induction fuel as [|fuel IH]; intros [|[id parent] work] seen released st Hinv Hfuel; simpl in *;
    try (do 2 eexists; split; [done|auto with sqlery]); [lia|].
  case_decide; [apply IH; [done|lia]|].
  destruct (recheck_all_quiet (_dependents_of st id parent) work released st)
    as (st1 & work1 & rel1 & -> & Hq & Hlen); [done|by apply dependents_rows_ok, Hinv|].
  destruct (IH work1 (id :: seen) rel1 st1) as (st2 & n & -> & Hq2);
    [eauto with sqlery|lia|].
  do 2 eexists. split; [done|by eapply quiet_trans].
Qed.

Lemma release_dependents_quiet id parent st :
  inv X st → ∃ st' n, release_dependents ev id parent st = (st', Done n) ∧ quiet X st st'.
Proof using Hev. intros Hinv. apply release_loop_quiet; [done|simpl; lia]. Qed.

Lemma release_quietly_quiet id parent st :
  inv X st → quiet X st (_release_dependents_quietly ev id parent st).
Proof using Hev.
  intros Hinv. unfold _release_dependents_quietly.
  by destruct (release_dependents_quiet id parent st Hinv) as (st' & n & -> & Hq).
Qed.

Lemma release_quietly_sound id parent st :
  inv X st → sound X st (_release_dependents_quietly ev id parent st).
Proof using Hev. intros Hinv. by apply release_quietly_quiet. Qed.

Lemma recheck_quietly_quiet id created st :
  inv X st → row_ok st (id, created) → quiet X st (_recheck_blocked_quietly ev id created st).
Proof using Hev.
  intros Hinv Hrow. unfold _recheck_blocked_quietly.
  destruct (_recheck_blocked ev id created st) as [st1 r] eqn:Hr.
  by apply (recheck_blocked_quiet) in Hr as [Hq _]; [|done|intros j [Hj _]; apply Hrow].
Qed.

Lemma block_job_sound j st : inv X st → knows st j → sound X st (block_job ev j st).1.
Proof using Hev.
  intros Hinv Hk. pose proof Hinv as [Hwf Hc]. unfold block_job.
  destruct (blocked_rows j (e_now ev)) as [|b rows] eqn:Hr; [auto with sqlery|].
  case_decide; [auto with sqlery|]. simpl.
  destruct (insert_blocked j (e_now ev) (delete_ready [j_id j] st)) as [st1|] eqn:Hi;
    [|unfold insert_blocked in Hi; by rewrite Hr in Hi]. simpl.
  assert (live st1 = live st ∧ evolves st st1) as [Hl He].
  { unfold insert_blocked in Hi. rewrite Hr in Hi. injection Hi as <-.
    split; [done|by apply evolves_entries]. }
  eapply (sound_trans _ st1); [split; [split|done]|].
  - eapply wf_insert_blocked; [by apply wf_delete_ready| |done]. done.
  - eapply covered_insert_blocked; [done|]. by apply (covered_delete_ready [_] X).
  - intros Hinv1. apply recheck_quietly_quiet; [done|]. intros j' Hj' Hid. simpl in *.
    rewrite Hl in Hj'. by rewrite (Hk j' Hj' Hid).
Qed.
End recheck.

End preserve.
