(* ===== verification/Claim.v ===== *)
(** * Claiming (fastapi_sqlery/backend.py)

    [claim_job] scans the ready table in claim order, one transaction per candidate;
    [claim_job_by_id] and [atomic_claim_job] claim a given job. *)

From S2P Require Import Prelude Sql PyString Models Retry Attempts Ready History Store StoreInv Dependents.
#[local] Open Scope string_scope.
#[local] Open Scope Z_scope.

Inductive claim_decision : Type := DOk | DPending | DExpired | DFailed.

(** [if ttl and (now - created).total_seconds() > ttl] *)
Definition ttl_expired (now : time) (j : queued_job) : bool :=
  match js_ttl (j_spec j) with
  | Some t => negb (t =? 0) && (seconds t <? now - j_created_at j)
  | None => false
  end.

(** [f"Job expired after {ttl}s in queue (ttl)"] *)
Definition ttl_error (j : queued_job) : string :=
  String.append "Job expired after "
    (String.append (py_str_int (default 0 (js_ttl (j_spec j)))) "s in queue (ttl)").

Definition _claim_decision (ev : env) (j : queued_job) (st : store)
    : store * result store_error claim_decision :=
  if ttl_expired (e_now ev) j then
    match _fail_queued ev j (ttl_error j) "expired" st with
    | (st', Ok _) => (st', Ok DExpired)
    | (_, Err e) => (st, Err e)
    end
  else
    match dependency_ids (j_spec j) with
    | [] => (st, Ok DOk)
    | deps =>
        let v := _judge_dependencies st deps in
        match dv_state v with
        | FAILED =>
            match _fail_queued ev j (dependency_error v) "dependency_failed" st with
            | (st', Ok _) => (st', Ok DFailed)
            | (_, Err e) => (st, Err e)
            end
        | PENDING => (st, Ok DPending)
        | MET => (st, Ok DOk)
        end
    end.

(** The outcome of one candidate. *)
Inductive iter_result : Type :=
  | IterDone
  | IterSkip (c : Z * Z * Z) (moved : option (Z * Z)) (failed : option Z)
  | IterClaimed (j : queued_job) (h : AttemptHandle)
  | IterErr (e : store_error).

(** The job under an entry: by primary key, else by id alone. *)
Definition job_of_entry (st : store) (e : job_ready) : option queued_job :=
  match job_by_key st (re_job_id e) (re_created_at e) with
  | Some j => Some j
  | None => job_by_id st (re_job_id e)
  end.

Definition entry_cursor (e : job_ready) : Z * Z * Z := (re_priority e, re_created_at e, re_job_id e).

(** One transaction of the claim scan: the next entry after the cursor. *)
Definition claim_iter (ev : env) (queues : list string) (worker : option Z)
    (c : option (Z * Z * Z)) (st : store) : store * iter_result :=
  match next_entry ev queues c (ready st) with
  | None => (st, IterDone)
  | Some e =>
      let id := re_job_id e in
      let c' := entry_cursor e in
      let without := delete_entry (re_slot e) id st in
      match job_of_entry st e with
      | None => (without, IterSkip c' None None)
      | Some j =>
          if negb (bool_decide (j_status j = Queued)) || _is_running st id
          then (without, IterSkip c' None None)
          else
            match _claim_decision ev j st with
            | (_, Err er) => (st, IterErr er)
            | (st1, Ok DExpired) => (delete_ready [id] st1, IterSkip c' None (Some id))
            | (st1, Ok DFailed) => (delete_ready [id] st1, IterSkip c' None (Some id))
            | (_, Ok DPending) =>
                match insert_blocked j (e_now ev) without with
                | None => (st, IterSkip c' None None)
                | Some st1 =>
                    if decide (rowcount (is_entry (re_slot e) id) (ready st) = 1%nat)
                    then (st1, IterSkip c' (Some (id, re_created_at e)) None)
                    else (without, IterSkip c' None None)
                end
            | (_, Ok DOk) =>
                if _tag_limited ev j st then (st, IterSkip c' None None)
                else if decide (rowcount (is_entry (re_slot e) id) (ready st) = 1%nat) then
                  match _start_attempt ev j worker without with
                  | (st1, SClaimed h) => (st1, IterClaimed (_as_running j h) h)
                  | (st1, SKeep) => (st1, IterSkip c' None None)
                  | (_, SRestore) => (st, IterSkip c' None None)
                  end
                else (without, IterSkip c' None None)
            end
      end
  end.

(** What the scan leaves for after its transactions. *)
Record scan_state : Type := {
  sc_blocked : list (Z * Z);
  sc_failed : list Z;
}.

Definition scan_add (moved : option (Z * Z)) (failed : option Z) (s : scan_state) : scan_state :=
  {| sc_blocked := sc_blocked s ++ option_list moved;
     sc_failed := sc_failed s ++ option_list failed |}.

Fixpoint claim_scan (fuel : nat) (ev : env) (queues : list string) (worker : option Z)
    (c : option (Z * Z * Z)) (s : scan_state) (st : store)
    : store * scan_state * loop_result (option (queued_job * AttemptHandle)) :=
  match fuel with
  | O => (st, s, OutOfFuel)
  | S fuel =>
      match claim_iter ev queues worker c st with
      | (st', IterDone) => (st', s, Done None)
      | (st', IterClaimed j h) => (st', s, Done (Some (j, h)))
      | (st', IterErr e) => (st', s, Raised e)
      | (st', IterSkip c' moved failed) =>
          claim_scan fuel ev queues worker (Some c') (scan_add moved failed s) st'
      end
  end.

(** The cursor moves strictly forward over entries of the table, and the scan inserts none,
    so one step more than the number of entries is enough fuel ([claim_scan_spec]). *)
Definition _claim_from_ready (ev : env) (queues : list string) (worker : option Z) (st : store) :=
  claim_scan (S (length (ready st))) ev queues worker None
    {| sc_blocked := []; sc_failed := [] |} st.

(** The [finally] block: re-check what was blocked, release the dependents of what failed. *)
Definition claim_cleanup (ev : env) (s : scan_state) (st : store) : store :=
  let st := foldl (λ st '(id, created), _recheck_blocked_quietly ev id created st) st (sc_blocked s) in
  foldl (λ st id, _release_dependents_quietly ev id None st) st (sc_failed s).

Definition claim_job (ev : env) (queues : list string) (worker : option Z) (st : store)
    : store * loop_result (option (queued_job * AttemptHandle)) :=
  let '(st', s, r) := _claim_from_ready ev queues worker st in
  (claim_cleanup ev s st', r).

(** [held] is empty while an entry exists: another transaction is claiming it. *)
Definition claim_job_by_id (ev : env) (id : Z) (worker : option Z) (st : store)
    : store * option (queued_job * AttemptHandle) :=
  if e_entry_locked ev id && exists_where (entry_of [id]) (ready st) then (st, None)
  else
    match job_by_id st id with
    | None => (st, None)
    | Some j =>
        if negb (bool_decide (j_status j = Queued)) || _is_running st id then (st, None)
        else
          match _start_attempt ev j worker (delete_blocked [id] (delete_ready [id] st)) with
          | (st', SClaimed h) => (st', Some (_as_running j h, h))
          | _ => (st, None)
          end
    end.

Definition atomic_claim_job (ev : env) (j : queued_job) (worker : option Z) (st : store)
    : store * option (queued_job * AttemptHandle) :=
  if decide (rowcount (entry_of [j_id j]) (ready st) < 1)%nat then (st, None)
  else
    match _start_attempt ev j worker (delete_ready [j_id j] st) with
    | (st', SClaimed h) => (st', Some (_as_running j h, h))
    | (st', SKeep) => (st', None)
    | (_, SRestore) => (st, None)
    end.

(** The waiting job under an entry (joined on the primary key). *)
Definition waiting_job_of (st : store) (e : job_ready) : option queued_job :=
  j ← job_by_key st (re_job_id e) (re_created_at e);
  if waiting_clause (attempts st) j then Some j else None.

(** The candidates the framework-agnostic scan reads: the waiting jobs under the due entries,
    in claim order. *)
Definition get_claimable_jobs (ev : env) (queues : list string) (limit : nat)
    (exclude_ids : list Z) (st : store) : list queued_job :=
  take limit (order_by entry_le (filter (λ e,
      entry_due queues (e_now ev) e ∧ re_job_id e ∉ exclude_ids ∧
      e_entry_locked ev (re_job_id e) = false ∧ is_Some (waiting_job_of st e)) (ready st)))
  ≫= λ e, option_list (waiting_job_of st e).

(** ** One candidate *)

Section preserve.
Context {X : list Z}.

Lemma is_waiting st j id :
  j ∈ live st → j_id j = id →
  negb (bool_decide (j_status j = Queued)) || _is_running st id = false → waiting st j.
Proof.
  intros Hj Hid [Hs Hr]%orb_false_iff. apply negb_false_iff, bool_decide_eq_true in Hs.
  subst id. by split.
Qed.

Lemma not_waiting st j id :
  wf st → j ∈ live st → j_id j = id →
  negb (bool_decide (j_status j = Queued)) || _is_running st id = true →
  ∀ j', waiting st j' → j_id j' ≠ id.
Proof.
  intros Hwf Hj Hid Hn j' (Hj' & Hs & Hr) Hid'.
  assert (j' = j) as -> by (eapply live_inj; eauto; congruence).
  rewrite Hs, bool_decide_true, <-Hid, Hr in Hn by done. done.
Qed.

Lemma job_of_entry_Some st e j :
  wf st → job_of_entry st e = Some j → j ∈ live st ∧ j_id j = re_job_id e.
Proof.
  intros Hwf. unfold job_of_entry. destruct (job_by_key _ _ _) eqn:Hk.
  - intros [= ->]. apply job_by_key_Some in Hk as (?&?&?); [|done]. done.
  - by intros ?%job_by_id_Some.
Qed.

Lemma job_of_entry_None st e j : job_of_entry st e = None → j ∈ live st → j_id j ≠ re_job_id e.
Proof.
  unfold job_of_entry. destruct (job_by_key _ _ _); [done|]. rewrite job_by_id_None. auto.
Qed.

(** The next entry is a due entry after the cursor. *)
Lemma next_entry_Some ev queues c r e :
  next_entry ev queues c r = Some e →
  e ∈ r ∧ entry_due queues (e_now ev) e ∧ after_cursor c e ∧
  e_entry_locked ev (re_job_id e) = false.
Proof.
  unfold next_entry. intros He%head_Some_elem_of. apply elem_of_order_by in He.
  apply list_elem_of_filter in He. naive_solver.
Qed.

Lemma entry_rowcount r e :
  NoDup (ready_key <$> r) → e ∈ r → rowcount (is_entry (re_slot e) (re_job_id e)) r = 1%nat.
Proof.
  intros Hn He.
  assert (∀ x, x ∈ r → is_entry (re_slot e) (re_job_id e) x → x = e) as Huniq.
  { intros x Hx [Hs Hi]. eapply (NoDup_fmap_inj ready_key); eauto.
    unfold ready_key. congruence. }
  unfold rowcount. induction r as [|x r IH]; [by apply elem_of_nil in He|].
  rewrite fmap_cons in Hn. apply NoDup_cons in Hn as [Hx Hn].
  rewrite filter_cons. apply elem_of_cons in He as [->|He].
  - rewrite decide_True by done. simpl. f_equal. rewrite filter_none; [done|].
    intros y Hy Hey. destruct Hx. rewrite <-(Huniq y) by (done || set_solver).
    by apply (list_elem_of_fmap_2 ready_key).
  - rewrite decide_False; [apply IH; auto; set_solver|].
    intros Hex. destruct Hx. rewrite (Huniq x) by (done || set_solver).
    by apply (list_elem_of_fmap_2 ready_key).
Qed.

Section decision.
Context (ev : env) (j : queued_job) (st : store) (Hinv : inv X st) (Hw : waiting st j).

(** A failed candidate has left the live table. *)
Lemma claim_fail_quiet error reason st' r :
  _fail_queued ev j error reason st = (st', r) →
  r = Ok true ∧ quiet X st (delete_ready [j_id j] st') ∧ ready st' `sublist_of` ready st.
Proof using Hinv Hw.
  intros Hf. destruct (fail_queued_waiting ev j error reason st (proj1 Hinv) Hw) as [st1 Hf1].
  rewrite Hf1 in Hf. injection Hf as <- <-. split; [done|].
  pose proof Hf1 as Hf2. pose proof Hf1 as Hf3.
  apply (fail_queued_true (X:=X)) in Hf1 as [Hq _]; [|done].
  assert (∀ x, x ∈ live st1 → j_id x ≠ j_id j) as Hgone.
  { eapply finish_in_gone; [|exact Hf2]. eauto with sqlery. }
  apply finish_in_ready in Hf3. split.
  - eapply quiet_trans; [done|]. intros Hi. apply quiet_delete_ready; [done|].
    intros x (Hx & _) Hid%list_elem_of_singleton. by destruct (Hgone x Hx).
  - rewrite Hf3. apply sublist_filter.
Qed.

Lemma claim_decision_spec st' r :
  _claim_decision ev j st = (st', r) →
  match r with
  | Err _ => False
  | Ok DOk => st' = st ∧ ttl_expired (e_now ev) j = false ∧
      dv_state (_judge_dependencies st (dependency_ids (j_spec j))) = MET
  | Ok DPending => st' = st ∧ dependency_ids (j_spec j) ≠ []
  | Ok _ => ∃ error reason b, _fail_queued ev j error reason st = (st', Ok b)
  end.
Proof using Hinv Hw.
  assert (∀ error reason st1 e, _fail_queued ev j error reason st ≠ (st1, Err e)) as Hne.
  { intros error reason st1 e Hf. by apply claim_fail_quiet in Hf as [? _]. }
  unfold _claim_decision. destruct (ttl_expired (e_now ev) j).
  { destruct (_fail_queued _ _ _ _ _) as [st1 [b|]] eqn:Hf; [|by apply Hne in Hf].
    intros [= <- <-]. eauto. }
  destruct (dependency_ids (j_spec j)) as [|d deps]; [by intros [= <- <-]|].
  destruct (dv_state _) eqn:Hv; [by intros [= <- <-]..|].
  destruct (_fail_queued _ _ _ _ _) as [st1 [b|]] eqn:Hf; [|by apply Hne in Hf].
  intros [= <- <-]. eauto.
Qed.
End decision.

(** What a candidate that is not claimed leaves behind: only its own job and its own entries
    may be gone, and no entry is new. *)
Record skipped (e : job_ready) (moved : option (Z * Z)) (st st' : store) : Prop := {
  sk_quiet : quiet X st st';
  sk_ready : ready st' `sublist_of` ready st;
  sk_moved : Forall (row_ok st') (option_list moved);
  sk_keep_live : ∀ j, j ∈ live st → j_id j ≠ re_job_id e → j ∈ live st';
  sk_keep_ready : ∀ x, x ∈ ready st → re_job_id x ≠ re_job_id e → x ∈ ready st';
}.

(** What a successful claim found and did. *)
Record claimed (ev : env) (worker : option Z) (e : job_ready) (j0 j : queued_job)
    (h : AttemptHandle) (st st' : store) : Prop := {
  cl_entry : re_job_id e = j_id j0;
  cl_waiting : waiting st j0;
  cl_ttl : ttl_expired (e_now ev) j0 = false;
  cl_deps : dv_state (_judge_dependencies st (dependency_ids (j_spec j0))) = MET;
  cl_tags : _tag_limited ev j0 st = false;
  cl_job : j = _as_running j0 h;
  cl_store : _open_attempt ev (j_id j0) worker (delete_entry (re_slot e) (j_id j0) st) = (st', h);
}.

Section iter.
Context (ev : env) (Hev : env_ok ev) (queues : list string) (worker : option Z).

Lemma skipped_delete_entry e st :
  inv X st → (∀ j, waiting st j → j_id j ≠ re_job_id e) →
  skipped e None st (delete_entry (re_slot e) (re_job_id e) st).
Proof using.
  intros Hi Hn. split; try done; [by apply quiet_delete_entry|apply sublist_filter|].
  intros x Hx Hne. apply elem_of_delete_where. split; [done|]. by intros [_ ?].
Qed.

Lemma skipped_fail e j error reason st st' r :
  inv X st → waiting st j → j_id j = re_job_id e →
  _fail_queued ev j error reason st = (st', r) →
  skipped e None st (delete_ready [re_job_id e] st').
Proof using.
  intros Hi Hw Hid Hf. destruct (claim_fail_quiet ev j st Hi Hw _ _ _ _ Hf) as (-> & Hq & Hr).
  rewrite <-Hid. split; [done| |apply Forall_nil_2| |].
  - etrans; [|exact Hr]. apply sublist_filter.
  - intros x Hx Hne. unfold _fail_queued in Hf.
    match type of Hf with _finish_in _ ?id ?s ?v ?f ?st1 = _ =>
      destruct (finish_in_cases ev id s v f st1) as [(y & Hy & Hm & E)|[_ E]] end;
      [eauto with sqlery| |by rewrite E in Hf].
    rewrite E in Hf. injection Hf as <-. simpl. apply elem_of_delete_where. split; [done|].
    intros [? _]. congruence.
  - intros x Hx Hne. apply elem_of_delete_where. split.
    + rewrite (finish_in_ready _ _ _ _ _ _ _ _ Hf). apply elem_of_delete_where. split; [done|].
      intros [_ ?%list_elem_of_singleton]. congruence.
    + intros [_ ?%list_elem_of_singleton]. congruence.
Qed.

Lemma skipped_block e j st st' :
  inv X st → waiting st j → j_id j = re_job_id e → e ∈ ready st →
  insert_blocked j (e_now ev) (delete_entry (re_slot e) (re_job_id e) st) = Some st' →
  skipped e (Some (re_job_id e, re_created_at e)) st st'.
Proof using.
  intros [Hwf Hc] Hw Hid He Hb.
  assert (live st' = live st ∧ history st' = history st ∧ attempts st' = attempts st ∧
          attempt_seq st' = attempt_seq st ∧ evolves st st' ∧
          ready st' = ready (delete_entry (re_slot e) (re_job_id e) st))
    as (Hl & Hh & Ha & Hq & Hev' & Hr).
  { unfold insert_blocked in Hb. destruct (blocked_rows j (e_now ev)); [done|].
    injection Hb as <-. split_and!; try done. by apply evolves_entries. }
  split; rewrite ?Hl, ?Hr; try done.
  - split; unfold job_ids; rewrite ?Hl, ?Hh, ?Ha, ?Hq; try done. split; [split|done].
    + eapply wf_insert_blocked; [by apply wf_delete_entry| |done].
      apply knows_live; [by apply wf_delete_entry|apply Hw].
    + eapply covered_insert_blocked; [done|]. rewrite Hid. by apply covered_delete_entry.
  - apply sublist_filter.
  - apply Forall_singleton. intros x Hx Hxid. rewrite Hl in Hx. simpl in *.
    symmetry. by eapply wf_ready_created.
  - intros x Hx Hne. apply elem_of_delete_where. split; [done|]. by intros [_ ?].
Qed.

Lemma claim_iter_spec c st st' r :
  inv X st → claim_iter ev queues worker c st = (st', r) →
  match r with
  | IterErr _ => False
  | IterDone => st' = st ∧ next_entry ev queues c (ready st) = None
  | IterSkip c' moved _ => ∃ e, next_entry ev queues c (ready st) = Some e ∧
      c' = entry_cursor e ∧ skipped e moved st st'
  | IterClaimed j h => ∃ e j0, next_entry ev queues c (ready st) = Some e ∧
      claimed ev worker e j0 j h st st'
  end.
Proof using.
  intros Hi. pose proof Hi as [Hwf Hc]. unfold claim_iter.
  destruct (next_entry ev queues c (ready st)) as [e|] eqn:He; [|by intros [= <- <-]].
  pose proof (next_entry_Some _ _ _ _ _ He) as (Hin & Hdue & Hafter & Hlock).
  destruct (job_of_entry st e) as [j|] eqn:Hj.
  2: { intros [= <- <-]. exists e. split_and!; try done. apply skipped_delete_entry; [done|].
       intros j' [Hj' _]. by eapply job_of_entry_None. }
  apply job_of_entry_Some in Hj as [Hj Hid]; [|done].
  destruct (negb (bool_decide (j_status j = Queued)) || _is_running st (re_job_id e)) eqn:Hidle.
  { intros [= <- <-]. exists e. split_and!; try done. apply skipped_delete_entry; [done|].
    by eapply not_waiting. }
  assert (waiting st j) as Hw by by eapply is_waiting.
  pose proof (entry_rowcount _ _ (wf_ready_keys st Hwf) Hin) as Hcount.
  destruct (_claim_decision ev j st) as [st1 d] eqn:Hd.
  pose proof (claim_decision_spec ev j st Hi Hw _ _ Hd) as Hspec.
  destruct d as [[]|]; [| | | |done].
  - destruct Hspec as (-> & Httl & Hdeps). destruct (_tag_limited ev j st) eqn:Htag.
    { intros [= <- <-]. exists e. by split_and!. }
    rewrite decide_True by done.
    destruct (_start_attempt ev j worker (delete_entry (re_slot e) (re_job_id e) st))
      as [st2 [h| |]] eqn:Hstart.
    + intros [= <- <-]. exists e, j. split; [done|].
      apply start_attempt_claimed in Hstart as (_ & _ & _ & Ho).
      split; try done. by rewrite <-Hid in Ho.
    + exfalso. apply start_attempt_keep in Hstart as (_ & row & Hrow & Hbad).
      apply job_by_key_Some in Hrow as (Hrow & Hrid & _); [|auto with sqlery].
      assert (row = j) as -> by by eapply live_inj.
      destruct Hw as (_ & Hs & Hr). destruct Hbad as [?|Hr2]; [done|].
      change (_is_running st (j_id j) = true) in Hr2. congruence.
    + intros [= <- <-]. exists e. by split_and!.
  - destruct Hspec as [-> Hdeps].
    destruct (insert_blocked _ _ _) as [st2|] eqn:Hb.
    + rewrite decide_True by done. intros [= <- <-]. exists e. split_and!; try done.
      by eapply skipped_block.
    + intros [= <- <-]. exists e. by split_and!.
  - intros [= <- <-]. exists e. destruct Hspec as (error & reason & b & Hf).
    split_and!; try done. by eapply skipped_fail.
  - intros [= <- <-]. exists e. destruct Hspec as (error & reason & b & Hf).
    split_and!; try done. by eapply skipped_fail.
Qed.
End iter.

(** ** The scan *)

Lemma after_cursor_irrefl e : ¬ after_cursor (Some (entry_cursor e)) e.
Proof. unfold after_cursor, entry_cursor. lia. Qed.

Lemma after_cursor_mono c e x :
  after_cursor c e → after_cursor (Some (entry_cursor e)) x → after_cursor c x.
Proof. destruct c as [[[p t] i]|]; [|done]. unfold after_cursor, entry_cursor. lia. Qed.

#[global] Instance entry_le_total : Total entry_le.
Proof. intros a b. unfold entry_le. lia. Qed.
#[global] Instance entry_le_trans : Transitive entry_le.
Proof. intros a b c. unfold entry_le. lia. Qed.
#[global] Instance entry_le_refl : Reflexive entry_le.
Proof. intros a. unfold entry_le. lia. Qed.

Lemma next_entry_min ev queues c r e x :
  next_entry ev queues c r = Some e → x ∈ claim_candidates ev queues c r → entry_le e x.
Proof.
  unfold next_entry. intros He Hx.
  by destruct (order_by_head_le entry_le _ _ _ He Hx) as [-> | ?].
Qed.

(** entries the scan has still to look at *)
Definition remaining (c : option (Z * Z * Z)) (st : store) : nat :=
  rowcount (after_cursor c) (ready st).

Lemma remaining_skip e c moved st st' :
  e ∈ ready st → after_cursor c e → skipped e moved st st' →
  (remaining (Some (entry_cursor e)) st' < remaining c st)%nat.
Proof.
  intros He Hc Hs. unfold remaining.
  apply (Nat.le_lt_trans _ (rowcount (after_cursor (Some (entry_cursor e))) (ready st))).
  - apply rowcount_mono; [done|apply Hs].
  - apply (rowcount_lt _ _ (λ x, after_cursor_mono c e x Hc) e); [done..|].
    apply after_cursor_irrefl.
Qed.

Section scan.
Context (ev : env) (Hev : env_ok ev) (queues : list string) (worker : option Z).

(** The scan ends within its fuel; before the claim, if there is one, it is quiet. *)
Lemma claim_scan_spec fuel c s st :
  inv X st → (remaining c st < fuel)%nat → Forall (row_ok st) (sc_blocked s) →
  ∃ st1 st2 s' r, claim_scan fuel ev queues worker c s st = (st2, s', Done r) ∧
    quiet X st st1 ∧ Forall (row_ok st1) (sc_blocked s') ∧
    match r with
    | None => st2 = st1
    | Some (j, h) => ∃ c' e j0, next_entry ev queues c' (ready st1) = Some e ∧
        e ∈ ready st ∧ claimed ev worker e j0 j h st1 st2
    end.
Proof using.
  revert c s st. induction fuel as [|fuel IH]; intros c s st Hi Hfuel Hrows; [lia|]. simpl.
  destruct (claim_iter ev queues worker c st) as [st' r] eqn:Hr.
  pose proof (claim_iter_spec ev queues worker c st st' r Hi Hr) as Hspec.
  destruct r as [|c' moved failed|j h|er]; [| | |done].
  - destruct Hspec as [-> _]. exists st, st, s, None. by split_and!.
  - destruct Hspec as (e & He & -> & Hs). pose proof (next_entry_Some _ _ _ _ _ He) as (Hin & _ & Ha & _).
    destruct (IH (Some (entry_cursor e)) (scan_add moved failed s) st')
      as (st1 & st2 & s' & r & Heq & Hq & Hrows' & Hr').
    + eapply quiet_inv, Hs.
    + pose proof (remaining_skip _ _ _ _ _ Hin Ha Hs). lia.
    + simpl. apply Forall_app. split; [|apply Hs]. eapply Forall_impl; [exact Hrows|].
      intros row. apply row_ok_subset, Hs.
    + exists st1, st2, s', r. split_and!; try done; [by eapply quiet_trans; [apply Hs|]|].
      destruct r as [[j h]|]; [|done]. destruct Hr' as (c' & e' & j0 & ? & He' & ?).
      exists c', e', j0. split_and!; try done. eapply elem_of_sublist; [exact He'|apply Hs].
  - destruct Hspec as (e & j0 & He & Hc). exists st, st', s, (Some (j, h)).
    split_and!; try done. exists c, e, j0. split_and!; try done.
    by apply next_entry_Some in He as [? _].
Qed.

Lemma claimed_sound e j0 j h st st' :
  inv X st → claimed ev worker e j0 j h st st' → sound X st st'.
Proof using.
  intros [Hwf Hc] [He (Hj & Hs & Hr) _ _ _ _ Ho].
  replace st' with (_open_attempt ev (j_id j0) worker (delete_entry (re_slot e) (j_id j0) st)).1
    by by rewrite Ho.
  apply open_attempt_sound; [by apply wf_delete_entry|by apply covered_delete_entry|
    by apply evolves_entries|done|]. by exists j0.
Qed.

Lemma claim_cleanup_quiet s st :
  inv X st → Forall (row_ok st) (sc_blocked s) → quiet X st (claim_cleanup ev s st).
Proof using Hev.
  intros Hi Hrows. apply (quiet_trans _ (foldl
    (λ st '(id, created), _recheck_blocked_quietly ev id created st) st (sc_blocked s))).
  - apply (quiet_foldl _ row_ok); [intros ???; apply row_ok_subset| |done..].
    intros st1 [id created] Hi1 Hrow. by apply recheck_quietly_quiet.
  - intros Hi1. apply (quiet_foldl _ (λ _ _, True)); [done| |done|by apply Forall_true].
    intros st1 id Hi2 _. by apply release_quietly_quiet.
Qed.

Lemma claim_from_ready_fuel st : (remaining None st < S (length (ready st)))%nat.
Proof using.
  unfold remaining. pose proof (length_delete_where (after_cursor None) (ready st)). lia.
Qed.

(** [claim_job]: it returns; without a claim it is quiet; a claim is one open attempt on a
    job that waited before the call. *)
Lemma claim_job_spec st :
  inv X st → ∃ st' r, claim_job ev queues worker st = (st', Done r) ∧
    match r with
    | None => quiet X st st'
    | Some (j, h) => ∃ st1 st2 c e j0, quiet X st st1 ∧ claimed ev worker e j0 j h st1 st2 ∧
        next_entry ev queues c (ready st1) = Some e ∧ e ∈ ready st ∧ quiet X st2 st'
    end.
Proof using Hev.
  intros Hi. unfold claim_job, _claim_from_ready.
  destruct (claim_scan_spec (S (length (ready st))) None {| sc_blocked := []; sc_failed := [] |} st)
    as (st1 & st2 & s & r & -> & Hq & Hrows & Hr);
    [done|apply claim_from_ready_fuel|apply Forall_nil_2|].
  do 2 eexists. split; [done|]. destruct r as [[j h]|].
  - destruct Hr as (c & e & j0 & He & Hin & Hc).
    exists st1, st2, c, e, j0. split_and!; try done. apply claim_cleanup_quiet.
    + eapply claimed_sound, Hc. by eapply quiet_inv.
    + eapply Forall_impl; [exact Hrows|]. intros row. apply row_ok_subset.
      destruct Hc as [_ _ _ _ _ _ Ho]. injection Ho as <- _. done.
  - subst st2. eapply quiet_trans; [done|]. intros Hi1. by apply claim_cleanup_quiet.
Qed.
End scan.

(** ** Claim order and progress *)

(** A due entry of a waiting job that nothing holds back: no dependency, no limited tag, no
    expired TTL and no lock of another transaction. *)
Record claimable (ev : env) (queues : list string) (e : job_ready) (j : queued_job) (st : store)
    : Prop := {
  cb_entry : e ∈ ready st;
  cb_due : entry_due queues (e_now ev) e;
  cb_entry_unlocked : e_entry_locked ev (re_job_id e) = false;
  cb_job : j_id j = re_job_id e;
  cb_waiting : waiting st j;
  cb_ttl : ttl_expired (e_now ev) j = false;
  cb_deps : dependency_ids (j_spec j) = [];
  cb_tags : limited_tags ev j = [];
  cb_row_unlocked : e_row_locked ev (j_id j) = false;
}.

Section order.
Context (ev : env) (Hev : env_ok ev) (queues : list string) (worker : option Z).

Lemma claim_iter_claims c e e' j st :
  wf st → claimable ev queues e j st →
  next_entry ev queues c (ready st) = Some e' → re_job_id e' = j_id j →
  ∃ st' h, claim_iter ev queues worker c st = (st', IterClaimed (_as_running j h) h).
Proof using.
  intros Hwf [_ _ _ _ (Hj & Hs & Hr) Httl Hdeps Htags Hlock] He' Hid.
  pose proof (next_entry_Some _ _ _ _ _ He') as (Hin & _).
  assert (job_by_key st (re_job_id e') (re_created_at e') = Some j) as Hkey.
  { apply job_by_key_Some; [done|]. split_and!; [done..|].
    symmetry. by apply (wf_ready_created st Hwf). }
  unfold claim_iter, job_of_entry. rewrite He', Hkey, Hs, Hid, Hr.
  rewrite bool_decide_true by done. simpl. unfold _claim_decision. rewrite Httl, Hdeps.
  unfold _tag_limited. rewrite Htags. simpl.
  rewrite <-Hid, (entry_rowcount _ _ (wf_ready_keys st Hwf) Hin), Hid, decide_True by done.
  assert (job_by_key st (j_id j) (j_created_at j) = Some j) as Hkey'
    by (by apply job_by_key_Some).
  unfold _start_attempt, lock_job_row. rewrite Hlock.
  change (job_by_key (delete_entry (re_slot e') (j_id j) st)) with (job_by_key st).
  change (_is_running (delete_entry (re_slot e') (j_id j) st)) with (_is_running st).
  rewrite Hkey', Hr. unfold claim_verdict. rewrite Hs, bool_decide_true by done. simpl.
  rewrite decide_True by done. eauto.
Qed.

Lemma claimable_skipped e e' moved j st st' :
  claimable ev queues e j st → re_job_id e' ≠ j_id j → skipped e' moved st st' →
  claimable ev queues e j st'.
Proof using.
  intros [? ? ? Hid (Hj & Hs & Hr) ? ? ? ?] Hne Hsk. split; try done.
  - apply (sk_keep_ready _ _ _ _ Hsk); congruence.
  - split_and!; [|done|].
    + apply (sk_keep_live _ _ _ _ Hsk); congruence.
    + unfold _is_running. by rewrite (qu_attempts _ _ _ (sk_quiet _ _ _ _ Hsk)).
Qed.

Lemma claim_scan_order fuel c s e j st :
  inv X st → (remaining c st < fuel)%nat → claimable ev queues e j st → after_cursor c e →
  ∃ st' s' j1 h e1,
    claim_scan fuel ev queues worker c s st = (st', s', Done (Some (j1, h))) ∧
    j_id j1 = re_job_id e1 ∧ e1 ∈ ready st ∧ entry_le e1 e.
Proof using.
  revert c s st. induction fuel as [|fuel IH]; intros c s st Hi Hfuel Hcl Hafter; [lia|]. simpl.
  assert (e ∈ claim_candidates ev queues c (ready st)) as Hcand.
  { apply list_elem_of_filter. destruct Hcl. done. }
  destruct (next_entry ev queues c (ready st)) as [e'|] eqn:He'.
  2: { unfold next_entry in He'. rewrite order_by_head_None in He'. rewrite He' in Hcand.
       by apply elem_of_nil in Hcand. }
  pose proof (next_entry_min _ _ _ _ _ _ He' Hcand) as Hle.
  pose proof (next_entry_Some _ _ _ _ _ He') as (Hin & _ & Ha & _).
  destruct (decide (re_job_id e' = j_id j)) as [Hsame|Hne].
  { destruct (claim_iter_claims c e e' j st (proj1 Hi) Hcl He' Hsame) as (st' & h & ->).
    do 5 eexists. split_and!; [done| |done..]. by rewrite Hsame. }
  destruct (claim_iter ev queues worker c st) as [st' r] eqn:Hr.
  pose proof (claim_iter_spec ev queues worker c st st' r Hi Hr) as Hspec.
  destruct r as [|c' moved failed|j1 h|er]; [| | |done].
  - destruct Hspec as [_ ?]. congruence.
  - destruct Hspec as (e2 & Heq & -> & Hs). assert (e2 = e') as -> by congruence.
    edestruct (IH (Some (entry_cursor e')) (scan_add moved failed s) st')
      as (st2 & s2 & j1 & h & e1 & -> & ? & He1 & ?).
    + eapply quiet_inv, Hs.
    + pose proof (remaining_skip _ _ _ _ _ Hin Ha Hs). lia.
    + by eapply claimable_skipped.
    + destruct Hcl as [_ _ _ Hid]. unfold entry_le in Hle. simpl. lia.
    + do 5 eexists. split_and!; try done. eapply elem_of_sublist; [exact He1|apply Hs].
  - destruct Hspec as (e2 & j0 & Heq & [Hid _ _ _ _ -> _]).
    assert (e2 = e') as -> by congruence. do 5 eexists. split_and!; [done| |done..]. done.
Qed.
End order.

(** ** Claims of a given job *)

Section by_id.
Context (ev : env) (worker : option Z).

Lemma claim_job_by_id_spec id st st' r :
  inv X st → claim_job_by_id ev id worker st = (st', r) →
  match r with
  | None => st' = st
  | Some (j, h) => sound X st st' ∧ ∃ j0, waiting st j0 ∧ j_id j0 = id ∧ j = _as_running j0 h ∧
      _open_attempt ev id worker (delete_blocked [id] (delete_ready [id] st)) = (st', h)
  end.
Proof using.
  intros [Hwf Hc]. unfold claim_job_by_id.
  destruct (e_entry_locked ev id && _); [by intros [= <- <-]|].
  destruct (job_by_id st id) as [j|] eqn:Hj; [|by intros [= <- <-]].
  apply job_by_id_Some in Hj as [Hj Hid]; [|done].
  destruct (negb (bool_decide (j_status j = Queued)) || _is_running st id) eqn:Hidle;
    [by intros [= <- <-]|]. assert (waiting st j) as Hw by by eapply is_waiting.
  destruct (_start_attempt _ _ _ _) as [st1 [h| |]] eqn:Hs; [|by intros [= <- <-]..].
  apply start_attempt_claimed in Hs as (_ & Hr & _ & Ho). rewrite Hid in Ho.
  intros [= <- <-]. split; [|by exists j].
  pose proof (open_attempt_sound (X:=X) ev id worker st (delete_blocked [id] (delete_ready [id] st))) as Hso.
  rewrite Ho in Hso. simpl in Hso. apply Hso.
  - auto with sqlery.
  - by apply covered_drop_entries.
  - apply drop_entries_job.
  - by rewrite <-Hid.
  - by exists j.
Qed.

(** The job object may be stale: the row is re-read under its lock. *)
Lemma atomic_claim_job_spec j st st' r :
  inv X st → atomic_claim_job ev j worker st = (st', r) →
  sound X st st' ∧
  match r with
  | None => quiet X st st'
  | Some (j1, h) => ∃ j0, waiting st j0 ∧ j_id j0 = j_id j ∧ j_version j0 = j_version j ∧
      j1 = _as_running j h ∧
      _open_attempt ev (j_id j) worker (delete_ready [j_id j] st) = (st', h)
  end.
Proof using.
  intros Hi. pose proof Hi as [Hwf Hc]. unfold atomic_claim_job. case_decide.
  { intros [= <- <-]. split; [auto with sqlery|auto with sqlery]. }
  destruct (_start_attempt _ _ _ _) as [st1 [h| |]] eqn:Hs.
  - apply start_attempt_claimed in Hs as (_ & Hr & (row & Hrow & Hq & Hv) & Ho).
    apply job_by_key_Some in Hrow as (Hrow & Hid & _); [|auto with sqlery].
    intros [= <- <-]. split.
    + pose proof (open_attempt_sound (X:=X) ev (j_id j) worker st (delete_ready [j_id j] st)) as Hso.
      rewrite Ho in Hso. apply Hso; [by apply wf_delete_ready| |by apply evolves_entries|done|by exists row].
      by apply (covered_delete_ready [_] X).
    + exists row. split_and!; try done. split; [done|]. by rewrite Hid.
  - apply start_attempt_keep in Hs as (-> & row & Hrow & Hbad).
    apply job_by_key_Some in Hrow as (Hrow & Hid & _); [|auto with sqlery].
    intros [= <- <-]. assert (quiet X st (delete_ready [j_id j] st)) as Hq; [|split; [apply Hq|done]].
    apply quiet_delete_ready; [done|]. intros x (Hx & Hsx & Hrx) Hxid%list_elem_of_singleton.
    assert (x = row) as -> by (eapply live_inj; eauto; congruence).
    destruct Hbad as [?|Hb]; [done|]. change (_is_running st (j_id j) = true) in Hb. congruence.
  - intros [= <- <-]. split; [auto with sqlery|auto with sqlery].
Qed.
End by_id.

End preserve.
