(* ===== verification/Complete.v ===== *)
(** * Enqueue, completion, cancellation and recovery (fastapi_sqlery/backend.py)

    [create_job], the fenced completion ([mark_job_success], [mark_job_failed],
    [_fenced_update]), [mark_job_archived], [settle_retry_pending],
    [cascade_ancestor_status], [cancel_job], [request_job_revoke], [fail_zombie_job],
    [release_job], [release_claimed_job], [expire_queued_job] and [retry_failed_jobs]. *)

From S2P Require Import Prelude Sql PyString Models Retry Attempts Ready History Store StoreInv Dependents.
From Stdlib Require Import Qcanon.
#[local] Open Scope string_scope.
#[local] Open Scope Z_scope.

(** ** Enqueue *)

Definition with_created_at (t : time) (sp : job_spec) : job_spec :=
  {| js_task_path := js_task_path sp; js_kwargs := js_kwargs sp;
     js_queue_name := js_queue_name sp; js_priority := js_priority sp;
     js_parent_job_id := js_parent_job_id sp; js_retry_count := js_retry_count sp;
     js_max_retries := js_max_retries sp; js_retry_backoff := js_retry_backoff sp;
     js_allow_parallel := js_allow_parallel sp; js_timeout_seconds := js_timeout_seconds sp;
     js_job_name := js_job_name sp; js_tags := js_tags sp;
     js_retry_intervals := js_retry_intervals sp; js_meta := js_meta sp;
     js_dependencies := js_dependencies sp; js_on_success_path := js_on_success_path sp;
     js_on_failure_path := js_on_failure_path sp; js_ttl := js_ttl sp;
     js_result_ttl := js_result_ttl sp; js_failure_ttl := js_failure_ttl sp;
     js_scheduled_task_id := js_scheduled_task_id sp; js_created_at := t;
     js_scheduled_at := js_scheduled_at sp |}.

(** The column defaults of a row that has not run. *)
Definition fresh_run : job_run :=
  {| jr_status := Queued; jr_version := 0; jr_worker_id := None; jr_worker_pid := None;
     jr_child_pid := None; jr_started_at := None; jr_finished_at := None; jr_duration := None;
     jr_output := ""; jr_error := ""; jr_traceback := ""; jr_termination_reason := "";
     jr_runs := [] |}.

Definition new_job (id : Z) (now : time) (sp : job_spec) : queued_job :=
  {| j_id := id; j_spec := with_created_at now sp; j_run := fresh_run |}.

(** Insert a queued job: the flush hook writes its ready entry in the same transaction. *)
Definition insert_job (ev : env) (j : queued_job) (st : store) : store :=
  let st := _ensure_entry ev j true st in
  with_live (live st ++ [j]) st.

(** A new job replaces the live jobs of the same name; their entries go with them. *)
Definition replace_named (ev : env) (name : option string) (st : store) : store :=
  match name with
  | None => st
  | Some n =>
      if decide (n = "") then st else
      let named j := js_job_name (j_spec j) = Some n in
      let replaced := j_id <$> filter named (live st) in
      let st := _drop_entries replaced (with_live (delete_where named (live st)) st) in
      foldl (λ st id, _release_dependents_quietly ev id None st) st replaced
  end.

Inductive created : Type :=
  | CreatedLive (j : queued_job)
  | CreatedStaged (s : scheduled_job).

Definition far_future (ev : env) (threshold_days : Z) (sp : job_spec) : bool :=
  e_partitioned ev &&
  match js_scheduled_at sp with
  | Some t => e_now ev + seconds (86400 * threshold_days) <? t
  | None => false
  end.

(** [id] is the id the flush hook generates. *)
Definition create_job (ev : env) (threshold_days id : Z) (sp : job_spec) (st : store)
    : store * created :=
  let st := replace_named ev (js_job_name sp) st in
  if far_future ev threshold_days sp then
    let s := {| sj_id := id; sj_spec := with_created_at (e_now ev) sp |} in
    (with_staged (staged st ++ [s]) st, CreatedStaged s)
  else
    let j := new_job id (e_now ev) sp in
    (insert_job ev j st, CreatedLive j).

(** ** Reading a job *)

Inductive found : Type :=
  | FLive (j : queued_job)
  | FHistory (j : queued_job)
  | FStaged (s : scheduled_job)
  | FNone.

Definition staged_by_id (ev : env) (st : store) (id : Z) : option scheduled_job :=
  if e_partitioned ev then first_where (λ s, sj_id s = id) (staged st) else None.

Definition get_job_by_id (ev : env) (st : store) (id : Z) : found :=
  match job_by_id st id with
  | Some j =>
      if decide (j_status j = Queued)
      then FLive (overlay_running j (open_attempt_of (attempts st) id))
      else FLive j
  | None =>
      match history_by_id st id with
      | Some j => FHistory j
      | None => match staged_by_id ev st id with Some s => FStaged s | None => FNone end
      end
  end.

Definition _find_job (st : store) (id : Z) : found :=
  match job_by_id st id with
  | Some j => FLive j
  | None => match history_by_id st id with Some j => FHistory j | None => FNone end
  end.

(** ** Completion *)

(** Close the attempt a completion belongs to. *)
Definition _close_attempt (ev : env) (id : Z) (attempt : option AttemptHandle)
    (o : attempt_outcome) (st : store) : store * result store_error unit :=
  match attempt with
  | Some h =>
      (with_attempts (close_exact_stmt h o (e_now ev) (attempts st)) st,
       decide_close (rowcount (exact_open h) (attempts st)) h)
  | None => (with_attempts (close_unfenced_stmt id o (e_now ev) (attempts st)) st, Ok tt)
  end.

(** [UPDATE .. SET status, version = version + 1, values] of one live row *)
Definition apply_values (status : job_status) (v : move_values) (r : job_run) : job_run :=
  {| jr_status := status; jr_version := jr_version r + 1;
     jr_worker_id := default (jr_worker_id r) (mv_worker_id v);
     jr_worker_pid := default (jr_worker_pid r) (mv_worker_pid v);
     jr_child_pid := default (jr_child_pid r) (mv_child_pid v);
     jr_started_at := default (jr_started_at r) (mv_started_at v);
     jr_finished_at := coalesce (mv_finished_at v) (jr_finished_at r);
     jr_duration := default (jr_duration r) (mv_duration v);
     jr_output := default (jr_output r) (mv_output v);
     jr_error := default (jr_error r) (mv_error v);
     jr_traceback := default (jr_traceback r) (mv_traceback v);
     jr_termination_reason := default (jr_termination_reason r) (mv_termination_reason v);
     jr_runs := default (jr_runs r) (mv_runs v) |}.

Definition with_run (r : job_run) (j : queued_job) : queued_job :=
  {| j_id := j_id j; j_spec := j_spec j; j_run := r |}.

Definition version_fence (id : Z) (expected : option Z) (j : queued_job) : Prop :=
  j_id j = id ∧ opt_eq expected (j_version j).
#[global] Instance version_fence_dec id expected j : Decision (version_fence id expected j).
Proof. unfold version_fence. apply _. Defined.

Definition version_fences (expected : option Z) : fences :=
  {| fe_created_at := None; fe_version := expected; fe_status := None; fe_idle := false |}.

(** The completion leaves the failed job in the live table while a retry is owed. *)
Definition owes_retry (status : job_status) (v : move_values) : bool :=
  bool_decide (status = Failed) && is_retry_pending (mv_termination_reason v).

(** The write of a completion, after its attempt is closed. *)
Definition completion_write (ev : env) (id : Z) (expected : option Z) (status : job_status)
    (v : move_values) (st : store) : store * result store_error bool :=
  if owes_retry status v then
    (with_live (update_where (version_fence id expected)
                  (λ j, with_run (apply_values status v (j_run j)) j) (live st)) st,
     Ok (bool_decide (0 < rowcount (version_fence id expected) (live st))%nat))
  else _finish_in ev id status v (version_fences expected) st.

(** The fenced transaction of a completion: [Ok true] committed, [Ok false] no such row. *)
Definition completion_txn (ev : env) (id : Z) (expected : option Z) (status : job_status)
    (v : move_values) (attempt : option AttemptHandle) (o : attempt_outcome) (st : store)
    : store * result store_error bool :=
  match _close_attempt ev id attempt o st with
  | (_, Err e) => (st, Err e)
  | (st1, Ok _) =>
      match completion_write ev id expected status v st1 with
      | (st2, Ok true) => (st2, Ok true)
      | (_, Ok false) =>
          (st, match expected with Some _ => Err JobFencingError | None => Ok false end)
      | (_, Err e) => (st, Err e)
      end
  end.

Definition _fenced_update (ev : env) (id : Z) (expected : option Z) (status : job_status)
    (v : move_values) (attempt : option AttemptHandle) (o : attempt_outcome)
    (parent : option Z) (st : store) : store * result store_error found :=
  match completion_txn ev id expected status v attempt o st with
  | (st1, Ok true) =>
      let st2 :=
        if (bool_decide (status = Success) || bool_decide (status = Failed))
           && negb (is_retry_pending (mv_termination_reason v))
        then _release_dependents_quietly ev id parent st1 else st1 in
      (st2, Ok (_find_job st2 id))
  | (st1, Ok false) => (st1, Ok FNone)
  | (st1, Err e) => (st1, Err e)
  end.

Definition _already_finished (j : queued_job) (expected : option Z)
    (attempt : option AttemptHandle) : result store_error found :=
  match expected, attempt with
  | None, None => Ok (FHistory j)
  | _, _ => Err JobFencingError
  end.

(** [row_columns(running)] *)
Definition attempt_values (a : option job_attempt) :
    option (option time) * option (option Z) * option (option Z) * option (option Z) :=
  match a with
  | None => (None, None, None, None)
  | Some a => (Some (Some (at_claimed_at a)), Some (at_worker_id a),
               Some (at_worker_pid a), Some (at_child_pid a))
  end.

(** The values a completion takes from the job object after [mark_success] / [mark_failed]. *)
Definition success_values (r : job_run) (a : option job_attempt) : move_values :=
  let '(s, w, p, c) := attempt_values a in
  {| mv_finished_at := jr_finished_at r; mv_duration := Some (jr_duration r);
     mv_output := Some (jr_output r); mv_error := None; mv_traceback := None;
     mv_termination_reason := None; mv_runs := Some (jr_runs r);
     mv_started_at := s; mv_worker_id := w; mv_worker_pid := p; mv_child_pid := c |}.

Definition failure_values (r : job_run) (a : option job_attempt) : move_values :=
  let '(s, w, p, c) := attempt_values a in
  {| mv_finished_at := jr_finished_at r; mv_duration := Some (jr_duration r);
     mv_output := None; mv_error := Some (jr_error r); mv_traceback := Some (jr_traceback r);
     mv_termination_reason := Some (jr_termination_reason r); mv_runs := Some (jr_runs r);
     mv_started_at := s; mv_worker_id := w; mv_worker_pid := p; mv_child_pid := c |}.

(** [seen] is what [get_job_by_id] returned, in an earlier transaction. *)
Definition mark_job_success (ev : env) (seen : found) (id : Z) (output : task_output)
    (expected : option Z) (attempt : option AttemptHandle) (st : store)
    : store * result store_error found :=
  match seen with
  | FHistory j => (st, _already_finished j expected attempt)
  | FLive _ =>
      match job_by_id st id with
      | None => (st, Ok seen)
      | Some row =>
          let running := open_attempt_of (attempts st) id in
          let job := overlay_running row running in
          match mark_success (j_spec job) (j_run job) (e_now ev) output with
          | Err _ => (st, Err BadOutput)
          | Ok r =>
              _fenced_update ev id expected (jr_status r) (success_values r running)
                attempt OSuccess (j_parent row) st
          end
      end
  | _ => (st, Ok seen)
  end.

Definition mark_job_failed (ev : env) (seen : found) (id : Z)
    (error traceback termination_reason : string)
    (expected : option Z) (attempt : option AttemptHandle) (st : store)
    : store * result store_error found :=
  match seen with
  | FHistory j => (st, _already_finished j expected attempt)
  | FLive _ =>
      match job_by_id st id with
      | None => (st, Ok seen)
      | Some row =>
          let running := open_attempt_of (attempts st) id in
          let job := overlay_running row running in
          let r := mark_failed (j_spec job) (j_run job) (e_now ev) error traceback termination_reason in
          _fenced_update ev id expected (jr_status r) (failure_values r running)
            attempt OFailed (j_parent row) st
      end
  | _ => (st, Ok seen)
  end.

(** ** Settling a failed job *)

Definition reason_values (reason : string) : move_values :=
  {| mv_finished_at := None; mv_duration := None; mv_output := None; mv_error := None;
     mv_traceback := None; mv_termination_reason := Some reason; mv_runs := None;
     mv_started_at := None; mv_worker_id := None; mv_worker_pid := None; mv_child_pid := None |}.

Definition status_fences (created : time) (ss : list job_status) : fences :=
  {| fe_created_at := Some created; fe_version := None; fe_status := Some ss; fe_idle := false |}.

(** [mark_job_archived] and [settle_retry_pending] move a failed live job to history as
    [status], its retry marker cleared. *)
Definition settle_failed (ev : env) (id : Z) (status : job_status) (st : store)
    : store * result store_error bool :=
  match first_where (λ j, j_id j = id ∧ j_status j = Failed) (live st) with
  | None => (st, Ok false)
  | Some j =>
      _finish_in ev id status
        (reason_values (settled_termination_reason (Some (jr_termination_reason (j_run j)))))
        (status_fences (j_created_at j) [Failed]) st
  end.

Definition mark_job_archived (ev : env) (id : Z) (st : store) := settle_failed ev id Archived st.
Definition settle_retry_pending (ev : env) (id : Z) (st : store) := settle_failed ev id Failed st.

(** ** Cancellation and revoke *)

Definition cancel_staged (ev : env) (id : Z) (st : store) : store * result store_error bool :=
  match staged_by_id ev st id with
  | Some _ => (with_staged (delete_where (λ s, sj_id s = id) (staged st)) st, Ok true)
  | None => (st, Ok false)
  end.

Definition cancel_job (ev : env) (id : Z) (st : store) : store * result store_error bool :=
  match first_where (λ j, j_id j = id ∧ waiting_clause (attempts st) j = true) (live st) with
  | None => cancel_staged ev id st
  | Some j =>
      match _finish_in ev id Failed
              {| mv_finished_at := None; mv_duration := None; mv_output := None;
                 mv_error := Some "Cancelled by user"; mv_traceback := None;
                 mv_termination_reason := None; mv_runs := None; mv_started_at := None;
                 mv_worker_id := None; mv_worker_pid := None; mv_child_pid := None |}
              {| fe_created_at := Some (j_created_at j); fe_version := None;
                 fe_status := Some [Queued]; fe_idle := true |}
              (delete_blocked [id] (delete_ready [id] st)) with
      | (st', Ok true) => (_release_dependents_quietly ev id None st', Ok true)
      | (_, Ok false) => cancel_staged ev id st
      | (_, Err e) => (st, Err e)
      end
  end.

Definition set_reason (reason : string) (j : queued_job) : queued_job :=
  let r := j_run j in
  with_run {| jr_status := jr_status r; jr_version := jr_version r;
              jr_worker_id := jr_worker_id r; jr_worker_pid := jr_worker_pid r;
              jr_child_pid := jr_child_pid r; jr_started_at := jr_started_at r;
              jr_finished_at := jr_finished_at r; jr_duration := jr_duration r;
              jr_output := jr_output r; jr_error := jr_error r; jr_traceback := jr_traceback r;
              jr_termination_reason := reason; jr_runs := jr_runs r |} j.

Definition running_row (st : store) (id : Z) (j : queued_job) : Prop :=
  j_id j = id ∧ running_clause (attempts st) j = true.
#[global] Instance running_row_dec st id j : Decision (running_row st id j).
Proof. unfold running_row. apply _. Defined.

Definition request_job_revoke (id : Z) (st : store) : store * bool :=
  (with_live (update_where (running_row st id) (set_reason "revoke_requested") (live st)) st,
   bool_decide (0 < rowcount (running_row st id) (live st))%nat).

Definition is_job_revoke_requested (id : Z) (st : store) : bool :=
  exists_where (λ j, running_row st id j ∧
    jr_termination_reason (j_run j) = "revoke_requested") (live st).

(** ** Recovery *)

(** Fail a running job whose worker died; its open attempt is abandoned. *)
Definition fail_zombie_job (ev : env) (id : Z) (reason : string) (st : store)
    : store * result store_error bool :=
  match job_by_id st id with
  | None => (st, Ok false)
  | Some j =>
      if negb (bool_decide (j_status j = Queued)) then (st, Ok false)
      else
        match open_attempt_of (attempts st) id with
        | None => (st, Ok false)
        | Some a =>
            let st1 := with_attempts
                         (close_unfenced_stmt id OAbandoned (e_now ev) (attempts st)) st in
            let job := overlay_running j (Some a) in
            let r := mark_failed (j_spec job) (j_run job) (e_now ev) reason "" "zombie_job" in
            match _finish_in ev id Failed
                    {| mv_finished_at := jr_finished_at r; mv_duration := Some (jr_duration r);
                       mv_output := None; mv_error := Some (jr_error r);
                       mv_traceback := Some (jr_traceback r);
                       mv_termination_reason := Some (jr_termination_reason r);
                       mv_runs := Some (jr_runs r); mv_started_at := None;
                       mv_worker_id := None; mv_worker_pid := None; mv_child_pid := None |}
                    {| fe_created_at := Some (j_created_at j); fe_version := None;
                       fe_status := None; fe_idle := false |} st1 with
            | (st2, Ok true) => (_release_dependents_quietly ev id (j_parent j) st2, Ok true)
            | (_, Ok false) => (st, Ok false)
            | (_, Err e) => (st, Err e)
            end
        end
  end.

(** Put a claimed job back: abandon its attempt, restore its ready entry. *)
Definition release_job (ev : env) (id : Z) (st : store) : store :=
  match job_by_id st id with
  | None => st
  | Some j =>
      if negb (bool_decide (j_status j = Queued)) then st
      else if decide (rowcount (open_for id) (attempts st) < 1)%nat then st
      else write_ready ev [j] false
             (with_attempts (close_unfenced_stmt id OAbandoned (e_now ev) (attempts st)) st)
  end.

Definition abandon_attempts (ev : env) (id : Z) (st : store) : store * nat :=
  (with_attempts (abandon_open_stmt id (e_now ev) (attempts st)) st,
   rowcount (open_for id) (attempts st)).

Definition update_job_child_pid (id pid : Z) (attempt : option AttemptHandle) (st : store) : store :=
  with_attempts (child_pid_stmt id pid attempt (attempts st)) st.

(** Fail a queued, idle job whose TTL passed. *)
Definition expire_queued_job (ev : env) (j : queued_job) (error reason : string) (st : store)
    : store * result store_error bool :=
  match _fail_queued ev j error reason st with
  | (st', Ok true) => (_release_dependents_quietly ev (j_id j) None st', Ok true)
  | (_, Ok false) => (st, Ok false)
  | (_, Err e) => (st, Err e)
  end.

(** Queued, idle jobs with a TTL that passed. *)
Definition get_expired_ttl_jobs (ev : env) (st : store) : list queued_job :=
  filter (λ j, waiting_clause (attempts st) j = true ∧
    match js_ttl (j_spec j) with
    | Some t => j_created_at j + seconds t <? e_now ev
    | None => false
    end = true) (live st).

(** ** Release of a claimed job with a given status *)

Definition set_worker_idle (ev : env) (worker jobs_processed : Z) (w : worker_row) : worker_row :=
  {| w_id := w_id w; w_node_id := w_node_id w; w_pid := w_pid w; w_status := Idle; w_current_job_id := None;
     w_jobs_processed := jobs_processed; w_last_heartbeat := e_now ev |}.

Definition release_worker (ev : env) (worker jobs_processed : Z) (st : store) : store :=
  with_workers (update_where (λ w, w_id w = worker) (set_worker_idle ev worker jobs_processed)
                  (workers st)) st.

(** [values.setdefault] of the completion time and the duration *)
Definition release_values (ev : env) (started : option time) (v : move_values) : move_values :=
  {| mv_finished_at := Some (default (e_now ev) (mv_finished_at v));
     mv_duration := Some (default ((λ s, e_now ev - s) <$> started) (mv_duration v));
     mv_output := mv_output v; mv_error := mv_error v; mv_traceback := mv_traceback v;
     mv_termination_reason := mv_termination_reason v; mv_runs := mv_runs v;
     mv_started_at := mv_started_at v; mv_worker_id := mv_worker_id v;
     mv_worker_pid := mv_worker_pid v; mv_child_pid := mv_child_pid v |}.

(** The ORM writes [status] and the values (the version is not touched); a changed status
    that is not [queued] drops the entries (flush hook). *)
Definition set_status_values (status : job_status) (v : move_values) (j : queued_job) : queued_job :=
  let r := apply_values status v (j_run j) in
  with_run {| jr_status := jr_status r; jr_version := jr_version (j_run j);
              jr_worker_id := jr_worker_id r; jr_worker_pid := jr_worker_pid r;
              jr_child_pid := jr_child_pid r; jr_started_at := jr_started_at r;
              jr_finished_at := jr_finished_at r; jr_duration := jr_duration r;
              jr_output := jr_output r; jr_error := jr_error r; jr_traceback := jr_traceback r;
              jr_termination_reason := jr_termination_reason r; jr_runs := jr_runs r |} j.

Definition release_write (ev : env) (j : queued_job) (status : job_status) (v : move_values)
    (st : store) : store * result store_error bool :=
  if is_terminal (Some status) then
    _finish_in ev (j_id j) status v
      {| fe_created_at := Some (j_created_at j); fe_version := None; fe_status := None;
         fe_idle := false |} st
  else if decide (status = Queued) then (write_ready ev [j] false st, Ok true)
  else
    let st1 := with_live (update_where (λ x, j_id x = j_id j) (set_status_values status v) (live st)) st in
    (if decide (j_status j = status) then st1 else _drop_entries [j_id j] st1, Ok true).

Definition found_status (f : found) : option job_status :=
  match f with
  | FLive j => Some (j_status j)
  | FHistory j => Some (j_status j)
  | _ => None
  end.

Definition release_claimed_job (ev : env) (job : queued_job) (worker : Z) (status : job_status)
    (jobs_processed : Z) (v : move_values) (st : store) : store * result store_error found :=
  match job_by_key st (j_id job) (j_created_at job) with
  | None => (release_worker ev worker jobs_processed st, Ok FNone)
  | Some j =>
      let a := open_attempt_of (attempts st) (j_id j) in
      let started := match a with Some a => Some (at_claimed_at a) | None => jr_started_at (j_run j) end in
      let o := if decide (status = Success) then OSuccess else OFailed in
      let st1 := with_attempts (close_unfenced_stmt (j_id j) o (e_now ev) (attempts st)) st in
      match release_write ev j status (release_values ev started v) st1 with
      | (_, Err e) => (st, Err e)
      | (st2, Ok _) =>
          let st3 := release_worker ev worker jobs_processed st2 in
          let result := _find_job st3 (j_id j) in
          (match found_status result with
           | Some Success | Some Failed =>
               _release_dependents_quietly ev (j_id j) (j_parent j) st3
           | _ => st3
           end, Ok result)
      end
  end.

(** ** The ancestors of a retry *)

Definition set_status (status : job_status) (j : queued_job) : queued_job :=
  let r := j_run j in
  with_run {| jr_status := status; jr_version := jr_version r;
              jr_worker_id := jr_worker_id r; jr_worker_pid := jr_worker_pid r;
              jr_child_pid := jr_child_pid r; jr_started_at := jr_started_at r;
              jr_finished_at := jr_finished_at r; jr_duration := jr_duration r;
              jr_output := jr_output r; jr_error := jr_error r; jr_traceback := jr_traceback r;
              jr_termination_reason := jr_termination_reason r; jr_runs := jr_runs r |} j.

Definition cascade_one (ev : env) (id : Z) (created : time) (status : job_status) (st : store)
    : store * result store_error bool :=
  if is_terminal (Some status) then
    _finish_in ev id status no_values
      (status_fences created [Queued; Running; Failed; ShuttingDown]) st
  else
    (with_live (update_where (λ j, j_id j = id ∧ j_created_at j = created ∧
                                   j_status j ∉ [Success; Archived])
                  (set_status status) (live st)) st, Ok true).

(** [while current_id and current_id not in seen]; the whole walk is one transaction. *)
Fixpoint cascade_loop (fuel : nat) (ev : env) (status : job_status) (current : option Z)
    (seen : list Z) (st : store) : store * loop_result unit :=
  match current with
  | None => (st, Done tt)
  | Some id =>
      if decide (id = 0 ∨ id ∈ seen) then (st, Done tt)
      else
        match fuel with
        | O => (st, OutOfFuel)
        | S fuel =>
            match anywhere_by_id st id with
            | None => (st, Done tt)
            | Some row =>
                match cascade_one ev id (j_created_at row) status st with
                | (_, Err e) => (st, Raised e)
                | (st', Ok _) => cascade_loop fuel ev status (j_parent row) (id :: seen) st'
                end
            end
        end
  end.

(** Every round visits another job, so the number of jobs is enough fuel
    ([cascade_loop_done]). *)
Definition cascade_ancestor_status (ev : env) (id : Z) (status : job_status) (st : store)
    : store * loop_result unit :=
  cascade_loop (S (length (live st) + length (history st))) ev status
    (anywhere_by_id st id ≫= λ j, j_parent j) [] st.

(** ** Manual retry of failed jobs *)

Definition retry_spec (now : time) (old : queued_job) : job_spec :=
  let sp := j_spec old in
  {| js_task_path := js_task_path sp; js_kwargs := js_kwargs sp;
     js_queue_name := js_queue_name sp; js_priority := js_priority sp;
     js_parent_job_id := Some (j_id old); js_retry_count := 0;
     js_max_retries := js_max_retries sp; js_retry_backoff := js_retry_backoff sp;
     js_allow_parallel := js_allow_parallel sp; js_timeout_seconds := js_timeout_seconds sp;
     js_job_name := js_job_name sp; js_tags := js_tags sp;
     js_retry_intervals := js_retry_intervals sp; js_meta := js_meta sp;
     js_dependencies := js_dependencies sp; js_on_success_path := js_on_success_path sp;
     js_on_failure_path := js_on_failure_path sp; js_ttl := js_ttl sp;
     js_result_ttl := js_result_ttl sp; js_failure_ttl := js_failure_ttl sp;
     js_scheduled_task_id := js_scheduled_task_id sp; js_created_at := now;
     js_scheduled_at := None |}.

(** [ORDER BY finished_at, id] *)
Definition finished_le (a b : queued_job) : Prop :=
  let fa := default 0 (jr_finished_at (j_run a)) in
  let fb := default 0 (jr_finished_at (j_run b)) in
  fa < fb ∨ (fa = fb ∧ j_id a <= j_id b).
#[global] Instance finished_le_dec a b : Decision (finished_le a b).
Proof. unfold finished_le. apply _. Defined.

Definition has_retry_child (st : store) (id : Z) : bool :=
  exists_where (λ j, j_parent j = Some id) (job_all st).

Definition limited {A} (n : option nat) (l : list A) : list A :=
  match n with
  | Some (S m) => take (S m) l
  | _ => l
  end.

(** [if queue_name: .. WHERE queue_name = ..] *)
Definition in_queue (queue_name : option string) (j : queued_job) : bool :=
  match queue_name with
  | None => true
  | Some q => bool_decide (q = "") || bool_decide (js_queue_name (j_spec j) = q)
  end.

Definition retryable (st : store) (queue_name : option string) : list queued_job :=
  order_by finished_le (filter (λ j,
    j_status j = Failed ∧ has_retry_child st (j_id j) = false ∧
    in_queue queue_name j = true) (history st)).

(** [ids] are the ids the flush hook generates for the copies. *)
Definition retry_failed_jobs (ev : env) (ids : list Z) (queue_name : option string)
    (max_jobs : option nat) (st : store) : store * nat :=
  let failed := limited max_jobs (retryable st queue_name) in
  (foldl (λ st '(id, old), insert_job ev {| j_id := id; j_spec := retry_spec (e_now ev) old;
                                            j_run := fresh_run |} st) st (zip ids failed),
   length failed).

(** ** What the operations preserve *)

Section preserve.
Context {X : list Z} (ev : env) (Hev : env_ok ev).

Lemma sound_staged s st : inv X st → sound X st (with_staged s st).
Proof using. intros [[] Hc]. split; [split; [by split|done]|by apply evolves_entries]. Qed.

Lemma sound_workers w st : inv X st → sound X st (with_workers w st).
Proof using. intros [[] Hc]. split; [split; [by split|done]|by apply evolves_entries]. Qed.

Lemma ensure_entry_has j st : has_entry (_ensure_entry ev j true st) (j_id j).
Proof using.
  left. destruct (insert_nothing_key ready_key (ready st) (ready_values j (e_slot ev)))
    as (y & Hy & Hk). eexists. split; [apply elem_of_update_where; eauto|].
  injection Hk as _ Hk. by case_decide.
Qed.

Lemma insert_job_sound j st :
  inv X st → unused_id (j_id j) st → sound X st (insert_job ev j st).
Proof using Hev.
  intros [Hwf Hc] Hu.
  assert (wf (write_ready ev [j] true st)) as Hwf1.
  { apply wf_write_ready; [done..|]. intros j0 ->%list_elem_of_singleton j' Hj' Hid.
    by destruct (un_live _ _ Hu j' Hj'). }
  assert (∀ e, e ∈ ready (_ensure_entry ev j true st) → re_job_id e = j_id j →
               re_created_at e = j_created_at j) as Hready.
  { intros e (e0 & He0 & ->)%elem_of_update_where Hid.
    assert (re_job_id e0 = j_id j → re_created_at e0 = j_created_at j) as H0; [|by case_decide; apply H0].
    intros Hid0. apply insert_all_nothing_elem in He0 as [He0|He0].
    - by destruct (un_ready _ _ Hu e0 He0).
    - by apply list_elem_of_singleton in He0 as ->. }
  unfold insert_job. split; [split|].
  - apply wf_append_live; [by apply wf_update_ready|apply Hu|apply Hu|done|].
    intros b Hb Hid. by destruct (un_blocked _ _ Hu b Hb).
  - assert (covered_except X (_ensure_entry ev j true st)) as Hc1.
    { apply covered_update_ready, covered_write_ready. eapply covered_weaken, Hc. set_solver. }
    pose proof (ensure_entry_has j st) as Hj.
    intros j' (Hj' & Hs & Hr). simpl in Hj'.
    apply elem_of_app in Hj' as [Hj'| ->%list_elem_of_singleton]; [|by right].
    by apply (Hc1 j').
  - split; simpl; try done; intros x Hx; exists x; [|done].
    split; [|done]. left. by apply elem_of_app; left.
Qed.

(** Jobs replaced by name are gone with their entries; then their dependents are released. *)
Lemma replace_named_quiet name st :
  inv X st → ∃ st1,
    (∀ j, j ∈ live st1 ↔ j ∈ live st ∧
       match name with Some n => n ≠ "" → js_job_name (j_spec j) ≠ Some n | None => True end) ∧
    persists st st1 ∧ quiet X st1 (replace_named ev name st).
Proof using Hev.
  intros Hi. pose proof Hi as [Hwf Hc]. unfold replace_named.
  destruct name as [n|]; [|exists st; split_and!; [naive_solver|done|auto with sqlery]].
  case_decide as Hn; [exists st; split_and!; [naive_solver|done|auto with sqlery]|].
  set (named := λ j, js_job_name (j_spec j) = Some n).
  set (ids := j_id <$> filter named (live st)).
  set (st1 := _drop_entries ids (with_live (delete_where named (live st)) st)).
  assert (inv X st1) as Hi1.
  { split; [by apply wf_drop_entries, wf_delete_live|].
    intros j (Hj & Hs & Hr). simpl in Hj. apply elem_of_delete_where in Hj as [Hj Hnj].
    assert (j_id j ∉ ids) as Hids.
    { intros (j' & Hid & Hj')%list_elem_of_fmap. apply list_elem_of_filter in Hj' as [Hn' Hj'].
      by rewrite (live_inj st Hwf j j' Hj Hj' Hid) in Hnj. }
    destruct (covered_delete_blocked ids _ _ (covered_delete_ready ids X st Hc) j) as [Hin|?];
      [by split_and!| |by right].
    left. set_solver. }
  exists st1. split_and!.
  - intros j. simpl. rewrite elem_of_delete_where. unfold named. naive_solver.
  - by apply persists_attempts.
  - apply (quiet_foldl _ (λ _ _, True)); [done| |done|by apply Forall_true].
    intros st2 id Hi2 _. by apply release_quietly_quiet.
Qed.

Lemma replace_named_inv name st :
  inv X st → inv X (replace_named ev name st) ∧ persists st (replace_named ev name st).
Proof using Hev.
  intros Hi. destruct (replace_named_quiet name st Hi) as (st1 & _ & Hp & Hq).
  split; [eauto with sqlery|]. etrans; [exact Hp|]. apply evolves_persists, Hq.
Qed.

Lemma create_job_inv threshold id sp st :
  inv X st → unused_id id (replace_named ev (js_job_name sp) st) →
  inv X (create_job ev threshold id sp st).1 ∧ persists st (create_job ev threshold id sp st).1 ∧
  evolves (replace_named ev (js_job_name sp) st) (create_job ev threshold id sp st).1.
Proof using Hev.
  intros Hi Hu. destruct (replace_named_inv (js_job_name sp) st Hi) as [Hi1 Hp1].
  assert (sound X (replace_named ev (js_job_name sp) st) (create_job ev threshold id sp st).1) as Hs.
  { unfold create_job. cbv zeta. case_match; [by apply sound_staged|by apply insert_job_sound]. }
  destruct Hs as [? ?]. split_and!; [done| |done]. etrans; [done|by apply evolves_persists].
Qed.

(** *** Completion *)

(** The handle a completion presents belongs to the job it completes. *)
Definition handle_for (st : store) (id : Z) (attempt : option AttemptHandle) : Prop :=
  match attempt with
  | None => True
  | Some h => ∀ a, a ∈ attempts st → at_id a = h_id h → at_job_id a = id
  end.

Lemma close_attempt_step id attempt o st st1 r :
  inv X st → handle_for st id attempt → _close_attempt ev id attempt o st = (st1, r) →
  wf st1 ∧ covered_except (id :: X) st1 ∧ evolves st st1 ∧ live st1 = live st.
Proof using.
  intros [Hwf Hc] Hh. unfold _close_attempt. destruct attempt as [h|]; intros [= <- <-]; split_and!.
  - by apply wf_close.
  - apply covered_close; [|done]. intros a Ha [Hid _]. by apply (Hh a).
  - apply evolves_close. by intros a (_ & _ & ?).
  - done.
  - by apply wf_close.
  - apply covered_close; [|done]. by intros a _ [? _].
  - apply evolves_close. by intros a [_ ?].
  - done.
Qed.

(** A row that is marked failed stays in the live table and does not wait any more. *)
Lemma mark_row_sound id expected v st row :
  wf st → covered_except (id :: X) st → row ∈ live st → version_fence id expected row →
  sound X st (with_live (update_where (version_fence id expected)
                (λ j, with_run (apply_values Failed v (j_run j)) j) (live st)) st).
Proof using.
  clear Hev. intros Hwf Hc Hrow [Hid Hv]. split; [split|].
  - by apply wf_update_live.
  - apply (covered_frame _ _ _ _ Hc). intros j (Hj & Hs & Hrun) HX. right.
    apply elem_of_update_where in Hj as (j0 & Hj0 & ->).
    destruct (decide (version_fence id expected j0)) as [|Hnf]; [done|].
    assert (j_id j0 ≠ id) as Hne.
    { intros Hid0. apply Hnf. by rewrite (live_inj st Hwf j0 row Hj0 Hrow (eq_trans Hid0 (eq_sym Hid))). }
    split; [set_solver|]. split; [|done]. by exists j0.
  - by apply evolves_update_live.
Qed.

Lemma completion_write_true id expected status v st st' :
  wf st → covered_except (id :: X) st → is_terminal (Some status) = true →
  completion_write ev id expected status v st = (st', Ok true) → sound X st st'.
Proof using.
  clear Hev. intros Hwf Hc Ht. unfold completion_write. destruct (owes_retry status v) eqn:Hr.
  - unfold owes_retry in Hr. apply andb_true_iff in Hr as [->%bool_decide_eq_true _].
    intros Heq. injection Heq as <- Hn%bool_decide_eq_true.
    apply rowcount_pos in Hn as (row & Hrow & Hf). by eapply mark_row_sound.
  - intros Hf. apply (finish_in_true (X:=X)) in Hf as (? & ? & ?); [|done..]. by split; [split|].
Qed.

(** A completion commits as a whole or leaves the store as it was. *)
Lemma completion_txn_sound id expected status v attempt o st st' r :
  inv X st → handle_for st id attempt → is_terminal (Some status) = true →
  completion_txn ev id expected status v attempt o st = (st', r) →
  sound X st st' ∧ (r = Ok true ∨ st' = st).
Proof using.
  intros Hi Hh Ht. unfold completion_txn.
  destruct (_close_attempt ev id attempt o st) as [st1 [[]|e]] eqn:Hc.
  2: { intros [= <- <-]. split; [auto with sqlery|by right]. }
  apply close_attempt_step in Hc as (Hwf1 & Hc1 & He1 & _); [|done..].
  destruct (completion_write ev id expected status v st1) as [st2 [[]|e]] eqn:Hw;
    intros [= <- <-]; try (split; [auto with sqlery|by right]).
  split; [|by left]. apply completion_write_true in Hw as [? ?]; [|done..].
  split; [done|by etrans].
Qed.

Lemma fenced_update_sound id expected status v attempt o parent st st' r :
  inv X st → handle_for st id attempt → is_terminal (Some status) = true →
  _fenced_update ev id expected status v attempt o parent st = (st', r) →
  sound X st st' ∧ (∀ e, r = Err e → st' = st).
Proof using Hev.
  intros Hi Hh Ht. unfold _fenced_update.
  destruct (completion_txn ev id expected status v attempt o st) as [st1 [b|e]] eqn:Hc;
    apply completion_txn_sound in Hc as [Hs Hr]; try done.
  - destruct b; intros [= <- <-]; [|split; [done|intros e [=]]].
    split; [|intros e [=]]. case_match; [|done].
    eapply sound_trans; [done|]. intros Hi1. by apply release_quietly_sound.
  - intros [= <- <-]. split; [done|]. intros _ _. by destruct Hr.
Qed.

Lemma mark_job_success_sound seen id output expected attempt st st' r :
  inv X st → handle_for st id attempt →
  mark_job_success ev seen id output expected attempt st = (st', r) →
  sound X st st' ∧ (∀ e, r = Err e → st' = st).
Proof using Hev.
  intros Hi Hh. assert (sound X st st) as Hrefl by auto with sqlery.
  unfold mark_job_success.
  destruct seen as [j|j|s|]; try (by intros [= <- <-]).
  destruct (job_by_id st id) as [row|]; [|by intros [= <- <-]].
  destruct (mark_success _ _ _ output) as [r1|] eqn:Hm; [|by intros [= <- <-]].
  assert (jr_status r1 = Success) as Hst.
  { unfold mark_success in Hm. destruct output; simpl in Hm; [|done]. by injection Hm as <-. }
  apply fenced_update_sound; [done..|]. by rewrite Hst.
Qed.

Lemma mark_job_failed_sound seen id error tb reason expected attempt st st' r :
  inv X st → handle_for st id attempt →
  mark_job_failed ev seen id error tb reason expected attempt st = (st', r) →
  sound X st st' ∧ (∀ e, r = Err e → st' = st).
Proof using Hev.
  intros Hi Hh. assert (sound X st st) as Hrefl by auto with sqlery.
  unfold mark_job_failed.
  destruct seen as [j|j|s|]; try (by intros [= <- <-]).
  destruct (job_by_id st id) as [row|]; [|by intros [= <- <-]].
  by apply fenced_update_sound.
Qed.

(** *** Settling, cancelling, recovering *)

Lemma finish_in_sound id status v f st :
  inv X st → is_terminal (Some status) = true → sound X st (_finish_in ev id status v f st).1.
Proof using.
  intros [Hwf Hc] Ht.
  destruct (finish_in_cases ev id status v f st Hwf) as [(j & Hj & Hm & ->)|[_ ->]];
    [|auto with sqlery]. split; [split|by apply evolves_finished].
  - by apply wf_finished.
  - apply covered_finished; [done..|]. eapply covered_weaken, Hc. clear. set_solver.
Qed.

Lemma settle_failed_sound id status st :
  inv X st → is_terminal (Some status) = true → sound X st (settle_failed ev id status st).1.
Proof using.
  intros Hi Ht. unfold settle_failed. case_match; [|auto with sqlery]. by apply finish_in_sound.
Qed.

Lemma cancel_job_sound id st : inv X st → sound X st (cancel_job ev id st).1.
Proof using Hev.
  intros Hi. pose proof Hi as [Hwf Hc]. unfold cancel_job.
  assert (sound X st (cancel_staged ev id st).1) as Hstage.
  { unfold cancel_staged. case_match; [by apply sound_staged|auto with sqlery]. }
  destruct (first_where _ (live st)) as [j|]; [|done].
  destruct (_finish_in _ _ _ _ _ _) as [st' [[]|e]] eqn:Hf; [|done|auto with sqlery].
  apply (finish_in_true (X:=X)) in Hf as (? & ? & ?);
    [|auto with sqlery|by apply covered_drop_entries|done].
  eapply (sound_trans _ st'); [|intros; by apply release_quietly_sound].
  split; [by split|]. etrans; [apply (drop_entries_job [id])|done].
Qed.

Lemma request_job_revoke_sound id st : inv X st → sound X st (request_job_revoke id st).1.
Proof using.
  intros [Hwf Hc]. split; [split|by apply evolves_update_live].
  - by apply wf_update_live.
  - apply (covered_frame _ _ _ _ Hc). intros j (Hj & Hs & Hr) HX. right.
    apply elem_of_update_where in Hj as (j0 & Hj0 & ->).
    split; [done|]. split; [|done]. exists j0. by case_decide.
Qed.

Lemma fail_zombie_job_sound id reason st : inv X st → sound X st (fail_zombie_job ev id reason st).1.
Proof using Hev.
  intros Hi. unfold fail_zombie_job. assert (sound X st st) as Hrefl by auto with sqlery.
  destruct (job_by_id st id) as [j|]; [|done].
  destruct (negb _); [done|]. destruct (open_attempt_of (attempts st) id) as [a|]; [|done].
  destruct (_finish_in _ _ _ _ _ _) as [st' [[]|e]] eqn:Hf; [|done..].
  destruct (close_attempt_step id None OAbandoned st _ _ Hi I eq_refl) as (Hwf1 & Hc1 & He1 & _).
  apply (finish_in_true (X:=X)) in Hf as (? & ? & ?); [|done..].
  eapply (sound_trans _ st'); [|intros; by apply release_quietly_sound].
  split; [by split|by etrans].
Qed.

Lemma release_job_sound id st : inv X st → sound X st (release_job ev id st).
Proof using Hev.
  intros Hi. unfold release_job. assert (sound X st st) as Hrefl by auto with sqlery.
  destruct (job_by_id st id) as [j|] eqn:Hj; [|done]. apply job_by_id_Some in Hj as [Hj Hid]; [|apply Hi].
  destruct (negb _); [done|]. case_decide; [done|].
  destruct (close_attempt_step id None OAbandoned st _ _ Hi I eq_refl) as (Hwf1 & Hc1 & He1 & _).
  split; [split|].
  - apply wf_write_ready; [done..|]. intros j' ->%list_elem_of_singleton. by apply knows_live.
  - apply covered_write_ready. by rewrite Hid.
  - etrans; [exact He1|by apply evolves_entries].
Qed.

Lemma update_job_child_pid_sound id pid attempt st :
  inv X st → sound X st (update_job_child_pid id pid attempt st).
Proof using.
  intros [Hwf Hc].
  assert (∀ (P : job_attempt → Prop) (HD : ∀ a, Decision (P a)),
    (∀ a, P a → at_finished_at a = None) →
    sound X st (with_attempts (update_where P (set_child_pid pid) (attempts st)) st)) as Hgen.
  { intros P HD HP. split; [split|].
    - by apply wf_update_attempts.
    - apply (covered_frame _ _ _ _ Hc). intros j (Hj & Hs & Hr) HX. right.
      split; [done|]. split; [|done]. exists j. split; [|done]. split_and!; [done..|].
      apply is_running_false. intros a Ha Ho. rewrite is_running_false in Hr.
      apply (Hr (if decide (P a) then set_child_pid pid a else a)).
      + apply elem_of_update_where. eauto.
      + by case_decide.
    - apply evolves_update_attempts. intros a _ Ha. split; try done. by destruct 1; apply HP. }
  unfold update_job_child_pid, child_pid_stmt. destruct attempt as [h|]; apply Hgen.
  - by intros a (_ & _ & ?).
  - by intros a [_ ?].
Qed.

Lemma expire_queued_job_sound j error reason st :
  inv X st → sound X st (expire_queued_job ev j error reason st).1.
Proof using Hev.
  intros Hi. unfold expire_queued_job.
  destruct (_fail_queued ev j error reason st) as [st' [[]|e]] eqn:Hf; [|auto with sqlery..].
  apply (fail_queued_true (X:=X)) in Hf as [Hq _]; [|done].
  eapply sound_trans; [apply Hq|]. intros. by apply release_quietly_sound.
Qed.

Lemma release_write_sound j status v st st' b :
  wf st → j ∈ live st → covered_except (j_id j :: X) st →
  release_write ev j status v st = (st', Ok b) → sound X st st'.
Proof using Hev.
  intros Hwf Hj Hc. unfold release_write. destruct (is_terminal (Some status)) eqn:Ht.
  { intros Hf. match type of Hf with _finish_in _ ?id ?s ?v ?f _ = _ =>
      destruct (finish_in_cases ev id s v f st Hwf) as [(j' & Hj' & Hm & E)|[Hn _]] end.
    - rewrite E in Hf. injection Hf as <- _. split; [split|by apply evolves_finished].
      + by apply wf_finished.
      + by apply covered_finished.
    - exfalso. apply (Hn j Hj). by split_and!. }
  destruct (decide (status = Queued)) as [->|Hq].
  { intros [= <- <-]. split; [split|by apply evolves_entries].
    - apply wf_write_ready; [done..|]. intros j' ->%list_elem_of_singleton. by apply knows_live.
    - by apply covered_write_ready. }
  intros [= <- <-].
  set (st1 := with_live _ st).
  assert (wf st1) as Hwf1 by by apply wf_update_live.
  assert (evolves st st1) as He1 by by apply evolves_update_live.
  assert (∀ x, waiting st1 x → j_id x ≠ j_id j) as Hno.
  { intros x (Hx & Hs & _). apply elem_of_update_where in Hx as (x0 & _ & ->). by case_decide. }
  assert (covered_except X st1) as Hc1.
  { apply (covered_frame _ _ _ _ Hc). intros x Hw HX. specialize (Hno x Hw).
    destruct Hw as (Hx & Hs & Hr). right.
    split; [by rewrite not_elem_of_cons|]. split; [|done]. apply elem_of_update_where in Hx as (x0 & Hx0 & ->).
    exists x0. by case_decide. }
  case_decide; [by split|]. split; [split|].
  - by apply wf_drop_entries.
  - apply (covered_drop_idle (j_id j)); [done|]. by apply covered_drop_entries.
  - etrans; [exact He1|by apply evolves_entries].
Qed.

Lemma release_claimed_job_sound job worker status n v st :
  inv X st → sound X st (release_claimed_job ev job worker status n v st).1.
Proof using Hev.
  intros Hi. unfold release_claimed_job.
  destruct (job_by_key st (j_id job) (j_created_at job)) as [j|] eqn:Hj;
    [|by apply sound_workers]. apply job_by_key_Some in Hj as (Hj & Hid & _); [|apply Hi].
  set (o := if decide (status = Success) then OSuccess else OFailed).
  destruct (close_attempt_step (j_id j) None o st _ _ Hi I eq_refl) as (Hwf1 & Hc1 & He1 & Hl1).
  cbv zeta. destruct (release_write _ _ _ _ _) as [st2 [b|e]] eqn:Hw; [|auto with sqlery].
  apply release_write_sound in Hw; [|done..].
  assert (sound X st (release_worker ev worker n st2)) as Hs.
  { eapply sound_trans; [|intros; by apply sound_workers].
    destruct Hw as [? ?]. split; [done|by etrans]. }
  simpl. repeat case_match; try done; eapply sound_trans; try done;
    intros; by apply release_quietly_sound.
Qed.

(** *** The cascade over the ancestors of a retry *)

Lemma live_view_same atts j x : x ∈ live_view atts j → j_id x = j_id j ∧ j_spec x = j_spec j.
Proof using.
  unfold live_view. case_decide; [|by intros ->%list_elem_of_singleton].
  destruct (filter (open_for (j_id j)) atts) as [|a l]; [by intros ->%list_elem_of_singleton|].
  by intros (b & -> & _)%list_elem_of_fmap.
Qed.


Lemma anywhere_by_id_job st id j : anywhere_by_id st id = Some j → id ∈ job_ids st.
Proof using.
  intros Hf. apply first_where_Some in Hf as [Hj <-]. apply elem_of_app in Hj as [Hj|Hj].
  - apply list_elem_of_bind in Hj as (j0 & Hj & Hj0). apply elem_of_app. left.
    apply live_view_same in Hj as [-> _]. by apply list_elem_of_fmap_2.
  - apply elem_of_app. right. by apply list_elem_of_fmap_2.
Qed.

Lemma cascade_one_spec id created status st :
  inv X st → is_terminal (Some status) = true →
  ∃ st' b, cascade_one ev id created status st = (st', Ok b) ∧ sound X st st' ∧
    job_ids st' ⊆ job_ids st.
Proof using.
  clear Hev. intros Hi Ht. unfold cascade_one. rewrite Ht.
  match goal with |- context [_finish_in ev id status ?v ?f st] =>
    pose proof (finish_in_sound id status v f st Hi Ht) as Hs;
    destruct (finish_in_cases ev id status v f st (proj1 Hi)) as [(j & Hj & Hm & E)|[_ E]];
    rewrite E in * end; [|do 2 eexists; split_and!; [done..|set_solver]].
  do 2 eexists. split_and!; [done..|]. unfold job_ids; simpl. rewrite fmap_app. csimpl.
  intros i [Hin|[Hin|Hin]%elem_of_app]%elem_of_app; apply elem_of_app.
  - left. apply list_elem_of_fmap in Hin as (x & -> & [Hx _]%elem_of_delete_where).
    by apply list_elem_of_fmap_2.
  - by right.
  - left. apply list_elem_of_singleton in Hin as ->. by apply list_elem_of_fmap_2.
Qed.

Lemma cascade_loop_done (J : list Z) fuel status current seen st :
  inv X st → is_terminal (Some status) = true →
  job_ids st ⊆ J → NoDup seen → seen ⊆ J → (length J < fuel + length seen)%nat →
  ∃ st', cascade_loop fuel ev status current seen st = (st', Done tt) ∧ sound X st st'.
Proof using.
  clear Hev. revert current seen st.
  induction fuel as [|fuel IH]; intros current seen st Hi Ht HJ Hn Hs Hf.
  - exfalso. pose proof (submseteq_length _ _ (NoDup_submseteq seen J Hn Hs)). simpl in Hf. lia.
  - simpl. destruct current as [id|]; [|eauto using sound_refl].
    case_decide as Hd; [eauto using sound_refl|].
    destruct (anywhere_by_id st id) as [row|] eqn:Hrow; [|eauto using sound_refl].
    destruct (cascade_one_spec id (j_created_at row) status st Hi Ht)
      as (st1 & b & -> & Hs1 & Hids).
    destruct (IH (j_parent row) (id :: seen) st1) as (st2 & -> & Hs2).
    + apply Hs1.
    + done.
    + by etrans.
    + apply NoDup_cons. tauto.
    + apply anywhere_by_id_job in Hrow. set_solver.
    + simpl. lia.
    + eexists. split; [done|]. by eapply sound_trans.
Qed.

Lemma cascade_ancestor_status_done id status st :
  inv X st → is_terminal (Some status) = true →
  ∃ st', cascade_ancestor_status ev id status st = (st', Done tt) ∧ sound X st st'.
Proof using.
  clear Hev. intros Hi Ht. apply (cascade_loop_done (job_ids st)); try done; [apply NoDup_nil_2|set_solver|].
  unfold job_ids. rewrite length_app, !length_fmap. simpl. lia.
Qed.

(** *** Manual retry *)

Lemma unused_insert_job id j st : unused_id id st → id ≠ j_id j → unused_id id (insert_job ev j st).
Proof using.
  intros [Hl Hh Hr Hb] Hne. split; simpl; try done.
  - intros x [Hx| ->%list_elem_of_singleton]%elem_of_app; [auto|congruence].
  - intros e (e0 & He0 & ->)%elem_of_update_where.
    apply insert_nothing_elem in He0 as [He0| ->].
    + case_decide; simpl; by apply Hr.
    + case_decide; simpl; congruence.
Qed.

Lemma retry_failed_jobs_sound ids queue_name max_jobs st :
  inv X st → NoDup ids → Forall (λ id, unused_id id st) ids →
  sound X st (retry_failed_jobs ev ids queue_name max_jobs st).1.
Proof using Hev.
  unfold retry_failed_jobs. simpl. generalize (limited max_jobs (retryable st queue_name)).
  intros failed. revert ids st. induction failed as [|old failed IH]; intros [|id ids] st Hi Hn Hu;
    simpl; try auto with sqlery.
  apply NoDup_cons in Hn as [Hid Hn]. apply Forall_cons in Hu as [Hu1 Hu].
  set (j := {| j_id := id; j_spec := retry_spec (e_now ev) old; j_run := fresh_run |}).
  apply (sound_trans _ (insert_job ev j st)); [by apply insert_job_sound|].
  intros Hi1. apply IH; [done..|].
  apply Forall_forall. intros x Hx. rewrite Forall_forall in Hu.
  apply unused_insert_job; [by apply Hu|]. simpl. congruence.
Qed.
End preserve.
(** A handle of the job closed: no attempt of the job is left open. *)
Lemma closed_none_open ev id h o st st1 :
  wf st → handle_for st id (Some h) → _close_attempt ev id (Some h) o st = (st1, Ok tt) →
  ∀ a, a ∈ attempts st1 → ¬ open_for id a.
Proof.
  intros Hwf Hh Hc. unfold _close_attempt, decide_close in Hc. injection Hc as <- Hn.
  case_decide as H1; [|done].
  assert (∃ b, b ∈ attempts st ∧ exact_open h b) as (b & Hb & Hob) by (apply (rowcount_pos (exact_open h)); lia).
  intros a' (a & Ha & ->)%elem_of_update_where Ho. case_decide as Hex; [by destruct Ho|].
  apply Hex. rewrite (wf_one_open st Hwf id a b); [done..|]. split; [by apply (Hh b); [|apply Hob]|apply Hob].
Qed.

Lemma unfenced_none_open ev id o st st1 r :
  _close_attempt ev id None o st = (st1, r) → r = Ok tt ∧ ∀ a, a ∈ attempts st1 → ¬ open_for id a.
Proof.
  intros [= <- <-]. split; [done|]. intros a' (a & Ha & ->)%elem_of_update_where Ho. case_decide; [|done].
  by destruct Ho.
Qed.

