(* ===== verification/Demo.v ===== *)
(** * A concrete queue

    Small closed stores the witnesses evaluate: two jobs of one queue (the second depends on
    the first), created, claimed and completed. *)

From S2P Require Import Prelude Sql PyString Models Retry Attempts Ready History Store StoreInv Dependents Claim Complete.
From stdpp Require Import gmap.
From Stdlib Require Import Qcanon.
#[local] Open Scope string_scope.
#[local] Open Scope Z_scope.

(** A process with no configured limits and no foreign locks. *)
Definition demo_env (now : time) : env :=
  {| e_now := now; e_token := "tok"; e_pid := 7; e_slot := 0; e_conc := ∅; e_rate := ∅;
     e_partitioned := false; e_entry_locked := λ _, false; e_row_locked := λ _, false;
     e_tag_lock := λ _, true |}.

Definition demo_spec (priority : Z) (deps : list json) (name : option string) : job_spec :=
  {| js_task_path := "app.task"; js_kwargs := JObj []; js_queue_name := "default";
     js_priority := priority; js_parent_job_id := None; js_retry_count := 0;
     js_max_retries := 3; js_retry_backoff := Qc_of_Z 2; js_allow_parallel := true;
     js_timeout_seconds := None; js_job_name := name; js_tags := []; js_retry_intervals := None;
     js_meta := None; js_dependencies := deps; js_on_success_path := "";
     js_on_failure_path := ""; js_ttl := None; js_result_ttl := None; js_failure_ttl := None;
     js_scheduled_task_id := None; js_created_at := 0; js_scheduled_at := None |}.

Definition demo_empty : store :=
  {| live := []; history := []; attempts := []; ready := []; blocked := []; staged := [];
     workers := []; attempt_seq := 1 |}.

(** job 11, then job 12 that depends on it *)
Definition demo_one : store := (create_job (demo_env 1000) 1 11 (demo_spec 5 [] None) demo_empty).1.
Definition demo_two : store :=
  (create_job (demo_env 2000) 1 12 (demo_spec 9 [JNum 11] None) demo_one).1.

(** the first claim: 12 is blocked, 11 is claimed *)
Definition demo_claim := claim_job (demo_env 3000) ["default"] (Some 1) demo_two.
Definition demo_claimed : store := demo_claim.1.
Definition demo_handle : AttemptHandle :=
  {| h_id := 1; h_token := "tok"; h_job_id := 11; h_claimed_at := Some 3000;
     h_worker_id := Some 1; h_worker_pid := Some 7 |}.
Definition demo_job : queued_job := new_job 11 1000 (demo_spec 5 [] None).
Definition demo_job2 : queued_job := new_job 12 2000 (demo_spec 9 [JNum 11] None).

(** the worker reports success with its handle; 12 is released *)
Definition demo_success :=
  mark_job_success (demo_env 4000) (get_job_by_id (demo_env 4000) demo_claimed 11) 11 (Text "out")
    (Some 0) (Some demo_handle) demo_claimed.
Definition demo_done : store := demo_success.1.

Lemma demo_env_ok now : env_ok (demo_env now).
Proof. apply elem_of_cons. by left. Qed.

Lemma demo_claim_result :
  claim_job (demo_env 3000) ["default"] (Some 1) demo_two
  = (demo_claimed, Done (Some (_as_running demo_job demo_handle, demo_handle))).
Proof. vm_compute. reflexivity. Qed.

Lemma demo_claimed_blocked : (bl_job_id <$> blocked demo_claimed) = [12] ∧ ready demo_claimed = [].
Proof. vm_compute. done. Qed.

Lemma demo_done_shape :
  (j_id <$> live demo_done) = [12] ∧ (j_id <$> history demo_done) = [11] ∧
  (re_job_id <$> ready demo_done) = [12] ∧ blocked demo_done = [].
Proof. vm_compute. done. Qed.

(** The invariant along the run. *)
Lemma demo_empty_inv : inv [] demo_empty.
Proof.
  split; [split; simpl; try apply NoDup_nil_2; intros; exfalso; by eapply elem_of_nil|].
  intros j [Hj _]. by apply elem_of_nil in Hj.
Qed.

Lemma demo_one_inv : inv [] demo_one.
Proof.
  apply (create_job_inv (demo_env 1000) (demo_env_ok 1000) 1 11 (demo_spec 5 [] None) demo_empty demo_empty_inv).
  apply unused_id_intro, (bool_decide_unpack _). by vm_compute.
Qed.

Lemma demo_two_inv : inv [] demo_two.
Proof.
  apply (create_job_inv (demo_env 2000) (demo_env_ok 2000) 1 12 (demo_spec 9 [JNum 11] None) demo_one demo_one_inv).
  apply unused_id_intro, (bool_decide_unpack _). by vm_compute.
Qed.

Lemma demo_claimed_inv : inv [] demo_claimed.
Proof.
  destruct (claim_job_spec (demo_env 3000) (demo_env_ok 3000) ["default"] (Some 1) demo_two demo_two_inv)
    as (st' & r & Hc & Hr). unfold demo_claimed, demo_claim. rewrite Hc. simpl.
  destruct r as [[j h]|]; [|by eapply quiet_inv].
  destruct Hr as (st1 & st2 & c & e & j0 & Hq1 & Hcl & _ & _ & Hq2). by eapply quiet_inv.
Qed.

Definition demo_attempt : job_attempt :=
  {| at_id := 1; at_job_id := 11; at_token := "tok"; at_worker_id := Some 1; at_worker_pid := Some 7;
     at_child_pid := None; at_claimed_at := 3000; at_finished_at := None; at_outcome := None |}.

Lemma demo_claimed_attempts : attempts demo_claimed = [demo_attempt].
Proof. vm_compute. reflexivity. Qed.

Lemma demo_claimed_live : live demo_claimed = [demo_job; demo_job2].
Proof. vm_compute. reflexivity. Qed.

Lemma demo_claimed_row : job_by_id demo_claimed 11 = Some demo_job.
Proof. vm_compute. reflexivity. Qed.

Lemma demo_attempt_open : demo_attempt ∈ attempts demo_claimed ∧ open_for 11 demo_attempt.
Proof. rewrite demo_claimed_attempts. split; [apply list_elem_of_here|done]. Qed.

Lemma demo_job2_waiting : waiting demo_claimed demo_job2.
Proof.
  split_and!; [|done|vm_compute; reflexivity]. rewrite demo_claimed_live.
  apply elem_of_cons. right. apply list_elem_of_here.
Qed.

(** job 11 is in history, job 12 not released yet *)
Definition demo_between : store :=
  (completion_txn (demo_env 4000) 11 (Some 0) Success no_values (Some demo_handle) OSuccess demo_claimed).1.

Lemma demo_between_inv : inv [] demo_between.
Proof.
  destruct (completion_txn (demo_env 4000) 11 (Some 0) Success no_values (Some demo_handle) OSuccess demo_claimed)
    as [st' r] eqn:E. unfold demo_between. rewrite E.
  apply (completion_txn_sound (X:=[]) (demo_env 4000) 11) in E as [[? _] _]; [done|apply demo_claimed_inv| |done].
  intros a. rewrite demo_claimed_attempts. by intros ->%list_elem_of_singleton.
Qed.

Lemma demo_between_live : live demo_between = [demo_job2] ∧ (j_id <$> history demo_between) = [11].
Proof. split; vm_compute; reflexivity. Qed.

Lemma demo_between_waiting : waiting demo_between demo_job2.
Proof.
  split_and!; [|done|vm_compute; reflexivity]. rewrite (proj1 demo_between_live). apply list_elem_of_here.
Qed.

(** the retry of a failed job: 11 failed for good *)
Definition demo_failed : store :=
  (mark_job_failed (demo_env 4000) (FLive demo_job) 11 "boom" "" "error" (Some 0) (Some demo_handle) demo_claimed).1.
