(* ===== verification/Sweep.v ===== *)
(** * The repair sweeps (fastapi_sqlery/backend.py)

    [settle_finished_jobs] moves terminal rows stranded in the live table into history;
    [maintain_ready_queue] restores lost ready entries, drops stale ones and re-judges a page
    of blocked jobs. *)

From S2P Require Import Prelude Sql PyString Models Retry Attempts Ready History Store StoreInv Dependents Complete.
#[local] Open Scope string_scope.
#[local] Open Scope Z_scope.

(** ** Stranded terminal rows *)

(** [ORDER BY created_at, id] *)
Definition oldest_first (a b : queued_job) : Prop :=
  j_created_at a < j_created_at b ∨ (j_created_at a = j_created_at b ∧ j_id a <= j_id b).
#[global] Instance oldest_first_dec a b : Decision (oldest_first a b).
Proof. unfold oldest_first. apply _. Defined.

Definition finished_before (cutoff : time) (j : queued_job) : bool :=
  match jr_finished_at (j_run j) with None => true | Some t => t <=? cutoff end.

Definition stray_terminal (limit : nat) (cutoff : time) (st : store) : list queued_job :=
  take limit (order_by oldest_first (filter (λ j,
    j_status j ∈ TERMINAL_STATUSES ∧
    like_retry_pending (jr_termination_reason (j_run j)) = false ∧
    finished_before cutoff j = true) (live st))).

(** One stray row; [true] when it moved. *)
Definition settle_one (ev : env) (j : queued_job) (st : store) : store * result store_error bool :=
  match settle_status (j_status j) (Some (jr_termination_reason (j_run j)))
          (has_retry_child st (j_id j)) with
  | None => (st, Ok false)
  | Some status =>
      match _finish_in ev (j_id j) status
              (reason_values (settled_termination_reason (Some (jr_termination_reason (j_run j)))))
              (status_fences (j_created_at j) [j_status j]) st with
      | (st', Ok true) => (_release_dependents_quietly ev (j_id j) (j_parent j) st', Ok true)
      | r => r
      end
  end.

(** The loop stops at the first error and never raises. *)
Fixpoint settle_loop (ev : env) (strays : list queued_job) (moved : Z) (st : store) : store * Z :=
  match strays with
  | [] => (st, moved)
  | j :: strays =>
      match settle_one ev j st with
      | (st', Ok b) => settle_loop ev strays (if b then moved + 1 else moved) st'
      | (st', Err _) => (st', moved)
      end
  end.

Definition settle_finished_jobs (ev : env) (limit : nat) (grace : Z) (st : store) : store * Z :=
  settle_loop ev (stray_terminal limit (e_now ev - grace) st) 0 st.

(** ** The ready queue *)

Definition in_queues (queue_names : list string) (q : string) : bool :=
  match queue_names with [] => true | _ => bool_decide (q ∈ queue_names) end.

Definition has_ready (st : store) (id : Z) : bool := exists_where (entry_of [id]) (ready st).
Definition has_blocked (st : store) (id : Z) : bool :=
  exists_where (λ b, bl_job_id b = id) (blocked st).

(** Waiting jobs that have no entry at all. *)
Definition lost_jobs (queue_names : list string) (limit : nat) (st : store) : list queued_job :=
  take limit (filter (λ j,
    waiting_clause (attempts st) j = true ∧ has_ready st (j_id j) = false ∧
    has_blocked st (j_id j) = false ∧ in_queues queue_names (js_queue_name (j_spec j)) = true)
    (live st)).

(** The entry is that of a waiting job. *)
Definition entry_live (st : store) (e : job_ready) : bool :=
  exists_where (λ j, j_id j = re_job_id e ∧ j_created_at j = re_created_at e ∧
                     waiting_clause (attempts st) j = true) (live st).

Definition stale_entries (ev : env) (queue_names : list string) (limit : nat) (st : store)
    : list job_ready :=
  take limit (filter (λ e,
    entry_live st e = false ∧ in_queues queue_names (re_queue_name e) = true ∧
    e_entry_locked ev (re_job_id e) = false) (ready st)).

(** [for entry in ..: dropped += delete_entry(..).rowcount] *)
Fixpoint drop_stale (entries : list job_ready) (dropped : nat) (st : store) : store * nat :=
  match entries with
  | [] => (st, dropped)
  | e :: entries =>
      drop_stale entries (dropped + rowcount (is_entry (re_slot e) (re_job_id e)) (ready st))
        (delete_entry (re_slot e) (re_job_id e) st)
  end.

(** [SELECT DISTINCT job_id, created_at .. WHERE job_id > after ORDER BY job_id LIMIT n] *)
Definition row_le (a b : Z * Z) : Prop := a.1 <= b.1.
#[global] Instance row_le_dec a b : Decision (row_le a b).
Proof. unfold row_le. apply _. Defined.

Definition blocked_page (after_job_id : Z) (limit : nat) (st : store) : list (Z * Z) :=
  take limit (order_by row_le (remove_dups
    ((λ b, (bl_job_id b, bl_created_at b)) <$> filter (λ b, after_job_id < bl_job_id b) (blocked st)))).

Definition restore_lost (ev : env) (queue_names : list string) (limit : nat) (st : store) : store :=
  match lost_jobs queue_names limit st with
  | [] => st
  | (_ :: _) as lost => write_ready ev lost false st
  end.

(** The repair transaction: restore, then drop. *)
Definition repair_entries (ev : env) (queue_names : list string) (limit : nat) (st : store)
    : store * nat * nat :=
  let st1 := restore_lost ev queue_names limit st in
  let '(st2, dropped) := drop_stale (stale_entries ev queue_names limit st1) 0 st1 in
  (st2, length (lost_jobs queue_names limit st), dropped).

Record sweep_report : Type := {
  sw_restored : nat;
  sw_dropped : nat;
  sw_rechecked : nat;
  sw_settled : Z;
  sw_cursor : Z;
}.

Definition maintain_ready_queue (ev : env) (queue_names : list string) (limit : nat) (grace : Z)
    (after_job_id : Z) (st : store) : store * sweep_report :=
  let '(st1, settled) := settle_finished_jobs ev limit grace st in
  let '(st2, restored, dropped) := repair_entries ev queue_names limit st1 in
  let page := blocked_page after_job_id limit st2 in
  (foldl (λ st '(id, created), _recheck_blocked_quietly ev id created st) st2 page,
   {| sw_restored := restored; sw_dropped := dropped; sw_rechecked := length page;
      sw_settled := settled;
      sw_cursor := if (limit <=? length page)%nat then default 0 (fst <$> last page) else 0 |}).

(** ** What the sweeps preserve *)

Section sweep.
Context (ev : env) (Hev : env_ok ev).

Lemma settle_one_sound {X} j st : inv X st → sound X st (settle_one ev j st).1.
Proof using Hev.
  intros Hi. unfold settle_one. destruct (settle_status _ _ _) as [status|] eqn:Hs;
    [|auto with sqlery]. apply settle_status_terminal in Hs as [_ Ht].
  match goal with |- context [_finish_in ev ?id status ?v ?f st] =>
    pose proof (finish_in_sound ev id status v f st Hi Ht) as Hf;
    destruct (_finish_in ev id status v f st) as [st1 [[]|e]] end; [|done..].
  eapply sound_trans; [exact Hf|]. intros. by apply release_quietly_sound.
Qed.

Lemma settle_loop_sound {X} strays moved st : inv X st → sound X st (settle_loop ev strays moved st).1.
Proof using Hev.
  revert moved st. induction strays as [|j strays IH]; intros moved st Hi; simpl;
    [auto with sqlery|].
  pose proof (settle_one_sound j st Hi) as Hs.
  destruct (settle_one ev j st) as [st1 [b|e]]; [|done].
  eapply sound_trans; [exact Hs|]. intros Hi1. by apply IH.
Qed.

(** A settle sweep adds no live job. *)
Lemma settle_one_live {X} j st : inv X st → live (settle_one ev j st).1 ⊆ live st.
Proof using Hev.
  intros Hi. unfold settle_one. destruct (settle_status _ _ _) as [status|] eqn:Hs; [|done].
  apply settle_status_terminal in Hs as [_ Ht].
  match goal with |- context [_finish_in ev ?id status ?v ?f st] =>
    pose proof (finish_in_sound ev id status v f st Hi Ht) as Hf;
    destruct (_finish_in ev id status v f st) as [st1 [[]|e]] eqn:E end;
    pose proof (finish_in_subset _ _ _ _ _ _ _ _ E); [|done..].
  etrans; [|done]. by apply (release_quietly_quiet (X:=X)), Hf.
Qed.

Lemma settle_loop_live {X} strays moved st :
  inv X st → live (settle_loop ev strays moved st).1 ⊆ live st.
Proof using Hev.
  revert moved st. induction strays as [|j strays IH]; intros moved st Hi; simpl; [done|].
  pose proof (settle_one_sound j st Hi) as Hs. pose proof (settle_one_live j st Hi) as Hl.
  destruct (settle_one ev j st) as [st1 [b|e]]; [|done]. etrans; [|exact Hl]. by apply IH, Hs.
Qed.

Lemma live_subset_length st st' :
  wf st' → live st' ⊆ live st → (length (live st') <= length (live st))%nat.
Proof using.
  intros Hwf Hs. apply submseteq_length, NoDup_submseteq; [|done].
  eapply NoDup_fmap_1, Hwf.
Qed.

(** Stale entries may go: nobody waits behind them. *)
Lemma drop_stale_quiet {X} entries n st :
  inv X st → Forall (λ e, ∀ j, waiting st j → j_id j ≠ re_job_id e) entries →
  quiet X st (drop_stale entries n st).1.
Proof using.
  revert n st. induction entries as [|e entries IH]; intros n st Hi Hl; simpl; [auto with sqlery|].
  apply Forall_cons in Hl as [He Hl].
  apply (quiet_trans _ (delete_entry (re_slot e) (re_job_id e) st)); [by apply quiet_delete_entry|].
  intros Hi1. by apply IH.
Qed.

Lemma entry_live_false st e j :
  wf st → e ∈ ready st → entry_live st e = false → waiting st j → j_id j ≠ re_job_id e.
Proof using.
  intros Hwf He Hl (Hj & Hs & Hr) Hid. unfold entry_live in Hl. rewrite exists_where_false in Hl.
  apply (Hl j Hj). split_and!; [done| |].
  - symmetry. by apply (wf_ready_created st Hwf).
  - unfold waiting_clause. unfold _is_running in Hr. by rewrite Hr, bool_decide_true.
Qed.

Lemma stale_entries_idle queue_names limit st :
  wf st → Forall (λ e, ∀ j, waiting st j → j_id j ≠ re_job_id e)
            (stale_entries ev queue_names limit st).
Proof using.
  intros Hwf. apply Forall_forall. intros e He j Hj.
  apply elem_of_take in He as (i & He & _). apply list_elem_of_lookup_2 in He.
  apply list_elem_of_filter in He as [[Hl _] He]. by eapply entry_live_false.
Qed.

(** Every waiting job without an entry is restored, if the page is large enough. *)
Lemma restore_covered st limit :
  (length (live st) <= limit)%nat →
  covered (restore_lost ev [] limit st).
Proof using.
  intros Hlim.
  assert (∀ j, waiting st j → j ∈ lost_jobs [] limit st ∨ has_entry st (j_id j)) as Hlost.
  { intros j (Hj & Hs & Hr). unfold lost_jobs.
    destruct (has_ready st (j_id j)) eqn:Hre.
    { right. left. apply exists_where_true in Hre as (e & He & [_ Hid]).
      exists e. by apply list_elem_of_singleton in Hid. }
    destruct (has_blocked st (j_id j)) eqn:Hbl.
    { right. right. by apply exists_where_true in Hbl. }
    left. rewrite take_ge by (etrans; [apply length_filter|done]).
    apply list_elem_of_filter. split; [|done]. split_and!; try done.
    unfold waiting_clause. unfold _is_running in Hr. by rewrite Hr, bool_decide_true. }
  unfold restore_lost. destruct (lost_jobs [] limit st) as [|l ls] eqn:Hl; intros j Hj; right.
  - by destruct (Hlost j Hj) as [?%elem_of_nil|?].
  - destruct (Hlost j Hj) as [Hin|?]; [|by apply has_entry_write_ready].
    left. assert (ready_values j (e_slot ev) ∈ (λ j, ready_values j (e_slot ev)) <$>
      filter (λ j, _is_running st (j_id j) = false) (l :: ls)) as Hin'.
    { apply list_elem_of_fmap. exists j. split; [done|]. apply list_elem_of_filter.
      split; [apply Hj|done]. }
    destruct (insert_all_nothing_key ready_key _ (ready st) _ Hin') as (y & Hy & Hk).
    exists y. split; [done|]. by injection Hk.
Qed.

Lemma lost_jobs_live queue_names limit st j : j ∈ lost_jobs queue_names limit st → j ∈ live st.
Proof using.
  intros Hj. apply elem_of_take in Hj as (i & Hj & _). apply list_elem_of_lookup_2 in Hj.
  by apply list_elem_of_filter in Hj as [_ ?].
Qed.

Lemma restore_step queue_names limit X st :
  inv X st →
  sound X st (restore_lost ev queue_names limit st).
Proof using Hev.
  intros Hi. unfold restore_lost. destruct (lost_jobs queue_names limit st) as [|l ls] eqn:Hl; [auto with sqlery|].
  split; [split|by apply evolves_entries].
  - apply wf_write_ready; [done|apply Hi|]. intros j Hj. apply knows_live; [apply Hi|].
    rewrite <-Hl in Hj. by eapply lost_jobs_live.
  - apply (covered_frame _ _ _ _ (proj2 Hi)). intros j Hj HX. right.
    split; [done|]. split; [by exists j|]. apply has_entry_write_ready.
Qed.

Lemma repair_entries_sound queue_names limit X st :
  inv X st → sound X st (repair_entries ev queue_names limit st).1.1.
Proof using Hev.
  intros Hi. unfold repair_entries. pose proof (restore_step queue_names limit X st Hi) as Hr.
  set (st1 := restore_lost ev queue_names limit st) in *.
  pose proof (drop_stale_quiet (stale_entries ev queue_names limit st1) 0 st1 (proj1 Hr)
    (stale_entries_idle _ _ _ (proj1 (proj1 Hr)))) as Hq.
  destruct (drop_stale _ 0 st1) as [st2 dropped]. eapply sound_trans; [exact Hr|].
  intros _. apply Hq.
Qed.

(** With a page for every live job the repair leaves no waiting job uncovered, whatever the
    entry tables were. *)
Lemma repair_entries_covers limit X st :
  inv X st → (length (live st) <= limit)%nat → inv [] (repair_entries ev [] limit st).1.1.
Proof using Hev.
  intros Hi Hlim. unfold repair_entries. pose proof (restore_step [] limit X st Hi) as Hr.
  pose proof (restore_covered st limit Hlim) as Hc.
  set (st1 := restore_lost ev [] limit st) in *.
  assert (inv [] st1) as Hi1 by (split; [apply Hr|done]).
  pose proof (drop_stale_quiet (stale_entries ev [] limit st1) 0 st1 Hi1
    (stale_entries_idle _ _ _ (proj1 Hi1))) as Hq.
  destruct (drop_stale _ 0 st1) as [st2 dropped]. by eapply quiet_inv.
Qed.

Lemma blocked_page_ok after limit st : wf st → Forall (row_ok st) (blocked_page after limit st).
Proof using.
  intros Hwf. apply Forall_forall. intros row Hrow.
  apply elem_of_take in Hrow as (i & Hrow & _). apply list_elem_of_lookup_2 in Hrow.
  apply elem_of_order_by, elem_of_remove_dups, list_elem_of_fmap in Hrow as (b & -> & Hb).
  apply list_elem_of_filter in Hb as [_ Hb]. intros j Hj Hid. simpl in *.
  symmetry. by apply (wf_blocked_created st Hwf).
Qed.

Lemma recheck_page_quiet {X} page st :
  inv X st → Forall (row_ok st) page →
  quiet X st (foldl (λ st '(id, created), _recheck_blocked_quietly ev id created st) st page).
Proof using Hev.
  intros Hi Hp. apply (quiet_foldl _ row_ok); [intros ???; apply row_ok_subset| |done..].
  intros st1 [id created] Hi1 Hrow. by apply recheck_quietly_quiet.
Qed.

Lemma maintain_ready_queue_sound {X} queue_names limit grace after st :
  inv X st → sound X st (maintain_ready_queue ev queue_names limit grace after st).1.
Proof using Hev.
  intros Hi. unfold maintain_ready_queue.
  pose proof (settle_loop_sound (stray_terminal limit (e_now ev - grace) st) 0 st Hi) as Hs.
  unfold settle_finished_jobs. destruct (settle_loop _ _ _ _) as [st1 n].
  pose proof (repair_entries_sound queue_names limit X st1 (proj1 Hs)) as Hr.
  destruct (repair_entries _ _ _ _) as [[st2 restored] dropped]. simpl in *.
  eapply sound_trans; [exact Hs|]. intros _. eapply sound_trans; [exact Hr|]. intros Hi2.
  apply recheck_page_quiet; [done|]. by apply blocked_page_ok, Hi2.
Qed.

Lemma maintain_ready_queue_covers limit grace after st :
  wf st → (length (live st) <= limit)%nat →
  inv [] (maintain_ready_queue ev [] limit grace after st).1.
Proof using Hev.
  intros Hwf Hlim. unfold maintain_ready_queue.
  assert (inv (j_id <$> live st) st) as Hi.
  { split; [done|]. intros j [Hj _]. left. by apply list_elem_of_fmap_2. }
  pose proof (settle_loop_sound (stray_terminal limit (e_now ev - grace) st) 0 st Hi) as Hs.
  pose proof (settle_loop_live (stray_terminal limit (e_now ev - grace) st) 0 st Hi) as Hlen.
  unfold settle_finished_jobs. destruct (settle_loop _ _ _ _) as [st1 n].
  pose proof (repair_entries_covers limit _ st1 (proj1 Hs)) as Hr.
  destruct (repair_entries _ _ _ _) as [[st2 restored] dropped]. simpl in *.
  apply live_subset_length in Hlen; [|apply Hs].
  assert (inv [] st2) as Hi2 by (apply Hr; lia).
  eapply quiet_inv, recheck_page_quiet; [done|]. by apply blocked_page_ok, Hi2.
Qed.
End sweep.
