(* ===== verification/Queue.v ===== *)
(** * The abstract queue

    What a user of the queue sees of a job is one of four phases: it waits, it runs under one open
    attempt, it is over but not settled yet (a retry or a webhook delivery is owed), or it is done. This file gives the operations of the queue as relations on the phases of all jobs and
    proves that the operations on the tables implement them: entries, cursors, versions and the
    places a row can be in are not visible in the abstract queue. *)

From S2P Require Import Prelude Sql PyString Models Retry Attempts Ready History Store StoreInv Dependents Claim Complete Demo.
#[local] Open Scope string_scope.
#[local] Open Scope list_scope.
#[local] Open Scope Z_scope.

Inductive phase : Type :=
  | PWaiting
  | PRunning (attempt : Z)
  | PSettling
  | PDone.

#[global] Instance phase_eq_dec : EqDecision phase.
Proof. solve_decision. Defined.

(** The phases of all jobs; [None]: no such job. *)
Abbreviation phases := (Z → option phase).

(** ** The specification *)

(** What happens to a job on the way of an operation on another job: nothing, or, if it does not
    run, it is failed (expired, a dependency failed). *)
Definition passes (p p' : option phase) : Prop :=
  p' = p ∨ ((p = Some PWaiting ∨ p = Some PSettling) ∧ (p' = Some PSettling ∨ p' = Some PDone)).

(** A claim takes one waiting job, under an attempt no job runs under, or none. *)
Definition spec_claim (m : phases) (r : option (Z * Z)) (m' : phases) : Prop :=
  match r with
  | None => ∀ i, passes (m i) (m' i)
  | Some (id, a) => m id = Some PWaiting ∧ m' id = Some (PRunning a) ∧
      (∀ i, m i ≠ Some (PRunning a)) ∧ ∀ i, i ≠ id → passes (m i) (m' i)
  end.

(** A completion ends the run its handle names; with no handle, whatever the job was doing. *)
Definition spec_complete (id : Z) (handle : option Z) (m m' : phases) : Prop :=
  (∀ i, m' i = m i) ∨
  (match handle with Some a => m id = Some (PRunning a) | None => m id ≠ None ∧ m id ≠ Some PDone end ∧
   (m' id = Some PSettling ∨ m' id = Some PDone) ∧ ∀ i, i ≠ id → passes (m i) (m' i)).

(** A released job waits again; no other job is touched. *)
Definition spec_release (id : Z) (m m' : phases) : Prop :=
  (∀ i, m' i = m i) ∨
  ((∃ a, m id = Some (PRunning a)) ∧ m' id = Some PWaiting ∧ ∀ i, i ≠ id → m' i = m i).

(** A job is cancelled only while it waits. *)
Definition spec_cancel (id : Z) (m m' : phases) : Prop :=
  (∀ i, m' i = m i) ∨
  (m id = Some PWaiting ∧ m' id = Some PDone ∧ ∀ i, i ≠ id → passes (m i) (m' i)).

#[global] Instance passes_preorder : PreOrder passes.
Proof.
  split; [by left|]. intros p q r [->|[Hp Hq]] [->|[Hq' Hr]]; [by left|by right|by right|].
  right. split; [done|]. done.
Qed.

Lemma passes_running p a : passes (Some (PRunning a)) p → p = Some (PRunning a).
Proof. intros [->|[[|] _]]; done. Qed.

(** A claim with steps before and after it that other jobs only pass. *)
Lemma spec_claim_between (m m1 m2 m3 : phases) id a :
  (∀ i, passes (m i) (m1 i)) →
  m1 id = Some PWaiting ∧ m2 id = Some (PRunning a) ∧ (∀ i, m1 i ≠ Some (PRunning a)) ∧
    (∀ i, i ≠ id → m2 i = m1 i) →
  m id = Some PWaiting → (∀ i, passes (m2 i) (m3 i)) →
  spec_claim m (Some (id, a)) m3.
Proof.
  intros H1 (Hw & Hr & Hfresh & Hother) Hm H3. split_and!.
  - done.
  - apply passes_running. rewrite <-Hr. apply H3.
  - intros i Hrun. specialize (H1 i). rewrite Hrun in H1. apply passes_running in H1. by apply (Hfresh i).
  - intros i Hne. etrans; [apply H1|]. rewrite <-(Hother i Hne). apply H3.
Qed.

(** ** The abstraction function *)

Definition phase_of (st : store) (i : Z) : option phase :=
  match job_by_id st i with
  | Some j =>
      match first_where (open_for i) (attempts st) with
      | Some a => Some (PRunning (at_id a))
      | None => if bool_decide (j_status j = Queued) then Some PWaiting else Some PSettling
      end
  | None => if history_by_id st i then Some PDone else None
  end.

(** The same as a relation, case by case. *)
Definition in_phase (st : store) (i : Z) (p : option phase) : Prop :=
  match p with
  | None => i ∉ job_ids st
  | Some PWaiting => ∃ j, waiting st j ∧ j_id j = i
  | Some (PRunning x) => ∃ j a, j ∈ live st ∧ j_id j = i ∧
      a ∈ attempts st ∧ open_for i a ∧ at_id a = x
  | Some PSettling => ∃ j, j ∈ live st ∧ j_id j = i ∧ j_status j ≠ Queued ∧
      ∀ a, a ∈ attempts st → ¬ open_for i a
  | Some PDone => i ∈ j_id <$> history st
  end.

Lemma elem_of_job_ids st i :
  i ∈ job_ids st ↔ (∃ j, j ∈ live st ∧ j_id j = i) ∨ i ∈ j_id <$> history st.
Proof.
  unfold job_ids. rewrite elem_of_app, (list_elem_of_fmap j_id (live st)).
  split; (intros [(j & ? & ?)|?]; [left; by exists j|by right]).
Qed.

Lemma phase_of_in st i : wf st → in_phase st i (phase_of st i).
Proof.
  intros Hwf. unfold phase_of. destruct (job_by_id st i) as [j|] eqn:Hj.
  - apply job_by_id_Some in Hj as [Hl Hid]; [|done].
    destruct (first_where (open_for i) (attempts st)) as [a|] eqn:Ha.
    + apply first_where_Some in Ha as [Ha Ho]. by exists j, a.
    + rewrite first_where_None in Ha. case_bool_decide as Hs; [|by exists j]. exists j. split; [|done]. split_and!; [done..|].
      apply is_running_false. by rewrite Hid.
  - rewrite job_by_id_None in Hj. unfold history_by_id.
    destruct (first_where (λ j, j_id j = i) (history st)) as [h|] eqn:Hh.
    + apply first_where_Some in Hh as [Hh <-]. by apply list_elem_of_fmap_2.
    + rewrite first_where_None in Hh. simpl. rewrite elem_of_job_ids.
      intros [(j & Hl & Hid)|(h & -> & Hin)%list_elem_of_fmap]; [by apply (Hj j)|by apply (Hh h)].
Qed.

Lemma phase_of_live st i j :
  wf st → j ∈ live st → j_id j = i →
  phase_of st i =
    match first_where (open_for i) (attempts st) with
    | Some a => Some (PRunning (at_id a))
    | None => if bool_decide (j_status j = Queued) then Some PWaiting else Some PSettling
    end.
Proof.
  intros Hwf Hj Hid. unfold phase_of.
  by rewrite (proj2 (job_by_id_Some st Hwf i j) (conj Hj Hid)).
Qed.

Lemma phase_of_not_live st i :
  (∀ j, j ∈ live st → j_id j ≠ i) → phase_of st i = if history_by_id st i then Some PDone else None.
Proof. intros Hn. unfold phase_of. by rewrite (proj2 (job_by_id_None st i) Hn). Qed.

Lemma phase_of_iff st i p : wf st → phase_of st i = p ↔ in_phase st i p.
Proof.
  intros Hwf. split; [intros <-; by apply phase_of_in|]. destruct p as [[|x| |]|]; simpl.
  - intros (j & (Hj & Hs & Hr) & Hid). rewrite (phase_of_live st i j), bool_decide_true by done.
    rewrite (proj2 (first_where_None (open_for i) (attempts st))); [done|]. rewrite <-Hid. by apply is_running_false.
  - intros (j & a & Hj & Hid & Ha & Ho & <-). rewrite (phase_of_live st i j) by done.
    destruct (first_where_is_Some (open_for i) (attempts st) a Ha Ho) as [b Hb]. rewrite Hb.
    apply first_where_Some in Hb as [Hb Hob]. by rewrite (wf_one_open st Hwf i a b).
  - intros (j & Hj & Hid & Hs & Hn). rewrite (phase_of_live st i j), bool_decide_false by done.
    by rewrite (proj2 (first_where_None (open_for i) (attempts st)) Hn).
  - intros (h & -> & Hh)%list_elem_of_fmap. rewrite phase_of_not_live.
    + unfold history_by_id.
      destruct (first_where_is_Some (λ j, j_id j = j_id h) (history st) h Hh eq_refl) as [b ->]. done.
    + intros j Hj. by apply (wf_disjoint st Hwf).
  - rewrite elem_of_job_ids. intros Hn. rewrite phase_of_not_live.
    + unfold history_by_id. destruct (first_where _ (history st)) as [b|] eqn:Hb; [|done].
      apply first_where_Some in Hb as [Hb <-]. destruct Hn. right. by apply list_elem_of_fmap_2.
    + intros j Hj Hid. apply Hn. left. by exists j.
Qed.

(** The phase of a job depends on its own row and its own attempts only. *)
Lemma phase_of_frame st st' i :
  wf st → wf st' →
  (∀ j, j_id j = i → j ∈ live st → j ∈ live st') →
  (∀ a, open_for i a → a ∈ attempts st ↔ a ∈ attempts st') →
  (i ∈ j_id <$> history st → i ∈ j_id <$> history st') →
  (i ∈ job_ids st' → i ∈ job_ids st) →
  phase_of st' i = phase_of st i.
Proof.
  intros Hwf Hwf' Hl Ha Hh Hids. apply phase_of_iff; [done|].
  pose proof (phase_of_in st i Hwf) as Hp. destruct (phase_of st i) as [[|x| |]|]; simpl in *.
  - destruct Hp as (j & (Hj & Hs & Hr) & Hid). exists j. split; [|done]. split_and!; [by apply Hl|done|].
    apply is_running_false. rewrite Hid. intros a Hin Ho. apply (Ha a Ho) in Hin.
    rewrite is_running_false, Hid in Hr. by apply (Hr a).
  - destruct Hp as (j & a & Hj & Hid & Hin & Ho & Hx). exists j, a. split_and!; try done; [by apply Hl|by apply Ha].
  - destruct Hp as (j & Hj & Hid & Hs & Hn). exists j. split_and!; [by apply Hl|done..|].
    intros a Hin Ho. apply (Ha a Ho) in Hin. by apply (Hn a).
  - by apply Hh.
  - auto.
Qed.

(** Tables the phases do not depend on *)
Lemma phase_of_same st st' :
  live st' = live st → history st' = history st → attempts st' = attempts st →
  ∀ i, phase_of st' i = phase_of st i.
Proof.
  intros Hl Hh Ha i. unfold phase_of, job_by_id, history_by_id. by rewrite Hl, Hh, Ha.
Qed.

(** ** The steps the operations are made of *)

(** A step that starts and ends no attempt; a row it changes does not wait afterwards. *)
Lemma still_passes st st' i :
  wf st → wf st' → evolves st st' → attempts st' = attempts st → job_ids st' ⊆ job_ids st →
  (∀ j', j' ∈ live st' → ∃ j, j ∈ live st ∧ j_id j' = j_id j ∧ (j' = j ∨ j_status j' ≠ Queued)) →
  passes (phase_of st i) (phase_of st' i).
Proof.
  intros Hwf Hwf' He Ha Hids Hrows. pose proof (phase_of_in st i Hwf) as Hp.
  assert (∀ j, j ∈ live st → j_id j = i → (∀ a, a ∈ attempts st → ¬ open_for i a) →
    phase_of st' i = phase_of st i ∨ phase_of st' i = Some PSettling ∨ phase_of st' i = Some PDone) as Hidle.
  { intros j Hj Hid Hno. destruct (ev_live _ _ He j Hj) as (j' & [Hj'|Hj'] & Hid' & _).
    - destruct (Hrows j' Hj') as (j0 & Hj0 & Hid0 & [->|Hs]).
      + left. assert (j0 = j) as -> by (apply (live_inj st Hwf); [done..|congruence]).
        by rewrite (phase_of_live st' i j), (phase_of_live st i j), Ha by done.
      + right. left. apply phase_of_iff; [done|]. exists j'. split_and!; [done|congruence|done|by rewrite Ha].
    - right. right. apply phase_of_iff; [done|]. simpl. rewrite <-Hid, <-Hid'. by apply list_elem_of_fmap_2. }
  destruct (phase_of st i) as [[|x| |]|] eqn:Hpi; simpl in Hp.
  - destruct Hp as (j & (Hj & Hs & Hr) & Hid). rewrite is_running_false, Hid in Hr.
    destruct (Hidle j Hj Hid Hr) as [?|?]; [by left|right; auto].
  - left. apply phase_of_iff; [done|]. destruct Hp as (j & a & Hj & Hid & Hin & Ho & Hx).
    destruct (ev_live _ _ He j Hj) as (j' & [Hj'|Hj'] & Hid' & _).
    + exists j', a. rewrite Ha. split_and!; [done|congruence|done..].
    + exfalso. apply (wf_hist_closed st' Hwf' j' a Hj'); [by rewrite Ha|]. by rewrite Hid', Hid.
  - destruct Hp as (j & Hj & Hid & Hs & Hno). destruct (Hidle j Hj Hid Hno) as [?|?]; [by left|right; auto].
  - left. apply phase_of_iff; [done|]. simpl. apply list_elem_of_fmap in Hp as (h & -> & Hh).
    apply list_elem_of_fmap_2. eapply elem_of_prefix; [exact Hh|apply He].
  - left. apply phase_of_iff; [done|]. simpl. auto.
Qed.

Lemma quiet_passes X st st' i : wf st → quiet X st st' → passes (phase_of st i) (phase_of st' i).
Proof.
  intros Hwf [[[Hwf' _] He] Hl Ha _ Hids]. apply still_passes; [done..|].
  intros j Hj. exists j. split; [by apply Hl|]. auto.
Qed.

(** An attempt is opened on a waiting job. *)
Lemma open_attempt_phase ev j worker st st' h :
  wf st → wf st' → waiting st j → _open_attempt ev (j_id j) worker st = (st', h) →
  phase_of st (j_id j) = Some PWaiting ∧ phase_of st' (j_id j) = Some (PRunning (h_id h)) ∧
  (∀ i, phase_of st i ≠ Some (PRunning (h_id h))) ∧ ∀ i, i ≠ j_id j → phase_of st' i = phase_of st i.
Proof.
  intros Hwf Hwf' Hw Ho. assert (h_id h = attempt_seq st) as Hseq by (by injection Ho as _ <-).
  split_and!.
  - apply phase_of_iff; [done|]. by exists j.
  - destruct Hw as (Hj & Hs & _). apply phase_of_iff; [done|]. injection Ho as <- <-.
    eexists j, _. split_and!; [done..| | |]; [apply elem_of_app; right; apply list_elem_of_here|done|done].
  - intros i (j' & a & _ & _ & Ha & _ & Hx)%phase_of_iff; [|done].
    pose proof (wf_att_seq st Hwf a Ha). lia.
  - intros i Hi. injection Ho as <- _. apply phase_of_frame; [done..| |done|done].
    intros a [Hai _]. simpl. rewrite elem_of_app, list_elem_of_singleton. split; [by left|].
    intros [?|Hn]; [done|]. subst a. simpl in Hai. congruence.
Qed.

Lemma update_where_other {A} (P : A → Prop) {HD : ∀ x, Decision (P x)} (key : A → Z) f l id x :
  (∀ y, y ∈ l → P y → key y = id ∧ key (f y) = id) → key x ≠ id → x ∈ l ↔ x ∈ update_where P f l.
Proof.
  intros HP Hx. rewrite elem_of_update_where. split.
  - intros Hin. exists x. split; [done|]. rewrite decide_False; [done|]. intros Hp. by destruct (HP x Hin Hp).
  - intros (y & Hy & ->). case_decide as Hp; [|done]. by destruct (HP y Hy Hp).
Qed.

(** The job that moves into history is done; the others stay as they are. *)
Lemma finish_in_phase ev id status v f st st' :
  wf st → is_terminal (Some status) = true → _finish_in ev id status v f st = (st', Ok true) →
  (∃ j, j ∈ live st ∧ move_where st id f j) ∧ phase_of st' id = Some PDone ∧
  ∀ i, i ≠ id → phase_of st' i = phase_of st i.
Proof.
  intros Hwf Ht Hf.
  pose proof (wf_finish_in ev id status v f st Hwf Ht) as Hwf'. rewrite Hf in Hwf'. simpl in Hwf'.
  pose proof (finish_in_ids ev id status v f st st' _ Hf) as Hids.
  destruct (finish_in_cases ev id status v f st Hwf) as [(j & Hj & Hm & Heq)|[_ Heq]]; rewrite Heq in Hf; [|done].
  injection Hf as <-. split; [by exists j|]. split.
  - apply phase_of_iff; [done|]. simpl. rewrite fmap_app. apply elem_of_app. right.
    apply list_elem_of_singleton. by destruct Hm as [<- _].
  - intros i Hne. apply phase_of_frame; [done..| | | |apply Hids].
    + intros x Hid Hx. apply finished_live; [done..|]. split; [done|congruence].
    + intros a [Ha _]. apply (update_where_other (open_for id) at_job_id _ _ id); [by intros y _ [? _]|congruence].
    + simpl. rewrite fmap_app, elem_of_app. by left.
Qed.

Lemma close_attempt_frame ev id attempt o st st1 :
  wf st → handle_for st id attempt → _close_attempt ev id attempt o st = (st1, Ok tt) →
  history st1 = history st ∧ (∀ a, a ∈ attempts st1 → ¬ open_for id a) ∧
  (∀ a, at_job_id a ≠ id → a ∈ attempts st ↔ a ∈ attempts st1) ∧
  match attempt with
  | Some h => ∃ a, a ∈ attempts st ∧ open_for id a ∧ at_id a = h_id h
  | None => True
  end.
Proof.
  intros Hwf Hh Hc. split; [by destruct attempt; [injection Hc as <- _|injection Hc as <-]|].
  split; [destruct attempt; [by eapply closed_none_open|by eapply unfenced_none_open]|].
  destruct attempt as [h|].
  - unfold _close_attempt, decide_close in Hc. injection Hc as <- Hn. case_decide as H1; [|done]. split.
    + intros a. apply (update_where_other (exact_open h) at_job_id).
      intros y Hy (Hid & _ & _). simpl. by rewrite (Hh y Hy Hid).
    + assert (∃ b, b ∈ attempts st ∧ exact_open h b) as (b & Hb & Hid & _ & Ho)
        by (apply (rowcount_pos (exact_open h)); lia).
      exists b. split; [done|]. split; [split; [by apply Hh|done]|done].
  - injection Hc as <-. split; [|done]. intros a. apply (update_where_other (open_for id) at_job_id).
    by intros y _ [? _].
Qed.

Lemma mark_row_phase id expected v st row :
  wf st → (∀ a, a ∈ attempts st → ¬ open_for id a) → row ∈ live st → version_fence id expected row →
  let st' := with_live (update_where (version_fence id expected)
               (λ j, with_run (apply_values Failed v (j_run j)) j) (live st)) st in
  phase_of st' id = Some PSettling ∧ ∀ i, i ≠ id → phase_of st' i = phase_of st i.
Proof.
  intros Hwf Ho Hrow [Hid Hv] st'. split.
  - apply phase_of_iff; [by apply wf_update_live|]. simpl.
    exists (with_run (apply_values Failed v (j_run row)) row). split_and!; [|done..].
    apply elem_of_update_where. exists row. split; [done|]. by rewrite decide_True by done.
  - intros i Hne. apply phase_of_frame; [done|by apply wf_update_live| |done|done|].
    + intros x <- Hx. apply (update_where_other _ j_id _ _ id); [|done|done]. by intros y _ [? _].
    + by apply job_ids_update_live.
Qed.

Lemma completion_write_phase ev id expected status v st st' :
  wf st → is_terminal (Some status) = true → (∀ a, a ∈ attempts st → ¬ open_for id a) →
  completion_write ev id expected status v st = (st', Ok true) →
  ∃ j, j ∈ live st ∧ j_id j = id ∧ (phase_of st' id = Some PSettling ∨ phase_of st' id = Some PDone) ∧
    ∀ i, i ≠ id → phase_of st' i = phase_of st i.
Proof.
  intros Hwf Ht Ho. unfold completion_write. destruct (owes_retry status v) eqn:Hr.
  - unfold owes_retry in Hr. apply andb_true_iff in Hr as [->%bool_decide_eq_true _].
    intros Heq. injection Heq as <- Hn%bool_decide_eq_true.
    apply rowcount_pos in Hn as (row & Hrow & Hf). exists row.
    destruct (mark_row_phase id expected v st row Hwf Ho Hrow Hf) as [? ?]. destruct Hf. auto.
  - intros Hf. apply finish_in_phase in Hf as ((j & Hj & Hm) & Hd & Hfr); [|done..].
    exists j. split_and!; [done|apply Hm|by right|done].
Qed.

(** A committed completion: the job leaves the queue, or waits for its retry; nothing else moves. *)
Lemma completion_phase ev id expected status v attempt o st st' :
  inv [] st → handle_for st id attempt → is_terminal (Some status) = true →
  completion_txn ev id expected status v attempt o st = (st', Ok true) →
  match attempt with
  | Some h => phase_of st id = Some (PRunning (h_id h))
  | None => phase_of st id ≠ None ∧ phase_of st id ≠ Some PDone
  end ∧ (phase_of st' id = Some PSettling ∨ phase_of st' id = Some PDone) ∧
  ∀ i, i ≠ id → phase_of st' i = phase_of st i.
Proof.
  intros Hi Hh Ht Hc. pose proof Hi as [Hwf _].
  destruct (completion_txn_sound (X:=[]) ev id expected status v attempt o st st' _ Hi Hh Ht Hc) as [[[Hwf' _] _] _].
  unfold completion_txn in Hc.
  destruct (_close_attempt ev id attempt o st) as [st1 [[]|e]] eqn:Hcl; [|done].
  pose proof (close_attempt_step (X:=[]) ev id attempt o st st1 (Ok tt) Hi Hh Hcl) as (Hwf1 & _ & _ & Hl1).
  destruct (close_attempt_frame ev id attempt o st st1 Hwf Hh Hcl) as (Hh1 & Hopen & Hother & Hrun).
  destruct (completion_write ev id expected status v st1) as [st2 [[]|e]] eqn:Hw; [|by destruct expected|done].
  injection Hc as <-. destruct (completion_write_phase ev id expected status v st1 st2 Hwf1 Ht Hopen Hw)
    as (j & Hj & Hid & Hend & Hfr).
  rewrite Hl1 in Hj. split_and!.
  - destruct attempt as [h|].
    + destruct Hrun as (a & Ha & Ho & Hx). apply phase_of_iff; [done|]. by exists j, a.
    + rewrite (phase_of_live st id j) by done. destruct (first_where _ _); [done|]. by case_bool_decide.
  - done.
  - intros i Hne. rewrite Hfr by done. apply phase_of_frame; [done..| | |by rewrite Hh1|].
    + intros x _. by rewrite Hl1.
    + intros a [Ha _]. apply Hother. congruence.
    + unfold job_ids. by rewrite Hl1, Hh1.
Qed.

(** ** The operations *)

Section operations.
Context (ev : env) (Hev : env_ok ev).

Lemma claim_job_refines queues worker st st' r :
  inv [] st → claim_job ev queues worker st = (st', Done r) →
  spec_claim (phase_of st) ((λ '(j, h), (j_id j, h_id h)) <$> r) (phase_of st').
Proof using Hev.
  intros Hi Hr. pose proof Hi as [Hwf _].
  destruct (claim_job_spec ev Hev queues worker st Hi) as (st2 & r2 & Heq & Hspec).
  rewrite Heq in Hr. injection Hr as -> ->. destruct r as [[j h]|]; simpl; [|intros i; by eapply quiet_passes].
  destruct Hspec as (st1 & st3 & c & e & j0 & Hq & Hcl & _ & _ & Hq2).
  pose proof (claimed_sound ev worker e j0 j h st1 st3 (quiet_inv _ _ Hq) Hcl) as [Hi3 _].
  destruct Hcl as [_ Hw _ _ _ -> Ho]. set (st1' := delete_entry (re_slot e) (j_id j0) st1) in *.
  assert (wf st1') as Hwf1 by (by apply wf_delete_entry, (inv_wf [] st1), (quiet_inv st)).
  assert (∀ i, phase_of st1' i = phase_of st1 i) as Hsame by (by apply phase_of_same).
  apply (spec_claim_between _ (phase_of st1') (phase_of st3)).
  - intros i. rewrite Hsame. by eapply quiet_passes.
  - by apply (open_attempt_phase ev j0 worker st1' st3 h Hwf1 (proj1 Hi3)).
  - apply phase_of_iff; [done|]. exists j0. split; [by eapply quiet_waiting|done].
  - intros i. by eapply quiet_passes; [apply Hi3|].
Qed.

Lemma fenced_update_refines id expected status v attempt o parent st st' r :
  inv [] st → handle_for st id attempt → is_terminal (Some status) = true →
  _fenced_update ev id expected status v attempt o parent st = (st', r) →
  spec_complete id (h_id <$> attempt) (phase_of st) (phase_of st').
Proof using Hev.
  intros Hi Hh Ht. unfold _fenced_update.
  destruct (completion_txn ev id expected status v attempt o st) as [st1 b] eqn:Hc.
  destruct (completion_txn_sound (X:=[]) ev id expected status v attempt o st st1 b Hi Hh Ht Hc) as [[Hi1 _] Hb].
  assert (b ≠ Ok true → st1 = st) as Hno by (intros; by destruct Hb).
  destruct b as [[]|e]; [|intros [= <- <-]; left; by rewrite Hno..].
  apply completion_phase in Hc as (Hfrom & Hto & Hother); [|done..].
  assert (∀ st2, quiet [] st1 st2 →
    spec_complete id (h_id <$> attempt) (phase_of st) (phase_of st2)) as Hend.
  { intros st2 Hq. right. split_and!; [by destruct attempt| |].
    - pose proof (quiet_passes [] st1 st2 id (proj1 Hi1) Hq) as [->|[_ ?]]; done.
    - intros i Hne. rewrite <-(Hother i Hne). by eapply quiet_passes; [apply Hi1|]. }
  intros [= <- <-]. apply Hend. destruct (_ && _); [by apply release_quietly_quiet|by apply quiet_refl].
Qed.

Lemma mark_job_success_refines seen id output expected attempt st st' r :
  inv [] st → handle_for st id attempt →
  mark_job_success ev seen id output expected attempt st = (st', r) →
  spec_complete id (h_id <$> attempt) (phase_of st) (phase_of st').
Proof using Hev.
  intros Hi Hh. unfold mark_job_success.
  destruct seen as [j|j|s|]; try (intros [= <- <-]; by left).
  destruct (job_by_id st id) as [row|]; [|intros [= <- <-]; by left].
  destruct (mark_success _ _ _ output) as [r1|] eqn:Hm; [|intros [= <- <-]; by left].
  assert (jr_status r1 = Success) as Hst.
  { unfold mark_success in Hm. destruct output; simpl in Hm; [|done]. by injection Hm as <-. }
  apply fenced_update_refines; [done..|]. by rewrite Hst.
Qed.

Lemma mark_job_failed_refines seen id error tb reason expected attempt st st' r :
  inv [] st → handle_for st id attempt →
  mark_job_failed ev seen id error tb reason expected attempt st = (st', r) →
  spec_complete id (h_id <$> attempt) (phase_of st) (phase_of st').
Proof using Hev.
  intros Hi Hh. unfold mark_job_failed.
  destruct seen as [j|j|s|]; try (intros [= <- <-]; by left).
  destruct (job_by_id st id) as [row|]; [|intros [= <- <-]; by left].
  by apply fenced_update_refines.
Qed.

Lemma release_job_refines id st : inv [] st → spec_release id (phase_of st) (phase_of (release_job ev id st)).
Proof using Hev.
  intros Hi. pose proof Hi as [Hwf _]. pose proof (release_job_sound ev Hev id st Hi) as [[Hwf' _] _].
  unfold release_job in *. destruct (job_by_id st id) as [j|] eqn:Hj; [|by left].
  apply job_by_id_Some in Hj as [Hj Hid]; [|done].
  destruct (bool_decide_reflect (j_status j = Queued)) as [Hs|]; simpl in *; [|by left].
  case_decide as Hn; [by left|]. right.
  set (st1 := with_attempts (close_unfenced_stmt id OAbandoned (e_now ev) (attempts st)) st) in *.
  assert (∀ i, phase_of (write_ready ev [j] false st1) i = phase_of st1 i) as Hsame by (by apply phase_of_same).
  assert (wf st1) as Hwf1 by (by apply wf_close).
  destruct (close_attempt_frame ev id None OAbandoned st st1 Hwf I eq_refl) as (Hh1 & Hno & Hother & _).
  split_and!.
  - assert (∃ a, a ∈ attempts st ∧ open_for id a) as (a & Ha & Ho) by (apply (rowcount_pos (open_for id)); lia).
    exists (at_id a). apply phase_of_iff; [done|]. by exists j, a.
  - rewrite Hsame. apply phase_of_iff; [done|]. exists j. split; [|done]. split_and!; [done..|].
    apply is_running_false. by rewrite Hid.
  - intros i Hne. rewrite Hsame. apply phase_of_frame; [done..| |done|done].
    intros a [Ha _]. apply Hother. congruence.
Qed.

Lemma cancel_job_refines id st : inv [] st → spec_cancel id (phase_of st) (phase_of (cancel_job ev id st).1).
Proof using Hev.
  intros Hi. pose proof Hi as [Hwf Hc]. unfold cancel_job.
  assert (∀ i, phase_of (cancel_staged ev id st).1 i = phase_of st i) as Hstage.
  { unfold cancel_staged. destruct (staged_by_id ev st id); [by apply phase_of_same|done]. }
  destruct (first_where _ (live st)) as [j|] eqn:Hj; [|by left].
  apply first_where_Some in Hj as [Hj [Hid Hw]].
  set (st0 := delete_blocked [id] (delete_ready [id] st)).
  assert (wf st0) as Hwf0 by (by apply wf_delete_blocked, wf_delete_ready).
  assert (∀ i, phase_of st0 i = phase_of st i) as Hsame by (by apply phase_of_same).
  destruct (_finish_in _ _ _ _ _ st0) as [st1 [[]|e]] eqn:Hf; [|by left|by left].
  pose proof Hf as Hf'. apply (finish_in_true (X:=[])) in Hf' as (Hwf1 & Hc1 & _);
    [|done|by apply covered_drop_entries|done].
  apply finish_in_phase in Hf as (_ & Hd & Hother); [|done..]. right.
  pose proof (release_quietly_quiet ev Hev id None st1 (conj Hwf1 Hc1)) as Hq. simpl. split_and!.
  - apply phase_of_iff; [done|]. exists j. split; [|done].
    unfold waiting_clause in Hw. apply andb_true_iff in Hw as [Hs%bool_decide_eq_true Hr%negb_true_iff]. done.
  - pose proof (quiet_passes [] st1 _ id Hwf1 Hq) as [->|[[Hx|Hx] _]]; [done|rewrite Hd in Hx; done..].
  - intros i Hne. rewrite <-Hsame, <-(Hother i Hne). by eapply quiet_passes.
Qed.
End operations.

(** C35: the store implements the abstract queue. From every state that satisfies the invariant: a
    claim takes at most one job, one that waits, and makes it run under an attempt no job had; a
    completion with a handle takes effect only on the job that runs under the attempt of the handle,
    and ends its run; a release lets the job wait again and changes no other job; a cancellation
    takes effect only on a waiting job. Any other job keeps its phase, or, if it does not run, is
    failed with them; in particular no running job is ever disturbed. *)
Theorem refines_abstract_queue ev st :
  env_ok ev → inv [] st →
  (∀ queues worker st' r, claim_job ev queues worker st = (st', Done r) →
     spec_claim (phase_of st) ((λ '(j, h), (j_id j, h_id h)) <$> r) (phase_of st')) ∧
  (∀ seen id output expected attempt st' r, handle_for st id attempt →
     mark_job_success ev seen id output expected attempt st = (st', r) →
     spec_complete id (h_id <$> attempt) (phase_of st) (phase_of st')) ∧
  (∀ seen id error tb reason expected attempt st' r, handle_for st id attempt →
     mark_job_failed ev seen id error tb reason expected attempt st = (st', r) →
     spec_complete id (h_id <$> attempt) (phase_of st) (phase_of st')) ∧
  (∀ id, spec_release id (phase_of st) (phase_of (release_job ev id st))) ∧
  (∀ id, spec_cancel id (phase_of st) (phase_of (cancel_job ev id st).1)).
Proof.
  intros Hev Hi. split_and!; intros.
  - by eapply claim_job_refines.
  - by eapply mark_job_success_refines.
  - by eapply mark_job_failed_refines.
  - by apply release_job_refines.
  - by apply cancel_job_refines.
Qed.

Lemma refines_abstract_queue_witness :
  spec_claim (phase_of demo_two) (Some (11, 1)) (phase_of demo_claimed) ∧
  phase_of demo_claimed 11 = Some (PRunning 1) ∧ phase_of demo_claimed 12 = Some PWaiting ∧
  spec_complete 11 (Some 1) (phase_of demo_claimed) (phase_of demo_done) ∧ phase_of demo_done 11 = Some PDone.
Proof.
  split; [|split; [vm_compute; reflexivity|split; [vm_compute; reflexivity|split; [|vm_compute; reflexivity]]]].
  - exact (proj1 (refines_abstract_queue (demo_env 3000) demo_two (demo_env_ok 3000) demo_two_inv)
      _ _ _ _ demo_claim_result).
  - destruct (refines_abstract_queue (demo_env 4000) demo_claimed (demo_env_ok 4000) demo_claimed_inv)
      as (_ & Hs & _).
    eapply (Hs _ 11 (Text "out") (Some 0) (Some demo_handle)); [|unfold demo_done, demo_success; apply surjective_pairing].
    intros a. rewrite demo_claimed_attempts. by intros ->%list_elem_of_singleton.
Defined.
