(* ===== verification/Outcomes.v ===== *)
(** * What the operations achieve

    The functional behaviour of the operations from a state that satisfies the invariant:
    what a completion records, what a re-check and a release of dependents do, what a
    cancellation, a release and a manual retry leave behind, what a claim guarantees about
    tag limits, and what readers see through the union view. *)

From S2P Require Import Prelude Sql PyString Models Retry RateLimit Attempts Ready History Store StoreInv Dependents Claim Complete Sweep Demo.
From stdpp Require Import gmap.
#[local] Open Scope Z_scope.

(** ** Lemmas: unique rows *)

Lemma wf_attempts_NoDup st : wf st → NoDup (attempts st).
Proof. intros Hwf. eapply NoDup_fmap_1, Hwf. Qed.

Lemma open_attempt_of_open st id a :
  wf st → a ∈ attempts st → open_for id a → open_attempt_of (attempts st) id = Some a.
Proof.
  intros Hwf Ha Ho. unfold open_attempt_of. rewrite (filter_unique (open_for id) _ a); [done|..].
  - by apply wf_attempts_NoDup.
  - done.
  - done.
  - intros x Hx Hox. by apply (wf_one_open st Hwf id).
Qed.

(** The same jobs with the same specifications, entries and history. *)
Definition same_queue (st st' : store) : Prop :=
  (λ j, (j_id j, j_spec j)) <$> live st' = (λ j, (j_id j, j_spec j)) <$> live st ∧
  ready st' = ready st ∧ blocked st' = blocked st ∧ history st' = history st.

Lemma same_queue_row st st' j : same_queue st st' → j ∈ live st' → ∃ j', j' ∈ live st ∧ j_id j' = j_id j ∧ j_spec j' = j_spec j.
Proof.
  intros [Hl _] Hj. assert ((j_id j, j_spec j) ∈ (λ j, (j_id j, j_spec j)) <$> live st) as (j' & [= ? ?] & ?)%list_elem_of_fmap.
  { rewrite <-Hl. apply list_elem_of_fmap. eauto. }
  eauto.
Qed.

Lemma same_queue_unused st st' id : same_queue st st' → unused_id id st → unused_id id st'.
Proof.
  intros Hs [Hl Hh Hr Hb]. pose proof Hs as (_ & Hre & Hbl & Hhi). split; rewrite ?Hre, ?Hbl, ?Hhi; [|done..].
  intros j (j' & Hj' & <- & _)%(same_queue_row st st'); [by apply Hl|done].
Qed.

(** The handle of an open attempt. *)
Definition handle_of (a : job_attempt) (h : AttemptHandle) : Prop :=
  h_id h = at_id a ∧ h_token h = at_token a.

Lemma exact_open_count st a h :
  wf st → a ∈ attempts st → at_finished_at a = None → handle_of a h →
  rowcount (exact_open h) (attempts st) = 1%nat.
Proof.
  intros Hwf Ha Ho [Hid Htok]. unfold rowcount. rewrite (filter_unique (exact_open h) _ a); [done|..].
  - by apply wf_attempts_NoDup.
  - done.
  - by split_and!.
  - intros x Hx (Hxid & _). eapply NoDup_fmap_inj; [apply Hwf|done..|congruence].
Qed.

(** ** Lemmas: completion *)

Section completion.
Context (ev : env) (Hev : env_ok ev) (st : store) (Hinv : inv [] st).
Context (id : Z) (row : queued_job) (Hrow : job_by_id st id = Some row).
Context (a : job_attempt) (Ha : a ∈ attempts st) (Hopen : open_for id a).
Context (h : AttemptHandle) (Hh : handle_of a h).
Context (expected : option Z) (Hexp : opt_eq expected (j_version row)).

(** The store once the attempt is closed. *)
Definition closed_store (o : attempt_outcome) : store :=
  with_attempts (close_exact_stmt h o (e_now ev) (attempts st)) st.

Lemma closed_store_ok o :
  _close_attempt ev id (Some h) o st = (closed_store o, Ok tt) ∧ wf (closed_store o) ∧
  covered_except [id] (closed_store o) ∧ close_attempt (e_now ev) o a ∈ attempts (closed_store o).
Proof using Hinv Ha Hopen Hh.
  destruct Hopen as [Hjob Hfin].
  assert (_close_attempt ev id (Some h) o st = (closed_store o, Ok tt)) as Hc.
  { unfold _close_attempt, decide_close. rewrite (exact_open_count st a h); [done|apply Hinv|done..]. }
  split; [done|].
  assert (handle_for st id (Some h)) as Hfor.
  { intros x Hx Hxid. destruct Hh as [Hid _].
    assert (x = a) as ->; [|done]. eapply NoDup_fmap_inj; [apply Hinv|done..|congruence]. }
  destruct (close_attempt_step ev id (Some h) o st _ _ Hinv Hfor Hc) as (Hwf & Hcov & _ & _).
  split; [done|]. split; [done|].
  apply elem_of_update_where. exists a. split; [done|]. rewrite decide_True; [done|].
  destruct Hh. by split_and!.
Qed.

Lemma row_live : row ∈ live st ∧ j_id row = id.
Proof using Hrow Hinv. by apply job_by_id_Some in Hrow; [|apply Hinv]. Qed.

(** The completion of a job with no retry owed moves its row to history. *)
Lemma completion_finishes status v o :
  owes_retry status v = false →
  completion_txn ev id expected status v (Some h) o st
    = (finished ev id status v (version_fences expected) row (closed_store o), Ok true) ∧
  move_where (closed_store o) id (version_fences expected) row.
Proof using Hinv Ha Hopen Hh Hrow Hexp.
  intros Hno. destruct (closed_store_ok o) as (Hc & Hwf & _ & _). destruct row_live as [Hin Hid].
  assert (move_where (closed_store o) id (version_fences expected) row) as Hm by by split_and!.
  split; [|done].
  unfold completion_txn. rewrite Hc. unfold completion_write. rewrite Hno.
  destruct (finish_in_cases ev id status v (version_fences expected) (closed_store o) Hwf)
    as [(j & Hj & Hmj & ->)|[Hn _]]; [|by destruct (Hn row Hin)].
  assert (j = row) as ->; [|done]. eapply (live_inj st); [apply Hinv|done..|].
  destruct Hmj as [-> _]. done.
Qed.

(** After the release of its dependents the job is still where the completion put it. *)
Lemma finished_found status v o st' f :
  move_where (closed_store o) id (version_fences expected) row →
  f = history_row (e_now ev) (attempts (closed_store o)) status v row →
  is_terminal (Some status) = true →
  quiet [] (finished ev id status v (version_fences expected) row (closed_store o)) st' →
  _find_job st' id = FHistory f ∧ history_by_id st' id = Some f ∧ _is_running st' id = false ∧
  close_attempt (e_now ev) o a ∈ attempts st'.
Proof using Hinv Ha Hopen Hh Hrow.
  intros Hm Hf Ht Hq. destruct (closed_store_ok o) as (_ & Hwf & _ & Hca).
  destruct row_live as [Hin Hid].
  pose proof (wf_finished ev id status v _ row (closed_store o) Hwf Hin Hm Ht) as Hwf2.
  assert (history_by_id st' id = Some f) as Hhist.
  { unfold history_by_id. destruct (ev_history _ _ (proj2 (qu_sound _ _ _ Hq))) as [k Hk].
    assert (f ∈ history st') as Hfin.
    { rewrite Hk. apply elem_of_app; left. apply elem_of_app; right. subst f. apply list_elem_of_here. }
    destruct (first_where (λ j, j_id j = id) (history st')) as [x|] eqn:Hx.
    - apply first_where_Some in Hx as [Hx Hxid]. f_equal.
      eapply (NoDup_fmap_inj j_id (history st')); [apply (quiet_inv _ _ Hq)|done|done|].
      subst f. simpl. congruence.
    - rewrite first_where_None in Hx. destruct (Hx f Hfin). by subst f. }
  assert (job_by_id st' id = None) as Hnone.
  { apply job_by_id_None. intros x Hx%(qu_live _ _ _ Hq).
    apply finished_live in Hx as [_ ?]; done. }
  split_and!.
  - unfold _find_job. by rewrite Hnone, Hhist.
  - done.
  - unfold _is_running. rewrite (qu_attempts _ _ _ Hq).
    apply open_attempt_exists_false. intros x Hx Ho.
    by destruct (update_close_open _ _ _ _ _ _ Hx Ho).
  - rewrite (qu_attempts _ _ _ Hq). apply elem_of_update_where. eexists. split; [exact Hca|].
    rewrite decide_False; [done|]. intros [_ ?]. done.
Qed.
Lemma fenced_update_finishes status v o parent :
  owes_retry status v = false → is_terminal (Some status) = true →
  let f := history_row (e_now ev) (attempts (closed_store o)) status v row in
  ∃ st', _fenced_update ev id expected status v (Some h) o parent st = (st', Ok (FHistory f)) ∧
    history_by_id st' id = Some f ∧ _is_running st' id = false ∧ inv [] st' ∧
    close_attempt (e_now ev) o a ∈ attempts st'.
Proof using Hev Hinv Ha Hopen Hh Hrow Hexp.
  intros Hno Ht f. destruct (completion_finishes status v o Hno) as [Hc Hm].
  destruct (closed_store_ok o) as (_ & Hwf & Hcov & _). destruct row_live as [Hin Hid].
  unfold _fenced_update. rewrite Hc.
  set (st1 := finished _ _ _ _ _ _ _) in *.
  assert (inv [] st1) as Hi1 by (split; [by apply wf_finished|by apply covered_finished]).
  set (st2 := if _ : bool then _ else _).
  assert (quiet [] st1 st2) as Hq.
  { subst st2. case_match; [by apply release_quietly_quiet|auto with sqlery]. }
  exists st2. destruct (finished_found status v o st2 f Hm eq_refl Ht Hq) as (-> & ? & ? & ?).
  pose proof (quiet_inv st1 st2 Hq). done.
Qed.

(** A failure that stays in the live table. *)
Definition marked_store (v : move_values) (o : attempt_outcome) : store :=
  with_live (update_where (version_fence id expected)
    (λ j, with_run (apply_values Failed v (j_run j)) j) (live (closed_store o))) (closed_store o).

Lemma marked_store_ok v o :
  let f := with_run (apply_values Failed v (j_run row)) row in
  sound [] (closed_store o) (marked_store v o) ∧ job_by_id (marked_store v o) id = Some f ∧
  _is_running (marked_store v o) id = false ∧ same_queue st (marked_store v o) ∧
  close_attempt (e_now ev) o a ∈ attempts (marked_store v o).
Proof using Hinv Ha Hopen Hh Hrow Hexp.
  intros f. destruct (closed_store_ok o) as (Hc & Hwf & Hcov & Hca). destruct row_live as [Hin Hid].
  assert (version_fence id expected row) as Hfence by by split.
  assert (sound [] (closed_store o) (marked_store v o)) as Hs by (by apply (mark_row_sound (X:=[]) _ _ _ _ row)).
  split_and!; try done; try apply Hs.
  - apply job_by_id_Some; [apply Hs|]. split; [|done]. apply elem_of_update_where.
    exists row. split; [done|]. by rewrite decide_True.
  - apply open_attempt_exists_false. intros x Hx Ho.
    destruct (update_close_open _ _ _ _ _ _ Hx Ho) as [Hxa Hnot]. apply Hnot.
    rewrite (wf_one_open st (proj1 Hinv) id x a Hxa Ha Ho Hopen). destruct Hh, Hopen. by split_and!.
  - split; [by apply update_where_column|done].
Qed.

(** The completion of a job with a retry owed updates its row in place. *)
Lemma fenced_update_keeps v o parent :
  owes_retry Failed v = true →
  let f := with_run (apply_values Failed v (j_run row)) row in
  ∃ st', _fenced_update ev id expected Failed v (Some h) o parent st = (st', Ok (FLive f)) ∧
    job_by_id st' id = Some f ∧ _is_running st' id = false ∧ same_queue st st' ∧ inv [] st' ∧
    close_attempt (e_now ev) o a ∈ attempts st'.
Proof using Hinv Ha Hopen Hh Hrow Hexp.
  intros Howe f. destruct (closed_store_ok o) as (Hc & Hwf & Hcov & Hca). destruct row_live as [Hin Hid].
  destruct (marked_store_ok v o) as (Hs & Hj & Hidle & Hsame & Hatt).
  assert (completion_txn ev id expected Failed v (Some h) o st = (marked_store v o, Ok true)) as Htx.
  { unfold completion_txn, completion_write. rewrite Hc, Howe, bool_decide_true; [done|].
    apply rowcount_pos. exists row. split; [done|by split]. }
  exists (marked_store v o). unfold _fenced_update. rewrite Htx.
  assert (is_retry_pending (mv_termination_reason v) = true) as ->.
  { unfold owes_retry in Howe. by apply andb_true_iff in Howe as [_ ?]. }
  simpl. unfold _find_job. rewrite Hj. split_and!; [done..|apply Hs|done].
Qed.
End completion.

(** ** Lemmas: terminal rows *)

Lemma history_by_id_Some st id f : wf st → history_by_id st id = Some f ↔ f ∈ history st ∧ j_id f = id.
Proof.
  intros Hwf. unfold history_by_id. split.
  { intros H. by apply first_where_Some in H. }
  intros [Hf Hid].
  destruct (first_where (λ j, j_id j = id) (history st)) as [x|] eqn:Hx.
  - apply first_where_Some in Hx as [Hx Hxid]. f_equal.
    eapply (NoDup_fmap_inj j_id (history st)); [apply Hwf|done|done|congruence].
  - rewrite first_where_None in Hx. by destruct (Hx f Hf).
Qed.

Lemma finish_in_records ev id status v f st st' :
  wf st → is_terminal (Some status) = true → _finish_in ev id status v f st = (st', Ok true) →
  ∃ j, j ∈ live st ∧ move_where st id f j ∧ (∀ x, x ∈ live st' ↔ x ∈ live st ∧ j_id x ≠ id) ∧
    history_by_id st' id = Some (history_row (e_now ev) (attempts st) status v j).
Proof.
  intros Hwf Ht Hf.
  destruct (finish_in_cases ev id status v f st Hwf) as [(j & Hj & Hm & E)|[_ E]];
    rewrite E in Hf; [|done]. injection Hf as <-. exists j. split_and!; [done..| |].
  - intros x. by apply finished_live.
  - apply history_by_id_Some; [by apply wf_finished|]. split; [|apply Hm].
    apply elem_of_app. right. apply list_elem_of_here.
Qed.

(** What [_fail_queued] leaves of a waiting job. *)
Lemma fail_queued_records ev j error reason st :
  inv [] st → waiting st j →
  ∃ st' f, _fail_queued ev j error reason st = (st', Ok true) ∧ quiet [] st st' ∧
    (∀ x, x ∈ live st' ↔ x ∈ live st ∧ j_id x ≠ j_id j) ∧
    history_by_id st' (j_id j) = Some f ∧ j_spec f = j_spec j ∧ j_status f = Failed ∧
    jr_error (j_run f) = error ∧ jr_termination_reason (j_run f) = reason ∧
    jr_finished_at (j_run f) = Some (e_now ev).
Proof.
  intros Hi Hw. destruct (fail_queued_waiting ev j error reason st (proj1 Hi) Hw) as [st' Hf].
  pose proof Hf as Hf1. apply (fail_queued_true (X:=[])) in Hf1 as [Hq _]; [|done].
  unfold _fail_queued in Hf. pose proof Hf as Hf2.
  apply finish_in_records in Hf2 as (j0 & Hj0 & Hm & Hl & Hh);
    [|eauto with sqlery|done].
  assert (j0 = j) as ->.
  { eapply (live_inj st); [apply Hi|exact Hj0|apply Hw|apply Hm]. }
  do 2 eexists. split; [exact Hf|]. split_and!; done.
Qed.

(** ** Lemmas: dependents *)

Lemma recheck_waiting ev st j :
  inv [] st → waiting st j →
  _recheck_blocked ev (j_id j) (j_created_at j) st =
  let v := _judge_dependencies st (dependency_ids (j_spec j)) in
  match dv_state v with
  | PENDING => (st, Ok RBlocked)
  | FAILED => ((_fail_queued ev j (dependency_error v) "dependency_failed" st).1, Ok RFailed)
  | MET => (write_ready ev [j] false (delete_blocked [j_id j] st), Ok RReady)
  end.
Proof.
  intros Hi Hw. pose proof Hw as (Hj & Hs & Hr). unfold _recheck_blocked.
  rewrite (proj2 (job_by_key_Some st (proj1 Hi) (j_id j) (j_created_at j) j)) by done.
  rewrite Hs, bool_decide_true, Hr by done. simpl.
  destruct (dv_state _); [done..|].
  destruct (fail_queued_waiting ev j (dependency_error (_judge_dependencies st (dependency_ids (j_spec j))))
    "dependency_failed" st (proj1 Hi) Hw) as [st1 Hf].
  by rewrite Hf.
Qed.

Lemma write_ready_waiting ev st j :
  waiting st j →
  let st' := write_ready ev [j] false (delete_blocked [j_id j] st) in
  waiting st' j ∧ (∃ e, e ∈ ready st' ∧ re_job_id e = j_id j) ∧ (∀ b, b ∈ blocked st' → bl_job_id b ≠ j_id j).
Proof.
  intros Hw st'. pose proof Hw as (Hj & Hs & Hr). split; [done|]. split.
  - subst st'. unfold write_ready.
    change (_is_running (delete_blocked [j_id j] st)) with (_is_running st).
    rewrite filter_cons_True by done. simpl.
    destruct (insert_nothing_key ready_key (ready st) (ready_values j (e_slot ev))) as (y & Hy & Hk).
    exists y. split; [done|]. by injection Hk.
  - intros b [_ Hb]%elem_of_delete_where Hid. apply Hb. rewrite Hid. apply list_elem_of_here.
Qed.

(** A job in history whose status is [success] is met, whatever else the tables hold. *)
Definition succeeded (st : store) (d : Z) : Prop :=
  ∃ f, f ∈ history st ∧ j_id f = d ∧ j_status f = Success.

Lemma anywhere_history st id f :
  wf st → f ∈ history st → j_id f = id → anywhere_by_id st id = Some f.
Proof.
  intros Hwf Hf Hid. unfold anywhere_by_id.
  destruct (first_where (λ j, j_id j = id) (job_all st)) as [x|] eqn:Hx.
  - apply first_where_Some in Hx as [[Hx|Hx]%elem_of_app Hxid]; f_equal.
    + apply list_elem_of_bind in Hx as (j & Hx & Hj). apply live_view_same in Hx as [Hx _].
      exfalso. apply (wf_disjoint st Hwf j f Hj Hf). congruence.
    + eapply (NoDup_fmap_inj j_id (history st)); [apply Hwf|done..|congruence].
  - rewrite first_where_None in Hx. destruct (Hx f); [|done]. by apply elem_of_app; right.
Qed.

Lemma succeeded_met st deps :
  wf st → Forall (succeeded st) deps → dv_state (_judge_dependencies st deps) = MET.
Proof.
  intros Hwf Hall. unfold _judge_dependencies. rewrite judge_dependencies_spec.
  assert (Forall (λ d, (judge_one (anywhere_by_id st) (latest_retry st)
    (λ r, is_retry_pending (Some r)) d).1 = MET) deps) as Hmet.
  { eapply Forall_impl; [exact Hall|]. intros d (f & Hf & Hid & Hs).
    unfold judge_one. rewrite (anywhere_history st d f Hwf Hf Hid).
    assert (follow_retries (latest_retry st) MAX_CHAIN_HOPS f = f) as ->.
    { destruct MAX_CHAIN_HOPS; [done|]. simpl. unfold failed_or_archived. by rewrite Hs. }
    by rewrite Hs. }
  rewrite decide_False, decide_False; [done|..]; intros (d & Hd & He)%Exists_exists;
    rewrite Forall_forall in Hmet; specialize (Hmet d Hd); congruence.
Qed.

Lemma succeeded_evolves st st' d : evolves st st' → succeeded st d → succeeded st' d.
Proof.
  intros He (f & Hf & Hid & Hs). exists f. split; [|done].
  eapply elem_of_prefix; [exact Hf|apply He].
Qed.

Lemma recheck_keeps_live ev id created st st' r j :
  wf st → _recheck_blocked ev id created st = (st', r) → j ∈ live st → j_id j ≠ id → j ∈ live st'.
Proof.
  intros Hwf Hr Hj Hne. unfold _recheck_blocked in Hr.
  destruct (job_by_key st id created) as [j0|] eqn:Hk; [|by injection Hr as <- <-].
  apply job_by_key_Some in Hk as (_ & Hid & _); [|done].
  destruct (_ || _); [by injection Hr as <- <-|].
  destruct (dv_state _); [by injection Hr as <- <-..|].
  destruct (_fail_queued _ _ _ _ _) as [st1 [b|]] eqn:Hf; injection Hr as <- <-; [|done].
  unfold _fail_queued in Hf.
  match type of Hf with _finish_in _ ?i ?s ?v ?f ?st1 = _ =>
    destruct (finish_in_cases ev i s v f st1) as [(y & Hy & Hm & E)|[_ E]] end;
    [auto with sqlery| |by rewrite E in Hf; injection Hf as <-].
  rewrite E in Hf. injection Hf as <- _. simpl. apply elem_of_delete_where. split; [done|].
  intros [? _]. congruence.
Qed.

Section release.
Context (ev : env) (Hev : env_ok ev) (j : queued_job).

Definition released (st st' : store) : Prop :=
  ∃ st1 st2, quiet [] st st1 ∧
    _recheck_blocked ev (j_id j) (j_created_at j) st1 = (st2, Ok RReady) ∧ waiting st2 j ∧
    (∃ e, e ∈ ready st2 ∧ re_job_id e = j_id j) ∧ (∀ b, b ∈ blocked st2 → bl_job_id b ≠ j_id j) ∧
    quiet [] st2 st'.

Lemma recheck_all_releases rows work n st st' r :
  inv [] st → Forall (row_ok st) rows → waiting st j →
  Forall (succeeded st) (dependency_ids (j_spec j)) →
  (j_id j, j_created_at j) ∈ rows →
  recheck_all ev rows work n st = (st', r) → released st st'.
Proof using Hev.
  revert work n st. induction rows as [|[id created] rows IH]; intros work n st Hi Hrows Hw Hdeps Hin Hr;
    [by apply elem_of_nil in Hin|]. simpl in Hr.
  pose proof Hrows as [Hrow Hrows']%Forall_cons.
  destruct (_recheck_blocked ev id created st) as [st1 r1] eqn:Hre.
  pose proof Hre as Hq. apply (recheck_blocked_quiet (X:=[]) ev Hev) in Hq as [Hq (o & -> & _)];
    [|done|intros x [Hx _]; by apply Hrow].
  assert (Forall (row_ok st1) rows) as Hrows1.
  { eapply Forall_impl; [exact Hrows'|]. intros row. apply row_ok_subset, Hq. }
  assert (inv [] st1) as Hi1 by by eapply quiet_inv.
  assert (∃ work' n', recheck_all ev rows work' n' st1 = (st', r)) as (work' & n' & Hr').
  { destruct o; eauto. }
  destruct (decide (id = j_id j)) as [->|Hne].
  - assert (created = j_created_at j) as -> by (symmetry; by apply Hrow; [apply Hw|]).
    pose proof (recheck_waiting ev st j Hi Hw) as Hrec.
    cbv zeta in Hrec. rewrite (succeeded_met st _ (proj1 Hi) Hdeps) in Hrec.
    pose proof (write_ready_waiting ev st j Hw) as (Hw2 & He2 & Hb2).
    rewrite Hre in Hrec. injection Hrec as -> ->.
    exists st. eexists. split; [auto with sqlery|]. split; [exact Hre|]. split; [done|].
    split; [done|]. split; [done|].
    destruct (recheck_all_quiet ev Hev rows work' n' _ Hi1 Hrows1) as (st2 & w2 & n2 & Heq & Hq2 & _).
    rewrite Hr' in Heq. by injection Heq as <- _.
  - assert (waiting st1 j) as Hw1.
    { destruct Hw as (Hj & Hs & Hrun). split_and!; [|done|].
      - eapply recheck_keeps_live; [apply Hi|exact Hre|done|congruence].
      - unfold _is_running. by rewrite (qu_attempts _ _ _ Hq). }
    destruct (IH work' n' st1 Hi1 Hrows1 Hw1) as (st2 & st3 & Hq2 & ?).
    + eapply Forall_impl; [exact Hdeps|]. intros d. apply succeeded_evolves, Hq.
    + apply elem_of_cons in Hin as [Heq|]; [|done]. congruence.
    + done.
    + exists st2, st3. split; [|done]. by eapply quiet_trans.
Qed.
End release.

(** ** Theorems: completion *)

(** C5: a successful completion by the worker that holds the attempt. The job leaves the live
    table for history as [success] with its output, the next version, the worker, the start
    time and the duration of its attempt and one more run record; the attempt is closed as
    successful and nothing is left open. *)
Theorem success_recorded ev st id row a h expected seen out :
  env_ok ev → inv [] st → job_by_id st id = Some row →
  a ∈ attempts st → open_for id a → handle_of a h → opt_eq expected (j_version row) →
  ∃ st' f, mark_job_success ev (FLive seen) id (Text out) expected (Some h) st = (st', Ok (FHistory f)) ∧
    history_by_id st' id = Some f ∧ _is_running st' id = false ∧ inv [] st' ∧
    close_attempt (e_now ev) OSuccess a ∈ attempts st' ∧
    j_spec f = j_spec row ∧ j_status f = Success ∧ j_version f = j_version row + 1 ∧
    jr_output (j_run f) = out ∧ jr_error (j_run f) = jr_error (j_run row) ∧
    jr_worker_id (j_run f) = at_worker_id a ∧ jr_started_at (j_run f) = Some (at_claimed_at a) ∧
    jr_finished_at (j_run f) = Some (e_now ev) ∧
    jr_duration (j_run f) = Some (e_now ev - at_claimed_at a) ∧
    length (jr_runs (j_run f)) = S (length (jr_runs (j_run row))).
Proof.
  intros Hev Hinv Hrow Ha Hopen Hh Hexp.
  unfold mark_job_success. rewrite Hrow, (open_attempt_of_open st id a) by (done || apply Hinv).
  cbn [mark_success reject_unawaited_coroutine mbind result_bind].
  match goal with |- context [_fenced_update ev id expected ?s ?v (Some h) OSuccess ?p st] =>
    destruct (fenced_update_finishes ev Hev st Hinv id row Hrow a Ha Hopen h Hh expected Hexp s v OSuccess p
      eq_refl eq_refl) as (st' & -> & ? & ? & ? & ?) end.
  do 2 eexists. split; [done|]. split_and!; try done. simpl. rewrite length_app. simpl. lia.
Qed.

(** A final failure (no retry is owed). The job leaves the live table for history as
    [failed] with the error, the traceback and the reason it was given. *)
Theorem failure_recorded ev st id row a h expected seen error tb reason :
  env_ok ev → inv [] st → job_by_id st id = Some row →
  a ∈ attempts st → open_for id a → handle_of a h → opt_eq expected (j_version row) →
  is_retry_pending (Some reason) = false →
  ∃ st' f, mark_job_failed ev (FLive seen) id error tb reason expected (Some h) st
      = (st', Ok (FHistory f)) ∧
    history_by_id st' id = Some f ∧ _is_running st' id = false ∧ inv [] st' ∧
    close_attempt (e_now ev) OFailed a ∈ attempts st' ∧
    j_spec f = j_spec row ∧ j_status f = Failed ∧ j_version f = j_version row + 1 ∧
    jr_error (j_run f) = error ∧ jr_traceback (j_run f) = tb ∧
    jr_termination_reason (j_run f) = reason ∧
    jr_duration (j_run f) = Some (e_now ev - at_claimed_at a) ∧
    length (jr_runs (j_run f)) = S (length (jr_runs (j_run row))).
Proof.
  intros Hev Hinv Hrow Ha Hopen Hh Hexp Hno.
  unfold mark_job_failed. rewrite Hrow, (open_attempt_of_open st id a) by (done || apply Hinv).
  match goal with |- context [_fenced_update ev id expected ?s ?v (Some h) OFailed ?p st] =>
    destruct (fenced_update_finishes ev Hev st Hinv id row Hrow a Ha Hopen h Hh expected Hexp s v OFailed p
      Hno eq_refl) as (st' & -> & ? & ? & ? & ?) end.
  do 2 eexists. split; [done|]. split_and!; try done. simpl. rewrite length_app. simpl. lia.
Qed.

Lemma failure_keeps ev st id row a h expected seen error tb reason :
  env_ok ev → inv [] st → job_by_id st id = Some row →
  a ∈ attempts st → open_for id a → handle_of a h → opt_eq expected (j_version row) →
  is_retry_pending (Some reason) = true →
  ∃ st' f, mark_job_failed ev (FLive seen) id error tb reason expected (Some h) st
      = (st', Ok (FLive f)) ∧
    job_by_id st' id = Some f ∧ _is_running st' id = false ∧ same_queue st st' ∧ inv [] st' ∧
    close_attempt (e_now ev) OFailed a ∈ attempts st' ∧
    j_spec f = j_spec row ∧ j_status f = Failed ∧ j_version f = j_version row + 1 ∧
    jr_error (j_run f) = error ∧ jr_termination_reason (j_run f) = reason ∧
    length (jr_runs (j_run f)) = S (length (jr_runs (j_run row))).
Proof.
  intros Hev Hinv Hrow Ha Hopen Hh Hexp Hno.
  unfold mark_job_failed. rewrite Hrow, (open_attempt_of_open st id a) by (done || apply Hinv).
  match goal with |- context [_fenced_update ev id expected ?s ?v (Some h) OFailed ?p st] =>
    change s with Failed; destruct (fenced_update_keeps ev st Hinv id row Hrow a Ha Hopen h Hh expected Hexp v OFailed p
      Hno) as (st' & -> & ? & ? & ? & ? & ?) end.
  do 2 eexists. split; [done|]. split_and!; try done. simpl. rewrite length_app. simpl. lia.
Qed.

(** A failure with a retry owed (the reason carries the retry marker). The job stays in
    the live table as [failed] with the marker, so that the sweep or the retry settles it; its
    attempt is closed, and neither the other jobs nor the entries nor history change. *)
Theorem failure_keeps_retry ev st id row a h expected seen error tb reason :
  env_ok ev → inv [] st → job_by_id st id = Some row →
  a ∈ attempts st → open_for id a → handle_of a h → opt_eq expected (j_version row) →
  is_retry_pending (Some reason) = true →
  ∃ st' f, mark_job_failed ev (FLive seen) id error tb reason expected (Some h) st
      = (st', Ok (FLive f)) ∧
    job_by_id st' id = Some f ∧ _is_running st' id = false ∧ same_queue st st' ∧ inv [] st' ∧
    close_attempt (e_now ev) OFailed a ∈ attempts st' ∧
    j_spec f = j_spec row ∧ j_status f = Failed ∧ j_version f = j_version row + 1 ∧
    jr_error (j_run f) = error ∧ jr_termination_reason (j_run f) = reason ∧
    length (jr_runs (j_run f)) = S (length (jr_runs (j_run row))).
Proof. apply failure_keeps. Qed.

(** ** Theorems: dependencies *)

(** A re-check of a waiting blocked job follows the verdict on its dependencies: met, it
    gets its ready entry back and no blocked row is left; pending, nothing changes; failed,
    it goes to history as [failed], naming the dependencies that failed. *)
Theorem recheck_effect ev st j :
  env_ok ev → inv [] st → waiting st j →
  let v := _judge_dependencies st (dependency_ids (j_spec j)) in
  let '(st', r) := _recheck_blocked ev (j_id j) (j_created_at j) st in
  inv [] st' ∧
  match dv_state v with
  | MET => r = Ok RReady ∧ waiting st' j ∧ (∃ e, e ∈ ready st' ∧ re_job_id e = j_id j) ∧
      (∀ b, b ∈ blocked st' → bl_job_id b ≠ j_id j)
  | PENDING => r = Ok RBlocked ∧ st' = st
  | FAILED => r = Ok RFailed ∧ (∀ x, x ∈ live st' → j_id x ≠ j_id j) ∧
      ∃ f, history_by_id st' (j_id j) = Some f ∧ j_status f = Failed ∧
        jr_error (j_run f) = dependency_error v ∧
        jr_termination_reason (j_run f) = "dependency_failed"%string
  end.
Proof.
  intros Hev Hi Hw v. pose proof (recheck_waiting ev st j Hi Hw) as Hr.
  destruct (_recheck_blocked ev (j_id j) (j_created_at j) st) as [st' r] eqn:Hre. split.
  { apply (recheck_blocked_quiet (X:=[]) ev Hev) in Hre as [Hq _]; [eauto with sqlery|done|].
    intros x (Hx & _) Hid. f_equal. f_equal. eapply (live_inj st); [apply Hi|done|apply Hw|done]. }
  cbv zeta in Hr. fold v in Hr. destruct (dv_state v).
  - injection Hr as -> ->. split; [done|]. by apply write_ready_waiting.
  - by injection Hr as -> ->.
  - destruct (fail_queued_records ev j (dependency_error v) "dependency_failed" st Hi Hw)
      as (st1 & f & Hf & _ & Hl & Hh & _ & ? & ? & ? & _).
    rewrite Hf in Hr. injection Hr as -> ->. split; [done|]. split; [|by exists f].
    intros x Hx. by apply Hl.
Qed.


(** ** Theorems: cancellation, release, manual retry *)

Lemma history_by_id_evolves st st' id f :
  wf st → wf st' → evolves st st' → history_by_id st id = Some f → history_by_id st' id = Some f.
Proof.
  intros Hwf Hwf' He (Hf & Hid)%history_by_id_Some; [|done]. apply history_by_id_Some; [done|].
  split; [|done]. eapply elem_of_prefix; [exact Hf|apply He].
Qed.

(** Cancelling. A job that waits is moved to history as [failed] with the message of the
    cancellation; a running job cannot be cancelled: the call reports [false] and changes
    nothing. *)
Theorem cancel_effect ev st id :
  env_ok ev → inv [] st →
  (∀ j, waiting st j → j_id j = id →
     ∃ st' f, cancel_job ev id st = (st', Ok true) ∧ inv [] st' ∧ history_by_id st' id = Some f ∧
       (∀ x, x ∈ live st' → j_id x ≠ id) ∧ j_status f = Failed ∧
       jr_error (j_run f) = "Cancelled by user"%string) ∧
  (_is_running st id = true → staged_by_id ev st id = None → cancel_job ev id st = (st, Ok false)).
Proof.
  intros Hev Hi. pose proof Hi as [Hwf Hc]. unfold cancel_job. split.
  - intros j Hw Hid. pose proof Hw as (Hj & Hs & Hr).
    assert (waiting_clause (attempts st) j = true) as Hwc.
    { unfold waiting_clause. rewrite Hs, bool_decide_true by done. simpl.
      unfold _is_running in Hr. by rewrite Hr. }
    destruct (first_where (λ j, j_id j = id ∧ waiting_clause (attempts st) j = true) (live st)) as [j0|] eqn:Hf.
    2: { rewrite first_where_None in Hf. by destruct (Hf j Hj). }
    apply first_where_Some in Hf as (Hj0 & Hid0 & _).
    assert (j0 = j) as -> by (eapply (live_inj st); [done..|congruence]).
    set (st1 := delete_blocked [id] (delete_ready [id] st)).
    assert (wf st1) as Hwf1 by (subst st1; auto with sqlery).
    assert (covered_except [id] st1) as Hc1 by by apply covered_drop_entries.
    match goal with |- context [_finish_in ev id Failed ?v ?f st1] =>
      destruct (finish_in_cases ev id Failed v f st1 Hwf1) as [(x & Hx & Hm & E)|[Hn _]];
      [|destruct (Hn j Hj); unfold move_where; simpl; rewrite Hs;
        split_and!; [done|done|done|apply list_elem_of_here|intros _; exact Hr]] end.
    rewrite E. pose proof E as E1. apply finish_in_records in E1 as (y & _ & _ & Hl & Hh); [|done..].
    pose proof E as E2. apply (finish_in_true (X:=[])) in E2 as (? & ? & ?); [|done..].
    set (st2 := finished _ _ _ _ _ _ _) in *.
    pose proof (release_quietly_quiet (X:=[]) ev Hev id None st2 ltac:(by split)) as Hq.
    do 2 eexists. split; [done|]. split; [eauto with sqlery|]. split.
    { eapply history_by_id_evolves; [| |apply Hq|exact Hh]; [done|]. exact (proj1 (quiet_inv _ _ Hq)). }
    split; [|done]. intros z Hz%(qu_live _ _ _ Hq). by apply Hl.
  - intros Hrun Hst. rewrite (proj2 (first_where_None _ _)).
    + unfold cancel_staged. by rewrite Hst.
    + intros x Hx [Hid Hwc]. unfold waiting_clause in Hwc. apply andb_true_iff in Hwc as [_ Hwc].
      unfold _is_running in Hrun. rewrite Hid, Hrun in Hwc. done.
Qed.

(** Releasing a claimed job puts it back: its attempt is closed as abandoned and the job
    waits again with a ready entry. *)
Theorem release_restores ev st id row a :
  env_ok ev → inv [] st → job_by_id st id = Some row → j_status row = Queued →
  a ∈ attempts st → open_for id a →
  let st' := release_job ev id st in
  inv [] st' ∧ waiting st' row ∧ (∃ e, e ∈ ready st' ∧ re_job_id e = id) ∧
  close_attempt (e_now ev) OAbandoned a ∈ attempts st' ∧ history st' = history st ∧ live st' = live st.
Proof.
  intros Hev Hi Hrow Hs Ha Ho st'. pose proof (release_job_sound (X:=[]) ev Hev id st Hi) as [Hi' _].
  fold st' in Hi'. split; [done|].
  pose proof (proj1 (job_by_id_Some st (proj1 Hi) id row) Hrow) as [Hin Hid].
  subst st'. unfold release_job in *. rewrite Hrow, Hs, bool_decide_true in * by done. simpl in *.
  assert (0 < rowcount (open_for id) (attempts st))%nat as Hn by (apply rowcount_pos; by exists a).
  rewrite decide_False in * by lia.
  set (st1 := with_attempts _ st) in *.
  assert (_is_running st1 (j_id row) = false) as Hidle.
  { rewrite Hid. apply close_unfenced_none_open. }
  split_and!; try done.
  - unfold write_ready. rewrite filter_cons_True by done. simpl.
    destruct (insert_nothing_key ready_key (ready st) (ready_values row (e_slot ev))) as (y & Hy & Hk).
    exists y. split; [done|]. by injection Hk as _ ->.
  - apply elem_of_update_where. exists a. split; [done|]. by rewrite decide_True.
Qed.

Lemma live_view_nonempty atts j : ∃ x, x ∈ live_view atts j.
Proof.
  unfold live_view. case_decide; [|exists j; apply list_elem_of_here].
  destruct (filter (open_for (j_id j)) atts) as [|a l]; [exists j; apply list_elem_of_here|].
  eexists. apply list_elem_of_fmap_2, list_elem_of_here.
Qed.

Lemma has_retry_child_live st id j : j ∈ live st → j_parent j = Some id → has_retry_child st id = true.
Proof.
  intros Hj Hp. destruct (live_view_nonempty (attempts st) j) as [x Hx].
  apply exists_where_true. exists x. split.
  - apply elem_of_app. left. apply list_elem_of_bind. by exists j.
  - apply live_view_same in Hx as [_ ->]. done.
Qed.

Lemma has_retry_child_mono st st' id :
  live st ⊆ live st' → history st = history st' → attempts st = attempts st' →
  has_retry_child st id = true → has_retry_child st' id = true.
Proof.
  intros Hl Hh Ha (x & Hx & Hp)%exists_where_true. apply exists_where_true. exists x. split; [|done].
  unfold job_all in *. rewrite <-Ha, <-Hh. apply elem_of_app in Hx as [Hx|Hx]; apply elem_of_app; [left|by right].
  apply list_elem_of_bind in Hx as (j & Hx & Hj). apply list_elem_of_bind. exists j. auto.
Qed.

Definition retry_copies (ev : env) (st : store) (pairs : list (Z * queued_job)) : store :=
  foldl (λ st '(id, old), insert_job ev {| j_id := id; j_spec := retry_spec (e_now ev) old;
                                           j_run := fresh_run |} st) st pairs.

Lemma retry_copies_live ev pairs st :
  live (retry_copies ev st pairs) = live st ++
    ((λ '(id, old), {| j_id := id; j_spec := retry_spec (e_now ev) old; j_run := fresh_run |}) <$> pairs) ∧
  history (retry_copies ev st pairs) = history st ∧ attempts (retry_copies ev st pairs) = attempts st.
Proof.
  revert st. induction pairs as [|[id old] pairs IH]; intros st; csimpl.
  { split; [by rewrite app_nil_r|done]. }
  destruct (IH (insert_job ev {| j_id := id; j_spec := retry_spec (e_now ev) old; j_run := fresh_run |} st))
    as (Hl & Hh & Ha). unfold retry_copies in *. simpl in *. rewrite Hl, Hh, Ha.
  by rewrite <-(assoc_L (++)).
Qed.

(** A manual retry of all failed jobs copies each failed job without a retry once: the
    copies are queued children of the jobs they retry, history is untouched, and a second
    call finds nothing left to retry. *)
Theorem retry_failed_once ev ids queue st :
  length ids = length (retryable st queue) →
  let '(st', n) := retry_failed_jobs ev ids queue None st in
  n = length (retryable st queue) ∧ length (live st') = (length (live st) + n)%nat ∧
  history st' = history st ∧
  (∀ old, old ∈ retryable st queue → has_retry_child st' (j_id old) = true) ∧
  ∀ ev2 ids2, retry_failed_jobs ev2 ids2 queue None st' = (st', 0%nat).
Proof.
  intros Hlen. unfold retry_failed_jobs at 1. cbn [limited].
  change (foldl _ st (zip ids (retryable st queue))) with (retry_copies ev st (zip ids (retryable st queue))).
  set (st' := retry_copies _ _ _). destruct (retry_copies_live ev (zip ids (retryable st queue)) st) as (Hl & Hh & Ha).
  fold st' in Hl, Hh, Ha.
  assert (∀ old, old ∈ retryable st queue → has_retry_child st' (j_id old) = true) as Hchild.
  { intros old [i Hi]%list_elem_of_lookup.
    destruct (lookup_lt_is_Some_2 ids i) as [id Hid].
    { rewrite Hlen. by eapply lookup_lt_Some. }
    eapply has_retry_child_live; [rewrite Hl; apply elem_of_app; right; apply list_elem_of_fmap; exists (id, old)|].
    - split; [done|]. apply list_elem_of_lookup. exists i. apply lookup_zip_with_Some. eauto.
    - done. }
  assert (retryable st' queue = []) as Hnone.
  { destruct (retryable st' queue) as [|x l] eqn:Hr; [done|]. exfalso.
    assert (x ∈ retryable st' queue) as Hx by (rewrite Hr; apply list_elem_of_here).
    apply elem_of_order_by, list_elem_of_filter in Hx as ((Hf & Hc & Hq) & Hx).
    assert (has_retry_child st (j_id x) = false) as Hc0.
    { destruct (has_retry_child st (j_id x)) eqn:E; [|done].
      rewrite (has_retry_child_mono st st') in Hc; [done| |done..]. rewrite Hl. set_solver. }
    rewrite Hchild in Hc; [done|]. apply elem_of_order_by, list_elem_of_filter. by rewrite <-Hh. }
  split_and!; try done.
  - rewrite Hl, length_app, length_fmap, length_zip_with. lia.
  - intros ev2 ids2. unfold retry_failed_jobs. rewrite Hnone. cbn [limited]. by destruct ids2.
Qed.

(** ** Theorem: the sweep *)

(** C10: the sweep repairs. From any well-formed state, however many ready entries were lost
    before (by crashes between transactions, for instance), one sweep that is allowed to look
    at every live job gives each waiting job an entry again and keeps the state well-formed. *)
Theorem sweep_repairs ev limit grace after st :
  env_ok ev → wf st → (length (live st) <= limit)%nat →
  let st' := (maintain_ready_queue ev [] limit grace after st).1 in
  wf st' ∧ ∀ j, waiting st' j → has_entry st' (j_id j).
Proof.
  intros Hev Hwf Hlim st'. destruct (maintain_ready_queue_covers ev Hev limit grace after st Hwf Hlim) as [Hwf' Hc].
  split; [exact Hwf'|]. intros j Hj. destruct (Hc j Hj) as [Hn|?]; [by apply elem_of_nil in Hn|done].
Qed.

(** ** Witnesses *)

Lemma demo_handle_of : handle_of demo_attempt demo_handle.
Proof. done. Qed.

Lemma success_recorded_witness :
  ∃ st' f, mark_job_success (demo_env 4000) (FLive demo_job) 11 (Text "out") (Some 0) (Some demo_handle) demo_claimed
      = (st', Ok (FHistory f)) ∧ j_status f = Success ∧ jr_output (j_run f) = "out"%string ∧
    jr_duration (j_run f) = Some 1000.
Proof.
  destruct (success_recorded (demo_env 4000) demo_claimed 11 demo_job demo_attempt demo_handle (Some 0) demo_job "out"
    (demo_env_ok 4000) demo_claimed_inv demo_claimed_row (proj1 demo_attempt_open) (proj2 demo_attempt_open)
    demo_handle_of eq_refl)
    as (st' & f & H & _ & _ & _ & _ & _ & Hs & _ & Ho & _ & _ & _ & _ & Hd & _).
  exists st', f. split; [exact H|]. split; [exact Hs|]. split; [exact Ho|exact Hd].
Defined.

Lemma failure_recorded_witness :
  ∃ st' f, mark_job_failed (demo_env 4000) (FLive demo_job) 11 "boom" "tb" "error" (Some 0) (Some demo_handle) demo_claimed
      = (st', Ok (FHistory f)) ∧ j_status f = Failed ∧ jr_error (j_run f) = "boom"%string.
Proof.
  destruct (failure_recorded (demo_env 4000) demo_claimed 11 demo_job demo_attempt demo_handle (Some 0) demo_job
    "boom" "tb" "error"
    (demo_env_ok 4000) demo_claimed_inv demo_claimed_row (proj1 demo_attempt_open) (proj2 demo_attempt_open)
    demo_handle_of eq_refl eq_refl)
    as (st' & f & H & _ & _ & _ & _ & _ & Hs & _ & He & _).
  exists st', f. split; [exact H|]. split; [exact Hs|exact He].
Defined.

Lemma failure_keeps_retry_witness :
  ∃ st' f, mark_job_failed (demo_env 4000) (FLive demo_job) 11 "boom" "tb" "retry_pending:timeout" (Some 0)
      (Some demo_handle) demo_claimed = (st', Ok (FLive f)) ∧ job_by_id st' 11 = Some f ∧ j_status f = Failed.
Proof.
  destruct (failure_keeps_retry (demo_env 4000) demo_claimed 11 demo_job demo_attempt demo_handle (Some 0) demo_job
    "boom" "tb" "retry_pending:timeout"
    (demo_env_ok 4000) demo_claimed_inv demo_claimed_row (proj1 demo_attempt_open) (proj2 demo_attempt_open)
    demo_handle_of eq_refl eq_refl)
    as (st' & f & H & Hj & _ & _ & _ & _ & _ & Hs & _).
  exists st', f. split; [exact H|]. split; [exact Hj|exact Hs].
Defined.

Lemma recheck_effect_witness :
  let '(st', r) := _recheck_blocked (demo_env 4000) 12 2000 demo_claimed in r = Ok RBlocked ∧ st' = demo_claimed.
Proof.
  pose proof (recheck_effect (demo_env 4000) demo_claimed demo_job2 (demo_env_ok 4000) demo_claimed_inv
    demo_job2_waiting) as H.
  assert (dv_state (_judge_dependencies demo_claimed (dependency_ids (j_spec demo_job2))) = PENDING) as Hv
    by (vm_compute; reflexivity).
  cbv zeta in H. rewrite Hv in H. change (j_id demo_job2) with 12 in H.
  change (j_created_at demo_job2) with 2000 in H.
  destruct (_recheck_blocked (demo_env 4000) 12 2000 demo_claimed) as [st' r].
  exact (proj2 H).
Defined.

Lemma demo_succeeded : Forall (succeeded demo_between) (dependency_ids (j_spec demo_job2)).
Proof.
  apply Forall_singleton. destruct (history demo_between) as [|f l] eqn:E; [vm_compute in E; discriminate|].
  exists f. rewrite E. split; [apply list_elem_of_here|].
  vm_compute in E. injection E as <- _. split; vm_compute; reflexivity.
Qed.


Lemma cancel_effect_witness :
  cancel_job (demo_env 4000) 11 demo_claimed = (demo_claimed, Ok false) ∧
  ∃ st' f, cancel_job (demo_env 4000) 12 demo_claimed = (st', Ok true) ∧ history_by_id st' 12 = Some f ∧
    j_status f = Failed.
Proof.
  split.
  - apply (proj2 (cancel_effect (demo_env 4000) demo_claimed 11 (demo_env_ok 4000) demo_claimed_inv));
      vm_compute; reflexivity.
  - destruct (proj1 (cancel_effect (demo_env 4000) demo_claimed 12 (demo_env_ok 4000) demo_claimed_inv)
      demo_job2 demo_job2_waiting eq_refl) as (st' & f & Hc & _ & Hh & _ & Hs & _).
    exists st', f. split; [exact Hc|]. split; [exact Hh|exact Hs].
Defined.

Lemma release_restores_witness : waiting (release_job (demo_env 4000) 11 demo_claimed) demo_job.
Proof.
  exact (proj1 (proj2 (release_restores (demo_env 4000) demo_claimed 11 demo_job demo_attempt (demo_env_ok 4000)
    demo_claimed_inv demo_claimed_row eq_refl (proj1 demo_attempt_open) (proj2 demo_attempt_open)))).
Defined.

Lemma retry_failed_once_witness :
  length (retryable demo_failed None) = 2%nat ∧
  let '(st', n) := retry_failed_jobs (demo_env 6000) [21; 22] None None demo_failed in
  n = 2%nat ∧ length (live st') = 2%nat.
Proof.
  split; [vm_compute; reflexivity|].
  assert (length [21; 22] = length (retryable demo_failed None)) as Hl by (vm_compute; reflexivity).
  pose proof (retry_failed_once (demo_env 6000) [21; 22] None demo_failed Hl) as H.
  destruct (retry_failed_jobs (demo_env 6000) [21; 22] None None demo_failed) as [st' n].
  destruct H as (Hn & Hlive & _). rewrite <-Hl in Hn. rewrite Hlive, Hn. split; [exact eq_refl|].
  vm_compute. reflexivity.
Defined.

(** Every entry of the queue is lost. *)
Definition demo_lost : store := with_blocked [] (with_ready [] demo_two).

Lemma demo_lost_wf : wf demo_lost.
Proof.
  apply (wf_with_blocked [] (with_ready [] demo_two)).
  - apply (wf_with_ready [] demo_two); [apply demo_two_inv|apply NoDup_nil_2|..];
      intros; exfalso; by eapply elem_of_nil.
  - intros; exfalso; by eapply elem_of_nil.
Qed.

Lemma sweep_repairs_witness :
  let st' := (maintain_ready_queue (demo_env 9000) [] 100 0 0 demo_lost).1 in
  length (live st') = 2%nat ∧ ∀ j, waiting st' j → has_entry st' (j_id j).
Proof.
  split; [vm_compute; reflexivity|].
  refine (proj2 (sweep_repairs (demo_env 9000) 100 0 0 demo_lost (demo_env_ok 9000) demo_lost_wf _)).
  vm_compute. lia.
Defined.
