(* ===== verification/Limits.v ===== *)
(** * What readers see, and the limits a claim enforces

    The union view [sqlery_job_all] (core/history.py, [view_sql]) and the tag limits counted
    on it ([_count_tag_in_session], [_tag_limited]). *)

From S2P Require Import Prelude Sql PyString Models Retry RateLimit Attempts Ready History Store StoreInv Dependents Claim Complete Outcomes Demo.
From stdpp Require Import gmap.
#[local] Open Scope Z_scope.

(** ** The view *)

(** A live row appears once, with the status its open attempt gives it. *)
Lemma live_view_one st j :
  wf st → ∃ x, live_view (attempts st) j = [x] ∧ j_id x = j_id j ∧ j_spec x = j_spec j ∧
    Some (j_status x) = derived_status (Some (j_status j)) (_is_running st (j_id j)).
Proof.
  intros Hwf. unfold live_view, derived_status.
  destruct (decide (j_status j = Queued)) as [Hs|Hs].
  2: { exists j. split_and!; try done. rewrite (bool_decide_false (Some (j_status j) = Some Queued));
       [by rewrite andb_false_r|]. congruence. }
  rewrite Hs, bool_decide_true by done.
  destruct (_is_running st (j_id j)) eqn:Hr.
  - apply is_running_true in Hr as (a & Ha & Ho).
    rewrite (filter_unique (open_for (j_id j)) _ a); [|by apply wf_attempts_NoDup|done..|].
    + eexists. by split_and!.
    + intros x Hx Hox. by apply (wf_one_open st Hwf (j_id j)).
  - rewrite is_running_false in Hr. rewrite (filter_none (open_for (j_id j))) by done.
    exists j. split_and!; try done. by rewrite Hs.
Qed.

Lemma view_ids st (l : list queued_job) : wf st → j_id <$> (l ≫= live_view (attempts st)) = j_id <$> l.
Proof.
  intros Hwf. induction l as [|j l IH]; csimpl; [done|].
  destruct (live_view_one st j Hwf) as (x & -> & Hid & _). rewrite fmap_app, IH. csimpl. by rewrite Hid.
Qed.

Lemma job_all_ids st : wf st → NoDup (j_id <$> job_all st).
Proof.
  intros Hwf. unfold job_all. rewrite fmap_app, view_ids by done. apply NoDup_app.
  split_and!; try apply Hwf.
  intros i (j & -> & Hj)%list_elem_of_fmap (h & Hid & Hh)%list_elem_of_fmap.
  by apply (wf_disjoint st Hwf j h).
Qed.

(** Readers see every job exactly once. The view has no two rows with the same id; a live
    job is shown with its derived status, [running] exactly when it is queued with an open
    attempt; a finished job is shown as history has it. *)
Theorem view_shows_each_job_once st :
  wf st →
  NoDup (j_id <$> job_all st) ∧
  (∀ j, j ∈ live st → ∃ x, x ∈ job_all st ∧ j_id x = j_id j ∧ j_spec x = j_spec j ∧
     Some (j_status x) = derived_status (Some (j_status j)) (_is_running st (j_id j))) ∧
  (∀ f, f ∈ history st → anywhere_by_id st (j_id f) = Some f).
Proof.
  intros Hwf. split_and!.
  - by apply job_all_ids.
  - intros j Hj. destruct (live_view_one st j Hwf) as (x & Hx & ?). exists x. split; [|done].
    apply elem_of_app. left. apply list_elem_of_bind. exists j. rewrite Hx. split; [apply list_elem_of_here|done].
  - intros f Hf. by apply anywhere_history.
Qed.

(** ** When a dependency is met *)

Lemma anywhere_by_id_Some st d x :
  wf st → anywhere_by_id st d = Some x ↔ x ∈ job_all st ∧ j_id x = d.
Proof.
  intros Hwf. unfold anywhere_by_id. split; [by intros [? ?]%first_where_Some|]. intros [Hx Hid].
  destruct (first_where (λ j, j_id j = d) (job_all st)) as [y|] eqn:Hf.
  - apply first_where_Some in Hf as [Hy Hyd]. f_equal.
    eapply (NoDup_fmap_inj j_id (job_all st)); [by apply job_all_ids|done..|congruence].
  - rewrite first_where_None in Hf. by destruct (Hf x Hx).
Qed.

Lemma anywhere_by_id_None st d :
  anywhere_by_id st d = None ↔ ∀ x, x ∈ job_all st → j_id x ≠ d.
Proof. apply first_where_None. Qed.

(** A dependency is met when some job has the id and its newest attempt succeeded. *)
Definition dependency_met (st : store) (d : Z) : Prop :=
  ∃ x, x ∈ job_all st ∧ j_id x = d ∧
    j_status (follow_retries (latest_retry st) MAX_CHAIN_HOPS x) = Success.

Lemma judge_one_met st d :
  wf st →
  (judge_one (anywhere_by_id st) (latest_retry st) (λ r, is_retry_pending (Some r)) d).1 = MET
  ↔ dependency_met st d.
Proof.
  intros Hwf. unfold judge_one, dependency_met. destruct (anywhere_by_id st d) as [x|] eqn:Hx.
  - apply anywhere_by_id_Some in Hx as [Hx Hid]; [|done]. split.
    + intros Hm. exists x. split_and!; [done..|].
      destruct (j_status (follow_retries _ _ x)); try done. by destruct (is_retry_pending _).
    + intros (y & Hy & Hyd & Hs).
      assert (y = x) as -> by (eapply (NoDup_fmap_inj j_id (job_all st)); [by apply job_all_ids|done..|congruence]).
      by rewrite Hs.
  - rewrite anywhere_by_id_None in Hx. split; [done|]. intros (y & Hy & Hyd & _). by destruct (Hx y Hy).
Qed.

Lemma judge_met st deps :
  wf st → dv_state (_judge_dependencies st deps) = MET ↔ Forall (dependency_met st) deps.
Proof.
  intros Hwf. unfold _judge_dependencies. rewrite judge_dependencies_spec.
  rewrite Forall_forall. setoid_rewrite <-judge_one_met; [|done].
  set (one := judge_one _ _ _).
  repeat case_decide.
  - split; [done|]. intros Hall. apply Exists_exists in H as (d & Hd & Hf). specialize (Hall d Hd). congruence.
  - split; [done|]. intros Hall. apply Exists_exists in H0 as (d & Hd & Hf). specialize (Hall d Hd). congruence.
  - split; [|done]. intros _ d Hd. rewrite Exists_exists in H, H0.
    destruct (one d).1 eqn:E; [done|..]; exfalso; [apply H0|apply H]; by exists d.
Qed.

(** ** Counting running jobs of a tag *)

Definition tag_running (tag : string) (j : queued_job) : Prop :=
  j_status j ∈ [Running] ∧ started_since None j ∧ tag ∈ js_tags (j_spec j).
#[global] Instance tag_running_dec tag j : Decision (tag_running tag j).
Proof. unfold tag_running. apply _. Defined.

Definition running_count (st : store) (tag : string) : Z := _count_tag_in_session st tag [Running] None.

Lemma rowcount_app {A} (P : A → Prop) {HD : ∀ x, Decision (P x)} (l1 l2 : list A) :
  rowcount P (l1 ++ l2) = (rowcount P l1 + rowcount P l2)%nat.
Proof. unfold rowcount. by rewrite filter_app, length_app. Qed.

Lemma rowcount_none {A} (P : A → Prop) {HD : ∀ x, Decision (P x)} (l : list A) :
  (∀ x, x ∈ l → ¬ P x) → rowcount P l = 0%nat.
Proof. intros H. unfold rowcount. by rewrite filter_none. Qed.

(** Finished jobs do not run, so the count is over the live table. *)
Lemma running_count_live st tag :
  wf st → running_count st tag = Z.of_nat (rowcount (tag_running tag) (live st ≫= live_view (attempts st))).
Proof.
  intros Hwf. unfold running_count, _count_tag_in_session, job_all. f_equal.
  transitivity (rowcount (tag_running tag) ((live st ≫= live_view (attempts st)) ++ history st)).
  { apply (f_equal length). by apply filter_iff_on. }
  rewrite rowcount_app. rewrite (rowcount_none (tag_running tag) (history st)); [lia|].
  intros h Hh [Hs%list_elem_of_singleton _]. destruct (wf_hist_final st Hwf h Hh) as [Ht _].
  rewrite Hs in Ht. done.
Qed.

(** Opening an attempt on a waiting job adds at most that job to the count. *)
Lemma running_count_open st st' j a tag :
  wf st → wf st' → j ∈ live st → live st' = live st →
  attempts st' = attempts st ++ [a] → open_for (j_id j) a →
  running_count st' tag <= running_count st tag + 1.
Proof.
  intros Hwf Hwf' Hj Hl Ha Ho. rewrite !running_count_live by done. rewrite Hl, Ha.
  destruct (list_elem_of_split _ _ Hj) as (l1 & l2 & Hsplit).
  pose proof (wf_live_ids st Hwf) as Hn. rewrite Hsplit in *.
  assert (∀ l, (∀ x, x ∈ l → j_id x ≠ j_id j) →
    l ≫= live_view (attempts st ++ [a]) = l ≫= live_view (attempts st)) as Hsame.
  { induction l as [|x l IH]; intros Hne; csimpl; [done|]. rewrite IH by set_solver. f_equal.
    unfold live_view. rewrite filter_app. rewrite (filter_none (open_for (j_id x)) [a]).
    - by rewrite app_nil_r.
    - intros y ->%list_elem_of_singleton [Hy _]. destruct Ho as [Hx _].
      apply (Hne x); [apply list_elem_of_here|congruence]. }
  rewrite fmap_app, fmap_cons, NoDup_app in Hn. destruct Hn as (_ & Hdis & [Hn2 _]%NoDup_cons).
  rewrite !bind_app, !bind_cons. rewrite !rowcount_app.
  rewrite (Hsame l1), (Hsame l2).
  - destruct (live_view_one st' j Hwf') as (x & Hx & _). rewrite Ha in Hx. rewrite Hx.
    assert (rowcount (tag_running tag) [x] <= 1)%nat; [|lia].
    unfold rowcount. rewrite filter_cons. by case_decide; simpl; lia.
  - intros x Hx Hid. apply Hn2. rewrite <-Hid. by apply list_elem_of_fmap_2.
  - intros x Hx Hid. apply (Hdis (j_id x)); [by apply list_elem_of_fmap_2|]. rewrite Hid. apply list_elem_of_here.
Qed.

(** A quiet step does not start jobs. *)
Lemma running_count_quiet st st' tag :
  wf st → quiet [] st st' → running_count st' tag <= running_count st tag.
Proof.
  intros Hwf Hq. pose proof (quiet_inv _ _ Hq) as [Hwf' _].
  rewrite !running_count_live by done. rewrite (qu_attempts _ _ _ Hq). apply inj_le.
  assert (live st' ⊆+ live st) as [k Hk]%submseteq_Permutation.
  { apply NoDup_submseteq; [|apply Hq]. eapply NoDup_fmap_1, Hwf'. }
  unfold rowcount. rewrite Hk, bind_app, filter_app, length_app. lia.
Qed.

(** C11: a claim respects the concurrency limits. When [claim_job] hands out a job with a
    tag that has a limit, at most that many jobs of the tag run afterwards, as the view counts
    them; the claimed job included. *)
Theorem claim_respects_concurrency ev queues worker st st' j h tag limit :
  env_ok ev → inv [] st → claim_job ev queues worker st = (st', Done (Some (j, h))) →
  tag ∈ js_tags (j_spec j) → e_conc ev !! tag = Some limit →
  running_count st' tag <= limit.
Proof.
  intros Hev Hi Hc Htag Hlim.
  destruct (claim_job_spec (X:=[]) ev Hev queues worker st Hi) as (st0 & r & Hc' & Hr).
  rewrite Hc in Hc'. injection Hc' as <- <-.
  destruct Hr as (st1 & st2 & c & e & j0 & Hq1 & Hcl & _ & _ & Hq2).
  pose proof (quiet_inv _ _ Hq1) as Hi1.
  pose proof (claimed_sound (X:=[]) ev worker e j0 j h st1 st2 Hi1 Hcl) as [[Hwf2 _] _].
  destruct Hcl as [_ Hw _ _ Htags -> Ho].
  assert (tag_over_limit ev st1 tag = false) as Hover.
  { unfold _tag_limited in Htags. apply orb_false_iff in Htags as [_ Hex].
    destruct (tag_over_limit ev st1 tag) eqn:E; [|done].
    rewrite <-Hex. symmetry. apply existsb_exists. exists tag. split; [|done].
    apply list_elem_of_In, list_elem_of_filter. split; [left; eauto|]. exact Htag. }
  unfold tag_over_limit in Hover. rewrite Hlim in Hover. apply orb_false_iff in Hover as [Hlt _].
  apply Z.leb_gt in Hlt. injection Ho as <- <-.
  pose proof (running_count_quiet _ _ tag Hwf2 Hq2) as Hq.
  pose proof (running_count_open st1 _ j0 _ tag (proj1 Hi1) Hwf2 (proj1 Hw) eq_refl eq_refl
    (conj eq_refl eq_refl)) as Hopen.
  unfold running_count in *. lia.
Qed.

(** ** Witnesses *)

Lemma view_shows_each_job_once_witness : NoDup (j_id <$> job_all demo_claimed).
Proof. exact (proj1 (view_shows_each_job_once demo_claimed (proj1 demo_claimed_inv))). Defined.

(** One job of a tag that may run once. *)
Definition tag_env (now : time) : env :=
  {| e_now := now; e_token := "tok"; e_pid := 7; e_slot := 0; e_conc := {[ "mail"%string := 1 ]}; e_rate := ∅;
     e_partitioned := false; e_entry_locked := λ _, false; e_row_locked := λ _, false;
     e_tag_lock := λ _, true |}.

Definition tag_spec : job_spec :=
  let sp := demo_spec 1 [] None in
  {| js_task_path := js_task_path sp; js_kwargs := js_kwargs sp; js_queue_name := js_queue_name sp;
     js_priority := js_priority sp; js_parent_job_id := None; js_retry_count := 0; js_max_retries := 0;
     js_retry_backoff := js_retry_backoff sp; js_allow_parallel := true; js_timeout_seconds := None;
     js_job_name := None; js_tags := ["mail"%string]; js_retry_intervals := None; js_meta := None;
     js_dependencies := []; js_on_success_path := ""; js_on_failure_path := ""; js_ttl := None;
     js_result_ttl := None; js_failure_ttl := None; js_scheduled_task_id := None; js_created_at := 0;
     js_scheduled_at := None |}.

Definition tag_store : store := (create_job (tag_env 1000) 1 31 tag_spec demo_empty).1.

Lemma tag_store_inv : inv [] tag_store.
Proof.
  apply (create_job_inv (tag_env 1000) (demo_env_ok 1000) 1 31 tag_spec demo_empty demo_empty_inv).
  apply unused_id_intro, (bool_decide_unpack _). by vm_compute.
Qed.

Lemma claim_respects_concurrency_witness :
  running_count (claim_job (tag_env 2000) ["default"%string] None tag_store).1 "mail" <= 1.
Proof.
  destruct (claim_job (tag_env 2000) ["default"%string] None tag_store) as [st' r] eqn:E.
  assert (r = (claim_job (tag_env 2000) ["default"%string] None tag_store).2) as Hr by (by rewrite E).
  vm_compute in Hr. subst r.
  eapply (claim_respects_concurrency (tag_env 2000) ["default"%string] None tag_store st');
    [exact (demo_env_ok 2000)|exact tag_store_inv|exact E|apply list_elem_of_here|vm_compute; reflexivity].
Defined.
