(* ===== verification/Crontab.v ===== *)
(** * Cron expressions (crontab.py)

    The parser ([parse_cron_string], [_expression_to_list], [_try_int]), the generators
    [dates] and [date_times] and [next_cron_occurrence], on the proleptic Gregorian calendar
    of [datetime] (years 1 to 9999).

    The generators run forever only in principle: [datetime.date] raises [ValueError] for the
    year 10000, so the search is bounded by the years that are left, which is its fuel. *)

From S2P Require Import Prelude Sql PyString.
From Stdlib Require Import Ascii.
#[local] Open Scope string_scope.
#[local] Open Scope Z_scope.

(** ** The calendar *)

Definition MAXYEAR : Z := 9999.

Definition is_leap (y : Z) : bool :=
  (y mod 4 =? 0) && (negb (y mod 100 =? 0) || (y mod 400 =? 0)).

Definition days_in_month (y m : Z) : Z :=
  if (m =? 2) then (if is_leap y then 29 else 28)
  else if bool_decide (m ∈ [4; 6; 9; 11]) then 30 else 31.

Definition days_before_year (y : Z) : Z :=
  let y := y - 1 in y * 365 + y / 4 - y / 100 + y / 400.

Definition days_before_month (y m : Z) : Z :=
  foldl Z.add 0 (days_in_month y <$> seqZ 1 (m - 1)).

Definition toordinal (y m d : Z) : Z := days_before_year y + days_before_month y m + d.

(** [date.weekday()]: Monday is 0 *)
Definition weekday (y m d : Z) : Z := (toordinal y m d + 6) mod 7.

(** [Calendar().itermonthdays(y, m)]: whole weeks, the days outside the month as 0 *)
Definition itermonthdays (y m : Z) : list Z :=
  let day1 := weekday y m 1 in
  let ndays := days_in_month y m in
  replicate (Z.to_nat (day1 mod 7)) 0 ++ seqZ 1 ndays ++ replicate (Z.to_nat ((- day1 - ndays) mod 7)) 0.

(** [itermonthdays2]: each with its weekday *)
Definition itermonthdays2 (y m : Z) : list (Z * Z) :=
  imap (λ i d, (d, Z.of_nat i mod 7)) (itermonthdays y m).

(** A datetime at minute resolution (UTC). *)
Record civil : Type := {
  c_year : Z;
  c_month : Z;
  c_day : Z;
  c_hour : Z;
  c_minute : Z;
}.

#[global] Instance civil_eq_dec : EqDecision civil.
Proof. solve_decision. Defined.

Record civil_ok (t : civil) : Prop := {
  ok_month : 1 <= c_month t <= 12;
  ok_day : 1 <= c_day t <= days_in_month (c_year t) (c_month t);
  ok_hour : 0 <= c_hour t <= 23;
  ok_minute : 0 <= c_minute t <= 59;
}.

(** ** Expressions *)

Record Crontab : Type := {
  minutes : list Z;
  hours : list Z;
  day_of_month : list Z;
  months : list Z;
  day_of_week : list Z;
  day_of_month_asterisk : bool;
  day_of_week_asterisk : bool;
}.

(** [InvalidExpression], and the other [ValueError]s the parser lets through (an unpacking
    with the wrong number of parts, a [range] with step 0); [OverflowError] is date arithmetic
    past the last representable minute. [TooDeep] is the fuel of the parser's recursion; it is
    never returned. *)
Inductive cron_error : Type :=
  | InvalidExpression
  | ValueError
  | OverflowError
  | TooDeep.

Definition _try_int (v : chars) (max_value min_value : Z) : result cron_error Z :=
  match py_int v with
  | None => Err InvalidExpression
  | Some n =>
      if (n <? 0) || (n <? min_value) || (max_value <? n) then Err InvalidExpression else Ok n
  end.

(** [range(a, b, step)] as a list, for a step that is not negative *)
Definition py_range (a b step : Z) : result cron_error (list Z) :=
  if step =? 0 then Err ValueError
  else Ok ((λ i, a + i * step) <$> seqZ 0 ((b - a + step - 1) / step)).

#[global] Instance Z_le_decision (a b : Z) : Decision (a <= b) := Z.le_dec a b.

(** [list(sorted(set(..)))] *)
Definition sorted_set (l : list Z) : list Z := order_by Z.le (remove_dups l).

(** The recursion goes from a list to its elements and from [a/b] to [a]: three levels. *)
Fixpoint _expression_to_list (depth : nat) (expr : chars) (max_value min_value step : Z)
    : result cron_error (list Z) :=
  match depth with
  | O => Err TooDeep
  | S depth =>
      if contains "," expr then
        values ← map_result (λ e, _expression_to_list depth e max_value min_value step) (split "," expr);
        Ok (sorted_set (mjoin values))
      else if decide (expr = to_chars "*") then py_range min_value (max_value + 1) step
      else if isnumeric expr then n ← _try_int expr max_value min_value; Ok [n]
      else if contains "/" expr then
        match split "/" expr with
        | [lhs; rhs] =>
            rhs_step ← _try_int rhs max_value min_value;
            _expression_to_list depth lhs max_value min_value rhs_step
        | _ => Err ValueError
        end
      else if contains "-" expr then
        match split "-" expr with
        | [range_start; range_end] =>
            a ← _try_int range_start max_value min_value;
            b ← _try_int range_end max_value min_value;
            py_range a (b + 1) step
        | _ => Err ValueError
        end
      else Err InvalidExpression
  end.

Definition expression_to_list (expr : chars) (max_value min_value : Z) : result cron_error (list Z) :=
  _expression_to_list 3 expr max_value min_value 1.

Definition MACROS : list (string * string) :=
  [("@yearly", "0 0 1 1 *"); ("@annually", "0 0 1 1 *"); ("@monthly", "0 0 1 * *");
   ("@weekly", "0 0 * * 0"); ("@daily", "0 0 * * *"); ("@midnight", "0 0 * * *");
   ("@hourly", "0 * * * *")].

Definition resolve_macro (expression : string) : string :=
  default expression (snd <$> first_where (λ kv, kv.1 = expression) MACROS).

(** A cron expression that is not a [solar:] specification. *)
Definition parse_crontab (expression : string) : result cron_error Crontab :=
  match split " " (to_chars (resolve_macro expression)) with
  | [minute_expr; hour_expr; day_month_expr; month_expr; day_week_expr] =>
      minutes ← expression_to_list minute_expr 59 0;
      hours ← expression_to_list hour_expr 23 0;
      day_months ← expression_to_list day_month_expr 31 1;
      months ← expression_to_list month_expr 12 1;
      day_weeks ← expression_to_list day_week_expr 6 0;
      Ok {| minutes := minutes; hours := hours; day_of_month := day_months; months := months;
            day_of_week := day_weeks;
            day_of_month_asterisk := bool_decide (day_month_expr = to_chars "*");
            day_of_week_asterisk := bool_decide (day_week_expr = to_chars "*") |}
  | _ => Err InvalidExpression
  end.

(** [solar.is_solar] *)
Definition is_solar (expression : string) : bool :=
  negb (bool_decide (expression = "")) &&
  startswith (to_chars "solar:") (lower (strip (to_chars expression))).

(** ** Occurrences *)

(** [_day_of_week_to_cron]: Sunday is 0 *)
Definition _day_of_week_to_cron (d : Z) : Z := (d + 1) mod 7.

Section occurrences.
Context (c : Crontab).

(** the day rule of [dates] *)
Definition day_match (d wd : Z) : bool :=
  let day_of_month_match := bool_decide (d ∈ day_of_month c) in
  let day_of_week_match := bool_decide (_day_of_week_to_cron wd ∈ day_of_week c) in
  if day_of_week_asterisk c then day_of_month_match
  else if day_of_month_asterisk c then day_of_week_match
  else day_of_month_match || day_of_week_match.

(** the dates of one year, from the anchor [(am, ad)] on *)
Definition month_dates (y am ad m : Z) : list (Z * Z) :=
  if m <? am then []
  else (λ '(d, _), (m, d)) <$>
    filter (λ '(d, wd), d ≠ 0 ∧ ¬ (m = am ∧ d < ad) ∧ day_match d wd = true) (itermonthdays2 y m).

Definition year_dates (y am ad : Z) : list (Z * Z) := months c ≫= month_dates y am ad.

(** the times of one day; on the anchor's day only those not before it *)
Definition hour_times (anchor : civil) (start_day : bool) (y m d h : Z) : list civil :=
  if start_day && (h <? c_hour anchor) then []
  else (λ mi, {| c_year := y; c_month := m; c_day := d; c_hour := h; c_minute := mi |}) <$>
    filter (λ mi, ¬ (start_day = true ∧ h = c_hour anchor ∧ mi < c_minute anchor)) (minutes c).

Definition day_times (anchor : civil) (y : Z) '((m, d) : Z * Z) : list civil :=
  let start_day := bool_decide (y = c_year anchor ∧ m = c_month anchor ∧ d = c_day anchor) in
  hours c ≫= hour_times anchor start_day y m d.

Definition year_times (anchor : civil) (y am ad : Z) : list civil :=
  year_dates y am ad ≫= day_times anchor y.

(** [next(self.date_times(anchor))]: one round of the [while True] per year; the year
    after 9999 raises [ValueError] *)
Fixpoint search_years (fuel : nat) (anchor : civil) (y am ad : Z) : option civil :=
  match fuel with
  | O => None
  | S fuel =>
      match year_times anchor y am ad with
      | t :: _ => Some t
      | [] => search_years fuel anchor (y + 1) 1 1
      end
  end.

Definition next_from (anchor : civil) : result cron_error civil :=
  match search_years (Z.to_nat (MAXYEAR - c_year anchor + 1)) anchor
          (c_year anchor) (c_month anchor) (c_day anchor) with
  | Some t => Ok t
  | None => Err ValueError
  end.
End occurrences.

(** [t + timedelta(minutes=1)] *)
Definition next_minute (t : civil) : civil :=
  let '(carry, mi) := if c_minute t =? 59 then (true, 0) else (false, c_minute t + 1) in
  let '(carry, h) :=
    if carry then (if c_hour t =? 23 then (true, 0) else (false, c_hour t + 1)) else (false, c_hour t) in
  let '(carry, d) :=
    if carry then (if c_day t =? days_in_month (c_year t) (c_month t) then (true, 1)
                   else (false, c_day t + 1)) else (false, c_day t) in
  let '(carry, m) :=
    if carry then (if c_month t =? 12 then (true, 1) else (false, c_month t + 1))
    else (false, c_month t) in
  {| c_year := if carry then c_year t + 1 else c_year t; c_month := m; c_day := d;
     c_hour := h; c_minute := mi |}.

(** [None]: a solar schedule (solar.py). *)
Definition next_cron_occurrence (cron_string : string) (base : civil)
    : option (result cron_error civil) :=
  if is_solar cron_string then None
  else Some (
    crontab ← parse_crontab cron_string;
    let base_date := next_minute base in
    if MAXYEAR <? c_year base_date then Err OverflowError
    else match next_from crontab base_date with
    | Ok t => Ok t
    | Err _ => Err InvalidExpression
    end).

(** [validate_cron_expression]: only [InvalidExpression] is caught. *)
Definition validate_cron_expression (expression : string) : option (result cron_error bool) :=
  if is_solar expression then None
  else Some (match parse_crontab expression with
             | Ok _ => Ok true
             | Err InvalidExpression => Ok false
             | Err e => Err e
             end).

(** ** Lemmas *)

#[local] Close Scope string_scope.

Lemma fmap_filter_fmap {A B C} (P : A → Prop) (Q : B → Prop) {HP : ∀ x, Decision (P x)}
    {HQ : ∀ x, Decision (Q x)} (f : A → C) (f' : B → C) (g : B → A) (l : list B) :
  (∀ x, x ∈ l → P (g x) ↔ Q x) → (∀ x, f (g x) = f' x) →
  f <$> filter P (g <$> l) = f' <$> filter Q l.
Proof.
  intros HPQ Hf. induction l as [|x l IH]; [done|]. csimpl. rewrite !filter_cons.
  specialize (HPQ x ltac:(set_solver)) as Hx. specialize (IH ltac:(set_solver)).
  repeat case_decide; csimpl; [by rewrite IH, Hf|tauto|tauto|done].
Qed.

(** *** The calendar *)

Lemma days_in_month_bound y m : 28 <= days_in_month y m <= 31.
Proof. unfold days_in_month. repeat case_match; lia. Qed.

Lemma weekday_shift y m d : weekday y m d = (weekday y m 1 + (d - 1)) mod 7.
Proof.
  unfold weekday, toordinal. rewrite Zplus_mod_idemp_l. f_equal. lia.
Qed.

Lemma weekday_bound y m d : 0 <= weekday y m d < 7.
Proof. unfold weekday. apply Z.mod_pos_bound. lia. Qed.

Lemma imap_repeat_zero (f : nat → Z) n : ∃ l,
  imap (λ i d, (d, f i)) (replicate n 0) = l ∧ Forall (λ p : Z * Z, p.1 = 0) l.
Proof.
  eexists. split; [done|]. apply Forall_forall. intros p Hp.
  apply elem_of_lookup_imap in Hp as (i & d & -> & Hd). simpl.
  apply list_elem_of_lookup_2 in Hd. by apply elem_of_replicate in Hd as [? _].
Qed.

(** The days of the month, each with its weekday, between two runs of zeros. *)
Lemma itermonthdays2_eq y m : ∃ z1 z2,
  itermonthdays2 y m = z1 ++ ((λ d, (d, weekday y m d)) <$> seqZ 1 (days_in_month y m)) ++ z2 ∧
  Forall (λ p : Z * Z, p.1 = 0) z1 ∧ Forall (λ p : Z * Z, p.1 = 0) z2.
Proof.
  unfold itermonthdays2, itermonthdays. rewrite !imap_app.
  destruct (imap_repeat_zero (λ i, Z.of_nat i mod 7) (Z.to_nat (weekday y m 1 mod 7))) as (z1 & -> & H1).
  match goal with |- context [imap ?g (replicate ?n 0)] =>
    destruct (imap_repeat_zero (λ i, (g i 0).2) n) as (z2 & Hz2 & H2) end.
  eexists z1, _. split; [f_equal; f_equal|split; [done|]].
  - rewrite length_replicate. apply list_eq. intros i. rewrite list_lookup_imap, list_lookup_fmap.
    destruct (decide (Z.of_nat i < days_in_month y m)) as [Hi|Hi].
    + rewrite lookup_seqZ_lt by done. simpl. f_equal. f_equal.
      rewrite (weekday_shift y m (1 + Z.of_nat i)). pose proof (weekday_bound y m 1) as Hb.
      rewrite (Z.mod_small (weekday y m 1) 7 Hb). f_equal. lia.
    + by rewrite lookup_seqZ_ge by lia.
  - simpl in Hz2. rewrite <-Hz2 in H2. exact H2.
Qed.

Section next.
Context (c : Crontab).

(** What the parser guarantees of the lists. *)
Record cron_ok : Prop := {
  cok_minutes : StronglySorted Z.lt (minutes c) ∧ Forall (λ x, 0 <= x <= 59) (minutes c);
  cok_hours : StronglySorted Z.lt (hours c) ∧ Forall (λ x, 0 <= x <= 23) (hours c);
  cok_months : StronglySorted Z.lt (months c) ∧ Forall (λ x, 1 <= x <= 12) (months c);
}.

(** The times the expression denotes. *)
Record matches (t : civil) : Prop := {
  ma_ok : civil_ok t;
  ma_minute : c_minute t ∈ minutes c;
  ma_hour : c_hour t ∈ hours c;
  ma_month : c_month t ∈ months c;
  ma_day : day_match c (c_day t) (weekday (c_year t) (c_month t) (c_day t)) = true;
}.

Definition date_lt (a b : Z * Z) : Prop := a.1 < b.1 ∨ (a.1 = b.1 ∧ a.2 < b.2).

Definition civil_lt (a b : civil) : Prop :=
  c_year a < c_year b ∨ (c_year a = c_year b ∧
  (c_month a < c_month b ∨ (c_month a = c_month b ∧
  (c_day a < c_day b ∨ (c_day a = c_day b ∧
  (c_hour a < c_hour b ∨ (c_hour a = c_hour b ∧ c_minute a < c_minute b))))))).

Definition civil_le (a b : civil) : Prop := civil_lt a b ∨ a = b.

Lemma civil_le_not_lt a b : civil_le a b ↔ ¬ civil_lt b a.
Proof using.
  unfold civil_le. split.
  - intros [Hlt| ->]; unfold civil_lt in *; lia.
  - intros Hn. destruct (decide (a = b)) as [->|Hne]; [by right|left].
    unfold civil_lt in *. destruct a as [y m d h mi], b as [y' m' d' h' mi']; simpl in *.
    destruct (decide (y = y' ∧ m = m' ∧ d = d' ∧ h = h' ∧ mi = mi')) as [(-> & -> & -> & -> & ->)|];
      [done|lia].
Qed.

Lemma month_dates_eq y am ad m :
  month_dates c y am ad m =
  if m <? am then []
  else (λ d, (m, d)) <$>
    filter (λ d, ¬ (m = am ∧ d < ad) ∧ day_match c d (weekday y m d) = true)
      (seqZ 1 (days_in_month y m)).
Proof using.
  unfold month_dates. destruct (m <? am); [done|].
  destruct (itermonthdays2_eq y m) as (z1 & z2 & -> & H1 & H2).
  rewrite !filter_app.
  assert (∀ z, Forall (λ p : Z * Z, p.1 = 0) z →
    filter (λ '(d, wd), d ≠ 0 ∧ ¬ (m = am ∧ d < ad) ∧ day_match c d wd = true) z = []) as Hz.
  { intros z Hz. apply filter_none. rewrite Forall_forall in Hz.
    intros [d wd] Hp%Hz. simpl in Hp. tauto. }
  rewrite (Hz z1), (Hz z2), app_nil_r by done. simpl.
  apply fmap_filter_fmap; [|done]. intros d Hd. rewrite elem_of_seqZ in Hd.
  intuition lia.
Qed.

Lemma year_dates_elem y am ad m d :
  (m, d) ∈ year_dates c y am ad ↔
  m ∈ months c ∧ am <= m ∧ ¬ (m = am ∧ d < ad) ∧ 1 <= d <= days_in_month y m ∧
  day_match c d (weekday y m d) = true.
Proof using.
  unfold year_dates. rewrite list_elem_of_bind. split.
  - intros (m' & Hm & Hm'). rewrite month_dates_eq in Hm.
    destruct (Z.ltb_spec m' am); [by apply elem_of_nil in Hm|].
    apply list_elem_of_fmap in Hm as (d' & [= -> ->] & Hd).
    apply list_elem_of_filter in Hd as [[? ?] Hd]. rewrite elem_of_seqZ in Hd.
    split_and!; try done; lia.
  - intros (Hm & Ham & Had & Hd & Hday). exists m. split; [|done]. rewrite month_dates_eq.
    destruct (Z.ltb_spec m am); [lia|]. apply list_elem_of_fmap. exists d. split; [done|].
    apply list_elem_of_filter. rewrite elem_of_seqZ. split; [done|]. lia.
Qed.

Lemma year_dates_sorted y am ad : cron_ok → StronglySorted date_lt (year_dates c y am ad).
Proof using.
  intros [_ _ [Hm _]]. eapply StronglySorted_bind; [exact Hm| |].
  - intros m _. rewrite month_dates_eq. destruct (m <? am); [constructor|].
    eapply StronglySorted_fmap; [|apply StronglySorted_filter, StronglySorted_seqZ].
    intros d1 d2 Hd. right. done.
  - intros m1 m2 [a1 b1] [a2 b2] Hlt. rewrite !month_dates_eq.
    destruct (m1 <? am); [by intros ?%elem_of_nil|]. destruct (m2 <? am); [by intros _ ?%elem_of_nil|].
    intros (d1 & [= -> ->] & _)%list_elem_of_fmap (d2 & [= -> ->] & _)%list_elem_of_fmap. by left.
Qed.

Lemma day_times_elem anchor y m d t :
  t ∈ day_times c anchor y (m, d) ↔
  c_year t = y ∧ c_month t = m ∧ c_day t = d ∧ c_hour t ∈ hours c ∧ c_minute t ∈ minutes c ∧
  (y = c_year anchor ∧ m = c_month anchor ∧ d = c_day anchor →
   ¬ (c_hour t < c_hour anchor ∨ (c_hour t = c_hour anchor ∧ c_minute t < c_minute anchor))).
Proof using.
  unfold day_times. rewrite list_elem_of_bind.
  set (b := bool_decide _). assert (b = true ↔ y = c_year anchor ∧ m = c_month anchor ∧ d = c_day anchor)
    as Hb by apply bool_decide_eq_true. unfold hour_times. split.
  - intros (h & Ht & Hh). destruct (b && (h <? c_hour anchor)) eqn:Hlt; [by apply elem_of_nil in Ht|].
    apply list_elem_of_fmap in Ht as (mi & -> & Hmi). apply list_elem_of_filter in Hmi as [Hn Hmi].
    simpl. split_and!; try done. intros Hs%Hb. rewrite Hs in *. simpl in Hlt.
    apply Z.ltb_ge in Hlt. intros [?|[? ?]]; [lia|]. by apply Hn.
  - intros (<- & <- & <- & Hh & Hmi & Hs). exists (c_hour t). split; [|done].
    destruct (b && (c_hour t <? c_hour anchor)) eqn:Hlt.
    { apply andb_true_iff in Hlt as [Hbt Hlt]. apply Z.ltb_lt in Hlt.
      exfalso. apply Hs; [by apply Hb|by left]. }
    apply list_elem_of_fmap. exists (c_minute t). split; [by destruct t|].
    apply list_elem_of_filter. split; [|done]. intros (Hbt & ? & ?).
    apply Hs; [by apply Hb|by right].
Qed.

Lemma day_times_sorted anchor y md : cron_ok → StronglySorted civil_lt (day_times c anchor y md).
Proof using.
  intros [[Hm _] [Hh _] _]. destruct md as [m d]. unfold day_times.
  eapply StronglySorted_bind; [exact Hh| |].
  - intros h _. unfold hour_times. case_match; [constructor|].
    eapply StronglySorted_fmap; [|apply StronglySorted_filter, Hm].
    intros m1 m2 Hlt. unfold civil_lt. simpl. lia.
  - intros h1 h2 t1 t2 Hlt. unfold hour_times.
    case_match; [by intros ?%elem_of_nil|]. case_match; [by intros _ ?%elem_of_nil|].
    intros (? & -> & _)%list_elem_of_fmap (? & -> & _)%list_elem_of_fmap.
    unfold civil_lt. simpl. lia.
Qed.

(** The times of a year from the anchor date on. *)
Lemma year_times_elem anchor y am ad t :
  t ∈ year_times c anchor y am ad ↔
  c_year t = y ∧ (c_month t, c_day t) ∈ year_dates c y am ad ∧
  t ∈ day_times c anchor y (c_month t, c_day t).
Proof using.
  unfold year_times. rewrite list_elem_of_bind. split.
  - intros ([m d] & Ht & Hd). pose proof Ht as Ht'.
    apply day_times_elem in Ht' as (-> & Hm & Hdd & _). by rewrite Hm, Hdd.
  - intros (_ & Hd & Ht). by exists (c_month t, c_day t).
Qed.

Lemma year_times_sorted anchor y am ad :
  cron_ok → StronglySorted civil_lt (year_times c anchor y am ad).
Proof using.
  intros Hok. eapply StronglySorted_bind; [by apply year_dates_sorted| |].
  - intros md _. by apply day_times_sorted.
  - intros [m1 d1] [m2 d2] t1 t2 Hlt (Hy1 & Hm1 & Hd1 & _)%day_times_elem
      (Hy2 & Hm2 & Hd2 & _)%day_times_elem. unfold date_lt in Hlt. simpl in Hlt.
    unfold civil_lt. lia.
Qed.

(** In the anchor's year they are the matches not before the anchor; in a later year, with
    the anchor date January 1st, all the matches. *)
Lemma year_times_matches anchor y am ad t :
  cron_ok → civil_ok anchor →
  (y = c_year anchor ∧ am = c_month anchor ∧ ad = c_day anchor) ∨ (c_year anchor < y ∧ am = 1 ∧ ad = 1) →
  t ∈ year_times c anchor y am ad ↔ matches t ∧ c_year t = y ∧ civil_le anchor t.
Proof using.
  intros [[_ Hmi] [_ Hho] [_ Hmo]] Hanchor Hcase.
  rewrite year_times_elem, year_dates_elem, day_times_elem.
  rewrite Forall_forall in Hmi, Hho, Hmo. split.
  - intros (Hy & (Hm & Ham & Had & Hd & Hday) & _ & _ & _ & Hh & Hmin & Hs). split_and!; [|done|].
    + split; [|done..|by rewrite Hy]. split; [by apply Hmo|by rewrite Hy|by apply Hho|by apply Hmi].
    + apply civil_le_not_lt. unfold civil_lt. lia.
  - intros ([[_ Hd Hh Hmin] Hmi' Hho' Hmo' Hday] & Hy & Hle).
    apply civil_le_not_lt in Hle as Hnlt. unfold civil_lt in Hnlt.
    split_and!; try done; rewrite <-?Hy; try done.
    + specialize (Hmo _ Hmo'). lia.
    + lia.
    + lia.
    + lia.
    + lia.
Qed.

Lemma search_years_spec fuel anchor y am ad :
  cron_ok → civil_ok anchor →
  (y = c_year anchor ∧ am = c_month anchor ∧ ad = c_day anchor) ∨ (c_year anchor < y ∧ am = 1 ∧ ad = 1) →
  match search_years c fuel anchor y am ad with
  | Some t => matches t ∧ civil_le anchor t ∧ c_year t < y + Z.of_nat fuel ∧
      ∀ t', matches t' → civil_le anchor t' → y <= c_year t' → civil_le t t'
  | None => ∀ t', matches t' → civil_le anchor t' → y <= c_year t' → y + Z.of_nat fuel <= c_year t'
  end.
Proof using.
  intros Hok Ha. revert y am ad. induction fuel as [|fuel IH]; intros y am ad Hcase; [simpl; lia|].
  cbn [search_years]. pose proof (year_times_sorted anchor y am ad Hok) as Hsort.
  pose proof (λ t, year_times_matches anchor y am ad t Hok Ha Hcase) as Helem.
  destruct (year_times c anchor y am ad) as [|t l].
  - assert (∀ t', matches t' → civil_le anchor t' → y <= c_year t' → y + 1 <= c_year t') as Hnext.
    { intros t' Hm Hle Hy. destruct (decide (c_year t' = y)) as [Heq|]; [|lia].
      assert (t' ∈ []) as Hin by (by apply Helem). by apply elem_of_nil in Hin. }
    specialize (IH (y + 1) 1 1). destruct (search_years c fuel anchor (y + 1) 1 1) as [t|].
    + destruct IH as (? & ? & ? & Hmin); [lia|]. split_and!; try done; [lia|]. eauto.
    + intros t' Hm Hle Hy. specialize (IH ltac:(lia) t' Hm Hle (Hnext t' Hm Hle Hy)). lia.
  - destruct (proj1 (Helem t)) as (Hm & Hy & Hle); [by left|]. split_and!; try done; [lia|].
    intros t' Hm' Hle' Hy'. destruct (decide (c_year t' = y)) as [Heq|Hne].
    + destruct (StronglySorted_head civil_lt t l t') as [->|]; [done| |by right|by left].
      by apply Helem.
    + left. unfold civil_lt. lia.
Qed.

(** [next_from] returns the earliest match at or after the anchor; it raises exactly when
    there is none up to the year 9999. *)
Lemma next_from_spec anchor :
  cron_ok → civil_ok anchor →
  match next_from c anchor with
  | Ok t => matches t ∧ civil_le anchor t ∧ c_year t <= MAXYEAR ∧
      ∀ t', matches t' → civil_le anchor t' → civil_le t t'
  | Err _ => ∀ t', matches t' → civil_le anchor t' → MAXYEAR < c_year t'
  end.
Proof using.
  intros Hok Ha. unfold next_from.
  assert (∀ t', civil_le anchor t' → c_year anchor <= c_year t') as Hy.
  { intros t' Hle%civil_le_not_lt. unfold civil_lt in Hle. lia. }
  pose proof (search_years_spec (Z.to_nat (MAXYEAR - c_year anchor + 1)) anchor (c_year anchor)
    (c_month anchor) (c_day anchor) Hok Ha ltac:(by left)) as Hs.
  destruct (search_years _ _ _ _ _ _) as [t|].
  - destruct Hs as (Hm & Hle & Hlt & Hmin). split_and!; [done..| |eauto].
    specialize (Hy t Hle). lia.
  - intros t' Hm Hle. specialize (Hs t' Hm Hle (Hy t' Hle)). lia.
Qed.
End next.

(** *** The next minute *)

Lemma next_minute_ok t : civil_ok t → civil_ok (next_minute t).
Proof.
  intros [Hm Hd Hh Hmi]. pose proof (days_in_month_bound (c_year t) (c_month t)).
  unfold next_minute. destruct (Z.eqb_spec (c_minute t) 59), (Z.eqb_spec (c_hour t) 23),
    (Z.eqb_spec (c_day t) (days_in_month (c_year t) (c_month t))), (Z.eqb_spec (c_month t) 12);
    split; simpl; try lia;
    match goal with |- context [days_in_month ?y ?m] => pose proof (days_in_month_bound y m); lia end.
Qed.

Lemma next_minute_le t t' :
  civil_ok t → civil_ok t' → civil_lt t t' ↔ civil_le (next_minute t) t'.
Proof.
  intros [Hm Hd Hh Hmi] [Hm' Hd' Hh' Hmi']. rewrite civil_le_not_lt. unfold next_minute, civil_lt.
  assert (c_year t' = c_year t → c_month t' = c_month t →
          c_day t' <= days_in_month (c_year t) (c_month t)) as Hday by (intros Hy Hmo; rewrite <-Hy, <-Hmo; lia).
  destruct (Z.eqb_spec (c_minute t) 59), (Z.eqb_spec (c_hour t) 23),
    (Z.eqb_spec (c_day t) (days_in_month (c_year t) (c_month t))), (Z.eqb_spec (c_month t) 12);
    simpl; lia.
Qed.

(** *** The parser *)

Lemma try_int_bounds v mx mn n : _try_int v mx mn = Ok n → mn <= n <= mx ∧ 0 <= n.
Proof.
  unfold _try_int. destruct (py_int v) as [k|]; [|done].
  destruct (_ || _ || _) eqn:Hb; [done|]. intros [= <-].
  apply orb_false_iff in Hb as [[??]%orb_false_iff ?]. lia.
Qed.

Lemma py_range_ok a b step l :
  0 <= step → py_range a b step = Ok l →
  StronglySorted Z.lt l ∧ Forall (λ x, a <= x < b) l.
Proof.
  unfold py_range. intros Hs. destruct (Z.eqb_spec step 0) as [|Hne]; [done|]. intros [= <-]. split.
  - eapply StronglySorted_fmap; [|apply StronglySorted_seqZ]. intros i j Hij. nia.
  - apply Forall_forall. intros x (i & -> & Hi)%list_elem_of_fmap. apply elem_of_seqZ in Hi.
    pose proof (Z.mul_div_le (b - a + step - 1) step ltac:(lia)). nia.
Qed.

Lemma sorted_set_ok l : StronglySorted Z.lt (sorted_set l) ∧ ∀ x, x ∈ sorted_set l ↔ x ∈ l.
Proof.
  unfold sorted_set. split.
  - assert (NoDup (order_by Z.le (remove_dups l))) as Hn.
    { unfold order_by. rewrite merge_sort_Permutation. apply NoDup_remove_dups. }
    assert (StronglySorted Z.le (order_by Z.le (remove_dups l))) as Hs.
    { apply StronglySorted_merge_sort; [intros x y z; lia|intros x y; lia]. }
    induction Hs as [|x k Hk IH Hx]; [constructor|]. apply NoDup_cons in Hn as [Hxk Hn].
    apply StronglySorted_cons. split; [|auto]. rewrite Forall_forall in *. intros y Hy.
    specialize (Hx y Hy). assert (x ≠ y) by congruence. lia.
  - intros x. by rewrite elem_of_order_by, elem_of_remove_dups.
Qed.

Lemma expression_to_list_ok depth expr mx mn step l :
  0 <= step → _expression_to_list depth expr mx mn step = Ok l →
  StronglySorted Z.lt l ∧ Forall (λ x, mn <= x <= mx) l.
Proof.
  revert expr step l. induction depth as [|depth IH]; intros expr step l Hs; [done|]. simpl.
  destruct (contains "," expr).
  { rewrite result_bind_Ok. intros (vs & Hvs & [= <-]). apply map_result_Ok in Hvs.
    destruct (sorted_set_ok (mjoin vs)) as [Hsort Hin]. split; [done|].
    apply Forall_forall. intros x Hx%Hin. apply list_elem_of_join in Hx as (v & Hx & Hv).
    apply list_elem_of_lookup_1 in Hv as (i & Hv).
    destruct (Forall2_lookup_r _ _ _ _ _ Hvs Hv) as (e & _ & He). apply IH in He as [_ Hf]; [|done].
    rewrite Forall_forall in Hf. by apply Hf. }
  assert (∀ a b k, 0 <= k → mn <= a → b <= mx + 1 → py_range a b k = Ok l →
    StronglySorted Z.lt l ∧ Forall (λ x, mn <= x <= mx) l) as Hrange.
  { intros a b k Hk Ha Hb Hr. apply py_range_ok in Hr as [? Hf]; [|done]. split; [done|].
    eapply Forall_impl; [exact Hf|]. simpl. lia. }
  case_decide; [by apply Hrange; lia|].
  destruct (isnumeric expr).
  { rewrite result_bind_Ok. intros (n & Hn%try_int_bounds & [= <-]).
    split; [|by apply Forall_singleton; apply Hn].
    apply StronglySorted_cons. split; [apply Forall_nil_2|constructor]. }
  destruct (contains "/" expr).
  { destruct (split "/" expr) as [|lhs [|rhs [|??]]]; try done. rewrite result_bind_Ok.
    intros (k & Hk%try_int_bounds & Hl). eapply IH; [|exact Hl]. lia. }
  destruct (contains "-" expr); [|done].
  destruct (split "-" expr) as [|rs [|re [|??]]]; try done.
  rewrite result_bind_Ok. intros (a & Ha%try_int_bounds & Hl).
  apply result_bind_Ok in Hl as (b & Hb%try_int_bounds & Hl). eapply Hrange, Hl; lia.
Qed.

Lemma parse_crontab_ok expression c : parse_crontab expression = Ok c → cron_ok c.
Proof.
  unfold parse_crontab. destruct (split " " _) as [|e1 [|e2 [|e3 [|e4 [|e5 [|??]]]]]]; try done.
  rewrite result_bind_Ok. intros (l1 & H1 & H). apply result_bind_Ok in H as (l2 & H2 & H).
  apply result_bind_Ok in H as (l3 & H3 & H). apply result_bind_Ok in H as (l4 & H4 & H).
  apply result_bind_Ok in H as (l5 & H5 & [= <-]).
  split; simpl; by eapply expression_to_list_ok; [|done].
Qed.

(** Three levels are enough: a piece of a comma list has no comma, and the left side of the
    one slash has no slash. *)
Lemma depth_base depth expr mx mn step :
  contains "," expr = false → contains "/" expr = false →
  _expression_to_list (S depth) expr mx mn step ≠ Err TooDeep.
Proof.
  intros Hc Hs. simpl. rewrite Hc, Hs. unfold py_range, _try_int. simpl. repeat case_match; done.
Qed.

Lemma depth_slash depth expr mx mn step :
  contains "," expr = false → _expression_to_list (S (S depth)) expr mx mn step ≠ Err TooDeep.
Proof.
  intros Hc. simpl. rewrite Hc.
  destruct (decide (expr = _)); [unfold py_range; by case_match|].
  destruct (isnumeric expr); [unfold _try_int; simpl; repeat case_match; done|].
  destruct (contains "/" expr) eqn:Hs; [|unfold py_range, _try_int; simpl; repeat case_match; done].
  destruct (split "/" expr) as [|lhs [|rhs [|??]]] eqn:Hsp; try done.
  destruct (_try_int rhs mx mn) as [k|] eqn:Hk; simpl.
  2: { unfold _try_int in Hk. repeat case_match; congruence. }
  apply depth_base.
  - apply bool_decide_eq_false in Hc. apply bool_decide_eq_false. intros Hin. apply Hc.
    rewrite <-(join_split "/" expr), Hsp. simpl. set_solver.
  - apply bool_decide_eq_false. eapply split_pieces. rewrite Hsp. set_solver.
Qed.

Lemma expression_to_list_depth expr mx mn : expression_to_list expr mx mn ≠ Err TooDeep.
Proof.
  unfold expression_to_list. destruct (contains "," expr) eqn:Hc; [|by apply depth_slash].
  cbn [_expression_to_list]. rewrite Hc. intros He.
  destruct (map_result _ _) as [vs|e] eqn:Hm; [done|]. simpl in He. injection He as ->.
  apply map_result_Err in Hm as (p & Hp & Hd).
  refine (depth_slash 0 p mx mn 1 _ Hd). apply bool_decide_eq_false. by eapply split_pieces.
Qed.

(** What [next_cron_occurrence] returns, for the components that schedule with it. *)
Lemma next_cron_occurrence_spec cron_string base t :
  civil_ok base → next_cron_occurrence cron_string base = Some (Ok t) →
  ∃ c, parse_crontab cron_string = Ok c ∧ matches c t ∧ civil_lt base t ∧
    ∀ t', matches c t' → civil_lt base t' → civil_le t t'.
Proof.
  intros Hb. unfold next_cron_occurrence. destruct (is_solar cron_string); [done|]. intros [= H].
  apply result_bind_Ok in H as (c & Hc & H). exists c. split; [done|].
  pose proof (next_from_spec c (next_minute base) (parse_crontab_ok _ _ Hc) (next_minute_ok _ Hb)) as Hs.
  simpl in H. destruct (MAXYEAR <? _); [done|].
  destruct (next_from c (next_minute base)) as [t0|]; [|done]. injection H as ->.
  destruct Hs as (Hm & Hle & _ & Hmin). split; [done|]. split.
  - by apply next_minute_le; [|apply Hm|].
  - intros t' Hm' Hlt. apply Hmin; [done|]. by apply next_minute_le; [|apply Hm'|].
Qed.

(** ** Theorems *)

(** C17: [next_cron_occurrence] returns the earliest minute after the base time that the
    expression matches: the result matches, is strictly after the base, and no match lies
    between them. *)
Theorem next_occurrence_earliest cron_string base t :
  civil_ok base → next_cron_occurrence cron_string base = Some (Ok t) →
  ∃ c, parse_crontab cron_string = Ok c ∧ matches c t ∧ civil_lt base t ∧
    ∀ t', matches c t' → civil_lt base t' → civil_le t t'.
Proof. apply next_cron_occurrence_spec. Qed.

Lemma next_occurrence_earliest_witness :
  let base := {| c_year := 2023; c_month := 3; c_day := 1; c_hour := 12; c_minute := 30 |} in
  let t := {| c_year := 2024; c_month := 2; c_day := 29; c_hour := 0; c_minute := 0 |} in
  ∃ c, parse_crontab "0 0 29 2 *" = Ok c ∧ matches c t ∧ civil_lt base t ∧
    ∀ t', matches c t' → civil_lt base t' → civil_le t t'.
Proof.
  intros base t. apply (next_occurrence_earliest "0 0 29 2 *" base t).
  - split; vm_compute; split; discriminate.
  - vm_compute. reflexivity.
Defined.

(** C18: the search ends. A syntactically valid expression raises exactly when no time up to
    the end of the year 9999 matches it (an empty range, or a day that no month has). *)
Theorem no_occurrence_iff cron_string base c :
  civil_ok base → c_year (next_minute base) <= MAXYEAR →
  is_solar cron_string = false → parse_crontab cron_string = Ok c →
  next_cron_occurrence cron_string base = Some (Err InvalidExpression) ↔
  ∀ t, matches c t → civil_lt base t → MAXYEAR < c_year t.
Proof.
  intros Hb Hy Hsol Hc. unfold next_cron_occurrence. rewrite Hsol, Hc. simpl.
  rewrite (proj2 (Z.ltb_ge _ _) Hy).
  pose proof (next_from_spec c (next_minute base) (parse_crontab_ok _ _ Hc) (next_minute_ok _ Hb)) as Hs.
  destruct (next_from c (next_minute base)) as [t0|e].
  - split; [done|]. intros Hn. destruct Hs as (Hm & Hle & Hy0 & _).
    assert (civil_lt base t0) as Hlt by (by apply next_minute_le; [|apply Hm|]).
    specialize (Hn t0 Hm Hlt). lia.
  - split; [|done]. intros _ t Hm Hlt. apply Hs; [done|]. by apply next_minute_le; [|apply Hm|].
Qed.

Lemma no_occurrence_iff_witness :
  let base := {| c_year := 9990; c_month := 1; c_day := 1; c_hour := 0; c_minute := 0 |} in
  ∃ c, parse_crontab "0 0 30 2 *" = Ok c ∧
    (next_cron_occurrence "0 0 30 2 *" base = Some (Err InvalidExpression) ↔
     ∀ t, matches c t → civil_lt base t → MAXYEAR < c_year t).
Proof.
  intros base. eexists. split; [vm_compute; reflexivity|].
  apply (no_occurrence_iff "0 0 30 2 *" base); [|vm_compute; discriminate|reflexivity..].
  split; vm_compute; split; discriminate.
Defined.

(** The parser. Whatever it accepts, the five lists are strictly increasing and within
    the bounds of their fields, and its recursion never runs deeper than three levels. *)
Theorem parse_lists_sound expression :
  parse_crontab expression ≠ Err TooDeep ∧
  ∀ c, parse_crontab expression = Ok c → cron_ok c.
Proof.
  split; [|intros c; apply parse_crontab_ok]. unfold parse_crontab.
  destruct (split " " _) as [|e1 [|e2 [|e3 [|e4 [|e5 [|??]]]]]]; try done.
  pose proof expression_to_list_depth as Hd.
  repeat match goal with |- context [expression_to_list ?e ?a ?b] =>
    pose proof (Hd e a b); destruct (expression_to_list e a b) as [?|[]]; simpl; try done end.
Qed.

(** [validate_cron_expression] only catches [InvalidExpression]: a zero step and a
    malformed range or step escape as a bare [ValueError] instead of reporting an invalid
    expression. *)
Theorem validate_leaks_value_error :
  validate_cron_expression "*/0 * * * *" = Some (Err ValueError) ∧
  validate_cron_expression "1-2-3 * * * *" = Some (Err ValueError) ∧
  validate_cron_expression "99 * * * *" = Some (Ok false).
Proof. vm_compute. done. Qed.
