(* ===== verification/Rotation.v ===== *)
(** * Rotation of the ready queue (core/rotation.py)

    The slot a writer uses ([plan_writer], [writer_slot]), the rotator's decision
    ([decide_rotation_step]), its database steps ([SqlRotationIO.switch], [drain],
    [reclaim]) on the ready table, the tick that drives them ([run_rotation_tick]) and the
    health verdict. A step is one transaction; what it meets of other transactions (the
    advisory key, a partition lock, rows held by claimers) is in [rot_env]. *)

From S2P Require Import Prelude Sql PyString Models Retry Attempts Ready History Store StoreInv.
From Stdlib Require Import Qcanon.
#[local] Open Scope Z_scope.

Definition SLOT_COUNT : Z := 3.
Definition SLOT_DEFAULT : Z := 0.

Definition slot_for_generation (generation : Z) : Z := generation mod SLOT_COUNT.

(** ** Configuration *)

Record RotationConfig : Type := {
  rc_enabled : bool;
  rc_interval : Qc;
  rc_drain_batch : Z;
  rc_lag_degraded_seconds : Qc;
}.

Definition default_rotation_config : RotationConfig :=
  {| rc_enabled := false; rc_interval := Qc_of_Z 60; rc_drain_batch := 1000;
     rc_lag_degraded_seconds := 0%Qc |}.

Definition lag_threshold (c : RotationConfig) : Qc :=
  if decide (0 < rc_lag_degraded_seconds c)%Qc then rc_lag_degraded_seconds c
  else (Qc_of_Z 3 * rc_interval c + Qc_of_Z 60)%Qc.

(** [_num]: [cast] failed ([None]) or the value is below the minimum: the default *)
Definition num_setting {A} (le : A → A → Prop) `{!∀ x y, Decision (le x y)}
    (value : option A) (default minimum : A) : A :=
  match value with
  | Some v => if decide (le minimum v) then v else default
  | None => default
  end.

(** The settings as the getter gives them, after the casts. *)
Definition config_from_getter (enabled : bool) (interval : option Qc) (drain_batch : option Z)
    (lag_degraded : option Qc) : RotationConfig :=
  let d := default_rotation_config in
  {| rc_enabled := enabled;
     rc_interval := num_setting Qcle interval (rc_interval d) 1%Qc;
     rc_drain_batch := num_setting Z.le drain_batch (rc_drain_batch d) 1;
     rc_lag_degraded_seconds := num_setting Qcle lag_degraded (rc_lag_degraded_seconds d) 0%Qc |}.

(** ** Writers *)

Record WriterPlan : Type := {
  wp_fenced : bool;
  wp_slot : option Z;
}.

Definition plan_writer (enabled postgresql sequence_present : bool) : WriterPlan :=
  if enabled && postgresql && sequence_present then {| wp_fenced := true; wp_slot := None |}
  else {| wp_fenced := false; wp_slot := Some SLOT_DEFAULT |}.

Record _SequenceProbe : Type := {
  pr_present : bool;
  pr_retry_at : Qc;
}.

Definition _PROBE_RETRY_SECONDS : Qc := Qc_of_Z 30.

(** [check]: [exists_] is what the database answers *)
Definition probe_check (p : _SequenceProbe) (now : Qc) (exists_ : bool) : _SequenceProbe * bool :=
  if pr_present p then (p, true)
  else if decide (now < pr_retry_at p)%Qc then (p, false)
  else if exists_ then ({| pr_present := true; pr_retry_at := pr_retry_at p |}, true)
  else ({| pr_present := false; pr_retry_at := (now + _PROBE_RETRY_SECONDS)%Qc |}, false).

(** The slot, and whether the shared generation key was taken. *)
Definition writer_slot (p : _SequenceProbe) (now : Qc) (exists_ : bool) (generation : Z)
    (enabled postgresql : bool) : _SequenceProbe * Z * bool :=
  let plan := plan_writer enabled postgresql true in
  if negb (wp_fenced plan) then (p, default SLOT_DEFAULT (wp_slot plan), false)
  else
    let '(p', present) := probe_check p now exists_ in
    if negb present then (p', SLOT_DEFAULT, false)
    else (p', slot_for_generation generation, true).

(** ** The rotator's decision *)

(** A tuple indexed by slot. *)
Abbreviation per_slot := (bool * bool * bool)%type (only parsing).
Definition at_slot (t : per_slot) (slot : Z) : bool :=
  let '(a, b, c) := t in if slot =? 0 then a else if slot =? 1 then b else c.

Record RotationState : Type := {
  rs_generation : Z;
  rs_nonempty : per_slot;
  rs_dirty : per_slot;
  rs_now : Qc;
  rs_last_switch : option Qc;
  rs_interval : Qc;
  rs_switch_lock : option bool;
  rs_reclaim_lock : option bool;
}.

Definition current (s : RotationState) : Z := slot_for_generation (rs_generation s).

Definition others (s : RotationState) : list Z :=
  [(current s - 1) mod SLOT_COUNT; (current s + 1) mod SLOT_COUNT].

Definition interval_elapsed (s : RotationState) : bool :=
  match rs_last_switch s with
  | None => true
  | Some l => bool_decide (rs_interval s <= rs_now s - l)%Qc
  end.

Inductive Action : Type :=
  | IDLE
  | DRAIN (slot : Z)
  | RECLAIM (slot : Z)
  | SWITCH
  | RETRY_SLOT (slot : Z)
  | RETRY_WRITER.

Definition decide_rotation_step (s : RotationState) : Action :=
  match first_where (λ slot, at_slot (rs_nonempty s) slot = true) (others s) with
  | Some slot => DRAIN slot
  | None =>
      match first_where (λ slot, at_slot (rs_dirty s) slot = true) (others s) with
      | Some slot =>
          if decide (rs_reclaim_lock s = Some false) then RETRY_SLOT slot else RECLAIM slot
      | None =>
          if negb (interval_elapsed s) then IDLE
          else if decide (rs_switch_lock s = Some false) then RETRY_WRITER
          else SWITCH
      end
  end.

(** ** The database of the rotator *)

Record rot_db : Type := {
  rd_generation : Z;               (** [last_value] of the generation sequence *)
  rd_ready : list job_ready;       (** the three partitions *)
  rd_size : per_slot;              (** [pg_relation_size(partition) > 0] *)
  rd_switch_ts : Z;                (** sequences holding epoch seconds, 1 = never *)
  rd_reclaim_ts : Z;
}.

(** What a transaction of the rotator meets. *)
Record rot_env : Type := {
  ro_now : Z;                      (** epoch seconds, floored *)
  ro_key_free : bool;              (** no writer holds the generation key *)
  ro_part_locked : Z → bool;       (** another transaction touched the partition *)
  ro_row_locked : Z → bool;        (** a claimer holds the entry of this job *)
}.

Definition in_slot (slot : Z) (e : job_ready) : Prop := re_slot e = slot.
#[global] Instance in_slot_dec slot e : Decision (in_slot slot e).
Proof. unfold in_slot. apply _. Defined.

Definition nonempty_of (r : list job_ready) : per_slot :=
  (exists_where (in_slot 0) r, exists_where (in_slot 1) r, exists_where (in_slot 2) r).

Definition or_slot (a b : per_slot) : per_slot :=
  let '(a0, a1, a2) := a in let '(b0, b1, b2) := b in (a0 || b0, a1 || b1, a2 || b2).

(** [_ts]: the start value 1 of the sequence means never *)
Definition _ts (v : Z) : option Qc := if decide (1 < v) then Some (Qc_of_Z v) else None.

Definition _read_state (ev : rot_env) (interval : Qc) (db : rot_db) : RotationState :=
  {| rs_generation := rd_generation db;
     rs_nonempty := nonempty_of (rd_ready db);
     rs_dirty := or_slot (nonempty_of (rd_ready db)) (rd_size db);
     rs_now := Qc_of_Z (ro_now ev);
     rs_last_switch := _ts (rd_switch_ts db);
     rs_interval := interval;
     rs_switch_lock := None;
     rs_reclaim_lock := None |}.

Definition with_switch_lock (b : bool) (s : RotationState) : RotationState :=
  {| rs_generation := rs_generation s; rs_nonempty := rs_nonempty s; rs_dirty := rs_dirty s;
     rs_now := rs_now s; rs_last_switch := rs_last_switch s; rs_interval := rs_interval s;
     rs_switch_lock := Some b; rs_reclaim_lock := rs_reclaim_lock s |}.

Definition with_reclaim_lock (b : bool) (s : RotationState) : RotationState :=
  {| rs_generation := rs_generation s; rs_nonempty := rs_nonempty s; rs_dirty := rs_dirty s;
     rs_now := rs_now s; rs_last_switch := rs_last_switch s; rs_interval := rs_interval s;
     rs_switch_lock := rs_switch_lock s; rs_reclaim_lock := Some b |}.

Inductive switch_outcome : Type := Switched | BusyLock | Skipped.

Definition switch (ev : rot_env) (interval : Qc) (db : rot_db) : rot_db * switch_outcome :=
  if negb (ro_key_free ev) then (db, BusyLock)
  else
    match decide_rotation_step (with_switch_lock true (_read_state ev interval db)) with
    | SWITCH =>
        ({| rd_generation := rd_generation db + 1; rd_ready := rd_ready db; rd_size := rd_size db;
            rd_switch_ts := ro_now ev; rd_reclaim_ts := rd_reclaim_ts db |}, Switched)
    | _ => (db, Skipped)
    end.

(** [_move_sql]: delete the chosen rows of the slot and insert them into [cur]
    ([ON CONFLICT DO NOTHING]) in one statement *)
Definition set_slot (cur : Z) (e : job_ready) : job_ready :=
  {| re_slot := cur; re_job_id := re_job_id e; re_queue_name := re_queue_name e;
     re_priority := re_priority e; re_created_at := re_created_at e;
     re_scheduled_at := re_scheduled_at e |}.

#[global] Instance job_ready_eq_dec : EqDecision job_ready.
Proof. solve_decision. Defined.

Definition move_rows (rows : list job_ready) (cur : Z) (r : list job_ready) : list job_ready :=
  insert_all_nothing ready_key (filter (λ e, e ∉ rows) r) (set_slot cur <$> rows).

(** [... LIMIT n FOR UPDATE SKIP LOCKED] *)
Definition drain_batch (ev : rot_env) (slot : Z) (n : Z) (r : list job_ready) : list job_ready :=
  take (Z.to_nat n) (filter (λ e, in_slot slot e ∧ ro_row_locked ev (re_job_id e) = false) r).

Definition set_size (t : per_slot) (slot : Z) (v : bool) : per_slot :=
  let '(a, b, c) := t in
  if slot =? 0 then (v, b, c) else if slot =? 1 then (a, v, c) else (a, b, v).

Definition with_rows (r : list job_ready) (size : per_slot) (db : rot_db) : rot_db :=
  {| rd_generation := rd_generation db; rd_ready := r; rd_size := size;
     rd_switch_ts := rd_switch_ts db; rd_reclaim_ts := rd_reclaim_ts db |}.

Definition drain (ev : rot_env) (slot batch : Z) (db : rot_db) : rot_db * Z :=
  let cur := slot_for_generation (rd_generation db) in
  if decide (slot = cur) then (db, 0)
  else
    let rows := drain_batch ev slot batch (rd_ready db) in
    (with_rows (move_rows rows cur (rd_ready db))
       (match rows with [] => rd_size db | _ => set_size (rd_size db) cur true end) db,
     Z.of_nat (length rows)).

(** [NOWAIT] on the partition; the early [return False] after the move still commits it. *)
Definition reclaim (ev : rot_env) (slot batch : Z) (db : rot_db) : rot_db * bool :=
  let cur := slot_for_generation (rd_generation db) in
  if decide (slot = cur) then (db, false)
  else if ro_part_locked ev slot then (db, false)
  else
    let rows := filter (in_slot slot) (rd_ready db) in
    let size := match rows with [] => rd_size db | _ => set_size (rd_size db) cur true end in
    let db1 := with_rows (move_rows rows cur (rd_ready db)) size db in
    if Z.max batch 1 * 10 <? Z.of_nat (length rows) then (db1, false)
    else
      ({| rd_generation := rd_generation db1;
          rd_ready := delete_where (in_slot slot) (rd_ready db1);
          rd_size := set_size (rd_size db1) slot false;
          rd_switch_ts := rd_switch_ts db1; rd_reclaim_ts := ro_now ev |}, true).

(** ** The tick *)

Inductive retry_reason : Type :=
  | NoRetry
  | DrainHeld
  | ReclaimLocked
  | WriterOpen
  | StateChanged.

Record rotation_report : Type := {
  rr_switched : Z;
  rr_drained : Z;
  rr_reclaimed : Z;
  rr_retry : retry_reason;
}.

Definition empty_report : rotation_report :=
  {| rr_switched := 0; rr_drained := 0; rr_reclaimed := 0; rr_retry := NoRetry |}.

Definition add_report (sw dr rc : Z) (r : rotation_report) : rotation_report :=
  {| rr_switched := rr_switched r + sw; rr_drained := rr_drained r + dr;
     rr_reclaimed := rr_reclaimed r + rc; rr_retry := rr_retry r |}.

Definition set_retry (why : retry_reason) (r : rotation_report) : rotation_report :=
  {| rr_switched := rr_switched r; rr_drained := rr_drained r;
     rr_reclaimed := rr_reclaimed r; rr_retry := why |}.

(** The rotator's operations, as [run_rotation_tick] uses them: [i] numbers the
    transactions of the tick. *)
Class RotationIO (D : Type) : Type := {
  io_read_state : nat → Qc → D → RotationState;
  io_switch : nat → Qc → D → D * switch_outcome;
  io_drain : nat → Z → Z → D → D * Z;
  io_reclaim : nat → Z → Z → D → D * bool;
}.

(** [env i] is what the [i]-th transaction of the tick meets. *)
Definition sql_rotation_io (env : nat → rot_env) : RotationIO rot_db :=
  {| io_read_state := λ i interval db, _read_state (env i) interval db;
     io_switch := λ i interval db, switch (env i) interval db;
     io_drain := λ i slot batch db, drain (env i) slot batch db;
     io_reclaim := λ i slot batch db, reclaim (env i) slot batch db |}.

Definition retry_of (a : Action) (default : retry_reason) : retry_reason :=
  match a with
  | RETRY_SLOT _ => ReclaimLocked
  | RETRY_WRITER => WriterOpen
  | _ => default
  end.

Section tick.
Context {D : Type} `{RotationIO D} (config : RotationConfig).

Fixpoint tick_loop (max_steps : nat) (i : nat) (report : rotation_report) (db : D)
    : D * rotation_report :=
  match max_steps with
  | O => (db, report)
  | S max_steps =>
      let state := io_read_state i (rc_interval config) db in
      match decide_rotation_step state with
      | IDLE => (db, report)
      | DRAIN slot =>
          let '(db', moved) := io_drain (S i) slot (rc_drain_batch config) db in
          let report := add_report 0 moved 0 report in
          if moved =? 0 then (db', set_retry DrainHeld report)
          else tick_loop max_steps (i + 2) report db'
      | RECLAIM slot =>
          let '(db', ok) := io_reclaim (S i) slot (rc_drain_batch config) db in
          if ok then tick_loop max_steps (i + 2) (add_report 0 0 1 report) db'
          else (db', set_retry (retry_of (decide_rotation_step (with_reclaim_lock false state))
                                  ReclaimLocked) report)
      | SWITCH =>
          if negb (rr_switched report =? 0) then (db, report)
          else
            let '(db', outcome) := io_switch (S i) (rc_interval config) db in
            match outcome with
            | Switched => tick_loop max_steps (i + 2) (add_report 1 0 0 report) db'
            | BusyLock =>
                (db', set_retry (retry_of (decide_rotation_step (with_switch_lock false state))
                                   NoRetry) report)
            | Skipped => (db', set_retry StateChanged report)
            end
      | RETRY_SLOT _ => (db, set_retry ReclaimLocked report)
      | RETRY_WRITER => (db, set_retry WriterOpen report)
      end
  end.

Definition MAX_STEPS_PER_TICK : nat := 50.
Definition run_rotation_tick (db : D) : D * rotation_report :=
  tick_loop MAX_STEPS_PER_TICK 0 empty_report db.
End tick.

(** ** Health *)

Inductive health : Type := OK | DEGRADED | UNKNOWN.

Definition qmax0 (q : Qc) : Qc := if decide (q < 0)%Qc then 0%Qc else q.

Definition rotation_lag (now : Qc) (last_reclaim last_switch : option Qc) : option Qc :=
  match last_reclaim, last_switch with
  | Some r, _ => Some (qmax0 (now - r)%Qc)
  | None, Some s => Some (qmax0 (now - s)%Qc)
  | None, None => None
  end.

Definition assess_rotation (enabled : bool) (lag : option Qc) (threshold : Qc) : health :=
  if negb enabled then OK
  else match lag with
       | None => UNKNOWN
       | Some l => if decide (0 < threshold)%Qc then
                     if decide (threshold < l)%Qc then DEGRADED else OK
                   else OK
       end.

(** ** The ring: writers, claimers and the rotator

    A writer transaction reads the generation (fenced) or uses slot 0 (unfenced), inserts
    rows, and commits or aborts; a claimer deletes an entry; the rotator switches, drains and
    reclaims. The advisory key is free iff no fenced writer is open; a partition is locked
    while an open writer has rows in it. *)

Record writer : Type := {
  wr_fenced : bool;
  wr_gen : Z;
  wr_slot : Z;
  wr_rows : list job_ready;
}.

Record ring : Type := {
  rg_db : rot_db;
  rg_writers : list writer;
}.

Record rot_env_for (ring : ring) (ev : rot_env) : Prop := {
  ef_key : ro_key_free ev = true → ∀ w, w ∈ rg_writers ring → wr_fenced w = false;
  ef_part : ∀ w, w ∈ rg_writers ring → wr_rows w ≠ [] → ro_part_locked ev (wr_slot w) = true;
}.

(** A commit of the writer's rows ([ON CONFLICT DO NOTHING]). *)
Definition commit_rows (w : writer) (db : rot_db) : rot_db :=
  match wr_rows w with
  | [] => db
  | rows => with_rows (insert_all_nothing ready_key (rd_ready db) (set_slot (wr_slot w) <$> rows))
              (set_size (rd_size db) (wr_slot w) true) db
  end.

Inductive ring_step : ring → ring → Prop :=
  | ring_begin_fenced db ws :
      ring_step {| rg_db := db; rg_writers := ws |}
        {| rg_db := db;
           rg_writers := {| wr_fenced := true; wr_gen := rd_generation db;
                            wr_slot := slot_for_generation (rd_generation db); wr_rows := [] |} :: ws |}
  | ring_begin_unfenced db ws :
      ring_step {| rg_db := db; rg_writers := ws |}
        {| rg_db := db;
           rg_writers := {| wr_fenced := false; wr_gen := 0; wr_slot := SLOT_DEFAULT;
                            wr_rows := [] |} :: ws |}
  | ring_insert db ws1 w ws2 e :
      ring_step {| rg_db := db; rg_writers := ws1 ++ w :: ws2 |}
        {| rg_db := db;
           rg_writers := ws1 ++ {| wr_fenced := wr_fenced w; wr_gen := wr_gen w; wr_slot := wr_slot w;
                                   wr_rows := wr_rows w ++ [e] |} :: ws2 |}
  | ring_commit db ws1 w ws2 :
      ring_step {| rg_db := db; rg_writers := ws1 ++ w :: ws2 |}
        {| rg_db := commit_rows w db; rg_writers := ws1 ++ ws2 |}
  | ring_abort db ws1 w ws2 :
      ring_step {| rg_db := db; rg_writers := ws1 ++ w :: ws2 |}
        {| rg_db := db; rg_writers := ws1 ++ ws2 |}
  | ring_claim db ws slot id :
      ring_step {| rg_db := db; rg_writers := ws |}
        {| rg_db := with_rows (delete_where (is_entry slot id) (rd_ready db)) (rd_size db) db;
           rg_writers := ws |}
  | ring_switch db ws ev interval :
      rot_env_for {| rg_db := db; rg_writers := ws |} ev →
      ring_step {| rg_db := db; rg_writers := ws |}
        {| rg_db := (switch ev interval db).1; rg_writers := ws |}
  | ring_drain db ws ev slot batch :
      rot_env_for {| rg_db := db; rg_writers := ws |} ev →
      ring_step {| rg_db := db; rg_writers := ws |}
        {| rg_db := (drain ev slot batch db).1; rg_writers := ws |}
  | ring_reclaim db ws ev slot batch :
      rot_env_for {| rg_db := db; rg_writers := ws |} ev →
      ring_step {| rg_db := db; rg_writers := ws |}
        {| rg_db := (reclaim ev slot batch db).1; rg_writers := ws |}.

(** ** Lemmas *)

Lemma slot_for_generation_range g : 0 <= slot_for_generation g < 3.
Proof. apply Z.mod_pos_bound. done. Qed.

Lemma slot_in_SLOTS s : 0 <= s < 3 → s ∈ SLOTS.
Proof.
  intros Hs. assert (s = 0 ∨ s = 1 ∨ s = 2) as [->|[->| ->]] by lia;
    unfold SLOTS; rewrite !elem_of_cons; tauto.
Qed.

Lemma SLOTS_range s : s ∈ SLOTS → 0 <= s < 3.
Proof. unfold SLOTS. rewrite !elem_of_cons, elem_of_nil. lia. Qed.

Lemma writer_slot_range p now ex g en pg :
  let '(_, slot, _) := writer_slot p now ex g en pg in slot ∈ SLOTS.
Proof.
  unfold writer_slot, plan_writer. destruct (en && pg && true); simpl; [|by apply slot_in_SLOTS].
  destruct (probe_check p now ex) as [p' []]; simpl; apply slot_in_SLOTS; [|done].
  apply slot_for_generation_range.
Qed.

Definition has_ready_entry (r : list job_ready) (id : Z) : Prop := ∃ e, e ∈ r ∧ re_job_id e = id.

Section move.
Context (rows r : list job_ready) (cur : Z).

Lemma move_rows_keep id : has_ready_entry r id → has_ready_entry (move_rows rows cur r) id.
Proof using.
  intros (e & He & Hid). destruct (decide (e ∈ rows)) as [Hin|Hin].
  - destruct (insert_all_nothing_key ready_key (set_slot cur <$> rows) (filter (λ e, e ∉ rows) r)
      (set_slot cur e)) as (y & Hy & Hk); [by apply list_elem_of_fmap_2|].
    exists y. split; [done|]. injection Hk as _ Hk. congruence.
  - exists e. split; [|done]. apply insert_all_nothing_subseteq, list_elem_of_filter. done.
Qed.

Lemma move_rows_elem x :
  x ∈ move_rows rows cur r → (x ∈ r ∧ x ∉ rows) ∨ (∃ e, e ∈ rows ∧ x = set_slot cur e).
Proof using.
  intros [Hx|Hx]%insert_all_nothing_elem.
  - apply list_elem_of_filter in Hx as [? ?]. by left.
  - apply list_elem_of_fmap in Hx as (e & -> & He). right. by exists e.
Qed.

Lemma move_rows_keys : NoDup (ready_key <$> r) → NoDup (ready_key <$> move_rows rows cur r).
Proof using.
  intros Hn. apply insert_all_nothing_NoDup. eapply sublist_NoDup; [exact Hn|].
  apply fmap_sublist, sublist_filter.
Qed.

(** a row of another slot stays *)
Lemma move_rows_other e : e ∈ r → e ∉ rows → e ∈ move_rows rows cur r.
Proof using. intros He Hn. apply insert_all_nothing_subseteq, list_elem_of_filter. done. Qed.
End move.

Lemma drain_batch_elem ev slot n r e :
  e ∈ drain_batch ev slot n r → e ∈ r ∧ re_slot e = slot.
Proof.
  intros He. apply elem_of_take in He as (i & He & _). apply list_elem_of_lookup_2 in He.
  apply list_elem_of_filter in He as [[? _] ?]. done.
Qed.

(** After the move, every row left in a partition other than [cur] was there before and was
    not moved; a reclaim that truncates removes none of them. *)
Lemma reclaim_rows ev slot batch db db' :
  reclaim ev slot batch db = (db', true) →
  slot ≠ slot_for_generation (rd_generation db) ∧ ro_part_locked ev slot = false ∧
  rd_ready db' = move_rows (filter (in_slot slot) (rd_ready db)) (slot_for_generation (rd_generation db))
                   (rd_ready db) ∧
  (∀ e, e ∈ rd_ready db' → re_slot e ≠ slot).
Proof.
  unfold reclaim. case_decide as Hc; [done|]. destruct (ro_part_locked ev slot); [done|].
  case_match; [done|]. intros [= <-]. simpl.
  assert (∀ e, e ∈ move_rows (filter (in_slot slot) (rd_ready db))
    (slot_for_generation (rd_generation db)) (rd_ready db) → re_slot e ≠ slot) as Hno.
  { intros e [[He Hn]|(x & _ & ->)]%move_rows_elem; [|simpl; congruence].
    intros Hs. apply Hn, list_elem_of_filter. done. }
  split_and!; try done.
  - apply delete_where_none. intros e He Hs. by apply (Hno e).
  - intros e [He _]%elem_of_delete_where. auto.
Qed.

(** The rotator's steps keep an entry for every job that has one. *)
Lemma drain_keeps ev slot batch db id :
  has_ready_entry (rd_ready db) id → has_ready_entry (rd_ready (drain ev slot batch db).1) id.
Proof.
  intros He. unfold drain. case_decide; [done|]. simpl. by apply move_rows_keep.
Qed.

Lemma reclaim_keeps ev slot batch db id :
  has_ready_entry (rd_ready db) id → has_ready_entry (rd_ready (reclaim ev slot batch db).1) id.
Proof.
  intros He. destruct (reclaim ev slot batch db) as [db' []] eqn:Hr.
  - apply reclaim_rows in Hr as (_ & _ & Hrows & _). simpl. rewrite Hrows. by apply move_rows_keep.
  - unfold reclaim in Hr. case_decide; [by injection Hr as <-|].
    destruct (ro_part_locked ev slot); [by injection Hr as <-|].
    case_match; [|done]. injection Hr as <-. by apply move_rows_keep.
Qed.

Lemma switch_rows ev interval db : rd_ready (switch ev interval db).1 = rd_ready db.
Proof. unfold switch. repeat case_match; done. Qed.

(** ** Invariants of the ring *)

Lemma at_slot_or a b s : at_slot (or_slot a b) s = at_slot a s || at_slot b s.
Proof. destruct a as [[??]?], b as [[??]?]. simpl. by repeat case_match. Qed.

Lemma at_slot_nonempty r s : 0 <= s < 3 → at_slot (nonempty_of r) s = exists_where (in_slot s) r.
Proof. intros Hs. assert (s = 0 ∨ s = 1 ∨ s = 2) as [->|[->| ->]] by lia; done. Qed.

Lemma at_slot_set_size t s v s' :
  0 <= s < 3 → 0 <= s' < 3 → at_slot (set_size t s v) s' = if decide (s' = s) then v else at_slot t s'.
Proof.
  intros Hs Hs'. destruct t as [[a b] c].
  assert (s = 0 ∨ s = 1 ∨ s = 2) as [->|[->| ->]] by lia;
  assert (s' = 0 ∨ s' = 1 ∨ s' = 2) as [->|[->| ->]] by lia; done.
Qed.

Lemma at_slot_set_false t s s' : at_slot t s' = false → at_slot (set_size t s false) s' = false.
Proof.
  destruct t as [[a b] c]. unfold set_size. destruct (s =? 0), (s =? 1); simpl; by repeat case_match.
Qed.

(** A slot is clean: no rows, and its storage is reclaimed. *)
Definition clean (db : rot_db) (s : Z) : Prop :=
  (∀ e, e ∈ rd_ready db → re_slot e ≠ s) ∧ at_slot (rd_size db) s = false.

Lemma decide_switch_clean ev interval db lock s :
  decide_rotation_step (with_switch_lock lock (_read_state ev interval db)) = SWITCH →
  s ∈ [(slot_for_generation (rd_generation db) - 1) mod 3;
       (slot_for_generation (rd_generation db) + 1) mod 3] → clean db s.
Proof.
  unfold decide_rotation_step. intros Hd Hs.
  destruct (first_where _ _) eqn:Hn in Hd; [done|].
  destruct (first_where _ _) eqn:Hc in Hd; [done|].
  rewrite first_where_None in Hn, Hc. specialize (Hn s Hs). specialize (Hc s Hs).
  change (at_slot (nonempty_of (rd_ready db)) s ≠ true) in Hn.
  change (at_slot (or_slot (nonempty_of (rd_ready db)) (rd_size db)) s ≠ true) in Hc.
  assert (0 <= s < 3) as Hr.
  { rewrite !elem_of_cons, elem_of_nil in Hs.
    destruct Hs as [->|[->|[]]]; apply Z.mod_pos_bound; done. }
  rewrite at_slot_nonempty in Hn by done. rewrite at_slot_or in Hc. split.
  - apply not_true_is_false in Hn. rewrite exists_where_false in Hn. exact Hn.
  - destruct (at_slot (rd_size db) s); [|done]. rewrite orb_true_r in Hc. done.
Qed.

Lemma switch_true ev interval db db' :
  switch ev interval db = (db', Switched) →
  ro_key_free ev = true ∧ rd_generation db' = rd_generation db + 1 ∧ rd_ready db' = rd_ready db ∧
  rd_size db' = rd_size db ∧
  clean db ((slot_for_generation (rd_generation db) - 1) mod 3) ∧
  clean db ((slot_for_generation (rd_generation db) + 1) mod 3).
Proof.
  unfold switch. destruct (ro_key_free ev); simpl; [|done].
  destruct (decide_rotation_step _) eqn:Hd; try done. intros [= <-]. simpl.
  split_and!; try done; eapply decide_switch_clean; eauto; rewrite !elem_of_cons; tauto.
Qed.

(** With only fenced writers: writers insert into the current slot, and the slot after it is
    clean, so at most two of the three slots hold rows. *)
Definition all_fenced (r : ring) : Prop := ∀ w, w ∈ rg_writers r → wr_fenced w = true.

Definition fence_ok (r : ring) : Prop := ∀ w, w ∈ rg_writers r → wr_fenced w = true →
  wr_gen w = rd_generation (rg_db r) ∧ wr_slot w = slot_for_generation (rd_generation (rg_db r)).

Definition next_slot (db : rot_db) : Z := (slot_for_generation (rd_generation db) + 1) mod 3.

Definition rows_ok (db : rot_db) : Prop := ∀ e, e ∈ rd_ready db → re_slot e ∈ SLOTS.

Lemma next_slot_range db : 0 <= next_slot db < 3.
Proof. apply Z.mod_pos_bound. done. Qed.

Lemma next_slot_not_current db : next_slot db ≠ slot_for_generation (rd_generation db).
Proof.
  unfold next_slot. pose proof (slot_for_generation_range (rd_generation db)) as Hr.
  remember (slot_for_generation (rd_generation db)) as c. clear Heqc.
  assert (c = 0 ∨ c = 1 ∨ c = 2) as [->|[->| ->]] by lia; done.
Qed.

Lemma after_switch_next db : 
  (slot_for_generation (rd_generation db + 1) + 1) mod 3 = (slot_for_generation (rd_generation db) - 1) mod 3.
Proof.
  unfold slot_for_generation, SLOT_COUNT.
  rewrite Zplus_mod_idemp_l, Zminus_mod_idemp_l.
  replace (rd_generation db + 1 + 1) with (rd_generation db - 1 + 1 * 3) by lia. apply Z_mod_plus_full.
Qed.

Lemma fence_step r r' : fence_ok r → ring_step r r' → fence_ok r'.
Proof.
  intros Hok Hs. destruct Hs as [db ws|db ws|db ws1 w ws2 e|db ws1 w ws2|db ws1 w ws2|db ws slot id
    |db ws ev interval Hev|db ws ev slot batch Hev|db ws ev slot batch Hev]; intros w' Hw' Hf; simpl in *.
  - apply elem_of_cons in Hw' as [->|Hw']; [done|]. by apply Hok.
  - apply elem_of_cons in Hw' as [->|Hw']; [done|]. by apply Hok.
  - apply elem_of_app in Hw' as [Hw'|[->|Hw']%elem_of_cons].
    + apply Hok; [simpl; set_solver|done].
    + apply (Hok w); [simpl; set_solver|done].
    + apply Hok; [simpl; set_solver|done].
  - unfold commit_rows. assert (w' ∈ ws1 ++ w :: ws2) as Hin by set_solver.
    destruct (wr_rows w); by apply (Hok w').
  - assert (w' ∈ ws1 ++ w :: ws2) as Hin by set_solver. by apply (Hok w').
  - by apply (Hok w').
  - unfold switch. destruct (ro_key_free ev) eqn:Hk; simpl; [|by apply (Hok w')].
    pose proof (ef_key _ _ Hev Hk w' Hw'). congruence.
  - unfold drain. case_decide; by apply (Hok w').
  - unfold reclaim. case_decide; [by apply (Hok w')|]. destruct (ro_part_locked ev slot); [by apply (Hok w')|].
    case_match; by apply (Hok w').
Qed.

(** Rows written into [cur] leave the other slots as they were. *)
Lemma clean_with_rows db r size s cur :
  clean db s → s ≠ cur → 0 <= s < 3 → 0 <= cur < 3 →
  (∀ e, e ∈ r → e ∈ rd_ready db ∨ re_slot e = cur) →
  size = rd_size db ∨ size = set_size (rd_size db) cur true →
  clean (with_rows r size db) s.
Proof.
  intros [Hr Hs] Hne Hs3 Hc3 Hin Hsize. split; simpl.
  - intros e He. destruct (Hin e He); [by apply Hr|congruence].
  - destruct Hsize as [->| ->]; [done|]. by rewrite at_slot_set_size, decide_False.
Qed.

Lemma reclaim_clean ev slot batch db :
  clean db (next_slot db) →
  clean (reclaim ev slot batch db).1 (next_slot (reclaim ev slot batch db).1).
Proof.
  intros Hn. pose proof (next_slot_range db) as Hr3. pose proof (next_slot_not_current db) as Hnc.
  pose proof (slot_for_generation_range (rd_generation db)) as Hg3.
  unfold reclaim. case_decide; [done|]. destruct (ro_part_locked ev slot); [done|].
  set (db1 := with_rows _ _ db).
  assert (clean db1 (next_slot db)) as Hc1.
  { apply (clean_with_rows db _ _ _ (slot_for_generation (rd_generation db))); try done.
    - intros e [[He _]|(x & _ & ->)]%move_rows_elem; [by left|by right].
    - destruct (filter _ _); [by left|by right]. }
  case_match; [done|]. simpl. split; simpl.
  - intros e [He _]%elem_of_delete_where. by apply Hc1.
  - apply at_slot_set_false, Hc1.
Qed.

Lemma next_clean_step r r' :
  fence_ok r → all_fenced r → clean (rg_db r) (next_slot (rg_db r)) →
  ring_step r r' → clean (rg_db r') (next_slot (rg_db r')).
Proof.
  intros Hok Hall Hn Hs. pose proof (next_slot_range (rg_db r)) as Hr3.
  pose proof (next_slot_not_current (rg_db r)) as Hnc.
  pose proof (slot_for_generation_range (rd_generation (rg_db r))) as Hg3.
  destruct Hs as [db ws|db ws|db ws1 w ws2 e|db ws1 w ws2|db ws1 w ws2|db ws slot id
    |db ws ev interval Hev|db ws ev slot batch Hev|db ws ev slot batch Hev]; simpl in *; try done.
  - unfold commit_rows. destruct (wr_rows w) as [|x rows] eqn:Hw; [done|].
    destruct (Hok w) as [_ Hslot]; [simpl; set_solver|apply Hall; simpl; set_solver|].
    apply (clean_with_rows db _ _ _ (wr_slot w)); [done|rewrite Hslot; done|done|by rewrite Hslot| |by right].
    intros e [He|He]%(insert_all_nothing_elem ready_key (set_slot (wr_slot w) <$> x :: rows)); [by left|right].
    by apply list_elem_of_fmap in He as (y & -> & _).
  - split; simpl; [|apply Hn]. intros e [He _]%elem_of_delete_where. by apply Hn.
  - destruct (switch ev interval db) as [db' []] eqn:Hsw; simpl.
    + apply switch_true in Hsw as (_ & Hgen & Hrows & Hsize & Hprev & _).
      unfold next_slot. rewrite Hgen, after_switch_next. destruct Hprev as [Hp1 Hp2].
      split; [by rewrite Hrows|by rewrite Hsize].
    + unfold switch in Hsw. destruct (ro_key_free ev); simpl in Hsw; [|by injection Hsw as <-].
      by destruct (decide_rotation_step _); injection Hsw as <-.
    + unfold switch in Hsw. destruct (ro_key_free ev); simpl in Hsw; [|by injection Hsw as <-].
      by destruct (decide_rotation_step _); injection Hsw as <-.
  - unfold drain. case_decide; [done|]. simpl.
    apply (clean_with_rows db _ _ _ (slot_for_generation (rd_generation db))); try done.
    + intros e [[He _]|(x & _ & ->)]%move_rows_elem; [by left|by right].
    + destruct (drain_batch _ _ _ _); [by left|by right].
  - by apply reclaim_clean.
Qed.

(** ** The rotator and the job store *)

(** The rotator's step on the ready table of the store; the sequences are [rot]'s. *)
Definition rot_of (rot : rot_db) (st : store) : rot_db := with_rows (ready st) (rd_size rot) rot.

Definition drain_store (ev : rot_env) (slot batch : Z) (rot : rot_db) (st : store) : store :=
  with_ready (rd_ready (drain ev slot batch (rot_of rot st)).1) st.

Definition reclaim_store (ev : rot_env) (slot batch : Z) (rot : rot_db) (st : store) : store :=
  with_ready (rd_ready (reclaim ev slot batch (rot_of rot st)).1) st.

Section store.
Context {X : list Z}.

Lemma sound_ready r st :
  inv X st → NoDup (ready_key <$> r) →
  (∀ e, e ∈ r → e ∈ ready st ∨ re_slot e ∈ SLOTS ∧ ready_agrees st e) →
  (∀ id, has_ready_entry (ready st) id → has_ready_entry r id) → sound X st (with_ready r st).
Proof using.
  intros [Hwf Hc] Hn Hr Hk. split; [split|by apply evolves_entries].
  - by apply wf_with_ready.
  - apply (covered_frame _ _ _ _ Hc). intros j Hj HX. right. split; [done|].
    split; [by exists j|]. intros [He|Hb]; [left|by right]. by apply Hk.
Qed.

Lemma move_rows_sound rows cur st :
  inv X st → rows ⊆ ready st → cur ∈ SLOTS →
  sound X st (with_ready (move_rows rows cur (ready st)) st).
Proof using.
  intros Hi Hrows Hcur. apply sound_ready; [done| | |].
  - apply move_rows_keys, Hi.
  - intros e [[He _]|(x & Hx & ->)]%move_rows_elem; [by left|right]. split; [done|].
    intros j Hj Hid. apply (wf_ready_created st (proj1 Hi) x j); auto.
  - intros id. apply move_rows_keep.
Qed.

Lemma drain_store_sound ev slot batch rot st :
  inv X st → sound X st (drain_store ev slot batch rot st).
Proof using.
  intros Hi. unfold drain_store, drain. case_decide; simpl.
  { apply sound_ready; auto; apply Hi. }
  apply move_rows_sound; [done| |apply slot_in_SLOTS, slot_for_generation_range].
  intros e He. by apply drain_batch_elem in He as [? _].
Qed.

Lemma reclaim_store_sound ev slot batch rot st :
  inv X st → sound X st (reclaim_store ev slot batch rot st).
Proof using.
  intros Hi. assert (sound X st (with_ready (ready st) st)) as Hrefl
    by (apply sound_ready; auto; apply Hi).
  assert (sound X st (with_ready (move_rows (filter (in_slot slot) (ready st))
    (slot_for_generation (rd_generation rot)) (ready st)) st)) as Hmove.
  { apply move_rows_sound; [done| |apply slot_in_SLOTS, slot_for_generation_range].
    intros e He. by apply list_elem_of_filter in He as [_ ?]. }
  unfold reclaim_store. destruct (reclaim ev slot batch (rot_of rot st)) as [db' []] eqn:Hr.
  - apply reclaim_rows in Hr as (_ & _ & Hrows & _). simpl. by rewrite Hrows.
  - unfold reclaim in Hr. case_decide; [by injection Hr as <-|].
    destruct (ro_part_locked ev slot); [by injection Hr as <-|].
    case_match; [|done]. by injection Hr as <-.
Qed.
End store.

(** ** Theorems *)

Definition initial_ring (generation : Z) : ring :=
  {| rg_db := {| rd_generation := generation; rd_ready := []; rd_size := (false, false, false);
                 rd_switch_ts := 1; rd_reclaim_ts := 1 |};
     rg_writers := [] |}.

(** A step of a ring all of whose writers are fenced (rotation on everywhere). *)
Definition fenced_step (r r' : ring) : Prop := ring_step r r' ∧ all_fenced r'.

Lemma fenced_reach r r' :
  rtc fenced_step r r' → fence_ok r → all_fenced r → clean (rg_db r) (next_slot (rg_db r)) →
  fence_ok r' ∧ all_fenced r' ∧ clean (rg_db r') (next_slot (rg_db r')).
Proof.
  induction 1 as [|r1 r2 r3 [Hs Ha2] _ IH]; intros Hf Ha Hc; [done|].
  apply IH; [by eapply fence_step|done|]. by eapply next_clean_step.
Qed.

Lemma fence_reach r r' : rtc ring_step r r' → fence_ok r → fence_ok r'.
Proof.
  induction 1 as [|r1 r2 r3 Hs _ IH]; intros Hf; [done|]. apply IH. by eapply fence_step.
Qed.


(** C13: no ready entry is lost by the rotation. A drain, a reclaim (truncation included) and
    a switch keep an entry for every job that has one, whatever is locked. *)
Theorem rotation_keeps_entries ev interval slot batch db id :
  has_ready_entry (rd_ready db) id →
  has_ready_entry (rd_ready (drain ev slot batch db).1) id ∧
  has_ready_entry (rd_ready (reclaim ev slot batch db).1) id ∧
  has_ready_entry (rd_ready (switch ev interval db).1) id.
Proof.
  intros He. split_and!; [by apply drain_keeps|by apply reclaim_keeps|].
  by rewrite switch_rows.
Qed.

(** Bounded storage. When every writer is fenced, the slot after the current one is
    always empty with its storage reclaimed: at most two of the three partitions hold rows or
    dead space, and a switch moves the writers to a clean partition. *)
Theorem next_slot_clean g r :
  rtc fenced_step (initial_ring g) r → clean (rg_db r) (next_slot (rg_db r)).
Proof.
  intros Hs. apply (fenced_reach _ _ Hs); try (intros w Hw; by apply elem_of_nil in Hw).
  split; simpl; [by intros e He%elem_of_nil|]. unfold at_slot. by repeat case_match.
Qed.

Section sql_tick.
Context (env : nat → rot_env) (config : RotationConfig).

Definition tick_ok (db db' : rot_db) (report report' : rotation_report) : Prop :=
  0 <= rr_switched report' <= 1 ∧
  rd_generation db' - rd_generation db = rr_switched report' - rr_switched report ∧
  ∀ id, has_ready_entry (rd_ready db) id → has_ready_entry (rd_ready db') id.

Lemma drain_generation ev slot batch db : rd_generation (drain ev slot batch db).1 = rd_generation db.
Proof using. unfold drain. by case_decide. Qed.

Lemma reclaim_generation ev slot batch db :
  rd_generation (reclaim ev slot batch db).1 = rd_generation db.
Proof using. unfold reclaim. case_decide; [done|]. case_match; [done|]. by case_match. Qed.

Lemma switch_generation ev interval db :
  rd_generation (switch ev interval db).1 = rd_generation db +
    match (switch ev interval db).2 with Switched => 1 | _ => 0 end.
Proof using.
  unfold switch. destruct (ro_key_free ev); simpl; [|lia].
  destruct (decide_rotation_step _); simpl; lia.
Qed.

Lemma tick_loop_ok n i report db :
  0 <= rr_switched report <= 1 →
  let '(db', report') := tick_loop (H:=sql_rotation_io env) config n i report db in
  tick_ok db db' report report'.
Proof using.
  revert i report db. induction n as [|n IH]; intros i report db Hr; cbn [tick_loop].
  { split_and!; try done; lia. }
  assert (∀ r, rr_switched r = rr_switched report → tick_ok db db report r) as Hstop.
  { intros r Hr'. unfold tick_ok. rewrite Hr'. split_and!; try done; lia. }
  destruct (decide_rotation_step _) as [|slot|slot| |slot|]; cbn [io_read_state io_drain io_reclaim io_switch sql_rotation_io]; try by apply Hstop.
  - pose proof (drain_generation (env (S i)) slot (rc_drain_batch config) db) as Hg.
    pose proof (drain_keeps (env (S i)) slot (rc_drain_batch config) db) as Hk.
    destruct (drain _ _ _ _) as [db' moved]. simpl in Hg, Hk.
    destruct (moved =? 0); [split_and!; simpl; try done; lia|].
    specialize (IH (i + 2)%nat (add_report 0 moved 0 report) db').
    destruct (tick_loop _ _ _ _ _) as [db2 r2]. destruct IH as (? & ? & ?); [simpl; lia|].
    simpl in *. split_and!; try done; [lia..|auto].
  - pose proof (reclaim_generation (env (S i)) slot (rc_drain_batch config) db) as Hg.
    pose proof (reclaim_keeps (env (S i)) slot (rc_drain_batch config) db) as Hk.
    destruct (reclaim _ _ _ _) as [db' ok]. simpl in Hg, Hk.
    destruct ok; [|split_and!; simpl; try done; lia].
    specialize (IH (i + 2)%nat (add_report 0 0 1 report) db').
    destruct (tick_loop _ _ _ _ _) as [db2 r2]. destruct IH as (? & ? & ?); [simpl; lia|].
    simpl in *. split_and!; try done; [lia..|auto].
  - destruct (Z.eqb_spec (rr_switched report) 0) as [H0|]; simpl; [|by apply Hstop].
    pose proof (switch_generation (env (S i)) (rc_interval config) db) as Hg.
    pose proof (switch_rows (env (S i)) (rc_interval config) db) as Hk.
    destruct (switch _ _ _) as [db' outcome]. simpl in Hg, Hk.
    destruct outcome; [|split_and!; simpl; try lia; by rewrite Hk..].
    specialize (IH (i + 2)%nat (add_report 1 0 0 report) db').
    destruct (tick_loop _ _ _ _ _) as [db2 r2]. destruct IH as (? & ? & Hkeep); [simpl; lia|].
    simpl in *. split_and!; [lia..|]. intros id Hid. apply Hkeep. by rewrite Hk.
Qed.
End sql_tick.

(** One tick of the rotator. Whatever it meets, it advances at most one generation, by
    exactly the switches it reports, and every job with a ready entry still has one. *)
Theorem tick_sound env config db :
  let '(db', report) := run_rotation_tick (H:=sql_rotation_io env) config db in
  0 <= rr_switched report <= 1 ∧ rd_generation db' = rd_generation db + rr_switched report ∧
  ∀ id, has_ready_entry (rd_ready db) id → has_ready_entry (rd_ready db') id.
Proof.
  unfold run_rotation_tick.
  pose proof (tick_loop_ok env config MAX_STEPS_PER_TICK 0 empty_report db ltac:(simpl; lia)) as Hok.
  destruct (tick_loop _ _ _ _ _) as [db' report]. destruct Hok as (? & ? & ?). simpl in *.
  split_and!; try done; lia.
Qed.

(** A switch happens only when the generation key was free and both other slots are
    clean; it advances the generation by one and changes no entry. *)
Theorem switch_requires_clean ev interval db db' :
  switch ev interval db = (db', Switched) →
  ro_key_free ev = true ∧ rd_generation db' = rd_generation db + 1 ∧ rd_ready db' = rd_ready db ∧
  clean db ((slot_for_generation (rd_generation db) - 1) mod 3) ∧
  clean db ((slot_for_generation (rd_generation db) + 1) mod 3).
Proof. intros (? & ? & ? & _ & ? & ?)%switch_true. done. Qed.

(** *** Witnesses *)

Definition demo_rot_env : rot_env :=
  {| ro_now := 100; ro_key_free := true; ro_part_locked := λ _, false; ro_row_locked := λ _, false |}.

Definition demo_ready (slot id : Z) : job_ready :=
  {| re_slot := slot; re_job_id := id; re_queue_name := "default"; re_priority := 0;
     re_created_at := 5; re_scheduled_at := None |}.

(** generation 4 (slot 1 is current), one entry still in slot 0 *)
Definition demo_rot : rot_db :=
  {| rd_generation := 4; rd_ready := [demo_ready 0 7; demo_ready 1 8]; rd_size := (true, true, false);
     rd_switch_ts := 50; rd_reclaim_ts := 1 |}.

Definition demo_ring : ring :=
  {| rg_db := rg_db (initial_ring 3);
     rg_writers := [{| wr_fenced := true; wr_gen := 3; wr_slot := 0; wr_rows := [] |}] |}.

Lemma demo_ring_step : ring_step (initial_ring 3) demo_ring.
Proof. apply (ring_begin_fenced (rg_db (initial_ring 3)) []). Qed.


Lemma rotation_keeps_entries_witness :
  has_ready_entry (rd_ready (drain demo_rot_env 0 10 demo_rot).1) 7 ∧
  has_ready_entry (rd_ready (reclaim demo_rot_env 0 10 demo_rot).1) 7 ∧
  has_ready_entry (rd_ready (switch demo_rot_env 1%Qc demo_rot).1) 7.
Proof.
  apply (rotation_keeps_entries demo_rot_env 1%Qc 0 10 demo_rot 7).
  exists (demo_ready 0 7). split; [apply elem_of_cons; by left|reflexivity].
Defined.

Lemma next_slot_clean_witness : clean (rg_db demo_ring) (next_slot (rg_db demo_ring)).
Proof.
  apply (next_slot_clean 3 demo_ring), rtc_once. split; [apply demo_ring_step|].
  intros w [->|Hw]%elem_of_cons; [reflexivity|by apply elem_of_nil in Hw].
Defined.

Lemma switch_requires_clean_witness :
  let db := rg_db (initial_ring 3) in
  let db' := (switch demo_rot_env 1%Qc db).1 in
  ro_key_free demo_rot_env = true ∧ rd_generation db' = rd_generation db + 1 ∧
  rd_ready db' = rd_ready db ∧
  clean db ((slot_for_generation (rd_generation db) - 1) mod 3) ∧
  clean db ((slot_for_generation (rd_generation db) + 1) mod 3).
Proof.
  intros db db'. apply (switch_requires_clean demo_rot_env 1%Qc db db'). vm_compute. reflexivity.
Defined.
