(* ===== verification/Lease.v ===== *)
(** * Scheduler leases (fastapi_sqlery/backend.py, [claim_queue_leases] and its kin)

    One row per queue says which daemon runs the queue's scheduler, and until when. On
    PostgreSQL the row is locked for the whole claim; on SQLite the claim reads the row first
    and then writes with a version check, so other transactions can run in between: [seen] is
    what it read. *)

From S2P Require Import Prelude Sql.
From stdpp Require Import relations.
#[local] Open Scope Z_scope.

Record DaemonLease : Type := {
  dl_queue_name : string;
  dl_daemon_id : string;
  dl_node_id : string;
  dl_pid : Z;
  dl_acquired_at : time;
  dl_expires_at : time;
  dl_version : Z;
}.

Inductive claim_strategy : Type := SkipLocked | OptimisticVersion | BasicLock.

Definition determine_claim_strategy (dialect_name : option string) : claim_strategy :=
  match dialect_name with
  | Some d => if decide (d = "postgresql") then SkipLocked
              else if decide (d = "sqlite") then OptimisticVersion else BasicLock
  | None => BasicLock
  end.

(** Who claims, and when. *)
Record claimant : Type := {
  cm_daemon : string;
  cm_node : string;
  cm_pid : Z;
  cm_now : time;
  cm_secs : Z;
}.

Definition lease_of (queue : string) (L : list DaemonLease) : option DaemonLease :=
  first_where (λ l, dl_queue_name l = queue) L.

Definition new_lease (cm : claimant) (queue : string) (version : Z) : DaemonLease :=
  {| dl_queue_name := queue; dl_daemon_id := cm_daemon cm; dl_node_id := cm_node cm;
     dl_pid := cm_pid cm; dl_acquired_at := cm_now cm;
     dl_expires_at := cm_now cm + seconds (cm_secs cm); dl_version := version |}.

(** [INSERT]; a row with this queue name is an [IntegrityError]. *)
Definition insert_lease (cm : claimant) (queue : string) (L : list DaemonLease)
    : list DaemonLease * bool :=
  match lease_of queue L with
  | Some _ => (L, false)
  | None => (L ++ [new_lease cm queue 0], true)
  end.

(** [FOR UPDATE] waits for the row and then reads what it holds now; a row that was not there
    cannot be locked, so an insertion can still lose a race. *)
Definition claim_lease_locked (cm : claimant) (queue : string) (seen : option DaemonLease)
    (L : list DaemonLease) : list DaemonLease * bool :=
  match seen, lease_of queue L with
  | None, _ | _, None => insert_lease cm queue L
  | Some _, Some l =>
      if decide (dl_expires_at l < cm_now cm ∨ dl_daemon_id l = cm_daemon cm) then
        (update_where (λ x, dl_queue_name x = queue) (λ x, new_lease cm queue (dl_version x + 1)) L, true)
      else (L, false)
  end.

Definition cas_where (queue : string) (version : Z) (expired_at : option time) (l : DaemonLease) : Prop :=
  dl_queue_name l = queue ∧ dl_version l = version ∧
  match expired_at with None => True | Some now => dl_expires_at l < now end.
#[global] Instance cas_where_dec queue version expired_at l : Decision (cas_where queue version expired_at l).
Proof. unfold cas_where. destruct expired_at; apply _. Defined.

Definition cas_lease (cm : claimant) (queue : string) (version : Z) (expired_at : option time)
    (L : list DaemonLease) : list DaemonLease * bool :=
  (update_where (cas_where queue version expired_at) (λ _, new_lease cm queue (version + 1)) L,
   bool_decide (rowcount (cas_where queue version expired_at) L = 1%nat)).

(** The write of an optimistic claim that read [seen]. *)
Definition claim_lease_optimistic (cm : claimant) (queue : string) (seen : option DaemonLease)
    (L : list DaemonLease) : list DaemonLease * bool :=
  match seen with
  | None => insert_lease cm queue L
  | Some l =>
      if decide (dl_daemon_id l = cm_daemon cm) then cas_lease cm queue (dl_version l) None L
      else if decide (dl_expires_at l < cm_now cm) then
        cas_lease cm queue (dl_version l) (Some (cm_now cm)) L
      else (L, false)
  end.

(** [seen] is what the read returned; [L] is the table when the write runs. *)
Definition _claim_one_lease (strategy : claim_strategy) (cm : claimant) (queue : string)
    (seen : option DaemonLease) (L : list DaemonLease) : list DaemonLease * bool :=
  match strategy with
  | SkipLocked => claim_lease_locked cm queue seen L
  | _ => claim_lease_optimistic cm queue seen L
  end.

(** [claim_queue_leases], when nothing runs between the reads and the writes. *)
Fixpoint claim_queue_leases (strategy : claim_strategy) (cm : claimant) (queues : list string)
    (L : list DaemonLease) : list DaemonLease * list string :=
  match queues with
  | [] => (L, [])
  | q :: queues =>
      let '(L', ok) := _claim_one_lease strategy cm q (lease_of q L) L in
      let '(L'', claimed) := claim_queue_leases strategy cm queues L' in
      (L'', if ok then q :: claimed else claimed)
  end.

Definition owned (owned_queues : list string) (daemon : string) (l : DaemonLease) : Prop :=
  dl_queue_name l ∈ owned_queues ∧ dl_daemon_id l = daemon.
#[global] Instance owned_dec qs d l : Decision (owned qs d l).
Proof. unfold owned. apply _. Defined.

Definition renew_queue_leases (owned_queues : list string) (daemon : string) (now lease_secs : Z)
    (L : list DaemonLease) : list DaemonLease :=
  match owned_queues with
  | [] => L
  | _ => update_where (owned owned_queues daemon)
           (λ l, {| dl_queue_name := dl_queue_name l; dl_daemon_id := dl_daemon_id l;
                    dl_node_id := dl_node_id l; dl_pid := dl_pid l;
                    dl_acquired_at := dl_acquired_at l;
                    dl_expires_at := now + seconds lease_secs; dl_version := dl_version l |}) L
  end.

Definition release_queue_leases (owned_queues : list string) (daemon : string)
    (L : list DaemonLease) : list DaemonLease :=
  match owned_queues with
  | [] => L
  | _ => delete_where (owned owned_queues daemon) L
  end.

(** ** Lemmas *)

Definition leases_ok (L : list DaemonLease) : Prop := NoDup (dl_queue_name <$> L).

(** The daemon holds a live lease on the queue. *)
Definition holds (L : list DaemonLease) (queue daemon : string) (now : time) : Prop :=
  ∃ l, l ∈ L ∧ dl_queue_name l = queue ∧ dl_daemon_id l = daemon ∧ now <= dl_expires_at l.

Lemma lease_of_Some q L l : lease_of q L = Some l → l ∈ L ∧ dl_queue_name l = q.
Proof. intros H. by apply first_where_Some in H. Qed.

Lemma lease_of_None q L : lease_of q L = None ↔ ∀ l, l ∈ L → dl_queue_name l ≠ q.
Proof. apply first_where_None. Qed.

Lemma insert_lease_ok cm q L : leases_ok L → leases_ok (insert_lease cm q L).1.
Proof.
  intros HL. unfold insert_lease. destruct (lease_of q L) eqn:Hq; [done|]. unfold leases_ok. simpl.
  rewrite fmap_app. apply NoDup_app. split_and!; [done| |apply NoDup_singleton].
  intros x (l & -> & Hl)%list_elem_of_fmap Hx. csimpl in Hx. apply list_elem_of_singleton in Hx.
  rewrite lease_of_None in Hq. by apply (Hq l).
Qed.

Lemma update_leases_ok (P : DaemonLease → Prop) {HD : ∀ l, Decision (P l)} f L :
  leases_ok L → (∀ l, P l → dl_queue_name (f l) = dl_queue_name l) → leases_ok (update_where P f L).
Proof. intros HL Hf. unfold leases_ok. by rewrite update_where_column. Qed.

Lemma claim_one_ok strategy cm q seen L : leases_ok L → leases_ok (_claim_one_lease strategy cm q seen L).1.
Proof.
  intros HL. assert (∀ v e, leases_ok (cas_lease cm q v e L).1) as Hcas.
  { intros v e. apply update_leases_ok; [done|]. by intros l (-> & _). }
  assert (leases_ok (claim_lease_optimistic cm q seen L).1) as Hopt.
  { unfold claim_lease_optimistic. destruct seen; [|by apply insert_lease_ok].
    repeat case_decide; done. }
  destruct strategy; simpl; try done. unfold claim_lease_locked.
  destruct seen; [|by apply insert_lease_ok].
  destruct (lease_of q L) eqn:Hq; [|by apply insert_lease_ok]. case_decide; [|done].
  apply update_leases_ok; [done|]. by intros l ->.
Qed.

Lemma renew_ok qs d now secs L : leases_ok L → leases_ok (renew_queue_leases qs d now secs L).
Proof. intros HL. unfold renew_queue_leases. destruct qs; [done|]. by apply update_leases_ok. Qed.

Lemma release_ok qs d L : leases_ok L → leases_ok (release_queue_leases qs d L).
Proof.
  intros HL. unfold release_queue_leases. destruct qs; [done|].
  eapply sublist_NoDup; [exact HL|]. apply fmap_delete_where_sublist.
Qed.

Lemma lease_of_cons q l L :
  lease_of q (l :: L) = if decide (dl_queue_name l = q) then Some l else lease_of q L.
Proof. unfold lease_of, first_where. rewrite filter_cons. by case_decide. Qed.

Lemma lease_of_update q (P : DaemonLease → Prop) {HD : ∀ l, Decision (P l)} f L :
  (∀ l, P l → dl_queue_name (f l) = dl_queue_name l) →
  lease_of q (update_where P f L) = (λ l, if decide (P l) then f l else l) <$> lease_of q L.
Proof.
  intros Hf. induction L as [|l L IH]; [done|].
  change (update_where P f (l :: L)) with ((if decide (P l) then f l else l) :: update_where P f L).
  rewrite !lease_of_cons, IH.
  assert (dl_queue_name (if decide (P l) then f l else l) = dl_queue_name l) as ->.
  { case_decide; auto. }
  by case_decide.
Qed.

Lemma lease_of_snoc q L x :
  lease_of q (L ++ [x]) =
  match lease_of q L with Some l => Some l | None => if decide (dl_queue_name x = q) then Some x else None end.
Proof.
  induction L as [|l L IH]; simpl; [by rewrite lease_of_cons|].
  rewrite !lease_of_cons. by destruct (decide (dl_queue_name l = q)).
Qed.

(** One row per queue: an [UPDATE] that names the queue touches one row or none. *)
Lemma cas_rowcount q v e L :
  leases_ok L →
  rowcount (cas_where q v e) L = 1%nat ↔ ∃ l, lease_of q L = Some l ∧ cas_where q v e l.
Proof.
  unfold leases_ok. induction L as [|l L IH]; csimpl.
  { intros _. split; [done|]. by intros (l & Hl & _). }
  rewrite NoDup_cons. intros [Hnot HL]. rewrite lease_of_cons. unfold rowcount. rewrite filter_cons.
  destruct (decide (dl_queue_name l = q)) as [Hq|Hq].
  - rewrite (filter_none (cas_where q v e) L).
    + case_decide; simpl; split; try done; [eauto|]. intros (? & [= <-] & ?). contradiction.
    + intros x Hx (Hxq & _). apply Hnot. rewrite Hq, <-Hxq. by apply list_elem_of_fmap_2.
  - rewrite decide_False by (intros (? & _); contradiction). by apply IH.
Qed.

(** When a claim of [queue] by [cm] is entitled to the row. *)
Definition free_for (cm : claimant) (row : option DaemonLease) : Prop :=
  match row with
  | None => True
  | Some l => dl_expires_at l < cm_now cm ∨ dl_daemon_id l = cm_daemon cm
  end.
#[global] Instance free_for_dec cm row : Decision (free_for cm row).
Proof. destruct row; apply _. Defined.

(** The row after a claim that was entitled to it. *)
Definition taken (cm : claimant) (queue : string) (row : option DaemonLease) : DaemonLease :=
  new_lease cm queue (match row with None => 0 | Some l => dl_version l + 1 end).

Definition claimed_row (cm : claimant) (q q' : string) (L : list DaemonLease) : option DaemonLease :=
  if decide (q' = q ∧ free_for cm (lease_of q L)) then Some (taken cm q (lease_of q L)) else lease_of q' L.

(** A claim that nothing interrupts, as a function of the row it meets: every strategy does
    the same. *)
Lemma claim_one_uninterrupted strategy cm q L :
  leases_ok L →
  (_claim_one_lease strategy cm q (lease_of q L) L).2 = bool_decide (free_for cm (lease_of q L)) ∧
  ∀ q', lease_of q' (_claim_one_lease strategy cm q (lease_of q L) L).1 = claimed_row cm q q' L.
Proof.
  intros HL. unfold claimed_row.
  assert (∀ q' l (P : DaemonLease → Prop) (HD : ∀ l, Decision (P l)) f,
    lease_of q L = Some l → P l → (∀ x, P x → dl_queue_name x = q) →
    f l = taken cm q (Some l) → (∀ x, P x → dl_queue_name (f x) = q) →
    lease_of q' (update_where P f L) = if decide (q' = q) then Some (taken cm q (Some l)) else lease_of q' L)
    as Hupd.
  { intros q' l P HD f Hl HP HPq Hf Hfq. rewrite lease_of_update by (intros x Hx; rewrite Hfq, HPq; done).
    case_decide as Hq; [subst; rewrite Hl; simpl; rewrite decide_True by done; by rewrite Hf|].
    destruct (lease_of q' L) as [l'|] eqn:Hl'; [|done]. simpl. rewrite decide_False; [done|].
    intros HP'%HPq. apply lease_of_Some in Hl' as [_ Hl']. congruence. }
  destruct (lease_of q L) as [l|] eqn:Hq.
  - pose proof (lease_of_Some _ _ _ Hq) as [_ Hlq].
    assert (∀ e, (match e with None => True | Some now => dl_expires_at l < now end) →
      (cas_lease cm q (dl_version l) e L).2 = true ∧
      ∀ q', lease_of q' (cas_lease cm q (dl_version l) e L).1
        = if decide (q' = q) then Some (taken cm q (Some l)) else lease_of q' L) as Hcas.
    { intros e He. split; [apply bool_decide_eq_true; rewrite cas_rowcount by done; by exists l|].
      intros q'. by apply (Hupd q' l); try done; intros x (Hx & _). }
    destruct strategy; cbn [_claim_one_lease claim_lease_locked claim_lease_optimistic free_for].
    1: { rewrite Hq. case_decide as Hd.
      - rewrite bool_decide_true by done. split; [done|]. intros q'.
        cbn [fst]. rewrite (Hupd q' l) by done. repeat case_decide; naive_solver.
      - rewrite bool_decide_false by done. split; [done|]. intros q'. rewrite decide_False; naive_solver. }
    all: repeat case_decide; first
      [ rewrite bool_decide_true by tauto; destruct (Hcas None I) as [-> Hr]; split; [done|];
        intros q'; rewrite Hr; repeat case_decide; naive_solver
      | rewrite bool_decide_true by tauto; destruct (Hcas (Some (cm_now cm))) as [-> Hr]; [done|]; split; [done|];
        intros q'; rewrite Hr; repeat case_decide; naive_solver
      | rewrite bool_decide_false by tauto; split; [done|]; intros q'; rewrite decide_False; naive_solver ].
  - assert (_claim_one_lease strategy cm q None L = insert_lease cm q L) as -> by by destruct strategy.
    unfold insert_lease. rewrite Hq. split; [done|]. intros q'. simpl.
    rewrite lease_of_snoc. simpl. case_decide as Hd; destruct_and?; subst.
    + rewrite Hq. by rewrite decide_True.
    + rewrite decide_False by naive_solver. by destruct (lease_of q' L).
Qed.

(** What the daemons do to the table, releases apart: claims of any strategy whose read is
    arbitrarily old, and renewals. *)
Inductive lease_step : list DaemonLease → list DaemonLease → Prop :=
| ls_claim strategy cm q seen L : lease_step L (_claim_one_lease strategy cm q seen L).1
| ls_renew qs d now secs L : lease_step L (renew_queue_leases qs d now secs L).

(** Between two states without a release, a queue's row stays, its version does not go down,
    and the row changes hands only with a new version. *)
Definition row_evolves (L L' : list DaemonLease) : Prop :=
  ∀ q l, lease_of q L = Some l → ∃ l', lease_of q L' = Some l' ∧ dl_version l <= dl_version l' ∧
    (dl_version l' = dl_version l → dl_daemon_id l' = dl_daemon_id l).

#[global] Instance row_evolves_preorder : PreOrder row_evolves.
Proof.
  split; [intros L q l Hl; exists l; split_and!; [done|lia|done]|].
  intros L1 L2 L3 H12 H23 q l Hl. destruct (H12 q l Hl) as (l2 & Hl2 & Hv2 & Hd2).
  destruct (H23 q l2 Hl2) as (l3 & Hl3 & Hv3 & Hd3). exists l3. split_and!; [done|lia|].
  intros Hv. rewrite Hd3, Hd2; [done|lia|lia].
Qed.

Lemma insert_lease_evolves cm q L : row_evolves L (insert_lease cm q L).1.
Proof.
  unfold insert_lease. destruct (lease_of q L) eqn:Hq; [done|]. intros q' l Hl. exists l.
  simpl. rewrite lease_of_snoc, Hl. split_and!; [done|lia|done].
Qed.

Lemma update_evolves (P : DaemonLease → Prop) {HD : ∀ l, Decision (P l)} f L :
  (∀ l, P l → dl_queue_name (f l) = dl_queue_name l ∧
     (dl_version l < dl_version (f l) ∨ dl_version (f l) = dl_version l ∧ dl_daemon_id (f l) = dl_daemon_id l)) →
  row_evolves L (update_where P f L).
Proof.
  intros Hf q l Hl. rewrite lease_of_update by (intros x Hx; by apply Hf). rewrite Hl. simpl.
  eexists; split; [done|]. case_decide as HP; [|split; [lia|done]].
  destruct (Hf l HP) as (_ & [?|[? ?]]); (split; [lia|]); [lia|done].
Qed.

Lemma claim_one_evolves strategy cm q seen L : row_evolves L (_claim_one_lease strategy cm q seen L).1.
Proof.
  assert (∀ v e, row_evolves L (cas_lease cm q v e L).1) as Hcas.
  { intros v e. apply update_evolves. intros l (-> & -> & _). simpl. split; [done|]. left. lia. }
  assert (row_evolves L (claim_lease_optimistic cm q seen L).1) as Hopt.
  { unfold claim_lease_optimistic. destruct seen; [|apply insert_lease_evolves].
    repeat case_decide; done. }
  destruct strategy; simpl; try done. unfold claim_lease_locked.
  destruct seen; [|apply insert_lease_evolves].
  destruct (lease_of q L) eqn:Hq; [|apply insert_lease_evolves]. case_decide; [|done].
  apply update_evolves. intros l ->. simpl. split; [done|]. left. lia.
Qed.

Lemma steps_evolve L L' : rtc lease_step L L' → row_evolves L L'.
Proof.
  induction 1 as [|L1 L2 L3 [strategy cm q seen L|qs d now secs L] _ IH]; [done|..]; (etrans; [|exact IH]).
  - apply claim_one_evolves.
  - unfold renew_queue_leases. destruct qs; [done|]. apply update_evolves. naive_solver.
Qed.

Lemma steps_leases_ok L L' : rtc lease_step L L' → leases_ok L → leases_ok L'.
Proof.
  induction 1 as [|L1 L2 L3 [strategy cm q seen L|qs d now secs L] _ IH]; [done|..]; intros HL; apply IH.
  - by apply claim_one_ok.
  - by apply renew_ok.
Qed.

Lemma cas_misses cm q v e L l :
  lease_of q L = Some l → leases_ok L → ¬ cas_where q v e l → cas_lease cm q v e L = (L, false).
Proof.
  intros Hl HL Hno.
  assert (¬ rowcount (cas_where q v e) L = 1%nat) as Hrc.
  { rewrite cas_rowcount by done. naive_solver. }
  unfold cas_lease. rewrite (bool_decide_false _ Hrc). f_equal. apply update_where_none.
  intros x Hx Hc. apply Hno. assert (x = l) as <-; [|done].
  apply lease_of_Some in Hl as [Hl Hlq]. destruct Hc as (Hxq & _).
  eapply NoDup_fmap_inj; [exact HL|done|done|congruence].
Qed.

(** ** Theorems *)

(** The election. A claim of a set of queues gets exactly those whose lease is absent,
    expired or already its own; each of them is then leased to the claimant until
    [now + lease_secs] with the next version, every other row is as it was, and there is
    still at most one row per queue. *)
Theorem claim_queue_leases_exact strategy cm queues L :
  leases_ok L → NoDup queues →
  (claim_queue_leases strategy cm queues L).2 = filter (λ q, free_for cm (lease_of q L)) queues ∧
  leases_ok (claim_queue_leases strategy cm queues L).1 ∧
  ∀ q, lease_of q (claim_queue_leases strategy cm queues L).1
    = if decide (q ∈ queues ∧ free_for cm (lease_of q L)) then Some (taken cm q (lease_of q L))
      else lease_of q L.
Proof.
  revert L. induction queues as [|q0 queues IH]; intros L HL Hnd.
  { split_and!; [done|done|]. intros q. rewrite decide_False; [done|]. by intros [?%elem_of_nil _]. }
  apply NoDup_cons in Hnd as [Hq0 Hnd]. simpl.
  destruct (claim_one_uninterrupted strategy cm q0 L HL) as [Hok Hrows].
  pose proof (claim_one_ok strategy cm q0 (lease_of q0 L) L HL) as HL'.
  destruct (_claim_one_lease strategy cm q0 (lease_of q0 L) L) as [L' ok]. simpl in *.
  destruct (IH L' HL' Hnd) as (Hc & HL'' & Hr).
  assert (∀ q, q ∈ queues → lease_of q L' = lease_of q L) as Hsame.
  { intros q Hq. rewrite Hrows. unfold claimed_row. rewrite decide_False; [done|]. by intros [-> _]. }
  destruct (claim_queue_leases strategy cm queues L') as [L'' claimed]. simpl in *.
  split_and!; [|done|].
  - rewrite filter_cons, Hc, Hok.
    assert (filter (λ q, free_for cm (lease_of q L')) queues = filter (λ q, free_for cm (lease_of q L)) queues) as ->.
    { apply filter_iff_on. intros q Hq. by rewrite Hsame. }
    by repeat case_decide; case_bool_decide.
  - intros q. rewrite Hr. destruct (decide (q ∈ queues)) as [Hq|Hq].
    + rewrite (Hsame q Hq). repeat case_decide; set_solver.
    + rewrite decide_False by tauto. rewrite Hrows. unfold claimed_row.
      destruct (decide (q = q0)) as [->|]; repeat case_decide; set_solver.
Qed.

(** C14: no split brain. A claim whose read of the row is as old as we like, with any claims and
    renewals of any daemon in between, leaves a lease that another daemon holds past the
    claimant's clock alone, and reports failure. *)
Theorem live_lease_not_stolen strategy cm q L0 L1 l :
  leases_ok L0 → rtc lease_step L0 L1 →
  lease_of q L1 = Some l → dl_daemon_id l ≠ cm_daemon cm → cm_now cm <= dl_expires_at l →
  _claim_one_lease strategy cm q (lease_of q L0) L1 = (L1, false).
Proof.
  intros HL0 Hsteps Hl Hd Hlive. pose proof (steps_leases_ok _ _ Hsteps HL0) as HL1.
  assert (insert_lease cm q L1 = (L1, false)) as Hins by (unfold insert_lease; by rewrite Hl).
  assert (claim_lease_optimistic cm q (lease_of q L0) L1 = (L1, false)) as Hopt.
  { unfold claim_lease_optimistic. destruct (lease_of q L0) as [l0|] eqn:Hl0; [|done].
    destruct (steps_evolve _ _ Hsteps q l0 Hl0) as (l' & Hl' & _ & Hsame). simplify_eq.
    case_decide as Hown; [|case_decide; [|done]]; (apply (cas_misses _ _ _ _ _ l); [done|done|]).
    - intros (_ & Hv & _). apply Hd. rewrite Hsame; done.
    - intros (_ & _ & He). lia. }
  destruct strategy; try exact Hopt. simpl. unfold claim_lease_locked.
  destruct (lease_of q L0); [|done]. rewrite Hl. rewrite decide_False; [done|].
  intros [?|?]; [lia|done].
Qed.

(** The version check does not see a row that was deleted and inserted again, because an
    insertion starts at version 0. A daemon that reads its own expired lease at version 0, then
    loses it to a second daemon which releases it to a third, takes the third daemon's live
    lease. *)
Theorem version_reuse_steals_live_lease :
  ∃ cm1 cm2 cm3 q L0,
    let L1 := (_claim_one_lease OptimisticVersion cm2 q (lease_of q L0) L0).1 in
    let L2 := release_queue_leases [q] (cm_daemon cm2) L1 in
    let L3 := (_claim_one_lease OptimisticVersion cm3 q (lease_of q L2) L2).1 in
    holds L3 q (cm_daemon cm3) (cm_now cm1) ∧ cm_daemon cm3 ≠ cm_daemon cm1 ∧
    let '(L4, ok) := _claim_one_lease OptimisticVersion cm1 q (lease_of q L0) L3 in
    ok = true ∧ ¬ holds L4 q (cm_daemon cm3) (cm_now cm1).
Proof.
  set (cm d now := {| cm_daemon := d; cm_node := "n"; cm_pid := 1; cm_now := now; cm_secs := 30 |}).
  exists (cm "a" 100), (cm "b" 100), (cm "c" 100), "default"%string, [new_lease (cm "a"%string (-60000000)) "default" 0].
  split_and!; [|done|].
  - eexists. split_and!; [apply list_elem_of_singleton; reflexivity|reflexivity|reflexivity|vm_compute; done].
  - vm_compute. split; [done|]. intros (l & Hl & _ & Hd & _). apply list_elem_of_singleton in Hl as ->. done.
Qed.

(** Renewing and releasing touch the daemon's own rows only: another daemon's lease is
    unchanged by both, an own lease is extended by the one and gone after the other. *)
Theorem renew_release_own qs d now secs q L l :
  leases_ok L → lease_of q L = Some l → q ∈ qs →
  lease_of q (renew_queue_leases qs d now secs L)
    = Some (if decide (dl_daemon_id l = d) then
        {| dl_queue_name := q; dl_daemon_id := d; dl_node_id := dl_node_id l; dl_pid := dl_pid l;
           dl_acquired_at := dl_acquired_at l; dl_expires_at := now + seconds secs;
           dl_version := dl_version l |} else l) ∧
  lease_of q (release_queue_leases qs d L) = if decide (dl_daemon_id l = d) then None else Some l.
Proof.
  intros HL Hl Hq. pose proof (lease_of_Some _ _ _ Hl) as [Hin Hlq]. split.
  - unfold renew_queue_leases. destruct qs as [|q1 qs]; [by apply elem_of_nil in Hq|].
    rewrite lease_of_update by done. rewrite Hl. simpl. f_equal. subst q.
    repeat case_decide; unfold owned in *; naive_solver.
  - unfold release_queue_leases. destruct qs as [|q1 qs]; [by apply elem_of_nil in Hq|].
    assert (∀ x, x ∈ L → dl_queue_name x = q → x = l) as Huniq.
    { intros x Hx Hxq. eapply NoDup_fmap_inj; [exact HL|done|done|congruence]. }
    case_decide as Hd.
    + apply lease_of_None. intros x [Hx Hno]%elem_of_delete_where Hxq. apply Hno.
      rewrite (Huniq x Hx Hxq). unfold owned. by rewrite Hlq.
    + destruct (lease_of q (delete_where (owned (q1 :: qs) d) L)) as [x|] eqn:Hx.
      * apply lease_of_Some in Hx as [[Hx _]%elem_of_delete_where Hxq]. f_equal. by apply Huniq.
      * rewrite lease_of_None in Hx. exfalso. apply (Hx l); [|done]. apply elem_of_delete_where.
        split; [done|]. intros [_ ?]. done.
Qed.

(** Two queues: [mail] is held by another live daemon, [default]'s lease has expired. *)
Definition demo_claimant : claimant :=
  {| cm_daemon := "d1"; cm_node := "host1"; cm_pid := 11; cm_now := 1000; cm_secs := 30 |}.
Definition demo_leases : list DaemonLease :=
  [ {| dl_queue_name := "mail"; dl_daemon_id := "d2"; dl_node_id := "host2"; dl_pid := 22;
       dl_acquired_at := 900; dl_expires_at := 5000; dl_version := 3 |};
    {| dl_queue_name := "default"; dl_daemon_id := "d2"; dl_node_id := "host2"; dl_pid := 22;
       dl_acquired_at := 100; dl_expires_at := 999; dl_version := 0 |} ].

Lemma demo_leases_ok : leases_ok demo_leases.
Proof. apply (bool_decide_unpack _). vm_compute. exact I. Qed.

Lemma claim_queue_leases_exact_witness :
  (claim_queue_leases OptimisticVersion demo_claimant ["mail"; "default"; "new"] demo_leases).2
    = filter (λ q, free_for demo_claimant (lease_of q demo_leases)) ["mail"; "default"; "new"]%string.
Proof.
  apply (claim_queue_leases_exact OptimisticVersion demo_claimant ["mail"; "default"; "new"]%string demo_leases).
  - apply demo_leases_ok.
  - apply (bool_decide_unpack _). vm_compute. exact I.
Defined.

Lemma live_lease_not_stolen_witness :
  _claim_one_lease SkipLocked demo_claimant "mail" (lease_of "mail" demo_leases)
    (renew_queue_leases ["mail"] "d2" 950 10 demo_leases)
  = (renew_queue_leases ["mail"] "d2" 950 10 demo_leases, false).
Proof.
  eapply (live_lease_not_stolen SkipLocked demo_claimant "mail" demo_leases).
  - apply demo_leases_ok.
  - eapply rtc_l; [apply (ls_renew ["mail"] "d2" 950 10)|apply rtc_refl].
  - reflexivity.
  - done.
  - vm_compute. done.
Defined.

Lemma renew_release_own_witness :
  lease_of "mail" (release_queue_leases ["mail"] "d2" demo_leases) = None.
Proof.
  eapply (eq_trans (proj2 (renew_release_own ["mail"] "d2" 950 10 "mail" demo_leases _ demo_leases_ok
    eq_refl (list_elem_of_here _ _)))).
  reflexivity.
Defined.
