(* ===== verification/Scheduler.v ===== *)
(** * Recurring tasks and staged jobs (core/scheduler.py, fastapi_sqlery/backend.py)

    [Scheduler.calculate_next_run], the compare-and-swap that advances a task and enqueues its
    job in one transaction ([advance_scheduled_task_if_due]), [run_due_tasks] of the standalone
    backend, the throttled ready-queue sweep, and the promotion of staged jobs
    ([promote_due_scheduled_jobs]).

    A standalone [ScheduledTask] row has no [schedule_type]: every task is a cron task. The
    interval and once branches serve the Django model and are not part of this file. *)

From S2P Require Import Prelude Sql PyString Models Retry Attempts Ready History Store StoreInv Dependents Complete Sweep Crontab Lease Demo.
From stdpp Require Import relations.
From Stdlib Require Import Qcanon.
#[local] Open Scope string_scope.
#[local] Open Scope Z_scope.

(** ** Datetimes *)

(** A UTC datetime: its minute, and the microseconds since that minute began. *)
Record datetime : Type := {
  dt_civil : civil;
  dt_usec : Z;
}.

#[global] Instance datetime_eq_dec : EqDecision datetime.
Proof. solve_decision. Defined.

Definition dt_ok (t : datetime) : Prop := civil_ok (dt_civil t) ∧ 0 <= dt_usec t < 60 * usec_per_sec.

#[global] Instance civil_lt_dec a b : Decision (civil_lt a b).
Proof. unfold civil_lt. apply _. Defined.

Definition dt_lt (a b : datetime) : Prop :=
  civil_lt (dt_civil a) (dt_civil b) ∨ (dt_civil a = dt_civil b ∧ dt_usec a < dt_usec b).
#[global] Instance dt_lt_dec a b : Decision (dt_lt a b).
Proof. unfold dt_lt. apply _. Defined.

Definition dt_le (a b : datetime) : Prop := ¬ dt_lt b a.
#[global] Instance dt_le_dec a b : Decision (dt_le a b).
Proof. unfold dt_le. apply _. Defined.

(** The full minute. *)
Definition at_minute (c : civil) : datetime := {| dt_civil := c; dt_usec := 0 |}.

(** ** What a schedule promises

    [sch_next expr base] is [next_cron_occurrence(expr, base)]; [occurs expr] are the times the
    expression denotes. The scheduler is proved against this interface. *)
Class Schedule : Type := {
  sch_next : string → datetime → result cron_error datetime;
  occurs : string → datetime → Prop;
  sch_next_ok : ∀ e b t, dt_ok b → sch_next e b = Ok t →
    dt_ok t ∧ occurs e t ∧ dt_lt b t ∧ ∀ t', occurs e t' → dt_lt b t' → dt_le t t';
}.

(** ** Tasks *)

Record scheduled_task : Type := {
  tk_id : Z;
  tk_name : string;
  tk_task_path : string;
  tk_cron_expression : string;
  tk_queue_name : string;
  tk_priority : Z;
  tk_enabled : bool;
  tk_next_run_at : option datetime;
}.

Definition with_next_run (n : option datetime) (t : scheduled_task) : scheduled_task :=
  {| tk_id := tk_id t; tk_name := tk_name t; tk_task_path := tk_task_path t;
     tk_cron_expression := tk_cron_expression t; tk_queue_name := tk_queue_name t;
     tk_priority := tk_priority t; tk_enabled := tk_enabled t; tk_next_run_at := n |}.

Record sched_db : Type := {
  sd_tasks : list scheduled_task;
  sd_store : store;
}.

Inductive sched_error : Type :=
  | CronError (e : cron_error)
  | AttributeError.

(** The job a task enqueues: [job_kwargs] through [_build_queued_job] or [create_job]. *)
Definition task_job_spec (now : time) (t : scheduled_task) : job_spec :=
  {| js_task_path := tk_task_path t; js_kwargs := JObj []; js_queue_name := tk_queue_name t;
     js_priority := tk_priority t; js_parent_job_id := None; js_retry_count := 0;
     js_max_retries := 0; js_retry_backoff := 1%Qc; js_allow_parallel := false;
     js_timeout_seconds := None; js_job_name := None; js_tags := []; js_retry_intervals := None;
     js_meta := None; js_dependencies := []; js_on_success_path := ""; js_on_failure_path := "";
     js_ttl := None; js_result_ttl := None; js_failure_ttl := None;
     js_scheduled_task_id := Some (tk_id t); js_created_at := now; js_scheduled_at := None |}.

(** [UPDATE .. WHERE id AND next_run_at = observed AND enabled]; [= NULL] is [IS NULL] *)
Definition due_row (task_id : Z) (observed : option datetime) (t : scheduled_task) : Prop :=
  tk_id t = task_id ∧ tk_next_run_at t = observed ∧ tk_enabled t = true.
#[global] Instance due_row_dec id o t : Decision (due_row id o t).
Proof. unfold due_row. apply _. Defined.

(** Advance the task and enqueue its job in one transaction, if the task is still due at the
    time that was observed. [id] is the id of the new job. *)
Definition advance_scheduled_task_if_due (strategy : claim_strategy) (ev : env) (id task_id : Z)
    (observed : option datetime) (new_next_run : datetime) (sp : job_spec) (db : sched_db)
    : sched_db * result sched_error (option queued_job) :=
  let job := {| j_id := id; j_spec := sp; j_run := fresh_run |} in
  let commit (P : scheduled_task → Prop) {HD : ∀ t, Decision (P t)} :=
    {| sd_tasks := update_where P (with_next_run (Some new_next_run)) (sd_tasks db);
       sd_store := insert_job ev job (sd_store db) |} in
  match strategy with
  | SkipLocked =>
      match first_where (λ t, tk_id t = task_id) (sd_tasks db) with
      | None => (db, Ok None)
      | Some existing =>
          match tk_next_run_at existing with
          | None => (db, Ok None)
          | Some existing_due =>
              if negb (tk_enabled existing) then (db, Ok None)
              else match observed with
                   | None => (db, Err AttributeError)
                   | Some o =>
                       if decide (existing_due = o)
                       then (commit (λ t, tk_id t = task_id), Ok (Some job))
                       else (db, Ok None)
                   end
          end
      end
  | _ =>
      if decide (rowcount (due_row task_id observed) (sd_tasks db) = 1%nat)
      then (commit (due_row task_id observed), Ok (Some job))
      else (db, Ok None)
  end.

(** ** The scheduler *)

Definition _MAX_CLAMP_ITERATIONS : Z := 2000000.

Section scheduler.
Context `{Schedule}.

(** The future clamp: the next occurrence after [cand] until one is past [now]. *)
Fixpoint clamp (iterations : nat) (expr : string) (now cand : datetime) : result cron_error datetime :=
  match iterations with
  | O => Ok cand
  | S iterations =>
      if decide (dt_le cand now) then
        cand' ← sch_next expr cand; clamp iterations expr now cand'
      else Ok cand
  end.

(** [now0] is the clock when the base is defaulted, [now] the clock of the clamp. *)
Definition calculate_next_run (expr : string) (base_time : option datetime) (now0 now : datetime)
    : result cron_error datetime :=
  cand ← sch_next expr (default now0 base_time);
  cand ← clamp (Z.to_nat _MAX_CLAMP_ITERATIONS) expr now cand;
  if decide (dt_le cand now) then sch_next expr now else Ok cand.

(** [task] is the row as it was read; [id] the id of the new job. *)
Definition _enqueue_for_scheduled_task (strategy : claim_strategy) (ev : env) (threshold_days id : Z)
    (now0 now : datetime) (task : scheduled_task) (db : sched_db)
    : sched_db * result sched_error (option Z) :=
  let sp := task_job_spec (e_now ev) task in
  if decide (tk_cron_expression task = "") then
    if exists_where (λ j, js_scheduled_task_id (j_spec j) = Some (tk_id task) ∧
                          j_status j ∈ [Queued; Running]) (live (sd_store db))
    then (db, Ok None)
    else ({| sd_tasks := sd_tasks db; sd_store := (create_job ev threshold_days id sp (sd_store db)).1 |},
          Ok (Some id))
  else
    match calculate_next_run (tk_cron_expression task) (tk_next_run_at task) now0 now with
    | Err e => (db, Err (CronError e))
    | Ok new_next_run =>
        match advance_scheduled_task_if_due strategy ev id (tk_id task) (tk_next_run_at task)
                new_next_run sp db with
        | (db', Ok (Some j)) => (db', Ok (Some (j_id j)))
        | (db', Ok None) => (db', Ok None)
        | (db', Err e) => (db', Err e)
        end
    end.

(** [get_due_scheduled_tasks]: enabled, due, by due time *)
Definition task_le (a b : scheduled_task) : Prop :=
  match tk_next_run_at a, tk_next_run_at b with
  | Some x, Some y => dt_le x y
  | _, _ => True
  end.
#[global] Instance task_le_dec a b : Decision (task_le a b).
Proof. unfold task_le. destruct (tk_next_run_at a), (tk_next_run_at b); apply _. Defined.

Definition is_due (now : datetime) (t : scheduled_task) : Prop :=
  tk_enabled t = true ∧ match tk_next_run_at t with Some d => dt_le d now | None => False end.
#[global] Instance is_due_dec now t : Decision (is_due now t).
Proof. unfold is_due. destruct (tk_next_run_at t); apply _. Defined.

Definition get_due_scheduled_tasks (now : datetime) (db : sched_db) : list scheduled_task :=
  order_by task_le (filter (is_due now) (sd_tasks db)).

(** [run_due_tasks] up to its sweep: an error of one task is logged and the next one runs.
    [ids] are the ids of the jobs in the order they are created. *)
Fixpoint enqueue_all (strategy : claim_strategy) (ev : env) (threshold_days : Z) (now0 now : datetime)
    (ids : list Z) (tasks : list scheduled_task) (db : sched_db) : sched_db * list Z :=
  match tasks, ids with
  | task :: tasks, id :: ids =>
      let '(db', r) := _enqueue_for_scheduled_task strategy ev threshold_days id now0 now task db in
      let '(db'', jobs) := enqueue_all strategy ev threshold_days now0 now ids tasks db' in
      (db'', match r with Ok (Some j) => j :: jobs | _ => jobs end)
  | _, _ => (db, [])
  end.

Definition run_due_tasks (strategy : claim_strategy) (ev : env) (threshold_days : Z) (now0 now : datetime)
    (ids : list Z) (queue_names : option (list string)) (db : sched_db) : sched_db * list Z :=
  let due := get_due_scheduled_tasks now0 db in
  let due := match queue_names with
             | Some qs => filter (λ t, tk_queue_name t ∈ qs) due
             | None => due
             end in
  enqueue_all strategy ev threshold_days now0 now ids due db.
End scheduler.

(** [Scheduler.maintain_ready_queue]: the sweep, at most once per interval, from the cursor of
    the last one. *)
Record scheduler_state : Type := {
  ss_ready_sweep : Throttle;
  ss_ready_cursor : Z;
}.

Definition scheduler_maintain (ev : env) (clock : time) (queue_names : list string) (limit : nat) (grace : Z)
    (s : scheduler_state) (st : store) : scheduler_state * store * option sweep_report :=
  match due (ss_ready_sweep s) clock with
  | (false, th) => ({| ss_ready_sweep := th; ss_ready_cursor := ss_ready_cursor s |}, st, None)
  | (true, th) =>
      let '(st', report) := maintain_ready_queue ev queue_names limit grace (ss_ready_cursor s) st in
      ({| ss_ready_sweep := th; ss_ready_cursor := sw_cursor report |}, st', Some report)
  end.

(** ** Promotion of staged jobs *)

Definition _PROMOTION_LOOKAHEAD_SECONDS : Z := 30.

Definition promotable (ev : env) (locked : Z → bool) (s : scheduled_job) : Prop :=
  match js_scheduled_at (sj_spec s) with
  | Some t => t <= e_now ev + seconds _PROMOTION_LOOKAHEAD_SECONDS
  | None => False
  end ∧ locked (sj_id s) = false.
#[global] Instance promotable_dec ev locked s : Decision (promotable ev locked s).
Proof. unfold promotable. destruct (js_scheduled_at (sj_spec s)); apply _. Defined.

Definition promoted_job (s : scheduled_job) : queued_job :=
  {| j_id := sj_id s; j_spec := sj_spec s; j_run := fresh_run |}.

(** The two INSERTs of one row; a duplicate primary key raises. *)
Definition promote_row (ev : env) (s : scheduled_job) (st : store) : option store :=
  let j := promoted_job s in
  if exists_where (λ x, j_id x = j_id j ∧ j_created_at x = j_created_at j) (live st) then None
  else Some (with_live (live st ++ [j])
               (with_ready (insert_nothing ready_key (ready st) (ready_values j (e_slot ev))) st)).

Fixpoint promote_rows (ev : env) (rows : list scheduled_job) (st : store) : option store :=
  match rows with
  | [] => Some st
  | s :: rows => st' ← promote_row ev s st; promote_rows ev rows st'
  end.

(** [locked] are the rows other transactions hold, [lock_acquired] the advisory lock. [None]:
    an INSERT raised and the transaction was rolled back. *)
Definition promote_due_scheduled_jobs (ev : env) (lock_acquired : bool) (locked : Z → bool) (st : store)
    : store * option nat :=
  if negb lock_acquired then (st, Some 0%nat)
  else
    let rows := filter (promotable ev locked) (staged st) in
    match promote_rows ev rows (with_staged (delete_where (promotable ev locked) (staged st)) st) with
    | Some st' => (st', Some (length rows))
    | None => (st, None)
    end.

(** ** Lemmas: order *)

#[local] Close Scope string_scope.

Lemma civil_lt_irrefl a : ¬ civil_lt a a.
Proof. unfold civil_lt. lia. Qed.

Lemma civil_lt_trans a b c : civil_lt a b → civil_lt b c → civil_lt a c.
Proof. unfold civil_lt. lia. Qed.

Lemma dt_lt_irrefl a : ¬ dt_lt a a.
Proof. intros [?%civil_lt_irrefl|[_ ?]]; [done|lia]. Qed.

Lemma dt_lt_trans a b c : dt_lt a b → dt_lt b c → dt_lt a c.
Proof.
  intros [H1|[H1 ?]] [H2|[H2 ?]]; [left; by eapply civil_lt_trans|left; by rewrite <-H2|left; by rewrite H1|right].
  split; [congruence|lia].
Qed.

Lemma dt_le_lt_trans a b c : dt_le a b → dt_lt b c → dt_lt a c.
Proof.
  intros Hle Hlt. destruct (decide (dt_lt a b)) as [Hab|Hab]; [by eapply dt_lt_trans|].
  assert (dt_civil a = dt_civil b) as Hc.
  { assert (civil_le (dt_civil b) (dt_civil a)) as [Hlt'|]; [|by destruct Hle; left|done].
    apply civil_le_not_lt. intros Hlt'. by destruct Hab; left. }
  unfold dt_le, dt_lt in Hle, Hab. rewrite Hc in *. destruct Hlt as [Hlt|[Hlt ?]]; [left|right].
  - by rewrite Hc.
  - split; [congruence|]. assert (¬ dt_usec b < dt_usec a) by tauto. lia.
Qed.

(** ** Lemmas: the clamp *)

Section scheduler_facts.
Context `{Schedule}.

Lemma clamp_spec (Q : datetime → Prop) n expr now cand t :
  dt_ok cand → Q cand →
  (∀ c c', dt_ok c → Q c → dt_le c now → sch_next expr c = Ok c' → Q c') →
  clamp n expr now cand = Ok t → dt_ok t ∧ Q t.
Proof using.
  intros Hok HQ Hstep. revert cand Hok HQ. induction n as [|n IH]; intros cand Hok HQ; simpl.
  { by intros [= <-]. }
  destruct (decide (dt_le cand now)) as [Hle|]; [|by intros [= <-]].
  intros (c' & Hc' & Hcl)%result_bind_Ok. destruct (sch_next_ok _ _ _ Hok Hc') as (Hok' & _).
  apply (IH c'); [done| |done]. exact (Hstep cand c' Hok HQ Hle Hc').
Qed.

(** An attempt of some leader to run a task it read. *)
Record attempt : Type := {
  fa_strategy : claim_strategy;
  fa_env : env;
  fa_threshold : Z;
  fa_id : Z;
  fa_now0 : datetime;
  fa_now : datetime;
  fa_task : scheduled_task;
}.

(** Its clock is past the due time it read, and the task has a cron expression. *)
Record attempt_ok (f : attempt) : Prop := {
  ao_cron : tk_cron_expression (fa_task f) ≠ ""%string;
  ao_due : ∃ d, tk_next_run_at (fa_task f) = Some d ∧ dt_ok d ∧ dt_le d (fa_now f);
  ao_now0 : dt_ok (fa_now0 f);
  ao_now : dt_ok (fa_now f);
}.

Definition fire (f : attempt) (db : sched_db) : sched_db * result sched_error (option Z) :=
  _enqueue_for_scheduled_task (fa_strategy f) (fa_env f) (fa_threshold f) (fa_id f) (fa_now0 f) (fa_now f)
    (fa_task f) db.

(** The [(task, due time)] pairs for which a job was enqueued, in order. *)
Fixpoint fire_all (fs : list attempt) (db : sched_db) : sched_db * list (Z * option datetime) :=
  match fs with
  | [] => (db, [])
  | f :: fs =>
      let '(db', r) := fire f db in
      let '(db'', fired) := fire_all fs db' in
      (db'', match r with
             | Ok (Some _) => (tk_id (fa_task f), tk_next_run_at (fa_task f)) :: fired
             | _ => fired
             end)
  end.

Lemma calculate_next_run_future expr base now0 now t :
  dt_ok (default now0 base) → dt_ok now → calculate_next_run expr base now0 now = Ok t →
  dt_ok t ∧ occurs expr t ∧ dt_lt now t ∧
  ∀ t', occurs expr t' → dt_lt (default now0 base) t' → dt_lt now t' → dt_le t t'.
Proof using.
  intros Hb Hn. unfold calculate_next_run. generalize (Z.to_nat _MAX_CLAMP_ITERATIONS). intros n.
  intros (c0 & Hc0 & (c1 & Hc1 & Hlast)%result_bind_Ok)%result_bind_Ok.
  destruct (sch_next_ok _ _ _ Hb Hc0) as (Hok0 & Hocc0 & Hlt0 & Hmin0).
  set (Q c := occurs expr c ∧ ∀ t', occurs expr t' → dt_lt (default now0 base) t' → dt_lt now t' → dt_le c t').
  destruct (clamp_spec Q n expr now c0 c1) as [Hok1 [Hocc1 Hmin1]]; [done| | |done|].
  { split; [done|]. intros t' Ht' Hbt _. by apply Hmin0. }
  { intros c c' Hc _ Hle Hnext. destruct (sch_next_ok _ _ _ Hc Hnext) as (_ & Hocc & _ & Hmin).
    split; [done|]. intros t' Ht' _ Hnt. apply Hmin; [done|]. by eapply dt_le_lt_trans. }
  destruct (decide (dt_le c1 now)) as [Hle|Hgt].
  - destruct (sch_next_ok _ _ _ Hn Hlast) as (? & ? & ? & Hmin). split_and!; [done..|].
    intros t' Ht' _ Hnt. by apply Hmin.
  - injection Hlast as <-. split_and!; [done|done| |done].
    unfold dt_le in Hgt. by destruct (decide (dt_lt now c1)).
Qed.
End scheduler_facts.

(** ** Lemmas: the compare-and-swap *)

Definition tasks_ok (db : sched_db) : Prop := NoDup (tk_id <$> sd_tasks db).

(** What a won compare-and-swap found and did to the task table. *)
Lemma advance_cases strategy ev id task_id o new sp db db' r :
  tasks_ok db → advance_scheduled_task_if_due strategy ev id task_id (Some o) new sp db = (db', r) →
  (r = Ok None ∧ db' = db) ∨
  (∃ t, t ∈ sd_tasks db ∧ due_row task_id (Some o) t ∧ r = Ok (Some {| j_id := id; j_spec := sp; j_run := fresh_run |}) ∧
     sd_tasks db' = update_where (λ x, tk_id x = task_id) (with_next_run (Some new)) (sd_tasks db) ∧
     sd_store db' = insert_job ev {| j_id := id; j_spec := sp; j_run := fresh_run |} (sd_store db)).
Proof.
  intros Hids. assert (∀ t, t ∈ sd_tasks db → due_row task_id (Some o) t →
    update_where (due_row task_id (Some o)) (with_next_run (Some new)) (sd_tasks db)
    = update_where (λ x, tk_id x = task_id) (with_next_run (Some new)) (sd_tasks db)) as Hsame.
  { intros t Ht Hdue. unfold update_where. apply list_fmap_ext. intros i x Hx%list_elem_of_lookup_2.
    destruct (decide (due_row task_id (Some o) x)) as [[? _]|Hno]; [by rewrite decide_True|].
    rewrite decide_False; [done|]. intros Hxid. apply Hno.
    assert (x = t) as ->; [|done]. eapply NoDup_fmap_inj; [exact Hids|done..|]. by rewrite Hxid, (proj1 Hdue). }
  unfold advance_scheduled_task_if_due. destruct strategy.
  2,3: case_decide as Hn; intros [= <- <-]; [right|by left];
    assert (0 < rowcount (due_row task_id (Some o)) (sd_tasks db))%nat as (t & Ht & Hdue)%rowcount_pos by lia;
    exists t; split_and!; try done; simpl; by apply (Hsame t).
  destruct (first_where (λ t, tk_id t = task_id) (sd_tasks db)) as [t|] eqn:Hf; [|intros [= <- <-]; by left].
  apply first_where_Some in Hf as [Ht Hid].
  destruct (tk_next_run_at t) as [d|] eqn:Hd; [|intros [= <- <-]; by left].
  destruct (tk_enabled t) eqn:He; simpl; [|intros [= <- <-]; by left].
  case_decide; intros [= <- <-]; [right|by left]. exists t. split_and!; try done.
  split_and!; [done|congruence|done].
Qed.

(** The due times of a task that were fired lie before the one it has now. *)
Definition fired_before (fired : list (Z * option datetime)) (db : sched_db) : Prop :=
  ∀ t d, t ∈ sd_tasks db → (tk_id t, Some d) ∈ fired →
    ∀ n, tk_next_run_at t = Some n → dt_lt d n.

Section fires.
Context `{Schedule}.

(** One attempt: lost, or it fires a due time that no earlier one fired. *)
Lemma fire_step f fired db db' r :
  tasks_ok db → fired_before fired db → attempt_ok f → fire f db = (db', r) →
  tasks_ok db' ∧
  match r with
  | Ok (Some _) => (tk_id (fa_task f), tk_next_run_at (fa_task f)) ∉ fired ∧
      fired_before ((tk_id (fa_task f), tk_next_run_at (fa_task f)) :: fired) db'
  | _ => fired_before fired db'
  end.
Proof using.
  intros Hids Hfired [Hcron (d & Hd & Hdok & Hle) Hn0 Hn]. unfold fire, _enqueue_for_scheduled_task.
  rewrite decide_False by done. rewrite Hd.
  destruct (calculate_next_run _ _ _ _) as [new|e] eqn:Hnew; [|by intros [= <- <-]].
  apply calculate_next_run_future in Hnew as (_ & _ & Hfut & _); [|done..].
  destruct (advance_scheduled_task_if_due _ _ _ _ _ _ _ _) as [db1 r1] eqn:Ha.
  apply advance_cases in Ha as [[-> ->]|(t & Ht & (Hid & Hnext & _) & -> & Htasks & _)]; [by intros [= <- <-]| |done].
  intros [= <- <-].
  assert (∀ x, x ∈ sd_tasks db1 → tk_id x = tk_id (fa_task f) → tk_next_run_at x = Some new) as Hnew.
  { rewrite Htasks. intros x (y & Hy & ->)%elem_of_update_where Hx. case_decide as Hc; [done|].
    destruct Hc. by rewrite Hx. }
  split.
  { unfold tasks_ok. rewrite Htasks, update_where_column; done. }
  split.
  { intros Hin. apply (dt_lt_irrefl d). apply (Hfired t d Ht); [|done]. by rewrite Hid. }
  intros x e Hx He n Hxn. destruct (decide (tk_id x = tk_id (fa_task f))) as [Hxid|Hxid].
  - assert (n = new) as -> by (specialize (Hnew x Hx Hxid); congruence).
    apply elem_of_cons in He as [He|He].
    + injection He as _ ->. by eapply dt_le_lt_trans.
    + eapply dt_lt_trans; [|by eapply dt_le_lt_trans]. apply (Hfired t e Ht); [|done].
      by rewrite Hid, <-Hxid.
  - rewrite Htasks in Hx. apply elem_of_update_where in Hx as (y & Hy & ->).
    case_decide as Hc; [done|]. apply elem_of_cons in He as [He|He]; [congruence|]. by eapply Hfired.
Qed.

Lemma fire_all_fresh fs fired db :
  tasks_ok db → fired_before fired db → Forall attempt_ok fs →
  NoDup (fire_all fs db).2 ∧ ∀ p, p ∈ (fire_all fs db).2 → p ∉ fired.
Proof using.
  revert fired db. induction fs as [|f fs IH]; intros fired db Hids Hfired Hok; simpl.
  { split; [apply NoDup_nil_2|]. by intros p ?%elem_of_nil. }
  apply Forall_cons in Hok as [Hf Hok].
  destruct (fire f db) as [db' r] eqn:E. destruct (fire_step f fired db db' r Hids Hfired Hf E) as [Hids' Hr].
  destruct (fire_all fs db') as [db'' new] eqn:E'.
  destruct r as [[j|]|e]; simpl in Hr |- *.
  2,3: specialize (IH fired db' Hids' Hr Hok); by rewrite E' in IH.
  destruct Hr as [Hnot Hb]. specialize (IH _ db' Hids' Hb Hok). rewrite E' in IH. simpl in IH.
  destruct IH as [Hnd Hfresh]. split.
  - apply NoDup_cons. split; [|done]. intros Hin%Hfresh. apply Hin, list_elem_of_here.
  - intros p [->|Hp]%elem_of_cons; [done|]. intros Hin. apply (Hfresh p Hp). by right.
Qed.
End fires.

(** A leader that reads the current row of an enabled task wins. *)
Lemma fire_wins `{Schedule} f db t :
  tasks_ok db → attempt_ok f → fa_task f ∈ sd_tasks db → tk_enabled (fa_task f) = true →
  calculate_next_run (tk_cron_expression (fa_task f)) (tk_next_run_at (fa_task f)) (fa_now0 f) (fa_now f) = Ok t →
  (fire f db).2 = Ok (Some (fa_id f)).
Proof.
  intros Hids [Hcron (d & Hd & _ & _) _ _] Hin Hen Hnext. unfold fire, _enqueue_for_scheduled_task.
  rewrite decide_False by done. rewrite Hnext, Hd.
  destruct (advance_scheduled_task_if_due _ _ _ _ _ _ _ _) as [db1 r1] eqn:Ha.
  assert (r1 = Ok (Some {| j_id := fa_id f; j_spec := task_job_spec (e_now (fa_env f)) (fa_task f); j_run := fresh_run |})) as ->;
    [|done].
  assert (∀ x, x ∈ sd_tasks db → tk_id x = tk_id (fa_task f) → x = fa_task f) as Huniq.
  { intros x Hx Hid. by eapply NoDup_fmap_inj; [exact Hids|..]. }
  assert (rowcount (due_row (tk_id (fa_task f)) (Some d)) (sd_tasks db) = 1%nat) as Hone.
  { unfold rowcount. rewrite (filter_unique _ _ (fa_task f)); [done| |done|done|].
    - eapply NoDup_fmap_1, Hids.
    - intros x Hx [Hid _]. by apply Huniq. }
  unfold advance_scheduled_task_if_due in Ha. destruct (fa_strategy f).
  - destruct (first_where (λ x, tk_id x = tk_id (fa_task f)) (sd_tasks db)) as [x|] eqn:Hf.
    2: { rewrite first_where_None in Hf. by destruct (Hf _ Hin). }
    apply first_where_Some in Hf as [Hx Hid]. rewrite (Huniq x Hx Hid), Hd, Hen in Ha. simpl in Ha.
    rewrite decide_True in Ha by done. by injection Ha.
  - rewrite decide_True in Ha by done. by injection Ha.
  - rewrite decide_True in Ha by done. by injection Ha.
Qed.

(** ** Lemmas: the cron schedule is a schedule

    [solar_next] and [solar_occurs] stand for the solar schedules (solar.py). *)
Section cron_schedule.
Context (solar_next : string → datetime → result cron_error datetime).
Context (solar_occurs : string → datetime → Prop).
Context (solar_ok : ∀ e b t, dt_ok b → solar_next e b = Ok t →
  dt_ok t ∧ solar_occurs e t ∧ dt_lt b t ∧ ∀ t', solar_occurs e t' → dt_lt b t' → dt_le t t').

Definition cron_next (e : string) (b : datetime) : result cron_error datetime :=
  match next_cron_occurrence e (dt_civil b) with
  | None => solar_next e b
  | Some (Ok c) => Ok (at_minute c)
  | Some (Err err) => Err err
  end.

Definition cron_occurs (e : string) (t : datetime) : Prop :=
  if is_solar e then solar_occurs e t
  else dt_usec t = 0 ∧ ∃ c, parse_crontab e = Ok c ∧ matches c (dt_civil t).

Lemma cron_next_ok e b t :
  dt_ok b → cron_next e b = Ok t →
  dt_ok t ∧ cron_occurs e t ∧ dt_lt b t ∧ ∀ t', cron_occurs e t' → dt_lt b t' → dt_le t t'.
Proof using solar_ok.
  intros [Hb Hu]. unfold cron_next, cron_occurs. destruct (next_cron_occurrence e (dt_civil b)) as [[c|err]|] eqn:Hn.
  - intros [= <-]. assert (is_solar e = false) as -> by (unfold next_cron_occurrence in Hn; by destruct (is_solar e)).
    destruct (next_cron_occurrence_spec e (dt_civil b) c Hb Hn) as (cr & Hp & Hm & Hlt & Hmin).
    split; [|split; [|split]].
    + split; [apply Hm|simpl; unfold usec_per_sec; lia].
    + split; [done|]. by exists cr.
    + by left.
    + intros t' [Hz (cr' & Hp' & Hm')] Hbt. assert (cr' = cr) as -> by congruence.
      assert (civil_lt (dt_civil b) (dt_civil t')) as Hlt' by (destruct Hbt as [?|[_ ?]]; [done|lia]).
      specialize (Hmin _ Hm' Hlt'). apply civil_le_not_lt in Hmin. intros [?|[_ ?]]; [done|]. simpl in *. lia.
  - done.
  - assert (is_solar e = true) as -> by (unfold next_cron_occurrence in Hn; by destruct (is_solar e)).
    by apply solar_ok.
Qed.

Definition cron_schedule : Schedule :=
  {| sch_next := cron_next; occurs := cron_occurs; sch_next_ok := cron_next_ok |}.
End cron_schedule.

(** ** Lemmas: promotion *)

Lemma update_where_id {A} (P : A → Prop) {HD : ∀ x, Decision (P x)} f (t : list A) :
  (∀ x, x ∈ t → P x → f x = x) → update_where P f t = t.
Proof.
  intros Hf. unfold update_where. induction t as [|x t IH]; csimpl; [done|].
  rewrite IH by (intros y Hy; apply Hf; by right). f_equal. case_decide; [|done].
  apply Hf; [apply list_elem_of_here|done].
Qed.

(** For an unused id the promotion's statements are those of an enqueue. *)
Lemma promote_row_insert ev s st :
  unused_id (sj_id s) st → promote_row ev s st = Some (insert_job ev (promoted_job s) st).
Proof.
  intros Hu. unfold promote_row.
  assert (exists_where (λ x, j_id x = j_id (promoted_job s) ∧ j_created_at x = j_created_at (promoted_job s)) (live st) = false) as ->.
  { apply exists_where_false. intros x Hx [Hid _]. by destruct (un_live _ _ Hu x Hx). }
  apply (f_equal Some). unfold insert_job. apply (f_equal (with_live (live st ++ [promoted_job s]))).
  change (with_ready (insert_nothing ready_key (ready st) (ready_values (promoted_job s) (e_slot ev))) st =
    with_ready (update_where (entry_of [j_id (promoted_job s)]) (λ e, {| re_slot := re_slot e;
        re_job_id := re_job_id e; re_queue_name := js_queue_name (sj_spec s);
        re_priority := js_priority (sj_spec s); re_created_at := re_created_at e;
        re_scheduled_at := js_scheduled_at (sj_spec s) |})
      (insert_nothing ready_key (ready st) (ready_values (promoted_job s) (e_slot ev)))) st).
  rewrite update_where_id; [done|].
  intros e He [_ Hid%list_elem_of_singleton]. apply insert_nothing_elem in He as [He| ->]; [|done].
  by destruct (un_ready _ _ Hu e He).
Qed.

Lemma promote_rows_sound ev rows st :
  env_ok ev → inv [] st → NoDup (sj_id <$> rows) → Forall (λ s, unused_id (sj_id s) st) rows →
  ∃ st', promote_rows ev rows st = Some st' ∧ inv [] st' ∧ staged st' = staged st ∧
    history st' = history st ∧ attempts st' = attempts st ∧
    live st' = live st ++ (promoted_job <$> rows) ∧
    (∀ e, e ∈ ready st → ∃ e', e' ∈ ready st' ∧ re_job_id e' = re_job_id e) ∧
    ∀ s, s ∈ rows → ∃ e, e ∈ ready st' ∧ re_job_id e = sj_id s.
Proof.
  intros Hev. revert st. induction rows as [|s rows IH]; intros st Hi Hn Hu; simpl.
  { exists st. rewrite app_nil_r. split_and!; try done; [by eauto|]. by intros s ?%elem_of_nil. }
  csimpl in Hn. apply NoDup_cons in Hn as [Hs Hn]. apply Forall_cons in Hu as [Hu1 Hu].
  rewrite (promote_row_insert ev s st Hu1). simpl. set (j := promoted_job s).
  destruct (insert_job_sound (X:=[]) ev Hev j st Hi Hu1) as [Hi1 _].
  assert (∀ e, e ∈ ready st → ∃ e', e' ∈ ready (insert_job ev j st) ∧ re_job_id e' = re_job_id e) as Hkeep.
  { intros e He. eexists. split; [apply elem_of_update_where; exists e; split; [by apply insert_nothing_subseteq|done]|].
    by case_decide. }
  destruct (IH (insert_job ev j st) Hi1 Hn) as (st' & -> & Hi' & Hst & Hh & Ha & Hl & Hr & He).
  { apply Forall_forall. intros s' Hs'. rewrite Forall_forall in Hu.
    apply unused_insert_job; [by apply Hu|]. simpl. intros Heq. apply Hs. rewrite <-Heq. by apply list_elem_of_fmap_2. }
  exists st'. split_and!; try done.
  - rewrite Hl. simpl. by rewrite <-(assoc_L (++)).
  - intros e (e1 & He1 & Hid1)%Hkeep. destruct (Hr e1 He1) as (e2 & He2 & Hid2). exists e2. split; [done|congruence].
  - intros s' [->|Hs']%elem_of_cons; [|by apply He].
    destruct (insert_nothing_key ready_key (ready st) (ready_values j (e_slot ev))) as (y & Hy & Hk).
    destruct (Hr (if decide (entry_of [j_id j] y) then
        {| re_slot := re_slot y; re_job_id := re_job_id y; re_queue_name := js_queue_name (j_spec j);
           re_priority := js_priority (j_spec j); re_created_at := re_created_at y;
           re_scheduled_at := js_scheduled_at (j_spec j) |} else y)) as (e2 & He2 & Hid2).
    { apply elem_of_update_where. by exists y. }
    exists e2. split; [done|]. rewrite Hid2. injection Hk as _ Hk. by case_decide.
Qed.

(** ** Theorems *)

(** The next run is in the future. Whatever base time a task carries, the time
    [calculate_next_run] returns is an occurrence strictly after the clock, and the first one
    after both the base and the clock: missed occurrences are skipped, none is invented. *)
Theorem next_run_in_future (S : Schedule) expr base now0 now t :
  dt_ok (default now0 base) → dt_ok now → calculate_next_run expr base now0 now = Ok t →
  occurs expr t ∧ dt_lt now t ∧
  ∀ t', occurs expr t' → dt_lt (default now0 base) t' → dt_lt now t' → dt_le t t'.
Proof. intros Hb Hn Ht. by destruct (calculate_next_run_future expr base now0 now t Hb Hn Ht) as (_ & ?). Qed.

(** C15: a due time fires once. However many leaders run the tasks they read, with whatever
    stale rows, clocks (past the due times they read) and strategies, no pair of a task and a
    due time gets two jobs; and a leader that reads the current row of an enabled task with a
    next occurrence gets one. *)
Theorem cron_fires_once (S : Schedule) fs db :
  tasks_ok db → Forall attempt_ok fs →
  NoDup (fire_all fs db).2 ∧
  ∀ f t, f ∈ fs → fa_task f ∈ sd_tasks db → tk_enabled (fa_task f) = true →
    calculate_next_run (tk_cron_expression (fa_task f)) (tk_next_run_at (fa_task f)) (fa_now0 f) (fa_now f) = Ok t →
    (fire f db).2 = Ok (Some (fa_id f)).
Proof.
  intros Hids Hok. split.
  - apply (fire_all_fresh fs []); [done| |done]. by intros t d _ ?%elem_of_nil.
  - intros f t Hf Hin Hen Hn. eapply fire_wins; try done. rewrite Forall_forall in Hok. by apply Hok.
Qed.


(** ** Witnesses: an hourly task that missed three hours *)

Definition no_solar : Schedule :=
  cron_schedule (λ _ _, Err ValueError) (λ _ _, False) (λ e b t _ H, match H with end).

Definition demo_time (h m us : Z) : datetime :=
  {| dt_civil := {| c_year := 2024; c_month := 1; c_day := 1; c_hour := h; c_minute := m |}; dt_usec := us |}.

Definition demo_task : scheduled_task :=
  {| tk_id := 1; tk_name := "hourly"; tk_task_path := "app.tick"; tk_cron_expression := "0 * * * *";
     tk_queue_name := "default"; tk_priority := 0; tk_enabled := true;
     tk_next_run_at := Some (demo_time 9 0 0) |}.

Definition demo_sched : sched_db := {| sd_tasks := [demo_task]; sd_store := demo_empty |}.

Lemma demo_time_ok h m us : 0 <= h <= 23 → 0 <= m <= 59 → 0 <= us < 60000000 → dt_ok (demo_time h m us).
Proof.
  intros. pose proof (days_in_month_bound 2024 1). split; [split; simpl; lia|].
  unfold usec_per_sec. simpl. lia.
Qed.

Lemma demo_next_run :
  @calculate_next_run no_solar "0 * * * *" (Some (demo_time 9 0 0)) (demo_time 12 30 5) (demo_time 12 30 5)
  = Ok (demo_time 13 0 0).
Proof. vm_compute. reflexivity. Qed.

Lemma next_run_in_future_witness : dt_lt (demo_time 12 30 5) (demo_time 13 0 0).
Proof.
  refine (proj1 (proj2 (next_run_in_future no_solar "0 * * * *" (Some (demo_time 9 0 0)) (demo_time 12 30 5)
    (demo_time 12 30 5) (demo_time 13 0 0) _ _ demo_next_run))); apply demo_time_ok; lia.
Defined.

(** Two leaders read the same row. *)
Definition demo_leader (id : Z) (strategy : claim_strategy) : attempt :=
  {| fa_strategy := strategy; fa_env := demo_env 1000; fa_threshold := 1; fa_id := id;
     fa_now0 := demo_time 12 30 5; fa_now := demo_time 12 30 5; fa_task := demo_task |}.

Lemma demo_leader_ok id strategy : attempt_ok (demo_leader id strategy).
Proof.
  split; [done|exists (demo_time 9 0 0); split; [done|]|apply demo_time_ok; lia..].
  split; [apply demo_time_ok; lia|]. apply (bool_decide_unpack _). vm_compute. exact I.
Qed.

Lemma demo_tasks_ok : tasks_ok demo_sched.
Proof. apply NoDup_singleton. Qed.

Lemma cron_fires_once_witness :
  let leaders := [demo_leader 51 OptimisticVersion; demo_leader 52 SkipLocked] in
  NoDup (@fire_all no_solar leaders demo_sched).2 ∧
  (@fire no_solar (demo_leader 51 OptimisticVersion) demo_sched).2 = Ok (Some 51).
Proof.
  intros leaders.
  assert (Forall attempt_ok leaders) as Hok by (repeat constructor; apply demo_leader_ok).
  destruct (cron_fires_once no_solar leaders demo_sched demo_tasks_ok Hok) as [Hn Hw].
  split; [exact Hn|].
  exact (Hw (demo_leader 51 OptimisticVersion) (demo_time 13 0 0) (list_elem_of_here _ _)
    (list_elem_of_here _ _) eq_refl demo_next_run).
Defined.

(** Only one of them enqueues a job. *)
Lemma demo_leaders_fire :
  (@fire_all no_solar [demo_leader 51 OptimisticVersion; demo_leader 52 SkipLocked] demo_sched).2
  = [(1, Some (demo_time 9 0 0))].
Proof. vm_compute. reflexivity. Qed.

Definition demo_staged : store :=
  with_staged [ {| sj_id := 41; sj_spec := let sp := demo_spec 1 [] None in
    {| js_task_path := js_task_path sp; js_kwargs := js_kwargs sp; js_queue_name := js_queue_name sp;
       js_priority := js_priority sp; js_parent_job_id := None; js_retry_count := 0; js_max_retries := 0;
       js_retry_backoff := js_retry_backoff sp; js_allow_parallel := true; js_timeout_seconds := None;
       js_job_name := None; js_tags := []; js_retry_intervals := None; js_meta := None;
       js_dependencies := []; js_on_success_path := ""; js_on_failure_path := ""; js_ttl := None;
       js_result_ttl := None; js_failure_ttl := None; js_scheduled_task_id := None; js_created_at := 0;
       js_scheduled_at := Some 5000 |} |} ] demo_empty.

Lemma demo_staged_inv : inv [] demo_staged.
Proof. apply (sound_staged (X:=[])), demo_empty_inv. Qed.

