(* ===== verification/System.v ===== *)
(** * The job life cycle as a transition system

    A state is the store and the attempt handles claims have given out. Each step is one
    transaction of the backend (or one whole operation), run by any process with its own
    clock and locks; workers and sweeps interleave freely. The theorems are the guarantees
    the queue gives in every reachable state. *)

From S2P Require Import Prelude Sql PyString Models Retry Attempts Ready History Store StoreInv Dependents Claim Complete Sweep Rotation Demo.
From stdpp Require Import relations.
#[local] Open Scope Z_scope.

Record system : Type := {
  sys_store : store;
  sys_handles : list AttemptHandle;
}.

Definition empty_store : store :=
  {| live := []; history := []; attempts := []; ready := []; blocked := []; staged := [];
     workers := []; attempt_seq := 1 |}.

Definition initial : system := {| sys_store := empty_store; sys_handles := [] |}.

(** The handle of a claim, if it claimed. *)
Definition issued (r : option (queued_job * AttemptHandle)) : list AttemptHandle :=
  match r with Some (_, h) => [h] | None => [] end.

(** A completion presents no handle, or a handle some claim of that job gave out. *)
Definition presents (hs : list AttemptHandle) (id : Z) (attempt : option AttemptHandle) : Prop :=
  match attempt with
  | None => True
  | Some h => h ∈ hs ∧ h_job_id h = id
  end.

Inductive step (ev : env) (hs : list AttemptHandle) (st : store)
    : store → list AttemptHandle → Prop :=
  | step_create threshold id sp :
      unused_id id (replace_named ev (js_job_name sp) st) →
      step ev hs st (create_job ev threshold id sp st).1 []
  | step_claim queues worker st' r :
      claim_job ev queues worker st = (st', Done r) → step ev hs st st' (issued r)
  | step_claim_candidate queues worker c st' r :
      claim_iter ev queues worker c st = (st', r) →
      step ev hs st st' (match r with IterClaimed _ h => [h] | _ => [] end)
  | step_claim_by_id id worker st' r :
      claim_job_by_id ev id worker st = (st', r) → step ev hs st st' (issued r)
  | step_atomic_claim j worker st' r :
      atomic_claim_job ev j worker st = (st', r) → step ev hs st st' (issued r)
  | step_block j : knows st j → step ev hs st (block_job ev j st).1 []
  | step_recheck id created :
      row_ok st (id, created) → step ev hs st (_recheck_blocked_quietly ev id created st) []
  | step_release_dependents id parent :
      step ev hs st (_release_dependents_quietly ev id parent st) []
  | step_success seen id output expected attempt :
      presents hs id attempt →
      step ev hs st (mark_job_success ev seen id output expected attempt st).1 []
  | step_failed seen id error tb reason expected attempt :
      presents hs id attempt →
      step ev hs st (mark_job_failed ev seen id error tb reason expected attempt st).1 []
  | step_archive id : step ev hs st (mark_job_archived ev id st).1 []
  | step_settle_retry id : step ev hs st (settle_retry_pending ev id st).1 []
  | step_cascade id status :
      is_terminal (Some status) = true → step ev hs st (cascade_ancestor_status ev id status st).1 []
  | step_cancel id : step ev hs st (cancel_job ev id st).1 []
  | step_revoke id : step ev hs st (request_job_revoke id st).1 []
  | step_zombie id reason : step ev hs st (fail_zombie_job ev id reason st).1 []
  | step_release id : step ev hs st (release_job ev id st) []
  | step_release_claimed job worker status n v :
      step ev hs st (release_claimed_job ev job worker status n v st).1 []
  | step_child_pid id pid attempt : step ev hs st (update_job_child_pid id pid attempt st) []
  | step_expire j error reason : step ev hs st (expire_queued_job ev j error reason st).1 []
  | step_retry_failed ids queue_name max_jobs :
      NoDup ids → Forall (λ id, unused_id id st) ids →
      step ev hs st (retry_failed_jobs ev ids queue_name max_jobs st).1 []
  | step_settle limit grace : step ev hs st (settle_finished_jobs ev limit grace st).1 []
  | step_maintain queue_names limit grace after :
      step ev hs st (maintain_ready_queue ev queue_names limit grace after st).1 []
  | step_rotation_drain ro slot batch rot : step ev hs st (drain_store ro slot batch rot st) []
  | step_rotation_reclaim ro slot batch rot : step ev hs st (reclaim_store ro slot batch rot st) [].

(** A step of the system: some process, with its clock, slot and locks. *)
Inductive sys_step : relation system :=
  | sys_step_intro ev st st' hs hs' :
      env_ok ev → step ev hs st st' hs' →
      sys_step {| sys_store := st; sys_handles := hs |}
               {| sys_store := st'; sys_handles := hs ++ hs' |}.

Abbreviation steps := (rtc sys_step).

(** ** The invariant *)

(** Every handle names the attempt its claim opened. *)
Definition handle_ok (st : store) (h : AttemptHandle) : Prop :=
  ∃ a, a ∈ attempts st ∧ at_id a = h_id h ∧ at_token a = h_token h ∧ at_job_id a = h_job_id h.

Record sys_ok (s : system) : Prop := {
  ok_inv : inv [] (sys_store s);
  ok_handles : Forall (handle_ok (sys_store s)) (sys_handles s);
}.

Lemma handle_ok_persists st st' h : persists st st' → handle_ok st h → handle_ok st' h.
Proof.
  intros Hp (a & Ha & Hi & Ht & Hj). destruct (pe_attempts _ _ Hp a Ha) as (a' & Ha' & [Hi' Hj' Ht' _]).
  exists a'. split_and!; congruence.
Qed.

Lemma presents_handle_for hs st id attempt :
  wf st → Forall (handle_ok st) hs → presents hs id attempt → handle_for st id attempt.
Proof.
  intros Hwf Hhs. destruct attempt as [h|]; [|done]. intros [Hh Hid] a Ha Hai.
  rewrite Forall_forall in Hhs. destruct (Hhs h Hh) as (b & Hb & Hbi & _ & Hbj).
  rewrite (NoDup_fmap_inj at_id (attempts st) a b) by (apply Hwf || congruence). congruence.
Qed.

Lemma open_attempt_handle ev id worker st st' h :
  _open_attempt ev id worker st = (st', h) → handle_ok st' h ∧ persists st st'.
Proof.
  intros Ho. split.
  - injection Ho as <- <-. eexists. split; [by apply elem_of_app; right; apply list_elem_of_singleton|].
    done.
  - pose proof (evolves_open_attempt ev id worker st) as He. rewrite Ho in He. by apply evolves_persists.
Qed.

Section step_ok.
Context (ev : env) (Hev : env_ok ev).

Lemma claim_candidate_ok queues worker c st st' r :
  inv [] st → claim_iter ev queues worker c st = (st', r) →
  sound [] st st' ∧ Forall (handle_ok st') (match r with IterClaimed _ h => [h] | _ => [] end).
Proof using.
  intros Hi Hr. pose proof (claim_iter_spec ev queues worker c st st' r Hi Hr) as Hspec.
  destruct r as [|c' moved failed|j h|er]; [| | |done].
  - destruct Hspec as [-> _]. split; [auto with sqlery|by apply Forall_nil].
  - destruct Hspec as (e & _ & _ & Hs). split; [apply Hs|by apply Forall_nil].
  - destruct Hspec as (e & j0 & _ & Hc). split; [by eapply claimed_sound|].
    apply Forall_singleton. destruct Hc as [_ _ _ _ _ _ Ho].
    by apply open_attempt_handle in Ho as [? _].
Qed.

Lemma claim_ok queues worker st st' r :
  inv [] st → claim_job ev queues worker st = (st', Done r) →
  sound [] st st' ∧ Forall (handle_ok st') (issued r).
Proof using Hev.
  intros Hi Hr. destruct (claim_job_spec ev Hev queues worker st Hi) as (st2 & r2 & Heq & Hspec).
  rewrite Heq in Hr. injection Hr as <- <-. destruct r2 as [[j h]|].
  - destruct Hspec as (st1 & st3 & c & e & j0 & Hq & Hc & _ & _ & Hq2).
    pose proof (claimed_sound ev worker e j0 j h st1 st3 (quiet_inv _ _ Hq) Hc) as Hs.
    split.
    + eapply sound_trans; [apply Hq|]. intros _. eapply sound_trans; [exact Hs|]. intros _. apply Hq2.
    + apply Forall_singleton. eapply handle_ok_persists; [apply evolves_persists, Hq2|].
      destruct Hc as [_ _ _ _ _ _ Ho]. by apply open_attempt_handle in Ho as [? _].
  - split; [apply Hspec|by apply Forall_nil].
Qed.

Lemma claim_by_id_ok id worker st st' r :
  inv [] st → claim_job_by_id ev id worker st = (st', r) →
  sound [] st st' ∧ Forall (handle_ok st') (issued r).
Proof using.
  intros Hi Hr. pose proof (claim_job_by_id_spec ev worker id st st' r Hi Hr) as Hspec.
  destruct r as [[j h]|].
  - destruct Hspec as (Hs & j0 & _ & _ & _ & Ho). split; [done|].
    apply Forall_singleton. by apply open_attempt_handle in Ho as [? _].
  - subst. split; [auto with sqlery|by apply Forall_nil].
Qed.

Lemma atomic_claim_ok j worker st st' r :
  inv [] st → atomic_claim_job ev j worker st = (st', r) →
  sound [] st st' ∧ Forall (handle_ok st') (issued r).
Proof using.
  intros Hi Hr. pose proof (atomic_claim_job_spec ev worker j st st' r Hi Hr) as [Hs Hspec].
  split; [done|]. destruct r as [[j1 h]|]; [|by apply Forall_nil].
  destruct Hspec as (j0 & _ & _ & _ & _ & Ho).
  apply Forall_singleton. by apply open_attempt_handle in Ho as [? _].
Qed.

(** Every step keeps the invariant; only a creation may remove a live job (the one it
    replaces by name). *)
Lemma step_ok hs st st' hs' :
  inv [] st → Forall (handle_ok st) hs → step ev hs st st' hs' →
  inv [] st' ∧ persists st st' ∧ Forall (handle_ok st') hs' ∧
  (evolves st st' ∨
   ∃ threshold id sp, st' = (create_job ev threshold id sp st).1 ∧
     evolves (replace_named ev (js_job_name sp) st) st').
Proof using Hev.
  intros Hi Hhs Hstep.
  assert (sound [] st st' ∧ Forall (handle_ok st') hs' →
    inv [] st' ∧ persists st st' ∧ Forall (handle_ok st') hs' ∧
    (evolves st st' ∨
     ∃ threshold id sp, st' = (create_job ev threshold id sp st).1 ∧
       evolves (replace_named ev (js_job_name sp) st) st')) as Hsound.
  { intros [[? He] ?]. split; [done|]. split; [by apply evolves_persists|]. by split; [|left]. }
  destruct Hstep.
  1: { destruct (create_job_inv ev Hev threshold id sp st Hi) as (? & ? & ?); [done|].
       split; [done|]. split; [done|]. split; [by apply Forall_nil|]. right. by exists threshold, id, sp. }
  all: try (apply Hsound; split; [|by apply Forall_nil]).
  - by eapply Hsound, claim_ok.
  - by eapply Hsound, claim_candidate_ok.
  - by eapply Hsound, claim_by_id_ok.
  - by eapply Hsound, atomic_claim_ok.
  - by apply block_job_sound.
  - by apply recheck_quietly_quiet.
  - by apply release_quietly_sound.
  - eapply (mark_job_success_sound ev Hev); [done| |apply surjective_pairing].
    by eapply presents_handle_for; [apply Hi|..].
  - eapply (mark_job_failed_sound ev Hev); [done| |apply surjective_pairing].
    by eapply presents_handle_for; [apply Hi|..].
  - by apply settle_failed_sound.
  - by apply settle_failed_sound.
  - by destruct (cascade_ancestor_status_done ev id status st Hi) as (st' & -> & ?).
  - by apply cancel_job_sound.
  - by apply request_job_revoke_sound.
  - by apply fail_zombie_job_sound.
  - by apply release_job_sound.
  - by apply release_claimed_job_sound.
  - by apply update_job_child_pid_sound.
  - by apply expire_queued_job_sound.
  - by apply retry_failed_jobs_sound.
  - by apply settle_loop_sound.
  - by apply maintain_ready_queue_sound.
  - by apply drain_store_sound.
  - by apply reclaim_store_sound.
Qed.
End step_ok.

Lemma sys_step_ok s s' :
  sys_ok s → sys_step s s' →
  sys_ok s' ∧ persists (sys_store s) (sys_store s') ∧ sys_handles s ⊆ sys_handles s'.
Proof.
  intros [Hi Hhs] Hstep. destruct Hstep as [ev st st' hs hs' Hev Hstep]. simpl in *.
  destruct (step_ok ev Hev hs st st' hs' Hi Hhs Hstep) as (? & Hp & ? & _).
  split; [|split; [done|set_solver]]. split; [done|]. simpl. apply Forall_app. split; [|done].
  eapply Forall_impl; [exact Hhs|]. intros h. by apply handle_ok_persists.
Qed.

Lemma steps_ok s s' :
  sys_ok s → steps s s' →
  sys_ok s' ∧ persists (sys_store s) (sys_store s') ∧ sys_handles s ⊆ sys_handles s'.
Proof.
  intros Hok Hs. induction Hs as [s|s1 s2 s3 H12 _ IH]; [done|].
  destruct (sys_step_ok s1 s2 Hok H12) as (Hok2 & Hp & Hh).
  destruct (IH Hok2) as (Hok3 & Hp' & Hh'). split_and!; [done|by etrans|by etrans].
Qed.

Lemma initial_ok : sys_ok initial.
Proof.
  split; [split|apply Forall_nil_2]; simpl.
  - split; simpl; try (apply NoDup_nil_2); set_solver.
  - intros j (Hj & _). by apply elem_of_nil in Hj.
Qed.

(** ** Guarantees *)

Lemma reachable_ok s : steps initial s → sys_ok s.
Proof. intros Hs. by apply (steps_ok _ _ initial_ok Hs). Qed.

(** C1: in every reachable state of the queue, whatever the interleaving of workers and
    sweeps, the store is well formed (unique ids, a job is live or in history but not both,
    history rows are final and have no open attempt, a job has at most one open attempt) and
    every queued job that is not running has a ready or a blocked entry. *)
Theorem reachable_invariant s :
  steps initial s → wf (sys_store s) ∧ covered (sys_store s).
Proof. intros Hs. apply (ok_inv _ (reachable_ok s Hs)). Qed.

Lemma claim_new_attempt ev queues worker st st' j h :
  env_ok ev → inv [] st → claim_job ev queues worker st = (st', Done (Some (j, h))) →
  inv [] st' ∧ ∃ j0 a, waiting st j0 ∧ j = _as_running j0 h ∧
    attempts st' = attempts st ++ [a] ∧ at_id a = attempt_seq st ∧ at_id a = h_id h ∧
    at_token a = h_token h ∧ open_for (j_id j) a.
Proof.
  intros Hev Hi Hr. split; [by apply (claim_ok ev Hev _ _ _ _ _ Hi Hr)|].
  destruct (claim_job_spec ev Hev queues worker st Hi) as (st2 & r2 & Heq & Hspec).
  rewrite Heq in Hr. injection Hr as -> ->.
  destruct Hspec as (st1 & st3 & c & e & j0 & Hq & [_ Hw _ _ _ -> Ho] & _ & _ & Hq2).
  exists j0. injection Ho as <- <-. eexists. rewrite (qu_attempts _ _ _ Hq2). simpl.
  rewrite (qu_attempts _ _ _ Hq), (qu_seq _ _ _ Hq). split; [by eapply quiet_waiting|]. done.
Qed.

(** C2: a claim takes a job that was queued and that nobody was running, and opens exactly
    one attempt on it: the attempt is new, it is the one the returned handle names, and no
    other attempt of the job is open. *)
Theorem claim_exclusive s ev queues worker st' j h :
  steps initial s → env_ok ev →
  claim_job ev queues worker (sys_store s) = (st', Done (Some (j, h))) →
  (∃ j0, waiting (sys_store s) j0 ∧ j = _as_running j0 h) ∧
  ∃ a, attempts st' = attempts (sys_store s) ++ [a] ∧ at_id a = h_id h ∧
    at_token a = h_token h ∧ open_for (j_id j) a ∧
    ∀ b, b ∈ attempts st' → open_for (j_id j) b → b = a.
Proof.
  intros Hs Hev Hr. pose proof (ok_inv _ (reachable_ok s Hs)) as Hi.
  destruct (claim_new_attempt _ _ _ _ _ _ _ Hev Hi Hr)
    as [Hi' (j0 & a & Hw & Hj & Ha & _ & Hid & Ht & Ho)].
  split; [by exists j0|]. exists a. split_and!; try done. intros b Hb Hob.
  eapply (wf_one_open st' (proj1 Hi')); [done| |done..]. rewrite Ha. apply elem_of_app. right.
  by apply list_elem_of_singleton.
Qed.

(** C8: [claim_job] returns, whatever the ready table holds: its scan ends within one step
    more than the number of ready entries, and no candidate makes it raise. *)
Theorem claim_terminates s ev queues worker :
  steps initial s → env_ok ev →
  ∃ st' r, claim_job ev queues worker (sys_store s) = (st', Done r).
Proof.
  intros Hs Hev. pose proof (ok_inv _ (reachable_ok s Hs)) as Hi.
  destruct (claim_job_spec ev Hev queues worker _ Hi) as (st' & r & Heq & _). by exists st', r.
Qed.

(** C7: priority and progress. If an unconstrained queued job has a due entry, a claim
    succeeds, and what it claims is not behind that entry in the claim order (priority
    descending, then age, then id): no job is overtaken by a lower-ranked one, and blocked,
    expired or limited jobs in front of it never hide it. *)
Theorem claim_in_order s ev queues worker e j :
  steps initial s → env_ok ev → claimable ev queues e j (sys_store s) →
  ∃ st' j' h e', claim_job ev queues worker (sys_store s) = (st', Done (Some (j', h))) ∧
    e' ∈ ready (sys_store s) ∧ re_job_id e' = j_id j' ∧ entry_le e' e.
Proof.
  intros Hs Hev Hc. pose proof (ok_inv _ (reachable_ok s Hs)) as Hi.
  destruct (claim_scan_order (X:=[]) ev queues worker (S (length (ready (sys_store s)))) None
    {| sc_blocked := []; sc_failed := [] |} e j (sys_store s))
    as (st' & s' & j' & h & e' & Heq & ? & ? & ?); [done|apply claim_from_ready_fuel|done..|].
  unfold claim_job, _claim_from_ready. rewrite Heq. do 4 eexists. by split_and!.
Qed.

(** ** Fencing *)

(** The attempt the handle names is no longer open. *)
Definition stale (st : store) (h : AttemptHandle) : Prop :=
  ∀ a, a ∈ attempts st → ¬ exact_open h a.

Lemma completion_stale ev id expected status v h o st :
  stale st h →
  completion_txn ev id expected status v (Some h) o st = (st, Err JobFencingError).
Proof.
  intros Hs. unfold completion_txn, _close_attempt, decide_close.
  rewrite (proj2 (rowcount_zero (exact_open h) (attempts st)) Hs). by rewrite decide_False.
Qed.

Lemma success_stale ev seen id output expected h st :
  stale st h → (mark_job_success ev seen id output expected (Some h) st).1 = st.
Proof.
  intros Hs. unfold mark_job_success, _fenced_update.
  destruct seen; try done. destruct (job_by_id st id); [|done].
  destruct (mark_success _ _ _ _); [|done]. by rewrite completion_stale.
Qed.

Lemma failed_stale ev seen id error tb reason expected h st :
  stale st h → (mark_job_failed ev seen id error tb reason expected (Some h) st).1 = st.
Proof.
  intros Hs. unfold mark_job_failed, _fenced_update.
  destruct seen; try done. destruct (job_by_id st id); [|done]. by rewrite completion_stale.
Qed.

Lemma persists_closed st st' h :
  wf st' → persists st st' →
  (∃ a, a ∈ attempts st ∧ at_id a = h_id h ∧ at_finished_at a ≠ None) → stale st' h.
Proof.
  intros Hwf Hp (a & Ha & Hid & Hf) b Hb (Hbid & _ & Hbf).
  destruct (pe_attempts _ _ Hp a Ha) as (a' & Ha' & Hsame).
  pose proof (sa_closed _ _ Hsame Hf) as ->.
  rewrite (NoDup_fmap_inj at_id (attempts st') a b) in Hf by (apply Hwf || congruence). done.
Qed.

Lemma stale_rejected ev st id out error tb reason expected h :
  stale st h → is_Some (job_by_id st id) ∨ is_Some (history_by_id st id) →
  mark_job_success ev (get_job_by_id ev st id) id (Text out) expected (Some h) st
    = (st, Err JobFencingError) ∧
  mark_job_failed ev (get_job_by_id ev st id) id error tb reason expected (Some h) st
    = (st, Err JobFencingError).
Proof.
  intros Hs Hjob. unfold get_job_by_id, mark_job_success, mark_job_failed, _fenced_update.
  destruct (job_by_id st id) as [row|].
  - destruct (decide (j_status row = Queued)); simpl; by rewrite !completion_stale.
  - destruct Hjob as [[? [=]]|[hj Hh]]. rewrite Hh. simpl. unfold _already_finished.
    by destruct expected.
Qed.


Lemma completion_closes ev id expected status v h o st st' :
  completion_txn ev id expected status v (Some h) o st = (st', Ok true) →
  ∃ a, a ∈ attempts st' ∧ at_id a = h_id h ∧ at_finished_at a ≠ None.
Proof.
  unfold completion_txn, _close_attempt, decide_close.
  destruct (decide (rowcount (exact_open h) (attempts st) = 1%nat)) as [Hc|]; [|done].
  assert (∃ a, a ∈ attempts st ∧ exact_open h a) as (a & Ha & He)
    by (apply (rowcount_pos (exact_open h)); lia).
  set (st1 := with_attempts _ st).
  assert (∃ a, a ∈ attempts st1 ∧ at_id a = h_id h ∧ at_finished_at a ≠ None) as Hst1.
  { eexists. split; [apply elem_of_update_where; exists a; split; [done|reflexivity]|].
    rewrite decide_True by done. simpl. split; [apply He|done]. }
  destruct (completion_write _ _ _ _ _ _) as [st2 [[]|]] eqn:Hw; [|by destruct expected|done].
  intros [= <-].
  unfold completion_write in Hw. destruct (owes_retry _ _); [by injection Hw as <- _|].
  unfold _finish_in in Hw. destruct (filter _ (live st1)) as [|j [|??]]; try done.
  injection Hw as <-. destruct Hst1 as (b & Hb & Hbi & Hbf).
  eexists. split; [apply elem_of_update_where; exists b; split; [done|reflexivity]|].
  by case_decide.
Qed.

Lemma fenced_update_closes ev id expected status v h o parent st st' f :
  env_ok ev → inv [] st → handle_for st id (Some h) → is_terminal (Some status) = true →
  expected ≠ None →
  _fenced_update ev id expected status v (Some h) o parent st = (st', Ok f) →
  ∃ a, a ∈ attempts st' ∧ at_id a = h_id h ∧ at_finished_at a ≠ None.
Proof.
  intros Hev Hi Hh Ht Hexp. unfold _fenced_update.
  destruct (completion_txn _ _ _ _ _ _ _ _) as [st1 [[]|e]] eqn:Hc; try done.
  - intros [= <- _]. pose proof (completion_closes _ _ _ _ _ _ _ _ _ Hc) as (a & Ha & Hid & Hf).
    apply (completion_txn_sound (X:=[])) in Hc as [[Hi1 _] _]; [|done..].
    case_match; [|by exists a].
    rewrite (qu_attempts _ _ _ (release_quietly_quiet ev Hev id parent st1 Hi1)). by exists a.
  - unfold completion_txn in Hc. destruct (_close_attempt _ _ _ _ _) as [? []]; [|done].
    destruct (completion_write _ _ _ _ _ _) as [? [[]|]]; try done. by destruct expected.
Qed.


(** History is insert-only. Over any number of steps the history table only grows at its
    end, and every row in it is terminal and has a finish time. *)
Theorem history_insert_only s s' :
  steps initial s → steps s s' →
  history (sys_store s) `prefix_of` history (sys_store s') ∧
  ∀ r, r ∈ history (sys_store s') →
    is_terminal (Some (j_status r)) = true ∧ is_Some (jr_finished_at (j_run r)).
Proof.
  intros Hs Hs'. destruct (steps_ok s s' (reachable_ok s Hs) Hs') as (Hok & Hp & _).
  split; [apply Hp|]. apply (wf_hist_final _ (proj1 (ok_inv _ Hok))).
Qed.

Lemma replace_named_keeps {X} ev name st j :
  env_ok ev → inv X st → j ∈ live st → (∀ n, name = Some n → js_job_name (j_spec j) ≠ Some n) →
  ∃ j', (j' ∈ live (replace_named ev name st) ∨ j' ∈ history (replace_named ev name st)) ∧
    j_id j' = j_id j ∧ j_spec j' = j_spec j.
Proof.
  intros Hev Hi Hj Hn. destruct (replace_named_quiet ev Hev name st Hi) as (st1 & Hl & _ & Hq).
  apply (ev_live _ _ (proj2 (qu_sound _ _ _ Hq))), Hl. split; [done|].
  destruct name; [intros _; by apply Hn|done].
Qed.

(** C4: no job is lost. After any step a job that was live is still live or is in history,
    under its id and with its specification unchanged, unless the step created a job of the
    same name (which replaces it). *)
Theorem no_job_lost s ev st' hs' j :
  steps initial s → env_ok ev → step ev (sys_handles s) (sys_store s) st' hs' →
  j ∈ live (sys_store s) →
  (∃ j', (j' ∈ live st' ∨ j' ∈ history st') ∧ j_id j' = j_id j ∧ j_spec j' = j_spec j) ∨
  (∃ name threshold id sp, st' = (create_job ev threshold id sp (sys_store s)).1 ∧
     js_job_name sp = Some name ∧ js_job_name (j_spec j) = Some name).
Proof.
  intros Hs Hev Hstep Hj. destruct (reachable_ok s Hs) as [Hi Hhs].
  destruct (step_ok ev Hev _ _ _ _ Hi Hhs Hstep) as (_ & _ & _ & [He|(th & id & sp & -> & He)]).
  { left. by apply (ev_live _ _ He). }
  destruct (decide (is_Some (js_job_name sp) ∧ js_job_name sp = js_job_name (j_spec j)))
    as [[[n Hn] Heq]|Hne]; [right; exists n, th, id, sp; by rewrite <-Heq|left].
  destruct (replace_named_keeps ev (js_job_name sp) _ j Hev Hi Hj) as (j1 & [Hj1|Hj1] & Hid & Hsp).
  - intros n Hn Hj'. apply Hne. rewrite Hn, Hj'. by split.
  - destruct (ev_live _ _ He j1 Hj1) as (j2 & ? & ? & ?). exists j2. intuition congruence.
  - exists j1. split; [|done]. right. eapply elem_of_prefix; [exact Hj1|apply He].
Qed.

(** ** Witnesses: the concrete queue of [Demo] *)

Definition demo_sys : system := {| sys_store := demo_claimed; sys_handles := [demo_handle] |}.
Definition demo_sys_two : system := {| sys_store := demo_two; sys_handles := [] |}.

Lemma demo_steps_two : steps initial demo_sys_two.
Proof.
  apply (rtc_l _ _ {| sys_store := demo_one; sys_handles := [] |}).
  { apply (sys_step_intro (demo_env 1000) empty_store demo_one [] []); [apply demo_env_ok|].
    apply (step_create (demo_env 1000) [] empty_store 1 11 (demo_spec 5 [] None)).
    apply unused_id_intro, (bool_decide_unpack _). by vm_compute. }
  apply rtc_once.
  apply (sys_step_intro (demo_env 2000) demo_one demo_two [] []); [apply demo_env_ok|].
  apply (step_create (demo_env 2000) [] demo_one 1 12 (demo_spec 9 [JNum 11] None)).
  apply unused_id_intro, (bool_decide_unpack _). by vm_compute.
Qed.

Lemma demo_claim_step : step (demo_env 3000) [] demo_two demo_claimed [demo_handle].
Proof.
  apply (step_claim (demo_env 3000) [] demo_two ["default"] (Some 1) demo_claimed
    (Some (_as_running demo_job demo_handle, demo_handle))). exact demo_claim_result.
Qed.

Lemma demo_steps : steps initial demo_sys.
Proof.
  eapply rtc_r; [exact demo_steps_two|].
  apply (sys_step_intro (demo_env 3000) demo_two demo_claimed [] [demo_handle]); [apply demo_env_ok|].
  exact demo_claim_step.
Qed.

Lemma reachable_invariant_witness :
  length (live (sys_store demo_sys)) = 2%nat ∧
  wf (sys_store demo_sys) ∧ covered (sys_store demo_sys).
Proof. split; [by vm_compute|]. apply reachable_invariant, demo_steps. Defined.

Lemma claim_exclusive_witness :
  let j := _as_running demo_job demo_handle in
  (∃ j0, waiting (sys_store demo_sys_two) j0 ∧ j = _as_running j0 demo_handle) ∧
  ∃ a, attempts demo_claimed = attempts (sys_store demo_sys_two) ++ [a] ∧
    at_id a = h_id demo_handle ∧ at_token a = h_token demo_handle ∧
    open_for (j_id j) a ∧ ∀ b, b ∈ attempts demo_claimed → open_for (j_id j) b → b = a.
Proof.
  apply (claim_exclusive demo_sys_two (demo_env 3000) ["default"] (Some 1) demo_claimed
    (_as_running demo_job demo_handle) demo_handle demo_steps_two (demo_env_ok 3000)
    demo_claim_result).
Defined.

Lemma claim_terminates_witness :
  ∃ st' r, claim_job (demo_env 3000) ["default"] (Some 1) (sys_store demo_sys_two) = (st', Done r).
Proof. apply (claim_terminates demo_sys_two); [apply demo_steps_two|apply demo_env_ok]. Defined.

Definition demo_entry : job_ready :=
  {| re_slot := 0; re_job_id := 11; re_queue_name := "default"; re_priority := 5;
     re_created_at := 1000; re_scheduled_at := None |}.

Lemma demo_claimable : claimable (demo_env 3000) ["default"] demo_entry demo_job demo_two.
Proof.
  split; try reflexivity.
  - vm_compute. by apply elem_of_cons; left.
  - split; [by apply elem_of_cons; left|done].
  - split_and!; [|by vm_compute..]. vm_compute. by apply elem_of_cons; left.
Qed.

Lemma claim_in_order_witness :
  ∃ st' j' h e', claim_job (demo_env 3000) ["default"] None (sys_store demo_sys_two)
      = (st', Done (Some (j', h))) ∧
    e' ∈ ready (sys_store demo_sys_two) ∧ re_job_id e' = j_id j' ∧ entry_le e' demo_entry.
Proof.
  apply (claim_in_order demo_sys_two (demo_env 3000) ["default"] None demo_entry demo_job
    demo_steps_two (demo_env_ok 3000) demo_claimable).
Defined.

Lemma demo_stale : stale demo_done demo_handle.
Proof.
  intros a Ha. vm_compute in Ha.
  apply elem_of_cons in Ha as [->|Ha]; [by intros (_ & _ & [=])|by apply elem_of_nil in Ha].
Qed.


Lemma demo_success_result :
  ∃ f, mark_job_success (demo_env 4000)
         (get_job_by_id (demo_env 4000) (sys_store demo_sys) (h_job_id demo_handle))
         (h_job_id demo_handle) (Text "out") (Some 0) (Some demo_handle) (sys_store demo_sys)
       = (demo_done, Ok f).
Proof. eexists. vm_compute. reflexivity. Qed.

Definition demo_sys_done : system :=
  {| sys_store := demo_done; sys_handles := sys_handles demo_sys ++ [] |}.

Lemma demo_job_live : is_Some (job_by_id (sys_store demo_sys) (h_job_id demo_handle)).
Proof. vm_compute. eauto. Qed.

Lemma demo_handle_issued : demo_handle ∈ sys_handles demo_sys.
Proof. apply elem_of_cons. by left. Qed.


Lemma history_insert_only_witness :
  history (sys_store demo_sys_two) `prefix_of` history (sys_store demo_sys) ∧
  ∀ r, r ∈ history (sys_store demo_sys) →
    is_terminal (Some (j_status r)) = true ∧ is_Some (jr_finished_at (j_run r)).
Proof.
  apply (history_insert_only demo_sys_two demo_sys demo_steps_two).
  apply rtc_once.
  exact (sys_step_intro (demo_env 3000) demo_two demo_claimed [] [demo_handle] (demo_env_ok 3000)
    demo_claim_step).
Defined.

Lemma demo_job2_live : demo_job2 ∈ live (sys_store demo_sys_two).
Proof. vm_compute. apply elem_of_cons. right. apply elem_of_cons. by left. Qed.

Lemma no_job_lost_witness :
  (∃ j', (j' ∈ live demo_claimed ∨ j' ∈ history demo_claimed) ∧ j_id j' = j_id demo_job2 ∧
     j_spec j' = j_spec demo_job2) ∨
  (∃ name threshold id sp,
     demo_claimed = (create_job (demo_env 3000) threshold id sp (sys_store demo_sys_two)).1 ∧
     js_job_name sp = Some name ∧ js_job_name (j_spec demo_job2) = Some name).
Proof.
  exact (no_job_lost demo_sys_two (demo_env 3000) demo_claimed [demo_handle] demo_job2
    demo_steps_two (demo_env_ok 3000) demo_claim_step demo_job2_live).
Defined.
