(* ===== verification/Executor.v ===== *)
(** * Retries and crash recovery (core/worker.py, JobExecutor)

    A failure that will be retried is written in one transaction with the [retry_pending] marker;
    the retry row, the archiving of the original and the clearing of the marker are transactions of
    their own, so a worker can die between any two of them. This file models the failure path of the
    executor on the store, the recovery sweep that finishes what a dead worker left, and the sweep
    over stale jobs. A second in which Python computes with floats is a rational number here. *)

From S2P Require Import Prelude Sql PyString Models Retry Attempts Ready History Store StoreInv Dependents Claim Complete Demo Outcomes Limits System.
From Stdlib Require Import QArith_base Qcanon.
#[local] Open Scope string_scope.
#[local] Open Scope list_scope.
#[local] Open Scope Z_scope.

(** [timedelta(seconds=d)] *)
Definition timedelta_seconds (d : Qc) : time :=
  round_half_even (Qnum (this d) * usec_per_sec) (Zpos (Qden (this d))).

(** What [_retry_job] returns: the retry that was there, or the one it created. *)
Inductive retried : Type :=
  | Existing (j : queued_job)
  | NewRetry (c : created).

Section executor.
(** The process, the staging threshold, Python's [random.uniform], and the classes and the
    configuration the retry policy consults; [load] imports a task. *)
Context (ev : env) (threshold : Z) (uniform : Qc → Qc → Qc).
Context {exn_class : Type} (isinstance : exn_class → exn_class → bool).
Context (load : string → option (@task_attrs exn_class)).
Context (RETRY_BACKOFF_MAX : option Qc) (RETRY_JITTER : bool).

Definition compute_retry_delay (backoff : Qc) (retry_count : Z) (retry_intervals : option (list Qc)) : Qc :=
  match retry_intervals with
  | Some ((_ :: _) as intervals) =>
      default 0%Qc (py_index intervals (Z.min retry_count (Z.of_nat (length intervals) - 1)))
  | _ =>
      let delay := (backoff * Qc_of_Z (2 ^ retry_count))%Qc in
      let delay := match RETRY_BACKOFF_MAX with
                   | Some cap => if decide (cap = 0%Qc) then delay
                                 else if decide (cap < delay)%Qc then cap else delay
                   | None => delay
                   end in
      if RETRY_JITTER then uniform 0%Qc delay else delay
  end.

Definition _should_retry (j : queued_job) (exc : option (@task_exception exn_class)) : bool :=
  if js_max_retries (j_spec j) <=? 0 then false
  else if js_max_retries (j_spec j) <=? js_retry_count (j_spec j) then false
  else policy_allows_retry isinstance (load (js_task_path (j_spec j))) exc.

Definition _mark_failed (id : Z) (error traceback : string) (expected : option Z) (will_retry : bool)
    (reason : string) (attempt : option AttemptHandle) (st : store) : store * result store_error found :=
  mark_job_failed ev (get_job_by_id ev st id) id error traceback
    (if will_retry then pending_reason reason else "") expected attempt st.

(** Exceptions of the two updates are logged and dropped; an update that raises writes nothing. *)
Definition _finish_retry_bookkeeping (id : Z) (st : store) : store :=
  (settle_retry_pending ev id (mark_job_archived ev id st).1).1.

(** The delay of the next attempt; an explicit countdown wins. *)
Definition next_delay (failed : queued_job) (exc : option (@task_exception exn_class))
    (countdown : option Qc) : Qc :=
  let sp := j_spec failed in
  let backoff := if decide (js_retry_backoff sp = 0%Qc) then 1%Qc else js_retry_backoff sp in
  shape_retry_delay uniform
    (compute_retry_delay backoff (js_retry_count sp) (js_retry_intervals sp))
    (load (js_task_path sp)) RETRY_JITTER
    (match countdown with Some c => Some c | None => retry_countdown exc end).

(** [retry_kwargs] and [carried] *)
Definition retry_row (failed : queued_job) (delay : Qc) : job_spec :=
  let sp := j_spec failed in
  {| js_task_path := js_task_path sp;
     js_kwargs := match js_kwargs sp with JObj m => JObj m | _ => JObj [] end;
     js_queue_name := js_queue_name sp; js_priority := js_priority sp;
     js_parent_job_id := Some (j_id failed); js_retry_count := js_retry_count sp + 1;
     js_max_retries := js_max_retries sp; js_retry_backoff := js_retry_backoff sp;
     js_allow_parallel := js_allow_parallel sp; js_timeout_seconds := js_timeout_seconds sp;
     js_job_name := match js_job_name sp with
                    | Some n => if decide (n = "") then None
                                else Some (retry_name n (js_retry_count sp + 1))
                    | None => None
                    end;
     js_tags := js_tags sp; js_retry_intervals := js_retry_intervals sp; js_meta := js_meta sp;
     js_dependencies := js_dependencies sp; js_on_success_path := js_on_success_path sp;
     js_on_failure_path := js_on_failure_path sp; js_ttl := None;
     js_result_ttl := js_result_ttl sp; js_failure_ttl := js_failure_ttl sp;
     js_scheduled_task_id := None; js_created_at := e_now ev;
     js_scheduled_at := Some (e_now ev + timedelta_seconds delay) |}.

(** The look for an existing retry and what follows it are transactions of their own: [existing] is
    what the look returned. *)
Definition retry_after_look (existing : option queued_job) (failed : queued_job)
    (exc : option (@task_exception exn_class)) (countdown : option Qc) (id : Z) (st : store)
    : store * retried :=
  match existing with
  | Some x => (_finish_retry_bookkeeping (j_id failed) st, Existing x)
  | None =>
      let '(st1, c) := create_job ev threshold id (retry_row failed (next_delay failed exc countdown)) st in
      (_finish_retry_bookkeeping (j_id failed) st1, NewRetry c)
  end.

Definition _retry_job (failed : queued_job) (exc : option (@task_exception exn_class))
    (countdown : option Qc) (id : Z) (st : store) : store * retried :=
  retry_after_look (latest_retry st (j_id failed)) failed exc countdown id st.

(** [ORDER BY finished_at] *)
Definition finished_at_le (a b : queued_job) : Prop :=
  match jr_finished_at (j_run a), jr_finished_at (j_run b) with
  | Some x, Some y => x <= y
  | _, _ => True
  end.
#[global] Instance finished_at_le_dec a b : Decision (finished_at_le a b).
Proof. unfold finished_at_le. destruct (jr_finished_at (j_run a)), (jr_finished_at (j_run b)); apply _. Defined.

Definition owed_since (cutoff : time) (j : queued_job) : Prop :=
  j_status j = Failed ∧ like_retry_pending (jr_termination_reason (j_run j)) = true ∧
  match jr_finished_at (j_run j) with Some t => t <= cutoff | None => False end.
#[global] Instance owed_since_dec cutoff j : Decision (owed_since cutoff j).
Proof. unfold owed_since. destruct (jr_finished_at (j_run j)); apply _. Defined.

Definition get_jobs_pending_retry (older_than : time) (limit : nat) (st : store) : list queued_job :=
  take limit (order_by finished_at_le (filter (owed_since (e_now ev - older_than)) (live st))).

(** The loop of [recover_lost_retries]; [ids] are the ids the flush hook generates. *)
Fixpoint recover_loop (pending : list queued_job) (ids : list Z) (recovered : nat) (st : store)
    : store * nat :=
  match pending with
  | [] => (st, recovered)
  | f :: pending =>
      if retry_budget_left (j_spec f) then
        match ids with
        | id :: ids => recover_loop pending ids (S recovered) (_retry_job f None None id st).1
        | [] => (st, recovered)
        end
      else recover_loop pending ids recovered (settle_retry_pending ev (j_id f) st).1
  end.

Definition recover_lost_retries (grace : time) (limit : nat) (ids : list Z) (st : store) : store * nat :=
  recover_loop (get_jobs_pending_retry grace limit st) ids 0 st.

(** ** The outcome of an attempt *)

Record UnpersistedOutcome : Type := {
  uo_job_id : Z;
  uo_success : bool;
  uo_expected_version : option Z;
  uo_attempt : option AttemptHandle;
  uo_output : string;
  uo_error : string;
  uo_traceback : string;
  uo_will_retry : bool;
  uo_countdown : option Qc;
}.

(** The job object a completion returned. Without one ([None], or a staged row, which has no retry
    columns) what follows raises an [AttributeError] before it writes anything. *)
Definition found_job (f : found) : option queued_job :=
  match f with FLive j | FHistory j => Some j | _ => None end.

(** [if getattr(job, "parent_job_id", None)]; exceptions of the cascade are logged and dropped. *)
Definition cascade_if_retry (id : Z) (f : found) (st : store) : store :=
  match found_job f ≫= λ j, j_parent j with
  | Some _ => (cascade_ancestor_status ev id Success st).1
  | None => st
  end.

Inductive execution_error : Type :=
  | StoreError (e : store_error)
  | AttributeError.

Inductive handled : Type := Recorded | Discarded.

(** A [JobFencingError] means superseded: the outcome is discarded. Other exceptions propagate. *)
Definition fenced_out (e : store_error) : result execution_error handled :=
  match e with JobFencingError => Ok Discarded | _ => Err (StoreError e) end.

(** [if will_retry: self._retry_job(failed_job, ...)] *)
Definition retry_found (will_retry : bool) (f : found) (exc : option (@task_exception exn_class))
    (countdown : option Qc) (id : Z) (st : store) : store * result execution_error handled :=
  if will_retry then
    match found_job f with
    | Some j => ((_retry_job j exc countdown id st).1, Ok Recorded)
    | None => (st, Err AttributeError)
    end
  else (st, Ok Recorded).

(** The supervisor writes an outcome its child could not. *)
Definition persist_outcome (o : UnpersistedOutcome) (id : Z) (st : store)
    : store * result execution_error handled :=
  if uo_success o then
    match mark_job_success ev (get_job_by_id ev st (uo_job_id o)) (uo_job_id o) (Text (uo_output o))
            (uo_expected_version o) (uo_attempt o) st with
    | (st1, Ok f) => (cascade_if_retry (uo_job_id o) f st1, Ok Recorded)
    | (st1, Err e) => (st1, fenced_out e)
    end
  else
    match _mark_failed (uo_job_id o) (uo_error o) (uo_traceback o) (uo_expected_version o)
            (uo_will_retry o) "" (uo_attempt o) st with
    | (st1, Ok f) => retry_found (uo_will_retry o) f None (uo_countdown o) id st1
    | (st1, Err e) => (st1, fenced_out e)
    end.

(** ** The retries of a job *)

(** The ids of the retries of a job, live or finished. *)
Definition retry_ids (st : store) (i : Z) : list Z :=
  j_id <$> filter (λ j, j_parent j = Some i) (live st ++ history st).

Lemma elem_of_retry_ids st i k :
  k ∈ retry_ids st i ↔ ∃ j, (j ∈ live st ∨ j ∈ history st) ∧ j_parent j = Some i ∧ j_id j = k.
Proof using Type.
  unfold retry_ids. rewrite list_elem_of_fmap. setoid_rewrite list_elem_of_filter. setoid_rewrite elem_of_app.
  split; [intros (j & -> & ? & ?)|intros (j & ? & ? & <-)]; exists j; auto.
Qed.

Lemma latest_retry_None st i : wf st → latest_retry st i = None ↔ retry_ids st i = [].
Proof using Type.
  intros Hwf. unfold latest_retry. rewrite order_by_head_None. split.
  - intros Hn. apply elem_of_nil_inv. intros k (j & Hj & Hp & _)%elem_of_retry_ids.
    assert (∃ x, x ∈ job_all st ∧ j_parent x = Some i) as (x & Hx & Hpx).
    { destruct Hj as [Hj|Hj]; [|exists j; split; [by apply elem_of_app; right|done]].
      destruct (live_view_one st j Hwf) as (x & Hx & Hid & Hsp & _). exists x. split; [|by rewrite Hsp].
      apply elem_of_app. left. apply list_elem_of_bind. exists j. rewrite Hx. split; [apply list_elem_of_here|done]. }
    assert (x ∈ filter (λ j, j_parent j = Some i) (job_all st)) as Hin by (by apply list_elem_of_filter).
    rewrite Hn in Hin. by apply elem_of_nil in Hin.
  - intros Hn. apply filter_none. intros x Hx Hp.
    assert (j_id x ∈ retry_ids st i) as Hin; [|rewrite Hn in Hin; by apply elem_of_nil in Hin].
    apply elem_of_retry_ids. apply elem_of_app in Hx as [Hx|Hx].
    + apply list_elem_of_bind in Hx as (j & Hx & Hj). apply live_view_same in Hx as [Hid Hsp].
      exists j. split_and!; [by left| |done]. by rewrite <-Hsp.
    + exists x. auto.
Qed.

Lemma same_queue_no_retry st st' i : same_queue st st' → retry_ids st i = [] → retry_ids st' i = [].
Proof using Type.
  intros Hs Hn. apply elem_of_nil_inv. intros k (j & Hj & Hp & <-)%elem_of_retry_ids.
  assert (∃ x, (x ∈ live st ∨ x ∈ history st) ∧ j_parent x = Some i ∧ j_id x = j_id j) as Hx.
  { destruct Hj as [Hj|Hj]; [|exists j; destruct Hs as (_ & _ & _ & <-); auto].
    destruct (same_queue_row st st' j Hs Hj) as (x & Hx & Hid & Hsp). exists x. rewrite Hsp. auto. }
  apply elem_of_retry_ids in Hx. rewrite Hn in Hx. by apply elem_of_nil in Hx.
Qed.

(** Settling a failed live job moves its row, and nothing else of the two tables. *)
Lemma settle_failed_effect id status f st :
  wf st → is_terminal (Some status) = true → f ∈ live st → j_id f = id → j_status f = Failed →
  ∃ st' h, settle_failed ev id status st = (st', Ok true) ∧ live st' = delete_where (λ j, j_id j = id) (live st) ∧
    history st' = history st ++ [h] ∧ j_id h = id ∧ j_spec h = j_spec f ∧ j_status h = status ∧ jr_error (j_run h) = jr_error (j_run f) ∧
    jr_termination_reason (j_run h) = settled_termination_reason (Some (jr_termination_reason (j_run f))).
Proof using Type.
  intros Hwf Ht Hf Hid Hs. unfold settle_failed.
  destruct (first_where (λ j, j_id j = id ∧ j_status j = Failed) (live st)) as [g|] eqn:Hg.
  2:{ rewrite first_where_None in Hg. by destruct (Hg f). }
  apply first_where_Some in Hg as (Hg & Hgid & _).
  assert (g = f) as -> by (apply (live_inj st Hwf); [done..|congruence]).
  destruct (finish_in_cases ev id status (reason_values (settled_termination_reason
      (Some (jr_termination_reason (j_run f))))) (status_fences (j_created_at f) [Failed]) st Hwf)
    as [(j & Hj & Hm & ->)|[Hn _]].
  - assert (j = f) as -> by (apply (live_inj st Hwf); [done..|]; destruct Hm; congruence).
    do 2 eexists. split_and!; [done| |done|done..]. simpl. apply filter_iff_on. intros x Hx.
    assert (move_where st id (status_fences (j_created_at f) [Failed]) x ↔ j_id x = id); [|tauto].
    split; [by intros [? _]|]. intros Hxid. by rewrite (live_inj st Hwf x f Hx Hf (eq_trans Hxid (eq_sym Hid))).
  - destruct (Hn f Hf). split_and!; simpl; [done..| |done]. by rewrite Hs; apply list_elem_of_singleton.
Qed.

Lemma settle_failed_gone id status st :
  (∀ j, j ∈ live st → j_id j = id → j_status j ≠ Failed) → settle_failed ev id status st = (st, Ok false).
Proof using Type.
  intros Hn. unfold settle_failed.
  destruct (first_where (λ j, j_id j = id ∧ j_status j = Failed) (live st)) as [g|] eqn:Hg; [|done].
  apply first_where_Some in Hg as (Hg & Hgid & Hgs). by destruct (Hn g).
Qed.

(** The bookkeeping of a retry archives the original and leaves nothing to settle. *)
Lemma bookkeeping_effect f st :
  wf st → f ∈ live st → j_status f = Failed →
  ∃ h, live (_finish_retry_bookkeeping (j_id f) st) = delete_where (λ j, j_id j = j_id f) (live st) ∧
    history (_finish_retry_bookkeeping (j_id f) st) = history st ++ [h] ∧ j_id h = j_id f ∧
    j_spec h = j_spec f ∧ j_status h = Archived ∧ jr_error (j_run h) = jr_error (j_run f) ∧
    jr_termination_reason (j_run h) = settled_termination_reason (Some (jr_termination_reason (j_run f))).
Proof using Type.
  intros Hwf Hf Hs. unfold _finish_retry_bookkeeping, mark_job_archived, settle_retry_pending.
  destruct (settle_failed_effect (j_id f) Archived f st Hwf eq_refl Hf eq_refl Hs) as (st1 & h & -> & Hl & Hh & Hrest).
  cbn [fst]. rewrite settle_failed_gone; [by exists h|].
  intros j Hj Hid. rewrite Hl in Hj. by apply elem_of_delete_where in Hj as [_ ?].
Qed.

Lemma bookkeeping_gone id st :
  (∀ j, j ∈ live st → j_id j = id → j_status j ≠ Failed) → _finish_retry_bookkeeping id st = st.
Proof using Type.
  intros Hn. unfold _finish_retry_bookkeeping, mark_job_archived, settle_retry_pending.
  rewrite (settle_failed_gone id Archived st Hn). cbn [fst]. by rewrite (settle_failed_gone id Failed st Hn).
Qed.

(** ** One retry *)

Lemma retry_ids_NoDup st i : wf st → NoDup (retry_ids st i).
Proof using Type.
  intros Hwf. unfold retry_ids. eapply sublist_NoDup; [|apply fmap_sublist, sublist_filter].
  rewrite fmap_app. apply NoDup_app. split_and!; [apply Hwf| |apply Hwf].
  intros k (j & -> & Hj)%list_elem_of_fmap (h & Hid & Hh)%list_elem_of_fmap. by apply (wf_disjoint st Hwf j h).
Qed.

(** What dealing with a failed job changes: its row moves into history, and it may get a retry. *)
Record settles (f : queued_job) (new : option Z) (st st' : store) : Prop := {
  se_sound : sound [] st st';
  se_rows : ∀ j, j ∈ live st' ↔ (j ∈ live st ∧ j_id j ≠ j_id f) ∨
    (new = Some (j_id j) ∧ j_status j = Queued ∧ j ∈ live st');
  se_done : j_id f ∈ j_id <$> history st';
  se_retries : ∀ i, match new with
    | Some k => if decide (i = j_id f) then retry_ids st' i ≡ₚ k :: retry_ids st i
                else retry_ids st' i ≡ₚ retry_ids st i
    | None => retry_ids st' i ≡ₚ retry_ids st i
    end;
  se_unused : ∀ id, unused_id id st → new ≠ Some id → unused_id id st';
}.

Lemma retry_ids_moved f h st st' i :
  wf st → wf st' → f ∈ live st → live st' = delete_where (λ j, j_id j = j_id f) (live st) →
  history st' = history st ++ [h] → j_id h = j_id f → j_spec h = j_spec f →
  retry_ids st' i ≡ₚ retry_ids st i.
Proof using Type.
  intros Hwf Hwf' Hf Hl Hh Hid Hsp. apply NoDup_Permutation; [by apply retry_ids_NoDup..|]. intros k.
  rewrite !elem_of_retry_ids, Hl, Hh. setoid_rewrite elem_of_delete_where. setoid_rewrite elem_of_app.
  setoid_rewrite list_elem_of_singleton. split.
  - intros (j & [[Hj _]|[Hj| ->]] & Hp & Hk); [exists j; auto..|]. exists f. rewrite <-Hsp. split_and!; [by left|done|congruence].
  - intros (j & [Hj|Hj] & Hp & Hk); [|exists j; auto]. destruct (decide (j_id j = j_id f)) as [He|]; [|exists j; auto].
    assert (j = f) as -> by (by apply (live_inj st Hwf)). exists h. rewrite Hsp. split_and!; [auto|done|congruence].
Qed.

Lemma finish_bookkeeping_sound f st : inv [] st → sound [] st (_finish_retry_bookkeeping (j_id f) st).
Proof using Type.
  intros Hi. unfold _finish_retry_bookkeeping.
  eapply sound_trans; [by apply (settle_failed_sound ev (j_id f) Archived)|].
  intros Hi1. by apply (settle_failed_sound ev (j_id f) Failed).
Qed.

Lemma settle_failed_entries id status st :
  ready (settle_failed ev id status st).1 = ready st ∧ blocked (settle_failed ev id status st).1 = blocked st.
Proof using Type.
  unfold settle_failed. destruct (first_where _ (live st)); [|done]. unfold _finish_in.
  by destruct (filter _ (live st)) as [|? [|]].
Qed.

Lemma moved_settles f h st st' :
  inv [] st → sound [] st st' → f ∈ live st →
  live st' = delete_where (λ j, j_id j = j_id f) (live st) → history st' = history st ++ [h] →
  j_id h = j_id f → j_spec h = j_spec f → ready st' = ready st → blocked st' = blocked st →
  settles f None st st'.
Proof using Type.
  intros Hi Hsound Hf Hl Hh Hid Hsp Hr Hb. split.
  - done.
  - intros j. rewrite Hl, elem_of_delete_where. split; [by left|]. by intros [?|[? _]].
  - rewrite Hh, fmap_app. apply elem_of_app. right. rewrite <-Hid. apply list_elem_of_here.
  - intros i. eapply retry_ids_moved; [apply Hi|apply Hsound|done..].
  - intros id [Hul Huh Hur Hub] _. split; rewrite ?Hr, ?Hb; [| |done|done].
    + intros j. rewrite Hl. intros [Hj _]%elem_of_delete_where. by apply Hul.
    + intros j. rewrite Hh. intros [Hj| ->%list_elem_of_singleton]%elem_of_app; [by apply Huh|].
      rewrite Hid. by apply Hul.
Qed.

Lemma bookkeeping_entries id st :
  ready (_finish_retry_bookkeeping id st) = ready st ∧ blocked (_finish_retry_bookkeeping id st) = blocked st.
Proof using Type.
  unfold _finish_retry_bookkeeping, mark_job_archived, settle_retry_pending.
  destruct (settle_failed_entries id Archived st) as [H1 H2].
  destruct (settle_failed_entries id Failed (settle_failed ev id Archived st).1) as [H3 H4].
  split; congruence.
Qed.

Lemma bookkeeping_settles f st :
  inv [] st → f ∈ live st → j_status f = Failed → settles f None st (_finish_retry_bookkeeping (j_id f) st).
Proof using Type.
  intros Hi Hf Hs. destruct (bookkeeping_effect f st (proj1 Hi) Hf Hs) as (h & Hl & Hh & Hid & Hsp & _).
  destruct (bookkeeping_entries (j_id f) st) as [Hr Hb].
  eapply moved_settles; [done|by apply finish_bookkeeping_sound|done..].
Qed.

Lemma settle_pending_settles f st :
  inv [] st → f ∈ live st → j_status f = Failed → settles f None st (settle_retry_pending ev (j_id f) st).1.
Proof using Type.
  intros Hi Hf Hs. destruct (settle_failed_entries (j_id f) Failed st) as [Hr Hb].
  pose proof (settle_failed_sound ev (j_id f) Failed st Hi eq_refl) as Hsound.
  destruct (settle_failed_effect (j_id f) Failed f st (proj1 Hi) eq_refl Hf eq_refl Hs)
    as (st1 & h & Heq & Hl & Hh & Hid & Hsp & _).
  unfold settle_retry_pending. rewrite Heq in *. by eapply moved_settles.
Qed.

Definition unnamed (f : queued_job) : Prop :=
  match js_job_name (j_spec f) with None => True | Some n => n = "" end.

Lemma retry_row_unnamed f delay : unnamed f → js_job_name (retry_row f delay) = None.
Proof using Type.
  unfold unnamed, retry_row. simpl. destruct (js_job_name (j_spec f)); [|done]. intros ->. by rewrite decide_True.
Qed.

Lemma create_unnamed id sp st :
  js_job_name sp = None → e_partitioned ev = false →
  create_job ev threshold id sp st = (insert_job ev (new_job id (e_now ev) sp) st, CreatedLive (new_job id (e_now ev) sp)).
Proof using Type. intros Hn Hp. unfold create_job, replace_named, far_future. by rewrite Hn, Hp. Qed.

(** A job that has no retry yet gets one, queued for the end of the delay, and is archived. *)
Lemma retry_job_creates (Hev : env_ok ev) f exc countdown id st :
  inv [] st → f ∈ live st → j_status f = Failed → unused_id id st → unnamed f → e_partitioned ev = false →
  retry_ids st (j_id f) = [] →
  let j := new_job id (e_now ev) (retry_row f (next_delay f exc countdown)) in
  ∃ st' h, _retry_job f exc countdown id st = (st', NewRetry (CreatedLive j)) ∧
    live st' = delete_where (λ x, j_id x = j_id f) (live st) ++ [j] ∧ history st' = history st ++ [h] ∧
    has_entry st' id ∧ j_id h = j_id f ∧ j_spec h = j_spec f ∧ j_status h = Archived ∧
    jr_error (j_run h) = jr_error (j_run f) ∧
    jr_termination_reason (j_run h) = settled_termination_reason (Some (jr_termination_reason (j_run f))).
Proof using Type.
  intros Hi Hf Hs Hu Hn Hp Hr%latest_retry_None j; [|apply Hi].
  unfold _retry_job, retry_after_look. rewrite Hr, create_unnamed by (by apply retry_row_unnamed || done).
  fold j. set (st1 := insert_job ev j st).
  assert (inv [] st1) as Hi1 by (by apply (insert_job_sound (X:=[]) ev Hev)).
  assert (f ∈ live st1) as Hf1 by (by apply elem_of_app; left).
  destruct (bookkeeping_effect f st1 (proj1 Hi1) Hf1 Hs) as (h & Hl & Hh & Hrest).
  do 2 eexists. split; [done|]. rewrite Hl, Hh. split_and!; [|done| |apply Hrest..].
  - unfold delete_where. simpl. rewrite filter_app. f_equal. rewrite filter_cons, decide_True; [done|].
    simpl. intros Hid. by apply (un_live _ _ Hu f).
  - destruct (bookkeeping_entries (j_id f) st1) as [Hre Hbl]. unfold has_entry. rewrite Hre, Hbl.
    apply (ensure_entry_has ev j st).
Qed.

(** [_retry_job] on a failed live job: the retry is created unless there is one. *)
Lemma retry_job_settles (Hev : env_ok ev) f exc countdown id st :
  inv [] st → f ∈ live st → j_status f = Failed → unused_id id st → unnamed f → e_partitioned ev = false →
  settles f (if retry_ids st (j_id f) then Some id else None) st (_retry_job f exc countdown id st).1.
Proof using Type.
  intros Hi Hf Hs Hu Hn Hp. unfold _retry_job, retry_after_look.
  destruct (latest_retry st (j_id f)) as [x|] eqn:Hlr.
  { assert (retry_ids st (j_id f) ≠ []) as Hne by (intros Hr%latest_retry_None; [congruence|apply Hi]).
    destruct (retry_ids st (j_id f)); [done|]. by apply bookkeeping_settles. }
  apply latest_retry_None in Hlr; [|apply Hi]. rewrite Hlr.
  set (sp := retry_row f (next_delay f exc countdown)).
  rewrite create_unnamed by (by apply retry_row_unnamed || done). set (j := new_job id (e_now ev) sp). cbn [fst].
  set (st1 := insert_job ev j st).
  pose proof (insert_job_sound (X:=[]) ev Hev j st Hi Hu) as Hs1.
  assert (f ∈ live st1) as Hf1 by (by apply elem_of_app; left).
  pose proof (bookkeeping_settles f st1 (proj1 Hs1) Hf1 Hs) as [Hsound Hrows Hdone Hret Hun].
  assert (id ≠ j_id f) as Hne by (intros ->; by apply (un_live _ _ Hu f)).
  assert (∀ i, retry_ids st1 i ≡ₚ if decide (i = j_id f) then id :: retry_ids st i else retry_ids st i) as Hret1.
  { intros i. unfold retry_ids. simpl. rewrite <-app_assoc, (Permutation_app_comm [j]), app_assoc.
    rewrite filter_app, fmap_app, Permutation_app_comm, filter_cons.
    case_decide as Hpar; simpl in Hpar.
    - rewrite decide_True by congruence. done.
    - rewrite decide_False by congruence. done. }
  split.
  - eapply sound_trans; [exact Hs1|done].
  - intros x. rewrite Hrows. simpl. rewrite elem_of_app, list_elem_of_singleton. split.
    + intros [[[Hx|Hx] Hxid]|[? _]]; [by left| |done]. subst x. right. split_and!; [done|done|].
      left. split; [by right|done].
    + intros [[Hx Hxid]|(_ & _ & Hx)]; [left; auto|done].
  - done.
  - intros i. specialize (Hret i). specialize (Hret1 i). simpl in Hret. case_decide; (etrans; [exact Hret|done]).
  - intros k Hk Hnk. apply Hun; [|done]. apply unused_insert_job; [done|]. simpl. congruence.
Qed.

(** ** The recovery sweep *)

(** What the sweep does to the retries of a job: one is created if one is owed and there is none. *)
Definition retried_once (ids : list Z) (owed : Prop) (before after : list Z) : Prop :=
  (owed → before = [] → ∃ id, id ∈ ids ∧ after = [id]) ∧ (¬ owed ∨ before ≠ [] → after ≡ₚ before).

Definition owes (l : list queued_job) (i : Z) : Prop :=
  ∃ f, f ∈ l ∧ j_id f = i ∧ retry_budget_left (j_spec f) = true.

Lemma recover_loop_spec (Hev : env_ok ev) (Hp : e_partitioned ev = false) l : ∀ ids k st,
  inv [] st → NoDup (j_id <$> l) → (∀ f, f ∈ l → f ∈ live st ∧ j_status f = Failed ∧ unnamed f) →
  NoDup ids → (∀ id, id ∈ ids → unused_id id st) → (length l <= length ids)%nat →
  ∃ st' n, recover_loop l ids k st = (st', n) ∧ sound [] st st' ∧
    (∀ j, j ∈ live st' → (j ∈ live st ∧ j_id j ∉ j_id <$> l) ∨ j_status j = Queued) ∧
    (∀ f, f ∈ l → j_id f ∈ j_id <$> history st') ∧
    ∀ i, retried_once ids (owes l i) (retry_ids st i) (retry_ids st' i).
Proof using Type.
  induction l as [|f l IH]; intros ids k st Hi Hnd Hl Hids Hun Hlen; cbn [recover_loop].
  { exists st, k. split_and!; [done|by apply sound_refl| | |].
    - intros j Hj. left. split; [done|by apply not_elem_of_nil].
    - by intros f ?%elem_of_nil.
    - intros i. split; [intros (f & ?%elem_of_nil & _); done|done]. }
  rewrite fmap_cons in *. apply NoDup_cons in Hnd as [Hfl Hnd]. destruct (Hl f (list_elem_of_here _ _)) as (Hf & Hs & Hn).
  destruct ids as [|id ids]; [simpl in Hlen; lia|]. apply NoDup_cons in Hids as [Hidn Hids].
  simpl in Hlen.
  assert (∀ new st1 ids1 k1, settles f new st st1 → (new = None ∨ new = Some id) → ids1 `sublist_of` id :: ids →
    (new = Some id → id ∉ ids1) → (length l <= length ids1)%nat →
    (new = if retry_budget_left (j_spec f) then (if retry_ids st (j_id f) then Some id else None) else None) →
    ∃ st' n, recover_loop l ids1 k1 st1 = (st', n) ∧ sound [] st st' ∧
      (∀ j, j ∈ live st' → (j ∈ live st ∧ j_id j ∉ j_id f :: (j_id <$> l)) ∨ j_status j = Queued) ∧
      (∀ g, g ∈ f :: l → j_id g ∈ j_id <$> history st') ∧
      ∀ i, retried_once (id :: ids) (owes (f :: l) i) (retry_ids st i) (retry_ids st' i)) as Hgo.
  { intros new st1 ids1 k1 [Hs1 Hrows Hdone Hret Hun1] Hnew Hsub Hnid Hlen1 Hval.
    assert (∀ x, x ∈ ids1 → x ∈ id :: ids) as Hin by (by apply sublist_subseteq).
    destruct (IH ids1 k1 st1) as (st' & n & -> & Hs' & Hlive & Hdone' & Hret').
    - apply Hs1.
    - done.
    - intros g Hg. destruct (Hl g) as (Hgl & Hgs & Hgn); [by right|]. split_and!; [|done..].
      apply Hrows. left. split; [done|]. intros Heq. apply Hfl. rewrite <-Heq. by apply list_elem_of_fmap_2.
    - eapply sublist_NoDup; [|exact Hsub]. by apply NoDup_cons.
    - intros x Hx. apply Hun1; [by apply Hun, Hin|]. intros ->. destruct Hnew as [?|[= <-]]; [done|].
      by apply (Hnid eq_refl).
    - done.
    - exists st', n. split_and!; [done|by eapply sound_trans| | |].
      + intros j Hj. destruct (Hlive j Hj) as [[Hj1 Hjl]|?]; [|by right].
        apply Hrows in Hj1 as [[Hj1 Hne]|(_ & ? & _)]; [left|by right]. split; [done|].
        by rewrite not_elem_of_cons.
      + intros g [->|Hg]%elem_of_cons; [|by apply Hdone'].
        apply list_elem_of_fmap in Hdone as (h & -> & Hh). apply list_elem_of_fmap_2.
        eapply elem_of_prefix; [exact Hh|]. apply Hs'.
      + intros i. specialize (Hret i). destruct (Hret' i) as [Howed Hnot].
        destruct (decide (i = j_id f)) as [->|Hne].
        * assert (¬ owes l (j_id f)) as Hno.
          { intros (g & Hg & Hgid & _). apply Hfl. rewrite <-Hgid. by apply list_elem_of_fmap_2. }
          specialize (Hnot (or_introl Hno)). split.
          -- intros (g & Hg & Hgid & Hb) Hnil. apply elem_of_cons in Hg as [->|Hg].
             2:{ destruct Hno. by exists g. }
             rewrite Hb, Hnil in Hval. subst new. rewrite Hnil in Hret. exists id.
             split; [apply list_elem_of_here|]. rewrite Hret in Hnot. by apply Permutation_singleton_r in Hnot.
          -- intros Hor. etrans; [exact Hnot|]. destruct new as [x|]; [|done]. exfalso.
             destruct (retry_budget_left (j_spec f)) eqn:Hb; [|done].
             destruct Hor as [Hno'|Hne]; [apply Hno'; exists f; split_and!; [apply list_elem_of_here|done..]|].
             by destruct (retry_ids st (j_id f)).
        * assert (retry_ids st1 i ≡ₚ retry_ids st i) as Heq by (by destruct new).
          assert (owes (f :: l) i ↔ owes l i) as Hiff.
          { split; intros (g & Hg & Hgid & Hb); exists g; [|split_and!; [by right|done..]].
            apply elem_of_cons in Hg as [->|Hg]; [congruence|done]. }
          assert (retry_ids st1 i = [] ↔ retry_ids st i = []) as Hnil.
          { split; intros H0; rewrite H0 in Heq; [by apply Permutation_nil_l in Heq|by apply Permutation_nil_r in Heq]. }
          split; rewrite Hiff.
          -- intros Ho H0. destruct Howed as (x & Hx & ->); [done|by apply Hnil|]. exists x. auto.
          -- intros Hor. rewrite <-Heq. apply Hnot. by rewrite Hnil. }
  destruct (retry_budget_left (j_spec f)) eqn:Hb.
  - apply (Hgo (if retry_ids st (j_id f) then Some id else None)).
    + apply retry_job_settles; [done..|apply Hun, list_elem_of_here|done|done].
    + destruct (retry_ids st (j_id f)); auto.
    + by apply sublist_cons.
    + done.
    + lia.
    + done.
  - apply (Hgo None); [by apply settle_pending_settles|by left|done|done|simpl; lia|done].
Qed.

(** ** Theorems *)


(** [_retry_job] is idempotent. Once it has dealt with a failed job, a second call, by whatever
    process, for whatever exception and with whatever id, returns the retry that is there and changes
    nothing. *)
Theorem retry_idempotent (Hev : env_ok ev) f exc countdown id st exc' countdown' id' :
  inv [] st → f ∈ live st → j_status f = Failed → unused_id id st → unnamed f → e_partitioned ev = false →
  let st1 := (_retry_job f exc countdown id st).1 in
  ∃ x, _retry_job f exc' countdown' id' st1 = (st1, Existing x) ∧ j_parent x = Some (j_id f).
Proof using Type.
  intros Hi Hf Hs Hu Hn Hp st1.
  destruct (retry_job_settles Hev f exc countdown id st Hi Hf Hs Hu Hn Hp) as [Hsound Hrows _ Hret _].
  fold st1 in Hsound, Hrows, Hret. unfold _retry_job at 1, retry_after_look.
  destruct (latest_retry st1 (j_id f)) as [x|] eqn:Hlr.
  - exists x. split.
    + f_equal. apply bookkeeping_gone. intros j Hj Hid.
      apply Hrows in Hj as [[_ ?]|(_ & Hq & _)]; [done|congruence].
    + unfold latest_retry in Hlr. apply head_Some_elem_of in Hlr.
      by apply elem_of_order_by, list_elem_of_filter in Hlr as [? _].
  - apply latest_retry_None in Hlr; [|apply Hsound]. exfalso. specialize (Hret (j_id f)).
    destruct (retry_ids st (j_id f)) as [|k l] eqn:Hr; [rewrite decide_True in Hret by done|];
      rewrite Hlr in Hret; by apply Permutation_nil_l in Hret.
Qed.

Lemma exponential_delay_bounds backoff retry_count intervals :
  (∀ a b, (a <= b)%Qc → (a <= uniform a b <= b)%Qc) → (0 <= backoff)%Qc → 0 <= retry_count →
  (∀ cap, RETRY_BACKOFF_MAX = Some cap → (0 <= cap)%Qc) → default [] intervals = [] →
  let d := compute_retry_delay backoff retry_count intervals in
  (0 <= d <= backoff * Qc_of_Z (2 ^ retry_count))%Qc ∧
  ∀ cap, RETRY_BACKOFF_MAX = Some cap → cap ≠ 0%Qc → (d <= cap)%Qc.
Proof using Type.
  intros Hu Hb Hc Hcap Hnil d.
  set (raw := (backoff * Qc_of_Z (2 ^ retry_count))%Qc).
  assert (0 <= raw)%Qc as Hraw.
  { rewrite <-(Qcmult_0_l (Qc_of_Z (2 ^ retry_count))). apply Qcmult_le_compat_r; [done|].
    replace 0%Qc with (Qc_of_Z 0) by apply Z2Qc_inj_0.
    apply (proj1 (Z2Qc_inj_le 0 (2 ^ retry_count))). by apply Z.pow_nonneg. }
  set (capped := match RETRY_BACKOFF_MAX with
    | Some cap => if decide (cap = 0%Qc) then raw else if decide (cap < raw)%Qc then cap else raw
    | None => raw end).
  assert ((0 <= capped <= raw)%Qc ∧ ∀ cap, RETRY_BACKOFF_MAX = Some cap → cap ≠ 0%Qc → (capped <= cap)%Qc)
    as [[H0 H1] H2].
  { subst capped. destruct RETRY_BACKOFF_MAX as [m|]; [|split; [split; [done|apply Qcle_refl]|by intros]].
    specialize (Hcap m eq_refl). case_decide as Hz.
    { split; [split; [done|apply Qcle_refl]|]. intros cap [= <-]. done. }
    case_decide as Hlt.
    - split; [split; [done|by apply Qclt_le_weak]|]. intros cap [= <-] _. apply Qcle_refl.
    - split; [split; [done|apply Qcle_refl]|]. intros cap [= <-] _. by apply Qcnot_lt_le. }
  assert (d = if RETRY_JITTER then uniform 0%Qc capped else capped) as ->.
  { subst d. unfold compute_retry_delay. by destruct intervals as [[]|]. }
  destruct RETRY_JITTER; [|done]. destruct (Hu _ _ H0) as [Hu0 Hu1].
  split; [split; [done|by eapply Qcle_trans]|]. intros cap Hm Hz. eapply Qcle_trans; [exact Hu1|by apply H2].
Qed.

(** The delay between attempts. Without fixed intervals the delay is never negative and never
    longer than the exponential backoff, and a configured maximum caps it, with or without jitter;
    fixed intervals are taken as they are, the last one repeating. *)
Theorem compute_retry_delay_bounds backoff retry_count intervals :
  (∀ a b, (a <= b)%Qc → (a <= uniform a b <= b)%Qc) → (0 <= backoff)%Qc → 0 <= retry_count →
  (∀ cap, RETRY_BACKOFF_MAX = Some cap → (0 <= cap)%Qc) →
  let d := compute_retry_delay backoff retry_count intervals in
  match intervals with
  | Some ((_ :: _) as l) => l !! Z.to_nat (Z.min retry_count (Z.of_nat (length l) - 1)) = Some d
  | _ => (0 <= d <= backoff * Qc_of_Z (2 ^ retry_count))%Qc ∧
      ∀ cap, RETRY_BACKOFF_MAX = Some cap → cap ≠ 0%Qc → (d <= cap)%Qc
  end.
Proof using Type.
  intros Hu Hb Hc Hcap d. subst d.
  destruct intervals as [[|q l]|]; [by apply exponential_delay_bounds| |by apply exponential_delay_bounds].
  unfold compute_retry_delay. set (n := Z.of_nat (length (q :: l))).
  assert (0 < n) by (subst n; simpl; lia). set (k := Z.min retry_count (n - 1)).
  destruct (lookup_lt_is_Some_2 (q :: l) (Z.to_nat k)) as [x Hx]; [subst k n; lia|].
  unfold py_index. rewrite (proj2 (Z.ltb_ge k 0)) by (subst k; lia). by rewrite Hx.
Qed.

(** An outcome is recorded once. A child that lost its connection hands its outcome to the
    supervisor without knowing whether its own write was committed; if it was, or if another worker
    took the job over meanwhile, the attempt of the handle is closed and the supervisor discards the
    outcome: nothing is written and no retry is created. *)
Theorem stale_outcome_discarded o h id st :
  stale st h → uo_attempt o = Some h →
  is_Some (job_by_id st (uo_job_id o)) ∨ is_Some (history_by_id st (uo_job_id o)) →
  persist_outcome o id st = (st, Ok Discarded).
Proof using Type.
  intros Hs Ha Hj. unfold persist_outcome, _mark_failed. rewrite Ha.
  destruct (stale_rejected ev st (uo_job_id o) (uo_output o) (uo_error o) (uo_traceback o)
    (if uo_will_retry o then pending_reason "" else "") (uo_expected_version o) h Hs Hj) as [H1 H2].
  by destruct (uo_success o); [rewrite H1|rewrite H2].
Qed.
End executor.

(** ** Witnesses *)

(** Job 11 has failed, its retry is owed, and the worker is dead. *)
Definition demo_owed : store :=
  (_mark_failed (demo_env 4000) 11 "boom" "" (Some 0) true "error" (Some demo_handle) demo_claimed).1.

(** A minute and a half later. *)
Definition recovery_env : env := demo_env 90000000.

Lemma demo_owed_inv : inv [] demo_owed.
Proof.
  unfold demo_owed, _mark_failed.
  destruct (mark_job_failed _ _ _ _ _ _ _ _ _) as [st' r] eqn:E.
  apply (mark_job_failed_sound (X:=[]) (demo_env 4000)) in E as [[? _] _]; [done|apply demo_env_ok|apply demo_claimed_inv|].
  intros a. rewrite demo_claimed_attempts. by intros ->%list_elem_of_singleton.
Qed.

Definition demo_failed_job : queued_job := default demo_job (job_by_id demo_owed 11).

Lemma demo_owed_live : live demo_owed = [demo_job2; demo_failed_job] ∨ live demo_owed = [demo_failed_job; demo_job2].
Proof. vm_compute. auto. Qed.

Lemma demo_owed_owing :
  filter (owed_since (e_now recovery_env - 60000000)) (live demo_owed) = [demo_failed_job].
Proof. vm_compute. reflexivity. Qed.

#[local] Abbreviation no_tasks := (λ _ : string, @None (@task_attrs unit)).
#[local] Abbreviation least := (λ a b : Qc, a).

(** The classes are irrelevant here: no task declares a policy. *)
#[local] Abbreviation run_recovery limit ids st :=
  (recover_lost_retries recovery_env 1 least no_tasks None false 60000000 limit ids st).


Lemma demo_failed_live : demo_failed_job ∈ live demo_owed ∧ j_status demo_failed_job = Failed.
Proof.
  assert (demo_failed_job ∈ [demo_failed_job]) as Hin by apply list_elem_of_here.
  rewrite <-demo_owed_owing in Hin. by apply list_elem_of_filter in Hin as [[? _] ?].
Qed.

Lemma demo_unused_21 : unused_id 21 demo_owed.
Proof. apply unused_id_intro, (bool_decide_unpack _). by vm_compute. Qed.

Lemma demo_failed_unnamed : unnamed demo_failed_job.
Proof. by vm_compute. Qed.

(** A retry, created by the worker and asked for again by the sweep. *)
#[local] Abbreviation demo_retry id st :=
  (_retry_job recovery_env 1 least no_tasks None false demo_failed_job None None id st).

Lemma retry_idempotent_witness :
  ∃ x, demo_retry 22 (demo_retry 21 demo_owed).1 = ((demo_retry 21 demo_owed).1, Existing x) ∧
    j_parent x = Some (j_id demo_failed_job).
Proof.
  apply (retry_idempotent recovery_env 1 least no_tasks None false (demo_env_ok _) demo_failed_job None None 21
    demo_owed None None 22 demo_owed_inv (proj1 demo_failed_live) (proj2 demo_failed_live) demo_unused_21
    demo_failed_unnamed eq_refl).
Defined.

Lemma compute_retry_delay_bounds_witness :
  let d := compute_retry_delay least (Some (Qc_of_Z 60)) true (Qc_of_Z 2) 9 None in
  (0 <= d <= Qc_of_Z 2 * Qc_of_Z (2 ^ 9))%Qc ∧ (d <= Qc_of_Z 60)%Qc.
Proof.
  destruct (compute_retry_delay_bounds least (Some (Qc_of_Z 60)) true (Qc_of_Z 2) 9 None) as [H1 H2].
  - intros a b Hab. split; [apply Qcle_refl|exact Hab].
  - discriminate.
  - lia.
  - intros cap [= <-]. discriminate.
  - split; [exact H1|]. apply (H2 (Qc_of_Z 60) eq_refl). discriminate.
Defined.

Definition demo_outcome : UnpersistedOutcome :=
  {| uo_job_id := 11; uo_success := false; uo_expected_version := Some 0; uo_attempt := Some demo_handle;
     uo_output := ""; uo_error := "boom"; uo_traceback := ""; uo_will_retry := true; uo_countdown := None |}.

(** The worker's own success was committed. *)
Lemma stale_outcome_discarded_witness :
  persist_outcome (demo_env 5000) 1 least no_tasks None false demo_outcome 21 demo_done
  = (demo_done, Ok Discarded).
Proof.
  apply (stale_outcome_discarded (demo_env 5000) 1 least no_tasks None false demo_outcome demo_handle 21 demo_done
    demo_stale eq_refl). right. vm_compute. eauto.
Defined.

(** ** What the look does not see *)

(** The look for a retry and the creation are two transactions: when the sweep and the worker look
    before either creates, an unnamed job gets two retries. *)
Theorem racing_sweep_retries_twice :
  let look := latest_retry demo_owed 11 in
  let st1 := (retry_after_look recovery_env 1 least no_tasks None false look demo_failed_job None None 21 demo_owed).1 in
  let st2 := (retry_after_look recovery_env 1 least no_tasks None false look demo_failed_job None None 22 st1).1 in
  retry_ids st2 11 = [21; 22].
Proof. vm_compute. reflexivity. Qed.

(** A partitioned database, and a task that asks for a retry in a week. *)
Definition partitioned_env (now : time) : env :=
  {| e_now := now; e_token := "tok"; e_pid := 7; e_slot := 0; e_conc := ∅; e_rate := ∅;
     e_partitioned := true; e_entry_locked := λ _, false; e_row_locked := λ _, false;
     e_tag_lock := λ _, true |}.

(** A retry due after the staging threshold waits outside the live table, where the look does not
    see it: the worker stages the retry and dies before the bookkeeping, and the sweep makes
    another. *)
Theorem staged_retry_not_seen :
  let ev := partitioned_env 90000000 in
  let week := Some (Qc_of_Z 604800) in
  let st1 := (create_job ev 1 21
      (retry_row ev demo_failed_job (next_delay least no_tasks None false demo_failed_job None week)) demo_owed).1 in
  let st2 := (recover_lost_retries ev 1 least no_tasks None false 60000000 100 [22] st1).1 in
  ((λ s, js_parent_job_id (sj_spec s)) <$> staged st1) = [Some 11] ∧ latest_retry st1 11 = None ∧ retry_ids st2 11 = [22] ∧
  length (staged st2) = 1%nat.
Proof. vm_compute. done. Qed.
