(* ===== verification/Child.v ===== *)
(** * Running one job (core/worker.py, JobExecutor)

    [execute_job] runs a claimed job in the calling process, [run_job_in_child] in a worker child,
    which may lose its database connection while it records the outcome and then hands the outcome
    over to its supervisor. [cleanup_stale_jobs] is the sweep over jobs that run too long. The task
    itself is an argument of the model: what it returned or raised. Callbacks are task code whose
    exceptions are caught; they are not modelled, nor are signals, alarms and the kill of a hung
    process. *)

From S2P Require Import Prelude Sql PyString Models Retry Attempts Ready History Store StoreInv Dependents Claim Complete Demo Outcomes Limits System Executor.
From Stdlib Require Import QArith_base Qcanon.
#[local] Open Scope string_scope.
#[local] Open Scope list_scope.
#[local] Open Scope Z_scope.

(** An exception with its [str] and the formatted traceback. *)
Record raised {exn_class : Type} : Type := {
  ra_exception : @task_exception exn_class;
  ra_message : string;
  ra_traceback : string;
}.
Arguments raised : clear implicits.

(** What invoking the task gave; [Returned] holds the serialized result. *)
Inductive task_run {exn_class : Type} : Type :=
  | Returned (output : string)
  | Failing (e : raised exn_class).
Arguments task_run : clear implicits.

(** The write of the outcome: answered, or the connection was lost; [behind] is the store the
    lost write left in the database. *)
Inductive write_fate : Type :=
  | Answered
  | Lost (behind : store).

Section child.
Context (ev : env) (threshold : Z) (uniform : Qc → Qc → Qc).
Context {exn_class : Type} (isinstance : exn_class → exn_class → bool).
Context (load : string → option (@task_attrs exn_class)).
Context (RETRY_BACKOFF_MAX : option Qc) (RETRY_JITTER : bool).
(** The exception object behind an error of the store. *)
Context (raising : store_error → raised exn_class).

#[local] Abbreviation mark_failed_by :=
  (_mark_failed ev).
#[local] Abbreviation retry_by :=
  (retry_found ev threshold uniform load RETRY_BACKOFF_MAX RETRY_JITTER).
#[local] Abbreviation should_retry :=
  (Executor._should_retry isinstance load).

(** The [except Exception] branch: the failure and its retry, in this process. *)
Definition fail_and_retry (j : queued_job) (e : raised exn_class) (expected : option Z)
    (attempt : option AttemptHandle) (id : Z) (st : store) : store * result execution_error handled :=
  let will_retry := should_retry j (Some (ra_exception e)) in
  match mark_failed_by (j_id j) (ra_message e) (ra_traceback e) expected will_retry "" attempt st with
  | (st1, Ok f) => retry_by will_retry f (Some (ra_exception e)) None id st1
  | (st1, Err err) => (st1, fenced_out err)
  end.

(** [execute_job]: [claimed] is the job's id, [attempt] the handle that rides on it; the job is read
    again first. A job that is neither running nor queued is skipped. *)
Definition execute_job (claimed : Z) (attempt : option AttemptHandle) (run : queued_job → task_run exn_class)
    (id : Z) (st : store) : store * result execution_error handled :=
  match get_job_by_id ev st claimed with
  | FLive j | FHistory j =>
      let expected := Some (j_version j) in
      if decide (j_status j ∈ [Running; Queued]) then
        match run j with
        | Failing e => fail_and_retry j e expected attempt id st
        | Returned output =>
            match mark_job_success ev (get_job_by_id ev st (j_id j)) (j_id j) (Text output) expected attempt st with
            | (st1, Ok f) =>
                match found_job f with
                | Some _ => (cascade_if_retry ev (j_id j) f st1, Ok Recorded)
                | None => (st1, Err AttributeError)
                end
            | (st1, Err JobFencingError) => (st1, Ok Discarded)
            | (st1, Err err) => fail_and_retry j (raising err) expected attempt id st1
            end
        end
      else (st, Ok Discarded)
  | _ => (st, Err AttributeError)
  end.

(** The outcome the child leaves for its supervisor. *)
Definition unpersisted (j : queued_job) (h : AttemptHandle) (success : bool) (output error traceback : string)
    (will_retry : bool) (countdown : option Qc) : UnpersistedOutcome :=
  {| uo_job_id := j_id j; uo_success := success; uo_expected_version := Some (j_version j);
     uo_attempt := Some h; uo_output := output; uo_error := error; uo_traceback := traceback;
     uo_will_retry := will_retry; uo_countdown := countdown |}.

(** The failure branch of the child: every exception of the bookkeeping is logged and dropped. *)
Definition child_fails (j : queued_job) (h : AttemptHandle) (e : raised exn_class) (fate : write_fate)
    (id : Z) (st : store) : store * option UnpersistedOutcome :=
  let will_retry := should_retry j (Some (ra_exception e)) in
  match fate with
  | Lost behind =>
      (behind, Some (unpersisted j h false "" (ra_message e) (ra_traceback e) will_retry
                     (retry_countdown (Some (ra_exception e)))))
  | Answered => ((fail_and_retry j e (Some (j_version j)) (Some h) id st).1, None)
  end.

(** [run_job_in_child]: the job is the one the parent claimed, handed over whole. The exit code is 0
    for success and for a superseded success, 1 otherwise; [None]: an exception escapes (the job is
    gone). *)
Definition run_job_in_child (j : queued_job) (h : AttemptHandle) (run : task_run exn_class) (fate : write_fate)
    (id : Z) (st : store) : store * option UnpersistedOutcome * option Z :=
  match run with
  | Failing e => (child_fails j h e fate id st, Some 1)
  | Returned output =>
      match fate with
      | Lost behind => (behind, Some (unpersisted j h true output "" "" false None), Some 0)
      | Answered =>
          match mark_job_success ev (get_job_by_id ev st (j_id j)) (j_id j) (Text output)
                  (Some (j_version j)) (Some h) st with
          | (st1, Ok f) =>
              (cascade_if_retry ev (j_id j) f st1, None,
               match found_job f with Some _ => Some 0 | None => None end)
          | (st1, Err JobFencingError) => (st1, None, Some 0)
          | (st1, Err err) => (child_fails j h (raising err) Answered id st1, Some 1)
          end
      end
  end.

(** ** The stale sweep *)

(** [jobs[job.id] = ...]: a dictionary keeps a key at its first position. *)
Fixpoint put_job (j : queued_job) (l : list queued_job) : list queued_job :=
  match l with
  | [] => [j]
  | x :: l => if decide (j_id x = j_id j) then j :: l else x :: put_job j l
  end.

(** [if queue_names: .. WHERE queue_name IN ..] *)
Definition of_queues (queue_names : list string) (j : queued_job) : Prop :=
  queue_names = [] ∨ js_queue_name (j_spec j) ∈ queue_names.
#[global] Instance of_queues_dec queue_names j : Decision (of_queues queue_names j).
Proof. apply _. Defined.

(** The join of queued jobs and their open attempts in the order of the attempts, collected into a
    dictionary: each job as its newest open attempt shows it. *)
Definition running_jobs (queue_names : list string) (st : store) : list queued_job :=
  foldl (λ jobs a,
      match first_where (λ j, j_id j = at_job_id a ∧ j_status j = Queued ∧ of_queues queue_names j) (live st) with
      | Some j => put_job (overlay_running j (Some a)) jobs
      | None => jobs
      end)
    [] (order_by attempt_id_le (filter (λ a, at_finished_at a = None) (attempts st))).

Definition get_running_jobs (queue_name : option string) (st : store) : list queued_job :=
  running_jobs (match queue_name with Some q => if decide (q = "") then [] else [q] | None => [] end) st.

(** Twice the timeout, or an hour. *)
Definition stale_threshold (sp : job_spec) : Z :=
  match js_timeout_seconds sp with
  | Some t => if decide (t = 0) then 3600 else t * 2
  | None => 3600
  end.

Definition running_duration (started : time) : time := e_now ev - started.

Definition stale_error (duration : time) (threshold_seconds : Z) : string :=
  String.append "Worker crashed or was killed (running for "
    (String.append (py_str_int (Z.quot duration usec_per_sec))
      (String.append "s, threshold " (String.append (py_str_int threshold_seconds) "s)"))).

(** One round of the loop of [cleanup_stale_jobs]; [j] is the job as it was read at its start, and
    an exception ends the sweep. *)
Definition cleanup_one (j : queued_job) (id : Z) (st : store) : store * result execution_error handled :=
  match jr_started_at (j_run j) with
  | None =>
      match mark_job_failed ev (get_job_by_id ev st (j_id j)) (j_id j)
              "Worker crashed before job execution started"
              "Job was stuck in 'running' state with no started_at timestamp" "" None None st with
      | (st1, Ok _) => (st1, Ok Recorded)
      | (st1, Err e) => (st1, Err (StoreError e))
      end
  | Some started =>
      if decide (stale_threshold (j_spec j) * usec_per_sec < running_duration started) then
        match mark_failed_by (j_id j) (stale_error (running_duration started) (stale_threshold (j_spec j)))
                "Job was stuck in 'running' state - likely worker process crashed, killed by OOM, or terminated by signal"
                None (should_retry j None) "" None st with
        | (st1, Err e) => (st1, Err (StoreError e))
        | (st1, Ok _) =>
            match found_job (get_job_by_id ev st1 (j_id j)) with
            | None => (st1, Err AttributeError)
            | Some seen => retry_by (should_retry seen None) (FLive seen) None None id st1
            end
        end
      else (st, Ok Discarded)
  end.

Fixpoint cleanup_loop (jobs : list queued_job) (ids : list Z) (st : store)
    : store * result execution_error handled :=
  match jobs, ids with
  | j :: jobs, id :: ids =>
      match cleanup_one j id st with
      | (st1, Ok _) => cleanup_loop jobs ids st1
      | (st1, Err e) => (st1, Err e)
      end
  | _, _ => (st, Ok Recorded)
  end.

Definition cleanup_stale_jobs (queue_name : option string) (ids : list Z) (st : store) :=
  cleanup_loop (get_running_jobs queue_name st) ids st.

(** ** Theorems *)

(** A store error of a completion under the invariant is the fence, never a row-count error. *)
Lemma completion_error id expected status v h o st st' e :
  inv [] st → handle_for st id (Some h) →
  completion_txn ev id expected status v (Some h) o st = (st', Err e) → e = JobFencingError.
Proof using Type.
  intros Hi Hh. unfold completion_txn.
  destruct (_close_attempt ev id (Some h) o st) as [st1 [[]|e1]] eqn:Hc.
  2: { intros [= <- <-]. unfold _close_attempt, decide_close in Hc. by case_decide; simplify_eq. }
  pose proof (close_attempt_step ev id (Some h) o st st1 (Ok ()) Hi Hh Hc) as (Hwf1 & _).
  unfold completion_write. destruct (owes_retry status v).
  - case_bool_decide; [done|]. by destruct expected; intros [= _ <-].
  - destruct (finish_in_cases ev id status v (version_fences expected) st1 Hwf1) as [(x & _ & _ & ->)|[_ ->]]; [done|].
    by destruct expected; intros [= _ <-].
Qed.

Lemma success_error id output expected h st st' e :
  inv [] st → handle_for st id (Some h) →
  mark_job_success ev (get_job_by_id ev st id) id (Text output) expected (Some h) st = (st', Err e) →
  e = JobFencingError.
Proof using Type.
  intros Hi Hh. unfold mark_job_success, get_job_by_id.
  destruct (job_by_id st id) as [row|] eqn:Hrow.
  - assert (∀ p v s, is_terminal (Some s) = true → _fenced_update ev id expected s v (Some h) OSuccess p st = (st', Err e) →
      e = JobFencingError) as Hf.
    { intros p v s Hs. unfold _fenced_update.
      destruct (completion_txn _ _ _ _ _ _ _ _) as [st1 [[]|e1]] eqn:Hc; [done..|].
      intros [= _ <-]. by eapply completion_error. }
    destruct (decide (j_status row = Queued)); cbn [mark_success]; by apply Hf.
  - destruct (history_by_id st id) as [x|]; [|by destruct (staged_by_id ev st id)].
    unfold _already_finished. by destruct expected; intros [= _ <-].
Qed.


(** C21: the hand-over. A child that loses its connection before the outcome is written leaves an
    outcome with which the supervisor brings the store to exactly the state the child would have
    reached, retry and cascade included. *)
Theorem handover_equals_child (Hev : env_ok ev) j h run id st :
  inv [] st → handle_for st (j_id j) (Some h) →
  ∃ o code, run_job_in_child j h run (Lost st) id st = (st, Some o, Some code) ∧
    (persist_outcome ev threshold uniform load RETRY_BACKOFF_MAX RETRY_JITTER o id st).1
      = (run_job_in_child j h run Answered id st).1.1.
Proof using Type.
  intros Hi Hh. destruct run as [output|e]; simpl.
  - do 2 eexists. split; [done|]. unfold persist_outcome. simpl.
    destruct (mark_job_success _ _ _ _ _ _ _) as [st1 [f|e]] eqn:Hm; [done|].
    by rewrite (success_error _ _ _ _ _ _ _ Hi Hh Hm).
  - do 2 eexists. split; [done|]. unfold persist_outcome, fail_and_retry. simpl.
    destruct (_mark_failed _ _ _ _ _ _ _ _ _) as [st1 [f|err]]; [|done].
    unfold retry_found. destruct (should_retry _ _); [|done]. destruct (found_job f) as [x|]; [|done].
    unfold _retry_job. destruct (ra_exception e) as [c|]; [|done]. by destruct c.
Qed.
End child.

(** ** Witnesses *)

#[local] Abbreviation no_tasks := (λ _ : string, @None (@task_attrs unit)).
#[local] Abbreviation least := (λ a b : Qc, a).
#[local] Abbreviation any_class := (λ _ _ : unit, true).

Definition demo_raised : raised unit :=
  {| ra_exception := Retry.Raised tt; ra_message := "boom"; ra_traceback := "tb" |}.
#[local] Abbreviation raises := (λ _ : store_error, demo_raised).

(** The job the parent claimed. *)
Definition demo_running : queued_job := _as_running demo_job demo_handle.

#[local] Abbreviation demo_child run fate :=
  (run_job_in_child (demo_env 4000) 1 least any_class no_tasks None false raises demo_running demo_handle run fate 21
     demo_claimed).

Lemma demo_claimed_unused : unused_id 21 demo_claimed.
Proof. apply unused_id_intro, (bool_decide_unpack _). by vm_compute. Qed.

Lemma demo_claimed_no_retry : retry_ids demo_claimed (j_id demo_running) = [].
Proof. vm_compute. reflexivity. Qed.


Lemma handover_equals_child_witness :
  ∃ o code, demo_child (Failing demo_raised) (Lost demo_claimed) = (demo_claimed, Some o, Some code) ∧
    (persist_outcome (demo_env 4000) 1 least no_tasks None false o 21 demo_claimed).1
      = (demo_child (Failing demo_raised) Answered).1.1.
Proof.
  apply (handover_equals_child (demo_env 4000) 1 least any_class no_tasks None false raises (demo_env_ok 4000)
    demo_running demo_handle (Failing demo_raised) 21 demo_claimed demo_claimed_inv).
  intros a. rewrite demo_claimed_attempts. by intros ->%list_elem_of_singleton.
Defined.

(** The stale sweep reads the running jobs, the job then succeeds, and the sweep goes on with the job
    it read: the job it now finds in history still has retry budget, so a job that succeeded runs
    again. *)
Theorem stale_sweep_retries_success :
  let ev := demo_env 7300000000 in
  let seen := get_running_jobs None demo_claimed in
  let swept := (cleanup_loop ev 1 least any_class no_tasks None false seen [21] demo_done).1 in
  (j_id <$> seen) = [11] ∧ ((λ j, (j_id j, j_status j)) <$> history swept) = [(11, Success)] ∧
  retry_ids swept 11 = [21].
Proof. vm_compute. done. Qed.
