(* ===== verification/Result.v ===== *)
(** * Results (core/result.py, core/execution.py)

    How a return value is stored in the [output] column and read back, and the [AsyncResult] handle
    on a job: its state, result, revocation, and the wait for the job. A property of the handle reads
    the store in one step. [_with_upstream_results] puts the results of the dependencies of a
    workflow step in front of its arguments. *)

From S2P Require Import Prelude Sql PyString Json Models Retry Attempts Ready History Store StoreInv Dependents Claim Complete Demo Outcomes Limits Executor.
#[local] Open Scope string_scope.
#[local] Open Scope list_scope.
#[local] Open Scope Z_scope.

(** ** Encoding *)

(** A text whose code points fit the column as a string of characters. *)
Definition of_codes (t : text) : string :=
  of_chars ((λ c, Ascii.ascii_of_N (Z.to_N c)) <$> t).

(** What a task returned: a value, or an awaitable that was not awaited. *)
Inductive task_result : Type :=
  | Value (v : value)
  | Unawaited.

Inductive serialize_error : Type := ValueError.

(** Every integer is printed, at any depth. *)
Fixpoint printable (v : value) : bool :=
  match v with
  | VInt n => bool_decide (length (py_str (Z.abs n)) <= max_str_digits)%nat
  | VList l => forallb printable l
  | VDict m => forallb (λ kv, printable kv.2) m
  | _ => true
  end.

(** [json.dumps] raises on an integer that is too long, and so does [str] of the value. *)
Definition serialize_result (result : task_result) : Prelude.result serialize_error task_output :=
  match result with
  | Value VNull => Ok (Text "")
  | Unawaited => Ok Awaitable
  | Value (VStr s) => Ok (Text (of_codes s))
  | Value v => if printable v then Ok (Text (of_codes (dumps v))) else Err ValueError
  end.

Definition deserialize_result (output : option string) : value :=
  match output with
  | None => VNull
  | Some s =>
      if decide (s = "") then VNull
      else match loads (codes s) with Some v => v | None => VStr (codes s) end
  end.

(** ** The handle *)

Inductive task_state : Type :=
  | TPending
  | TStarted
  | TSuccess
  | TFailure
  | TRetry
  | TRevoked.
#[global] Instance task_state_eq_dec : EqDecision task_state.
Proof. solve_decision. Defined.

Definition _STATE_MAP (s : job_status) : task_state :=
  match s with
  | Queued => TPending
  | Running | ShuttingDown => TStarted
  | Success => TSuccess
  | Failed => TFailure
  | Archived => TRetry
  end.

Definition _READY_STATES : list task_state := [TSuccess; TFailure; TRevoked].
Definition REVOKED_ERROR : string := "Revoked by user".
Definition _REVOKED_ERRORS : list string := ["Cancelled by user"; REVOKED_ERROR].

Definition _MAX_RETRY_HOPS : nat := Z.to_nat 1000.

(** The loop of [_job]: a failed or archived attempt with a retry child is followed, at most
    [_MAX_RETRY_HOPS] times. *)
Fixpoint job_loop (hops : nat) (st : store) (job : queued_job) : queued_job :=
  if decide (j_status job ∈ [Archived; Failed]) then
    match latest_retry st (j_id job), hops with
    | None, _ => job
    | Some _, O => job
    | Some child, S hops => job_loop hops st child
    end
  else job.

Section handle.
Context (ev : env).

(** The job the handle reports on; a staged row has no status, so nothing is followed. *)
Definition _job (st : store) (id : Z) : found :=
  match get_job_by_id ev st id with
  | FLive j => FLive (job_loop _MAX_RETRY_HOPS st j)
  | FHistory j => FHistory (job_loop _MAX_RETRY_HOPS st j)
  | f => f
  end.

Definition exists_ (st : store) (id : Z) : bool :=
  match get_job_by_id ev st id with FNone => false | _ => true end.

(** A staged row reads as [queued]; an unknown id looks pending. *)
Definition state (st : store) (id : Z) : task_state :=
  match found_job (_job st id) with
  | None => TPending
  | Some j =>
      if decide (j_status j = Failed ∧ jr_error (j_run j) ∈ _REVOKED_ERRORS) then TRevoked
      else _STATE_MAP (j_status j)
  end.

Definition ready (st : store) (id : Z) : bool := bool_decide (state st id ∈ _READY_STATES).
Definition successful (st : store) (id : Z) : bool := bool_decide (state st id = TSuccess).
Definition failed (st : store) (id : Z) : bool := bool_decide (state st id = TFailure).

Definition output (st : store) (id : Z) : option string :=
  j ← found_job (_job st id);
  if decide (j_status j = Success) then Some (jr_output (j_run j)) else None.

Definition result (st : store) (id : Z) : value :=
  match output st id with None => VNull | Some out => deserialize_result (Some out) end.

Definition error (st : store) (id : Z) : option string :=
  j ← found_job (_job st id);
  if decide (j_status j = Failed) then Some (jr_error (j_run j)) else None.

Definition traceback (st : store) (id : Z) : option string :=
  j ← found_job (_job st id);
  if decide (j_status j = Failed) then Some (jr_traceback (j_run j)) else None.

(** ** Revocation *)

(** The module function: cancel a waiting job, ask for the end of a running one. *)
Definition revoke (id : Z) (terminate : bool) (st : store) : store * Prelude.result store_error bool :=
  match cancel_job ev id st with
  | (st1, Ok true) => (st1, Ok true)
  | (st1, Ok false) =>
      if terminate then let '(st2, b) := request_job_revoke id st1 in (st2, Ok b) else (st1, Ok false)
  | (st1, Err e) => (st1, Err e)
  end.

(** The method: the newest attempt is revoked. *)
Definition revoke_handle (id : Z) (terminate : bool) (st : store) : store * Prelude.result store_error bool :=
  let newest :=
    match _job st id with FLive j | FHistory j => j_id j | FStaged s => sj_id s | FNone => id end in
  revoke newest terminate st.

(** ** Waiting for the result *)

(** One round of the loop of [get]: the store when the state is read, when the result or the error is
    read, when the traceback is read, and the monotonic clock at the end of the round. *)
Record poll : Type := {
  po_state : store;
  po_read : store;
  po_traceback : store;
  po_clock : time;
}.

Inductive got : Type :=
  | GotValue (v : value)
  | GotError (error : option string)
  | TaskRevokedError
  | TaskFailedError (message traceback : string)
  | TimeoutError (state : task_state).

(** [None]: still waiting after these rounds. *)
Fixpoint get_loop (id : Z) (deadline : option time) (propagate : bool) (rounds : list poll) : option got :=
  match rounds with
  | [] => None
  | p :: rounds =>
      let s := state (po_state p) id in
      if decide (s = TSuccess) then Some (GotValue (result (po_read p) id))
      else if decide (s = TRevoked) then Some TaskRevokedError
      else if decide (s = TFailure) then
        Some (if propagate
              then TaskFailedError
                     (match error (po_read p) id with
                      | None => "task failed"
                      | Some e => if decide (e = "") then "task failed" else e
                      end)
                     (default "" (traceback (po_traceback p) id))
              else GotError (error (po_read p) id))
      else if match deadline with Some d => d <=? po_clock p | None => false end
      then Some (TimeoutError s)
      else get_loop id deadline propagate rounds
  end.

(** [start] is the clock when the call begins. *)
Definition get (id : Z) (timeout : option time) (propagate : bool) (start : time) (rounds : list poll) : option got :=
  get_loop id ((λ t, start + t) <$> timeout) propagate rounds.

(** ** The arguments of a workflow step (core/execution.py) *)

(** [v[k]] of a dictionary: the first pair with the key *)
Fixpoint assoc (k : string) (m : list (string * json)) : option json :=
  match m with
  | [] => None
  | (k', v) :: m => if decide (k' = k) then Some v else assoc k m
  end.

Definition truthy (v : json) : bool :=
  match v with
  | JNull => false
  | JBool b => b
  | JNum n => negb (n =? 0)
  | JStr s => negb (bool_decide (s = ""))
  | JList l => negb (bool_decide (length l = 0%nat))
  | JObj m => negb (bool_decide (length m = 0%nat))
  end.

(** [AttributeError]: [meta["canvas"]] is truthy and no dictionary. [BadId]: a dependency that is no
    integer, whose lookup is left to the database. *)
Inductive upstream_error : Type := NoGet | BadId.

Definition pass_result_mode (meta : option json) : Prelude.result upstream_error (option json) :=
  match meta with
  | Some (JObj m) =>
      match assoc "canvas" m with
      | None => Ok None
      | Some c =>
          if truthy c then
            match c with
            | JObj cm =>
                match assoc "pass_result" cm with
                | Some mode => Ok (if truthy mode then Some mode else None)
                | None => Ok None
                end
            | _ => Err NoGet
            end
          else Ok None
      end
  | _ => Ok None
  end.

Definition is_single (mode : json) : bool :=
  match mode with JStr s => bool_decide (s = "single") | _ => false end.

Definition upstream_result (st : store) (dep : json) : Prelude.result upstream_error value :=
  match dep with JNum id => Ok (result st id) | _ => Err BadId end.

Definition _with_upstream_results (st : store) (j : queued_job) (args : list value)
    : Prelude.result upstream_error (list value) :=
  mode ← pass_result_mode (js_meta (j_spec j));
  match mode with
  | None => Ok args
  | Some mode =>
      results ← map_result (upstream_result st) (js_dependencies (j_spec j));
      let lead := match results with
                  | r :: _ => if is_single mode then r else VList results
                  | [] => VList results
                  end in
      Ok (lead :: args)
  end.
End handle.

(** ** Lemmas *)

Lemma codes_of_codes t : Forall (λ c, 0 <= c < 256) t → codes (of_codes t) = t.
Proof.
  intros Ht. unfold codes, of_codes. rewrite to_of_chars, <-list_fmap_compose.
  induction Ht as [|c t Hc Ht IH]; [done|]. rewrite fmap_cons, IH. f_equal.
  unfold compose, code. rewrite Ascii.N_ascii_embedding by lia. lia.
Qed.

Lemma of_codes_empty t : Forall (λ c, 0 <= c < 256) t → of_codes t = "" → t = [].
Proof. intros Ht He. rewrite <-(codes_of_codes t Ht), He. done. Qed.

Lemma json_printable v : json_value v → printable v = true.
Proof.
  induction v as [|b|n|t|s|l IH|m IH] using value_nested_ind; inversion_clear 1 as [| |? Hv|? Hv|? Hv|? Hv|? Hd Hv];
    try done; simpl.
  - by apply bool_decide_true.
  - apply forallb_forall. intros v Hin. rewrite Forall_forall in *. apply list_elem_of_In in Hin. auto.
  - apply forallb_forall. intros kv Hin. rewrite Forall_forall in *. apply list_elem_of_In in Hin.
    apply (IH _ Hin). by apply (Hv _ Hin).
Qed.

Lemma job_loop_follows st hops j : job_loop hops st j = follow_retries (latest_retry st) hops j.
Proof.
  revert j. induction hops as [|hops IH]; intros j; simpl.
  - case_decide; [|done]. by destruct (latest_retry st (j_id j)).
  - unfold failed_or_archived. case_decide as Hs.
    + rewrite !elem_of_cons in Hs.
      assert (bool_decide (j_status j = Failed) || bool_decide (j_status j = Archived) = true) as ->.
      { destruct Hs as [Hs|[Hs|Hs]]; [| |by apply elem_of_nil in Hs]; rewrite Hs; done. }
      destruct (latest_retry st (j_id j)); [apply IH|done].
    + rewrite !bool_decide_false; [done|..]; intros He; destruct Hs; rewrite He; set_solver.
Qed.

Section handle_lemmas.
Context (ev : env) (st : store) (Hwf : wf st).

(** The handle looks at the row the union view has for its id. *)
Lemma get_job_anywhere id : found_job (get_job_by_id ev st id) = anywhere_by_id st id.
Proof using Hwf.
  destruct (anywhere_by_id st id) as [x|] eqn:Hx.
  - apply anywhere_by_id_Some in Hx as [[Hx|Hx]%elem_of_app Hid]; [..|done].
    + apply list_elem_of_bind in Hx as (j & Hx & Hj). pose proof (live_view_same _ _ _ Hx) as [Hxj _].
      unfold get_job_by_id. rewrite (proj2 (job_by_id_Some st Hwf id j)) by (split; [done|congruence]).
      unfold live_view in Hx. case_decide; [|by apply list_elem_of_singleton in Hx as ->].
      assert (j_id j = id) as Hji by congruence. simpl. f_equal.
      destruct (filter (open_for (j_id j)) (attempts st)) as [|a l] eqn:Hf.
      * apply list_elem_of_singleton in Hx as ->. unfold open_attempt_of. rewrite <-Hji, Hf. done.
      * apply list_elem_of_fmap in Hx as (b & -> & Hb).
        assert (b ∈ attempts st ∧ open_for (j_id j) b) as [Hba Hbo].
        { rewrite <-Hf in Hb. by apply list_elem_of_filter in Hb as [? ?]. }
        by rewrite <-Hji, (open_attempt_of_open st (j_id j) b).
    + unfold get_job_by_id.
      rewrite (proj2 (job_by_id_None st id)) by (intros j Hj; rewrite <-Hid; by apply (wf_disjoint st)).
      by rewrite (proj2 (history_by_id_Some st id x Hwf)).
  - rewrite anywhere_by_id_None in Hx. unfold get_job_by_id.
    destruct (job_by_id st id) as [j|] eqn:Hj.
    { exfalso. apply job_by_id_Some in Hj as [Hj Hid]; [|done].
      destruct (live_view_one st j Hwf) as (y & Hy & Hyid & _).
      apply (Hx y); [|congruence]. apply elem_of_app. left. apply list_elem_of_bind. exists j.
      rewrite Hy. split; [apply list_elem_of_here|done]. }
    destruct (history_by_id st id) as [h|] eqn:Hh.
    { exfalso. apply history_by_id_Some in Hh as [Hh Hid]; [|done].
      apply (Hx h); [|done]. by apply elem_of_app; right. }
    by destruct (staged_by_id ev st id).
Qed.

Lemma job_followed id :
  found_job (_job ev st id) = follow_retries (latest_retry st) MAX_CHAIN_HOPS <$> anywhere_by_id st id.
Proof using Hwf.
  rewrite <-get_job_anywhere. unfold _job.
  destruct (get_job_by_id ev st id); cbn [found_job fmap option_fmap option_map]; try done;
    by rewrite job_loop_follows.
Qed.

Lemma state_success id : state ev st id = TSuccess ↔ dependency_met st id.
Proof using Hwf.
  unfold state, dependency_met. rewrite job_followed.
  destruct (anywhere_by_id st id) as [x|] eqn:Hx.
  - cbn [fmap option_fmap option_map]. set (y := follow_retries _ _ x).
    apply anywhere_by_id_Some in Hx as [Hx Hid]; [|done]. split.
    + intros Hs. exists x. split_and!; [done..|]. fold y. case_decide; [done|]. by destruct (j_status y).
    + intros (z & Hz & Hzid & Hs).
      assert (z = x) as -> by (eapply (NoDup_fmap_inj j_id (job_all st)); [by apply job_all_ids|done..|congruence]).
      fold y in Hs. rewrite decide_False; [by rewrite Hs|]. intros [? _]. congruence.
  - rewrite anywhere_by_id_None in Hx. split; [done|]. intros (z & Hz & Hzid & _). by destruct (Hx z).
Qed.
End handle_lemmas.

(** The error a raised [TaskFailedError] carries. *)
Definition failure_message (e : option string) : string :=
  match e with
  | None => "task failed"
  | Some e => if decide (e = "") then "task failed" else e
  end.

(** What [get] does with a round in which the job is settled, or with the last one. *)
Definition round_outcome (ev : env) (id : Z) (propagate : bool) (p : poll) : got :=
  match state ev (po_state p) id with
  | TSuccess => GotValue (result ev (po_read p) id)
  | TRevoked => TaskRevokedError
  | TFailure =>
      if propagate
      then TaskFailedError (failure_message (error ev (po_read p) id))
                           (default "" (traceback ev (po_traceback p) id))
      else GotError (error ev (po_read p) id)
  | s => TimeoutError s
  end.

Lemma get_loop_round ev id deadline propagate p rounds :
  get_loop ev id deadline propagate (p :: rounds) =
  if ready ev (po_state p) id || match deadline with Some d => d <=? po_clock p | None => false end
  then Some (round_outcome ev id propagate p) else get_loop ev id deadline propagate rounds.
Proof.
  cbn [get_loop]. unfold ready, round_outcome, failure_message.
  by destruct (state ev (po_state p) id), deadline as [d|]; try destruct (d <=? po_clock p).
Qed.

(** ** Properties *)

(** The handle and the dependency judgement agree on a job. It is a met dependency exactly when the
    handle reads SUCCESS, and a failed one exactly when no job has the id, or the handle reads
    FAILURE or REVOKED and no retry is owed. *)
Theorem state_agrees_with_judge ev st d :
  wf st →
  let verdict := (judge_one (anywhere_by_id st) (latest_retry st) (λ r, is_retry_pending (Some r)) d).1 in
  (verdict = MET ↔ state ev st d = TSuccess) ∧
  (verdict = FAILED ↔
     found_job (get_job_by_id ev st d) = None ∨
     state ev st d ∈ [TFailure; TRevoked] ∧
     ∀ j, found_job (_job ev st d) = Some j → is_retry_pending (Some (jr_termination_reason (j_run j))) = false).
Proof.
  intros Hwf verdict. split.
  - unfold verdict. by rewrite judge_one_met, state_success.
  - unfold verdict. rewrite get_job_anywhere by done. unfold judge_one, state. rewrite job_followed by done.
    destruct (anywhere_by_id st d) as [x|]; cbn [fmap option_fmap option_map].
    2: { split; [by left|done]. }
    set (y := follow_retries _ _ x). set (s := if decide _ then _ else _).
    assert (s ∈ [TFailure; TRevoked] ↔ j_status y = Failed) as Hst.
    { unfold s. case_decide as Hd; [split; [by intros _; apply Hd|intros _; right; left]|].
      destruct (j_status y); simpl; split; try done; try (by intros [|[|?%elem_of_nil]%elem_of_cons]%elem_of_cons).
      intros _. left. }
    rewrite Hst. split.
    + destruct (j_status y) eqn:Hs; try done. destruct (is_retry_pending _) eqn:Hp; [done|].
      intros _. right. split; [done|]. by intros ? [= <-].
    + intros [?|[Hs Hn]]; [done|]. by rewrite Hs, (Hn y).
Qed.


(** The wait ends with the first round in which the job is settled or the deadline has passed, and
    with what that round shows; with a timeout it ends as soon as the clock reaches it. *)
Theorem get_first_settled ev id timeout propagate start rounds :
  let over p := ready ev (po_state p) id = true ∨ ∃ t, timeout = Some t ∧ start + t <= po_clock p in
  (∀ g, get ev id timeout propagate start rounds = Some g ↔
    ∃ k p, rounds !! k = Some p ∧ over p ∧ g = round_outcome ev id propagate p ∧
      ∀ k' p', (k' < k)%nat → rounds !! k' = Some p' → ¬ over p') ∧
  (∀ p, p ∈ rounds → over p → ∃ g, get ev id timeout propagate start rounds = Some g).
Proof.
  intros over. unfold get.
  assert (∀ p, ready ev (po_state p) id || match (λ t, start + t) <$> timeout with
      | Some d => d <=? po_clock p | None => false end = true ↔ over p) as Hover.
  { intros p. unfold over. rewrite orb_true_iff. destruct timeout as [t|]; simpl; [|naive_solver].
    rewrite Z.leb_le. naive_solver. }
  assert (∀ g, get_loop ev id ((λ t, start + t) <$> timeout) propagate rounds = Some g ↔
    ∃ k p, rounds !! k = Some p ∧ over p ∧ g = round_outcome ev id propagate p ∧
      ∀ k' p', (k' < k)%nat → rounds !! k' = Some p' → ¬ over p') as Hiff.
  { induction rounds as [|p rounds IH]; intros g; [simpl; split; [done|by intros (k & p & ? & _)]|].
    rewrite get_loop_round. specialize (Hover p). destruct (_ || _).
    - split.
      + intros [= <-]. exists 0%nat, p. split_and!; [done|by apply Hover|done|lia].
      + intros ([|k] & q & Hq & _ & -> & Hk); [by injection Hq as ->|].
        destruct (Hk 0%nat p); [lia|done|by apply Hover].
    - rewrite IH. split; intros (k & q & Hq & Ho & -> & Hk).
      + exists (S k), q. split_and!; [done..|]. intros [|k'] q' Hlt Hq'.
        * injection Hq' as <-. rewrite <-Hover. done.
        * apply (Hk k'); [lia|done].
      + destruct k as [|k]; [injection Hq as <-; by apply Hover in Ho|].
        exists k, q. split_and!; [done..|]. intros k' q' Hlt Hq'. apply (Hk (S k')); [lia|done]. }
  split; [exact Hiff|]. clear Hiff. induction rounds as [|q rounds IH]; intros p Hp Ho; [by apply elem_of_nil in Hp|].
  rewrite get_loop_round. specialize (Hover q). destruct (_ || _); [by eexists|].
  apply elem_of_cons in Hp as [->|Hp]; [by apply Hover in Ho|by eapply IH].
Qed.

(** While a retry is owed the handle reads FAILURE, and so [get] raises, although the judgement of the
    dependents waits for the retry. *)
Lemma owed_retry_reads_failed :
  state recovery_env demo_owed 11 = TFailure ∧
  (judge_one (anywhere_by_id demo_owed) (latest_retry demo_owed) (λ r, is_retry_pending (Some r)) 11).1 = PENDING.
Proof. by vm_compute. Qed.

(** ** Witnesses *)

(** job 11 succeeded, job 12 waits *)
Lemma state_agrees_with_judge_witness :
  state (demo_env 5000) demo_between 11 = TSuccess ∧ state (demo_env 5000) demo_between 12 ≠ TSuccess.
Proof.
  split; [|intros Hs];
    [destruct (state_agrees_with_judge (demo_env 5000) demo_between 11) as [H _]
    |destruct (state_agrees_with_judge (demo_env 5000) demo_between 12) as [H _]];
    try apply demo_between_inv.
  - apply H. by vm_compute.
  - apply H in Hs. by vm_compute in Hs.
Defined.

