(* ===== verification/Canvas.v ===== *)
(** * Workflows (core/canvas.py, [apply_async_job] of core/result.py)

    Signatures, groups, chains and chords, and the jobs they create. Every job of a workflow is
    created in a transaction of its own, so other processes act between two creations: a [turn] is
    what one creation meets (the process, the id it draws, and what the others did before it). The
    task wrapper is the one of core/job.py. *)

From S2P Require Import Prelude Sql PyString Json Models Retry Attempts Ready History Store StoreInv Dependents Claim Complete Demo Outcomes Limits System Executor Result.
From Stdlib Require Import QArith_base Qcanon.
#[local] Open Scope string_scope.
#[local] Open Scope list_scope.
#[local] Open Scope Z_scope.

(** ** Enqueueing with options *)

(** The defaults [get_config] answers. *)
Record enqueue_config : Type := {
  DEFAULT_QUEUE : string;
  DEFAULT_PRIORITY : Z;
  DEFAULT_MAX_RETRIES : Z;
  DEFAULT_RETRY_BACKOFF : Qc;
}.

Inductive expiry : Type :=
  | ExpiresIn (seconds : Qc)
  | ExpiresAt (t : time).

(** The keyword arguments of [apply_async_job]; a naive datetime is its reading in UTC. *)
Record async_options : Type := {
  ao_queue : option string;
  ao_priority : option Z;
  ao_max_retries : option Z;
  ao_retry_backoff : option Qc;
  ao_allow_parallel : option bool;
  ao_timeout_seconds : option Z;
  ao_tags : option (list string);
  ao_countdown : option Qc;
  ao_eta : option time;
  ao_expires : option expiry;
}.

(** [max(1, int(expires))] *)
Definition expires_ttl (now : time) (e : expiry) : Z :=
  match e with
  | ExpiresIn s => Z.max 1 (Z.quot (Qnum (this s)) (Zpos (Qden (this s))))
  | ExpiresAt t => Z.max 1 (Z.quot (t - now) usec_per_sec)
  end.

Inductive canvas_error : Type :=
  | CountdownAndEta
  | NeedsStep.

Definition created_id (c : created) : Z :=
  match c with CreatedLive j => j_id j | CreatedStaged s => sj_id s end.

Section canvas.
Context (cfg : enqueue_config) (threshold : Z).

(** The row [create_job] is asked for. *)
Definition async_spec (now : time) (task_path : string) (payload : list (string * json)) (o : async_options)
    (dependencies : option (list Z)) (meta : option json) : job_spec :=
  {| js_task_path := task_path; js_kwargs := JObj payload;
     js_queue_name := default (DEFAULT_QUEUE cfg) (ao_queue o);
     js_priority := default (DEFAULT_PRIORITY cfg) (ao_priority o);
     js_parent_job_id := None; js_retry_count := 0;
     js_max_retries := default (DEFAULT_MAX_RETRIES cfg) (ao_max_retries o);
     js_retry_backoff := default (DEFAULT_RETRY_BACKOFF cfg) (ao_retry_backoff o);
     js_allow_parallel := default false (ao_allow_parallel o);
     js_timeout_seconds := ao_timeout_seconds o; js_job_name := None;
     js_tags := default [] (ao_tags o); js_retry_intervals := None; js_meta := meta;
     js_dependencies := JNum <$> default [] dependencies;
     js_on_success_path := ""; js_on_failure_path := "";
     js_ttl := expires_ttl now <$> ao_expires o; js_result_ttl := None; js_failure_ttl := None;
     js_scheduled_task_id := None; js_created_at := now;
     js_scheduled_at :=
       match ao_eta o with
       | Some t => Some t
       | None => (λ c, now + timedelta_seconds c) <$> ao_countdown o
       end |}.

Definition apply_async_job (ev : env) (task_path : string) (payload : list (string * json)) (o : async_options)
    (dependencies : option (list Z)) (meta : option json) (id : Z) (st : store) : store * Prelude.result canvas_error Z :=
  match ao_countdown o, ao_eta o with
  | Some _, Some _ => (st, Err CountdownAndEta)
  | _, _ =>
      let '(st1, c) := create_job ev threshold id (async_spec (e_now ev) task_path payload o dependencies meta) st in
      (st1, Ok (created_id c))
  end.

(** ** Signatures *)

(** What a signature reads of a task wrapper. *)
Record JobWrapper : Type := {
  jw_task_path : string;
  jw_queue : option string;
  jw_priority : option Z;
  jw_max_retries : option Z;
  jw_retry_backoff : option Qc;
  jw_allow_parallel : option bool;
  jw_timeout_seconds : option Z;
  jw_tags : list string;
}.

(** Options given to a step: a key that is absent, or its value, which may be [None]. *)
Record step_options : Type := {
  so_queue : option (option string);
  so_priority : option (option Z);
  so_max_retries : option (option Z);
  so_retry_backoff : option (option Qc);
  so_allow_parallel : option (option bool);
  so_timeout_seconds : option (option Z);
  so_tags : option (option (list string));
  so_countdown : option (option Qc);
  so_eta : option (option time);
  so_expires : option (option expiry);
}.

Definition no_options : step_options :=
  {| so_queue := None; so_priority := None; so_max_retries := None; so_retry_backoff := None;
     so_allow_parallel := None; so_timeout_seconds := None; so_tags := None; so_countdown := None;
     so_eta := None; so_expires := None |}.

Record Signature : Type := {
  sg_task : JobWrapper;
  sg_args : list json;
  sg_kwargs : list (string * json);
  sg_options : step_options;
  sg_immutable : bool;
}.

(** The defaults of the task, overridden by the options of the step. *)
Definition merged_options (task : JobWrapper) (o : step_options) : async_options :=
  {| ao_queue := default (jw_queue task) (so_queue o);
     ao_priority := default (jw_priority task) (so_priority o);
     ao_max_retries := default (jw_max_retries task) (so_max_retries o);
     ao_retry_backoff := default (jw_retry_backoff task) (so_retry_backoff o);
     ao_allow_parallel := default (jw_allow_parallel task) (so_allow_parallel o);
     ao_timeout_seconds := default (jw_timeout_seconds task) (so_timeout_seconds o);
     ao_tags := default (Some (jw_tags task)) (so_tags o);
     ao_countdown := default None (so_countdown o);
     ao_eta := default None (so_eta o);
     ao_expires := default None (so_expires o) |}.

(** [Signature.set]: the new options win. *)
Definition set_options (s : Signature) (o : step_options) : Signature :=
  let old := sg_options s in
  {| sg_task := sg_task s; sg_args := sg_args s; sg_kwargs := sg_kwargs s;
     sg_options :=
       {| so_queue := coalesce (so_queue o) (so_queue old);
          so_priority := coalesce (so_priority o) (so_priority old);
          so_max_retries := coalesce (so_max_retries o) (so_max_retries old);
          so_retry_backoff := coalesce (so_retry_backoff o) (so_retry_backoff old);
          so_allow_parallel := coalesce (so_allow_parallel o) (so_allow_parallel old);
          so_timeout_seconds := coalesce (so_timeout_seconds o) (so_timeout_seconds old);
          so_tags := coalesce (so_tags o) (so_tags old);
          so_countdown := coalesce (so_countdown o) (so_countdown old);
          so_eta := coalesce (so_eta o) (so_eta old);
          so_expires := coalesce (so_expires o) (so_expires old) |};
     sg_immutable := sg_immutable s |}.

(** [payload[k] = v] *)
Fixpoint payload_set (k : string) (v : json) (m : list (string * json)) : list (string * json) :=
  match m with
  | [] => [(k, v)]
  | (k', v') :: m => if decide (k' = k) then (k, v) :: m else (k', v') :: payload_set k v m
  end.

Definition _payload (args : list json) (kwargs : list (string * json)) : list (string * json) :=
  match args with [] => kwargs | _ => payload_set "_args" (JList args) kwargs end.

(** How upstream results are passed. *)
Inductive pass_mode : Type := PassSingle | PassList.

Definition canvas_meta (m : pass_mode) : json :=
  JObj [("canvas", JObj [("pass_result", JStr (match m with PassSingle => "single" | PassList => "list" end))])].

(** What the creation of one job meets. *)
Record turn : Type := {
  tu_env : env;
  tu_id : Z;
  tu_others : store → store;
}.

(** [Signature._enqueue] *)
Definition enqueue_signature (s : Signature) (depends_on : option (list Z)) (pass_result : option pass_mode)
    (t : turn) (st : store) : store * Prelude.result canvas_error Z :=
  let meta := if sg_immutable s then None else canvas_meta <$> pass_result in
  apply_async_job (tu_env t) (jw_task_path (sg_task s)) (_payload (sg_args s) (sg_kwargs s))
    (merged_options (sg_task s) (sg_options s)) depends_on meta (tu_id t) (tu_others t st).

(** ** Groups, chains, chords *)

Inductive step : Type :=
  | StepSignature (s : Signature)
  | StepGroup (tasks : list Signature).

(** A handle: of one job or of a group, with the handle of the step before it. *)
Inductive handle : Type :=
  | AsyncResult (id : Z) (parent : option handle)
  | GroupResult (results : list Z) (parent : option handle).

Definition handle_ids (h : handle) : list Z :=
  match h with AsyncResult id _ => [id] | GroupResult ids _ => ids end.

(** [group._enqueue]: the [n]-th turn is the first to be used; a step that raises leaves the jobs
    before it. *)
Fixpoint enqueue_tasks (tasks : list Signature) (depends_on : option (list Z)) (pass_result : option pass_mode)
    (turns : nat → turn) (n : nat) (st : store) : store * nat * Prelude.result canvas_error (list Z) :=
  match tasks with
  | [] => (st, n, Ok [])
  | s :: tasks =>
      match enqueue_signature s depends_on pass_result (turns n) st with
      | (st1, Err e) => (st1, S n, Err e)
      | (st1, Ok id) =>
          let '(st2, n2, r) := enqueue_tasks tasks depends_on pass_result turns (S n) st1 in
          (st2, n2, cons id <$> r)
      end
  end.

Definition enqueue_step (s : step) (depends_on : option (list Z)) (pass_result : option pass_mode)
    (parent : option handle) (turns : nat → turn) (n : nat) (st : store)
    : store * nat * Prelude.result canvas_error handle :=
  match s with
  | StepSignature s =>
      let '(st1, r) := enqueue_signature s depends_on pass_result (turns n) st in
      (st1, S n, (λ id, AsyncResult id parent) <$> r)
  | StepGroup tasks =>
      let '(st1, n1, r) := enqueue_tasks tasks depends_on pass_result turns n st in
      (st1, n1, (λ ids, GroupResult ids parent) <$> r)
  end.

(** The arguments of [chain]: a chain is replaced by its steps. *)
Inductive chain_arg : Type :=
  | ArgStep (s : step)
  | ArgChain (steps : list step).

Definition chain (args : list chain_arg) : Prelude.result canvas_error (list step) :=
  match args ≫= λ a, match a with ArgStep s => [s] | ArgChain steps => steps end with
  | [] => Err NeedsStep
  | flat => Ok flat
  end.

(** [a | b] *)
Definition pipe (a b : chain_arg) : Prelude.result canvas_error (list step) := chain [a; b].

Definition is_single_result (h : handle) : bool :=
  match h with AsyncResult _ _ => true | GroupResult _ _ => false end.

(** The loop of [chain.apply_async]; [last] carries [prev_ids] and [prev_single]. *)
Fixpoint chain_loop (steps : list step) (last : option handle) (turns : nat → turn) (n : nat) (st : store)
    : store * nat * Prelude.result canvas_error (option handle) :=
  match steps with
  | [] => (st, n, Ok last)
  | s :: steps =>
      let prev_ids := handle_ids <$> last in
      let mode :=
        match last with
        | Some h =>
            if decide (handle_ids h = []) then None
            else Some (if is_single_result h then PassSingle else PassList)
        | None => None
        end in
      match enqueue_step s prev_ids mode last turns n st with
      | (st1, n1, Ok h) => chain_loop steps (Some h) turns n1 st1
      | (st1, n1, Err e) => (st1, n1, Err e)
      end
  end.

Definition chain_apply_async (steps : list step) (turns : nat → turn) (st : store)
    : store * nat * Prelude.result canvas_error (option handle) :=
  chain_loop steps None turns 0 st.

Definition group_apply_async (tasks : list Signature) (turns : nat → turn) (st : store)
    : store * nat * Prelude.result canvas_error (list Z) :=
  enqueue_tasks tasks None None turns 0 st.

Definition chord_apply_async (header : list Signature) (body : Signature) (turns : nat → turn) (st : store)
    : store * nat * Prelude.result canvas_error handle :=
  match group_apply_async header turns st with
  | (st1, n, Err e) => (st1, n, Err e)
  | (st1, n, Ok ids) =>
      let '(st2, r) := enqueue_signature body (Some ids) (Some PassList) (turns n) st1 in
      (st2, S n, (λ id, AsyncResult id (Some (GroupResult ids None))) <$> r)
  end.

(** ** Group results *)

Definition group_ready (ev : env) (st : store) (ids : list Z) : bool := forallb (Result.ready ev st) ids.
Definition group_successful (ev : env) (st : store) (ids : list Z) : bool := forallb (successful ev st) ids.
Definition group_failed (ev : env) (st : store) (ids : list Z) : bool := existsb (failed ev st) ids.

(** The wait for one member: the clock when its share of the timeout is computed, when its [get]
    starts, and the rounds of that. *)
Record wait : Type := {
  wa_now : time;
  wa_start : time;
  wa_rounds : list poll;
}.

(** The members' values (or error texts) in order, or the exception of the first that raises; [None]:
    still waiting. *)
Fixpoint group_get_loop (ev : env) (deadline : option time) (propagate : bool) (ids : list Z) (waits : list wait)
    : option (list got + got) :=
  match ids, waits with
  | [], _ => Some (inl [])
  | _, [] => None
  | id :: ids, w :: waits =>
      let remaining := (λ d, Z.max (d - wa_now w) 0) <$> deadline in
      match get ev id remaining propagate (wa_start w) (wa_rounds w) with
      | None => None
      | Some (GotValue v) =>
          match group_get_loop ev deadline propagate ids waits with
          | Some (inl gs) => Some (inl (GotValue v :: gs))
          | r => r
          end
      | Some (GotError e) =>
          match group_get_loop ev deadline propagate ids waits with
          | Some (inl gs) => Some (inl (GotError e :: gs))
          | r => r
          end
      | Some exn => Some (inr exn)
      end
  end.

(** The timeout is shared by the members. *)
Definition group_get (ev : env) (timeout : option time) (propagate : bool) (start : time) (ids : list Z)
    (waits : list wait) : option (list got + got) :=
  group_get_loop ev ((λ t, start + t) <$> timeout) propagate ids waits.
End canvas.

(** ** Lemmas: the jobs of a workflow stay *)

(** A job of the queue, live, finished or staged. *)
Definition has_job (st : store) (id : Z) (sp : job_spec) : Prop :=
  (∃ j, (j ∈ live st ∨ j ∈ history st) ∧ j_id j = id ∧ j_spec j = sp) ∨
  ∃ s, s ∈ staged st ∧ sj_id s = id ∧ sj_spec s = sp.

(** No unnamed job is lost: what the queue's operations guarantee, apart from retention. *)
Definition keeps_unnamed (st st' : store) : Prop :=
  ∀ id sp, js_job_name sp = None → has_job st id sp → has_job st' id sp.

#[global] Instance keeps_unnamed_preorder : PreOrder keeps_unnamed.
Proof. split; [by intros ? ?|intros s1 s2 s3 H1 H2 id sp Hn H; auto]. Qed.

Lemma create_keeps ev threshold id sp st :
  js_job_name sp = None → keeps_unnamed st (create_job ev threshold id sp st).1.
Proof.
  intros Hn id' sp' _ Hj. unfold create_job, replace_named. rewrite Hn. destruct (far_future ev threshold sp); simpl.
  - destruct Hj as [?|(s & Hs & ?)]; [by left|]. right. exists s. split; [|done]. by apply elem_of_app; left.
  - destruct Hj as [(j & [Hj|Hj] & ?)|?]; [| |by right].
    + left. exists j. split; [|done]. left. by apply elem_of_app; left.
    + left. exists j. split; [by right|done].
Qed.

Lemma create_has ev threshold id sp st st' c :
  js_job_name sp = None → create_job ev threshold id sp st = (st', c) →
  created_id c = id ∧ has_job st' id (with_created_at (e_now ev) sp).
Proof.
  intros Hn. unfold create_job, replace_named. rewrite Hn.
  destruct (far_future ev threshold sp); intros [= <- <-]; (split; [done|]).
  - right. eexists. split; [apply elem_of_app; right; apply list_elem_of_here|done].
  - left. eexists. split; [left; apply elem_of_app; right; apply list_elem_of_here|done].
Qed.

(** ** What a workflow creates *)

Section links.
Context (cfg : enqueue_config) (threshold : Z).

(** The metadata of a step after [prev]: how it receives the results, unless it ignores them or there
    are none. *)
Definition expected_meta (s : Signature) (prev : list Z) (m : pass_mode) : option json :=
  if sg_immutable s || bool_decide (prev = []) then None else Some (canvas_meta m).

(** The job of a signature that waits for the jobs [prev]. *)
Definition has_step_job (st : store) (prev : list Z) (m : pass_mode) (s : Signature) (id : Z) : Prop :=
  ∃ sp, has_job st id sp ∧ js_job_name sp = None ∧ js_task_path sp = jw_task_path (sg_task s) ∧
    js_kwargs sp = JObj (_payload (sg_args s) (sg_kwargs s)) ∧
    js_dependencies sp = JNum <$> prev ∧ js_meta sp = expected_meta s prev m.

Definition step_signatures (s : step) : list Signature :=
  match s with StepSignature s => [s] | StepGroup tasks => tasks end.

Definition step_mode (s : step) : pass_mode :=
  match s with StepSignature _ => PassSingle | StepGroup _ => PassList end.

(** Every step has its jobs, and they wait for all the jobs of the step before. *)
Fixpoint linked (st : store) (prev : list Z) (m : pass_mode) (steps : list step) (ids : list (list Z)) : Prop :=
  match steps, ids with
  | [], [] => True
  | s :: steps, here :: ids =>
      Forall2 (has_step_job st prev m) (step_signatures s) here ∧ linked st here (step_mode s) steps ids
  | _, _ => False
  end.

(** The ids of the steps a handle leads back to, first step first. *)
Fixpoint trail (h : handle) : list (list Z) :=
  match h with
  | AsyncResult id p => match p with Some q => trail q | None => [] end ++ [[id]]
  | GroupResult ids p => match p with Some q => trail q | None => [] end ++ [ids]
  end.

Lemma has_step_job_keeps st st' prev m s id :
  keeps_unnamed st st' → has_step_job st prev m s id → has_step_job st' prev m s id.
Proof using. intros Hk (sp & Hj & Hn & ?). exists sp. auto. Qed.

Lemma linked_keeps st st' prev m steps ids :
  keeps_unnamed st st' → linked st prev m steps ids → linked st' prev m steps ids.
Proof using.
  intros Hk. revert prev m ids. induction steps as [|s steps IH]; intros prev m [|here ids]; simpl; try done.
  intros [Hs Hl]. split; [|auto]. eapply Forall2_impl; [exact Hs|]. intros. by eapply has_step_job_keeps.
Qed.

(** [mode] is what the loops pass for a step after [prev]. *)
Lemma enqueue_signature_links s prev mode m t st st' r :
  keeps_unnamed st (tu_others t st) →
  mode = (if decide (default [] prev = []) then None else Some m) →
  enqueue_signature cfg threshold s prev mode t st = (st', r) →
  keeps_unnamed st st' ∧ ∀ id, r = Ok id → has_step_job st' (default [] prev) m s id.
Proof using.
  intros Hk -> H. unfold enqueue_signature, apply_async_job in H. set (spec := async_spec _ _ _ _ _ _ _) in H.
  assert (r = Err CountdownAndEta ∧ st' = tu_others t st ∨
    ∃ c, create_job (tu_env t) threshold (tu_id t) spec (tu_others t st) = (st', c) ∧ r = Ok (created_id c)) as Hr.
  { destruct (ao_countdown _) as [d|]; [destruct (ao_eta _) as [e|]|];
      try (destruct (create_job _ _ _ _ _) as [st1 c] eqn:Hc; injection H as <- <-; eauto). }
  destruct Hr as [[-> ->]|(c & Hc & ->)]; [done|]. split.
  - etrans; [done|]. pose proof (create_keeps (tu_env t) threshold (tu_id t) spec (tu_others t st) eq_refl) as Hk2.
    by rewrite Hc in Hk2.
  - intros id [= <-]. apply create_has in Hc as [-> Hj]; [|done].
    eexists. split; [exact Hj|]. split_and!; try done. unfold expected_meta. simpl.
    destruct (sg_immutable s); [done|]. simpl. case_decide as Hp.
    + by rewrite bool_decide_true.
    + by rewrite bool_decide_false.
Qed.

Lemma enqueue_tasks_links tasks prev mode m turns n st st' n' r :
  (∀ k st, keeps_unnamed st (tu_others (turns k) st)) →
  mode = (if decide (default [] prev = []) then None else Some m) →
  enqueue_tasks cfg threshold tasks prev mode turns n st = (st', n', r) →
  keeps_unnamed st st' ∧ ∀ ids, r = Ok ids → Forall2 (has_step_job st' (default [] prev) m) tasks ids.
Proof using.
  intros Hk Hm. revert n st st' n' r. induction tasks as [|s tasks IH]; intros n st st' n' r; simpl.
  { intros [= <- <- <-]. split; [done|]. intros ids [= <-]. constructor. }
  destruct (enqueue_signature _ _ _ _ _ _ _) as [st1 [id|e]] eqn:Hs;
    eapply enqueue_signature_links in Hs as [Hk1 Hj]; try done.
  - destruct (enqueue_tasks _ _ _ _ _ _ _ _) as [[st2 n2] r2] eqn:Ht. apply IH in Ht as [Hk2 Hts].
    intros [= <- <- <-]. split; [by etrans|]. intros ids Hids. destruct r2 as [ids2|]; [|done].
    injection Hids as <-. constructor; [|by apply Hts]. eapply has_step_job_keeps; [exact Hk2|]. by apply Hj.
  - intros [= <- <- <-]. done.
Qed.

Lemma enqueue_step_links s prev mode m parent turns n st st' n' r :
  (∀ k st, keeps_unnamed st (tu_others (turns k) st)) →
  mode = (if decide (default [] prev = []) then None else Some m) →
  enqueue_step cfg threshold s prev mode parent turns n st = (st', n', r) →
  keeps_unnamed st st' ∧ ∀ h, r = Ok h →
    Forall2 (has_step_job st' (default [] prev) m) (step_signatures s) (handle_ids h) ∧
    trail h = match parent with Some q => trail q | None => [] end ++ [handle_ids h] ∧
    (if is_single_result h then PassSingle else PassList) = step_mode s.
Proof using.
  intros Hk Hm. destruct s as [s|tasks]; simpl.
  - destruct (enqueue_signature _ _ _ _ _ _ _) as [st1 r1] eqn:Hs.
    eapply enqueue_signature_links in Hs as [Hk1 Hj]; [|done|done].
    intros [= <- <- <-]. split; [done|]. intros h Hh. destruct r1 as [id|]; [|done]. injection Hh as <-.
    split_and!; try done. constructor; [by apply Hj|constructor].
  - destruct (enqueue_tasks _ _ _ _ _ _ _ _) as [[st1 n1] r1] eqn:Ht.
    eapply enqueue_tasks_links in Ht as [Hk1 Hj]; [|done|done].
    intros [= <- <- <-]. split; [done|]. intros h Hh. destruct r1 as [ids|]; [|done]. injection Hh as <-.
    split_and!; try done. by apply Hj.
Qed.

Definition last_mode (last : option handle) : pass_mode :=
  match last with Some h => if is_single_result h then PassSingle else PassList | None => PassSingle end.

Definition last_ids (last : option handle) : list Z := match last with Some h => handle_ids h | None => [] end.

Definition last_trail (last : option handle) : list (list Z) :=
  match last with Some h => trail h | None => [] end.

Lemma chain_loop_links steps last turns n st st' n' r :
  (∀ k st, keeps_unnamed st (tu_others (turns k) st)) →
  chain_loop cfg threshold steps last turns n st = (st', n', r) →
  keeps_unnamed st st' ∧ ∀ h, r = Ok h →
    ∃ ids, last_trail h = last_trail last ++ ids ∧ linked st' (last_ids last) (last_mode last) steps ids.
Proof using.
  intros Hk. revert last n st. induction steps as [|s steps IH]; intros last n st; simpl.
  { intros [= <- <- <-]. split; [done|]. intros h [= <-]. exists []. by rewrite app_nil_r. }
  destruct (enqueue_step _ _ _ _ _ _ _ _ _) as [[st1 n1] r1] eqn:Hs.
  eapply (enqueue_step_links s (handle_ids <$> last) _ (last_mode last)) in Hs as [Hk1 Hh]; [|done|].
  2: { destruct last as [h|]; simpl; [|done]. by case_decide. }
  destruct r1 as [h|e]; [|intros [= <- <- <-]; done].
  destruct (Hh h eq_refl) as (Hf & Htr & Hmode). intros Hl. apply IH in Hl as [Hk2 Hrec].
  split; [by etrans|]. intros h' Hr. destruct (Hrec h' Hr) as (ids & Htr' & Hlink).
  exists (handle_ids h :: ids). rewrite Htr'. simpl. rewrite Htr. split.
  - rewrite <-app_assoc. by destruct last.
  - simpl in Hlink. rewrite Hmode in Hlink. split; [|done].
    assert (last_ids last = default [] (handle_ids <$> last)) as -> by by destruct last.
    eapply Forall2_impl; [exact Hf|]. intros. by eapply has_step_job_keeps.
Qed.
End links.

(** ** Properties *)

(** C22: a chain that was enqueued. The handle leads back to the jobs of every step in order; every
    signature has its job, with its task and arguments, and the job depends on exactly the jobs of the
    step before it and asks for their results as that step delivers them. Whatever other processes do
    between the creations, as long as they lose no job. *)
Theorem chain_links cfg threshold steps turns st st' n h :
  (∀ k st, keeps_unnamed st (tu_others (turns k) st)) →
  chain_apply_async cfg threshold steps turns st = (st', n, Ok (Some h)) →
  linked st' [] PassSingle steps (trail h) ∧ keeps_unnamed st st'.
Proof.
  intros Hk Hc. apply chain_loop_links in Hc as [Hkeep Hl]; [|done].
  destruct (Hl _ eq_refl) as (ids & Htr & Hlink). simpl in Htr. by rewrite Htr.
Qed.

Lemma dependency_ids_nums ids d : d ∈ dependency_ids_go [] (JNum <$> ids) ↔ d ∈ ids.
Proof.
  rewrite dependency_ids_go_elem. split.
  - intros [?%elem_of_nil|(x & (y & -> & Hy)%list_elem_of_fmap & [= ->])]; done.
  - intros Hd. right. exists (JNum d). split; [by apply list_elem_of_fmap_2|done].
Qed.

Lemma pass_result_canvas m : pass_result_mode (Some (canvas_meta m)) =
  Ok (Some (JStr (match m with PassSingle => "single" | PassList => "list" end))).
Proof. by destruct m. Qed.

Lemma upstream_results ev st prev :
  map_result (upstream_result ev st) (JNum <$> prev) = Ok (result ev st <$> prev).
Proof. induction prev as [|d prev IH]; [done|]. csimpl. by rewrite IH. Qed.

Lemma success_output ev st d : state ev st d = TSuccess →
  ∃ out, output ev st d = Some out ∧ result ev st d = deserialize_result (Some out).
Proof.
  unfold result, state, output. destruct (found_job (_job ev st d)) as [j|]; [|done]. cbn [mbind option_bind].
  case_decide; [done|]. destruct (j_status j) eqn:Hs; try done. rewrite decide_True by done. eauto.
Qed.

(** C23: a claimed step finds its upstream results. When [claim_job] hands out the job of a step, then in the
    store its transaction read, every job the step waits for reads SUCCESS, and the task is called with
    their decoded outputs in front of its arguments: the one result after a single job, the list of all,
    in order, after a group. *)
Theorem claimed_step_gets_results ev queues worker st st' j h prev mode args :
  env_ok ev → inv [] st →
  claim_job ev queues worker st = (st', Done (Some (j, h))) →
  js_dependencies (j_spec j) = JNum <$> prev → prev ≠ [] →
  js_meta (j_spec j) = Some (canvas_meta mode) →
  ∃ st1 outs, quiet [] st st1 ∧ evolves st1 st' ∧
    Forall (λ d, state ev st1 d = TSuccess) prev ∧
    Forall2 (λ d out, output ev st1 d = Some out) prev outs ∧
    _with_upstream_results ev st1 j args =
      Ok ((match mode, outs with
           | PassSingle, out :: _ => deserialize_result (Some out)
           | _, _ => VList ((λ out, deserialize_result (Some out)) <$> outs)
           end) :: args).
Proof.
  intros Hev Hi Hc Hd Hne Hm.
  destruct (claim_job_spec ev Hev queues worker st Hi) as (st2 & r & Hc' & Hr).
  rewrite Hc in Hc'. injection Hc' as <- <-.
  destruct Hr as (st1 & st3 & c & e & j0 & Hq & Hcl & _ & _ & Hq').
  assert (inv [] st1) as Hi1 by by eapply quiet_inv.
  assert (Forall (λ d, state ev st1 d = TSuccess) prev) as Hall.
  { pose proof (cl_deps _ _ _ _ _ _ _ _ Hcl) as Hmet. apply judge_met in Hmet; [|apply Hi1].
    assert (j_spec j0 = j_spec j) as Hsp by by rewrite (cl_job _ _ _ _ _ _ _ _ Hcl).
    unfold dependency_ids in Hmet. rewrite Hsp, Hd in Hmet. apply Forall_forall. intros d Hin.
    apply state_success; [apply Hi1|]. rewrite Forall_forall in Hmet. by apply Hmet, dependency_ids_nums. }
  assert (∃ outs, Forall2 (λ d out, output ev st1 d = Some out) prev outs ∧
    result ev st1 <$> prev = (λ out, deserialize_result (Some out)) <$> outs) as (outs & Ho & Hres).
  { clear -Hall. induction Hall as [|d prev Hs Hall IH]; [by exists []|].
    destruct IH as (outs & Ho & Hres). destruct (success_output _ _ _ Hs) as (out & Hout & Hr).
    exists (out :: outs). split; [by constructor|]. csimpl. by rewrite Hr, Hres. }
  exists st1, outs. split_and!; [done| |done|done|].
  - apply (claimed_sound (X:=[])) in Hcl; [|done]. destruct Hcl as [Hi3 He]. etrans; [exact He|]. apply Hq'.
  - unfold _with_upstream_results. rewrite Hm, pass_result_canvas, Hd. cbn [mbind result_bind].
    rewrite upstream_results, Hres. cbn [mbind result_bind].
    destruct Ho as [|d out prev outs]; [done|]. by destruct mode.
Qed.

(** ** Witnesses *)

Definition demo_config : enqueue_config :=
  {| DEFAULT_QUEUE := "default"; DEFAULT_PRIORITY := 0; DEFAULT_MAX_RETRIES := 0;
     DEFAULT_RETRY_BACKOFF := Qc_of_Z 1 |}.

Definition demo_wrapper (path : string) (priority : Z) : JobWrapper :=
  {| jw_task_path := path; jw_queue := None; jw_priority := Some priority; jw_max_retries := None;
     jw_retry_backoff := None; jw_allow_parallel := None; jw_timeout_seconds := None; jw_tags := [] |}.

Definition demo_signature (path : string) (priority : Z) : Signature :=
  {| sg_task := demo_wrapper path priority; sg_args := [JNum 1]; sg_kwargs := []; sg_options := no_options;
     sg_immutable := false |}.

Definition demo_turns (ev : env) (k : nat) : turn :=
  {| tu_env := ev; tu_id := 21 + Z.of_nat k; tu_others := λ st, st |}.

#[local] Abbreviation demo_chain steps ev := (chain_apply_async demo_config 1 steps (demo_turns ev) demo_empty).

(** a, then b and c, then d *)
Definition demo_steps : list step :=
  [StepSignature (demo_signature "app.a" 0);
   StepGroup [demo_signature "app.b" 0; demo_signature "app.c" 0];
   StepSignature (demo_signature "app.d" 0)].

Lemma chain_links_witness :
  ∃ st' n h, demo_chain demo_steps (demo_env 1000) = (st', n, Ok (Some h)) ∧ trail h = [[21]; [22; 23]; [24]] ∧
    linked st' [] PassSingle demo_steps (trail h).
Proof.
  do 3 eexists. split; [vm_compute; reflexivity|]. split; [vm_compute; reflexivity|].
  eapply (chain_links demo_config 1 demo_steps (demo_turns (demo_env 1000)) demo_empty); [done|].
  vm_compute. reflexivity.
Defined.

(** job 11 succeeded with 41 before the second step of its chain, job 13, was created *)
Definition demo_output : move_values :=
  {| mv_finished_at := None; mv_duration := None; mv_output := Some "41"; mv_error := None;
     mv_traceback := None; mv_termination_reason := None; mv_runs := None; mv_started_at := None;
     mv_worker_id := None; mv_worker_pid := None; mv_child_pid := None |}.

Definition demo_finished : store :=
  (completion_txn (demo_env 4000) 11 (Some 0) Success demo_output (Some demo_handle) OSuccess demo_claimed).1.

Definition demo_second : job_spec :=
  async_spec demo_config 5000 "app.b" [] (merged_options (demo_wrapper "app.b" 99) no_options) (Some [11])
    (Some (canvas_meta PassSingle)).

Definition demo_second_store : store := (create_job (demo_env 5000) 1 13 demo_second demo_finished).1.

Lemma demo_second_inv : inv [] demo_second_store.
Proof.
  apply (create_job_inv (demo_env 5000) (demo_env_ok 5000) 1 13 demo_second demo_finished).
  - destruct (completion_txn (demo_env 4000) 11 (Some 0) Success demo_output (Some demo_handle) OSuccess demo_claimed)
      as [st' r] eqn:E. unfold demo_finished. rewrite E.
    apply (completion_txn_sound (X:=[]) (demo_env 4000) 11) in E as [[? _] _]; [done|apply demo_claimed_inv| |done].
    intros a. rewrite demo_claimed_attempts. by intros ->%list_elem_of_singleton.
  - apply unused_id_intro, (bool_decide_unpack _). by vm_compute.
Qed.

Lemma claimed_step_gets_results_witness :
  ∃ st' j h, claim_job (demo_env 6000) ["default"] (Some 1) demo_second_store = (st', Done (Some (j, h))) ∧
    ∃ st1 outs, quiet [] demo_second_store st1 ∧
      Forall2 (λ d out, output (demo_env 6000) st1 d = Some out) [11] outs.
Proof.
  destruct (claim_job (demo_env 6000) ["default"] (Some 1) demo_second_store) as [st' r] eqn:E.
  assert (∃ j h, r = Done (Some (j, h)) ∧ j_id j = 13 ∧ j_spec j = with_created_at 5000 demo_second) as (j & h & -> & _ & Hsp).
  { assert (r = (claim_job (demo_env 6000) ["default"] (Some 1) demo_second_store).2) as -> by by rewrite E.
    clear E. vm_compute. eauto. }
  exists st', j, h. split; [done|].
  destruct (claimed_step_gets_results (demo_env 6000) ["default"] (Some 1) demo_second_store st' j h [11] PassSingle [])
    as (st1 & outs & Hq & _ & _ & Ho & _).
  - apply demo_env_ok.
  - apply demo_second_inv.
  - exact E.
  - by rewrite Hsp.
  - done.
  - by rewrite Hsp.
  - by exists st1, outs.
Defined.

(** ** Two gaps *)

(** An empty group breaks a chain in two: the step after it waits for nothing, and here it is even
    claimed before the first step. *)
Lemma empty_group_breaks_chain :
  let steps := [StepSignature (demo_signature "app.a" 0); StepGroup []; StepSignature (demo_signature "app.b" 9)] in
  let st := (demo_chain steps (demo_env 1000)).1.1 in
  ((λ j, (j_id j, js_dependencies (j_spec j))) <$> live st) = [(21, []); (22, [])] ∧
  match (claim_job (demo_env 2000) ["default"] (Some 1) st).2 with
  | Done (Some (j, _)) => j_id j = 22
  | _ => False
  end.
Proof. by vm_compute. Qed.

Definition delayed (s : Signature) (countdown : Qc) : Signature :=
  set_options s {| so_queue := None; so_priority := None; so_max_retries := None; so_retry_backoff := None;
                   so_allow_parallel := None; so_timeout_seconds := None; so_tags := None;
                   so_countdown := Some (Some countdown); so_eta := None; so_expires := None |}.

(** On a partitioned database a first step two days ahead is staged, where the judgement of dependencies
    does not look: the first claim fails the second step as if its dependency were gone. *)
Lemma staged_step_fails_next :
  let steps := [StepSignature (delayed (demo_signature "app.a" 0) (Qc_of_Z 172800)); StepSignature (demo_signature "app.b" 0)] in
  let st := (demo_chain steps (partitioned_env 1000)).1.1 in
  let st' := (claim_job (partitioned_env 2000) ["default"] (Some 1) st).1 in
  (sj_id <$> staged st') = [21] ∧
  ((λ j, (j_id j, j_status j, jr_error (j_run j))) <$> history st') = [(22, Failed, "Dependencies failed: [21]")].
Proof. by vm_compute. Qed.
