(* ===== verification/Trigger.v ===== *)
(** * Signed HTTP triggers

    core/signature.py and core/triggers.py: the signature of a request, the allow-list of source
    addresses, the cache that refuses a request seen before, and [handle], which runs jobs on
    behalf of a caller it has authenticated. The digests are arguments: [hmac_b64 secret message] is
    the base64 text of the HMAC-SHA256, [sha256_hex body] the hexadecimal digest. Times are
    microseconds; the configuration is what the settings answered. *)

From S2P Require Import Prelude Sql PyString Address Models Retry Attempts Ready Store Dependents Claim Complete Executor Child Demo.
From Stdlib Require Import Ascii QArith Qcanon Qround.
#[local] Open Scope Z_scope.

(** ** core/signature.py *)

(** [OverflowError]: an integer too large for a float. *)
Inductive trigger_error : Type := OverflowError | ValueError.

(** The integers [float] refuses: those that round to 2^1024 or beyond. *)
Definition float_overflows (n : Z) : bool := 2 ^ 1024 - 2 ^ 970 <=? Z.abs n.

(** [int(s)], which refuses more than 4300 digits *)
Definition py_int_bounded (l : chars) : option Z :=
  if (4300 <? length (filter (λ c, is_digit c = true) l))%nat then None else py_int l.

Section Signature.
Context (hmac_b64 : chars → chars → chars) (sha256_hex : chars → chars).

Definition _message (timestamp_str : chars) (body : option chars) : chars :=
  match body with
  | None => timestamp_str
  | Some body => timestamp_str ++ dot :: sha256_hex body
  end.

(** The signature and the timestamp text; [now] is [int(time.time())]. *)
Definition generate_signature (now : Z) (secret : chars) (timestamp : option Z) (body : option chars)
    : chars * chars :=
  let timestamp_str := to_chars (py_str_int (default now timestamp)) in
  (hmac_b64 secret (_message timestamp_str body), timestamp_str).

Definition verify_signature (now : time) (signature timestamp_str secret : chars) (max_age : Z)
    (body : option chars) : result trigger_error bool :=
  match py_int_bounded timestamp_str with
  | None => Ok false
  | Some timestamp =>
      if float_overflows timestamp then Err OverflowError
      else
        let age := Z.abs (now - seconds timestamp) in
        if seconds max_age <? age then Ok false
        else Ok (bool_decide (hmac_b64 secret (_message timestamp_str body) = signature))
  end.

Definition make_signed_request_headers (now : Z) (secret : chars) (body : option chars)
    : list (chars * chars) :=
  let '(signature, timestamp) := generate_signature now secret None body in
  [(to_chars "X-Signature", signature); (to_chars "X-Timestamp", timestamp)] ++
  match body with Some _ => [(to_chars "X-Signature-Version", to_chars "2")] | None => [] end.

(** ** core/triggers.py: the request *)

Record TriggerEnvelope (payload : Type) : Type := {
  te_body : chars;
  te_headers : list (chars * chars);
  te_payload : payload;
  te_remote_addr : option chars;
}.
#[global] Arguments te_body {payload} _.
#[global] Arguments te_headers {payload} _.
#[global] Arguments te_payload {payload} _.
#[global] Arguments te_remote_addr {payload} _.

(** ** The cache of requests *)

Definition fingerprint : Type := chars * chars.
Definition cache : Type := list (fingerprint * time).

Definition _IDEMPOTENCY_TTL_SECONDS : Z := 30.
Definition _IDEMPOTENCY_MAX_ENTRIES : nat := 1024.

Definition unexpired (now : time) (e : fingerprint * time) : Prop :=
  now - e.2 <= seconds _IDEMPOTENCY_TTL_SECONDS.
#[global] Instance unexpired_dec now e : Decision (unexpired now e).
Proof. unfold unexpired. apply _. Defined.

Definition _idempotency_seen (now : time) (key : fingerprint) (c : cache) : cache * bool :=
  let c := filter (unexpired now) c in
  if decide (key ∈ c.*1) then (c, true)
  else
    let c := c ++ [(key, now)] in
    (drop (length c - _IDEMPOTENCY_MAX_ENTRIES) c, false).

(** ** Settings *)

(** What [get_config] and the environment answered; [None] where the code falls back. *)
Record trigger_settings : Type := {
  cf_secret : option chars;
  env_secret : option chars;
  cf_require_body : option chars;
  env_require_body : option chars;
  cf_max_age : option Z;
  cf_allowed_ips : option (option (list chars));
}.

Definition _resolve_secret (s : trigger_settings) : option chars :=
  match cf_secret s with Some x => Some x | None => env_secret s end.

Definition _require_body_signature (s : trigger_settings) : bool :=
  let value := default (default [] (env_require_body s)) (cf_require_body s) in
  bool_decide (lower (strip value) ∈ (to_chars <$> ["1"; "true"; "yes"; "on"]%string)).

Definition _resolve_max_age (s : trigger_settings) : Z := default 5 (cf_max_age s).

Definition _DEFAULT_ALLOWED_IPS : list chars := [to_chars "127.0.0.1"; to_chars "::1"].

Definition _resolve_allowed_ips (s : trigger_settings) : option (list chars) :=
  default (Some _DEFAULT_ALLOWED_IPS) (cf_allowed_ips s).

Definition is_ip_allowed (s : trigger_settings) (remote_addr : option chars) : bool :=
  match _resolve_allowed_ips s with
  | None => true
  | Some allowed =>
      if decide (to_chars "*" ∈ allowed) then true
      else
        match remote_addr with
        | None | Some [] => false
        | Some addr =>
            match ip_address addr with
            | None => false
            | Some source => existsb (λ entry, bool_decide (ip_address entry = Some source)) allowed
            end
        end
  end.

(** ** The gate of [handle]: everything before the dispatch on the action *)

(** [headers.get(a) or headers.get(b)] *)
Definition header (h : list (chars * chars)) (a b : string) : option chars :=
  let get k := snd <$> first_where (λ p, p.1 = to_chars k) h in
  match get a with
  | None | Some [] => get b
  | v => v
  end.

Definition header_text (h : list (chars * chars)) (a b : string) : option chars :=
  match header h a b with Some [] => None | v => v end.

Inductive gate_verdict : Type := Refused (status_code : Z) | Granted (key : fingerprint).

Definition gate {P} (s : trigger_settings) (now : time) (e : TriggerEnvelope P) (c : cache)
    : cache * result trigger_error gate_verdict :=
  if negb (is_ip_allowed s (te_remote_addr e)) then (c, Ok (Refused 403))
  else
    match header_text (te_headers e) "X-Signature" "x-signature",
          header_text (te_headers e) "X-Timestamp" "x-timestamp" with
    | Some signature, Some timestamp =>
        match _resolve_secret s with
        | None | Some [] => (c, Ok (Refused 500))
        | Some secret =>
            let version := header (te_headers e) "X-Signature-Version" "x-signature-version" in
            let valid :=
              if decide (version = Some (to_chars "2"))
              then verify_signature now signature timestamp secret (_resolve_max_age s) (Some (te_body e))
              else if _require_body_signature s then Ok false
              else verify_signature now signature timestamp secret (_resolve_max_age s) None in
            match valid with
            | Err x => (c, Err x)
            | Ok false => (c, Ok (Refused 401))
            | Ok true =>
                match _idempotency_seen now (timestamp, signature) c with
                | (c, true) => (c, Ok (Refused 409))
                | (c, false) => (c, Ok (Granted (timestamp, signature)))
                end
            end
        end
    | _, _ => (c, Ok (Refused 401))
    end.

(** The state of the process after a request, and whether the request went on to the dispatch. *)
Definition admitted (r : result trigger_error gate_verdict) : option fingerprint :=
  match r with Ok (Granted k) => Some k | _ => None end.

(** Requests handled one after the other: the cache, and the fingerprints admitted with their times. *)
Fixpoint serve {P} (s : trigger_settings) (requests : list (time * TriggerEnvelope P)) (c : cache)
    : cache * list (fingerprint * time) :=
  match requests with
  | [] => (c, [])
  | (now, e) :: requests =>
      let '(c1, r) := gate s now e c in
      let '(c2, log) := serve s requests c1 in
      (c2, match admitted r with Some k => (k, now) :: log | None => log end)
  end.

(** ** What the gate checks *)

(** The request is signed for this body (version 2) or for its time alone, and fresh. *)
Record authentic {P} (s : trigger_settings) (now : time) (e : TriggerEnvelope P) (key : fingerprint) : Prop := {
  au_address : is_ip_allowed s (te_remote_addr e) = true;
  au_signature : header_text (te_headers e) "X-Signature" "x-signature" = Some key.2;
  au_timestamp : header_text (te_headers e) "X-Timestamp" "x-timestamp" = Some key.1;
  au_fresh : ∃ t, py_int_bounded key.1 = Some t ∧ Z.abs (now - seconds t) <= seconds (_resolve_max_age s);
  au_signed : ∃ secret, _resolve_secret s = Some secret ∧ secret ≠ [] ∧
    if decide (header (te_headers e) "X-Signature-Version" "x-signature-version" = Some (to_chars "2"))
    then key.2 = hmac_b64 secret (key.1 ++ dot :: sha256_hex (te_body e))
    else _require_body_signature s = false ∧ key.2 = hmac_b64 secret key.1;
}.

Lemma verify_signature_true now signature ts secret max_age body :
  verify_signature now signature ts secret max_age body = Ok true ↔
  ∃ t, py_int_bounded ts = Some t ∧ float_overflows t = false ∧
    Z.abs (now - seconds t) <= seconds max_age ∧ signature = hmac_b64 secret (_message ts body).
Proof.
  unfold verify_signature. destruct (py_int_bounded ts) as [t|]; [|split; [done|by intros (? & ? & _)]].
  destruct (float_overflows t) eqn:Ho; [split; [done|by intros (? & [= <-] & ? & _); congruence]|].
  destruct (Z.ltb_spec (seconds max_age) (Z.abs (now - seconds t))) as [Hlt|Hle].
  - split; [done|]. intros (? & [= <-] & _ & ? & _). lia.
  - split.
    + intros [= Hb%bool_decide_eq_true]. by exists t.
    + intros (? & [= <-] & _ & _ & ->). by rewrite bool_decide_eq_true_2.
Qed.

Lemma seen_spec now key c c' b :
  _idempotency_seen now key c = (c', b) →
  if b then c' = filter (unexpired now) c ∧ key ∈ c'.*1
  else key ∉ (filter (unexpired now) c).*1 ∧
       c' = drop (S (length (filter (unexpired now) c)) - _IDEMPOTENCY_MAX_ENTRIES)
              (filter (unexpired now) c ++ [(key, now)]).
Proof.
  unfold _idempotency_seen. case_decide as Hk; intros [= <- <-]; [done|]. split; [done|].
  by rewrite length_app, Nat.add_1_r.
Qed.

Lemma gate_cases {P} s now (e : TriggerEnvelope P) c c' r :
  gate s now e c = (c', r) →
  (c' = c ∧ admitted r = None) ∨
  (c' = filter (unexpired now) c ∧ r = Ok (Refused 409) ∧ ∃ key, authentic s now e key ∧ key ∈ c'.*1) ∨
  (∃ key, r = Ok (Granted key) ∧ authentic s now e key ∧ _idempotency_seen now key c = (c', false)).
Proof.
  unfold gate. destruct (is_ip_allowed s (te_remote_addr e)) eqn:Hip; cbn [negb]; [|intros [= <- <-]; by left].
  destruct (header_text (te_headers e) "X-Signature" "x-signature") as [sg|] eqn:Hsg; [|intros [= <- <-]; by left].
  destruct (header_text (te_headers e) "X-Timestamp" "x-timestamp") as [ts|] eqn:Hts; [|intros [= <- <-]; by left].
  destruct (_resolve_secret s) as [[|x sec]|] eqn:Hsec; [intros [= <- <-]; by left| |intros [= <- <-]; by left].
  set (secret := x :: sec) in *.
  set (valid := if decide _ then _ else _).
  destruct valid as [[]|] eqn:Hv; [|intros [= <- <-]; by left..].
  assert (authentic s now e (ts, sg)) as Hau.
  { subst valid. constructor; [done|done|done| |]; cbn [fst snd].
    - case_decide; [|destruct (_require_body_signature s); [done|]];
        apply verify_signature_true in Hv as (t & ? & _ & ? & _); by exists t.
    - exists secret. split_and!; [done|done|]. case_decide.
      + by apply verify_signature_true in Hv as (t & _ & _ & _ & ->).
      + destruct (_require_body_signature s); [done|]. split; [done|].
        by apply verify_signature_true in Hv as (t & _ & _ & _ & ->). }
  destruct (_idempotency_seen now (ts, sg) c) as [c1 []] eqn:Hseen; intros [= <- <-]; right.
  - left. apply seen_spec in Hseen as [-> Hin]. split_and!; [done|done|]. by exists (ts, sg).
  - right. by exists (ts, sg).
Qed.

Lemma verify_signature_err now signature ts secret max_age body x :
  verify_signature now signature ts secret max_age body = Err x → x = OverflowError.
Proof.
  unfold verify_signature. destruct (py_int_bounded ts) as [t|]; [|done].
  destruct (float_overflows t); [by intros [= <-]|]. by destruct (seconds max_age <? Z.abs (now - seconds t)).
Qed.

(** How a request that is not admitted ends. *)
Lemma gate_codes {P} s now (e : TriggerEnvelope P) c c' r :
  gate s now e c = (c', r) →
  match r with
  | Ok (Refused code) => code = 401 ∨ code = 403 ∨ code = 409 ∨ code = 500
  | Ok (Granted _) => True
  | Err x => x = OverflowError
  end.
Proof.
  unfold gate. destruct (is_ip_allowed s (te_remote_addr e)); cbn [negb]; [|intros [= <- <-]; auto].
  destruct (header_text (te_headers e) "X-Signature" "x-signature") as [sg|]; [|intros [= <- <-]; auto].
  destruct (header_text (te_headers e) "X-Timestamp" "x-timestamp") as [ts|]; [|intros [= <- <-]; auto].
  destruct (_resolve_secret s) as [[|x sec]|]; [intros [= <- <-]; auto| |intros [= <- <-]; auto].
  set (secret := x :: sec) in *. set (valid := if decide _ then _ else _).
  destruct valid as [[]|err] eqn:Hv; [|intros [= <- <-]; auto|].
  - destruct (_idempotency_seen now (ts, sg) c) as [c1 []]; intros [= <- <-]; auto.
  - intros [= <- <-]. subst valid. case_decide; [|destruct (_require_body_signature s); [done|]];
      by apply verify_signature_err in Hv.
Qed.

(** ** A fingerprint is admitted once *)

(** The cache holds what was admitted lately, whatever the time of the next request. *)
Definition remembers (now : time) (c : cache) (log : list (fingerprint * time)) : Prop :=
  ∀ t, now <= t → filter (unexpired t) c = filter (unexpired t) log.

Lemma unexpired_later t t' (l : list (fingerprint * time)) : t <= t' → filter (unexpired t') (filter (unexpired t) l) = filter (unexpired t') l.
Proof. intros Ht. apply (list_filter_filter_l (unexpired t') (unexpired t)). intros x. unfold unexpired. lia. Qed.

Lemma filter_Forall_ext {A} (P Q : A → Prop) {HP : ∀ x, Decision (P x)} {HQ : ∀ x, Decision (Q x)} l :
  Forall (λ x, P x ↔ Q x) l → filter P l = filter Q l.
Proof.
  induction 1 as [|x l Hx Hl IH]; [done|]. destruct (decide (P x)).
  - rewrite !filter_cons_True by tauto. by rewrite IH.
  - by rewrite !filter_cons_False by tauto.
Qed.

(** Never more requests in the time of the cache than it has entries. *)
Definition in_window (t : time) (e : fingerprint * time) : Prop :=
  t - seconds _IDEMPOTENCY_TTL_SECONDS <= e.2 <= t.
#[global] Instance in_window_dec t e : Decision (in_window t e).
Proof. unfold in_window. apply _. Defined.

Definition uncrowded (log : list (fingerprint * time)) : Prop :=
  ∀ t, (length (filter (in_window t) log) ≤ _IDEMPOTENCY_MAX_ENTRIES)%nat.

Lemma uncrowded_prefix l l' : uncrowded (l ++ l') → uncrowded l.
Proof. intros H t. specialize (H t). rewrite filter_app, length_app in H. lia. Qed.

Lemma remembers_admit now key c c' log :
  remembers now c log → Forall (λ e, e.2 <= now) log → uncrowded (log ++ [(key, now)]) →
  _idempotency_seen now key c = (c', false) →
  remembers now c' (log ++ [(key, now)]) ∧ key ∉ (filter (unexpired now) log).*1.
Proof.
  intros Hr Hpast Hun [Hk ->]%seen_spec. rewrite (Hr now) in * by lia. split; [|done].
  assert (unexpired now (key, now)) as Hnow by (unfold unexpired, seconds, _IDEMPOTENCY_TTL_SECONDS, usec_per_sec; simpl; lia).
  assert (S (length (filter (unexpired now) log)) ≤ _IDEMPOTENCY_MAX_ENTRIES)%nat as Hlen.
  { specialize (Hun now). rewrite (filter_Forall_ext _ (unexpired now)) in Hun.
    - rewrite filter_app, filter_cons_True, length_app in Hun by done. simpl in Hun. lia.
    - apply Forall_app. split; [|constructor; [unfold in_window, unexpired in *; simpl in *; lia|done]].
      eapply Forall_impl; [done|]. intros e He. unfold in_window, unexpired. simpl in He. lia. }
  replace (S (length (filter (unexpired now) log)) - _IDEMPOTENCY_MAX_ENTRIES)%nat with O by lia.
  intros t Ht. rewrite drop_0.
  etransitivity; [apply filter_app|]. etransitivity; [|symmetry; apply filter_app].
  f_equal. by apply unexpired_later.
Qed.

(** What is known of a past admission: its fingerprint was fresh then. *)
Definition fresh_then (max_age : Z) (e : fingerprint * time) : Prop :=
  ∃ t, py_int_bounded e.1.1 = Some t ∧ Z.abs (e.2 - seconds t) <= seconds max_age.

Lemma serve_once {P} s (requests : list (time * TriggerEnvelope P)) c now log c' log' :
  2 * _resolve_max_age s <= _IDEMPOTENCY_TTL_SECONDS →
  StronglySorted Z.le (now :: requests.*1) →
  remembers now c log → Forall (λ e, e.2 <= now) log → Forall (fresh_then (_resolve_max_age s)) log →
  NoDup log.*1 → uncrowded (log ++ log') →
  serve s requests c = (c', log') → NoDup (log ++ log').*1.
Proof.
  intros Hage. revert c now log c' log'.
  induction requests as [|[t e] requests IH]; intros c now log c' log' Hsort Hr Hpast Hfr Hnd Hun.
  { intros [= <- <-]. by rewrite app_nil_r. }
  cbn [serve]. destruct (gate s t e c) as [c1 r] eqn:Hg. destruct (serve s requests c1) as [c2 rest] eqn:Hs.
  intros [= <- <-]. inversion Hsort as [|? ? Hsort' Hle]; subst.
  assert (now <= t) as Hnt by (apply Forall_cons in Hle as [? _]; done).
  assert (Forall (λ e, e.2 <= t) log) as Hpast' by (apply (Forall_impl _ _ _ Hpast); intros x Hx; simpl in *; lia).
  apply gate_cases in Hg as [[-> Hn]|[(-> & -> & _)|(key & -> & Hau & Hseen)]].
  - rewrite Hn in *. apply (IH c t log c2 rest); try done. intros u Hu. apply Hr. lia.
  - cbn [admitted] in *. apply (IH (filter (unexpired t) c) t log c2 rest); try done.
    intros u Hu. etransitivity; [by apply unexpired_later|]. apply Hr. lia.
  - cbn [admitted] in *. rewrite (cons_middle (key, t)), app_assoc in Hun |- *.
    assert (remembers t c log) as Hrt by (intros u Hu; apply Hr; lia).
    destruct (remembers_admit t key c c1 log Hrt Hpast' (uncrowded_prefix _ _ Hun) Hseen) as [Hr1 Hk].
    assert (fresh_then (_resolve_max_age s) (key, t)) as Hfk by apply Hau.
    apply (IH c1 t (log ++ [(key, t)]) c2 rest); try done.
    + apply Forall_app. split; [done|]. constructor; [simpl; lia|done].
    + apply Forall_app. split; [done|]. by constructor.
    + rewrite fmap_app. apply NoDup_app. split_and!; [done| |apply NoDup_singleton].
      intros k Hk' ->%list_elem_of_singleton. apply Hk.
      apply list_elem_of_fmap in Hk' as ([k' u] & Heq & Hin). simpl in Heq. subst k'.
      apply list_elem_of_fmap. exists (key, u). split; [done|]. apply list_elem_of_filter. split; [|done].
      rewrite Forall_forall in Hfr. destruct (Hfr _ Hin) as (n & Hn & Ha).
      destruct Hfk as (n' & Hn' & Ha'). simpl in *. rewrite Hn in Hn'. injection Hn' as <-.
      unfold unexpired, seconds, _IDEMPOTENCY_TTL_SECONDS in *. simpl. unfold usec_per_sec in *. lia.
Qed.

Lemma serve_authentic {P} s (requests : list (time * TriggerEnvelope P)) : ∀ c c' log,
  serve s requests c = (c', log) →
  ∀ key t, (key, t) ∈ log → ∃ e, (t, e) ∈ requests ∧ authentic s t e key.
Proof.
  induction requests as [|[now e] requests IH]; intros c c' log; cbn [serve].
  { intros [= _ <-] key t ?%not_elem_of_nil. done. }
  destruct (gate s now e c) as [c1 r] eqn:Hg. destruct (serve s requests c1) as [c2 rest] eqn:Hs.
  intros [= _ <-] key t Hin.
  assert ((key, t) ∈ rest → ∃ e0, (t, e0) ∈ (now, e) :: requests ∧ authentic s t e0 key) as Hrest.
  { intros Hk. destruct (IH _ _ _ Hs key t Hk) as (e0 & He0 & Hau). exists e0. by split; [right|]. }
  apply gate_cases in Hg as [[_ Hn]|[(_ & -> & _)|(k & -> & Hau & _)]]; [rewrite Hn in Hin; auto|auto|].
  cbn [admitted] in Hin. apply elem_of_cons in Hin as [[= -> ->]|Hin]; [|auto].
  exists e. by split; [left|].
Qed.

(** The messages of the two versions never meet: a signature of a time alone is no signature of a time
    with a body, and signatures with a body agree only on the same time and digest. *)
Lemma strip_keeps c l : is_space c = false → c ∈ l → c ∈ strip l.
Proof.
  intros Hc. assert (∀ l, c ∈ l → c ∈ lstrip l) as Hl.
  { clear l. intros l. induction l as [|x l IH]; [done|]. simpl. intros [->|Hin]%elem_of_cons.
    - rewrite Hc. by left.
    - destruct (is_space x); [auto|by right]. }
  intros Hin. unfold strip. by apply elem_of_reverse, Hl, elem_of_reverse, Hl.
Qed.

Lemma int_digits_chars l acc b n c :
  int_digits acc b l = Some n → c ∈ l → is_digit c = true ∨ c = "_"%char.
Proof.
  revert acc b; induction l as [|x l IH]; intros acc b; [by intros _ ?%not_elem_of_nil|].
  cbn [int_digits]. destruct (is_digit x) eqn:Hx.
  - intros Hd [->|Hc]%elem_of_cons; [by left|by eapply IH].
  - destruct (decide (x = "_"%char)) as [->|]; [|done]. destruct b; [|done].
    destruct l as [|y l']; [done|]. destruct (is_digit y); [|done].
    intros Hd [->|Hc]%elem_of_cons; [by right|by eapply IH].
Qed.

Lemma py_int_no_dot l n : py_int_bounded l = Some n → dot ∉ l.
Proof.
  unfold py_int_bounded. case_match; [done|]. unfold py_int. intros Hi Hdot.
  apply strip_keeps in Hdot; [|done].
  assert (∀ l' acc b m, int_digits acc b l' = Some m → dot ∉ l') as Hd.
  { intros l' acc b m Hm Hin. by destruct (int_digits_chars _ _ _ _ _ Hm Hin). }
  destruct (strip l) as [|x l']; [by apply not_elem_of_nil in Hdot|].
  assert (x = "+"%char ∨ x = "-"%char ∨ int_digits 0 false (x :: l') = Some n) as Hx.
  { destruct x as [[] [] [] [] [] [] [] []]; auto. }
  destruct Hx as [->|[->|Hx]]; [| |by eapply Hd].
  - apply elem_of_cons in Hdot as [?|Hdot]; [done|]. by eapply Hd.
  - destruct (int_digits 0 false l') eqn:E; [|done]. apply elem_of_cons in Hdot as [?|Hdot]; [done|]. by eapply Hd.
Qed.

Lemma messages_separate t1 t2 n1 n2 b1 b2 :
  (∀ b, dot ∉ sha256_hex b) → py_int_bounded t1 = Some n1 → py_int_bounded t2 = Some n2 →
  _message t1 b1 = _message t2 b2 → t1 = t2 ∧ sha256_hex <$> b1 = sha256_hex <$> b2.
Proof.
  intros Hsha H1%py_int_no_dot H2%py_int_no_dot. unfold _message.
  destruct b1 as [b1|], b2 as [b2|]; simpl.
  - intros Heq. assert (partition_at dot (t1 ++ dot :: sha256_hex b1) = partition_at dot (t2 ++ dot :: sha256_hex b2)) as Hp
      by by rewrite Heq.
    rewrite !partition_join in Hp by done. injection Hp as -> ->. done.
  - intros <-. exfalso. apply H2, elem_of_app. by right; left.
  - intros ->. exfalso. apply H1, elem_of_app. by right; left.
  - by intros ->.
Qed.

End Signature.

(** ** The dispatch on the action *)

(** What [float(value)] makes of a JSON value; a value it refuses is [None]. *)
Inductive py_number : Type := Finite (q : Qc) | Infinite (negative : bool) | NaN.

Definition not_positive (n : py_number) : bool :=
  match n with
  | Finite q => bool_decide (q ≤ 0)%Qc
  | Infinite negative => negative
  | NaN => false
  end.

(** [cap < number] *)
Definition above (n : py_number) (cap : Qc) : bool :=
  match n with
  | Finite q => bool_decide (cap < q)%Qc
  | Infinite negative => negb negative
  | NaN => false
  end.

Definition _positive_number (value : option py_number) (fallback : option py_number) (cap : option Qc)
    : option py_number :=
  match value with
  | None => fallback
  | Some number =>
      if not_positive number then fallback
      else match cap with
           | Some c => Some (if above number c then Finite c else number)
           | None => Some number
           end
  end.

(** [int(number)] of a positive number *)
Definition int_of_number (n : py_number) : result trigger_error Z :=
  match n with
  | Finite q => Ok (Qfloor q)
  | Infinite _ => Err OverflowError
  | NaN => Err ValueError
  end.

Definition MAX_JOBS_PER_REQUEST : Qc := Q2Qc 100.

(** The payload as [handle] reads it; [pl_job_id] is [Some None] when [int(job_id)] raises. *)
Record payload : Type := {
  pl_action : option string;
  pl_queue_name : option string;
  pl_job_id : option (option Z);
  pl_max_jobs : option py_number;
  pl_budget_s : option py_number;
}.

Inductive trigger_body : Type :=
  | BError
  | BErrorAfter (job_ids : list Z)
  | BOk (claimed : bool) (job_ids : list Z)
  | BScheduled (job_ids : list Z).

Record TriggerResult : Type := { status_code : Z; tr_body : trigger_body }.

Definition reply (code : Z) (b : trigger_body) : TriggerResult := {| status_code := code; tr_body := b |}.

Definition found_id (f : found) : option Z :=
  match f with
  | FLive j | FHistory j => Some (j_id j)
  | FStaged s => Some (sj_id s)
  | FNone => None
  end.

Section dispatch.
(** The environment of the k-th claim and the job it runs, the id a retry of that job gets, and
    whether the deadline has passed before the k-th claim. *)
Context (ev_at : nat → env) (id_at : nat → Z) (past_deadline : nat → bool).
Context (threshold : Z) (uniform : Qc → Qc → Qc).
Context {exn_class : Type} (isinstance : exn_class → exn_class → bool).
Context (load : string → option (@task_attrs exn_class)).
Context (RETRY_BACKOFF_MAX : option Qc) (RETRY_JITTER : bool).
Context (raising : store_error → raised exn_class) (run : queued_job → task_run exn_class).

#[local] Abbreviation execute k c st :=
  (execute_job (ev_at k) threshold uniform isinstance load RETRY_BACKOFF_MAX RETRY_JITTER raising
     (j_id c.1) (Some c.2) run (id_at k) st).

(** [while len(job_ids) < max_jobs]; [n] jobs may still run, [job_ids] have run. *)
Fixpoint trigger_loop (budget : bool) (queue : string) (n : nat) (job_ids : list Z) (st : store)
    : store * TriggerResult :=
  let stop := reply 200 (BOk (negb (bool_decide (job_ids = []))) job_ids) in
  let k := length job_ids in
  match n with
  | O => (st, stop)
  | S n =>
      if negb (bool_decide (job_ids = [])) && budget && past_deadline k then (st, stop)
      else
        match claim_job (ev_at k) [queue] None st with
        | (st1, Done None) => (st1, stop)
        | (st1, Done (Some c)) =>
            match execute k c st1 with
            | (st2, Ok _) => trigger_loop budget queue n (job_ids ++ [j_id c.1]) st2
            | (st2, Err _) => (st2, reply 500 (BErrorAfter (job_ids ++ [j_id c.1])))
            end
        | (st1, _) => (st1, reply 500 BError)
        end
  end.

Definition run_one (id : Z) (st : store) : store * TriggerResult :=
  match found_id (get_job_by_id (ev_at 0) st id) with
  | None => (st, reply 404 BError)
  | Some id =>
      match claim_job_by_id (ev_at 0) id None st with
      | (st1, None) => (st1, reply 409 BError)
      | (st1, Some c) =>
          match execute O c st1 with
          | (st2, Ok _) => (st2, reply 200 (BOk true [j_id c.1]))
          | (st2, Err _) => (st2, reply 500 BError)
          end
      end
  end.

Definition _dispatch_process_queue (p : payload) (st : store) : store * result trigger_error TriggerResult :=
  let queue := match pl_queue_name p with None | Some EmptyString => "default"%string | Some q => q end in
  match pl_job_id p with
  | Some None => (st, Ok (reply 404 BError))
  | Some (Some id) => let '(st', r) := run_one id st in (st', Ok r)
  | None =>
      match int_of_number (default NaN (_positive_number (pl_max_jobs p) (Some (Finite (Q2Qc 1))) (Some MAX_JOBS_PER_REQUEST))) with
      | Err e => (st, Err e)
      | Ok max_jobs =>
          let budget := if _positive_number (pl_budget_s p) None None then true else false in
          let '(st', r) := trigger_loop budget queue (Z.to_nat max_jobs) [] st in (st', Ok r)
      end
  end.

(** [handle]. [run_due_tasks] is the scheduler with the ids of the jobs it enqueued; [None] when it
    raised. *)
Context (run_due_tasks : store → store * option (list Z)).

Definition handle (hmac_b64 : chars → chars → chars) (sha256_hex : chars → chars) (s : trigger_settings)
    (now : time) (e : TriggerEnvelope payload) (c : cache) (st : store)
    : cache * store * result trigger_error TriggerResult :=
  match gate hmac_b64 sha256_hex s now e c with
  | (c, Err x) => (c, st, Err x)
  | (c, Ok (Refused code)) => (c, st, Ok (reply code BError))
  | (c, Ok (Granted _)) =>
      let action := default "process_queue"%string (pl_action (te_payload e)) in
      if decide (action = "process_queue"%string) then
        let '(st', r) := _dispatch_process_queue (te_payload e) st in (c, st', r)
      else if decide (action = "process_scheduled"%string) then
        match run_due_tasks st with
        | (st', Some ids) => (c, st', Ok (reply 200 (BScheduled ids)))
        | (st', None) => (c, st', Ok (reply 500 BError))
        end
      else (c, st, Ok (reply 400 BError))
  end.

(** ** Lemmas on the dispatch *)

Definition body_ids (b : trigger_body) : list Z :=
  match b with BError => [] | BErrorAfter l | BOk _ l | BScheduled l => l end.

Lemma trigger_loop_ids budget queue n : ∀ job_ids st st' r,
  trigger_loop budget queue n job_ids st = (st', r) →
  (length (body_ids (tr_body r)) ≤ length job_ids + n)%nat ∧
  (status_code r = 200 → ∃ l, body_ids (tr_body r) = job_ids ++ l).
Proof using Type.
  induction n as [|n IH]; intros job_ids st st' r; cbn [trigger_loop].
  { intros [= _ <-]. simpl. split; [lia|]. intros _. exists []. by rewrite app_nil_r. }
  case_match.
  { intros [= _ <-]. simpl. split; [lia|]. intros _. exists []. by rewrite app_nil_r. }
  destruct (claim_job _ _ _ st) as [st1 [[c|]| |]]; [|intros [= _ <-]; simpl; split; [lia|]..].
  - destruct (execute_job _ _ _ _ _ _ _ _ _ _ _ _ st1) as [st2 [h|e]].
    + intros Hl. destruct (IH _ _ _ _ Hl) as [Hlen Hids]. rewrite length_app in Hlen. simpl in Hlen.
      split; [lia|]. intros Hc. destruct (Hids Hc) as [l ->]. exists (j_id c.1 :: l). by rewrite <-app_assoc.
    + intros [= _ <-]. simpl. rewrite length_app. simpl. split; [lia|done].
  - intros _. exists []. by rewrite app_nil_r.
  - done.
  - done.
Qed.

(** A request without a job id runs at most as many jobs as it asks for, and never more than 100. *)
Lemma process_queue_bounded p st st' r :
  pl_job_id p = None → _dispatch_process_queue p st = (st', Ok r) →
  (length (body_ids (tr_body r)) ≤ 100)%nat ∧
  ∀ q : Qc, pl_max_jobs p = Some (Finite q) → (0 < q)%Qc → Z.of_nat (length (body_ids (tr_body r))) <= Qfloor q.
Proof using Type.
  intros Hid. unfold _dispatch_process_queue. rewrite Hid.
  destruct (int_of_number _) as [m|] eqn:Hm; [|done].
  destruct (trigger_loop _ _ _ _ st) as [st1 r1] eqn:Hl. intros [= <- <-].
  apply trigger_loop_ids in Hl as [Hlen _]. simpl in Hlen.
  assert (∀ q : Qc, (q ≤ MAX_JOBS_PER_REQUEST)%Qc → Qfloor q <= 100) as Hcap.
  { intros q Hq. change 100 with (Qfloor MAX_JOBS_PER_REQUEST). by apply Qfloor_resp_le. }
  assert (∀ q : Qc, (0 < q)%Qc → 0 <= Qfloor q) as Hpos.
  { intros q Hq. change 0 with (Qfloor 0%Qc) at 1. apply Qfloor_resp_le, Qclt_le_weak, Hq. }
  unfold _positive_number in Hm. destruct (pl_max_jobs p) as [[q|[]|]|]; cbn [default not_positive above] in Hm.
  - case_bool_decide as Hle; cbn [default int_of_number id] in Hm.
    + assert (m = 1) as -> by (injection Hm as <-; reflexivity). split; [lia|].
      intros ? [= <-] Hlt. by apply Qclt_not_le in Hlt.
    + apply Qcnot_le_lt in Hle. case_bool_decide as Hcq; cbn [default int_of_number id] in Hm.
      * assert (m = 100) as -> by (injection Hm as <-; reflexivity). split; [lia|].
        intros ? [= <-] _. transitivity 100; [lia|].
        change 100 with (Qfloor MAX_JOBS_PER_REQUEST). apply Qfloor_resp_le, Qclt_le_weak, Hcq.
      * assert (m = Qfloor q) as -> by by injection Hm.
        apply Qcnot_lt_le in Hcq. pose proof (Hcap q Hcq). pose proof (Hpos q Hle). split; [lia|].
        intros ? [= <-] _. lia.
  - assert (m = 1) as -> by (injection Hm as <-; reflexivity). split; [lia|done].
  - assert (m = 100) as -> by (injection Hm as <-; reflexivity). split; [lia|done].
  - done.
  - assert (m = 1) as -> by (injection Hm as <-; reflexivity). split; [lia|done].
Qed.

(** ** Theorems *)

(** C31: Whatever a request contains, the queue changes only when its source address is allowed, its
    two headers carry a signature under the configured secret that is fresh, made for this body when
    the request claims version 2 and otherwise only if body signatures are not required, and the same
    pair was not admitted within the time of the cache. Every other request ends with an error status
    or an exception and leaves the queue as it was. *)
Theorem only_authentic_changes hmac_b64 sha256_hex s now e c st c' st' r :
  handle hmac_b64 sha256_hex s now e c st = (c', st', r) →
  (∃ key, authentic hmac_b64 sha256_hex s now e key ∧ key ∉ (filter (unexpired now) c).*1) ∨
  (st' = st ∧ match r with Ok t => (status_code t = 401 ∨ status_code t = 403 ∨ status_code t = 409 ∨ status_code t = 500) | Err x => x = OverflowError end).
Proof using Type.
  unfold handle. destruct (gate hmac_b64 sha256_hex s now e c) as [c1 o] eqn:Hg.
  pose proof (gate_cases _ _ _ _ _ _ _ _ Hg) as Hcases.
  pose proof (gate_codes _ _ _ _ _ _ _ _ Hg) as Hcode.
  destruct o as [[code|key]|x].
  - intros [= <- <- <-]. by right.
  - intros _. left. destruct Hcases as [[_ ?]|[(_ & ? & _)|(k & [= ->] & Hau & Hseen)]]; [done..|].
    exists k. split; [done|]. by apply seen_spec in Hseen as [? _].
  - intros [= <- <- <-]. by right.
Qed.

End dispatch.

(** C32: As long as signatures expire within half the time of the cache and the cache is never crowded,
    no pair of timestamp and signature is admitted twice in any sequence of requests, and each
    admitted request was authentic when it came. *)
Theorem admitted_once {P} hmac_b64 sha256_hex s (requests : list (time * TriggerEnvelope P)) c' log :
  2 * _resolve_max_age s <= _IDEMPOTENCY_TTL_SECONDS → StronglySorted Z.le requests.*1 → uncrowded log →
  serve hmac_b64 sha256_hex s requests [] = (c', log) →
  NoDup log.*1 ∧ ∀ key t, (key, t) ∈ log → ∃ e, (t, e) ∈ requests ∧ authentic hmac_b64 sha256_hex s t e key.
Proof.
  intros Hage Hsort Hun Hs. split; [|by eapply serve_authentic].
  destruct requests as [|[t e] requests]; [injection Hs as <- <-; apply NoDup_nil_2|].
  apply (serve_once hmac_b64 sha256_hex s ((t, e) :: requests) [] t [] c' log); try done; [|apply NoDup_nil_2].
  constructor; [done|]. inversion Hsort; subst. constructor; [simpl; lia|done].
Qed.

(** ** Concrete requests *)

Lemma surjective_pairing3 {A B C} (p : A * B * C) : p = (p.1.1, p.1.2, p.2).
Proof. by destruct p as [[] ?]. Qed.

(** Stand-ins for the digests that keep messages apart. *)
Definition demo_hmac (secret message : chars) : chars := secret ++ "|"%char :: message.
Definition demo_sha (body : chars) : chars := mbind (λ c, py_str (code c)) body.

Definition demo_settings (max_age : option Z) : trigger_settings :=
  {| cf_secret := Some (to_chars "key"); env_secret := None; cf_require_body := None;
     env_require_body := None; cf_max_age := max_age; cf_allowed_ips := None |}.

Definition demo_payload (max_jobs : py_number) : payload :=
  {| pl_action := None; pl_queue_name := None; pl_job_id := None; pl_max_jobs := Some max_jobs;
     pl_budget_s := None |}.

Definition demo_request (timestamp : string) (max_jobs : py_number) : TriggerEnvelope payload :=
  {| te_body := to_chars "{}";
     te_headers := [(to_chars "x-signature", demo_hmac (to_chars "key") (_message demo_sha (to_chars timestamp) (Some (to_chars "{}"))));
                    (to_chars "x-timestamp", to_chars timestamp); (to_chars "x-signature-version", to_chars "2")];
     te_payload := demo_payload max_jobs; te_remote_addr := Some (to_chars "127.0.0.1") |}.

(** A request, its replay within the life of the signature, and its replay after it. *)
Definition demo_requests : list (time * TriggerEnvelope payload) :=
  [(seconds 1000, demo_request "1000" NaN); (seconds 1004, demo_request "1000" NaN); (seconds 1040, demo_request "1000" NaN)].

Lemma short_log_uncrowded log : (length log ≤ 1024)%nat → uncrowded log.
Proof. intros Hl t. pose proof (length_filter (in_window t) log). unfold _IDEMPOTENCY_MAX_ENTRIES. lia. Qed.

Lemma admitted_once_witness :
  (serve demo_hmac demo_sha (demo_settings None) demo_requests []).2.*2 = [seconds 1000] ∧
  NoDup (serve demo_hmac demo_sha (demo_settings None) demo_requests []).2.*1.
Proof.
  split; [vm_compute; reflexivity|].
  refine (proj1 (admitted_once demo_hmac demo_sha (demo_settings None) demo_requests
    (serve demo_hmac demo_sha (demo_settings None) demo_requests []).1 _ _ _ _ _)).
  - vm_compute. discriminate.
  - repeat constructor; vm_compute; discriminate.
  - apply short_log_uncrowded, Nat.leb_le. vm_compute. reflexivity.
  - apply surjective_pairing.
Defined.

(** With a life of the signature beyond half the time of the cache the same request is admitted
    again once the cache has forgotten it. *)
Lemma replay_after_cache :
  (serve demo_hmac demo_sha (demo_settings (Some 60)) demo_requests []).2.*2 = [seconds 1000; seconds 1040].
Proof. vm_compute. reflexivity. Qed.

(** A timestamp too large for a float raises before any signature is compared. *)
Lemma huge_timestamp_raises :
  (gate demo_hmac demo_sha (demo_settings None) (seconds 1000)
     {| te_body := []; te_payload := tt; te_remote_addr := Some (to_chars "::1");
        te_headers := [(to_chars "X-Signature", to_chars "x");
                       (to_chars "X-Timestamp", replicate 400 "9"%char)] |} []).2 = Err OverflowError.
Proof. vm_compute. reflexivity. Qed.

Definition demo_handling (request : TriggerEnvelope payload) : cache * store * result trigger_error TriggerResult :=
  handle (λ k, demo_env (3000 + 1000 * Z.of_nat k)) (λ k, 21 + Z.of_nat k) (λ _, false) 1 (λ a b : Qc, a)
    (λ _ _ : unit, true) (λ _, None) None false (λ _, demo_raised) (λ _, Returned "done"%string) (λ st, (st, Some []))
    demo_hmac demo_sha (demo_settings None) (seconds 1000) request [] demo_two.

(** One request runs a job and the job that waited for it. *)
Lemma only_authentic_changes_witness :
  snd (demo_handling (demo_request "1000" (Finite (Q2Qc 5)))) = Ok (reply 200 (BOk true [11; 12])) ∧
  ∃ key, authentic demo_hmac demo_sha (demo_settings None) (seconds 1000)
    (demo_request "1000" (Finite (Q2Qc 5))) key.
Proof.
  split; [vm_compute; reflexivity|].
  destruct (only_authentic_changes (λ k, demo_env (3000 + 1000 * Z.of_nat k)) (λ k, 21 + Z.of_nat k) (λ _, false) 1
    (λ a b : Qc, a) (λ _ _ : unit, true) (λ _, None) None false (λ _, demo_raised) (λ _, Returned "done"%string)
    (λ st, (st, Some [])) demo_hmac demo_sha (demo_settings None) (seconds 1000)
    (demo_request "1000" (Finite (Q2Qc 5))) [] demo_two
    _ _ _ (surjective_pairing3 _)) as [(key & Hau & _)|[_ Hr]].
  - exists key. exact Hau.
  - exfalso. vm_compute in Hr. destruct Hr as [?|[?|[?|?]]]; discriminate.
Defined.

(** [NaN], which JSON as Python reads it may contain, passes every comparison and [int] refuses it. *)
Lemma nan_max_jobs_raises :
  snd (demo_handling (demo_request "1000" NaN)) = Err ValueError.
Proof. vm_compute. reflexivity. Qed.
