(* ===== verification/Liveness.v ===== *)
(** * Workers and the zombie sweep (core/daemon.py, core/liveness.py, fastapi_sqlery/backend.py)

    The rows of the worker table with their heartbeats, what the daemon does with them, and
    [_fail_zombie_running_jobs], the sweep that fails running jobs nobody executes any more. The
    daemon works on plain [RunningJobLiveness] records that the backend builds; here the backend is
    the standalone one. Whether a process exists is an argument ([pid_alive]), as is the host name. *)

From S2P Require Import Prelude Sql PyString Models Retry Attempts Ready History Store StoreInv Dependents Claim Complete Demo Queue Outcomes Executor Child.
#[local] Open Scope string_scope.
#[local] Open Scope list_scope.
#[local] Open Scope Z_scope.

(** ** Friendly names (django_sqlery/friendly_name.py) *)

Definition ADJECTIVES : list string :=
  ["agile"; "amber"; "ancient"; "autumn"; "bold"; "brave"; "bright"; "brisk";
   "calm"; "clever"; "crisp"; "daring"; "dawn"; "deep"; "eager"; "fancy";
   "fast"; "fierce"; "firm"; "frosty"; "gentle"; "golden"; "grand"; "green";
   "happy"; "hardy"; "honest"; "icy"; "iron"; "keen"; "kind"; "lively";
   "lucky"; "mighty"; "misty"; "modern"; "noble"; "odd"; "plain"; "proud";
   "quick"; "quiet"; "rapid"; "red"; "rich"; "rocky"; "royal"; "rugged";
   "sharp"; "silent"; "silver"; "smart"; "solid"; "spring"; "steady"; "stone";
   "stormy"; "strong"; "swift"; "tall"; "tough"; "true"; "urban"; "vast";
   "vivid"; "warm"; "wild"; "wise"; "young"; "zesty"].

Definition PROFESSIONS : list string :=
  ["builder"; "carpenter"; "mason"; "plumber"; "electrician"; "welder";
   "blacksmith"; "roofer"; "painter"; "tiler"; "mechanic"; "locksmith";
   "cooper"; "fletcher"; "tanner"; "chandler"; "weaver"; "miller"; "brewer";
   "dyer"; "potter"; "scribe"; "smith"; "cartwright"; "wheelwright";
   "armorer"; "farmer"; "miner"; "logger"; "fisher"; "bricklayer"; "glazier";
   "ironworker"; "shipwright"; "architect"; "planner"; "forger"; "maker";
   "craftsman"; "artisan"; "founder"; "constructor"].

Definition HEX_LETTERS : list string := ["a"; "b"; "c"; "d"; "e"; "f"].

Definition pick (l : list string) (n : Z) : string :=
  default "" (l !! Z.to_nat (n mod Z.of_nat (length l))).

(** [n] is the integer of the UUID. *)
Definition uuid_to_friendly (n : Z) : string :=
  let adjectives := Z.of_nat (length ADJECTIVES) in
  let n1 := n / adjectives in
  let n2 := n1 / adjectives in
  let n3 := n2 / Z.of_nat (length PROFESSIONS) in
  pick ADJECTIVES n +:+ "-" +:+ pick ADJECTIVES n1 +:+ "-" +:+ pick PROFESSIONS n2 +:+ "-" +:+
  py_str_int (n3 mod 10) +:+ pick HEX_LETTERS (n3 / 10).

(** ** Worker rows *)

Section liveness.
(** The process that runs the operation, its node, and the operating system's answer to
    [os.kill(pid, 0)]: a [PermissionError] means the process exists. *)
Context (ev : env) (node_id : string) (pid_alive : Z → bool).
Context (WORKER_ALIVE_TIMEOUT : Z).

Definition worker_by_id (st : store) (id : Z) : option worker_row := first_where (λ w, w_id w = id) (workers st).

Definition set_worker_heartbeat (status : worker_status) (current_job_id : option Z)
    (jobs_processed : option Z) (w : worker_row) : worker_row :=
  {| w_id := w_id w; w_node_id := w_node_id w; w_pid := w_pid w; w_status := status;
     w_current_job_id := current_job_id; w_jobs_processed := default (w_jobs_processed w) jobs_processed;
     w_last_heartbeat := e_now ev |}.

(** [id] is the key of the worker id; [daemon]: the worker id starts with ["daemon_"]. *)
Definition update_worker_heartbeat (id : Z) (daemon : bool) (status : worker_status)
    (current_job_id jobs_processed : option Z) (st : store) : store :=
  match worker_by_id st id with
  | Some _ =>
      with_workers (update_where (λ w, w_id w = id)
                      (set_worker_heartbeat status current_job_id jobs_processed) (workers st)) st
  | None =>
      with_workers (workers st ++
        [{| w_id := id; w_node_id := node_id; w_pid := if daemon then 0 else e_pid ev; w_status := status;
            w_current_job_id := current_job_id; w_jobs_processed := default 0 jobs_processed;
            w_last_heartbeat := e_now ev |}]) st
  end.

(** Only the heartbeat: the worker owns its status and its job. *)
Definition refresh_worker_heartbeat (id : Z) (st : store) : store :=
  with_workers (update_where (λ w, w_id w = id)
    (λ w, {| w_id := w_id w; w_node_id := w_node_id w; w_pid := w_pid w; w_status := w_status w;
             w_current_job_id := w_current_job_id w; w_jobs_processed := w_jobs_processed w;
             w_last_heartbeat := e_now ev |}) (workers st)) st.

Definition delete_worker_registration (id : Z) (st : store) : store * nat :=
  match worker_by_id st id with
  | Some _ => (with_workers (delete_where (λ w, w_id w = id) (workers st)) st, 1%nat)
  | None => (st, 0%nat)
  end.

(** [ORDER BY last_heartbeat DESC] *)
Definition newest_heartbeat (a b : worker_row) : Prop := w_last_heartbeat b <= w_last_heartbeat a.
#[global] Instance newest_heartbeat_dec a b : Decision (newest_heartbeat a b).
Proof. unfold newest_heartbeat. apply _. Defined.

Definition get_worker_heartbeats (active_only : bool) (st : store) : list worker_row :=
  order_by newest_heartbeat
    (if active_only
     then filter (λ w, e_now ev - seconds WORKER_ALIVE_TIMEOUT <= w_last_heartbeat w ∧ w_status w ≠ Dead) (workers st)
     else workers st).

(** ** The daemon's upkeep of the rows *)

(** One round of [_heartbeat_workers]: a live process is asked to report (not modelled) and its
    heartbeat is refreshed, a row without a process is marked dead. A key never reads as a daemon id:
    it is the text of a UUID. *)
Definition heartbeat_one (w : worker_row) (st : store) : store :=
  if decide (w_node_id w ≠ node_id ∨ w_pid w <= 0 ∨ w_pid w = e_pid ev) then st
  else if pid_alive (w_pid w) then refresh_worker_heartbeat (w_id w) st
  else update_worker_heartbeat (w_id w) false Dead None None st.

Definition _heartbeat_workers (st : store) : store :=
  foldl (λ st w, heartbeat_one w st) st (get_worker_heartbeats true st).

(** [_cleanup_stale_workers_all_nodes] with the standalone backend: the lookup of the worker's jobs
    goes through the Django models, which are not there; the error is logged and the row is marked
    dead. *)
Definition cleanup_worker (w : worker_row) (st : store) : store :=
  if decide (w_pid w = 0 ∨ w_status w = Dead) then st
  else if decide (w_last_heartbeat w < e_now ev - seconds WORKER_ALIVE_TIMEOUT)
  then update_worker_heartbeat (w_id w) false Dead None None st
  else st.

Definition _cleanup_stale_workers_all_nodes (st : store) : store :=
  foldl (λ st w, cleanup_worker w st) st (get_worker_heartbeats false st).

(** [_purge_dead_workers]; [delete] is the [delete] method of a row, where it has one. *)
Definition _purge_dead_workers (delete : option (Z → store → store)) (max_age_seconds : Z) (st : store) : store :=
  foldl (λ st w,
      if decide (w_status w = Dead ∧ w_last_heartbeat w < e_now ev - seconds max_age_seconds)
      then match delete with Some d => d (w_id w) st | None => st end
      else st)
    st (get_worker_heartbeats false st).

(** ** The zombie sweep *)

Record RunningJobLiveness : Type := {
  rl_job_id : Z;
  rl_started_at : option time;
  rl_worker_pid : option Z;
  rl_worker_node_id : option string;
  rl_worker_status : option worker_status;
  rl_worker_current_job_id : option Z;
  rl_worker_last_heartbeat : option time;
  rl_worker_friendly_name : string;
  rl_has_worker : bool;
}.

(** The record of a running job, as its open attempt shows it, and the row of its worker. *)
Definition liveness_of (st : store) (j : queued_job) : RunningJobLiveness :=
  let worker := jr_worker_id (j_run j) ≫= worker_by_id st in
  {| rl_job_id := j_id j; rl_started_at := jr_started_at (j_run j); rl_worker_pid := jr_worker_pid (j_run j);
     rl_worker_node_id := w_node_id <$> worker; rl_worker_status := w_status <$> worker;
     rl_worker_current_job_id := worker ≫= w_current_job_id;
     rl_worker_last_heartbeat := w_last_heartbeat <$> worker;
     rl_worker_friendly_name := default "None" ((λ w, uuid_to_friendly (w_id w)) <$> worker);
     rl_has_worker := bool_decide (is_Some worker) |}.

Definition get_running_jobs_for_liveness (queue_names : list string) (st : store) : list RunningJobLiveness :=
  liveness_of st <$> running_jobs queue_names st.

Definition truthy (o : option Z) : bool := match o with Some n => negb (n =? 0) | None => false end.

Definition started_before (r : RunningJobLiveness) (cutoff : time) : bool :=
  match rl_started_at r with Some s => s <? cutoff | None => false end.

Definition age (t : option time) : string :=
  py_str_int (Z.quot (e_now ev - default 0 t) usec_per_sec).

(** The five checks; each one is made only if the ones before found nothing. *)
Definition pid_check (r : RunningJobLiveness) : option string :=
  if truthy (rl_worker_pid r) && bool_decide (rl_worker_node_id r = Some node_id)
     && negb (pid_alive (default 0 (rl_worker_pid r)))
  then Some ("Worker PID " +:+ py_str_int (default 0 (rl_worker_pid r)) +:+ " no longer exists on " +:+ node_id)
  else None.

Definition dead_check (r : RunningJobLiveness) : option string :=
  if bool_decide (rl_worker_status r = Some Dead)
  then Some ("Assigned worker " +:+ rl_worker_friendly_name r +:+ " is dead") else None.

Definition moved_on_check (concurrent_workers : bool) (r : RunningJobLiveness) : option string :=
  if negb concurrent_workers && negb (bool_decide (rl_worker_current_job_id r = Some (rl_job_id r))) then
    if truthy (rl_worker_current_job_id r)
    then Some ("Worker " +:+ rl_worker_friendly_name r +:+ " moved on to job #" +:+
               py_str_int (default 0 (rl_worker_current_job_id r)) +:+ " — this job was abandoned")
    else if started_before r (e_now ev - seconds WORKER_ALIVE_TIMEOUT)
    then Some ("Worker " +:+ rl_worker_friendly_name r +:+ " is idle but job has been running for " +:+
               age (rl_started_at r) +:+ "s — zombie")
    else None
  else None.

Definition heartbeat_check (r : RunningJobLiveness) : option string :=
  match rl_worker_last_heartbeat r with
  | Some hb =>
      if hb <? e_now ev - seconds (WORKER_ALIVE_TIMEOUT * 3)
      then Some ("Worker " +:+ rl_worker_friendly_name r +:+ " heartbeat stale (" +:+ age (Some hb) +:+
                 "s old, threshold " +:+ py_str_int (WORKER_ALIVE_TIMEOUT * 3) +:+ "s)")
      else None
  | None => None
  end.

Definition or_else {A} (o : option A) (p : option A) : option A :=
  match o with Some a => Some a | None => p end.

Definition zombie_reason (concurrent_workers : bool) (r : RunningJobLiveness) : option string :=
  or_else (pid_check r)
    (if rl_has_worker r then
       or_else (dead_check r) (or_else (moved_on_check concurrent_workers r) (heartbeat_check r))
     else if concurrent_workers && match rl_started_at r with
               | Some s => e_now ev - seconds WORKER_ALIVE_TIMEOUT <=? s | None => false end
          then None else Some "Running job has no worker assigned").

(** Exceptions of [fail_zombie_job] are logged and the sweep goes on. *)
Definition zombie_step (concurrent_workers : bool) (acc : store * nat) (r : RunningJobLiveness) : store * nat :=
  let '(st, failed_count) := acc in
  match zombie_reason concurrent_workers r with
  | None => (st, failed_count)
  | Some reason =>
      match fail_zombie_job ev (rl_job_id r) reason st with
      | (st', Ok true) => (st', S failed_count)
      | (st', _) => (st', failed_count)
      end
  end.

Definition _fail_zombie_running_jobs (queue_names : list string) (concurrent_workers : bool) (st : store) : store * nat :=
  foldl (zombie_step concurrent_workers) (st, 0%nat) (get_running_jobs_for_liveness queue_names st).

(** ** The running jobs *)

Lemma put_job_new j l : j_id j ∉ j_id <$> l → put_job j l = l ++ [j].
Proof using Type.
  induction l as [|x l IH]; simpl; [done|]. rewrite not_elem_of_cons. intros [Hne Hl].
  rewrite decide_False by congruence. by rewrite IH.
Qed.

Definition running_row (queue_names : list string) (st : store) (a : job_attempt) : option queued_job :=
  (λ j, overlay_running j (Some a)) <$>
    first_where (λ j, j_id j = at_job_id a ∧ j_status j = Queued ∧ of_queues queue_names j) (live st).

Lemma running_row_Some queue_names st a x :
  running_row queue_names st a = Some x →
  ∃ j, x = overlay_running j (Some a) ∧ j ∈ live st ∧ j_id j = at_job_id a ∧ j_status j = Queued ∧ of_queues queue_names j.
Proof using Type.
  unfold running_row. destruct (first_where _ _) as [j|] eqn:Hj; [|done]. intros [= <-].
  apply first_where_Some in Hj as (? & ? & ? & ?). by exists j.
Qed.

Lemma running_fold queue_names st l : ∀ acc,
  NoDup (at_job_id <$> l) → (∀ x, x ∈ acc → j_id x ∉ at_job_id <$> l) →
  foldl (λ jobs a,
      match first_where (λ j, j_id j = at_job_id a ∧ j_status j = Queued ∧ of_queues queue_names j) (live st) with
      | Some j => put_job (overlay_running j (Some a)) jobs
      | None => jobs
      end) acc l = acc ++ omap (running_row queue_names st) l.
Proof using Type.
  induction l as [|a l IH]; intros acc Hnd Hacc; csimpl; [by rewrite app_nil_r|].
  rewrite fmap_cons in Hnd, Hacc. apply NoDup_cons in Hnd as [Ha Hnd].
  destruct (running_row queue_names st a) as [x|] eqn:Hx; unfold running_row in Hx;
    destruct (first_where _ (live st)) as [j|] eqn:Hj; simplify_eq/=.
  - apply first_where_Some in Hj as (_ & Hid & _).
    rewrite put_job_new, IH; [by rewrite <-app_assoc|done| |].
    + intros x [Hx| ->%list_elem_of_singleton]%elem_of_app; [|by simpl; rewrite Hid].
      intros Hin. apply (Hacc x Hx), elem_of_cons. by right.
    + simpl. intros (x & Heq & Hx)%list_elem_of_fmap. apply (Hacc x Hx). rewrite <-Heq, Hid. apply list_elem_of_here.
  - apply IH; [done|]. intros x Hx Hin. apply (Hacc x Hx), elem_of_cons. by right.
Qed.

Lemma open_attempts_jobs st :
  wf st → NoDup (at_job_id <$> order_by attempt_id_le (filter (λ a, at_finished_at a = None) (attempts st))).
Proof using Type.
  intros Hwf. unfold order_by. rewrite merge_sort_Permutation. apply NoDup_fmap_2_strong.
  - intros a b [Ha Hain]%list_elem_of_filter [Hb Hbin]%list_elem_of_filter Heq.
    by apply (wf_one_open st Hwf (at_job_id a)).
  - apply NoDup_filter. eapply NoDup_fmap_1, (wf_att_ids st Hwf).
Qed.

(** One record per running job, with its only open attempt. *)
Lemma elem_of_running_jobs queue_names st x :
  wf st → x ∈ running_jobs queue_names st ↔
  ∃ j a, x = overlay_running j (Some a) ∧ j ∈ live st ∧ j_status j = Queued ∧ of_queues queue_names j ∧
    a ∈ attempts st ∧ open_for (j_id j) a.
Proof using Type.
  intros Hwf. unfold running_jobs.
  rewrite running_fold; [|by apply open_attempts_jobs|by intros ? ?%elem_of_nil].
  simpl. rewrite list_elem_of_omap. setoid_rewrite elem_of_order_by. setoid_rewrite list_elem_of_filter. split.
  - intros (a & [Ho Ha] & (j & -> & Hj & Hid & Hs & Hq)%running_row_Some). exists j, a. by split_and!.
  - intros (j & a & -> & Hj & Hs & Hq & Ha & Hid & Ho). exists a. split; [done|].
    unfold running_row. destruct (first_where_is_Some (λ j, j_id j = at_job_id a ∧ j_status j = Queued ∧ of_queues queue_names j)
      (live st) j Hj (conj (eq_sym Hid) (conj Hs Hq))) as [j' Hj']. rewrite Hj'.
    apply first_where_Some in Hj' as (Hj' & Hid' & _). simpl.
    by rewrite (live_inj st Hwf j' j Hj' Hj (eq_trans Hid' Hid)).
Qed.

Lemma running_jobs_ids queue_names st : wf st → NoDup (j_id <$> running_jobs queue_names st).
Proof using Type.
  intros Hwf. unfold running_jobs.
  rewrite running_fold; [|by apply open_attempts_jobs|by intros ? ?%elem_of_nil]. simpl.
  assert (∀ l, NoDup (at_job_id <$> l) → NoDup (j_id <$> omap (running_row queue_names st) l) ∧
    ∀ k, k ∈ j_id <$> omap (running_row queue_names st) l → k ∈ at_job_id <$> l) as Hgo; [|by apply Hgo, open_attempts_jobs].
  induction l as [|a l IH]; csimpl; [split; [apply NoDup_nil_2|done]|].
  intros [Ha Hnd]%NoDup_cons. destruct (IH Hnd) as [IH1 IH2].
  destruct (running_row queue_names st a) as [x|] eqn:Hx.
  - apply running_row_Some in Hx as (j & -> & _ & Hid & _). csimpl. rewrite Hid. split.
    + apply NoDup_cons. split; [|done]. intros Hin. by apply Ha, IH2.
    + intros k [->|Hk]%elem_of_cons; apply elem_of_cons; [by left|right; by apply IH2].
  - split; [done|]. intros k Hk. apply elem_of_cons. right. by apply IH2.
Qed.

(** ** One zombie *)

(** What the sweep leaves of a job it fails. *)
Definition failed_zombie (st : store) (id : Z) (reason : string) : Prop :=
  ∃ h, history_by_id st id = Some h ∧ j_status h = Failed ∧ jr_error (j_run h) = reason ∧
    jr_termination_reason (j_run h) = "zombie_job".

Lemma fail_zombie_effect (Hev : env_ok ev) j a reason st :
  inv [] st → j ∈ live st → j_status j = Queued → a ∈ attempts st → open_for (j_id j) a →
  ∃ st', fail_zombie_job ev (j_id j) reason st = (st', Ok true) ∧ inv [] st' ∧ evolves st st' ∧
    live st' ⊆ live st ∧ failed_zombie st' (j_id j) reason ∧
    ∀ i, i ≠ j_id j → passes (phase_of st i) (phase_of st' i).
Proof using Type.
  intros Hi Hj Hs Ha Ho. pose proof Hi as [Hwf _].
  unfold fail_zombie_job. rewrite (proj2 (job_by_id_Some st Hwf (j_id j) j) (conj Hj eq_refl)).
  rewrite bool_decide_true by done. cbn [negb]. rewrite (open_attempt_of_open st (j_id j) a) by done.
  set (st1 := with_attempts _ st).
  destruct (close_attempt_step (X:=[]) ev (j_id j) None OAbandoned st st1 (Ok tt) Hi I eq_refl) as (Hwf1 & Hc1 & He1 & Hl1).
  destruct (close_attempt_frame ev (j_id j) None OAbandoned st st1 Hwf I eq_refl) as (Hh1 & Hno & Hother & _).
  match goal with |- context [_finish_in ev (j_id j) Failed ?v ?f st1] => set (vals := v); set (fen := f) end.
  destruct (finish_in_cases ev (j_id j) Failed vals fen st1 Hwf1) as [(x & Hx & Hm & _)|[Hn _]].
  2:{ destruct (Hn j); [by rewrite Hl1|by split_and!]. }
  destruct (_finish_in ev (j_id j) Failed vals fen st1) as [st2 [[]|e]] eqn:Hf;
    try (by exfalso; destruct (finish_in_cases ev (j_id j) Failed vals fen st1 Hwf1) as [(y & _ & _ & Hy)|[Hn _]];
      [rewrite Hy in Hf|apply (Hn x Hx Hm)]).
  pose proof (finish_in_true (X:=[]) ev (j_id j) Failed vals fen st1 st2) as Hsound.
  destruct Hsound as (Hwf2 & Hc2 & He2); [done..|].
  destruct (finish_in_records ev (j_id j) Failed vals fen st1 st2 Hwf1 eq_refl Hf) as (y & _ & _ & Hl2 & Hhist).
  apply finish_in_phase in Hf as (_ & _ & Hfr); [|done..].
  pose proof (release_quietly_quiet ev Hev (j_id j) (j_parent j) st2 (conj Hwf2 Hc2)) as Hq.
  pose proof (quiet_inv _ _ Hq) as Hi3. eexists. split; [reflexivity|]. split_and!.
  - done.
  - etrans; [exact He1|]. etrans; [exact He2|]. apply Hq.
  - intros z Hz%(qu_live _ _ _ Hq)%Hl2. rewrite <-Hl1. apply Hz.
  - exists (history_row (e_now ev) (attempts st1) Failed vals y). split_and!; [|done..].
    eapply history_by_id_evolves; [exact Hwf2|apply Hi3|apply Hq|exact Hhist].
  - intros i Hne. etrans; [|by eapply quiet_passes]. left. rewrite Hfr by done.
    apply phase_of_frame; [done..| | |by rewrite Hh1|].
    + intros z _. by rewrite Hl1.
    + intros b [Hb _]. apply Hother. congruence.
    + unfold job_ids. by rewrite Hl1, Hh1.
Qed.

(** ** Theorems *)

(** The job runs under the attempt. *)
Definition runs_under (st : store) (j : queued_job) (a : job_attempt) : Prop :=
  j ∈ live st ∧ j_status j = Queued ∧ a ∈ attempts st ∧ open_for (j_id j) a.

Lemma runs_under_kept st st' j a :
  wf st → wf st' → live st' ⊆ live st → runs_under st j a →
  passes (phase_of st (j_id j)) (phase_of st' (j_id j)) →
  ∃ a', runs_under st' j a' ∧ at_id a' = at_id a.
Proof using Type.
  intros Hwf Hwf' Hl (Hj & Hs & Ha & Ho) Hp.
  assert (phase_of st (j_id j) = Some (PRunning (at_id a))) as Hrun by (apply phase_of_iff; [done|]; by exists j, a).
  rewrite Hrun in Hp. apply passes_running, phase_of_iff in Hp as (x & b & Hx & Hid & Hb & Hob & Hbid); [|done].
  assert (x = j) as -> by (apply (live_inj st Hwf); [by apply Hl|done..]). exists b. by split_and!.
Qed.

Lemma zombie_loop (Hev : env_ok ev) concurrent recs : ∀ st n,
  inv [] st → NoDup (rl_job_id <$> recs) →
  (∀ r, r ∈ recs → ∃ j a, rl_job_id r = j_id j ∧ runs_under st j a) →
  let '(st', n') := foldl (zombie_step concurrent) (st, n) recs in
  inv [] st' ∧ evolves st st' ∧ live st' ⊆ live st ∧
  n' = (n + length (filter (λ r, is_Some (zombie_reason concurrent r)) recs))%nat ∧
  (∀ r reason, r ∈ recs → zombie_reason concurrent r = Some reason → failed_zombie st' (rl_job_id r) reason) ∧
  ∀ i, (∀ r, r ∈ recs → rl_job_id r = i → zombie_reason concurrent r = None) →
    passes (phase_of st i) (phase_of st' i).
Proof using Type.
  induction recs as [|r recs IH]; intros st n Hi Hnd Hrun.
  { simpl. split_and!; [done|done|done|lia|by intros ? ? ?%elem_of_nil|by left]. }
  rewrite fmap_cons in Hnd. apply NoDup_cons in Hnd as [Hr Hnd]. cbn [foldl]. unfold zombie_step at 2.
  assert (∀ x, x ∈ recs → rl_job_id x ≠ rl_job_id r) as Hother.
  { intros x Hx Heq. apply Hr. rewrite <-Heq. by apply list_elem_of_fmap_2. }
  rewrite filter_cons. destruct (zombie_reason concurrent r) as [reason|] eqn:Hreason.
  - rewrite decide_True by done. destruct (Hrun r (list_elem_of_here _ _)) as (j & a & Hid & Hj & Hs & Ha & Ho).
    destruct (fail_zombie_effect Hev j a reason st Hi Hj Hs Ha Ho) as (st1 & Hf & Hi1 & He1 & Hl1 & Hz & Hp).
    rewrite Hid, Hf. specialize (IH st1 (S n) Hi1 Hnd).
    destruct (foldl (zombie_step concurrent) (st1, S n) recs) as [st' n'].
    destruct IH as (Hi' & He' & Hl' & Hn' & Hz' & Hp').
    { intros x Hx. destruct (Hrun x) as (k & b & Hk & Hrk); [by right|]. exists k.
      destruct (runs_under_kept st st1 k b) as (b' & ? & _); [apply Hi|apply Hi1|done..| |by exists b'].
      apply Hp. rewrite <-Hk, <-Hid. by apply Hother. }
    split_and!; [done|by etrans|by etrans|simpl; lia| |].
    + intros x y [->|Hx]%elem_of_cons Hy; [|by apply Hz'].
      rewrite Hreason in Hy. injection Hy as <-. rewrite Hid. destruct Hz as (h & Hh & Hrest). exists h.
      split; [|done]. eapply history_by_id_evolves; [apply Hi1|apply Hi'|done..].
    + intros i Hnone. assert (i ≠ j_id j) as Hne.
      { intros ->. specialize (Hnone r (list_elem_of_here _ _) Hid). congruence. }
      etrans; [by apply Hp|]. apply Hp'. intros x Hx. apply Hnone. by right.
  - rewrite decide_False by (by intros []). specialize (IH st n Hi Hnd).
    destruct (foldl (zombie_step concurrent) (st, n) recs) as [st' n'].
    destruct IH as (Hi' & He' & Hl' & Hn' & Hz' & Hp'); [intros x Hx; apply Hrun; by right|].
    split_and!; [done..| |].
    + intros x y [->|Hx]%elem_of_cons Hy; [congruence|by apply Hz'].
    + intros i Hnone. apply Hp'. intros x Hx. apply Hnone. by right.
Qed.

Lemma zombie_sweep (Hev : env_ok ev) queue_names concurrent st :
  inv [] st →
  let '(st', n) := _fail_zombie_running_jobs queue_names concurrent st in
  let condemned j a := zombie_reason concurrent (liveness_of st (overlay_running j (Some a))) in
  inv [] st' ∧ evolves st st' ∧
  n = length (filter (λ r, is_Some (zombie_reason concurrent r)) (get_running_jobs_for_liveness queue_names st)) ∧
  ∀ j a, runs_under st j a →
    (∀ reason, of_queues queue_names j → condemned j a = Some reason → failed_zombie st' (j_id j) reason) ∧
    (¬ of_queues queue_names j ∨ condemned j a = None → ∃ a', runs_under st' j a' ∧ at_id a' = at_id a).
Proof using Type.
  intros Hi. pose proof Hi as [Hwf _]. unfold _fail_zombie_running_jobs.
  set (recs := get_running_jobs_for_liveness queue_names st).
  assert (∀ r, r ∈ recs ↔ ∃ j a, r = liveness_of st (overlay_running j (Some a)) ∧ of_queues queue_names j ∧ runs_under st j a) as Hrecs.
  { intros r. unfold recs, get_running_jobs_for_liveness. rewrite list_elem_of_fmap. split.
    - intros (x & -> & (j & a & -> & ?)%elem_of_running_jobs); [|done]. exists j, a. unfold runs_under. tauto.
    - intros (j & a & -> & Hq & Hj & Hs & Ha & Ho). eexists. split; [done|]. apply elem_of_running_jobs; [done|].
      exists j, a. by split_and!. }
  pose proof (zombie_loop Hev concurrent recs st 0 Hi) as Hloop.
  destruct (foldl (zombie_step concurrent) (st, 0%nat) recs) as [st' n].
  destruct Hloop as (Hi' & He & Hl & Hn & Hz & Hp).
  { unfold recs, get_running_jobs_for_liveness. rewrite <-list_fmap_compose.
    erewrite list_fmap_ext; [by apply (running_jobs_ids queue_names)|done]. }
  { intros r (j & a & -> & _ & Hrun)%Hrecs. by exists j, a. }
  split_and!; [done..|]. intros j a Hrun. split.
  - intros reason Hq Hc. apply (Hz (liveness_of st (overlay_running j (Some a))) reason); [|done]. apply Hrecs. by exists j, a.
  - intros Hnone. apply (runs_under_kept st st'); [apply Hi|apply Hi'|done..|]. apply Hp.
    intros r (k & b & -> & Hq & Hk)%Hrecs Hid. simpl in Hid.
    assert (k = j) as -> by (apply (live_inj st Hwf); [apply Hk|apply Hrun|done]).
    assert (b = a) as -> by (apply (wf_one_open st Hwf (j_id j)); [apply Hk|apply Hrun|apply Hk|apply Hrun]).
    by destruct Hnone.
Qed.

(** What the five checks spare. *)
Lemma zombie_reason_None concurrent r :
  rl_has_worker r = true →
  (rl_worker_node_id r = Some node_id → truthy (rl_worker_pid r) = true → pid_alive (default 0 (rl_worker_pid r)) = true) →
  rl_worker_status r ≠ Some Dead → (concurrent = true ∨ rl_worker_current_job_id r = Some (rl_job_id r)) →
  (∀ hb, rl_worker_last_heartbeat r = Some hb → e_now ev - seconds (WORKER_ALIVE_TIMEOUT * 3) <= hb) →
  zombie_reason concurrent r = None.
Proof using Type.
  intros Hw Hpid Hs Hc Hh. unfold zombie_reason. rewrite Hw.
  assert (pid_check r = None) as ->.
  { unfold pid_check. destruct (truthy (rl_worker_pid r)); [|done]. case_bool_decide; [|done]. by rewrite Hpid. }
  unfold dead_check. rewrite bool_decide_false by done. cbn [or_else].
  assert (moved_on_check concurrent r = None) as ->.
  { unfold moved_on_check. destruct Hc as [->| ->]; [done|]. rewrite bool_decide_true by done. by rewrite andb_false_r. }
  cbn [or_else]. unfold heartbeat_check. destruct (rl_worker_last_heartbeat r) as [hb|]; [|done].
  specialize (Hh hb eq_refl). by rewrite (proj2 (Z.ltb_ge _ _) Hh).
Qed.

(** The row [w] belongs to process [p] of this node and is at work on job [i]. *)
Record at_work (st : store) (w p i : Z) (concurrent : bool) : Prop := {
  aw_keys : NoDup (w_id <$> workers st);
  aw_row : ∃ r, r ∈ workers st ∧ w_id r = w ∧ w_node_id r = node_id ∧ w_pid r = p ∧ w_status r ≠ Dead ∧
    (concurrent = true ∨ w_current_job_id r = Some i) ∧
    e_now ev - seconds (WORKER_ALIVE_TIMEOUT * 3) <= w_last_heartbeat r;
}.

Lemma worker_by_id_Some st w r :
  NoDup (w_id <$> workers st) → worker_by_id st w = Some r ↔ r ∈ workers st ∧ w_id r = w.
Proof using Type.
  intros Hnd. unfold worker_by_id. split; [by intros ?%first_where_Some|]. intros [Hr Hid].
  destruct (first_where_is_Some (λ w', w_id w' = w) (workers st) r Hr Hid) as [r' Hr']. rewrite Hr'.
  apply first_where_Some in Hr' as [? ?]. f_equal. apply (NoDup_fmap_inj w_id (workers st)); [done..|congruence].
Qed.

(** An update of a row that keeps its key; if it is the row at work, of its heartbeat only. *)
Lemma at_work_update st w p i c k f :
  (∀ x, w_id (f x) = w_id x) →
  (k = w → ∀ r, w_node_id (f r) = w_node_id r ∧ w_pid (f r) = w_pid r ∧ w_status (f r) = w_status r ∧
     w_current_job_id (f r) = w_current_job_id r ∧
     e_now ev - seconds (WORKER_ALIVE_TIMEOUT * 3) <= w_last_heartbeat (f r)) →
  at_work st w p i c → at_work (with_workers (update_where (λ x, w_id x = k) f (workers st)) st) w p i c.
Proof using Type.
  intros Hid Hf [Hnd (r & Hr & Hrw & Hnode & Hpid & Hs & Hc & Hh)].
  split; [simpl; by rewrite update_where_column by (intros; apply Hid)|].
  exists (if decide (w_id r = k) then f r else r).
  split; [apply elem_of_update_where; by exists r|]. case_decide as Hk; [|done].
  destruct (Hf (eq_trans (eq_sym Hk) Hrw) r) as (-> & -> & -> & -> & ?). by rewrite Hid.
Qed.

Lemma heartbeat_one_at_work st w p i c x :
  0 <= WORKER_ALIVE_TIMEOUT → pid_alive p = true → (w_id x = w → w_pid x = p) →
  at_work st w p i c → at_work (heartbeat_one x st) w p i c.
Proof using Type.
  intros Ht Hp Hx Haw. unfold heartbeat_one. case_decide; [done|].
  destruct (pid_alive (w_pid x)) eqn:Hal.
  { apply at_work_update; [done| |done]. simpl. intros _ r. split_and!; try done. unfold seconds, usec_per_sec. lia. }
  assert (w_id x ≠ w) as Hne by (intros He; rewrite (Hx He) in Hal; congruence).
  unfold update_worker_heartbeat. destruct (worker_by_id st (w_id x)) as [y|] eqn:Hy.
  - apply at_work_update; [done|by intros|done].
  - destruct Haw as [Hnd (r & Hr & Hrest)]. split.
    + simpl. rewrite fmap_app. apply NoDup_app. split_and!; [done| |by apply NoDup_singleton].
      intros k (z & -> & Hz)%list_elem_of_fmap [=Heq]%list_elem_of_singleton.
      unfold worker_by_id in Hy. rewrite first_where_None in Hy. by apply (Hy z).
    + exists r. split; [apply elem_of_app; by left|done].
Qed.

Lemma heartbeat_workers_tables st :
  ∃ ws, _heartbeat_workers st = with_workers ws st.
Proof using Type.
  unfold _heartbeat_workers. generalize (get_worker_heartbeats true st). intros l.
  assert (∀ l st0, (∃ ws, st0 = with_workers ws st) → ∃ ws, foldl (λ st w, heartbeat_one w st) st0 l = with_workers ws st) as Hgo.
  { clear l. induction l as [|x l IH]; intros st0 [ws ->]; [by exists ws|]. simpl. apply IH.
    unfold heartbeat_one, refresh_worker_heartbeat, update_worker_heartbeat.
    repeat case_match; eexists; reflexivity. }
  apply Hgo. exists (workers st). by destruct st.
Qed.

Lemma heartbeat_workers_at_work st w p i c :
  0 <= WORKER_ALIVE_TIMEOUT → pid_alive p = true → at_work st w p i c → at_work (_heartbeat_workers st) w p i c.
Proof using Type.
  intros Ht Hp Haw. unfold _heartbeat_workers.
  assert (∀ x, x ∈ get_worker_heartbeats true st → w_id x = w → w_pid x = p) as Hl.
  { intros x Hx Hid. unfold get_worker_heartbeats in Hx.
    apply elem_of_order_by, list_elem_of_filter in Hx as [_ Hx].
    destruct Haw as [Hnd (r & Hr & Hrw & _ & Hpid & _)].
    by rewrite (NoDup_fmap_inj w_id (workers st) x r Hnd Hx Hr) by congruence. }
  revert Hl. generalize (get_worker_heartbeats true st). intros l. revert st Haw.
  induction l as [|x l IH]; intros st Haw Hl; [done|]. simpl. apply IH.
  - apply heartbeat_one_at_work; [done..| |done]. apply Hl, list_elem_of_here.
  - intros y Hy. apply Hl. by right.
Qed.

(** ** Theorems *)


(** C34: a cycle of the daemon never takes a job from a worker that is at work. If the worker's process
    on this node is alive, its row has beaten within three timeouts and names the job (a worker that
    runs several jobs need not name it), then after the heartbeats and the zombie sweep the job still
    runs under the same attempt, whatever the state of the other rows. *)
Theorem daemon_cycle_spares_worker (Hev : env_ok ev) queue_names concurrent st j a w p :
  inv [] st → 0 <= WORKER_ALIVE_TIMEOUT → runs_under st j a →
  at_worker_id a = Some w → at_worker_pid a = Some p → pid_alive p = true → at_work st w p (j_id j) concurrent →
  ∃ a', runs_under (_fail_zombie_running_jobs queue_names concurrent (_heartbeat_workers st)).1 j a' ∧ at_id a' = at_id a.
Proof using Type.
  intros Hi Ht Hrun Hw Hp Hal Haw.
  destruct (heartbeat_workers_tables st) as [ws Hst1]. pose proof (heartbeat_workers_at_work st w p (j_id j) concurrent Ht Hal Haw) as Haw1.
  set (st1 := _heartbeat_workers st) in *.
  assert (inv [] st1) as Hi1 by (rewrite Hst1; apply (sound_workers (X:=[]) ws st Hi)).
  assert (runs_under st1 j a) as Hrun1 by (by rewrite Hst1).
  pose proof (zombie_sweep Hev queue_names concurrent st1 Hi1) as Hsweep.
  destruct (_fail_zombie_running_jobs queue_names concurrent st1) as [st2 n].
  destruct Hsweep as (_ & _ & _ & Hsweep). destruct (Hsweep j a Hrun1) as [_ Hspared]. apply Hspared. right.
  destruct Haw1 as [Hnd (r & Hr & Hrw & Hnode & Hpid & Hs & Hc & Hh)].
  assert (worker_by_id st1 w = Some r) as Hrow by (by apply worker_by_id_Some).
  apply zombie_reason_None; simpl; rewrite ?Hw; simpl; rewrite Hrow; simpl.
  - done.
  - intros _ _. by rewrite Hp.
  - congruence.
  - done.
  - by intros hb [= <-].
Qed.
End liveness.

(** The rows of the standalone backend have no [delete] method and the error of the call is dropped:
    the purge removes nothing, however long a worker has been dead. *)
Theorem purge_removes_nothing ev timeout max_age_seconds st :
  _purge_dead_workers ev timeout None max_age_seconds st = st.
Proof.
  unfold _purge_dead_workers. generalize (get_worker_heartbeats ev timeout false st). intros l.
  assert (∀ st0, st0 = st → foldl (λ st w, if decide (w_status w = Dead ∧ w_last_heartbeat w < e_now ev - seconds max_age_seconds)
    then st else st) st0 l = st) as Hgo; [|by apply Hgo].
  induction l as [|x l IH]; intros st0 ->; [done|]. simpl. apply IH. by case_decide.
Qed.

(** ** Witnesses *)

Definition demo_worker : worker_row :=
  {| w_id := 1; w_node_id := "node"; w_pid := 7; w_status := Busy; w_current_job_id := Some 11;
     w_jobs_processed := 0; w_last_heartbeat := 2000 |}.
Definition demo_worked : store := with_workers [demo_worker] demo_claimed.

Lemma demo_worked_inv : inv [] demo_worked.
Proof. apply (sound_workers (X:=[]) _ _ demo_claimed_inv). Qed.

Lemma demo_runs st : st = demo_claimed ∨ st = demo_worked → runs_under st demo_job demo_attempt.
Proof.
  intros Hst. assert (runs_under demo_claimed demo_job demo_attempt) as H.
  { split_and!; [rewrite demo_claimed_live; apply list_elem_of_here|done|apply demo_attempt_open..]. }
  by destruct Hst as [->| ->].
Qed.


Lemma daemon_cycle_spares_worker_witness :
  let ev := demo_env 9000 in
  ∃ a', runs_under (_fail_zombie_running_jobs ev "node" (λ p, p =? 7) 30 [] false
    (_heartbeat_workers ev "node" (λ p, p =? 7) 30 demo_worked)).1 demo_job a' ∧ at_id a' = 1.
Proof.
  apply (daemon_cycle_spares_worker (demo_env 9000) "node" (λ p, p =? 7) 30 (demo_env_ok 9000) [] false demo_worked
    demo_job demo_attempt 1 7 demo_worked_inv).
  - done.
  - by apply demo_runs; right.
  - done.
  - done.
  - done.
  - split; [apply NoDup_singleton|]. exists demo_worker. split; [apply list_elem_of_here|].
    split_and!; [done..|by right|by vm_compute].
Defined.
