(* ===== verification/Async.v ===== *)
(** * The asynchronous backend (fastapi_sqlery/async_backend.py, core/async_worker.py)

    [SQLAlchemyAsyncBackend] works on the tables of the standalone backend. Its claim is the
    synchronous one without the dependency, TTL and tag checks; its completions are raw statements;
    its dependency judgement fetches the retry chains beforehand. The second part of the file has the
    steps of [AsyncWorker] that write the outcome of a job. What a task returned is given by its
    [str]. *)

From S2P Require Import Prelude Sql PyString Models Retry Attempts Ready History Store StoreInv Dependents Claim Complete Demo Queue Outcomes Limits System Executor.
From stdpp Require Import gmap.
From Stdlib Require Import QArith_base Qcanon.
#[local] Open Scope string_scope.
#[local] Open Scope list_scope.
#[local] Open Scope Z_scope.

Section async.
Context (ev : env).

(** ** Claiming *)

(** The id of the worker, if it names a registered worker; [None]: the text is no UUID. *)
Definition _registered_worker_id (worker : option Z) (st : store) : option Z :=
  w ← worker; if exists_where (λ r, w_id r = w) (workers st) then Some w else None.

(** One transaction of the claim. *)
Definition aclaim_iter (queues : list string) (owner : option Z) (c : option (Z * Z * Z)) (st : store)
    : store * iter_result :=
  match next_entry ev queues c (ready st) with
  | None => (st, IterDone)
  | Some e =>
      let id := re_job_id e in
      let c' := entry_cursor e in
      let without := delete_entry (re_slot e) id st in
      match job_of_entry st e with
      | None => (without, IterSkip c' None None)
      | Some j =>
          if negb (bool_decide (j_status j = Queued)) || _is_running st id
          then (without, IterSkip c' None None)
          else if decide (rowcount (is_entry (re_slot e) id) (ready st) = 1%nat) then
            match _start_attempt ev j owner without with
            | (st1, SClaimed h) => (st1, IterClaimed (_as_running j h) h)
            | (st1, SKeep) => (st1, IterSkip c' None None)
            | (_, SRestore) => (st, IterSkip c' None None)
            end
          else (without, IterSkip c' None None)
      end
  end.

Fixpoint aclaim_scan (fuel : nat) (queues : list string) (owner : option Z) (c : option (Z * Z * Z)) (st : store)
    : store * loop_result (option (queued_job * AttemptHandle)) :=
  match fuel with
  | O => (st, OutOfFuel)
  | S fuel =>
      match aclaim_iter queues owner c st with
      | (st', IterDone) => (st', Done None)
      | (st', IterClaimed j h) => (st', Done (Some (j, h)))
      | (st', IterErr e) => (st', Raised e)
      | (st', IterSkip c' _ _) => aclaim_scan fuel queues owner (Some c') st'
      end
  end.

(** The cursor moves on at every step: one step more than there are entries is enough
    ([aclaim_job_spec]). *)
Definition aclaim_job (queues : list string) (worker : option Z) (st : store)
    : store * loop_result (option (queued_job * AttemptHandle)) :=
  aclaim_scan (S (length (ready st))) queues (_registered_worker_id worker st) None st.

(** Start a job by other means than a claim. *)
Definition amark_running (id : Z) (worker : option Z) (st : store) : store :=
  match job_by_id st id with
  | None => st
  | Some j =>
      if negb (bool_decide (j_status j = Queued)) then st
      else match _start_attempt ev j (_registered_worker_id worker st) (delete_blocked [id] (delete_ready [id] st)) with
           | (st1, SClaimed _) => st1
           | _ => st
           end
  end.

(** [MIN(scheduled_at)] over the entries that are not due yet *)
Definition later_entry (queues : list string) (now : time) (e : job_ready) : option time :=
  if decide (re_queue_name e ∈ queues) then
    t ← re_scheduled_at e; if now <? t then Some t else None
  else None.

(** Until the next entry becomes due, in microseconds. *)
Definition anext_due_delay (queues : list string) (st : store) : option time :=
  match omap (later_entry queues (e_now ev)) (ready st) with
  | [] => None
  | t :: ts => Some (foldr Z.min t ts - e_now ev)
  end.

(** ** The terminal transition *)

(** The terminal transition with the fences of the asynchronous twin. *)
Definition _afinish_in (id : Z) (status : job_status) (v : move_values) (created : option time)
    (expected : option Z) (require_status : option (list job_status)) (st : store) : store * result store_error bool :=
  _finish_in ev id status v
    {| fe_created_at := created; fe_version := expected; fe_status := require_status; fe_idle := false |} st.

(** ** Reads *)

Definition aget_status (id : Z) (st : store) : option job_status := (λ j, j_status j) <$> anywhere_by_id st id.

Definition aget_job (id : Z) (st : store) : option queued_job :=
  match job_by_id st id with
  | Some j =>
      Some (if decide (j_status j = Queued) then overlay_running j (open_attempt_of (attempts st) id) else j)
  | None => history_by_id st id
  end.

(** ** Dependents *)

(** [{d.id: d for d in rows}.get]: the last row with the id *)
Definition rows_get (st : store) (deps : list Z) (d : Z) : option queued_job :=
  first_where (λ j, j_id j = d) (reverse (filter (λ j, j_id j ∈ deps) (job_all st))).

(** The retries the judgement may ask for, read level by level; a key that is read again has the same
    value. *)
Fixpoint prefetch_retries (hops : nat) (st : store) (frontier : list queued_job) (retries : gmap Z (option queued_job))
    : gmap Z (option queued_job) :=
  match hops, frontier with
  | S hops, _ :: _ =>
      prefetch_retries hops st
        (omap (λ d, c ← latest_retry st (j_id d); if failed_or_archived c then Some c else None) frontier)
        (foldl (λ m d, <[j_id d := latest_retry st (j_id d)]> m) retries frontier)
  | _, _ => retries
  end.

Definition retries_get (m : gmap Z (option queued_job)) (id : Z) : option queued_job := default None (m !! id).

Definition ajudge_dependencies (st : store) (deps : list Z) : DependencyVerdict :=
  let rows := filter (λ j, j_id j ∈ deps) (job_all st) in
  let retries := prefetch_retries MAX_CHAIN_HOPS st (filter (λ j, failed_or_archived j = true) rows) ∅ in
  judge_dependencies (rows_get st deps) (retries_get retries) (λ r, is_retry_pending (Some r)) deps.

(** The error and the reason of a job whose dependencies failed. *)
Definition dependency_values (v : DependencyVerdict) : move_values :=
  {| mv_finished_at := Some (e_now ev); mv_duration := None; mv_output := None;
     mv_error := Some (dependency_error v); mv_traceback := None;
     mv_termination_reason := Some "dependency_failed"; mv_runs := None; mv_started_at := None;
     mv_worker_id := None; mv_worker_pid := None; mv_child_pid := None |}.

Definition _arecheck_blocked (id : Z) (created : time) (st : store) : store * result store_error recheck_outcome :=
  match job_by_key st id created with
  | None => (delete_blocked [id] st, Ok RGone)
  | Some j =>
      if negb (bool_decide (j_status j = Queued)) then (delete_blocked [id] st, Ok RGone)
      else
        let v := ajudge_dependencies st (dependency_ids (j_spec j)) in
        match dv_state v with
        | PENDING => (st, Ok RBlocked)
        | FAILED =>
            match _afinish_in id Failed (dependency_values v) (Some created) None (Some [Queued])
                    (delete_blocked [id] (delete_ready [id] st)) with
            | (st', Ok _) => (st', Ok RFailed)
            | (_, Err e) => (st, Err e)
            end
        | MET => (write_ready ev [j] false (delete_blocked [id] st), Ok RReady)
        end
  end.

(** [while parent and parent not in ids and hops < MAX_CHAIN_HOPS]; without a parent the row's is used *)
Definition adependents_of (st : store) (id : Z) (parent : option Z) : list (Z * Z) :=
  let parent := match parent with Some p => Some p | None => anywhere_by_id st id ≫= λ j, j_parent j end in
  let ids := ancestors MAX_CHAIN_HOPS st [id] parent in
  remove_dups ((λ b, (bl_job_id b, bl_created_at b)) <$>
    filter (λ b, bl_dependency_id b ∈ ids) (blocked st)).

Fixpoint arecheck_all (rows : list (Z * Z)) (work : list (Z * option Z)) (released : Z) (st : store)
    : store * result store_error (list (Z * option Z) * Z) :=
  match rows with
  | [] => (st, Ok (work, released))
  | (id, created) :: rows =>
      match _arecheck_blocked id created st with
      | (st', Err e) => (st', Err e)
      | (st', Ok RReady) => arecheck_all rows work (released + 1) st'
      | (st', Ok RFailed) => arecheck_all rows ((id, None) :: work) released st'
      | (st', Ok _) => arecheck_all rows work released st'
      end
  end.

(** [while work: pop ..] as in [release_loop] *)
Fixpoint arelease_loop (fuel : nat) (work : list (Z * option Z)) (seen : list Z) (released : Z) (st : store)
    : store * loop_result Z :=
  match work with
  | [] => (st, Done released)
  | (current, parent) :: work =>
      match fuel with
      | O => (st, OutOfFuel)
      | S fuel =>
          if decide (current ∈ seen) then arelease_loop fuel work seen released st
          else
            match arecheck_all (adependents_of st current parent) work released st with
            | (st', Err e) => (st', Raised e)
            | (st', Ok (work', released')) => arelease_loop fuel work' (current :: seen) released' st'
            end
      end
  end.

(** The fuel of [release_dependents]; enough by [arelease_dependents_quiet]. *)
Definition arelease_dependents (id : Z) (parent : option Z) (st : store) : store * loop_result Z :=
  arelease_loop (S (length (live st))) [(id, parent)] [] 0 st.

Definition _arelease_dependents_quietly (id : Z) (parent : option Z) (st : store) : store :=
  (arelease_dependents id parent st).1.

(** ** Completion *)

(** The columns of the open attempt, then what the completion sets. *)
Definition afinish_values (a : option job_attempt) (output error traceback : option string) : move_values :=
  let '(s, w, p, c) := attempt_values a in
  {| mv_finished_at := Some (e_now ev); mv_duration := None; mv_output := output; mv_error := error;
     mv_traceback := traceback; mv_termination_reason := None; mv_runs := None;
     mv_started_at := s; mv_worker_id := w; mv_worker_pid := p; mv_child_pid := c |}.

(** A job that is not in the state demanded rolls the transaction back, the attempt included. *)
Definition _afinish (id : Z) (attempt : option AttemptHandle) (o : attempt_outcome) (status : job_status)
    (output error traceback : option string) (in_place : bool) (st : store) : store * result store_error unit :=
  let v := afinish_values (open_attempt_of (attempts st) id) output error traceback in
  match _close_attempt ev id attempt o st with
  | (_, Err e) => (st, Err e)
  | (st1, Ok _) =>
      if in_place then
        (with_live (update_where (version_fence id None) (λ j, with_run (apply_values status v (j_run j)) j)
                      (live st1)) st1, Ok tt)
      else
        let parent := job_by_id st1 id ≫= λ j, j_parent j in
        match _afinish_in id status v None None None st1 with
        | (st2, Ok true) =>
            (if bool_decide (o = OSuccess) then _arelease_dependents_quietly id parent st2 else st2, Ok tt)
        | (_, Ok false) => (st, Ok tt)
        | (_, Err e) => (st, Err e)
        end
  end.

(** [result] is the [str] of what the task returned; [None]: it returned [None]. *)
Definition amark_success (id : Z) (result : option task_output) (attempt : option AttemptHandle) (st : store)
    : store * Prelude.result store_error unit :=
  match default (Ok "") (reject_unawaited_coroutine <$> result) with
  | Err _ => (st, Err BadOutput)
  | Ok s => _afinish id attempt OSuccess Success (Some s) None None false st
  end.

(** A failure with retry budget left stays in the live table. *)
Definition retries_left (sp : job_spec) : bool :=
  (0 <? js_max_retries sp) && (js_retry_count sp <? js_max_retries sp).

Definition amark_failed (id : Z) (error traceback : string) (attempt : option AttemptHandle) (st : store)
    : store * result store_error unit :=
  let will_retry := match job_by_id st id with Some j => retries_left (j_spec j) | None => false end in
  _afinish id attempt OFailed Failed None (Some error) (Some traceback) will_retry st.

Definition afail_zombie_job (id : Z) (reason : string) (st : store) : store * result store_error bool :=
  match job_by_id st id with
  | None => (st, Ok false)
  | Some j =>
      if negb (bool_decide (j_status j = Queued)) then (st, Ok false)
      else
        match open_attempt_of (attempts st) id with
        | None => (st, Ok false)
        | Some a =>
            if decide (rowcount (open_for id) (attempts st) < 1)%nat then (st, Ok false)
            else
              let st1 := with_attempts (close_unfenced_stmt id OAbandoned (e_now ev) (attempts st)) st in
              let job := overlay_running j (Some a) in
              let r := mark_failed (j_spec job) (j_run job) (e_now ev) reason "" "zombie_job" in
              match _afinish_in id Failed
                      {| mv_finished_at := jr_finished_at r; mv_duration := Some (jr_duration r);
                         mv_output := None; mv_error := Some (jr_error r);
                         mv_traceback := Some (jr_traceback r);
                         mv_termination_reason := Some (jr_termination_reason r);
                         mv_runs := Some (jr_runs r); mv_started_at := None;
                         mv_worker_id := None; mv_worker_pid := None; mv_child_pid := None |}
                      (Some (j_created_at j)) None None st1 with
              | (st2, Ok true) => (_arelease_dependents_quietly id (j_parent j) st2, Ok true)
              | (_, Ok false) => (st, Ok false)
              | (_, Err e) => (st, Err e)
              end
        end
  end.

(** Only the status column is written. *)
Definition set_shutting_down (j : queued_job) : queued_job :=
  let r := j_run j in
  with_run
    {| jr_status := ShuttingDown; jr_version := jr_version r; jr_worker_id := jr_worker_id r;
       jr_worker_pid := jr_worker_pid r; jr_child_pid := jr_child_pid r; jr_started_at := jr_started_at r;
       jr_finished_at := jr_finished_at r; jr_duration := jr_duration r; jr_output := jr_output r;
       jr_error := jr_error r; jr_traceback := jr_traceback r;
       jr_termination_reason := jr_termination_reason r; jr_runs := jr_runs r |} j.

Definition amark_shutting_down (id : Z) (st : store) : store :=
  let created := if e_partitioned ev then (λ j, j_created_at j) <$> job_by_id st id else None in
  with_live (update_where (λ j, j_id j = id ∧ opt_eq created (j_created_at j)) set_shutting_down (live st)) st.

(** ** The retry path *)

(** The retry row and the archiving of the job it replaces are one transaction; [id] is the id the
    flush hook generates. *)
Definition arequeue_retry (failed : queued_job) (id : Z) (st : store) : store * result store_error unit :=
  let delay := (retry_job_fields failed (e_now ev) None).2 in
  let fields := (retry_job_fields failed (e_now ev) (Some (e_now ev + timedelta_seconds delay))).1 in
  let st1 := insert_job ev (new_job id (e_now ev) fields) st in
  match first_where (λ j, j_id j = j_id failed ∧ j_status j = Failed) (live st1) with
  | None => (st1, Ok tt)
  | Some row =>
      match _afinish_in (j_id failed) Archived
              (reason_values (settled_termination_reason (Some (jr_termination_reason (j_run row)))))
              (Some (j_created_at row)) None (Some [Failed]) st1 with
      | (st2, Ok _) => (st2, Ok tt)
      | (_, Err e) => (st, Err e)
      end
  end.

(** ** The judgement of dependencies is the synchronous one *)

Lemma rows_get_anywhere st deps d : wf st → d ∈ deps → rows_get st deps d = anywhere_by_id st d.
Proof using Type.
  intros Hwf Hd. unfold rows_get.
  destruct (first_where _ _) as [x|] eqn:Hx; symmetry.
  - apply first_where_Some in Hx as [Hx Hid]. apply anywhere_by_id_Some; [done|].
    by apply elem_of_reverse, list_elem_of_filter in Hx as [_ Hx].
  - apply anywhere_by_id_None. rewrite first_where_None in Hx. intros x Hin Hid. apply (Hx x); [|done].
    apply elem_of_reverse, list_elem_of_filter. by rewrite Hid.
Qed.

Definition faithful (st : store) (m : gmap Z (option queued_job)) : Prop :=
  ∀ k v, m !! k = Some v → v = latest_retry st k.

Lemma prefetch_step st frontier m :
  faithful st m →
  let m' := foldl (λ m d, <[j_id d := latest_retry st (j_id d)]> m) m frontier in
  faithful st m' ∧ (∀ k, is_Some (m !! k) → is_Some (m' !! k)) ∧ ∀ d, d ∈ frontier → is_Some (m' !! j_id d).
Proof using Type.
  revert m. induction frontier as [|d frontier IH]; intros m Hm; simpl.
  { split_and!; [done..|]. by intros d ?%elem_of_nil. }
  destruct (IH (<[j_id d := latest_retry st (j_id d)]> m)) as (Hf & Hmono & Hin).
  { intros k v. rewrite lookup_insert_Some. intros [[<- <-]|[_ Hk]]; [done|by apply Hm]. }
  split_and!; [done| |].
  - intros k Hk. apply Hmono, lookup_insert_is_Some. destruct (decide (j_id d = k)); auto.
  - intros x [->|Hx]%elem_of_cons; [|by apply Hin]. apply Hmono, lookup_insert_is_Some. by left.
Qed.

Lemma prefetch_faithful st hops frontier m :
  faithful st m → let m' := prefetch_retries hops st frontier m in
  faithful st m' ∧ ∀ k, is_Some (m !! k) → is_Some (m' !! k).
Proof using Type.
  revert frontier m. induction hops as [|hops IH]; intros [|d frontier] m Hm; [done..|].
  cbn [prefetch_retries]. destruct (prefetch_step st (d :: frontier) m Hm) as (Hf & Hmono & _).
  destruct (IH (omap (λ d, c ← latest_retry st (j_id d); if failed_or_archived c then Some c else None)
    (d :: frontier)) _ Hf) as [Hf' Hmono']. split; [exact Hf'|]. intros k Hk. by apply Hmono', Hmono.
Qed.

(** Every retry the judgement asks for was read beforehand. *)
Lemma prefetch_follows st hops frontier m d :
  faithful st m → d ∈ frontier →
  follow_retries (retries_get (prefetch_retries hops st frontier m)) hops d
  = follow_retries (latest_retry st) hops d.
Proof using Type.
  revert frontier m d. induction hops as [|hops IH]; intros frontier m d Hm Hd; [done|].
  destruct frontier as [|x frontier]; [by apply elem_of_nil in Hd|].
  cbn [prefetch_retries]. destruct (prefetch_step st (x :: frontier) m Hm) as (Hf & _ & Hin).
  set (m1 := foldl _ _ (x :: frontier)) in *. set (next := omap _ (x :: frontier)).
  destruct (prefetch_faithful st hops next m1 Hf) as [Hf2 Hmono2].
  cbn [follow_retries]. destruct (failed_or_archived d) eqn:Hfd; [|done].
  assert (retries_get (prefetch_retries hops st next m1) (j_id d) = latest_retry st (j_id d)) as ->.
  { destruct (Hmono2 (j_id d) (Hin d Hd)) as [v Hv]. unfold retries_get. rewrite Hv. by apply Hf2. }
  destruct (latest_retry st (j_id d)) as [c|] eqn:Hc; [|done].
  destruct (failed_or_archived c) eqn:Hfc.
  - apply IH; [done|]. apply list_elem_of_omap. exists d. split; [done|]. by rewrite Hc; cbn; rewrite Hfc.
  - destruct hops; cbn [follow_retries]; [done|]. by rewrite Hfc.
Qed.

Lemma judge_loop_ext f g r r' (mark : string → bool) deps failed pending :
  (∀ d, d ∈ deps → judge_one f r mark d = judge_one g r' mark d) →
  judge_loop f r mark deps failed pending = judge_loop g r' mark deps failed pending.
Proof using Type.
  revert failed pending. induction deps as [|d deps IH]; intros failed pending Hext; [done|]. simpl.
  rewrite (Hext d) by apply list_elem_of_here.
  destruct (judge_one g r' mark d) as [[] ?]; apply IH; intros; apply Hext; by apply elem_of_cons; right.
Qed.

Lemma ajudge_agrees st deps : wf st → ajudge_dependencies st deps = _judge_dependencies st deps.
Proof using Type.
  intros Hwf. unfold ajudge_dependencies, _judge_dependencies, judge_dependencies.
  rewrite (judge_loop_ext _ (anywhere_by_id st) _ (latest_retry st)); [done|].
  intros d Hd. unfold judge_one. rewrite rows_get_anywhere by done.
  destruct (anywhere_by_id st d) as [x|] eqn:Hx; [|done].
  apply anywhere_by_id_Some in Hx as [Hx <-]; [|done].
  destruct (failed_or_archived x) eqn:Hf.
  - rewrite prefetch_follows; [done|by intros ?? ?%lookup_empty_Some|]. by rewrite !list_elem_of_filter.
  - assert (∀ lr, follow_retries lr MAX_CHAIN_HOPS x = x) as Hstop; [|by rewrite !Hstop].
    intros lr. destruct MAX_CHAIN_HOPS; cbn [follow_retries]; [done|]. by rewrite Hf.
Qed.

(** ** Re-checks *)

Lemma finish_in_ext id status v f f' st :
  (∀ j, j ∈ live st → move_where st id f j ↔ move_where st id f' j) →
  _finish_in ev id status v f st = _finish_in ev id status v f' st.
Proof using Type.
  intros Hext. unfold _finish_in. rewrite (filter_iff_on (move_where st id f) (move_where st id f') (live st)) by done.
  destruct (filter _ (live st)) as [|j [|]]; [done| |done]. do 4 f_equal.
  unfold delete_where. apply filter_iff_on. intros x Hx. by rewrite Hext.
Qed.

(** On a job that does not run, the re-check is the synchronous one. *)
Lemma arecheck_agrees id created st :
  wf st → _is_running st id = false → _arecheck_blocked id created st = _recheck_blocked ev id created st.
Proof using Type.
  intros Hwf Hidle. unfold _arecheck_blocked, _recheck_blocked.
  destruct (job_by_key st id created) as [j|] eqn:Hk; [|done].
  apply job_by_key_Some in Hk as (Hj & <- & <-); [|done]. rewrite Hidle, orb_false_r.
  destruct (negb _); [done|]. rewrite ajudge_agrees by done.
  destruct (dv_state _); [done|done|].
  unfold _fail_queued, _afinish_in, dependency_values. rewrite (finish_in_ext _ _ _ _
    {| fe_created_at := Some (j_created_at j); fe_version := None; fe_status := Some [Queued]; fe_idle := true |});
    [done|].
  intros x _. unfold move_where. cbn [fe_created_at fe_version fe_status fe_idle].
  split; intros (Hid & ? & ? & ? & ?); split_and!; try done. intros _. by rewrite Hid.
Qed.

(** No running job is blocked. The synchronous re-check looks at the open attempts itself. *)
Definition idle_row (st : store) (row : Z * Z) : Prop := _is_running st row.1 = false.
Definition blocked_idle (st : store) : Prop := ∀ b, b ∈ blocked st → _is_running st (bl_job_id b) = false.

Lemma idle_row_same st st' row : attempts st' = attempts st → idle_row st row → idle_row st' row.
Proof using Type. unfold idle_row, _is_running. by intros ->. Qed.

(** Closing the attempt of a job and moving it to history start nothing. *)
Lemma blocked_idle_closed id st st1 :
  (∀ a, a ∈ attempts st1 → ¬ open_for id a) → (∀ a, at_job_id a ≠ id → a ∈ attempts st ↔ a ∈ attempts st1) →
  blocked st1 = blocked st → blocked_idle st → blocked_idle st1.
Proof using Type.
  intros Hno Hother Hbl Hb b Hin. rewrite Hbl in Hin. specialize (Hb b Hin). rewrite is_running_false in *.
  intros a Ha [Hid Hop]. destruct (decide (bl_job_id b = id)) as [Heq|Hne]; [apply (Hno a Ha); by rewrite <-Heq|].
  apply (Hb a); [|done]. apply Hother; [congruence|done].
Qed.

Lemma blocked_idle_finish id status v f st st' :
  _finish_in ev id status v f st = (st', Ok true) → blocked_idle st → blocked_idle st'.
Proof using Type.
  unfold _finish_in. destruct (filter _ (live st)) as [|j [|]]; [done| |done]. intros [= <-] Hb b Hin.
  specialize (Hb b Hin). rewrite is_running_false in *. intros a' (a & Ha & ->)%elem_of_update_where Hop.
  apply (Hb a Ha). case_decide; [by destruct Hop|done].
Qed.

Context {X : list Z} (Hev : env_ok ev).

Lemma arecheck_all_agrees rows work released st :
  inv X st → Forall (row_ok st) rows → Forall (idle_row st) rows →
  arecheck_all rows work released st = recheck_all ev rows work released st.
Proof using Hev.
  revert work released st. induction rows as [|[id created] rows IH]; intros work released st Hi Hrow Hidle; [done|].
  apply Forall_cons in Hrow as [Hrow Hrows]. apply Forall_cons in Hidle as [Hid Hidle].
  cbn [arecheck_all recheck_all]. rewrite arecheck_agrees by (apply Hi || done).
  destruct (_recheck_blocked ev id created st) as [st1 r] eqn:Hr.
  apply (recheck_blocked_quiet (X:=X) ev Hev) in Hr as [Hq (o & -> & _)]; [|done..|intros j [Hj _]; by apply Hrow].
  assert (Forall (row_ok st1) rows) as Hrows1.
  { eapply Forall_impl; [exact Hrows|]. intros row. apply row_ok_subset, Hq. }
  assert (Forall (idle_row st1) rows) as Hidle1.
  { eapply Forall_impl; [exact Hidle|]. intros row. apply idle_row_same, Hq. }
  apply quiet_inv in Hq. by destruct o; apply IH.
Qed.

(** Deleting blocked rows and restoring entries leaves no running job blocked. *)
Lemma recheck_blocked_rows id created st st' r :
  _recheck_blocked ev id created st = (st', r) → blocked st' ⊆ blocked st.
Proof using Type.
  assert (∀ ids st0, blocked (delete_blocked ids st0) ⊆ blocked st0) as Hdel.
  { intros ids st0 b. by intros [? _]%elem_of_delete_where. }
  unfold _recheck_blocked, _fail_queued. intros Hr. repeat case_match; simplify_eq; try apply Hdel; try done.
  etrans; [|apply (Hdel [j_id q] (delete_ready [j_id q] st))].
  unfold _finish_in in *. by repeat case_match; simplify_eq.
Qed.

Lemma recheck_all_rows rows work released st st' r :
  recheck_all ev rows work released st = (st', r) → blocked st' ⊆ blocked st.
Proof using Type.
  revert work released st. induction rows as [|[id created] rows IH]; intros work released st; simpl; [by intros [= <- _]|].
  destruct (_recheck_blocked ev id created st) as [st1 [o|e]] eqn:Hr; apply recheck_blocked_rows in Hr.
  - destruct o; intros Heq%IH; by etrans.
  - by intros [= <- _].
Qed.

Lemma adependents_ok st id parent :
  wf st → blocked_idle st →
  Forall (row_ok st) (adependents_of st id parent) ∧ Forall (idle_row st) (adependents_of st id parent).
Proof using Type.
  intros Hwf Hb. split; [|apply Forall_forall; intros row Hrow].
  - unfold adependents_of. apply (dependents_rows_ok st id (match parent with Some p => Some p | None => _ end) Hwf).
  - unfold adependents_of in Hrow. apply elem_of_remove_dups, list_elem_of_fmap in Hrow as (b & -> & Hin).
    apply Hb. by apply list_elem_of_filter in Hin as [_ ?].
Qed.

Lemma arelease_loop_quiet fuel work seen released st :
  inv X st → blocked_idle st → (length work + length (live st) <= fuel)%nat →
  ∃ st' n, arelease_loop fuel work seen released st = (st', Done n) ∧ quiet X st st' ∧ blocked_idle st'.
Proof using Hev.
  revert work seen released st.
  induction fuel as [|fuel IH]; intros [|[id parent] work] seen released st Hi Hb Hfuel; simpl in *;
    try (do 2 eexists; split; [done|auto with sqlery]); [lia|].
  case_decide; [apply IH; [done..|lia]|].
  destruct (adependents_ok st id parent (proj1 Hi) Hb) as [Hrows Hidle]. rewrite arecheck_all_agrees by done.
  destruct (recheck_all_quiet (X:=X) ev Hev (adependents_of st id parent) work released st)
    as (st1 & work1 & rel1 & Heq & Hq & Hlen); [done..|]. rewrite Heq.
  apply recheck_all_rows in Heq.
  destruct (IH work1 (id :: seen) rel1 st1) as (st2 & n & -> & Hq2 & Hb2); [by eapply quiet_inv| |lia|].
  - intros b Hin. unfold _is_running. rewrite (qu_attempts _ _ _ Hq). by apply Hb, Heq.
  - do 2 eexists. split_and!; [done|by eapply quiet_trans|done].
Qed.

Lemma arelease_dependents_quiet id parent st :
  inv X st → blocked_idle st → ∃ st' n, arelease_dependents id parent st = (st', Done n) ∧ quiet X st st'.
Proof using Hev.
  intros Hi Hb. destruct (arelease_loop_quiet (S (length (live st))) [(id, parent)] [] 0 st Hi Hb) as (st' & n & ? & ? & _);
    [simpl; lia|]. by exists st', n.
Qed.

Lemma arelease_quietly_quiet id parent st :
  inv X st → blocked_idle st → quiet X st (_arelease_dependents_quietly id parent st).
Proof using Hev.
  intros Hi Hb. unfold _arelease_dependents_quietly.
  by destruct (arelease_dependents_quiet id parent st Hi Hb) as (st' & n & -> & Hq).
Qed.

(** ** Releases in any state *)

(** What a re-check and a release leave of any state that satisfies the invariant. *)
Record shrinks (st st' : store) : Prop := {
  sh_sound : sound X st st';
  sh_live : live st' ⊆ live st;
  sh_blocked : blocked st' ⊆ blocked st;
}.

Lemma shrinks_refl st : inv X st → shrinks st st.
Proof using Type. intros Hi. split; [by apply sound_refl|done..]. Qed.

Lemma shrinks_trans st1 st2 st3 : shrinks st1 st2 → (inv X st2 → shrinks st2 st3) → shrinks st1 st3.
Proof using Type.
  intros [Hs1 Hl1 Hb1] H. destruct (H (proj1 Hs1)) as [Hs2 Hl2 Hb2].
  split; [by eapply sound_trans|by etrans|by etrans].
Qed.

Lemma delete_blocked_subset ids st : blocked (delete_blocked ids st) ⊆ blocked st.
Proof using Type. intros b. by intros [? _]%elem_of_delete_where. Qed.

Lemma arecheck_blocked_shrinks id created st st' r :
  inv X st → (∀ j, waiting st j → j_id j = id → j_created_at j = created) →
  _arecheck_blocked id created st = (st', r) →
  shrinks st st' ∧ ∃ o, r = Ok o ∧
    match o with RFailed => S (length (live st')) = length (live st) | _ => live st' = live st end.
Proof using Hev.
  intros [Hwf Hc] Hcr Hrun. unfold _arecheck_blocked in Hrun.
  assert ((∀ j, waiting st j → j_id j ≠ id) → shrinks st (delete_blocked [id] st)) as Hgone.
  { intros Hn. split; [split; [split|by apply evolves_entries]|done|apply delete_blocked_subset].
    - by apply wf_delete_blocked.
    - apply (covered_drop_idle id); [done|]. by apply (covered_delete_blocked [id] X). }
  destruct (job_by_key st id created) as [j|] eqn:Hk.
  2: { injection Hrun as <- <-. split; [|by eexists]. apply Hgone. intros j Hw Hid.
       apply (proj1 (job_by_key_None st id created) Hk j); [apply Hw|auto]. }
  apply job_by_key_Some in Hk as (Hj & <- & <-); [|done].
  destruct (bool_decide_reflect (j_status j = Queued)) as [Hs|Hs]; simpl in Hrun.
  2: { injection Hrun as <- <-. split; [|by eexists]. apply Hgone. intros x (Hx & Hxs & _) Hid.
       apply Hs. by rewrite <-(live_inj st Hwf x j Hx Hj Hid). }
  destruct (dv_state _).
  - injection Hrun as <- <-. split; [|by eexists].
    split; [split; [split|by apply evolves_entries]|done|apply delete_blocked_subset].
    + apply wf_write_ready; [done|by apply wf_delete_blocked|].
      intros x ->%list_elem_of_singleton. by apply knows_live; [apply wf_delete_blocked|].
    + apply covered_write_ready. by apply (covered_delete_blocked [j_id j] X).
  - injection Hrun as <- <-. split; [by apply shrinks_refl|by eexists].
  - set (st0 := delete_blocked [j_id j] (delete_ready [j_id j] st)) in Hrun.
    assert (wf st0) as Hwf0 by (by apply wf_delete_blocked, wf_delete_ready).
    unfold _afinish_in in Hrun. set (f := Build_fences _ _ _ _) in Hrun.
    destruct (_finish_in _ _ _ _ f st0) as [st1 [b|e]] eqn:Hf;
      destruct (finish_in_cases ev (j_id j) Failed (dependency_values (ajudge_dependencies st (dependency_ids (j_spec j)))) f st0 Hwf0)
        as [(y & Hy & Hm & E)|[Hn E]]; rewrite E in Hf; try done.
    2: { destruct (Hn j Hj). split_and!; simpl; [done..| |done]. rewrite Hs. apply list_elem_of_here. }
    injection Hf as <- <-. injection Hrun as <- <-.
    pose proof (finish_in_true_length _ _ _ _ _ _ _ E) as Hlen. pose proof (finish_in_subset _ _ _ _ _ _ _ _ E) as Hsub.
    apply (finish_in_true (X:=X)) in E as (? & ? & ?); [|done|by apply covered_drop_entries|done].
    split; [|by eexists]. split; [split; [by split|]|done|].
    + etrans; [apply (drop_entries_job [j_id j])|done].
    + simpl. by etrans; [apply delete_blocked_subset|].
Qed.

Lemma arecheck_all_shrinks rows work released st :
  inv X st → Forall (row_ok st) rows →
  ∃ st' work' released', arecheck_all rows work released st = (st', Ok (work', released')) ∧ shrinks st st' ∧
    (length work' + length (live st') = length work + length (live st))%nat.
Proof using Hev.
  revert work released st. induction rows as [|[id created] rows IH]; intros work released st Hi Hrows; simpl.
  { do 3 eexists. split; [done|]. split; [by apply shrinks_refl|done]. }
  apply Forall_cons in Hrows as [Hrow Hrows]. destruct (_arecheck_blocked id created st) as [st1 r] eqn:Hr.
  apply arecheck_blocked_shrinks in Hr as [Hs (o & -> & Ho)]; [|done|intros j [Hj _]; by apply Hrow].
  assert (Forall (row_ok st1) rows) as Hrows1.
  { eapply Forall_impl; [exact Hrows|]. intros row. apply row_ok_subset, Hs. }
  assert (inv X st1) as Hi1 by apply (sh_sound _ _ Hs).
  destruct o.
  1: specialize (IH work (released + 1) st1).
  2: specialize (IH ((id, None) :: work) released st1).
  3,4: specialize (IH work released st1).
  all: destruct IH as (st2 & work2 & rel2 & Heq & Hs2 & Hlen2); [done..|];
    exists st2, work2, rel2; split_and!; [done|by eapply shrinks_trans|]; simpl in *; congruence || lia.
Qed.

Lemma arelease_loop_shrinks fuel work seen released st :
  inv X st → (length work + length (live st) <= fuel)%nat →
  ∃ st' n, arelease_loop fuel work seen released st = (st', Done n) ∧ shrinks st st'.
Proof using Hev.
  revert work seen released st.
  induction fuel as [|fuel IH]; intros [|[id parent] work] seen released st Hi Hfuel; simpl in *;
    try (do 2 eexists; split; [done|by apply shrinks_refl]); [lia|].
  case_decide; [apply IH; [done|lia]|].
  destruct (arecheck_all_shrinks (adependents_of st id parent) work released st)
    as (st1 & work1 & rel1 & -> & Hs & Hlen); [done|by apply (dependents_rows_ok st id (match parent with Some p => Some p | None => _ end)), Hi|].
  destruct (IH work1 (id :: seen) rel1 st1) as (st2 & n & -> & Hs2); [apply (sh_sound _ _ Hs)|lia|].
  do 2 eexists. split; [done|by eapply shrinks_trans].
Qed.

(** A release returns, whatever the state of the blocked jobs. *)
Lemma arelease_dependents_done id parent st :
  inv X st → ∃ st' n, arelease_dependents id parent st = (st', Done n) ∧ shrinks st st'.
Proof using Hev. intros Hi. apply arelease_loop_shrinks; [done|simpl; lia]. Qed.

Lemma arelease_quietly_shrinks id parent st : inv X st → shrinks st (_arelease_dependents_quietly id parent st).
Proof using Hev.
  intros Hi. unfold _arelease_dependents_quietly.
  by destruct (arelease_dependents_done id parent st Hi) as (st' & n & -> & ?).
Qed.

(** ** The claim *)

(** What a successful claim found and did: the job waited; nothing else was asked of it. *)
Record aclaimed (owner : option Z) (e : job_ready) (j0 j : queued_job) (h : AttemptHandle) (st st' : store) : Prop := {
  ac_entry : re_job_id e = j_id j0;
  ac_waiting : waiting st j0;
  ac_job : j = _as_running j0 h;
  ac_store : _open_attempt ev (j_id j0) owner (delete_entry (re_slot e) (j_id j0) st) = (st', h);
}.

Lemma aclaim_iter_spec queues owner c st st' r :
  inv X st → aclaim_iter queues owner c st = (st', r) →
  match r with
  | IterErr _ => False
  | IterDone => st' = st ∧ next_entry ev queues c (ready st) = None
  | IterSkip c' moved _ => ∃ e, next_entry ev queues c (ready st) = Some e ∧
      c' = entry_cursor e ∧ skipped (X:=X) e moved st st'
  | IterClaimed j h => ∃ e j0, next_entry ev queues c (ready st) = Some e ∧ aclaimed owner e j0 j h st st'
  end.
Proof using Hev.
  intros Hi. pose proof Hi as [Hwf Hc]. unfold aclaim_iter.
  destruct (next_entry ev queues c (ready st)) as [e|] eqn:He; [|by intros [= <- <-]].
  pose proof (next_entry_Some _ _ _ _ _ He) as (Hin & _).
  destruct (job_of_entry st e) as [j|] eqn:Hj.
  2: { intros [= <- <-]. exists e. split_and!; try done. apply skipped_delete_entry; [done|].
       intros j' [Hj' _]. by eapply job_of_entry_None. }
  apply job_of_entry_Some in Hj as [Hj Hid]; [|done].
  destruct (negb (bool_decide (j_status j = Queued)) || _is_running st (re_job_id e)) eqn:Hidle.
  { intros [= <- <-]. exists e. split_and!; try done. apply skipped_delete_entry; [done|]. by eapply not_waiting. }
  assert (waiting st j) as Hw by by eapply is_waiting.
  rewrite decide_True by (by apply entry_rowcount; [apply wf_ready_keys|]).
  destruct (_start_attempt ev j owner _) as [st2 [h| |]] eqn:Hstart.
  - intros [= <- <-]. exists e, j. split; [done|].
    apply start_attempt_claimed in Hstart as (_ & _ & _ & Ho). split; try done. by rewrite <-Hid in Ho.
  - exfalso. apply start_attempt_keep in Hstart as (_ & row & Hrow & Hbad).
    apply job_by_key_Some in Hrow as (Hrow & Hrid & _); [|auto with sqlery].
    assert (row = j) as -> by by eapply live_inj.
    destruct Hw as (_ & Hs & Hr). destruct Hbad as [?|Hr2]; [done|].
    change (_is_running st (j_id j) = true) in Hr2. congruence.
  - intros [= <- <-]. exists e. by split_and!.
Qed.

Lemma aclaim_scan_spec fuel queues owner c st :
  inv X st → (remaining c st < fuel)%nat →
  ∃ st1 st2 r, aclaim_scan fuel queues owner c st = (st2, Done r) ∧ quiet X st st1 ∧
    match r with
    | None => st2 = st1
    | Some (j, h) => ∃ c' e j0, next_entry ev queues c' (ready st1) = Some e ∧ e ∈ ready st ∧
        aclaimed owner e j0 j h st1 st2
    end.
Proof using Hev.
  revert c st. induction fuel as [|fuel IH]; intros c st Hi Hfuel; [lia|]. cbn [aclaim_scan].
  destruct (aclaim_iter queues owner c st) as [st' r] eqn:Hr. apply aclaim_iter_spec in Hr; [|done].
  destruct r as [|c' moved failed|j h|er]; [| | |done].
  - destruct Hr as [-> _]. exists st, st, None. auto with sqlery.
  - destruct Hr as (e & He & -> & Hs). pose proof (next_entry_Some _ _ _ _ _ He) as (Hin & _ & Ha & _).
    destruct (IH (Some (entry_cursor e)) st') as (st1 & st2 & r & Heq & Hq & Hr').
    + eapply quiet_inv, Hs.
    + pose proof (remaining_skip _ _ _ _ _ Hin Ha Hs). lia.
    + exists st1, st2, r. split_and!; [done|by eapply quiet_trans; [apply Hs|]|].
      destruct r as [[j h]|]; [|done]. destruct Hr' as (c' & e' & j0 & ? & He' & ?).
      exists c', e', j0. split_and!; try done. eapply elem_of_sublist; [exact He'|apply Hs].
  - destruct Hr as (e & j0 & He & Hc). exists st, st', (Some (j, h)). split_and!; [done|auto with sqlery|].
    exists c, e, j0. split_and!; try done. by apply next_entry_Some in He as [? _].
Qed.

(** The asynchronous claim returns; it skips quietly and opens at most one attempt, on a job that
    waited. *)
Lemma aclaim_job_spec queues worker st :
  inv X st → ∃ st1 st2 r, aclaim_job queues worker st = (st2, Done r) ∧ quiet X st st1 ∧
    match r with
    | None => st2 = st1
    | Some (j, h) => ∃ c e j0, next_entry ev queues c (ready st1) = Some e ∧ e ∈ ready st ∧
        aclaimed (_registered_worker_id worker st) e j0 j h st1 st2
    end.
Proof using Hev. intros Hi. apply aclaim_scan_spec; [done|]. apply claim_from_ready_fuel. Qed.

Lemma aclaimed_sound owner e j0 j h st st' : inv X st → aclaimed owner e j0 j h st st' → sound X st st'.
Proof using Type.
  intros [Hwf Hc] [He (Hj & Hs & Hr) _ Ho].
  replace st' with (_open_attempt ev (j_id j0) owner (delete_entry (re_slot e) (j_id j0) st)).1 by by rewrite Ho.
  apply open_attempt_sound; [by apply wf_delete_entry|by apply covered_delete_entry|by apply evolves_entries|done|].
  by exists j0.
Qed.

(** *** Where the two claims agree *)

(** Nothing the synchronous claim checks holds the job back. *)
Definition unchecked (j : queued_job) : Prop :=
  ttl_expired (e_now ev) j = false ∧ dependency_ids (j_spec j) = [] ∧ limited_tags ev j = [].

Lemma aclaim_iter_agrees queues worker c st :
  wf st → Forall unchecked (live st) → claim_iter ev queues worker c st = aclaim_iter queues worker c st.
Proof using Type.
  intros Hwf Hall. unfold claim_iter, aclaim_iter. destruct (next_entry _ _ _ _) as [e|]; [|done].
  destruct (job_of_entry st e) as [j|] eqn:Hj; [|done]. destruct (negb _ || _); [done|].
  apply job_of_entry_Some in Hj as [Hj _]; [|done].
  apply (proj1 (Forall_forall _ _) Hall) in Hj as (Httl & Hdeps & Htags).
  unfold _claim_decision, _tag_limited. by rewrite Httl, Hdeps, Htags.
Qed.

Lemma aclaim_scan_agrees fuel queues worker c s st :
  inv X st → Forall unchecked (live st) →
  claim_scan fuel ev queues worker c s st
  = (let '(st', r) := aclaim_scan fuel queues worker c st in (st', s, r)).
Proof using Hev.
  revert c st. induction fuel as [|fuel IH]; intros c st Hi Hall; [done|]. cbn [claim_scan aclaim_scan].
  rewrite aclaim_iter_agrees by (apply Hi || done).
  destruct (aclaim_iter queues worker c st) as [st' r] eqn:Hr. pose proof (aclaim_iter_spec _ _ _ _ _ _ Hi Hr) as Hs.
  assert (∀ c' m f, r = IterSkip c' m f → m = None ∧ f = None) as Hnone.
  { intros c' m f ->. unfold aclaim_iter in Hr. by repeat (case_match; simplify_eq). }
  destruct r as [|c' moved failed|j h|er]; [done| |done..].
  destruct (Hnone _ _ _ eq_refl) as [-> ->]. destruct Hs as (e & _ & _ & Hs).
  assert (scan_add None None s = s) as ->.
  { destruct s. unfold scan_add. simpl. by rewrite !app_nil_r. }
  apply IH; [eapply quiet_inv, Hs|]. apply Forall_forall. intros x Hx.
  apply (proj1 (Forall_forall _ _) Hall). by apply (qu_live _ _ _ (sk_quiet _ _ _ _ Hs)).
Qed.

Lemma aclaim_job_agrees queues worker st :
  inv X st → Forall unchecked (live st) →
  aclaim_job queues worker st = claim_job ev queues (_registered_worker_id worker st) st.
Proof using Hev.
  intros Hi Hall. unfold claim_job, _claim_from_ready, aclaim_job. rewrite aclaim_scan_agrees by done.
  by destruct (aclaim_scan _ _ _ _ st).
Qed.

(** ** Completions *)

(** What an ended run leaves of a job, and what it must have been; other jobs only pass. *)
Definition ended (id : Z) (handle : option Z) (m m' : phases) : Prop :=
  match handle with Some a => m id = Some (PRunning a) | None => m id ≠ None ∧ m id ≠ Some PDone end ∧
  (m' id = Some PSettling ∨ m' id = Some PDone) ∧ ∀ i, i ≠ id → m' i = m i.

Lemma closed_attempt_ended id attempt o st st1 st2 row :
  inv X st → handle_for st id attempt → _close_attempt ev id attempt o st = (st1, Ok tt) →
  row ∈ live st → j_id row = id →
  (phase_of st2 id = Some PSettling ∨ phase_of st2 id = Some PDone) →
  (∀ i, i ≠ id → phase_of st2 i = phase_of st1 i) → ended id (h_id <$> attempt) (phase_of st) (phase_of st2).
Proof using Type.
  intros Hi Hh Hcl Hrow Hid Hend Hfr. pose proof Hi as [Hwf _].
  pose proof (close_attempt_step (X:=X) ev id attempt o st st1 (Ok tt) Hi Hh Hcl) as (Hwf1 & _ & _ & Hl1).
  destruct (close_attempt_frame ev id attempt o st st1 Hwf Hh Hcl) as (Hh1 & _ & Hother & Hrun). split_and!; [|done|].
  - destruct attempt as [h|]; simpl.
    + destruct Hrun as (a & Ha & Ho & Hx). apply phase_of_iff; [done|]. by exists row, a.
    + rewrite (phase_of_live st id row) by done. destruct (first_where _ _); [done|]. by case_bool_decide.
  - intros i Hne. rewrite Hfr by done. apply phase_of_frame; [done..| | |by rewrite Hh1|].
    + intros x _. by rewrite Hl1.
    + intros a [Ha _]. apply Hother. congruence.
    + unfold job_ids. by rewrite Hl1, Hh1.
Qed.

Lemma ended_completes id handle m m1 m2 :
  ended id handle m m1 → (∀ i, passes (m1 i) (m2 i)) → spec_complete id handle m m2.
Proof using Type.
  intros (Hfrom & Hto & Hother) Hp. right. split_and!; [done| |].
  - destruct (Hp id) as [->|[_ ?]]; done.
  - intros i Hne. by rewrite <-Hother.
Qed.

(** The transaction of a completion, then the release of dependents. *)
Lemma afinish_effect id attempt o status output error tb in_place st st' r :
  inv X st → handle_for st id attempt → is_terminal (Some status) = true →
  (in_place = true → status = Failed ∧ is_Some (job_by_id st id)) →
  _afinish id attempt o status output error tb in_place st = (st', r) →
  st' = st ∨ r = Ok tt ∧ ∃ st1, sound X st st1 ∧ (blocked_idle st → blocked_idle st1) ∧
    ended id (h_id <$> attempt) (phase_of st) (phase_of st1) ∧
    (st' = st1 ∨ ∃ parent, st' = _arelease_dependents_quietly id parent st1).
Proof using Hev.
  intros Hi Hh Ht Hin. unfold _afinish.
  destruct (_close_attempt ev id attempt o st) as [st1 [[]|e]] eqn:Hcl; [|intros [= <- <-]; by left].
  pose proof (close_attempt_step (X:=X) ev id attempt o st st1 (Ok tt) Hi Hh Hcl) as (Hwf1 & Hc1 & He1 & Hl1).
  destruct (close_attempt_frame ev id attempt o st st1 (proj1 Hi) Hh Hcl) as (_ & Hno & Hother & _).
  assert (blocked_idle st → blocked_idle st1) as Hb1.
  { apply (blocked_idle_closed id); [done..|]. by destruct attempt; injection Hcl as <-. }
  destruct in_place.
  - destruct (Hin eq_refl) as [-> [row Hrow]]. apply job_by_id_Some in Hrow as [Hrow Hid]; [|apply Hi].
    intros [= <- <-]. right. split; [done|]. rewrite <-Hl1 in Hrow.
    set (v := afinish_values _ _ _ _).
    pose proof (mark_row_sound (X:=X) id None v st1 row Hwf1 Hc1 Hrow (conj Hid I)) as [Hi2 He2].
    destruct (mark_row_phase id None v st1 row Hwf1 Hno Hrow (conj Hid I)) as [Hp1 Hp2].
    eexists. split_and!; [split; [exact Hi2|by etrans]|exact Hb1| |by left].
    eapply closed_attempt_ended; try done; [by rewrite <-Hl1|auto].
  - destruct (_afinish_in _ _ _ _ _ _ _) as [st2 [[]|e]] eqn:Hf; intros [= <- <-]; try by left.
    right. split; [done|]. unfold _afinish_in in Hf.
    pose proof (finish_in_phase _ _ _ _ _ _ _ Hwf1 Ht Hf) as ((row & Hrow & Hm) & Hd & Hfr).
    pose proof (blocked_idle_finish _ _ _ _ _ _ Hf) as Hb2.
    apply (finish_in_true (X:=X)) in Hf as (Hwf2 & Hc2 & He2); [|done..].
    exists st2. split_and!; [split; [done|by etrans]|auto| |].
    + eapply closed_attempt_ended; try done; [by rewrite <-Hl1|by destruct Hm|auto].
    + case_bool_decide; [right; by eexists|by left].
Qed.

Lemma afinish_refines id attempt o status output error tb in_place st st' r :
  inv X st → handle_for st id attempt → is_terminal (Some status) = true →
  (in_place = true → status = Failed ∧ is_Some (job_by_id st id)) →
  _afinish id attempt o status output error tb in_place st = (st', r) →
  sound X st st' ∧ (blocked_idle st → spec_complete id (h_id <$> attempt) (phase_of st) (phase_of st')).
Proof using Hev.
  intros Hi Hh Ht Hin Hr.
  destruct (afinish_effect id attempt o status output error tb in_place st st' r Hi Hh Ht Hin Hr)
    as [->|(_ & st1 & Hs & Hb1 & He & Hrel)]; [split; [by apply sound_refl|by left]|].
  pose proof (proj1 Hs) as Hi1. split.
  - destruct Hrel as [->|[parent ->]]; [done|]. eapply sound_trans; [exact Hs|]. intros _. by apply arelease_quietly_shrinks.
  - intros Hb. eapply ended_completes; [exact He|]. intros i. apply (quiet_passes X); [apply Hi1|].
    destruct Hrel as [->|[parent ->]]; [by apply quiet_refl|by apply arelease_quietly_quiet; [|apply Hb1]].
Qed.

Lemma amark_success_refines id result attempt st st' r :
  inv X st → handle_for st id attempt → amark_success id result attempt st = (st', r) →
  sound X st st' ∧ (blocked_idle st → spec_complete id (h_id <$> attempt) (phase_of st) (phase_of st')).
Proof using Hev.
  intros Hi Hh. unfold amark_success. destruct (default _ _) as [s|e].
  - by apply afinish_refines.
  - intros [= <- _]. split; [by apply sound_refl|by left].
Qed.

Lemma amark_failed_refines id error tb attempt st st' r :
  inv X st → handle_for st id attempt → amark_failed id error tb attempt st = (st', r) →
  sound X st st' ∧ (blocked_idle st → spec_complete id (h_id <$> attempt) (phase_of st) (phase_of st')).
Proof using Hev.
  intros Hi Hh. unfold amark_failed. apply afinish_refines; [done..|].
  by destruct (job_by_id st id); [intros _; split|].
Qed.

Lemma aclaim_job_refines queues worker st st' r :
  inv X st → aclaim_job queues worker st = (st', Done r) →
  sound X st st' ∧ spec_claim (phase_of st) ((λ '(j, h), (j_id j, h_id h)) <$> r) (phase_of st').
Proof using Hev.
  intros Hi Hr. destruct (aclaim_job_spec queues worker st Hi) as (st1 & st2 & r' & Heq & Hq & Hc).
  rewrite Heq in Hr. injection Hr as <- <-. destruct r' as [[j h]|]; simpl.
  2: { subst st2. split; [apply Hq|]. intros i. by eapply quiet_passes; [apply Hi|]. }
  destruct Hc as (c & e & j0 & _ & _ & Hcl).
  pose proof (aclaimed_sound _ e j0 j h st1 st2 (quiet_inv _ _ Hq) Hcl) as Hs.
  split; [eapply sound_trans; [apply Hq|done]|]. destruct Hcl as [_ Hw -> Ho].
  set (st1' := delete_entry (re_slot e) (j_id j0) st1) in *.
  assert (wf st1') as Hwf1 by (by apply wf_delete_entry, (inv_wf X st1), (quiet_inv st)).
  assert (∀ i, phase_of st1' i = phase_of st1 i) as Hsame by (by apply phase_of_same).
  apply (spec_claim_between _ (phase_of st1') (phase_of st2)); [| | |by intros i; left].
  - intros i. rewrite Hsame. by eapply quiet_passes; [apply Hi|].
  - by apply (open_attempt_phase ev j0 (_registered_worker_id worker st) st1' st2 h Hwf1 (proj1 (proj1 Hs))).
  - apply phase_of_iff; [apply Hi|]. exists j0. split; [by eapply quiet_waiting|done].
Qed.

(** The job is started if it waits; nothing else happens. *)
Lemma amark_running_refines id worker st :
  inv X st → let st' := amark_running id worker st in
  sound X st st' ∧
  (st' = st ∨ ∃ a, spec_claim (phase_of st) (Some (id, a)) (phase_of st') ∧ ∀ i, i ≠ id → phase_of st' i = phase_of st i).
Proof using Type.
  intros [Hwf Hc]. unfold amark_running. assert (sound X st st) as Hrefl by auto with sqlery.
  destruct (job_by_id st id) as [j|] eqn:Hj; [|auto]. apply job_by_id_Some in Hj as [Hj Hid]; [|done].
  destruct (bool_decide_reflect (j_status j = Queued)) as [Hq|]; simpl; [|auto].
  set (st0 := delete_blocked [id] (delete_ready [id] st)).
  destruct (_start_attempt ev j _ st0) as [st1 [h| |]] eqn:Hs; [|auto..].
  apply start_attempt_claimed in Hs as (_ & Hr & _ & Ho). rewrite Hid in Hr, Ho.
  assert (wf st0) as Hwf0 by (by apply wf_delete_blocked, wf_delete_ready).
  assert (sound X st st1) as Hsound.
  { pose proof (open_attempt_sound (X:=X) ev id (_registered_worker_id worker st) st st0) as Hso. rewrite Ho in Hso.
    apply Hso; [done|by apply covered_drop_entries|apply drop_entries_job|done|by exists j]. }
  split; [done|]. right. exists (h_id h). rewrite <-Hid in Ho. subst id.
  assert (waiting st0 j) as Hw by (by split_and!).
  destruct (open_attempt_phase ev j _ st0 st1 h Hwf0 (proj1 (proj1 Hsound)) Hw Ho) as (Hp1 & Hp2 & Hp3 & Hp4).
  split; [|exact Hp4]. split_and!; [exact Hp1|exact Hp2|exact Hp3|]. intros i Hne. left. by apply Hp4.
Qed.

(** Only a running job is failed as a zombie. *)
Lemma afail_zombie_job_refines id reason st :
  inv X st → let st' := (afail_zombie_job id reason st).1 in
  sound X st st' ∧
  (blocked_idle st → blocked_idle st' ∧ ∃ a, spec_complete id (Some a) (phase_of st) (phase_of st')).
Proof using Hev.
  intros Hi. unfold afail_zombie_job. assert (sound X st st) as Hrefl by auto with sqlery.
  assert (blocked_idle st → blocked_idle st ∧ ∃ a, spec_complete id (Some a) (phase_of st) (phase_of st)) as Hsame
    by (intros Hb; split; [done|]; exists 0; by left).
  destruct (job_by_id st id) as [j|] eqn:Hj; [|done]. apply job_by_id_Some in Hj as [Hj Hid]; [|apply Hi].
  destruct (negb _); [done|]. destruct (open_attempt_of (attempts st) id) as [a|] eqn:Ha; [|done].
  case_decide as Hn; [done|].
  destruct (_afinish_in _ _ _ _ _ _ _) as [st2 [[]|e]] eqn:Hf; [|done..]. unfold _afinish_in in Hf.
  pose proof (close_attempt_step (X:=X) ev id None OAbandoned st _ _ Hi I eq_refl) as (Hwf1 & Hc1 & He1 & _).
  destruct (close_attempt_frame ev id None OAbandoned st _ (proj1 Hi) I eq_refl) as (_ & Hno & Hother & _).
  pose proof (finish_in_phase ev id Failed _ _ _ _ Hwf1 eq_refl Hf) as (_ & Hd & Hfr).
  pose proof Hf as Hf'. apply (finish_in_true (X:=X)) in Hf as (Hwf2 & Hc2 & He2); [|done..].
  assert (blocked_idle st → blocked_idle st2) as Hb2
    by (intros Hb; by eapply blocked_idle_finish, blocked_idle_closed).
  assert (∃ x, x ∈ attempts st ∧ open_for id x) as (x & Hx & Hox) by (apply (rowcount_pos (open_for id)); lia).
  simpl. split.
  { apply (sound_trans _ st2); [split; [by split|by etrans]|intros Hi2; by apply arelease_quietly_shrinks]. }
  intros Hb. destruct (arelease_loop_quiet (S (length (live st2))) [(id, j_parent j)] [] 0 st2)
    as (st3 & n & Hrel & Hq & Hb3); [by split|by apply Hb2|simpl; lia|].
  unfold _arelease_dependents_quietly, arelease_dependents. rewrite Hrel. split; [done|].
  exists (at_id x). eapply ended_completes; [|intros i; by eapply quiet_passes; [|exact Hq]].
  split_and!; [|by right|].
  - apply phase_of_iff; [apply Hi|]. by exists j, x.
  - intros i Hne. rewrite Hfr by done. apply phase_of_frame; [apply Hi|done|done| |done|done].
    intros a' [Ha' _]. apply Hother. congruence.
Qed.

(** A running job runs on while it shuts down; a job without an open attempt stops waiting. *)
Lemma amark_shutting_down_refines id st :
  inv X st → let st' := amark_shutting_down id st in
  sound X st st' ∧ ∀ i, passes (phase_of st i) (phase_of st' i).
Proof using Type.
  intros [Hwf Hc]. unfold amark_shutting_down. set (P := λ j, _). set (st' := with_live _ st).
  assert (wf st') as Hwf' by (by apply wf_update_live).
  assert (evolves st st') as He by (by apply evolves_update_live). split; [split; [split|]; [done| |done]|].
  - apply (covered_frame _ _ _ _ Hc). intros j (Hj & Hs & Hrun) HX. right.
    apply elem_of_update_where in Hj as (j0 & Hj0 & ->). case_decide; [done|].
    split; [done|]. split; [|done]. by exists j0.
  - intros i. apply still_passes; [done..|by apply job_ids_update_live|].
    intros j' (j & Hj & ->)%elem_of_update_where. exists j. case_decide; [|by auto].
    split_and!; [done..|]. right. done.
Qed.

(** ** The retry path *)

Lemma arequeue_retry_settles failed id st :
  arequeue_retry failed id st =
    let delay := (retry_job_fields failed (e_now ev) None).2 in
    let fields := (retry_job_fields failed (e_now ev) (Some (e_now ev + timedelta_seconds delay))).1 in
    match settle_failed ev (j_id failed) Archived (insert_job ev (new_job id (e_now ev) fields) st) with
    | (st2, Ok _) => (st2, Ok tt)
    | (_, Err e) => (st, Err e)
    end.
Proof using Type. unfold arequeue_retry, settle_failed. by destruct (first_where _ (live _)). Qed.

Lemma arequeue_retry_sound failed id st :
  inv X st → unused_id id st → sound X st (arequeue_retry failed id st).1.
Proof using Hev.
  intros Hi Hu. rewrite arequeue_retry_settles. cbv zeta. set (r := new_job _ _ _).
  pose proof (insert_job_sound (X:=X) ev Hev r st Hi Hu) as Hs.
  pose proof (settle_failed_sound (X:=X) ev (j_id failed) Archived _ (proj1 Hs) eq_refl) as Hs2.
  destruct (settle_failed _ _ _ _) as [st2 [b|e]]; [by eapply sound_trans|by apply sound_refl].
Qed.

(** *** What a release leaves alone *)

Definition never_blocked (st : store) (i : Z) : Prop := ∀ b, b ∈ blocked st → bl_job_id b ≠ i.

Lemma recheck_blocked_keeps id created st st' r j :
  wf st → _recheck_blocked ev id created st = (st', r) → j ∈ live st → j_id j ≠ id → j ∈ live st'.
Proof using Type.
  intros Hwf Hr Hj Hne. unfold _recheck_blocked, _fail_queued in Hr.
  destruct (job_by_key st id created) as [k|] eqn:Hk; [|by simplify_eq].
  apply job_by_key_Some in Hk as (_ & Hid & _); [|done]. rewrite Hid in Hr.
  destruct (negb _ || _); [by simplify_eq|]. destruct (dv_state _); [by simplify_eq..|].
  match type of Hr with context [_finish_in ev ?i ?s ?v ?f ?st0] =>
    destruct (finish_in_cases ev i s v f st0) as [(y & Hy & Hm & E)|[_ E]]; [auto with sqlery|..]; rewrite E in Hr end.
  - injection Hr as <- _. apply finished_live; [auto with sqlery|done..].
  - injection Hr as <- _. done.
Qed.

Lemma recheck_all_keeps rows work released st st' r j :
  inv X st → Forall (row_ok st) rows → recheck_all ev rows work released st = (st', r) →
  (∀ row, row ∈ rows → row.1 ≠ j_id j) → j ∈ live st → j ∈ live st'.
Proof using Hev.
  revert work released st. induction rows as [|[id created] rows IH]; intros work released st Hi Hrows Hr Hn Hj.
  { by injection Hr as <- _. }
  simpl in Hr. apply Forall_cons in Hrows as [Hrow Hrows].
  destruct (_recheck_blocked ev id created st) as [st1 o] eqn:Ho.
  assert (j ∈ live st1) as Hj1.
  { eapply recheck_blocked_keeps; [apply Hi|exact Ho|done|]. intros Heq.
    by apply (Hn (id, created) (list_elem_of_here _ _)). }
  apply (recheck_blocked_quiet (X:=X) ev Hev) in Ho as [Hq (o' & -> & _)]; [|done|intros x [Hx _]; by apply Hrow].
  assert (Forall (row_ok st1) rows) as Hrows1.
  { eapply Forall_impl; [exact Hrows|]. intros row. apply row_ok_subset, Hq. }
  destruct o'; eapply IH; try exact Hr; try done; (by eapply quiet_inv) || (intros row ?; apply Hn, elem_of_cons; by right).
Qed.

Lemma arelease_loop_keeps fuel work seen released st j :
  inv X st → blocked_idle st → never_blocked st (j_id j) → j ∈ live st →
  j ∈ live (arelease_loop fuel work seen released st).1.
Proof using Hev.
  revert work seen released st. induction fuel as [|fuel IH]; intros [|[id parent] work] seen released st Hi Hb Hn Hj;
    cbn [arelease_loop fst]; try done.
  case_decide; [by apply IH|].
  destruct (adependents_ok st id parent (proj1 Hi) Hb) as [Hrows Hidle]. rewrite arecheck_all_agrees by done.
  destruct (recheck_all_quiet (X:=X) ev Hev (adependents_of st id parent) work released st)
    as (st1 & work1 & rel1 & Heq & Hq & _); [done..|]. rewrite Heq.
  assert (j ∈ live st1) as Hj1.
  { eapply recheck_all_keeps; [exact Hi|exact Hrows|exact Heq| |done]. intros row Hrow. unfold adependents_of in Hrow.
    apply elem_of_remove_dups, list_elem_of_fmap in Hrow as (b & -> & Hbin). apply Hn.
    by apply list_elem_of_filter in Hbin as [_ ?]. }
  apply recheck_all_rows in Heq. apply IH; [by eapply quiet_inv| |by intros b Hbin; apply Hn, Heq|done].
  intros b Hin. unfold _is_running. rewrite (qu_attempts _ _ _ Hq). by apply Hb, Heq.
Qed.

End async.

(** ** Theorems *)

(** C27: where the asynchronous backend does what the synchronous one does. Its dependency judgement,
    which reads the rows and the retry chains beforehand, is the synchronous one for every job; its
    re-check of a blocked job that does not run is the synchronous one; and on a queue whose live jobs
    have no dependencies, no expired TTL and no limited tag the two claims claim the same job and leave
    the same tables. *)
Theorem async_agrees_with_sync ev st :
  env_ok ev → inv [] st →
  (∀ deps, ajudge_dependencies st deps = _judge_dependencies st deps) ∧
  (∀ id created, _is_running st id = false →
     _arecheck_blocked ev id created st = _recheck_blocked ev id created st) ∧
  (Forall (unchecked ev) (live st) → ∀ queues worker,
     aclaim_job ev queues worker st = claim_job ev queues (_registered_worker_id worker st) st).
Proof.
  intros Hev Hi. split_and!; intros.
  - by apply ajudge_agrees, Hi.
  - by apply arecheck_agrees; [apply Hi|].
  - by apply (aclaim_job_agrees ev (X:=[])).
Qed.


(** ** Concrete runs *)

Lemma demo_claimed_blocked_idle : blocked_idle demo_claimed.
Proof.
  assert (Forall (λ b, _is_running demo_claimed (bl_job_id b) = false) (blocked demo_claimed)) as Hf.
  { apply (bool_decide_unpack _). vm_compute. done. }
  intros b Hb. by apply (proj1 (Forall_forall _ _) Hf).
Qed.

Lemma async_agrees_with_sync_witness :
  aclaim_job (demo_env 3000) ["default"] (Some 1) demo_one
  = claim_job (demo_env 3000) ["default"] None demo_one ∧
  ((λ '(j, h), j_id j) <$> match (aclaim_job (demo_env 3000) ["default"] (Some 1) demo_one).2 with
                            | Done r => r | _ => None end) = Some 11.
Proof.
  split; [|vm_compute; reflexivity].
  destruct (async_agrees_with_sync (demo_env 3000) demo_one (demo_env_ok 3000) demo_one_inv) as (_ & _ & H).
  apply H. apply (bool_decide_unpack _). vm_compute. done.
Defined.


(** The asynchronous claim does not look at dependencies: it takes job 12, which has the higher
    priority, before the job it depends on has run; the synchronous claim blocks it and takes job 11. *)
Lemma async_claim_ignores_dependencies :
  (match (aclaim_job (demo_env 3000) ["default"] (Some 1) demo_two).2 with
   | Done (Some (j, _)) => Some (j_id j) | _ => None end) = Some 12 ∧
  (match (claim_job (demo_env 3000) ["default"] (Some 1) demo_two).2 with
   | Done (Some (j, _)) => Some (j_id j) | _ => None end) = Some 11.
Proof. split; vm_compute; reflexivity. Qed.

(** Job 11 failed for good; before its dependents are re-checked, job 12, which depends on it, is
    started by its id. A re-check that read the blocked rows before that fails the running job in the
    asynchronous backend, and leaves it alone in the synchronous one. *)
Definition demo_failed_between : store :=
  (completion_txn (demo_env 4000) 11 (Some 0) Failed no_values (Some demo_handle) OFailed demo_claimed).1.
Definition demo_started : store := (claim_job_by_id (demo_env 5000) 12 (Some 2) demo_failed_between).1.

Lemma async_recheck_fails_running_job :
  adependents_of demo_failed_between 11 None = [(12, 2000)] ∧
  phase_of demo_started 12 = Some (PRunning 2) ∧
  phase_of (_recheck_blocked (demo_env 6000) 12 2000 demo_started).1 12 = Some (PRunning 2) ∧
  phase_of (_arecheck_blocked (demo_env 6000) 12 2000 demo_started).1 12 = Some PDone.
Proof. split_and!; vm_compute; reflexivity. Qed.
