(* ===== verification/AsyncWorker.v ===== *)
(** * The asynchronous worker (core/async_worker.py, fastapi_sqlery/async_backend.py)

    What [AsyncWorker] does with a claimed job: its completion, the retry of a failure, the drain at
    shutdown and the sweep over orphaned jobs; the worker as a state machine that claims up to
    [concurrency] jobs while other processes change the store. Then the worker registry and the queue
    leases of the asynchronous backend. The event loop, the heartbeat timing and the LISTEN task are
    not modelled. *)

From S2P Require Import Json Result Prelude Sql PyString Models Retry Attempts Ready History Store StoreInv Dependents Claim Complete Demo Sweep Queue Outcomes Limits System Executor Liveness Async.
From stdpp Require Import gmap.
From Stdlib Require Import QArith_base Qcanon.
#[local] Open Scope string_scope.
#[local] Open Scope list_scope.
#[local] Open Scope Z_scope.

Definition SHUTDOWN_TIMEOUT_ERROR : string := "shutdown_timeout: worker terminated before job finished".

(** The persisted arguments: the positional ones under [_args], then the others. [None] for arguments
    that are not a list. *)
Definition _deserialize_kwargs (kwargs : json) : option (list json * list (string * json)) :=
  match kwargs with
  | JNull => Some ([], [])
  | JObj m =>
      let d := filter (λ e, e.1 ≠ "_args") m in
      match snd <$> first_where (λ e, e.1 = "_args") m with
      | None | Some JNull | Some (JBool false) | Some (JStr "") | Some (JObj []) => Some ([], d)
      | Some (JNum n) => if n =? 0 then Some ([], d) else None
      | Some (JList l) => Some (l, d)
      | Some (JObj m') => Some ((λ e, JStr e.1) <$> m', d)
      | Some (JStr s) => Some ((λ c, JStr (String.String c "")) <$> to_chars s, d)
      | Some (JBool true) => None
      end
  | v => Some ([v], [])
  end.

(** The poll interval, shortened to the next due job; all in microseconds. *)
Definition _idle_timeout (poll_interval : time) (delay : option time) : time :=
  match delay with
  | None => poll_interval
  | Some d => Z.min poll_interval (Z.max (d + 50000) 100000)
  end.

Section worker.
Context (ev : env).

(** ** The outcome of a job *)

Definition on_job_success (id : Z) (result : option task_output) (attempt : option AttemptHandle) (st : store)
    : store * Prelude.result execution_error handled :=
  match amark_success ev id result attempt st with
  | (st', Ok _) => (st', Ok Recorded)
  | (st', Err e) => (st', fenced_out e)
  end.

(** [if self._should_retry(job): ..]; an exception of the retry is logged. [id] is the id of the
    retry row. *)
Definition retry_if_left (job : queued_job) (id : Z) (st : store) : store :=
  if retries_left (j_spec job) then (arequeue_retry ev job id st).1 else st.

Definition on_job_failed (job : queued_job) (error traceback : string) (attempt : option AttemptHandle) (id : Z)
    (st : store) : store * Prelude.result execution_error handled :=
  match amark_failed ev (j_id job) error traceback attempt st with
  | (st1, Err e) => (st1, fenced_out e)
  | (st1, Ok _) => (_arelease_dependents_quietly ev (j_id job) None (retry_if_left job id st1), Ok Recorded)
  end.

(** [_execute_job] of a job whose task cannot be imported or whose arguments cannot be read *)
Definition load_failed (id : Z) (error traceback : string) (attempt : option AttemptHandle) (st : store)
    : store * Prelude.result execution_error handled :=
  match amark_failed ev id error traceback attempt st with
  | (st', Ok _) => (st', Ok Recorded)
  | (st', Err e) => (st', fenced_out e)
  end.

(** ** The drain *)

(** How the race between a job and the deadline ends. *)
Inductive drain_end : Type :=
  | Returned (result : option task_output)
  | Raised (error traceback : string)
  | DeadlinePassed.

(** [_drain_one] after [amark_shutting_down]; [job] is the row read before it. *)
Definition drain_one (job : option queued_job) (job_id : Z) (e : drain_end) (attempt : option AttemptHandle)
    (id : Z) (st : store) : store * Prelude.result execution_error handled :=
  match e with
  | Returned result =>
      on_job_success job_id result attempt st
  | Raised error tb =>
      match job with
      | Some j => on_job_failed j error tb attempt id st
      | None =>
          match amark_failed ev job_id error tb attempt st with
          | (st', Ok _) => (st', Ok Recorded)
          | (st', Err e) => (st', Err (StoreError e))
          end
      end
  | DeadlinePassed =>
      match amark_failed ev job_id SHUTDOWN_TIMEOUT_ERROR "" attempt st with
      | (st1, Err e) => (st1, fenced_out e)
      | (st1, Ok _) => (match job with Some j => retry_if_left j id st1 | None => st1 end, Ok Recorded)
      end
  end.

(** ** Orphaned jobs *)

Section orphans.
Context (node_id : string) (pid_alive : Z → bool) (WORKER_ALIVE_TIMEOUT : Z).

(** The daemon's sweep over the asynchronous backend. *)
Definition orphan_step (st : store) (r : RunningJobLiveness) : store :=
  match zombie_reason ev node_id pid_alive WORKER_ALIVE_TIMEOUT true r with
  | None => st
  | Some reason => (afail_zombie_job ev (rl_job_id r) reason st).1
  end.

(** [inflight] are the jobs of the worker itself, which the sweep does not see. *)
Definition _recover_orphans (queues : list string) (inflight : list Z) (st : store) : store :=
  foldl orphan_step st (filter (λ r, rl_job_id r ∉ inflight) (get_running_jobs_for_liveness queues st)).
End orphans.

(** ** The worker registry *)

Definition aupdate_heartbeat (id : Z) (st : store) : store := refresh_worker_heartbeat ev id st.

Record worker_metadata : Type := {
  wm_node_id : string;
  wm_pid : Z;
  wm_status : worker_status;
}.

Definition aregister_worker (id : Z) (m : worker_metadata) (st : store) : store :=
  match worker_by_id st id with
  | None =>
      with_workers (workers st ++
        [{| w_id := id; w_node_id := wm_node_id m; w_pid := wm_pid m; w_status := wm_status m;
            w_current_job_id := None; w_jobs_processed := 0; w_last_heartbeat := e_now ev |}]) st
  | Some _ =>
      with_workers (update_where (λ w, w_id w = id)
        (λ w, {| w_id := w_id w; w_node_id := wm_node_id m; w_pid := wm_pid m; w_status := wm_status m;
                 w_current_job_id := w_current_job_id w; w_jobs_processed := w_jobs_processed w;
                 w_last_heartbeat := e_now ev |}) (workers st)) st
  end.

Definition aunregister_worker (id : Z) (st : store) : store :=
  with_workers (delete_where (λ w, w_id w = id) (workers st)) st.

End worker.

(** ** The worker as a state machine *)

(** [running] in the order the jobs were claimed ([_inflight] holds the same jobs), and the attempt
    handles of their claims by job id. *)
Record worker_state : Type := {
  aw_store : store;
  aw_running : list queued_job;
  aw_attempts : gmap Z AttemptHandle;
  aw_shutting_down : bool;
}.

Section machine.
Context (queues : list string) (worker_id : option Z) (concurrency : nat).
Context (node_id : string) (pid_alive : Z → bool) (WORKER_ALIVE_TIMEOUT : Z).

Definition with_store (st : store) (s : worker_state) : worker_state :=
  {| aw_store := st; aw_running := aw_running s; aw_attempts := aw_attempts s;
     aw_shutting_down := aw_shutting_down s |}.

(** A claimed job gets a runner; its handle is remembered. *)
Definition claimed_state (r : option (queued_job * AttemptHandle)) (st : store) (s : worker_state) : worker_state :=
  match r with
  | None => with_store st s
  | Some (j, h) =>
      {| aw_store := st; aw_running := aw_running s ++ [j]; aw_attempts := <[j_id j := h]> (aw_attempts s);
         aw_shutting_down := aw_shutting_down s |}
  end.

(** The outcome of a job is written and its handle forgotten. *)
Definition finished_state (j : queued_job) (running : list queued_job) (st : store) (s : worker_state) : worker_state :=
  {| aw_store := st; aw_running := running; aw_attempts := delete (j_id j) (aw_attempts s);
     aw_shutting_down := aw_shutting_down s |}.

(** The steps of one worker, each in a process environment of its own, and what other processes do in
    between. [id] is the id a retry is given. *)
Inductive worker_step (s : worker_state) : worker_state → Prop :=
  | WPoll ev st' r :
      env_ok ev → aw_shutting_down s = false → (length (aw_running s) < concurrency)%nat →
      aclaim_job ev queues worker_id (aw_store s) = (st', Done r) → worker_step s (claimed_state r st' s)
  | WSucceeded ev l j l' result :
      env_ok ev → aw_running s = l ++ j :: l' →
      worker_step s (finished_state j (l ++ l')
        (on_job_success ev (j_id j) result (aw_attempts s !! j_id j) (aw_store s)).1 s)
  | WFailed ev l j l' error tb id :
      env_ok ev → aw_running s = l ++ j :: l' → unused_id id (aw_store s) →
      worker_step s (finished_state j (l ++ l')
        (on_job_failed ev j error tb (aw_attempts s !! j_id j) id (aw_store s)).1 s)
  | WLoadFailed ev l j l' error tb :
      env_ok ev → aw_running s = l ++ j :: l' →
      worker_step s (finished_state j (l ++ l')
        (load_failed ev (j_id j) error tb (aw_attempts s !! j_id j) (aw_store s)).1 s)
  | WSweep ev :
      env_ok ev →
      worker_step s (with_store
        (_recover_orphans ev node_id pid_alive WORKER_ALIVE_TIMEOUT queues (j_id <$> aw_running s) (aw_store s)) s)
  | WShutdown :
      worker_step s {| aw_store := aw_store s; aw_running := aw_running s; aw_attempts := aw_attempts s;
                       aw_shutting_down := true |}
  | WDrainStart ev j :
      aw_shutting_down s = true → j ∈ aw_running s →
      worker_step s (with_store (amark_shutting_down ev (j_id j) (aw_store s)) s)
  | WDrainEnd ev l j l' seen e id :
      env_ok ev → aw_shutting_down s = true → aw_running s = l ++ j :: l' → unused_id id (aw_store s) →
      (∀ x, seen = Some x → j_id x = j_id j) →
      worker_step s (finished_state j (l ++ l')
        (drain_one ev seen (j_id j) e (aw_attempts s !! j_id j) id (aw_store s)).1 s)
  | WOther st' :
      sound [] (aw_store s) st' → worker_step s (with_store st' s).

End machine.

(** ** Soundness of the worker's writes *)

Section sound.
Context (ev : env) (Hev : env_ok ev).

Lemma on_job_success_refines id result attempt st st' r :
  inv [] st → handle_for st id attempt → on_job_success ev id result attempt st = (st', r) →
  sound [] st st' ∧ (blocked_idle st → spec_complete id (h_id <$> attempt) (phase_of st) (phase_of st')).
Proof using Hev.
  intros Hi Hh. unfold on_job_success. destruct (amark_success ev id result attempt st) as [st1 o] eqn:Ho.
  apply (amark_success_refines ev (X:=[]) Hev) in Ho; [|done..]. by destruct o; intros [= <- _].
Qed.

Lemma load_failed_sound id error tb attempt st :
  inv [] st → handle_for st id attempt → sound [] st (load_failed ev id error tb attempt st).1.
Proof using Hev.
  intros Hi Hh. unfold load_failed. destruct (amark_failed ev id error tb attempt st) as [st1 o] eqn:Ho.
  apply (amark_failed_refines ev (X:=[]) Hev) in Ho as [Hs _]; [|done..]. by destruct o.
Qed.

(** A failure takes no new id. *)
Lemma afinish_unused id attempt status output error tb in_place st k :
  unused_id k st → unused_id k (_afinish ev id attempt OFailed status output error tb in_place st).1.
Proof using Type.
  intros Hu. unfold _afinish. destruct (_close_attempt ev id attempt OFailed st) as [st1 [[]|e]] eqn:Hc; [|done].
  assert (live st1 = live st ∧ history st1 = history st ∧ ready st1 = ready st ∧ blocked st1 = blocked st)
    as (Hl & Hh & Hr & Hb) by (destruct attempt; by injection Hc as <-).
  assert (unused_id k st1) as Hu1 by (destruct Hu; split; by rewrite ?Hl, ?Hh, ?Hr, ?Hb).
  destruct in_place.
  - simpl. destruct Hu1 as [Hul Huh Hur Hub]. split; [|done..].
    intros x (y & Hy & ->)%elem_of_update_where. case_decide; apply (Hul y Hy).
  - unfold _afinish_in, _finish_in. destruct (filter _ (live st1)) as [|x [|]] eqn:Hf; [done| |done].
    rewrite bool_decide_false by done. destruct Hu1 as [Hul Huh Hur Hub]. split; simpl; [| |done..].
    + intros y [Hy _]%elem_of_delete_where. by apply Hul.
    + intros y [Hy| ->%list_elem_of_singleton]%elem_of_app; [by apply Huh|]. simpl. apply Hul.
      assert (x ∈ filter (move_where st1 id (Build_fences None None None false)) (live st1)) as Hx
        by (rewrite Hf; apply list_elem_of_here). by apply list_elem_of_filter in Hx as [_ ?].
Qed.

Lemma retry_if_left_sound job id st :
  inv [] st → unused_id id st → sound [] st (retry_if_left ev job id st).
Proof using Hev.
  intros Hi Hu. unfold retry_if_left. destruct (retries_left _); [by apply arequeue_retry_sound|by apply sound_refl].
Qed.

Lemma on_job_failed_sound job error tb attempt id st :
  inv [] st → handle_for st (j_id job) attempt → unused_id id st →
  sound [] st (on_job_failed ev job error tb attempt id st).1.
Proof using Hev.
  intros Hi Hh Hu. unfold on_job_failed.
  pose proof (afinish_unused (j_id job) attempt Failed None (Some error) (Some tb)
    (match job_by_id st (j_id job) with Some j => retries_left (j_spec j) | None => false end) st id Hu) as Hu1.
  fold (amark_failed ev (j_id job) error tb attempt st) in Hu1.
  destruct (amark_failed ev (j_id job) error tb attempt st) as [st1 o] eqn:Ho.
  apply (amark_failed_refines ev (X:=[]) Hev) in Ho as [Hs _]; [|done..]. destruct o as [[]|e]; [|done].
  eapply sound_trans; [exact Hs|]. intros Hi1. eapply sound_trans; [by apply retry_if_left_sound|].
  intros Hi2. by apply (arelease_quietly_shrinks ev Hev).
Qed.

Lemma drain_one_sound seen job_id e attempt id st :
  inv [] st → handle_for st job_id attempt → unused_id id st → (∀ x, seen = Some x → j_id x = job_id) →
  sound [] st (drain_one ev seen job_id e attempt id st).1.
Proof using Hev.
  intros Hi Hh Hu Hseen. destruct e as [result|error tb|]; cbn [drain_one].
  - destruct (on_job_success ev job_id result attempt st) as [st1 r] eqn:Hr. by apply on_job_success_refines in Hr as [? _].
  - destruct seen as [j|].
    + apply on_job_failed_sound; [done| |done]. by rewrite (Hseen j).
    + destruct (amark_failed ev job_id error tb attempt st) as [st1 o] eqn:Ho.
      apply (amark_failed_refines ev (X:=[]) Hev) in Ho as [Hs _]; [|done..]. by destruct o.
  - pose proof (afinish_unused job_id attempt Failed None (Some SHUTDOWN_TIMEOUT_ERROR) (Some "")
      (match job_by_id st job_id with Some j => retries_left (j_spec j) | None => false end) st id Hu) as Hu1.
    fold (amark_failed ev job_id SHUTDOWN_TIMEOUT_ERROR "" attempt st) in Hu1.
    destruct (amark_failed ev job_id SHUTDOWN_TIMEOUT_ERROR "" attempt st) as [st1 o] eqn:Ho.
    apply (amark_failed_refines ev (X:=[]) Hev) in Ho as [Hs _]; [|done..]. destruct o as [[]|e]; [|done].
    destruct seen as [j|]; [|done]. eapply sound_trans; [exact Hs|]. intros Hi1. by apply retry_if_left_sound.
Qed.

Context (node_id : string) (pid_alive : Z → bool) (WORKER_ALIVE_TIMEOUT : Z).

Lemma orphan_step_sound st r : inv [] st → sound [] st (orphan_step ev node_id pid_alive WORKER_ALIVE_TIMEOUT st r).
Proof using Hev.
  intros Hi. unfold orphan_step. destruct (zombie_reason _ _ _ _ _ _); [|by apply sound_refl].
  by apply (afail_zombie_job_refines ev (X:=[]) Hev).
Qed.

Lemma recover_orphans_sound queues inflight st :
  inv [] st → sound [] st (_recover_orphans ev node_id pid_alive WORKER_ALIVE_TIMEOUT queues inflight st).
Proof using Hev. intros Hi. apply sound_foldl; [done|]. intros st1 r Hi1 _. by apply orphan_step_sound. Qed.

(** The sweep passes over every job it does not look at. *)
Lemma orphan_fold_spares l i a st :
  inv [] st → blocked_idle st → (∀ r, r ∈ l → rl_job_id r ≠ i) → phase_of st i = Some (PRunning a) →
  phase_of (foldl (orphan_step ev node_id pid_alive WORKER_ALIVE_TIMEOUT) st l) i = Some (PRunning a).
Proof using Hev.
  revert st. induction l as [|r l IH]; intros st Hi Hb Hl Hp; simpl; [done|].
  pose proof (orphan_step_sound st r Hi) as [Hi1 _].
  assert (blocked_idle (orphan_step ev node_id pid_alive WORKER_ALIVE_TIMEOUT st r) ∧
    phase_of (orphan_step ev node_id pid_alive WORKER_ALIVE_TIMEOUT st r) i = Some (PRunning a)) as [Hb1 Hp1].
  { unfold orphan_step. destruct (zombie_reason _ _ _ _ _ _) as [reason|]; [|done].
    destruct (afail_zombie_job_refines ev (X:=[]) Hev (rl_job_id r) reason st Hi) as [_ Hz].
    destruct (Hz Hb) as [Hb1 (x & [Hsame|(_ & _ & Hother)])]; split; try done; [by rewrite Hsame|].
    apply passes_running. rewrite <-Hp. apply Hother. intros ->. by apply (Hl r (list_elem_of_here _ _)). }
  apply IH; [done..| |done]. intros x Hx. apply Hl, elem_of_cons. by right.
Qed.
End sound.

(** ** Reachable states of a worker *)

Section reachable.
Context (queues : list string) (worker_id : option Z) (concurrency : nat).
Context (node_id : string) (pid_alive : Z → bool) (WORKER_ALIVE_TIMEOUT : Z).

#[local] Abbreviation step := (worker_step queues worker_id concurrency node_id pid_alive WORKER_ALIVE_TIMEOUT).

(** Every remembered handle names the attempt that the claim of that job opened. *)
Definition handles_ok (st : store) (m : gmap Z AttemptHandle) : Prop :=
  ∀ id h, m !! id = Some h → handle_ok st h ∧ h_job_id h = id.

Record worker_ok (s : worker_state) : Prop := {
  wo_inv : inv [] (aw_store s);
  wo_bound : (length (aw_running s) <= concurrency)%nat;
  wo_handles : handles_ok (aw_store s) (aw_attempts s);
}.

Lemma handles_ok_sound st st' m : sound [] st st' → handles_ok st m → handles_ok st' m.
Proof using Type.
  intros [_ He] Hm id h Hh. destruct (Hm id h Hh) as [Hok Hid]. split; [|done].
  eapply handle_ok_persists; [by apply evolves_persists|done].
Qed.

Lemma handles_ok_delete st m id : handles_ok st m → handles_ok st (delete id m).
Proof using Type. intros Hm i h [_ Hh]%lookup_delete_Some. by apply Hm. Qed.

Lemma handles_for st m id : wf st → handles_ok st m → handle_for st id (m !! id).
Proof using Type.
  intros Hwf Hm. apply (presents_handle_for (map_to_list m).*2); [done| |].
  - apply Forall_forall. intros h ([i h'] & -> & Hin%elem_of_map_to_list)%list_elem_of_fmap. by destruct (Hm i h' Hin).
  - destruct (m !! id) as [h|] eqn:Hh; [|done]. split; [|by destruct (Hm id h Hh)].
    apply list_elem_of_fmap. exists (id, h). split; [done|]. by apply elem_of_map_to_list.
Qed.

Lemma finished_ok s j running st' :
  worker_ok s → sound [] (aw_store s) st' → (length running <= length (aw_running s))%nat →
  worker_ok (finished_state j running st' s).
Proof using Type.
  intros [Hi Hn Hh] Hs Hl. split; simpl; [apply Hs|lia|]. apply handles_ok_delete. by eapply handles_ok_sound.
Qed.

Lemma store_ok s st' : worker_ok s → sound [] (aw_store s) st' → worker_ok (with_store st' s).
Proof using Type. intros [Hi Hn Hh] Hs. split; simpl; [apply Hs|done|]. by eapply handles_ok_sound. Qed.

Lemma removed_length {A} (l l' : list A) x k : k = l ++ x :: l' → (length (l ++ l') <= length k)%nat.
Proof using Type. intros ->. rewrite !length_app. simpl. lia. Qed.

Lemma worker_step_ok s s' : worker_ok s → step s s' → worker_ok s'.
Proof using Type.
  intros Hok Hstep. pose proof Hok as [Hi Hn Hh].
  assert (∀ id, handle_for (aw_store s) id (aw_attempts s !! id)) as Hfor by (intros id; by apply handles_for; [apply Hi|]).
  destruct Hstep as [ev st' r Hev _ Hroom Hc|ev l j l' result Hev Hrun|ev l j l' error tb id Hev Hrun Hu|
    ev l j l' error tb Hev Hrun|ev Hev| |ev j _ _|ev l j l' seen e id Hev _ Hrun Hu Hseen|st' Hs].
  - destruct (aclaim_job_refines ev (X:=[]) Hev queues worker_id _ _ _ Hi Hc) as [Hs _].
    destruct r as [[j h]|]; [|by apply store_ok].
    split; simpl; [apply Hs|rewrite length_app; simpl; lia|].
    intros id x [[<- <-]|[_ Hx]]%lookup_insert_Some; [|by eapply handles_ok_sound].
    destruct (aclaim_job_spec ev (X:=[]) Hev queues worker_id _ Hi) as (st1 & st2 & r & Heq & _ & Hcl).
    rewrite Heq in Hc. injection Hc as -> ->. destruct Hcl as (c & e & j0 & _ & _ & [_ _ -> Ho]).
    split; [by apply open_attempt_handle in Ho as [? _]|]. by injection Ho as _ <-.
  - apply finished_ok; [done| |by eapply removed_length].
    destruct (on_job_success _ _ _ _ _) as [st' r] eqn:Hr. by apply on_job_success_refines in Hr as [? _].
  - apply finished_ok; [done|by apply on_job_failed_sound|by eapply removed_length].
  - apply finished_ok; [done|by apply load_failed_sound|by eapply removed_length].
  - apply store_ok; [done|by apply recover_orphans_sound].
  - by split.
  - apply store_ok; [done|by apply amark_shutting_down_refines].
  - apply finished_ok; [done|by apply drain_one_sound|by eapply removed_length].
  - by apply store_ok.
Qed.

End reachable.

(** ** A failure with retries left *)

Section retried.
Context (ev : env) (Hev : env_ok ev).

(** The job a retry is made from the row as claimed. *)
Definition async_retry (job : queued_job) (id : Z) : queued_job :=
  let delay := (retry_job_fields job (e_now ev) None).2 in
  new_job id (e_now ev) (retry_job_fields job (e_now ev) (Some (e_now ev + timedelta_seconds delay))).1.

Lemma amark_failed_keeps st row a h id error tb :
  inv [] st → job_by_id st id = Some row → a ∈ attempts st → open_for id a → handle_of a h →
  retries_left (j_spec row) = true →
  ∃ st1 f, amark_failed ev id error tb (Some h) st = (st1, Ok tt) ∧ inv [] st1 ∧ job_by_id st1 id = Some f ∧
    same_queue st st1 ∧ (∀ i, _is_running st i = false → _is_running st1 i = false) ∧ j_spec f = j_spec row ∧
    j_status f = Failed ∧ jr_error (j_run f) = error.
Proof using Hev.
  intros Hi Hrow Ha Hopen Hh Hleft.
  set (v := afinish_values ev (open_attempt_of (attempts st) id) None (Some error) (Some tb)).
  destruct (closed_store_ok ev st Hi id a Ha Hopen h Hh OFailed) as (Hc & _).
  destruct (marked_store_ok ev st Hi id row Hrow a Ha Hopen h Hh None I v OFailed) as (Hs & Hj & _ & Hsame & _).
  exists (marked_store ev st id h None v OFailed). eexists. split_and!; [|apply Hs|exact Hj|apply Hsame..| |done|done|].
  - unfold amark_failed, _afinish. rewrite Hrow, Hleft, Hc. done.
  - intros i. rewrite !is_running_false. intros Hno x (y & Hy & ->)%elem_of_update_where Ho.
    case_decide; [by destruct Ho|]. by apply (Hno y).
  - subst v. simpl. unfold afinish_values. by destruct (attempt_values _) as [[[? ?] ?] ?].
Qed.

(** The retry and the archiving of the original are one transaction. *)
Lemma arequeue_retry_effect f job id st :
  inv [] st → f ∈ live st → j_status f = Failed → j_id job = j_id f → unused_id id st →
  ∃ st' o, arequeue_retry ev job id st = (st', Ok tt) ∧ sound [] st st' ∧
    live st' = delete_where (λ x, j_id x = j_id f) (live st) ++ [async_retry job id] ∧
    history st' = history st ++ [o] ∧ blocked st' = blocked st ∧ (∀ i, _is_running st i = false → _is_running st' i = false) ∧
    j_id o = j_id f ∧ j_spec o = j_spec f ∧ j_status o = Archived ∧ jr_error (j_run o) = jr_error (j_run f).
Proof using Hev.
  intros Hi Hf Hs Hid Hu. pose proof (arequeue_retry_sound ev (X:=[]) Hev job id st Hi Hu) as Hsound.
  rewrite arequeue_retry_settles in *. cbv zeta in *. fold (async_retry job id) in *.
  set (r := async_retry job id) in *. set (st1 := insert_job ev r st) in *.
  pose proof (insert_job_sound (X:=[]) ev Hev r st Hi Hu) as [Hi1 _]. fold st1 in Hi1.
  assert (f ∈ live st1) as Hf1 by (by apply elem_of_app; left).
  destruct (settle_failed_effect ev (j_id job) Archived f st1 (proj1 Hi1) eq_refl Hf1 (eq_sym Hid) Hs)
    as (st' & o & Heq & Hl & Hh & Hoid & Hosp & Hos & Hoe & _).
  destruct (settle_failed_entries ev (j_id job) Archived st1) as [_ Hbl]. rewrite Heq in *. cbn [fst] in *.
  exists st', o. split; [done|]. split; [exact Hsound|].
  split_and!; [|done|done| |congruence|done..].
  - rewrite Hl, Hid. unfold delete_where. simpl. rewrite filter_app. f_equal. rewrite filter_cons, decide_True; [done|].
    simpl. intros Hx. by apply (un_live _ _ Hu f).
  - intros i. unfold settle_failed, _finish_in in Heq. repeat case_match; simplify_eq. rewrite !is_running_false.
    simpl. intros Hno x (y & Hy & ->)%elem_of_update_where Ho. case_decide; [by destruct Ho|]. by apply (Hno y).
Qed.

(** The view of the two tables is one map from ids to specifications: steps that add no id change no
    retry chain. *)
Lemma row_unique st j k :
  wf st → (j ∈ live st ∨ j ∈ history st) → (k ∈ live st ∨ k ∈ history st) → j_id j = j_id k → j = k.
Proof using Type.
  intros Hwf [Hj|Hj] [Hk|Hk] Hid; [by apply (live_inj st)|by destruct (wf_disjoint st Hwf j k)|
    by destruct (wf_disjoint st Hwf k j)|]. by eapply NoDup_fmap_inj; [apply (wf_hist_ids st Hwf)|..].
Qed.

Lemma evolves_retry_ids st st' i :
  wf st' → evolves st st' → job_ids st' ⊆ job_ids st →
  ∀ k, k ∈ retry_ids st' i ↔ k ∈ retry_ids st i.
Proof using Type.
  intros Hwf' He Hids k. rewrite !elem_of_retry_ids.
  assert (∀ j, j ∈ live st ∨ j ∈ history st → ∃ j', (j' ∈ live st' ∨ j' ∈ history st') ∧ j_id j' = j_id j ∧ j_spec j' = j_spec j) as Hfw.
  { intros j [Hj|Hj]; [by apply (ev_live _ _ He)|]. exists j. split; [|done]. right. eapply elem_of_prefix, He. done. }
  split.
  - intros (j & Hj & Hp & <-).
    assert (j_id j ∈ job_ids st) as Hin.
    { apply Hids. unfold job_ids. apply elem_of_app. destruct Hj; [left|right]; by apply list_elem_of_fmap_2. }
    assert (∃ x, (x ∈ live st ∨ x ∈ history st) ∧ j_id x = j_id j) as (x & Hx & Hxid).
    { unfold job_ids in Hin. apply elem_of_app in Hin as [(x & ? & ?)%list_elem_of_fmap|(x & ? & ?)%list_elem_of_fmap]; exists x; auto. }
    destruct (Hfw x Hx) as (x' & Hx' & Hxid' & Hsp). assert (x' = j) as -> by (eapply row_unique; [done..|congruence]).
    exists x. split_and!; [done| |done]. by rewrite <-Hsp.
  - intros (j & Hj & Hp & <-). destruct (Hfw j Hj) as (j' & Hj' & Hid & Hsp). exists j'. by rewrite Hsp.
Qed.

(** A job whose only retry waits is neither met nor failed for those that depend on it. *)
Lemma retried_pending st o r :
  wf st → o ∈ history st → j_status o = Archived → retry_ids st (j_id o) = [j_id r] → waiting st r →
  dv_state (_judge_dependencies st [j_id o]) = PENDING.
Proof using Type.
  intros Hwf Ho Hos Hret (Hr & Hrs & Hidle).
  assert (r ∈ job_all st) as Hrall.
  { apply elem_of_app. left. apply list_elem_of_bind. exists r. split; [|done]. unfold live_view.
    rewrite is_running_false in Hidle.
    rewrite decide_True by exact Hrs. rewrite (filter_none (open_for (j_id r))) by done. apply list_elem_of_here. }
  assert (latest_retry st (j_id o) = Some r) as Hlr.
  { destruct (latest_retry st (j_id o)) as [c|] eqn:Hc; [|apply latest_retry_None in Hc; [congruence|done]].
    f_equal. unfold latest_retry in Hc. apply head_Some_elem_of, elem_of_order_by, list_elem_of_filter in Hc as [Hp Hc].
    assert (j_id c ∈ retry_ids st (j_id o)) as Hin.
    { apply elem_of_retry_ids. apply elem_of_app in Hc as [(x & Hcx & Hx)%list_elem_of_bind|Hc]; [|by exists c; auto].
      apply live_view_same in Hcx as [Hid Hsp]. exists x. rewrite <-Hsp. auto. }
    rewrite Hret in Hin. apply list_elem_of_singleton in Hin.
    eapply NoDup_fmap_inj; [by apply job_all_ids|done..]. }
  assert (∃ n, MAX_CHAIN_HOPS = S n) as [n Hn] by (eexists; vm_compute; reflexivity).
  assert (judge_one (anywhere_by_id st) (latest_retry st) (λ r, is_retry_pending (Some r)) (j_id o) = (PENDING, j_id o)) as Hone.
  { unfold judge_one. rewrite (anywhere_history st (j_id o) o Hwf Ho eq_refl), Hn. cbn [follow_retries].
    assert (failed_or_archived o = true) as -> by (unfold failed_or_archived; by rewrite Hos). rewrite Hlr.
    assert (follow_retries (latest_retry st) n r = r) as ->; [|by rewrite Hrs].
    destruct n; cbn [follow_retries]; [done|]. unfold failed_or_archived. by rewrite Hrs. }
  unfold _judge_dependencies, judge_dependencies. cbn [judge_loop]. by rewrite Hone.
Qed.

End retried.

(** ** Theorems *)



(** C1: the sweep over orphaned jobs that a worker runs spares the worker's own jobs: a job that it
    has in flight runs on under the same attempt, whoever is recorded as its worker and however old its
    heartbeat is. *)
Theorem async_sweep_spares_own_jobs ev node_id pid_alive timeout queues inflight st i a :
  env_ok ev → inv [] st → blocked_idle st → i ∈ inflight → phase_of st i = Some (PRunning a) →
  phase_of (_recover_orphans ev node_id pid_alive timeout queues inflight st) i = Some (PRunning a).
Proof.
  intros Hev Hi Hb Hin Hp. unfold _recover_orphans. apply orphan_fold_spares; [done..| |done].
  intros r [Hr _]%list_elem_of_filter Heq. apply Hr. by rewrite Heq.
Qed.

(** ** Queue leases of the asynchronous backend

    A claim reads the row and then writes it; the write names the row by its key only. *)

Record Lease : Type := {
  le_daemon_id : string;
  le_node_id : string;
  le_pid : Z;
  le_acquired_at : time;
  le_expires_at : time;
}.

Inductive lease_error : Type := IntegrityError | StaleDataError.

(** The write of a claim after [existing] was read. Only the columns that differ from what was read
    are written. *)
Definition aclaim_lease_write (now : time) (queue worker : string) (ttl : Z) (existing : option Lease)
    (leases : gmap string Lease) : gmap string Lease * Prelude.result lease_error bool :=
  match existing with
  | None =>
      match leases !! queue with
      | Some _ => (leases, Err IntegrityError)
      | None =>
          (<[queue := {| le_daemon_id := worker; le_node_id := worker; le_pid := 0; le_acquired_at := now;
                         le_expires_at := now + seconds ttl |}]> leases, Ok true)
      end
  | Some e =>
      if bool_decide (le_daemon_id e = worker) || (le_expires_at e <? now) then
        match leases !! queue with
        | None => (leases, Err StaleDataError)
        | Some cur =>
            (<[queue := {| le_daemon_id := if decide (le_daemon_id e = worker) then le_daemon_id cur else worker;
                           le_node_id := if decide (le_node_id e = worker) then le_node_id cur else worker;
                           le_pid := le_pid cur; le_acquired_at := now;
                           le_expires_at := now + seconds ttl |}]> leases, Ok true)
        end
      else (leases, Ok false)
  end.

Definition aclaim_lease (now : time) (queue worker : string) (ttl : Z) (leases : gmap string Lease) :=
  aclaim_lease_write now queue worker ttl (leases !! queue) leases.

Definition arenew_lease (now : time) (queue worker : string) (leases : gmap string Lease) : gmap string Lease * bool :=
  match leases !! queue with
  | Some e =>
      if decide (le_daemon_id e = worker) then
        (<[queue := {| le_daemon_id := le_daemon_id e; le_node_id := le_node_id e; le_pid := le_pid e;
                       le_acquired_at := le_acquired_at e; le_expires_at := now + seconds 30 |}]> leases, true)
      else (leases, false)
  | None => (leases, false)
  end.

Definition arelease_lease (queue worker : string) (leases : gmap string Lease) : gmap string Lease :=
  match leases !! queue with
  | Some e => if decide (le_daemon_id e = worker) then delete queue leases else leases
  | None => leases
  end.

(** The worker holds the lease at that time. *)
Definition holds_queue (leases : gmap string Lease) (queue worker : string) (now : time) : Prop :=
  ∃ e, leases !! queue = Some e ∧ le_daemon_id e = worker ∧ now <= le_expires_at e.

(** A claim that is not interleaved takes no live lease from another worker; if it says so, the caller
    holds the lease for its time to live. *)
Lemma aclaim_lease_exclusive now queue worker ttl leases leases' r w :
  0 <= ttl → aclaim_lease now queue worker ttl leases = (leases', r) → w ≠ worker →
  (r = Ok true → holds_queue leases' queue worker (now + seconds ttl)) ∧
  (holds_queue leases queue w now → r = Ok false ∧ leases' = leases) ∧
  (∀ q, q ≠ queue → leases' !! q = leases !! q).
Proof.
  intros Httl Hc Hw. unfold aclaim_lease, aclaim_lease_write in Hc.
  destruct (leases !! queue) as [e|] eqn:He.
  - assert (holds_queue leases queue w now → le_daemon_id e ≠ worker ∧ (le_expires_at e <? now) = false) as Hheld.
    { intros (x & Hx & Hd & Hl). rewrite He in Hx. injection Hx as <-. split; [congruence|lia]. }
    destruct (bool_decide_reflect (le_daemon_id e = worker)) as [Heq|Hne]; [|destruct (le_expires_at e <? now)];
      simpl in Hc; injection Hc as <- <-.
    + split_and!; [|by intros [? _]%Hheld|intros q ?; by apply lookup_insert_ne].
      intros _. eexists. rewrite lookup_insert_eq. split; [done|]. simpl. by rewrite decide_True.
    + split_and!; [|by intros [_ ?]%Hheld|intros q ?; by apply lookup_insert_ne].
      intros _. eexists. rewrite lookup_insert_eq. split; [done|]. simpl. by rewrite decide_False.
    + by split_and!.
  - injection Hc as <- <-. split_and!; [|by intros (x & Hx & _); rewrite He in Hx|intros q ?; by apply lookup_insert_ne].
    intros _. eexists. rewrite lookup_insert_eq. split; [done|]. simpl. split; [done|lia].
Qed.

(** Two workers that both read an expired lease before either writes are both told that they hold it. *)
Lemma expired_lease_taken_twice :
  let old := {| le_daemon_id := "gone"; le_node_id := "gone"; le_pid := 0; le_acquired_at := 0; le_expires_at := 10 |} in
  let leases := {[ "default" := old ]} in
  let '(l1, r1) := aclaim_lease_write 20 "default" "a" 30 (leases !! "default") leases in
  let '(l2, r2) := aclaim_lease_write 21 "default" "b" 30 (leases !! "default") l1 in
  r1 = Ok true ∧ r2 = Ok true ∧ (le_daemon_id <$> l2 !! "default") = Some "b".
Proof. vm_compute. done. Qed.

(** ** Concrete runs *)

(** A worker that polls [demo_two] once: it claims job 12. *)
Definition demo_async_worker : worker_state :=
  {| aw_store := demo_two; aw_running := []; aw_attempts := ∅; aw_shutting_down := false |}.
Definition demo_poll := aclaim_job (demo_env 3000) ["default"] None (aw_store demo_async_worker).
Definition demo_polled : worker_state :=
  claimed_state (match demo_poll.2 with Done r => r | _ => None end) demo_poll.1 demo_async_worker.

Lemma demo_polled_step alive : worker_step ["default"] None 1 "host" alive 30 demo_async_worker demo_polled.
Proof.
  apply (WPoll ["default"] None 1 "host" alive 30 demo_async_worker (demo_env 3000)); [apply demo_env_ok|done|simpl; lia|].
  vm_compute. reflexivity.
Qed.


#[local] Abbreviation demo_claimed_job := (_as_running demo_job demo_handle).

Lemma demo_claimed_fresh : unused_id 21 demo_claimed.
Proof. apply unused_id_intro, (bool_decide_unpack _). by vm_compute. Qed.


Lemma async_sweep_spares_own_jobs_witness :
  phase_of (_recover_orphans (demo_env 9000000000) "host" (λ _, false) 30 ["default"] [11] demo_claimed) 11
    = Some (PRunning 1) ∧
  phase_of (_recover_orphans (demo_env 9000000000) "host" (λ _, false) 30 ["default"] [] demo_claimed) 11 = Some PDone.
Proof.
  split; [|vm_compute; reflexivity].
  apply (async_sweep_spares_own_jobs (demo_env 9000000000) "host" (λ _, false) 30 ["default"] [11] demo_claimed 11 1);
    [apply demo_env_ok|apply demo_claimed_inv|apply demo_claimed_blocked_idle|apply list_elem_of_here|vm_compute; reflexivity].
Defined.

(** A worker that is killed while it drains leaves its job [shutting_down] with an open attempt: no
    sweep fails it, however old its attempt gets, and no claim takes it. *)
Theorem killed_drain_is_stuck ev id j st reason :
  job_by_id st id = Some j → j_status j = ShuttingDown →
  afail_zombie_job ev id reason st = (st, Ok false) ∧ fail_zombie_job ev id reason st = (st, Ok false) ∧
  release_job ev id st = st ∧ (∀ worker, claim_job_by_id ev id worker st = (st, None)) ∧
  ∀ limit cutoff, j ∉ stray_terminal limit cutoff st.
Proof.
  intros Hj Hs. unfold afail_zombie_job, fail_zombie_job, release_job, claim_job_by_id. rewrite Hj, Hs.
  rewrite bool_decide_false by done. split_and!; [done..| |].
  - intros worker. by destruct (_ && _).
  - intros limit cutoff Hin. unfold stray_terminal in Hin.
    apply elem_of_take in Hin as (n & Hn & _). apply list_elem_of_lookup_2, elem_of_order_by, list_elem_of_filter in Hn as [[Ht _] _].
    rewrite Hs in Ht. by repeat (apply elem_of_cons in Ht as [?|Ht]; [done|]); apply elem_of_nil in Ht.
Qed.

(** A job whose task cannot be loaded fails in place, since it has retries left, but no retry is
    made: it carries no marker that the recovery sweep looks for, and the settle sweep ends it. *)
Lemma load_failure_never_retried :
  let st := (load_failed (demo_env 4000) 11 "no module" "tb" (Some demo_handle) demo_claimed).1 in
  ((λ j, (j_id j, j_status j)) <$> live st) = [(11, Failed); (12, Queued)] ∧
  get_jobs_pending_retry (demo_env 9000000000) 0 10 st = [] ∧
  let settled := (settle_finished_jobs (demo_env 9000000000) 10 0 st).1 in
  ((λ j, (j_id j, j_status j)) <$> history settled) = [(11, Failed); (12, Failed)] ∧ retry_ids settled 11 = [].
Proof. vm_compute. done. Qed.

(** The output of the asynchronous completion is the [str] of the result, not its JSON. *)
Lemma async_true_reads_as_text :
  serialize_result (Value (VBool true)) = Ok (Text "true") ∧ deserialize_result (Some "true") = VBool true ∧
  deserialize_result (Some "True") = VStr (codes "True").
Proof. split_and!; vm_compute; reflexivity. Qed.
