(* ===== verification/Cleanup.v ===== *)
(** * Retention (core/cleanup.py, fastapi_sqlery/backend.py)

    Retention is the only thing that removes history: [cleanup_jobs] by age, [cleanup_jobs_by_count]
    by number, [cleanup_per_job_ttl] by the TTLs of a job, [_prune_attempts_without_history] for
    attempts whose job is gone, and [auto_cleanup], which runs them as configured. This file models
    the deletion in batches, for tables that are not partitioned; partitions are reclaimed in
    [Partitioning]. The registry table and [VACUUM] are not modelled. [finished_at] of a history row
    is not null; a missing one sorts as 0 here. *)

From S2P Require Import Prelude Sql PyString Models Retry Attempts Ready History Store StoreInv Dependents Claim Complete Demo.
From stdpp Require Import gmap.
#[local] Open Scope string_scope.
#[local] Open Scope list_scope.
#[local] Open Scope Z_scope.

Definition CLEANUP_BATCH_SIZE : nat := 500.

(** [_delete_history_batch]: rows that satisfy [P] among [ids], and the finished attempts of [ids];
    the number of rows. *)
Definition _delete_history_batch (ids : list Z) (P : queued_job → Prop) {HD : ∀ j, Decision (P j)}
    (st : store) : store * nat :=
  (with_attempts (delete_where (λ a, at_job_id a ∈ ids ∧ at_finished_at a ≠ None) (attempts st))
     (with_history (delete_where (λ h, j_id h ∈ ids ∧ P h) (history st)) st),
   rowcount (λ h, j_id h ∈ ids ∧ P h) (history st)).

(** [if status: .. if queue_name: .. if cutoff is not None: ..] *)
Record retention_filter : Type := {
  rf_status : option job_status;
  rf_queue_name : string;
  rf_cutoff : option time;
}.

Definition rf_matches (f : retention_filter) (h : queued_job) : Prop :=
  opt_eq (rf_status f) (j_status h) ∧ (rf_queue_name f = "" ∨ js_queue_name (j_spec h) = rf_queue_name f) ∧
  match rf_cutoff f with
  | None => True
  | Some cutoff => match jr_finished_at (j_run h) with Some t => t < cutoff | None => False end
  end.
#[global] Instance rf_matches_dec f h : Decision (rf_matches f h).
Proof. unfold rf_matches. destruct (rf_cutoff f), (jr_finished_at (j_run h)); apply _. Defined.

(** [ORDER BY finished_at, id] *)
Definition oldest_finished (a b : queued_job) : Prop :=
  let ta := default 0 (jr_finished_at (j_run a)) in
  let tb := default 0 (jr_finished_at (j_run b)) in
  ta < tb ∨ (ta = tb ∧ j_id a <= j_id b).
#[global] Instance oldest_finished_dec a b : Decision (oldest_finished a b).
Proof. unfold oldest_finished. apply _. Defined.
Definition newest_finished (a b : queued_job) : Prop := oldest_finished b a.
#[global] Instance newest_finished_dec a b : Decision (newest_finished a b).
Proof. unfold newest_finished. apply _. Defined.

(** ** By age *)

Fixpoint cleanup_loop (fuel : nat) (f : retention_filter) (total : nat) (st : store) : store * loop_result nat :=
  match fuel with
  | O => (st, OutOfFuel)
  | S fuel =>
      match j_id <$> take CLEANUP_BATCH_SIZE (order_by oldest_finished (filter (rf_matches f) (history st))) with
      | [] => (st, Done total)
      | ids =>
          match _delete_history_batch ids (rf_matches f) st with
          | (st', O) => (st', Done total)
          | (st', deleted) => cleanup_loop fuel f (total + deleted) st'
          end
      end
  end.

(** [{"deleted": .., "count": ..}] *)
Record cleanup_result : Type := { cr_deleted : nat; cr_count : nat }.

Definition age_filter (now : time) (status : option job_status) (max_age_days : option Z) (queue_name : string) : retention_filter :=
  {| rf_status := status; rf_queue_name := queue_name;
     rf_cutoff := match max_age_days with
                  | Some d => if d =? 0 then None else Some (now - seconds (d * 86400))
                  | None => None
                  end |}.

(** Every round removes a row, so the number of rows and one is enough fuel ([cleanup_jobs_exact]). *)
Definition cleanup_jobs (ev : env) (status : option job_status) (max_age_days : option Z) (queue_name : string)
    (dry_run : bool) (st : store) : store * loop_result cleanup_result :=
  let f := age_filter (e_now ev) status max_age_days queue_name in
  if dry_run then (st, Done {| cr_deleted := 0; cr_count := rowcount (rf_matches f) (history st) |})
  else
    match cleanup_loop (S (length (history st))) f 0 st with
    | (st', Done n) => (st', Done {| cr_deleted := n; cr_count := n |})
    | (st', Raised e) => (st', Raised e)
    | (st', OutOfFuel) => (st', OutOfFuel)
    end.

(** ** By number *)

(** [ORDER BY finished_at DESC, id DESC OFFSET keep_count] *)
Definition surplus (f : retention_filter) (keep_count : nat) (st : store) : list queued_job :=
  drop keep_count (order_by newest_finished (filter (rf_matches f) (history st))).

Fixpoint count_loop (fuel : nat) (f : retention_filter) (keep_count deleted : nat) (st : store) : store * loop_result nat :=
  match fuel with
  | O => (st, OutOfFuel)
  | S fuel =>
      match j_id <$> take CLEANUP_BATCH_SIZE (surplus f keep_count st) with
      | [] => (st, Done deleted)
      | ids =>
          match _delete_history_batch ids (λ h, True) st with
          | (st', O) => (st', Done deleted)
          | (st', batch) => count_loop fuel f keep_count (deleted + batch) st'
          end
      end
  end.

Definition cleanup_jobs_by_count (status : option job_status) (keep_count : nat) (queue_name : string)
    (dry_run : bool) (st : store) : store * loop_result cleanup_result :=
  let f := {| rf_status := status; rf_queue_name := queue_name; rf_cutoff := None |} in
  if dry_run then (st, Done {| cr_deleted := 0; cr_count := rowcount (rf_matches f) (history st) - keep_count |})
  else
    match count_loop (S (length (history st))) f keep_count 0 st with
    | (st', Done n) => (st', Done {| cr_deleted := n; cr_count := n |})
    | (st', Raised e) => (st', Raised e)
    | (st', OutOfFuel) => (st', OutOfFuel)
    end.

(** ** By the TTLs of the jobs *)

Definition ttl_elapsed (now : time) (statuses : list job_status) (ttl : queued_job → option Z) (h : queued_job) : Prop :=
  j_status h ∈ statuses ∧
  match ttl h with
  | Some t => t ≠ -1 ∧ default 0 (jr_finished_at (j_run h)) + seconds t < now
  | None => False
  end.
#[global] Instance ttl_elapsed_dec now statuses ttl h : Decision (ttl_elapsed now statuses ttl h).
Proof. unfold ttl_elapsed. destruct (ttl h); apply _. Defined.

(** [for i in range(0, len(expired), CLEANUP_BATCH_SIZE)] *)
Fixpoint delete_chunks (fuel : nat) (ids : list Z) (st : store) : store :=
  match fuel, ids with
  | S fuel, _ :: _ =>
      delete_chunks fuel (drop CLEANUP_BATCH_SIZE ids)
        (_delete_history_batch (take CLEANUP_BATCH_SIZE ids) (λ h, True) st).1
  | _, _ => st
  end.

Definition ttl_pass (ev : env) (statuses : list job_status) (ttl : queued_job → option Z) (dry_run : bool)
    (st : store) : store * nat :=
  let expired := j_id <$> filter (ttl_elapsed (e_now ev) statuses ttl) (history st) in
  (if dry_run then st else delete_chunks (length expired) expired st, length expired).

Definition cleanup_per_job_ttl (ev : env) (dry_run : bool) (st : store) : store * nat :=
  let '(st1, n1) := ttl_pass ev [Success] (λ h, js_result_ttl (j_spec h)) dry_run st in
  let '(st2, n2) := ttl_pass ev [Failed; Archived] (λ h, js_failure_ttl (j_spec h)) dry_run st1 in
  (st2, (n1 + n2)%nat).

(** ** Attempts without a job *)

Definition jobless (st : store) (a : job_attempt) : Prop :=
  at_finished_at a ≠ None ∧ at_job_id a ∉ j_id <$> job_all st.
#[global] Instance jobless_dec st a : Decision (jobless st a).
Proof. unfold jobless. apply _. Defined.

Definition _prune_attempts_without_history (limit : nat) (st : store) : store * nat :=
  let ids := at_id <$> take limit (filter (jobless st) (attempts st)) in
  (with_attempts (delete_where (λ a, at_id a ∈ ids) (attempts st)) st, rowcount (λ a, at_id a ∈ ids) (attempts st)).

(** ** The manager (core/cleanup.py) *)

Definition status_text (s : job_status) : string :=
  match s with
  | Queued => "queued" | Running => "running" | Success => "success" | Failed => "failed"
  | Archived => "archived" | ShuttingDown => "shutting_down"
  end.

Definition then_store {A B} (m : store * loop_result A) (k : A → store → store * loop_result B) : store * loop_result B :=
  match m with
  | (st, Done a) => k a st
  | (st, Raised e) => (st, Raised e)
  | (st, OutOfFuel) => (st, OutOfFuel)
  end.

(** [{"deleted": .., "would_delete": ..}] *)
Record managed : Type := { mg_deleted : nat; mg_would_delete : nat }.

Definition report (dry_run : bool) (r : cleanup_result) : managed :=
  {| mg_deleted := if dry_run then 0 else cr_deleted r; mg_would_delete := if dry_run then cr_count r else 0 |}.

Definition cleanup_old_jobs (ev : env) (retention_config : gmap string Z) (status : option job_status)
    (max_age_days : option Z) (queue_name : string) (dry_run : bool) (st : store) : store * loop_result managed :=
  let key := match status with Some s => status_text s +:+ "_max_age_days" | None => "default_max_age_days" end in
  let days := match max_age_days with Some d => d | None => default 30 (retention_config !! key) end in
  then_store (cleanup_jobs ev status (Some days) queue_name dry_run st) (λ r st, (st, Done (report dry_run r))).

Definition cleanup_by_count (retention_config : gmap string Z) (status : option job_status)
    (keep_count : option Z) (queue_name : string) (dry_run : bool) (st : store) : store * loop_result managed :=
  let key := match status with Some s => status_text s +:+ "_max_count" | None => "default_max_count" end in
  let keep := match keep_count with Some n => n | None => default 10000 (retention_config !! key) end in
  then_store (cleanup_jobs_by_count status (Z.to_nat keep) queue_name dry_run st) (λ r st, (st, Done (report dry_run r))).

Inductive cleanup_action : Type :=
  | ByAge (status : job_status) (r : managed)
  | ByCount (status : job_status) (r : managed)
  | ByTtl (n : nat).

Definition age_step (ev : env) (cfg : gmap string Z) (dry_run : bool) (s : job_status)
    (actions : list cleanup_action) (st : store) : store * loop_result (list cleanup_action) :=
  match cfg !! (status_text s +:+ "_max_age_days") with
  | Some d => then_store (cleanup_old_jobs ev cfg (Some s) (Some d) "" dry_run st)
                (λ r st, (st, Done (actions ++ [ByAge s r])))
  | None => (st, Done actions)
  end.

Definition count_step (cfg : gmap string Z) (dry_run : bool) (s : job_status)
    (actions : list cleanup_action) (st : store) : store * loop_result (list cleanup_action) :=
  match cfg !! (status_text s +:+ "_max_count") with
  | Some n => then_store (cleanup_by_count cfg (Some s) (Some n) "" dry_run st)
                (λ r st, (st, Done (if (0 <? mg_deleted r)%nat || (0 <? mg_would_delete r)%nat
                                    then actions ++ [ByCount s r] else actions)))
  | None => (st, Done actions)
  end.

Definition ttl_step (ev : env) (dry_run : bool) (actions : list cleanup_action) (st : store)
    : store * loop_result (list cleanup_action) :=
  let '(st', n) := cleanup_per_job_ttl ev dry_run st in
  (st', Done (if (0 <? n)%nat then actions ++ [ByTtl n] else actions)).

(** With partitioned tables retention is left to the partition tick. *)
Definition auto_cleanup (ev : env) (retention_config : gmap string Z) (dry_run : bool) (st : store)
    : store * loop_result (list cleanup_action) :=
  if e_partitioned ev then (st, Done [])
  else
    then_store (age_step ev retention_config dry_run Success [] st) (λ acts st,
    then_store (age_step ev retention_config dry_run Failed acts st) (λ acts st,
    then_store (count_step retention_config dry_run Success acts st) (λ acts st,
    then_store (count_step retention_config dry_run Failed acts st) (λ acts st,
    ttl_step ev dry_run acts st)))).

(** ** Lemmas: deleting by id *)

(** The store without the history rows [ids] and their finished attempts. *)
Definition purge (ids : list Z) (st : store) : store :=
  with_attempts (delete_where (λ a, at_job_id a ∈ ids ∧ at_finished_at a ≠ None) (attempts st))
    (with_history (delete_where (λ h, j_id h ∈ ids) (history st)) st).

Lemma purge_iff l l' st : (∀ i, i ∈ l ↔ i ∈ l') → purge l st = purge l' st.
Proof.
  intros Hl. unfold purge. rewrite (delete_where_iff (λ h, j_id h ∈ l) (λ h, j_id h ∈ l')) by (intros; apply Hl).
  rewrite (delete_where_iff (λ a, at_job_id a ∈ l ∧ at_finished_at a ≠ None) (λ a, at_job_id a ∈ l' ∧ at_finished_at a ≠ None)); [done|].
  intros a _. by rewrite Hl.
Qed.

Lemma purge_purge l l' st : purge l' (purge l st) = purge (l ++ l') st.
Proof.
  unfold purge. simpl.
  rewrite (delete_where_twice _ _ (λ h, j_id h ∈ l ++ l')) by (intros; apply elem_of_app).
  rewrite (delete_where_twice _ _ (λ a, at_job_id a ∈ l ++ l' ∧ at_finished_at a ≠ None)); [done|].
  intros a _. rewrite elem_of_app. tauto.
Qed.

Lemma purge_nil st : purge [] st = st.
Proof.
  unfold purge. rewrite (delete_where_none (λ h, j_id h ∈ [])) by (by intros h _ ?%elem_of_nil).
  rewrite delete_where_none by (by intros a _ [?%elem_of_nil _]). by destruct st.
Qed.

Lemma purge_inv l st : inv [] st → inv [] (purge l st).
Proof.
  intros [Hwf Hc]. split.
  - assert (∀ h, h ∈ history (purge l st) → h ∈ history st) as Hh by (by intros h [? _]%elem_of_delete_where).
    assert (∀ a, a ∈ attempts (purge l st) → a ∈ attempts st) as Ha by (by intros a [? _]%elem_of_delete_where).
    split; try apply Hwf.
    + eapply sublist_NoDup; [apply (wf_hist_ids st Hwf)|]. apply fmap_sublist, sublist_filter.
    + intros j h Hj Hin. by apply (wf_disjoint st Hwf); [|apply Hh].
    + intros h Hin. by apply (wf_hist_final st Hwf), Hh.
    + eapply sublist_NoDup; [apply (wf_att_ids st Hwf)|]. apply fmap_sublist, sublist_filter.
    + intros a Hin. by apply (wf_att_seq st Hwf), Ha.
    + intros i a b Hina Hinb. by apply (wf_one_open st Hwf); apply Ha.
    + intros h a Hin Hina. by apply (wf_hist_closed st Hwf); [apply Hh|apply Ha].
  - intros j (Hj & Hs & Hr). right. destruct (Hc j) as [?%elem_of_nil|He]; [|done|exact He]. split_and!; [done..|].
    unfold _is_running in *. rewrite open_attempt_exists_false in *. intros a Ha Ho. apply (Hr a); [|done].
    apply elem_of_delete_where. split; [done|]. intros [_ Hn]. by destruct Ho.
Qed.

(** A batch of rows is deleted by its ids: no other row has one of them. *)
Lemma delete_batch_purge rows (P : queued_job → Prop) {HD : ∀ j, Decision (P j)} st :
  wf st → rows ⊆ history st → NoDup rows → (∀ h, h ∈ rows → P h) →
  _delete_history_batch (j_id <$> rows) P st = (purge (j_id <$> rows) st, length rows).
Proof.
  intros Hwf Hsub Hnd HP. unfold _delete_history_batch, purge.
  assert (∀ h, h ∈ history st → (j_id h ∈ j_id <$> rows ∧ P h) ↔ h ∈ rows) as Hin.
  { intros h Hh. split; [|intros Hr; split; [by apply list_elem_of_fmap_2|by apply HP]].
    intros [(x & Hid & Hx)%list_elem_of_fmap _].
    by rewrite (NoDup_fmap_inj j_id (history st) h x (wf_hist_ids st Hwf) Hh (Hsub x Hx) Hid). }
  f_equal.
  - rewrite (delete_where_iff (λ h, j_id h ∈ j_id <$> rows ∧ P h) (λ h, j_id h ∈ j_id <$> rows)); [done|].
    intros h Hh. split; [tauto|]. intros Hi. split; [done|]. apply list_elem_of_fmap in Hi as (x & Hid & Hx).
    rewrite (NoDup_fmap_inj j_id (history st) h x (wf_hist_ids st Hwf) Hh (Hsub x Hx) Hid). by apply HP.
  - unfold rowcount. apply Permutation_length. apply NoDup_Permutation; [|done|].
    + apply NoDup_filter. eapply NoDup_fmap_1, (wf_hist_ids st Hwf).
    + intros h. rewrite list_elem_of_filter. split; [intros [H Hh]; by apply Hin|].
      intros Hr. pose proof (Hsub h Hr). split; [by apply Hin|done].
Qed.

Lemma purge_rest rows rest (P : queued_job → Prop) {HD : ∀ j, Decision (P j)} st :
  wf st → filter P (history st) ≡ₚ rows ++ rest → filter P (history (purge (j_id <$> rows) st)) ≡ₚ rest.
Proof.
  intros Hwf Hperm.
  assert (NoDup (j_id <$> rows ++ rest)) as Hnd.
  { rewrite <-Hperm. eapply sublist_NoDup; [apply (wf_hist_ids st Hwf)|]. apply fmap_sublist, sublist_filter. }
  rewrite fmap_app in Hnd. apply NoDup_app in Hnd as (_ & Hdisj & Hrest).
  apply NoDup_Permutation.
  - apply NoDup_filter, NoDup_filter. eapply NoDup_fmap_1, (wf_hist_ids st Hwf).
  - by eapply NoDup_fmap_1.
  - intros x. rewrite list_elem_of_filter. simpl. rewrite elem_of_delete_where.
    assert (x ∈ rows ++ rest ↔ P x ∧ x ∈ history st) as Hx by (by rewrite <-Hperm, list_elem_of_filter).
    rewrite elem_of_app in Hx. split.
    + intros (HP & Hh & Hn). destruct (proj2 Hx (conj HP Hh)); [|done]. destruct Hn. by apply list_elem_of_fmap_2.
    + intros Hr. destruct (proj1 Hx (or_intror Hr)) as [HP Hh]. split_and!; [done..|].
      intros Hin. apply (Hdisj (j_id x) Hin). by apply list_elem_of_fmap_2.
Qed.

Lemma batch_size_pos : (0 < CLEANUP_BATCH_SIZE)%nat.
Proof. unfold CLEANUP_BATCH_SIZE. lia. Qed.

Opaque CLEANUP_BATCH_SIZE.

(** The rows of one batch of a list of history rows. *)
Lemma batch_step rows rest (P Q : queued_job → Prop) {HP : ∀ j, Decision (P j)} {HQ : ∀ j, Decision (Q j)} st :
  inv [] st → filter P (history st) ≡ₚ rows ++ rest → (∀ h, h ∈ rows → Q h) →
  _delete_history_batch (j_id <$> rows) Q st = (purge (j_id <$> rows) st, length rows) ∧
  inv [] (purge (j_id <$> rows) st) ∧ filter P (history (purge (j_id <$> rows) st)) ≡ₚ rest.
Proof.
  intros Hi Hperm Hq. pose proof Hi as [Hwf _]. split_and!; [|by apply purge_inv|by apply purge_rest].
  apply delete_batch_purge; [done| | |done].
  - intros x Hx. assert (x ∈ rows ++ rest) as Hin by (apply elem_of_app; by left).
    rewrite <-Hperm in Hin. by apply list_elem_of_filter in Hin as [_ ?].
  - assert (NoDup (rows ++ rest)) as [? _]%NoDup_app; [|done]. rewrite <-Hperm. apply NoDup_filter.
    eapply NoDup_fmap_1, (wf_hist_ids st Hwf).
Qed.

Lemma cleanup_loop_spec f : ∀ fuel total st,
  inv [] st → (length (filter (rf_matches f) (history st)) < fuel)%nat →
  cleanup_loop fuel f total st =
    (purge (j_id <$> filter (rf_matches f) (history st)) st, Done (total + length (filter (rf_matches f) (history st)))%nat).
Proof.
  induction fuel as [|fuel IH]; intros total st Hi Hf; [lia|]. cbn [cleanup_loop].
  set (sorted := order_by oldest_finished (filter (rf_matches f) (history st))).
  assert (filter (rf_matches f) (history st) ≡ₚ take CLEANUP_BATCH_SIZE sorted ++ drop CLEANUP_BATCH_SIZE sorted) as Hperm.
  { rewrite take_drop. symmetry. apply merge_sort_Permutation. }
  destruct (batch_step (take CLEANUP_BATCH_SIZE sorted) (drop CLEANUP_BATCH_SIZE sorted) (rf_matches f) (rf_matches f) st Hi Hperm)
    as (Hdel & Hi1 & Hrest).
  { intros h Hh. assert (h ∈ take CLEANUP_BATCH_SIZE sorted ++ drop CLEANUP_BATCH_SIZE sorted) as Hin by (apply elem_of_app; by left).
    rewrite <-Hperm in Hin. by apply list_elem_of_filter in Hin as [? _]. }
  destruct (take CLEANUP_BATCH_SIZE sorted) as [|x rows] eqn:Htake.
  { csimpl. assert (sorted = []) as Hnil.
    { pose proof batch_size_pos. destruct sorted; [done|]. by destruct CLEANUP_BATCH_SIZE; [lia|]. }
    rewrite Hnil, drop_nil in Hperm. simpl in Hperm. apply Permutation_nil_r in Hperm. rewrite Hperm. simpl.
    by rewrite purge_nil, Nat.add_0_r. }
  rewrite fmap_cons in *. cbv beta iota. rewrite Hdel. cbv beta iota. cbn [length].
  set (l := filter (rf_matches f) (history st)) in *.
  assert (length l = S (length rows) + length (drop CLEANUP_BATCH_SIZE sorted))%nat as Hlen by (by rewrite Hperm, length_app).
  rewrite IH; [|done|rewrite Hrest; lia]. f_equal; [|f_equal; rewrite Hrest; lia].
  rewrite purge_purge. apply purge_iff. intros i. rewrite <-fmap_cons, <-fmap_app. apply elem_of_Permutation_proper.
  by rewrite Hrest, Hperm.
Qed.

#[global] Instance newest_finished_total : Total newest_finished.
Proof. intros a b. unfold newest_finished, oldest_finished. lia. Qed.
#[global] Instance newest_finished_trans : Transitive newest_finished.
Proof. intros a b c. unfold newest_finished, oldest_finished. lia. Qed.

(** Sorted lists of history rows are determined by their elements. *)
Lemma order_by_sorted st (l sorted : list queued_job) :
  wf st → l ⊆ history st → StronglySorted newest_finished sorted → l ≡ₚ sorted → order_by newest_finished l = sorted.
Proof.
  intros Hwf Hl Hs Hperm. apply (StronglySorted_unique_strong newest_finished); [|apply StronglySorted_merge_sort; apply _|done|].
  - intros x y Hx%elem_of_order_by Hy Hxy Hyx. rewrite <-Hperm in Hy.
    apply (NoDup_fmap_inj j_id (history st)); [apply (wf_hist_ids st Hwf)|by apply Hl..|].
    unfold newest_finished, oldest_finished in *. lia.
  - unfold order_by. by rewrite merge_sort_Permutation.
Qed.

(** The newest rows stay where they are while the surplus shrinks from its front. *)
Lemma surplus_step f k st :
  inv [] st → let sorted := order_by newest_finished (filter (rf_matches f) (history st)) in
  (k <= length sorted)%nat →
  let ids := j_id <$> take CLEANUP_BATCH_SIZE (drop k sorted) in
  _delete_history_batch ids (λ _, True) st = (purge ids st, length (take CLEANUP_BATCH_SIZE (drop k sorted))) ∧
  inv [] (purge ids st) ∧ surplus f k (purge ids st) = drop CLEANUP_BATCH_SIZE (drop k sorted).
Proof.
  intros Hi sorted Hk ids. set (rest := take k sorted ++ drop CLEANUP_BATCH_SIZE (drop k sorted)).
  assert (StronglySorted newest_finished sorted) as Hsorted by (apply StronglySorted_merge_sort; apply _).
  assert (filter (rf_matches f) (history st) ≡ₚ take CLEANUP_BATCH_SIZE (drop k sorted) ++ rest) as Hperm.
  { unfold rest. rewrite Permutation_app_swap_app, take_drop, take_drop. symmetry. apply merge_sort_Permutation. }
  destruct (batch_step (take CLEANUP_BATCH_SIZE (drop k sorted)) rest (rf_matches f) (λ _, True) st Hi Hperm) as (Hdel & Hi1 & Hrest); [done|].
  split_and!; [done|done|]. unfold surplus.
  assert (order_by newest_finished (filter (rf_matches f) (history (purge ids st))) = rest) as ->.
  2:{ unfold rest. rewrite drop_app_length'; [done|]. rewrite length_take. lia. }
  apply (order_by_sorted (purge ids st)).
  - apply Hi1.
  - intros x [_ Hx]%list_elem_of_filter. done.
  - rewrite <-(take_drop k sorted) in Hsorted.
    apply StronglySorted_app in Hsorted as (Hle & Hs1 & Hs2). unfold rest. apply StronglySorted_app_2; [|done|].
    + intros x y Hx Hy. apply Hle; [done|]. by eapply elem_of_drop_inv.
    + rewrite <-(take_drop CLEANUP_BATCH_SIZE (drop k sorted)) in Hs2. by apply StronglySorted_app_1_r in Hs2.
  - done.
Qed.

Lemma count_loop_spec f k : ∀ fuel deleted st,
  inv [] st → (length (surplus f k st) < fuel)%nat →
  count_loop fuel f k deleted st =
    (purge (j_id <$> surplus f k st) st, Done (deleted + length (surplus f k st))%nat).
Proof.
  induction fuel as [|fuel IH]; intros deleted st Hi Hf; [lia|]. cbn [count_loop].
  destruct (surplus f k st) as [|x l] eqn:Hs.
  { rewrite take_nil. csimpl. by rewrite purge_nil, Nat.add_0_r. }
  pose proof batch_size_pos as Hpos. pose proof Hs as Hs'. unfold surplus in Hs'.
  set (sorted := order_by newest_finished (filter (rf_matches f) (history st))) in Hs'.
  assert (k <= length sorted)%nat as Hk.
  { assert (length (drop k sorted) = length (x :: l)) as Hlen by (by rewrite Hs'). rewrite length_drop in Hlen. simpl in Hlen. lia. }
  destruct (surplus_step f k st Hi Hk) as (Hdel & Hi1 & Hrest). fold sorted in Hdel, Hi1, Hrest. rewrite Hs' in *.
  destruct (take CLEANUP_BATCH_SIZE (x :: l)) as [|y rows] eqn:Htake; [by destruct CLEANUP_BATCH_SIZE; [lia|]|].
  rewrite fmap_cons in *. cbv beta iota. rewrite Hdel. cbv beta iota. cbn [length].
  assert (length (x :: l) = S (length rows) + length (drop CLEANUP_BATCH_SIZE (x :: l)))%nat as Hlen.
  { rewrite <-(take_drop CLEANUP_BATCH_SIZE (x :: l)) at 1. by rewrite length_app, Htake. }
  rewrite IH; [|done|rewrite Hrest; simpl in Hlen, Hf; lia]. rewrite Hrest. f_equal; [|f_equal; simpl in Hlen; simpl; lia].
  rewrite purge_purge. apply purge_iff. intros i. rewrite <-fmap_cons, <-fmap_app, <-Htake, take_drop. done.
Qed.

Lemma delete_chunks_spec rows : ∀ fuel st,
  inv [] st → NoDup rows → rows ⊆ history st → (length rows <= fuel)%nat →
  delete_chunks fuel (j_id <$> rows) st = purge (j_id <$> rows) st.
Proof.
  intros fuel. revert rows. induction fuel as [|fuel IH]; intros rows st Hi Hnd Hsub Hf.
  { destruct rows; [|simpl in Hf; lia]. csimpl. by rewrite purge_nil. }
  destruct rows as [|x rows]; [csimpl; by rewrite purge_nil|]. rewrite fmap_cons. cbn [delete_chunks].
  rewrite <-fmap_cons. set (l := x :: rows) in *. rewrite <-fmap_take, <-fmap_drop.
  rewrite <-(take_drop CLEANUP_BATCH_SIZE l) in Hnd. apply NoDup_app in Hnd as (Hnd1 & Hdisj & Hnd2).
  rewrite delete_batch_purge; [|apply Hi| |done|done].
  2:{ intros y Hy. apply Hsub. by eapply elem_of_take_inv. }
  cbn [fst]. rewrite IH.
  - rewrite purge_purge. apply purge_iff. intros i. by rewrite <-fmap_app, take_drop.
  - by apply purge_inv.
  - done.
  - intros y Hy. simpl. apply elem_of_delete_where. split; [by eapply Hsub, elem_of_drop_inv|].
    intros (z & Hid & Hz)%list_elem_of_fmap. apply (Hdisj z); [done|].
    assert (y = z) as <-; [|done]. apply (NoDup_fmap_inj j_id (history st)); [apply (wf_hist_ids st), Hi|..|done].
    + apply Hsub. by eapply elem_of_drop_inv.
    + apply Hsub. by eapply elem_of_take_inv.
  - rewrite length_drop. pose proof batch_size_pos. subst l. simpl in *. lia.
Qed.

(** ** What is removed *)

(** The history rows that satisfy [P] and their finished attempts are gone; nothing else changed. *)
Record removes (P : queued_job → Prop) (st st' : store) : Prop := {
  rm_inv : inv [] st';
  rm_history : ∀ h, h ∈ history st' ↔ h ∈ history st ∧ ¬ P h;
  rm_order : history st' `sublist_of` history st;
  rm_attempts : ∀ a, a ∈ attempts st' ↔ a ∈ attempts st ∧
    ¬ (at_finished_at a ≠ None ∧ ∃ h, h ∈ history st ∧ P h ∧ j_id h = at_job_id a);
  rm_live : live st' = live st;
  rm_entries : ready st' = ready st ∧ blocked st' = blocked st ∧ staged st' = staged st ∧ workers st' = workers st;
}.

Lemma purge_removes (P : queued_job → Prop) rows st :
  inv [] st → (∀ h, h ∈ rows ↔ h ∈ history st ∧ P h) → removes P st (purge (j_id <$> rows) st).
Proof.
  intros Hi Hrows. pose proof Hi as [Hwf _].
  assert (∀ h, h ∈ history st → j_id h ∈ j_id <$> rows ↔ P h) as Hin.
  { intros h Hh. rewrite list_elem_of_fmap. split.
    - intros (x & Hid & Hx). apply Hrows in Hx as [Hx HP].
      by rewrite (NoDup_fmap_inj j_id (history st) h x (wf_hist_ids st Hwf) Hh Hx Hid).
    - intros HP. exists h. split; [done|]. by apply Hrows. }
  split.
  - by apply purge_inv.
  - intros h. simpl. rewrite elem_of_delete_where. split; intros [Hh Hn]; (split; [done|]); by rewrite Hin in *.
  - apply sublist_filter.
  - intros a. simpl. rewrite elem_of_delete_where. split; intros [Ha Hn]; (split; [done|]); intros H; apply Hn.
    + destruct H as [Hf (h & Hh & HP & Hid)]. split; [|done]. rewrite <-Hid. by apply Hin.
    + destruct H as [(h & Hid & Hh)%list_elem_of_fmap Hf]. split; [done|]. apply Hrows in Hh as [Hh HP]. by exists h.
  - done.
  - done.
Qed.

Lemma removes_nothing st : inv [] st → removes (λ _, False) st st.
Proof.
  intros Hi. split; [done|naive_solver|done| |done|done].
  intros a. split; [intros Ha; split; [done|]; by intros [_ (h & _ & [] & _)]|by intros [? _]].
Qed.

Lemma filter_rows (P : queued_job → Prop) {HD : ∀ j, Decision (P j)} st h :
  h ∈ filter P (history st) ↔ h ∈ history st ∧ P h.
Proof. rewrite list_elem_of_filter. tauto. Qed.

Lemma age_removes ev status days queue st :
  inv [] st → let f := age_filter (e_now ev) status days queue in
  ∃ st', cleanup_jobs ev status days queue false st =
      (st', Done {| cr_deleted := rowcount (rf_matches f) (history st); cr_count := rowcount (rf_matches f) (history st) |}) ∧
    removes (rf_matches f) st st'.
Proof.
  intros Hi f. unfold cleanup_jobs. fold f. rewrite cleanup_loop_spec by (done || apply Nat.lt_succ_r, length_filter).
  eexists. split; [reflexivity|]. apply purge_removes; [done|]. intros h. apply filter_rows.
Qed.

(** The rows that count retention keeps: the newest ones. *)
Definition newest_rows (f : retention_filter) (keep_count : nat) (st : store) : list queued_job :=
  take keep_count (order_by newest_finished (filter (rf_matches f) (history st))).

Lemma surplus_rows f k st h :
  wf st → h ∈ surplus f k st ↔ h ∈ history st ∧ (rf_matches f h ∧ h ∉ newest_rows f k st).
Proof.
  intros Hwf. unfold surplus, newest_rows. set (sorted := order_by newest_finished (filter (rf_matches f) (history st))).
  assert (NoDup sorted) as Hnd.
  { unfold sorted, order_by. rewrite merge_sort_Permutation. apply NoDup_filter. eapply NoDup_fmap_1, (wf_hist_ids st Hwf). }
  assert (h ∈ sorted ↔ h ∈ history st ∧ rf_matches f h) as Hs by (unfold sorted; rewrite elem_of_order_by; apply filter_rows).
  rewrite <-(take_drop k sorted) in Hs, Hnd. apply NoDup_app in Hnd as (_ & Hdisj & _). rewrite elem_of_app in Hs. split.
  - intros Hh. destruct (proj1 Hs (or_intror Hh)). split_and!; [done..|]. intros Hin. by apply (Hdisj h).
  - intros (Hh & Hm & Hn). by destruct (proj2 Hs (conj Hh Hm)).
Qed.

Lemma count_removes status k queue st :
  inv [] st → let f := {| rf_status := status; rf_queue_name := queue; rf_cutoff := None |} in
  let n := (rowcount (rf_matches f) (history st) - k)%nat in
  ∃ st', cleanup_jobs_by_count status k queue false st = (st', Done {| cr_deleted := n; cr_count := n |}) ∧
    removes (λ h, rf_matches f h ∧ h ∉ newest_rows f k st) st st'.
Proof.
  intros Hi f n. unfold cleanup_jobs_by_count. fold f.
  assert (length (surplus f k st) = n) as Hn.
  { unfold surplus, n, rowcount, order_by. by rewrite length_drop, merge_sort_Permutation. }
  rewrite count_loop_spec; [|done|].
  2:{ rewrite Hn. unfold n, rowcount. pose proof (length_filter (rf_matches f) (history st)). lia. }
  rewrite Hn. eexists. split; [reflexivity|]. apply purge_removes; [done|]. intros h. apply surplus_rows, Hi.
Qed.

Lemma ttl_pass_removes ev statuses ttl st :
  inv [] st → ∃ st', ttl_pass ev statuses ttl false st = (st', rowcount (ttl_elapsed (e_now ev) statuses ttl) (history st)) ∧
    removes (ttl_elapsed (e_now ev) statuses ttl) st st'.
Proof.
  intros Hi. unfold ttl_pass, rowcount. rewrite length_fmap. eexists. split; [reflexivity|].
  rewrite delete_chunks_spec.
  - apply purge_removes; [done|]. intros h. apply filter_rows.
  - done.
  - apply NoDup_filter. eapply NoDup_fmap_1, (wf_hist_ids st), Hi.
  - by intros h [_ ?]%list_elem_of_filter.
  - done.
Qed.

Lemma removes_trans P Q st st1 st2 :
  removes P st st1 → removes Q st1 st2 → removes (λ h, P h ∨ Q h) st st2.
Proof.
  intros [Hi1 Hh1 Ho1 Ha1 Hl1 He1] [Hi2 Hh2 Ho2 Ha2 Hl2 He2]. split.
  - done.
  - intros h. rewrite Hh2, Hh1. tauto.
  - by etrans.
  - intros a. rewrite Ha2, Ha1. split.
    + intros [[Ha Hn1] Hn2]. split; [done|]. intros [Hf (h & Hh & Hor & Hid)].
      assert (¬ P h) as HnP by (intros HP; apply Hn1; split; [done|]; by exists h).
      destruct Hor; [done|]. apply Hn2. split; [done|]. exists h. split_and!; [by apply Hh1|done..].
    + intros [Ha Hn]. split_and!; [done| |].
      * intros [Hf (h & Hh & HP & Hid)]. apply Hn. split; [done|]. exists h. auto.
      * intros [Hf (h & Hh & HQ & Hid)]. apply Hn. split; [done|]. apply Hh1 in Hh as [Hh _]. exists h. auto.
  - congruence.
  - destruct He1 as (? & ? & ? & ?), He2 as (? & ? & ? & ?). split_and!; congruence.
Qed.

(** ** Theorems *)

(** Retention by age is exact. The deletion in batches ends and removes exactly the finished jobs
    of the status and queue that finished before the cutoff, with their finished attempts; it reports
    their number, which is also what a dry run reports while it changes nothing. Jobs that wait or
    run, open attempts and all entries stay. *)
Theorem cleanup_by_age_exact ev status days queue st :
  inv [] st →
  let f := age_filter (e_now ev) status days queue in
  let n := rowcount (rf_matches f) (history st) in
  cleanup_jobs ev status days queue true st = (st, Done {| cr_deleted := 0; cr_count := n |}) ∧
  ∃ st', cleanup_jobs ev status days queue false st = (st', Done {| cr_deleted := n; cr_count := n |}) ∧
    removes (rf_matches f) st st'.
Proof. intros Hi f n. split; [done|]. by apply age_removes. Qed.

(** Retention by number is exact. The deletion in batches ends and removes exactly the finished
    jobs of the status and queue that are not among the [keep_count] it keeps; these finished no
    earlier than any job removed, with the larger id where the times are equal. A dry run reports the
    same number and removes nothing. *)
Theorem cleanup_by_count_exact status keep_count queue st :
  inv [] st →
  let f := {| rf_status := status; rf_queue_name := queue; rf_cutoff := None |} in
  let n := (rowcount (rf_matches f) (history st) - keep_count)%nat in
  let finished h := default 0 (jr_finished_at (j_run h)) in
  cleanup_jobs_by_count status keep_count queue true st = (st, Done {| cr_deleted := 0; cr_count := n |}) ∧
  ∃ st' kept, cleanup_jobs_by_count status keep_count queue false st = (st', Done {| cr_deleted := n; cr_count := n |}) ∧
    removes (λ h, rf_matches f h ∧ h ∉ kept) st st' ∧
    length kept = (keep_count `min` rowcount (rf_matches f) (history st))%nat ∧
    ∀ h x, h ∈ kept → x ∈ history st → rf_matches f x → x ∉ kept →
      rf_matches f h ∧ (finished x < finished h ∨ (finished x = finished h ∧ j_id x <= j_id h)).
Proof.
  intros Hi f n finished. split; [done|].
  destruct (count_removes status keep_count queue st Hi) as (st' & Heq & Hr).
  exists st', (newest_rows f keep_count st). split_and!; [done|done| |].
  - unfold newest_rows, order_by. by rewrite length_take, merge_sort_Permutation.
  - intros h x Hh Hx Hm Hn. split.
    { apply elem_of_take_inv, elem_of_order_by, filter_rows in Hh as [_ ?]. done. }
    assert (x ∈ surplus f keep_count st) as Hs by (apply surplus_rows; [apply Hi|done]).
    apply (StronglySorted_app_1_elem_of newest_finished (newest_rows f keep_count st) (surplus f keep_count st) h x); [|done..].
    unfold newest_rows, surplus. rewrite take_drop. apply StronglySorted_merge_sort; apply _.
Qed.

(** What the configuration and the TTLs of a finished job condemn. *)
Definition too_old (ev : env) (cfg : gmap string Z) (h : queued_job) : Prop :=
  ∃ s d, s ∈ [Success; Failed] ∧ cfg !! (status_text s +:+ "_max_age_days") = Some d ∧
    rf_matches (age_filter (e_now ev) (Some s) (Some d) "") h.
Definition past_ttl (ev : env) (h : queued_job) : Prop :=
  ttl_elapsed (e_now ev) [Success] (λ h, js_result_ttl (j_spec h)) h ∨
  ttl_elapsed (e_now ev) [Failed; Archived] (λ h, js_failure_ttl (j_spec h)) h.
Definition counted (cfg : gmap string Z) (h : queued_job) : Prop :=
  j_status h ∈ [Success; Failed] ∧ is_Some (cfg !! (status_text (j_status h) +:+ "_max_count")).

Lemma age_step_removes ev cfg s acts st :
  inv [] st → ∃ st' acts' (P : queued_job → Prop), age_step ev cfg false s acts st = (st', Done acts') ∧ removes P st st' ∧
    ∀ h, P h ↔ ∃ d, cfg !! (status_text s +:+ "_max_age_days") = Some d ∧ rf_matches (age_filter (e_now ev) (Some s) (Some d) "") h.
Proof.
  intros Hi. unfold age_step. destruct (cfg !! _) as [d|].
  - unfold cleanup_old_jobs. destruct (age_removes ev (Some s) (Some d) "" st Hi) as (st' & -> & Hr).
    do 3 eexists. split; [reflexivity|]. split; [exact Hr|]. intros h. split; [by exists d|]. by intros (? & [= <-] & ?).
  - do 3 eexists. split; [reflexivity|]. split; [by apply removes_nothing|]. intros h. split; [done|]. by intros (? & ? & _).
Qed.

Lemma count_step_removes cfg s acts st :
  inv [] st → ∃ st' acts' (P : queued_job → Prop), count_step cfg false s acts st = (st', Done acts') ∧ removes P st st' ∧
    ∀ h, P h → j_status h = s ∧ is_Some (cfg !! (status_text s +:+ "_max_count")).
Proof.
  intros Hi. unfold count_step. destruct (cfg !! _) as [n|].
  - unfold cleanup_by_count. destruct (count_removes (Some s) (Z.to_nat n) "" st Hi) as (st' & -> & Hr).
    do 3 eexists. split; [reflexivity|]. split; [exact Hr|]. intros h [(Hs & _) _]. simpl in Hs. split; [done|eauto].
  - do 3 eexists. split; [reflexivity|]. split; [by apply removes_nothing|]. by intros h [].
Qed.

Lemma ttl_step_removes ev acts st :
  inv [] st → ∃ st' acts' (P : queued_job → Prop), ttl_step ev false acts st = (st', Done acts') ∧ removes P st st' ∧
    ∀ h, P h ↔ past_ttl ev h.
Proof.
  intros Hi. unfold ttl_step, cleanup_per_job_ttl.
  destruct (ttl_pass_removes ev [Success] (λ h, js_result_ttl (j_spec h)) st Hi) as (st1 & -> & Hr1).
  destruct (ttl_pass_removes ev [Failed; Archived] (λ h, js_failure_ttl (j_spec h)) st1 (rm_inv _ _ _ Hr1)) as (st2 & -> & Hr2).
  do 3 eexists. split; [reflexivity|]. split; [by eapply removes_trans|]. done.
Qed.

(** A run of the retention removes what the configuration condemns and nothing else: every
    finished job older than its status may get or past its own TTL is gone; any other job that is
    gone has a status with a limit on the number of jobs. A dry run changes nothing. *)
Theorem auto_cleanup_effect ev cfg st :
  inv [] st → e_partitioned ev = false →
  (auto_cleanup ev cfg true st).1 = st ∧
  ∃ st' actions (P : queued_job → Prop), auto_cleanup ev cfg false st = (st', Done actions) ∧ removes P st st' ∧
    (∀ h, too_old ev cfg h ∨ past_ttl ev h → P h) ∧
    ∀ h, P h → too_old ev cfg h ∨ past_ttl ev h ∨ counted cfg h.
Proof.
  intros Hi Hp. unfold auto_cleanup. rewrite Hp. split.
  { unfold age_step, count_step, ttl_step, cleanup_per_job_ttl, ttl_pass, cleanup_old_jobs, cleanup_by_count.
    repeat (case_match; simpl); simplify_eq; done. }
  destruct (age_step_removes ev cfg Success [] st Hi) as (st1 & a1 & P1 & -> & Hr1 & HP1). cbn [then_store].
  destruct (age_step_removes ev cfg Failed a1 st1 (rm_inv _ _ _ Hr1)) as (st2 & a2 & P2 & -> & Hr2 & HP2). cbn [then_store].
  destruct (count_step_removes cfg Success a2 st2 (rm_inv _ _ _ Hr2)) as (st3 & a3 & P3 & -> & Hr3 & HP3). cbn [then_store].
  destruct (count_step_removes cfg Failed a3 st3 (rm_inv _ _ _ Hr3)) as (st4 & a4 & P4 & -> & Hr4 & HP4). cbn [then_store].
  destruct (ttl_step_removes ev a4 st4 (rm_inv _ _ _ Hr4)) as (st5 & a5 & P5 & -> & Hr5 & HP5).
  exists st5, a5. eexists. split; [reflexivity|]. split.
  { eapply removes_trans; [exact Hr1|]. eapply removes_trans; [exact Hr2|]. eapply removes_trans; [exact Hr3|].
    eapply removes_trans; [exact Hr4|exact Hr5]. }
  split.
  - intros h [(s & d & Hs & Hd & Hm)|Ht]; [|by do 4 right; apply HP5].
    apply elem_of_cons in Hs as [->|Hs%list_elem_of_singleton]; [left; apply HP1; by exists d|].
    subst s. right. left. apply HP2. by exists d.
  - intros h [(d & Hd & Hm)%HP1|[(d & Hd & Hm)%HP2|[[Hs Hk]%HP3|[[Hs Hk]%HP4|Ht%HP5]]]].
    + left. exists Success, d. split_and!; [apply list_elem_of_here|done..].
    + left. exists Failed, d. split_and!; [apply elem_of_cons; right; apply list_elem_of_here|done..].
    + right. right. unfold counted. rewrite Hs. split; [apply list_elem_of_here|done].
    + right. right. unfold counted. rewrite Hs. split; [apply elem_of_cons; right; apply list_elem_of_here|done].
    + right. by left.
Qed.

(** Pruning takes only finished attempts of jobs that are neither live nor in history. *)
Theorem prune_keeps limit st a :
  a ∈ attempts st → NoDup (at_id <$> attempts st) →
  (at_finished_at a = None ∨ at_job_id a ∈ j_id <$> job_all st) →
  a ∈ attempts (_prune_attempts_without_history limit st).1.
Proof.
  intros Ha Hnd Hk. simpl. apply elem_of_delete_where. split; [done|].
  intros (b & Hid & Hb)%list_elem_of_fmap. apply elem_of_take_inv, list_elem_of_filter in Hb as [[Hf Hj] Hb].
  assert (b = a) as -> by (apply (NoDup_fmap_inj at_id (attempts st)); done). tauto.
Qed.

(** ** Witnesses: the succeeded job of [Demo], a month later *)

Definition month_env : env := demo_env (seconds (40 * 86400)).

Lemma demo_done_inv : inv [] demo_done.
Proof.
  unfold demo_done, demo_success.
  destruct (mark_job_success _ _ _ _ _ _ _) as [st' r] eqn:E.
  apply (mark_job_success_sound (X:=[]) (demo_env 4000)) in E as [[? _] _]; [done|apply demo_env_ok|apply demo_claimed_inv|].
  intros a. rewrite demo_claimed_attempts. by intros ->%list_elem_of_singleton.
Qed.

Lemma cleanup_by_age_exact_witness :
  ∃ st', cleanup_jobs month_env (Some Success) (Some 30) "" false demo_done = (st', Done {| cr_deleted := 1; cr_count := 1 |}) ∧
    removes (rf_matches (age_filter (e_now month_env) (Some Success) (Some 30) "")) demo_done st'.
Proof. apply (cleanup_by_age_exact month_env (Some Success) (Some 30) "" demo_done demo_done_inv). Defined.

Lemma cleanup_by_count_exact_witness :
  let f := {| rf_status := Some Success; rf_queue_name := ""; rf_cutoff := None |} in
  ∃ st' kept, cleanup_jobs_by_count (Some Success) 0 "" false demo_done = (st', Done {| cr_deleted := 1; cr_count := 1 |}) ∧
    removes (λ h, rf_matches f h ∧ h ∉ kept) demo_done st' ∧ length kept = 0%nat.
Proof.
  destruct (cleanup_by_count_exact (Some Success) 0 "" demo_done demo_done_inv) as (_ & st' & kept & H1 & H2 & H3 & _).
  exists st', kept. split; [exact H1|]. split; [exact H2|exact H3].
Defined.

Lemma auto_cleanup_effect_witness :
  let cfg := {["success_max_age_days" := 30]} : gmap string Z in
  ∃ st' actions (P : queued_job → Prop), auto_cleanup month_env cfg false demo_done = (st', Done actions) ∧ removes P demo_done st' ∧
    ∀ h, too_old month_env cfg h ∨ past_ttl month_env h → P h.
Proof.
  intros cfg. destruct (auto_cleanup_effect month_env cfg demo_done demo_done_inv eq_refl) as (_ & st' & acts & P & H1 & H2 & H3 & _).
  exists st', acts, P. split; [exact H1|]. split; [exact H2|exact H3].
Defined.
