(* ===== verification/Partitioning.v ===== *)
(** * Partitions of the job tables (core/partitioning.py)

    The live table is partitioned by [created_at]. Maintenance creates partitions ahead of the
    clock ([ensure_live_partitions], [ensure_future_partitions]) and drops those that have passed
    ([reclaim_drained_live_partitions], [reclaim_drained_partitions]).

    The catalog carries bounds as values: the text of a bound expression and its parser are not
    modelled. A relation name is the structure that [strftime] renders: the table name followed by
    a UTC day or minute ([NDay], [NMinute]), or anything else. Interval arithmetic with months is
    PostgreSQL's and a parameter of [ensure_future_partitions]; decimal interval texts are exact
    rationals where the code multiplies doubles. *)

From S2P Require Import Prelude Sql PyString Retry RateLimit.
From Stdlib Require Import Ascii.
#[local] Open Scope Z_scope.

(** ** Intervals *)

Definition minute_usec : Z := seconds 60.
Definition day_usec : Z := seconds 86400.

(** The unit words of [_INTERVAL_RE] and their seconds. *)
Definition _INTERVAL_UNIT_SECONDS : list (string * Z) :=
  [("second", 1); ("sec", 1); ("minute", 60); ("min", 60); ("hour", 3600); ("day", 86400);
   ("week", 604800)]%string.

Definition unit_word (w : chars) : option Z :=
  snd <$> first_where (λ u, w = to_chars u.1 ∨ w = to_chars u.1 ++ ["s"%char])
            _INTERVAL_UNIT_SECONDS.

(** The groups of the match: the digits of the number, how many of them follow the point, and the
    seconds of the unit. *)
Definition match_interval (l : chars) : option (chars * nat * Z) :=
  let '(ip, rest) := span_digits (lstrip l) in
  match ip with
  | [] => None
  | _ =>
      let '(fp, rest) :=
        match rest with
        | "."%char :: r =>
            match span_digits r with ([], _) => ([], rest) | (ds, r') => (ds, r') end
        | _ => ([], rest)
        end in
      secs ← unit_word (lower (strip rest)); Some (ip ++ fp, length fp, secs)
  end.

(** [timedelta] raises on more than 999999999 days. *)
Inductive interval_error : Type := OverflowError.

Definition parse_interval (value : string) : result interval_error (option Z) :=
  match match_interval (to_chars value) with
  | None => Ok None
  | Some (ds, k, secs) =>
      let n := digits_value ds * secs * usec_per_sec in
      let us := round_half_even n (10 ^ Z.of_nat k) in
      if n <=? 0 then Ok None
      else if 1000000000 * day_usec <=? us then Err OverflowError
      else Ok (Some us)
  end.

Definition DEFAULT_LIVE_PARTITION_INTERVAL : Z := seconds 3600.
Definition DEFAULT_LIVE_PARTITION_GRACE : Z := seconds 3600.
Definition MIN_LIVE_PARTITION_GRACE : Z := seconds 60.
Definition LIVE_LOOKAHEAD : Z := day_usec.

(** ** Tables and their partitions *)

Inductive part_name : Type :=
  | NDay (d : Z)
  | NMinute (m : Z)
  | NOther (s : string).
#[global] Instance part_name_eq_dec : EqDecision part_name.
Proof. solve_decision. Defined.

Inductive bound : Type :=
  | BDefault
  | BRange (lo hi : Z)
  | BOther.
#[global] Instance bound_eq_dec : EqDecision bound.
Proof. solve_decision. Defined.

Definition bound_range (b : bound) : option (Z * Z) :=
  match b with BRange lo hi => Some (lo, hi) | _ => None end.

(** [_parse_upper_bound] on the bound of a catalog row *)
Definition _parse_upper_bound (b : bound) : option Z :=
  match b with BRange _ hi => Some hi | _ => None end.

Inductive pg_error : Type :=
  | CheckViolation              (* rows of the DEFAULT partition fall into the new range *)
  | InvalidObjectDefinition     (* the new range overlaps a partition or is empty *)
  | UndefinedTable
  | DatabaseError.

Inductive reclaim_decision : Type :=
  | DROP | CHECK_ROWS | TAKE_LOCK | SKIP_DEFAULT | SKIP_GRACE | SKIP_HAS_ROWS | SKIP_LOCKED.
#[global] Instance reclaim_decision_eq_dec : EqDecision reclaim_decision.
Proof. solve_decision. Defined.

Definition decide_partition_reclaim (upper_bound : option Z) (now grace : Z)
    (has_rows : option bool) (is_default : bool) (lock_ok : option bool) : reclaim_decision :=
  match is_default, upper_bound with
  | true, _ | _, None => SKIP_DEFAULT
  | false, Some ub =>
      if now - grace <=? ub then SKIP_GRACE
      else match has_rows with
           | None => CHECK_ROWS
           | Some true => SKIP_HAS_ROWS
           | Some false =>
               match lock_ok with
               | None => TAKE_LOCK
               | Some false => SKIP_LOCKED
               | Some true => DROP
               end
           end
  end.

Section Partitions.
Context {row : Type} (created_at : row → Z).
#[local] Set Default Proof Using "Type".

Record partition : Type := mkPartition {
  pt_name : part_name;
  pt_bound : bound;
  pt_rows : list row;
}.

(** The children of the parent table, and relations that were detached but not dropped. *)
Record ptable : Type := mkPTable {
  parts : list partition;
  detached : list partition;
}.

Definition all_rows (t : ptable) : list row := parts t ≫= pt_rows.

Definition _list_partitions (t : ptable) : list (part_name * option Z) :=
  (λ p, (pt_name p, _parse_upper_bound (pt_bound p))) <$> parts t.

Definition _list_partition_ranges (t : ptable) : list (Z * Z) :=
  omap (bound_range ∘ pt_bound) (parts t).

Definition relation_exists (n : part_name) (t : ptable) : bool :=
  exists_where (λ p, pt_name p = n) (parts t ++ detached t).

Definition is_range (b : bound) : bool := if bound_range b then true else false.

(** Rows of the DEFAULT partition between [lo] and [hi]. *)
Definition default_rows_in (lo hi : Z) (t : ptable) : list row :=
  filter (λ r, lo <= created_at r < hi)
    (filter (λ p, pt_bound p = BDefault) (parts t) ≫= pt_rows).

Definition overlaps (lo hi : Z) (r : Z * Z) : Prop := r.1 < hi ∧ lo < r.2.
#[global] Instance overlaps_dec lo hi r : Decision (overlaps lo hi r).
Proof. unfold overlaps. apply _. Defined.

(** [CREATE TABLE IF NOT EXISTS name PARTITION OF table FOR VALUES FROM (lo) TO (hi)] *)
Definition create_partition (n : part_name) (lo hi : Z) (t : ptable) : result pg_error ptable :=
  if relation_exists n t then Ok t
  else if bool_decide (hi <= lo) || exists_where (overlaps lo hi) (_list_partition_ranges t)
  then Err InvalidObjectDefinition
  else match default_rows_in lo hi t with
       | _ :: _ => Err CheckViolation
       | [] => Ok (mkPTable (parts t ++ [mkPartition n (BRange lo hi) []]) (detached t))
       end.

(** ** Creating partitions ahead of the clock *)

Definition range_le (a b : Z * Z) : Prop := a.1 < b.1 ∨ (a.1 = b.1 ∧ a.2 <= b.2).
#[global] Instance range_le_dec : RelDecision range_le.
Proof. intros a b. unfold range_le. apply _. Defined.

Definition inside (x : Z) (r : Z * Z) : Prop := r.1 <= x < r.2.
#[global] Instance inside_dec x r : Decision (inside x r).
Proof. unfold inside. apply _. Defined.

(** [min] of a list with a default for the empty one *)
Definition min_list (d : Z) (l : list Z) : Z := foldr Z.min d l.

(** The upper end of the partition created at [cursor]: one width, clipped to the next partition. *)
Definition slot_end (width cursor : Z) (existing : list (Z * Z)) : Z :=
  min_list (cursor + width) (filter (λ lo, cursor < lo) (fst <$> existing)).

Definition part_suffix (width ts : Z) : part_name :=
  if width <? day_usec then NMinute (ts / minute_usec) else NDay (ts / day_usec).

(** The body of the loop of [ensure_live_partitions]; [created] counts the successful statements,
    an uncaught error ends the walk. *)
Fixpoint live_walk (fuel : nat) (width end_ : Z) (existing : list (Z * Z)) (cursor : Z)
    (created : nat) (t : ptable) : ptable * result pg_error nat :=
  match fuel with
  | O => (t, Ok created)
  | S fuel =>
      if end_ <=? cursor then (t, Ok created)
      else match first_where (inside cursor) existing with
           | Some r => live_walk fuel width end_ existing r.2 created t
           | None =>
               let hi := slot_end width cursor existing in
               let existing' := order_by range_le (existing ++ [(cursor, hi)]) in
               match create_partition (part_suffix width cursor) cursor hi t with
               | Ok t' => live_walk fuel width end_ existing' hi (S created) t'
               | Err CheckViolation => live_walk fuel width end_ existing' hi created t
               | Err e => (t, Err e)
               end
           end
  end.

(** [width]: the parsed interval, one hour when it is invalid or below one minute *)
Definition live_width (interval : option Z) : Z :=
  match interval with
  | Some w => if w <? minute_usec then DEFAULT_LIVE_PARTITION_INTERVAL else w
  | None => DEFAULT_LIVE_PARTITION_INTERVAL
  end.

Definition live_ahead (width premake : Z) (lookahead : option Z) : Z :=
  Z.max (width * Z.max premake 1) (default day_usec lookahead).

(** The bucket that holds [now]; [date_trunc('day', now())] in a session at UTC. *)
Definition live_start (width now : Z) : Z :=
  if (day_usec <=? width) && (width mod day_usec =? 0) then now / day_usec * day_usec
  else now / width * width.

Definition ensure_live_partitions (interval lookahead : option Z) (premake now : Z)
    (advisory_lock : bool) (t : ptable) : ptable * result pg_error nat :=
  let width := live_width interval in
  if advisory_lock
  then live_walk 10000 width (now + live_ahead width premake lookahead)
         (order_by range_le (_list_partition_ranges t)) (live_start width now) 0 t
  else (t, Ok 0%nat).

(** [ensure_future_partitions]: [bucket i] is the answer to [lo_sql] for index [i], [add lo] the
    answer to [lo + interval], [suffix] the name of a lower bound. *)
Fixpoint future_loop (bucket : Z → Z) (add : Z → Z) (suffix : Z → part_name) (idx : list Z)
    (existing : list (Z * Z)) (created : nat) (t : ptable) : ptable * result pg_error nat :=
  match idx with
  | [] => (t, Ok created)
  | i :: idx =>
      let lo := bucket i in
      let hi := add lo in
      if exists_where (overlaps lo hi) existing
      then future_loop bucket add suffix idx existing created t
      else match create_partition (suffix lo) lo hi t with
           | Ok t' => future_loop bucket add suffix idx (existing ++ [(lo, hi)]) (S created) t'
           | Err CheckViolation => future_loop bucket add suffix idx existing created t
           | Err e => (t, Err e)
           end
  end.

Definition ensure_future_partitions (bucket add : Z → Z) (suffix : Z → part_name) (premake : Z)
    (advisory_lock : bool) (t : ptable) : ptable * result pg_error nat :=
  if advisory_lock
  then future_loop bucket add suffix (seqZ 0 (premake + 1)) (_list_partition_ranges t) 0 t
  else (t, Ok 0%nat).

(** ** Dropping partitions that have passed *)

(** [SELECT EXISTS (SELECT 1 FROM name)] *)
Definition _partition_has_rows (n : part_name) (t : ptable) : result pg_error bool :=
  if relation_exists n t
  then Ok (exists_where (λ p, pt_name p = n ∧ pt_rows p ≠ []) (parts t ++ detached t))
  else Err UndefinedTable.

(** [ALTER TABLE table DETACH PARTITION name] and [DROP TABLE name] *)
Definition detach_partition (n : part_name) (t : ptable) : ptable :=
  mkPTable (delete_where (λ p, pt_name p = n) (parts t))
    (detached t ++ filter (λ p, pt_name p = n) (parts t)).

Definition drop_table (n : part_name) (t : ptable) : ptable :=
  mkPTable (parts t) (delete_where (λ p, pt_name p = n) (detached t)).

(** What the server answers during one attempt. [ae_scan]: the unlocked look ends in time;
    [ae_snapshot]: the attempt runs inside a transaction that is not read committed; [ae_lock]:
    the partition lock, the scan under it and the parent lock are had in time; [ae_error]: another
    error of the server, which rolls the transaction back. *)
Record attempt_env : Type := mkAttempt {
  ae_scan : bool;
  ae_snapshot : bool;
  ae_lock : bool;
  ae_error : bool;
}.

(** [look] is the table when the unlocked look runs, [t] the table once the partition lock is
    held: until the transaction ends nobody else writes the partition. *)
Definition _try_reclaim_one (e : attempt_env) (n : part_name) (upper now grace : Z)
    (look t : ptable) : ptable * result pg_error reclaim_decision :=
  match decide_partition_reclaim (Some upper) now grace None false None with
  | CHECK_ROWS =>
      if negb (ae_scan e) then (t, Ok SKIP_HAS_ROWS)
      else match _partition_has_rows n look with
           | Err x => (t, Err x)
           | Ok has_rows =>
               match decide_partition_reclaim (Some upper) now grace (Some has_rows) false None with
               | TAKE_LOCK =>
                   if ae_error e then (t, Err DatabaseError)
                   else if ae_snapshot e then (t, Ok SKIP_LOCKED)
                   else if negb (ae_lock e) then (t, Ok SKIP_LOCKED)
                   else match _partition_has_rows n t with
                        | Err x => (t, Err x)
                        | Ok has_rows =>
                            match decide_partition_reclaim (Some upper) now grace (Some has_rows)
                                    false (Some true) with
                            | DROP => (drop_table n (detach_partition n t), Ok DROP)
                            | step => (t, Ok step)
                            end
                        end
               | step => (t, Ok step)
               end
           end
  | first => (t, Ok first)
  end.

(** One run of the reclaim: [re_before] and [re_between] are what other transactions commit to the
    table before the look at a partition and between the look and its lock; [re_broken]: the
    connection is broken when an attempt on this partition raises. *)
Record reclaim_env : Type := mkReclaim {
  re_now : Z;
  re_advisory : bool;
  re_owned : bool;
  re_attempt : part_name → attempt_env;
  re_before : part_name → ptable → ptable;
  re_between : part_name → ptable → ptable;
  re_broken : part_name → bool;
}.

Definition upper_le (a b : part_name * Z) : Prop := a.2 <= b.2.
#[global] Instance upper_le_dec : RelDecision upper_le.
Proof. intros a b. unfold upper_le. apply _. Defined.

Definition bounded_partitions (t : ptable) : list (part_name * Z) :=
  order_by upper_le (omap (λ nu, pair nu.1 <$> nu.2) (_list_partitions t)).

Fixpoint reclaim_loop (e : reclaim_env) (grace : Z) (l : list (part_name * Z)) (dropped : nat)
    (t : ptable) : ptable * result pg_error nat :=
  match l with
  | [] => (t, Ok dropped)
  | (n, upper) :: l =>
      if re_now e - grace <=? upper then reclaim_loop e grace l dropped t
      else
        let look := re_before e n t in
        match _try_reclaim_one (re_attempt e n) n upper (re_now e) grace look
                (re_between e n look) with
        | (t', Ok DROP) => reclaim_loop e grace l (S dropped) t'
        | (t', Ok _) => reclaim_loop e grace l dropped t'
        | (t', Err x) =>
            if re_broken e n then (t', Err x) else reclaim_loop e grace l dropped t'
        end
  end.

Definition live_grace (grace : option Z) : Z :=
  Z.max (default DEFAULT_LIVE_PARTITION_GRACE grace) MIN_LIVE_PARTITION_GRACE.

Definition reclaim_drained_live_partitions (e : reclaim_env) (grace : option Z) (t : ptable) :
    ptable * result pg_error nat :=
  if negb (re_advisory e) || re_owned e then (t, Ok 0%nat)
  else reclaim_loop e (live_grace grace) (bounded_partitions t) 0 t.

(** Retention: [live] is the predicate of rows that pin their partition ([None]: no row does),
    [drop_ok] whether the [DROP] of a partition succeeds after its archive hook. *)
Fixpoint retention_loop (live : option (row → bool)) (drop_ok : part_name → bool) (cutoff : Z)
    (l : list (part_name * option Z)) (dropped : nat) (t : ptable) : ptable * nat :=
  match l with
  | [] => (t, dropped)
  | (n, None) :: l => retention_loop live drop_ok cutoff l dropped t
  | (n, Some upper) :: l =>
      if cutoff <? upper then retention_loop live drop_ok cutoff l dropped t
      else if match live with
              | Some pred => exists_where (λ p, pt_name p = n ∧ Exists (λ r, pred r = true) (pt_rows p)) (parts t)
              | None => false
              end
      then retention_loop live drop_ok cutoff l dropped t
      else
        let t := detach_partition n t in
        if drop_ok n then retention_loop live drop_ok cutoff l (S dropped) (drop_table n t)
        else retention_loop live drop_ok cutoff l dropped t
  end.

Definition reclaim_drained_partitions (live : option (row → bool)) (drop_ok : part_name → bool)
    (advisory_lock : bool) (cutoff : Z) (t : ptable) : ptable * nat :=
  if advisory_lock then retention_loop live drop_ok cutoff (_list_partitions t) 0 t
  else (t, 0%nat).

Definition check_default_partition (t : ptable) : nat :=
  match first_where (λ p, pt_bound p = BDefault) (parts t) with
  | Some p => length (pt_rows p)
  | None => 0
  end.

(** ** The walk as a plan

    [live_plan] is the walk without the table: the slots for which a statement is issued. *)
Fixpoint live_plan (fuel : nat) (width end_ : Z) (existing : list (Z * Z)) (cursor : Z) :
    list (Z * Z) :=
  match fuel with
  | O => []
  | S fuel =>
      if end_ <=? cursor then []
      else match first_where (inside cursor) existing with
           | Some r => live_plan fuel width end_ existing r.2
           | None =>
               let hi := slot_end width cursor existing in
               (cursor, hi) ::
                 live_plan fuel width end_ (order_by range_le (existing ++ [(cursor, hi)])) hi
           end
  end.

Lemma min_list_spec d l :
  (min_list d l <= d) ∧ (∀ x, x ∈ l → min_list d l <= x) ∧ (min_list d l = d ∨ min_list d l ∈ l).
Proof.
  induction l as [|y l (Hd & Hl & Hm)]; simpl; [split_and!; [lia|set_solver|by left]|].
  split_and!; [lia| |].
  - intros x [->|Hx]%elem_of_cons; [lia|]. specialize (Hl x Hx). lia.
  - destruct (Z.min_spec y (min_list d l)) as [[_ ->]|[_ ->]]; [right; by left|].
    destruct Hm as [Hm|Hm]; [by left|right; by right].
Qed.

Lemma slot_end_spec w c ex :
  0 < w →
  c < slot_end w c ex <= c + w ∧ (∀ r, r ∈ ex → c < r.1 → slot_end w c ex <= r.1) ∧
  (slot_end w c ex = c + w ∨ ∃ r, r ∈ ex ∧ r.1 = slot_end w c ex).
Proof.
  intros Hw. unfold slot_end.
  destruct (min_list_spec (c + w) (filter (λ lo, c < lo) (fst <$> ex))) as (Hd & Hl & Hm).
  split_and!; [|lia| |].
  - destruct Hm as [->|[? _]%list_elem_of_filter]; lia.
  - intros r Hr Hc. apply Hl, list_elem_of_filter. split; [done|]. by apply list_elem_of_fmap_2.
  - destruct Hm as [->|[_ (r & -> & Hr)%list_elem_of_fmap]%list_elem_of_filter]; [by left|].
    right. by exists r.
Qed.

(** A slot at an uncovered cursor overlaps nothing. *)
Lemma slot_free w c ex r :
  0 < w → (∀ r, r ∈ ex → ¬ inside c r) → r ∈ ex → ¬ overlaps c (slot_end w c ex) r.
Proof.
  intros Hw Hc Hr [H1 H2]. destruct (slot_end_spec w c ex Hw) as (_ & Hl & _).
  specialize (Hc r Hr). unfold inside in Hc. specialize (Hl r Hr).
  destruct (Z.le_gt_cases (r.1) c); lia.
Qed.

(** Ranges that end after the cursor, and whether one of them covers it. *)
Definition ahead_of (c : Z) (ex : list (Z * Z)) : nat := rowcount (λ r, c < r.2) ex.
Definition covered_now (c : Z) (ex : list (Z * Z)) : nat :=
  if first_where (inside c) ex then 1 else 0.

Lemma ahead_of_add c ex lo :
  ahead_of c (order_by range_le (ex ++ [(lo, c)])) = ahead_of c ex.
Proof.
  unfold ahead_of, rowcount, order_by. rewrite merge_sort_Permutation, filter_app.
  rewrite (filter_none _ [(lo, c)]); [by rewrite app_nil_r|].
  intros x ->%list_elem_of_singleton. simpl. lia.
Qed.

Lemma ahead_of_mono c c' ex : c <= c' → (ahead_of c' ex <= ahead_of c ex)%nat.
Proof. intros Hc. apply rowcount_mono; [|done]. intros x Hx. lia. Qed.

Lemma covered_now_spec c ex :
  (covered_now c ex <= ahead_of c ex)%nat ∧ (covered_now c ex <= 1)%nat ∧
  ((∃ r, r ∈ ex ∧ inside c r) → covered_now c ex = 1%nat).
Proof.
  unfold covered_now. destruct (first_where (inside c) ex) as [r|] eqn:Hf.
  - apply first_where_Some in Hf as [Hr Hi]. split_and!; [|lia|done].
    apply rowcount_pos. exists r. split; [done|]. unfold inside in Hi. lia.
  - split_and!; [lia|lia|]. intros (r & Hr & Hi). by destruct (proj1 (first_where_None _ _) Hf r Hr).
Qed.

(** Every instant of the window is in an old range or in a slot of the plan. *)
Lemma live_plan_covers fuel w e : ∀ ex c n,
  0 < w → (∀ r, r ∈ ex → r.1 < r.2) → e - c <= w * Z.of_nat n →
  (n + 2 * ahead_of c ex <= fuel + covered_now c ex)%nat →
  ∀ x, c <= x < e → ∃ r, (r ∈ ex ∨ r ∈ live_plan fuel w e ex c) ∧ inside x r.
Proof.
  induction fuel as [|fuel IH]; intros ex c n Hw Hv Hn Hfuel x Hx; simpl.
  { destruct (covered_now_spec c ex) as (H1 & H2 & _).
    destruct n as [|n]; [|destruct (ahead_of c ex)]; lia. }
  rewrite (proj2 (Z.leb_gt _ _)) by lia.
  destruct (first_where (inside c) ex) as [r|] eqn:Hf.
  - assert (covered_now c ex = 1%nat) as Hb by (unfold covered_now; by rewrite Hf).
    apply first_where_Some in Hf as [Hr Hi]. unfold inside in Hi.
    destruct (Z.lt_ge_cases x (r.2)); [exists r; unfold inside; auto with lia|].
    apply (IH ex (r.2) n Hw Hv); [lia| |lia].
    assert (ahead_of (r.2) ex < ahead_of c ex)%nat; [|lia].
    apply (rowcount_lt _ _) with (x := r); [intros y ?; lia|done|lia|lia].
  - assert (covered_now c ex = 0%nat) as Hb by (unfold covered_now; by rewrite Hf).
    rewrite first_where_None in Hf. destruct (slot_end_spec w c ex Hw) as (Hs & Hl & Hm).
    set (hi := slot_end w c ex) in *. set (ex' := order_by range_le (ex ++ [(c, hi)])).
    destruct (Z.lt_ge_cases x hi).
    { exists (c, hi). split; [right; by left|]. unfold inside; simpl; lia. }
    assert (∀ r, r ∈ ex' ↔ r ∈ ex ∨ r = (c, hi)) as Hex'.
    { intros r. unfold ex'. rewrite elem_of_order_by, elem_of_app, list_elem_of_singleton. done. }
    assert (ahead_of hi ex' = ahead_of hi ex) as Ha by apply ahead_of_add.
    assert (ahead_of hi ex <= ahead_of c ex)%nat by (apply ahead_of_mono; lia).
    assert (∀ r, r ∈ ex' → r.1 < r.2) as Hv' by (intros r [Hr| ->]%Hex'; simpl; auto with lia).
    assert (∀ m, e - hi <= w * Z.of_nat m →
      (m + 2 * ahead_of hi ex' <= fuel + covered_now hi ex')%nat →
      ∃ r, (r ∈ ex ∨ r ∈ (c, hi) :: live_plan fuel w e ex' hi) ∧ inside x r) as Hgo.
    { intros m Hm1 Hm2. destruct (IH ex' hi m Hw Hv' Hm1 Hm2 x) as (r & [Hr|Hr] & Hi); [lia| |].
      - apply Hex' in Hr as [Hr| ->]; [eauto|]. exists (c, hi). split; [right; by left|done].
      - exists r. split; [right; by right|done]. }
    destruct Hm as [Hm|(r & Hr & Hrh)].
    + destruct n as [|n]; [lia|]. apply (Hgo n); [nia|lia].
    + apply (Hgo n); [nia|]. destruct (covered_now_spec hi ex') as (_ & _ & Hc).
      rewrite Hc; [lia|]. exists r. split; [apply Hex'; by left|].
      specialize (Hv r Hr). unfold inside. lia.
Qed.

(** The statements of a plan, one after the other. *)
Fixpoint create_slots (width : Z) (slots : list (Z * Z)) (created : nat) (t : ptable) :
    ptable * result pg_error nat :=
  match slots with
  | [] => (t, Ok created)
  | (lo, hi) :: slots =>
      match create_partition (part_suffix width lo) lo hi t with
      | Ok t' => create_slots width slots (S created) t'
      | Err CheckViolation => create_slots width slots created t
      | Err e => (t, Err e)
      end
  end.

Lemma live_walk_plan fuel w e : ∀ ex c k t,
  live_walk fuel w e ex c k t = create_slots w (live_plan fuel w e ex c) k t.
Proof.
  induction fuel as [|fuel IH]; intros ex c k t; simpl; [done|].
  destruct (e <=? c); [done|]. destruct (first_where (inside c) ex) as [r|]; [apply IH|].
  simpl. destruct (create_partition _ _ _ t) as [t'|[]]; auto.
Qed.

(** What [CREATE TABLE .. PARTITION OF] does when it does not overlap a partition. *)
Lemma create_partition_cases n lo hi t :
  lo < hi → (∀ r, r ∈ _list_partition_ranges t → ¬ overlaps lo hi r) →
  (relation_exists n t = true ∧ create_partition n lo hi t = Ok t) ∨
  (relation_exists n t = false ∧ default_rows_in lo hi t ≠ [] ∧
     create_partition n lo hi t = Err CheckViolation) ∨
  (relation_exists n t = false ∧ default_rows_in lo hi t = [] ∧
     create_partition n lo hi t =
       Ok (mkPTable (parts t ++ [mkPartition n (BRange lo hi) []]) (detached t))).
Proof.
  intros Hlt Hfree. unfold create_partition. destruct (relation_exists n t); [by left|right].
  rewrite bool_decide_false by lia. rewrite (proj2 (exists_where_false _ _)) by done. simpl.
  destruct (default_rows_in lo hi t) eqn:Hd; [by right|by left].
Qed.

(** A table that grew by empty range partitions. *)
Definition grown (t t' : ptable) : Prop :=
  detached t' = detached t ∧
  ∃ new, parts t' = parts t ++ new ∧
    Forall (λ p, ∃ lo hi, lo < hi ∧ pt_bound p = BRange lo hi ∧ pt_rows p = []) new.

#[global] Instance grown_preorder : PreOrder grown.
Proof.
  split.
  - intros t. split; [done|]. exists []. by rewrite app_nil_r.
  - intros t1 t2 t3 [D1 (n1 & H1 & F1)] [D2 (n2 & H2 & F2)]. split; [congruence|]. exists (n1 ++ n2).
    split; [by rewrite H2, H1, (assoc_L (++))|]. by apply Forall_app.
Qed.

Lemma grown_create t n lo hi :
  lo < hi → grown t (mkPTable (parts t ++ [mkPartition n (BRange lo hi) []]) (detached t)).
Proof.
  intros H. split; [done|]. eexists. split; [done|]. apply Forall_singleton. by exists lo, hi.
Qed.

Lemma grown_ranges t t' r : grown t t' → r ∈ _list_partition_ranges t → r ∈ _list_partition_ranges t'.
Proof.
  intros [_ (new & Hp & _)]. unfold _list_partition_ranges. rewrite Hp, omap_app, elem_of_app. by left.
Qed.

Lemma grown_defaults t t' lo hi : grown t t' → default_rows_in lo hi t' = default_rows_in lo hi t.
Proof.
  intros [_ (new & Hp & Hf)]. unfold default_rows_in. rewrite Hp, filter_app, bind_app.
  rewrite (filter_none (λ p, pt_bound p = BDefault) new); [by rewrite app_nil_r|].
  intros p Hin Hd. rewrite Forall_forall in Hf. destruct (Hf p Hin) as (lo' & hi' & _ & Hb & _).
  congruence.
Qed.

Lemma grown_relations t t' p : grown t t' → p ∈ parts t ++ detached t → p ∈ parts t' ++ detached t'.
Proof. intros [Hd (new & Hp & _)]. rewrite Hd, Hp, !elem_of_app. tauto. Qed.

Lemma grown_rows t t' : grown t t' → all_rows t' = all_rows t.
Proof.
  intros [_ (new & Hp & Hf)]. unfold all_rows. rewrite Hp, bind_app.
  assert (new ≫= pt_rows = []) as ->; [|by rewrite app_nil_r].
  clear Hp. induction Hf as [|p new (lo & hi & _ & _ & Hr) _ IH]; [done|]. csimpl.
  by rewrite Hr, IH.
Qed.

(** Why the statement of a slot left no partition with its bounds: rows of the DEFAULT partition
    fall into it, or a relation with its name is detached or has other bounds. *)
Definition slot_refused (w : Z) (t : ptable) (s : Z * Z) : Prop :=
  default_rows_in (s.1) (s.2) t ≠ [] ∨
  ∃ p, p ∈ parts t ++ detached t ∧ pt_name p = part_suffix w (s.1) ∧
       (p ∈ detached t ∨ pt_bound p ≠ BRange (s.1) (s.2)).

Lemma grown_refused w t t' s : grown t t' → slot_refused w t s → slot_refused w t' s.
Proof.
  intros Hg [Hd|(p & Hp & Hn & Hb)].
  - left. by rewrite (grown_defaults t t').
  - right. exists p. split; [by eapply grown_relations|]. split; [done|].
    destruct Hg as [-> _]. done.
Qed.

(** Slots are free of the ranges that exist and of each other, in order. *)
Fixpoint slots_free (ranges slots : list (Z * Z)) : Prop :=
  match slots with
  | [] => True
  | s :: slots =>
      s.1 < s.2 ∧ (∀ r, r ∈ ranges → ¬ overlaps (s.1) (s.2) r) ∧ slots_free (s :: ranges) slots
  end.

Lemma slots_free_mono ranges ranges' slots :
  (∀ r, r ∈ ranges' → r ∈ ranges) → slots_free ranges slots → slots_free ranges' slots.
Proof.
  revert ranges ranges'. induction slots as [|s slots IH]; intros ranges ranges' Hsub; simpl; [done|].
  intros (? & ? & Hf). split_and!; [done|auto|]. eapply IH; [|exact Hf].
  intros r [->|Hr]%elem_of_cons; [by left|right; auto].
Qed.

Lemma live_plan_free fuel w e : ∀ ex c, 0 < w → slots_free ex (live_plan fuel w e ex c).
Proof.
  induction fuel as [|fuel IH]; intros ex c Hw; simpl; [done|].
  destruct (e <=? c); [done|]. destruct (first_where (inside c) ex) as [r|] eqn:Hf; [by apply IH|].
  rewrite first_where_None in Hf. simpl. split_and!.
  - apply slot_end_spec, Hw.
  - intros r Hr. by apply slot_free.
  - eapply slots_free_mono; [|apply IH, Hw]. intros r. rewrite elem_of_order_by, elem_of_app.
    rewrite elem_of_cons, list_elem_of_singleton. tauto.
Qed.

Lemma ranges_app t n lo hi r :
  r ∈ _list_partition_ranges (mkPTable (parts t ++ [mkPartition n (BRange lo hi) []]) (detached t))
  ↔ r ∈ _list_partition_ranges t ∨ r = (lo, hi).
Proof.
  unfold _list_partition_ranges; simpl. rewrite omap_app, elem_of_app. simpl.
  by rewrite list_elem_of_singleton.
Qed.

Lemma relation_exists_true n t :
  relation_exists n t = true ↔ ∃ p, p ∈ parts t ++ detached t ∧ pt_name p = n.
Proof. apply exists_where_true. Qed.

(** Creating free slots never raises, only adds empty partitions, and every slot afterwards has its
    partition unless it was refused. *)
Lemma create_slots_ok w slots : ∀ k t,
  slots_free (_list_partition_ranges t) slots →
  ∃ t' n, create_slots w slots k t = (t', Ok n) ∧ grown t t' ∧
    ∀ s, s ∈ slots → s ∈ _list_partition_ranges t' ∨ slot_refused w t' s.
Proof.
  induction slots as [|[lo hi] slots IH]; intros k t Hfree; simpl.
  { exists t, k. split_and!; [done|done|]. by intros s ?%elem_of_nil. }
  destruct Hfree as (Hlt & Hno & Hfree). simpl in *.
  assert (slots_free (_list_partition_ranges t) slots) as Hfree'.
  { eapply slots_free_mono; [|exact Hfree]. intros r Hr. by right. }
  destruct (create_partition_cases (part_suffix w lo) lo hi t Hlt Hno)
    as [(Hex & ->)|[(Hex & Hd & ->)|(Hex & Hd & ->)]].
  - destruct (IH (S k) t Hfree') as (t' & n & -> & Hg & Hs). exists t', n. split_and!; [done..|].
    intros s [->|?]%elem_of_cons; [|auto].
    apply relation_exists_true in Hex as (p & Hp & Hn).
    destruct (decide (pt_bound p = BRange lo hi)) as [Hb|Hb].
    + apply elem_of_app in Hp as [Hp|Hp].
      * left. apply (grown_ranges t t' _ Hg). apply list_elem_of_omap. exists p. split; [done|].
        simpl. by rewrite Hb.
      * right. apply (grown_refused _ t t' _ Hg). right. exists p. rewrite elem_of_app. auto.
    + right. apply (grown_refused _ t t' _ Hg). right. exists p. auto.
  - destruct (IH k t Hfree') as (t' & n & -> & Hg & Hs). exists t', n. split_and!; [done..|].
    intros s [->|?]%elem_of_cons; [|auto]. right. apply (grown_refused _ t t' _ Hg). by left.
  - set (t1 := mkPTable _ _). destruct (IH (S k) t1) as (t' & n & -> & Hg & Hs).
    { eapply slots_free_mono; [|exact Hfree]. intros r [Hr| ->]%ranges_app; [by right|by left]. }
    exists t', n. split_and!; [done|by etrans; [apply (grown_create t (part_suffix w lo) lo hi Hlt)|]|].
    intros s [->|?]%elem_of_cons; [|auto]. left. apply (grown_ranges t1 t' _ Hg), ranges_app. by right.
Qed.

Lemma live_width_pos i : 0 < live_width i.
Proof. unfold live_width. destruct i as [w|]; [|done]. destruct (Z.ltb_spec w minute_usec); [done|]. unfold minute_usec, seconds, usec_per_sec in *. lia. Qed.

Lemma live_start_le w now : 0 < w → live_start w now <= now.
Proof.
  intros Hw. unfold live_start. destruct (_ && _).
  - pose proof (Z.mul_div_le now day_usec ltac:(done)). lia.
  - pose proof (Z.mul_div_le now w Hw). lia.
Qed.

(** C39: premade partitions. With the advisory lock, a call of [ensure_live_partitions] on a table
    whose ranges are not empty never raises and only adds empty range partitions: the partitions
    that exist, their rows and their bounds are untouched, and the server never sees an
    overlapping range. When the hard stop of 10,000 steps is not in the way (two steps per
    existing range and one per width of the window), every instant from now to the end of the
    window is in a partition, except in slots of the walk whose statement the server refused
    because of rows in the DEFAULT partition or skipped because the name was taken. *)
Theorem ensure_live_covers interval lookahead premake now t n :
  let w := live_width interval in
  let e := now + live_ahead w premake lookahead in
  (∀ r, r ∈ _list_partition_ranges t → r.1 < r.2) →
  e - live_start w now <= w * Z.of_nat n →
  (n + 2 * length (_list_partition_ranges t) <= 10000)%nat →
  ∃ t' k, ensure_live_partitions interval lookahead premake now true t = (t', Ok k) ∧
    grown t t' ∧ all_rows t' = all_rows t ∧
    ∀ x, now <= x < e →
      (∃ r, r ∈ _list_partition_ranges t' ∧ inside x r) ∨
      (∃ s, s ∈ live_plan 10000 w e (order_by range_le (_list_partition_ranges t)) (live_start w now)
            ∧ inside x s ∧ slot_refused w t' s).
Proof.
  intros w e Hv Hn Hlen. pose proof (live_width_pos interval) as Hw. fold w in Hw.
  unfold ensure_live_partitions. fold w e. rewrite live_walk_plan.
  set (ex := order_by range_le (_list_partition_ranges t)).
  set (plan := live_plan 10000 w e ex (live_start w now)).
  assert (∀ r, r ∈ ex ↔ r ∈ _list_partition_ranges t) as Hex by (intros r; apply elem_of_order_by).
  destruct (create_slots_ok w plan 0 t) as (t' & k & Hc & Hg & Hs).
  { eapply slots_free_mono; [|by apply (live_plan_free _ w e ex)]. intros r. apply Hex. }
  exists t', k. split; [done|]. split; [done|]. split; [by apply grown_rows|]. intros x Hx.
  destruct (live_plan_covers 10000 w e ex (live_start w now) n) with (x := x)
    as (r & [Hr|Hr] & Hi); [done| |done| | | |].
  - intros r Hr. by apply Hv, Hex.
  - assert (ahead_of (live_start w now) ex <= length (_list_partition_ranges t))%nat; [|lia].
    unfold ahead_of, rowcount. etrans; [apply length_filter|]. unfold ex, order_by.
    by rewrite merge_sort_Permutation.
  - pose proof (live_start_le w now Hw). lia.
  - left. exists r. split; [|done]. by apply (grown_ranges t t' r Hg), Hex.
  - destruct (Hs r Hr) as [Hin|Href]; [left; by exists r|right; by exists r].
Qed.

(** ** Reclaiming *)

Lemma elem_of_all_rows r t : r ∈ all_rows t ↔ ∃ p, p ∈ parts t ∧ r ∈ pt_rows p.
Proof. unfold all_rows. rewrite list_elem_of_bind. split; intros (p & ? & ?); by exists p. Qed.

Lemma decide_partition_reclaim_drop ub now grace rows def lock :
  decide_partition_reclaim ub now grace rows def lock = DROP ↔
  def = false ∧ (∃ u, ub = Some u ∧ u < now - grace) ∧ rows = Some false ∧ lock = Some true.
Proof.
  unfold decide_partition_reclaim. split.
  - intros H. destruct def, ub as [u|]; try done. destruct (Z.leb_spec (now - grace) u); [done|].
    destruct rows as [[]|], lock as [[]|]; try done. split_and!; [done| |done..]. by exists u.
  - intros (-> & (u & -> & Hu) & -> & ->). by rewrite (proj2 (Z.leb_gt _ _)) by lia.
Qed.

(** An attempt either leaves the table alone or drops a partition that is empty under its lock. *)
Lemma try_reclaim_cases e n upper now grace look t t' res :
  _try_reclaim_one e n upper now grace look t = (t', res) →
  (t' = t ∧ res ≠ Ok DROP) ∨
  (res = Ok DROP ∧ t' = drop_table n (detach_partition n t) ∧ upper < now - grace ∧
     (∃ p, p ∈ parts t ++ detached t ∧ pt_name p = n) ∧
     ∀ p, p ∈ parts t ++ detached t → pt_name p = n → pt_rows p = []).
Proof.
  unfold _try_reclaim_one. intros H.
  destruct (decide_partition_reclaim (Some upper) now grace None false None) eqn:H1;
    try (simplify_eq; by left).
  { apply decide_partition_reclaim_drop in H1 as (_ & _ & ? & _). done. }
  destruct (negb (ae_scan e)); [simplify_eq; by left|].
  destruct (_partition_has_rows n look) as [b|]; [|simplify_eq; by left].
  destruct (decide_partition_reclaim (Some upper) now grace (Some b) false None) eqn:H2;
    try (simplify_eq; by left).
  { apply decide_partition_reclaim_drop in H2 as (_ & _ & _ & ?). done. }
  destruct (ae_error e); [simplify_eq; by left|]. destruct (ae_snapshot e); [simplify_eq; by left|].
  destruct (negb (ae_lock e)); [simplify_eq; by left|].
  unfold _partition_has_rows in H. destruct (relation_exists n t) eqn:Hr; [|simplify_eq; by left].
  destruct (decide_partition_reclaim _ _ _ _ _ (Some true)) eqn:H3; simplify_eq; try (by left).
  apply decide_partition_reclaim_drop in H3 as (_ & (u & [= <-] & Hu) & [= Hrows] & _). right.
  rewrite exists_where_false in Hrows. apply relation_exists_true in Hr. split_and!; [done..|].
  intros p Hp Hn. specialize (Hrows p Hp). destruct (pt_rows p); [done|]. by destruct Hrows.
Qed.

Lemma try_reclaim_rows e n upper now grace look t t' res r :
  _try_reclaim_one e n upper now grace look t = (t', res) → r ∈ all_rows t → r ∈ all_rows t'.
Proof.
  intros [[-> _]|(_ & -> & _ & _ & He)]%try_reclaim_cases; [done|].
  rewrite !elem_of_all_rows. intros (p & Hp & Hr). exists p. split; [|done].
  simpl. apply elem_of_delete_where. split; [done|]. intros Hn. rewrite (He p) in Hr;
    [by apply elem_of_nil in Hr| |done]. apply elem_of_app. by left.
Qed.

(** C40: the reclaim of the live table loses no row. Whatever the server answers, whatever locks
    and errors it meets and whatever other transactions commit between its steps, a row of the
    table that no other transaction removes is still in the table after a run of
    [reclaim_drained_live_partitions]. *)
Theorem reclaim_keeps_rows e grace t r :
  (∀ n t, r ∈ all_rows t → r ∈ all_rows (re_before e n t)) →
  (∀ n t, r ∈ all_rows t → r ∈ all_rows (re_between e n t)) →
  r ∈ all_rows t → r ∈ all_rows (reclaim_drained_live_partitions e grace t).1.
Proof.
  intros Hb Hw. unfold reclaim_drained_live_partitions.
  destruct (negb (re_advisory e) || re_owned e); [done|].
  generalize (bounded_partitions t) as l. generalize 0%nat as k. intros k l. revert k t.
  induction l as [|[n upper] l IH]; intros k t Hr; simpl; [done|].
  destruct (re_now e - live_grace grace <=? upper); [by apply IH|].
  destruct (_try_reclaim_one _ n upper _ _ _ _) as [t' res] eqn:Ht.
  assert (r ∈ all_rows t') as Hr' by (eapply try_reclaim_rows; [exact Ht|auto]).
  destruct res as [d|x]; [destruct d|destruct (re_broken e n)]; simpl; auto.
Qed.

(** ** What is dropped when nothing is in the way *)

(** Removing the partitions named in a list that satisfy [D], one name after the other. *)
Lemma drop_step (D : partition → Prop) `{!∀ p, Decision (D p)} (l : list part_name) n (ps : list partition) :
  (∀ p, p ∈ ps → pt_name p = n → D p) →
  filter (λ p, ¬ (D p ∧ pt_name p ∈ l)) (delete_where (λ p, pt_name p = n) ps) =
  filter (λ p, ¬ (D p ∧ pt_name p ∈ n :: l)) ps.
Proof.
  intros HD. unfold delete_where. rewrite list_filter_filter. apply filter_iff_on.
  intros p Hp. specialize (HD p Hp). rewrite elem_of_cons. tauto.
Qed.

Lemma keep_step (D : partition → Prop) `{!∀ p, Decision (D p)} (l : list part_name) n (ps : list partition) :
  (∀ p, p ∈ ps → pt_name p = n → ¬ D p) →
  filter (λ p, ¬ (D p ∧ pt_name p ∈ l)) ps = filter (λ p, ¬ (D p ∧ pt_name p ∈ n :: l)) ps.
Proof.
  intros HD. apply filter_iff_on. intros p Hp. specialize (HD p Hp). rewrite elem_of_cons. tauto.
Qed.

(** A partition that has passed its grace period and is empty. *)
Definition drained (now grace : Z) (p : partition) : Prop :=
  match _parse_upper_bound (pt_bound p) with
  | Some u => u < now - grace ∧ pt_rows p = []
  | None => False
  end.
#[global] Instance drained_dec now grace p : Decision (drained now grace p).
Proof. unfold drained. destruct (_parse_upper_bound (pt_bound p)); apply _. Defined.

(** No other transaction, every lock and every scan in time. *)
Definition quiet_reclaim (e : reclaim_env) : Prop :=
  re_advisory e = true ∧ re_owned e = false ∧
  ∀ n, re_attempt e n = mkAttempt true false true false ∧
       (∀ t, re_before e n t = t) ∧ (∀ t, re_between e n t = t).

Lemma quiet_attempt n upper now grace t :
  upper < now - grace → (∃ p, p ∈ parts t ++ detached t ∧ pt_name p = n) →
  _try_reclaim_one (mkAttempt true false true false) n upper now grace t t =
  if bool_decide (Exists (λ p, pt_name p = n ∧ pt_rows p ≠ []) (parts t ++ detached t))
  then (t, Ok SKIP_HAS_ROWS) else (drop_table n (detach_partition n t), Ok DROP).
Proof.
  intros Hu Hex. unfold _try_reclaim_one, decide_partition_reclaim, _partition_has_rows.
  rewrite (proj2 (Z.leb_gt _ _)) by lia. simpl. rewrite (proj2 (relation_exists_true n t) Hex).
  unfold exists_where. by destruct (bool_decide _).
Qed.

Lemma names_disjoint t p q :
  NoDup (pt_name <$> parts t ++ detached t) → p ∈ parts t → q ∈ detached t → pt_name p ≠ pt_name q.
Proof.
  rewrite fmap_app. intros (_ & Hd & _)%NoDup_app Hp Hq Heq. apply (Hd (pt_name p)).
  - by apply list_elem_of_fmap_2.
  - rewrite Heq. by apply list_elem_of_fmap_2.
Qed.

Lemma drop_detached n t :
  (∀ q, q ∈ detached t → pt_name q ≠ n) → detached (drop_table n (detach_partition n t)) = detached t.
Proof.
  intros Hq. simpl. unfold delete_where. rewrite filter_app, filter_all by done.
  rewrite filter_none; [by rewrite app_nil_r|]. intros p [Hp _]%list_elem_of_filter. auto.
Qed.

Lemma drop_count n (ps : list partition) p :
  NoDup (pt_name <$> ps) → p ∈ ps → pt_name p = n →
  (S (length (delete_where (λ q, pt_name q = n) ps)) = length ps)%nat.
Proof.
  intros Hnd Hp Hn. pose proof (length_delete_where (λ q, pt_name q = n) ps) as H.
  unfold rowcount in H. rewrite (filter_unique _ ps p) in H; simpl in *; [lia| |done|done|].
  - by eapply NoDup_fmap_1.
  - intros q Hq Hqn. eapply NoDup_fmap_inj; [done..|congruence].
Qed.

(** The catalog rows a loop still has to visit name distinct partitions of the table; [g] reads the
    upper bound of such a row. *)
Definition listed {B} (g : B → option Z) (l : list (part_name * B)) (t : ptable) : Prop :=
  NoDup (fst <$> l) ∧
  ∀ n u, (n, u) ∈ l → ∃ p, p ∈ parts t ∧ pt_name p = n ∧ _parse_upper_bound (pt_bound p) = g u.

Lemma listed_drop {B} (g : B → option Z) n u l t d :
  listed g ((n, u) :: l) t → listed g l (mkPTable (delete_where (λ p, pt_name p = n) (parts t)) d).
Proof.
  intros [[Hn Hl]%NoDup_cons Hin]. split; [done|]. intros n' u' Hl'.
  destruct (Hin n' u') as (p & Hp & Hpn & Hu); [by right|]. exists p. split; [|done]. simpl.
  apply elem_of_delete_where. split; [done|]. intros Heq. apply Hn. rewrite <-Heq, Hpn.
  apply (list_elem_of_fmap_2 fst _ _ Hl').
Qed.

Lemma listed_tail {B} (g : B → option Z) n u l t : listed g ((n, u) :: l) t → listed g l t.
Proof. intros [[_ Hl]%NoDup_cons Hin]. split; [done|]. intros. apply Hin. by right. Qed.

Lemma names_parts t : NoDup (pt_name <$> parts t ++ detached t) → NoDup (pt_name <$> parts t).
Proof. rewrite fmap_app. intros [? _]%NoDup_app. done. Qed.

Lemma names_drop n t :
  NoDup (pt_name <$> parts t ++ detached t) →
  NoDup (pt_name <$> delete_where (λ p, pt_name p = n) (parts t) ++ detached t).
Proof.
  intros H. eapply sublist_NoDup; [exact H|]. apply fmap_sublist, sublist_app; [|done].
  apply sublist_filter.
Qed.

Lemma reclaim_loop_quiet e grace l : ∀ k t,
  quiet_reclaim e → NoDup (pt_name <$> parts t ++ detached t) → listed Some l t →
  ∃ t' m, reclaim_loop e grace l k t = (t', Ok m) ∧ detached t' = detached t ∧
    parts t' = filter (λ p, ¬ (drained (re_now e) grace p ∧ pt_name p ∈ fst <$> l)) (parts t) ∧
    (m + length (parts t') = k + length (parts t))%nat.
Proof.
  induction l as [|[n u] l IH]; intros k t Hq Hnd Hl; simpl.
  { exists t, k. split_and!; [done|done| |done]. rewrite filter_all; [done|]. intros p _ [_ ?%elem_of_nil]. done. }
  destruct (proj2 Hl n u) as (p & Hp & Hn & Hu); [by left|].
  assert (∀ q, q ∈ parts t → pt_name q = n → q = p) as Huniq.
  { intros q Hqp Hqn. eapply NoDup_fmap_inj; [exact Hnd|apply elem_of_app; by left..|congruence]. }
  assert (¬ drained (re_now e) grace p → ∃ t' m, reclaim_loop e grace l k t = (t', Ok m) ∧
    detached t' = detached t ∧
    parts t' = filter (λ p, ¬ (drained (re_now e) grace p ∧ pt_name p ∈ n :: l.*1)) (parts t) ∧
    (m + length (parts t') = k + length (parts t))%nat) as Hkeep.
  { intros Hd. destruct (IH k t Hq Hnd (listed_tail _ _ _ _ _ Hl)) as (t' & m & -> & ? & Hparts & ?).
    exists t', m. split_and!; [done..| |done]. rewrite Hparts. apply keep_step.
    by intros q Hqp ->%Huniq. }
  unfold drained in Hkeep at 1. rewrite Hu in Hkeep.
  destruct (Z.leb_spec (re_now e - grace) u) as [Hg|Hg]; [apply Hkeep; lia|].
  destruct (proj2 (proj2 Hq) n) as (-> & -> & ->).
  rewrite quiet_attempt by (done || (exists p; split; [apply elem_of_app; by left|done])).
  case_bool_decide as Hrows.
  { apply Hkeep. intros [_ He]. apply Exists_exists in Hrows as (q & [Hqp|Hqd]%elem_of_app & Hqn & Hqr).
    - apply Huniq in Hqn; [by subst|done].
    - destruct (names_disjoint t p q Hnd Hp Hqd). congruence. }
  assert (pt_rows p = []) as Hpr.
  { destruct (decide (pt_rows p = [])); [done|]. destruct Hrows. apply Exists_exists. exists p.
    rewrite elem_of_app. auto. }
  assert (detached (drop_table n (detach_partition n t)) = detached t) as Hdet.
  { apply drop_detached. intros q Hqd. subst n. by apply not_eq_sym, (names_disjoint t p q). }
  destruct (IH (S k) (drop_table n (detach_partition n t))) as (t' & m & -> & Hdt & Hparts & Hm);
    [done|rewrite Hdet; by apply names_drop| |].
  { apply (listed_drop Some n u l t _ Hl). }
  exists t', m. split_and!; [done|congruence| |].
  - rewrite Hparts. simpl. apply drop_step. intros q Hqp ->%Huniq; [|done]. unfold drained. rewrite Hu. auto.
  - simpl in Hm. pose proof (names_parts t Hnd) as Hnp.
    pose proof (drop_count n (parts t) p Hnp Hp Hn). lia.
Qed.

Lemma bounded_partitions_listed t :
  NoDup (pt_name <$> parts t) → listed Some (bounded_partitions t) t ∧
  ∀ p u, p ∈ parts t → _parse_upper_bound (pt_bound p) = Some u → pt_name p ∈ (bounded_partitions t).*1.
Proof.
  intros Hnd. split; [split|].
  - unfold bounded_partitions, order_by. rewrite merge_sort_Permutation.
    eapply sublist_NoDup; [exact Hnd|]. unfold _list_partitions. clear Hnd.
    induction (parts t) as [|p ps IH]; simpl; [done|].
    destruct (_parse_upper_bound (pt_bound p)); simpl; by constructor.
  - intros n u Hin. unfold bounded_partitions in Hin.
    apply elem_of_order_by, list_elem_of_omap in Hin as ([n' u'] & Hin & Heq).
    apply list_elem_of_fmap in Hin as (p & [= -> ->] & Hp). simpl in Heq. exists p.
    destruct (_parse_upper_bound (pt_bound p)); by simplify_eq/=.
  - intros p u Hp Hu. apply list_elem_of_fmap. exists (pt_name p, u). split; [done|].
    unfold bounded_partitions. apply elem_of_order_by, list_elem_of_omap.
    exists (pt_name p, Some u). split; [|done]. apply list_elem_of_fmap. exists p. by rewrite Hu.
Qed.

(** What the reclaim drops. On a table whose relations have distinct names, when nothing is in
    the way, a run drops exactly the partitions that are empty and whose upper bound is older than
    the grace period (at least one minute), in one pass; the DEFAULT partition, partitions with a
    row and the others are kept in order, and the result is the number dropped. *)
Theorem reclaim_exact e grace t :
  quiet_reclaim e → NoDup (pt_name <$> parts t ++ detached t) →
  ∃ t' m, reclaim_drained_live_partitions e grace t = (t', Ok m) ∧ detached t' = detached t ∧
    parts t' = filter (λ p, ¬ drained (re_now e) (live_grace grace) p) (parts t) ∧
    (m + length (parts t') = length (parts t))%nat.
Proof.
  intros Hq Hnd. unfold reclaim_drained_live_partitions. destruct Hq as (Ha & Ho & Hq). rewrite Ha, Ho.
  simpl. pose proof (names_parts t Hnd) as Hnp.
  destruct (bounded_partitions_listed t Hnp) as [Hl Hcov].
  destruct (reclaim_loop_quiet e (live_grace grace) (bounded_partitions t) 0 t) as (t' & m & -> & Hd & Hp & Hm);
    [by split_and!|done|done|].
  exists t', m. split_and!; [done|done| |done]. rewrite Hp. apply filter_iff_on. intros p Hpp.
  assert (drained (re_now e) (live_grace grace) p → pt_name p ∈ (bounded_partitions t).*1); [|tauto].
  unfold drained. destruct (_parse_upper_bound (pt_bound p)) eqn:Hu; [|done]. intros _. by eapply Hcov.
Qed.

(** ** Retention *)

(** Outside retention and without a row that pins it. *)
Definition retired (live : option (row → bool)) (cutoff : Z) (p : partition) : Prop :=
  match _parse_upper_bound (pt_bound p) with
  | Some u => u <= cutoff ∧
      match live with Some pred => ¬ Exists (λ r, pred r = true) (pt_rows p) | None => True end
  | None => False
  end.
#[global] Instance retired_dec live cutoff p : Decision (retired live cutoff p).
Proof. unfold retired. destruct (_parse_upper_bound (pt_bound p)), live; apply _. Defined.

Lemma retention_loop_spec live drop_ok cutoff l : ∀ k t,
  NoDup (pt_name <$> parts t) → listed id l t →
  parts (retention_loop live drop_ok cutoff l k t).1 =
    filter (λ p, ¬ (retired live cutoff p ∧ pt_name p ∈ l.*1)) (parts t).
Proof.
  induction l as [|[n ou] l IH]; intros k t Hnd Hl; simpl.
  { rewrite filter_all; [done|]. intros p _ [_ ?%elem_of_nil]. done. }
  destruct (proj2 Hl n ou) as (p & Hp & Hn & Hu); [by left|].
  assert (∀ q, q ∈ parts t → pt_name q = n → q = p) as Huniq.
  { intros q Hqp Hqn. eapply NoDup_fmap_inj; [exact Hnd|done..|congruence]. }
  assert (¬ retired live cutoff p → parts (retention_loop live drop_ok cutoff l k t).1 =
    filter (λ p, ¬ (retired live cutoff p ∧ pt_name p ∈ n :: l.*1)) (parts t)) as Hkeep.
  { intros Hd. rewrite (IH k t Hnd (listed_tail _ _ _ _ _ Hl)). apply keep_step.
    by intros q Hqp ->%Huniq. }
  unfold retired in Hkeep at 1. rewrite Hu in Hkeep. destruct ou as [u|]; simpl in *; [|auto].
  destruct (Z.ltb_spec cutoff u) as [Hc|Hc]; [apply Hkeep; lia|].
  match goal with |- context [if ?b then _ else _] => destruct b eqn:Hlive end.
  { apply Hkeep. intros [_ Hno]. destruct live as [pred|]; [|done].
    apply exists_where_true in Hlive as (q & Hq & Hqn & He). apply Huniq in Hqn; [by subst|done]. }
  assert (retired live cutoff p) as Hr.
  { unfold retired. rewrite Hu. simpl. split; [done|]. destruct live as [pred|]; [|done].
    rewrite exists_where_false in Hlive. intros He. by apply (Hlive p). }
  assert (∀ k d, parts (retention_loop live drop_ok cutoff l k
      (mkPTable (delete_where (λ p, pt_name p = n) (parts t)) d)).1 =
    filter (λ p, ¬ (retired live cutoff p ∧ pt_name p ∈ n :: l.*1)) (parts t)) as Hdrop.
  { intros k' d. rewrite IH; [|eapply sublist_NoDup; [exact Hnd|]; apply fmap_sublist, sublist_filter
                              |by eapply listed_drop].
    simpl. apply drop_step. by intros q Hqp ->%Huniq. }
  destruct (drop_ok n); apply Hdrop.
Qed.

(** Retention. On a table with distinct partition names a run of [reclaim_drained_partitions]
    removes exactly the partitions whose upper bound is not after the cutoff and that hold no row
    of live work: no queued or running job is lost, the DEFAULT partition is never removed, and
    every partition inside retention is kept with its rows, whatever happens to the archive hook
    and the DROP. *)
Theorem retention_exact live drop_ok cutoff t :
  NoDup (pt_name <$> parts t) →
  let t' := (reclaim_drained_partitions live drop_ok true cutoff t).1 in
  parts t' = filter (λ p, ¬ retired live cutoff p) (parts t) ∧
  (∀ pred p r, live = Some pred → p ∈ parts t → r ∈ pt_rows p → pred r = true → r ∈ all_rows t').
Proof.
  intros Hnd t'. assert (parts t' = filter (λ p, ¬ retired live cutoff p) (parts t)) as Hp.
  { unfold t', reclaim_drained_partitions. rewrite retention_loop_spec; [|done|split].
    - apply filter_iff_on. intros p Hp. assert (pt_name p ∈ (_list_partitions t).*1); [|tauto].
      unfold _list_partitions. rewrite <-list_fmap_compose. by apply (list_elem_of_fmap_2 pt_name).
    - unfold _list_partitions. by rewrite <-list_fmap_compose.
    - intros n u Hin. apply list_elem_of_fmap in Hin as (p & [= -> ->] & ?). by exists p. }
  split; [done|]. intros pred p r -> Hin Hr Hpred. apply elem_of_all_rows. exists p. split; [|done].
  rewrite Hp. apply list_elem_of_filter. split; [|done]. unfold retired.
  destruct (_parse_upper_bound (pt_bound p)); [|by intros []]. intros [_ Hno]. apply Hno, Exists_exists.
  by exists r.
Qed.

(** The fixed-count variant used for the attempt and history tables never raises either. *)
Lemma future_loop_ok bucket add suffix idx : (∀ lo, lo < add lo) → ∀ ex k t,
  (∀ r, r ∈ _list_partition_ranges t → r ∈ ex) →
  ∃ t' n, future_loop bucket add suffix idx ex k t = (t', Ok n) ∧ grown t t'.
Proof.
  intros Hadd. induction idx as [|i idx IH]; intros ex k t Hex; simpl; [by exists t, k|].
  destruct (exists_where (overlaps (bucket i) (add (bucket i))) ex) eqn:Ho; [by apply IH|].
  rewrite exists_where_false in Ho.
  destruct (create_partition_cases (suffix (bucket i)) (bucket i) (add (bucket i)) t)
    as [(_ & ->)|[(_ & _ & ->)|(_ & _ & ->)]]; [done|auto| | |].
  - apply IH. intros r Hr. apply elem_of_app. left. auto.
  - by apply IH.
  - set (t1 := mkPTable _ _). destruct (IH (ex ++ [(bucket i, add (bucket i))]) (S k) t1) as (t' & n & -> & Hg).
    { intros r [Hr| ->]%ranges_app; apply elem_of_app; [left; auto|right; by left]. }
    exists t', n. split; [done|]. etrans; [|exact Hg]. by apply grown_create.
Qed.

End Partitions.

(** ** Interval texts *)

(** A whole number of units, spelled with any of the unit words in singular or plural. *)
Definition interval_text (n : Z) (word : string) : string :=
  of_chars (py_str n ++ " "%char :: to_chars word).

Lemma unit_word_text word secs (plural : bool) :
  (word, secs) ∈ _INTERVAL_UNIT_SECONDS →
  unit_word (lower (strip (" "%char :: to_chars (if plural then String.append word "s" else word))))
  = Some secs ∧ 0 < secs.
Proof.
  unfold _INTERVAL_UNIT_SECONDS. rewrite !elem_of_cons, elem_of_nil.
  intros [[= -> ->]|[[= -> ->]|[[= -> ->]|[[= -> ->]|[[= -> ->]|[[= -> ->]|[[= -> ->]|[]]]]]]]];
    destruct plural; vm_compute; done.
Qed.

Lemma lstrip_digit l : isnumeric l = true → ∀ r, lstrip (l ++ r) = l ++ r.
Proof.
  intros [Hne Hd]%forallb_isnumeric r. destruct l as [|c l]; [done|]. simpl.
  rewrite (is_digit_not_space c); [done|]. apply Hd. by left.
Qed.

(** Interval settings round trip. A positive number of seconds, minutes, hours, days or weeks,
    spelled with its unit word, parses to exactly that duration (in microseconds) as long as it
    fits a timedelta; zero units parse to nothing. *)
Theorem parse_interval_roundtrip n word secs :
  0 <= n → (word, secs) ∈ _INTERVAL_UNIT_SECONDS → n * seconds secs < 1000000000 * day_usec →
  ∀ plural : bool,
  parse_interval (interval_text n (if plural then String.append word "s" else word)) =
  Ok (if decide (n = 0) then None else Some (n * seconds secs)).
Proof.
  intros Hn Hword Hmax plural. unfold parse_interval, interval_text. rewrite to_of_chars.
  destruct (py_str_spec n Hn) as [Hnum Hval].
  assert (match_interval (py_str n ++ " "%char :: to_chars (if plural then String.append word "s" else word))
    = Some (py_str n, 0%nat, secs)) as ->.
  { unfold match_interval. rewrite lstrip_digit by done. pose proof Hnum as Hnum'.
    apply forallb_isnumeric in Hnum' as [Hne Hd]. rewrite span_digits_app by done.
    destruct (py_str n) as [|c cs]; [done|].
    rewrite (proj1 (unit_word_text word secs plural Hword)). simpl. by rewrite app_nil_r. }
  assert (digits_value (py_str n) = n) as -> by done.
  unfold round_half_even. simpl. change (10 ^ Z.of_nat 0) with 1. rewrite Z.div_1_r, Z.mod_1_r. simpl.
  unfold seconds in *. rewrite Z.mul_assoc in *.
  pose proof (proj2 (unit_word_text word secs plural Hword)).
  unfold usec_per_sec in *. destruct (decide (n = 0)) as [->|]; [done|].
  rewrite (proj2 (Z.leb_gt _ _)) by nia. rewrite (proj2 (Z.leb_gt _ _)) by lia. done.
Qed.

Lemma parse_interval_roundtrip_witness :
  parse_interval "90 minutes" = Ok (Some 5400000000) ∧ parse_interval "0 day" = Ok None.
Proof.
  assert (("minute"%string, 60) ∈ _INTERVAL_UNIT_SECONDS) as Hm by (repeat constructor).
  assert (("day"%string, 86400) ∈ _INTERVAL_UNIT_SECONDS) as Hd by (repeat constructor).
  pose proof (parse_interval_roundtrip 90 "minute" 60 ltac:(lia) Hm ltac:(vm_compute; reflexivity) true) as H1.
  pose proof (parse_interval_roundtrip 0 "day" 86400 ltac:(lia) Hd ltac:(vm_compute; reflexivity) false) as H2.
  vm_compute in H1, H2. vm_compute. exact (conj H1 H2).
Defined.

(** ** A concrete table

    Rows are their own creation times; day 20000 is 2024-10-04. *)
Definition demo_day : Z := 20000 * day_usec.
Definition demo_hour (h : Z) : Z := demo_day + h * seconds 3600.

Definition hourly (from to : Z) (rows : list Z) : partition (row := Z) :=
  mkPartition (NMinute (demo_hour from / minute_usec)) (BRange (demo_hour from) (demo_hour to)) rows.

Definition demo_table : ptable (row := Z) :=
  mkPTable [mkPartition (NOther "default") BDefault []; hourly 0 1 []; hourly 1 2 [demo_hour 1];
            hourly 3 5 []] [].

Lemma ensure_live_covers_witness :
  let now := demo_hour 2 + seconds 1800 in
  ∃ t' k, ensure_live_partitions id (Some (seconds 3600)) (Some day_usec) 7 now true demo_table = (t', Ok k) ∧
    all_rows t' = [demo_hour 1].
Proof.
  intros now.
  destruct (ensure_live_covers id (Some (seconds 3600)) (Some day_usec) 7 now demo_table 25)
    as (t' & k & H & _ & Hrows & _).
  - intros r Hr. vm_compute in Hr. repeat (apply elem_of_cons in Hr as [->|Hr]; [vm_compute; reflexivity|]).
    by apply elem_of_nil in Hr.
  - vm_compute. discriminate.
  - vm_compute. lia.
  - exists t', k. split; [exact H|exact Hrows].
Defined.

Definition quiet_env (now : Z) : reclaim_env (row := Z) :=
  mkReclaim now true false (λ _, mkAttempt true false true false) (λ _ t, t) (λ _ t, t) (λ _, false).

(** The partition with a row is kept, its empty neighbour that passed is dropped. *)
Lemma reclaim_keeps_rows_witness :
  demo_hour 1 ∈ all_rows (reclaim_drained_live_partitions (quiet_env (demo_hour 4)) None demo_table).1.
Proof.
  apply (reclaim_keeps_rows (quiet_env (demo_hour 4)) None demo_table (demo_hour 1));
    [done|done|]. vm_compute. by left.
Defined.

Lemma reclaim_exact_witness :
  ∃ t' m, reclaim_drained_live_partitions (quiet_env (demo_hour 4)) None demo_table = (t', Ok m) ∧
    pt_name <$> parts t' = [NOther "default"; NMinute (demo_hour 1 / minute_usec); NMinute (demo_hour 3 / minute_usec)].
Proof.
  destruct (reclaim_exact (quiet_env (demo_hour 4)) None demo_table) as (t' & m & H & _ & Hp & Hm).
  - split_and!; [done|done|]. by intros n.
  - vm_compute. repeat (apply NoDup_cons; split; [set_solver|]). apply NoDup_nil_2.
  - exists t', m. split; [exact H|]. rewrite Hp. vm_compute. reflexivity.
Defined.

Lemma retention_exact_witness :
  parts (reclaim_drained_partitions (Some (λ r, bool_decide (r = demo_hour 1))) (λ _, true) true
    (demo_hour 3) demo_table).1 =
  [mkPartition (NOther "default") BDefault []; hourly 1 2 [demo_hour 1]; hourly 3 5 []].
Proof.
  destruct (retention_exact (Some (λ r, bool_decide (r = demo_hour 1))) (λ _, true) (demo_hour 3) demo_table)
    as [H _].
  - vm_compute. repeat (apply NoDup_cons; split; [set_solver|]). apply NoDup_nil_2.
  - rewrite H. vm_compute. reflexivity.
Defined.

(** A gap behind a taken name. The name of a partition of a day or more carries only its date,
    and [CREATE TABLE IF NOT EXISTS] skips a taken name without an error: with one six-hour
    partition left on the day and the interval set to a day, the first slot of the walk takes the
    name of the day, the slot behind the old partition gets the same name and is skipped, and the
    call counts it as created while the instant it runs at is in no range. *)
Theorem ensure_live_name_gap :
  let now := demo_hour 13 in
  let t := mkPTable [mkPartition (NOther "default") BDefault []; hourly 6 12 [demo_hour 7]] [] in
  match ensure_live_partitions id (Some day_usec) (Some day_usec) 1 now true t with
  | (t', Ok k) => k = 3%nat ∧ first_where (inside now) (_list_partition_ranges t') = None
  | _ => False
  end.
Proof. vm_compute. by split. Qed.
