(* ===== verification/Horizon.v ===== *)
(** * Health of the database (core/horizon.py, core/rotation.py)

    The xmin-horizon verdict, the overdue live partitions and their probes, and the health report
    that combines them with the rotation lag. What the server answers (the metrics row, the
    catalog, the emptiness probes, the rotation status) is an argument; ages and ratios are
    rationals where the code has doubles. *)

From S2P Require Import Prelude Sql PyString Models Retry Attempts Ready History Store StoreInv Rotation Partitioning.
From Stdlib Require Import Qcanon.
#[local] Open Scope Z_scope.

Record HorizonThresholds : Type := mkThresholds {
  max_xmin_age_seconds : Qc;
  max_dead_tuple_ratio : Qc;
  min_dead_tuples : Z;
  max_slot_xid_age : Z;
}.

Definition default_thresholds : HorizonThresholds :=
  mkThresholds (Qc_of_Z 300) (Q2Qc (QArith_base.Qmake 1 2)) 10000 5000000.

(** The settings as the getter gives them; [None] is a value that cannot be cast. *)
Definition thresholds_from_config (xmin_age ratio : option Qc) (dead slot : option Z) :
    HorizonThresholds :=
  let d := default_thresholds in
  mkThresholds (num_setting Qcle xmin_age (max_xmin_age_seconds d) 0%Qc)
    (num_setting Qcle ratio (max_dead_tuple_ratio d) 0%Qc)
    (num_setting Z.le dead (min_dead_tuples d) 0)
    (num_setting Z.le slot (max_slot_xid_age d) 0).

(** One verdict per input that could be measured. *)
Definition horizon_verdicts (xmin_age ratio : option Qc) (t : HorizonThresholds)
    (dead_tuples slot_xid_age : option Z) : list bool :=
  match xmin_age with
  | Some a => [bool_decide (0 < max_xmin_age_seconds t)%Qc && bool_decide (max_xmin_age_seconds t < a)%Qc]
  | None => []
  end ++
  match slot_xid_age with
  | Some s => [(0 <? max_slot_xid_age t) && (max_slot_xid_age t <? s)]
  | None => []
  end ++
  match ratio with
  | Some r =>
      [bool_decide (0 < max_dead_tuple_ratio t)%Qc
       && match dead_tuples with Some d => min_dead_tuples t <=? d | None => true end
       && bool_decide (max_dead_tuple_ratio t < r)%Qc]
  | None => []
  end.

Definition assess_horizon (xmin_age ratio : option Qc) (t : HorizonThresholds)
    (dead_tuples slot_xid_age : option Z) : health :=
  match horizon_verdicts xmin_age ratio t dead_tuples slot_xid_age with
  | [] => UNKNOWN
  | vs => if existsb id vs then DEGRADED else OK
  end.

Record horizon_metrics : Type := mkMetrics {
  oldest_xmin_age_seconds : Qc;
  slot_xid_age : Z;
  dead_tuples : Z;
  live_tuples : Z;
  dead_tuple_ratio : Qc;
}.

Definition qmax (a b : Qc) : Qc := if decide (a < b)%Qc then b else a.

(** The row of [HORIZON_SQL]; a NULL counts as 0. *)
Definition metrics_from_row (activity_age prepared_age : option Qc)
    (slot_age standby_age dead live : option Z) : horizon_metrics :=
  let dead := default 0 dead in
  let live := default 0 live in
  mkMetrics (qmax (default 0%Qc activity_age) (default 0%Qc prepared_age))
    (Z.max (default 0 slot_age) (default 0 standby_age)) dead live
    (Qc_of_Z dead / qmax (Qc_of_Z live) 1)%Qc.

(** ** Live partitions past their deadline *)

Definition assess_live_partitions (stuck_ages : list Z) (max_age : Z) : health :=
  if (0 <? max_age) && existsb (λ age, max_age <? age) stuck_ages then DEGRADED else OK.

Record catalog_row : Type := mkCatalogRow {
  cr_name : part_name;
  cr_bound : bound;
  cr_live : option Z;
}.

Definition age_ge (a b : part_name * Z * Z) : Prop := b.1.2 <= a.1.2.
#[global] Instance age_ge_dec : RelDecision age_ge.
Proof. intros a b. unfold age_ge. apply _. Defined.

(** [(name, age, estimated live rows)] of the overdue partitions, oldest first *)
Definition live_partition_candidates (rows : list catalog_row) (grace now : Z) :
    list (part_name * Z * Z) * nat :=
  let overdue := omap (λ r,
    upper ← _parse_upper_bound (cr_bound r);
    let age := now - (upper + grace) in
    if 0 <? age then Some (cr_name r, age, default 0 (cr_live r)) else None) rows in
  (order_by age_ge overdue, length overdue).

Definition MAX_PARTITION_PROBES : nat := 10.

(** [probe n]: the answer of the [EXISTS] query on [n], [None] when it raised.
    Result: ages of the drained partitions, and how many overdue partitions hold rows. *)
Fixpoint probe_loop (probe : part_name → option bool) (overdue : list (part_name * Z * Z))
    (probes : nat) (stuck : list Z) (with_rows : nat) : list Z * nat :=
  match overdue with
  | [] => (stuck, with_rows)
  | (n, age, live) :: overdue =>
      if 0 <? live then probe_loop probe overdue probes stuck (S with_rows)
      else if (probes <? MAX_PARTITION_PROBES)%nat
      then match probe n with
           | None => probe_loop probe overdue (S probes) stuck with_rows
           | Some true => probe_loop probe overdue (S probes) stuck (S with_rows)
           | Some false => probe_loop probe overdue (S probes) (stuck ++ [age]) with_rows
           end
      else probe_loop probe overdue probes (stuck ++ [age]) with_rows
  end.

Record live_report : Type := mkLiveReport {
  lr_status : health;
  lr_drained : nat;
  lr_oldest : Z;
  lr_with_rows : nat;
  lr_threshold : Z;
}.

Definition DEFAULT_STUCK_PARTITION : Z := seconds 900.

(** [None]: not partitioned. [rows] is [None] when the catalog query raised. *)
Definition check_live_partitions (grace limit : option Z) (rows : option (list catalog_row))
    (probe : part_name → option bool) (now : Z) : option live_report :=
  let grace := match grace with
               | Some g => if g =? 0 then DEFAULT_LIVE_PARTITION_GRACE else g
               | None => DEFAULT_LIVE_PARTITION_GRACE end in
  let limit := num_setting Z.le limit DEFAULT_STUCK_PARTITION 0 in
  match rows with
  | None => Some (mkLiveReport UNKNOWN 0 0 0 0)
  | Some [] => None
  | Some rows =>
      let '(overdue, _) := live_partition_candidates rows grace now in
      let '(stuck, with_rows) := probe_loop probe overdue 0 [] 0 in
      Some (mkLiveReport (assess_live_partitions stuck limit) (length stuck)
              (foldr Z.max 0 stuck) with_rows limit)
  end.

(** ** The report *)

Record horizon_report : Type := mkReport {
  hr_status : health;
  hr_xmin_status : option health;
  hr_metrics : option horizon_metrics;
  hr_rotation : option health;
  hr_live : option live_report;
}.

Definition unknown_report : horizon_report := mkReport UNKNOWN None None None None.

#[global] Instance health_eq_dec : EqDecision health.
Proof. solve_decision. Defined.

(** [metrics]: the measured row ([None]: not PostgreSQL, or the query raised); [rotation]: the
    verdict of [check_rotation] ([None]: off); [live]: the answer of [check_live_partitions]. *)
Definition check_horizon (t : HorizonThresholds) (metrics : option horizon_metrics)
    (rotation : option health) (live : option live_report) : horizon_report :=
  match metrics with
  | None => unknown_report
  | Some m =>
      let status := assess_horizon (Some (oldest_xmin_age_seconds m)) (Some (dead_tuple_ratio m)) t
                      (Some (dead_tuples m)) (Some (slot_xid_age m)) in
      let s1 := if decide (rotation = Some DEGRADED) then DEGRADED else status in
      let s2 := if decide (lr_status <$> live = Some DEGRADED) then DEGRADED else s1 in
      mkReport s2 (match rotation, live with None, None => None | _, _ => Some status end)
        (Some m) rotation live
  end.

(** ** Theorems *)

Lemma existsb_id_true vs : existsb id vs = true ↔ true ∈ vs.
Proof.
  induction vs as [|v vs IH]; simpl; [split; [done|by intros ?%elem_of_nil]|].
  rewrite orb_true_iff, IH, elem_of_cons. unfold id. split; intros [?|?]; auto.
Qed.

Lemma assess_horizon_cases a r t d s :
  (assess_horizon a r t d s = UNKNOWN ↔ a = None ∧ r = None ∧ s = None) ∧
  (assess_horizon a r t d s = DEGRADED ↔
    (∃ x, a = Some x ∧ (0 < max_xmin_age_seconds t)%Qc ∧ (max_xmin_age_seconds t < x)%Qc) ∨
    (∃ x, s = Some x ∧ 0 < max_slot_xid_age t < x) ∨
    (∃ x, r = Some x ∧ (0 < max_dead_tuple_ratio t)%Qc ∧ (max_dead_tuple_ratio t < x)%Qc ∧
          ∀ n, d = Some n → min_dead_tuples t <= n)).
Proof.
  assert (assess_horizon a r t d s = DEGRADED ↔ true ∈ horizon_verdicts a r t d s) as Hdeg.
  { unfold assess_horizon. rewrite <-existsb_id_true.
    destruct (horizon_verdicts a r t d s) as [|v vs]; [done|]. by destruct (existsb id (v :: vs)). }
  split.
  - unfold assess_horizon, horizon_verdicts. destruct a, s, r; simpl; split; intros H; try done;
      try (by destruct H as (? & ? & ?)); match type of H with (if ?b then _ else _) = _ => by destruct b end.
  - rewrite Hdeg. unfold horizon_verdicts. rewrite !elem_of_app.
    assert (∀ b : bool, true ∈ [b] ↔ b = true) as Hone.
    { intros b. rewrite list_elem_of_singleton. by split. }
    assert (true ∈ @nil bool ↔ False) as Hnil by (by rewrite elem_of_nil).
    destruct a as [x|], s as [y|], r as [z|]; rewrite ?Hone, ?Hnil, ?andb_true_iff, ?bool_decide_eq_true, ?Z.ltb_lt;
      destruct d as [n|]; rewrite ?Z.leb_le; naive_solver lia.
Qed.

(** An overdue partition without estimated rows whose probe found none. *)
Definition found_empty (probe : part_name → option bool) (x : part_name * Z * Z) : Prop :=
  x.2 <= 0 ∧ probe x.1.1 = Some false.
#[global] Instance found_empty_dec probe x : Decision (found_empty probe x).
Proof. unfold found_empty. apply _. Defined.

Definition found_rows (probe : part_name → option bool) (x : part_name * Z * Z) : Prop :=
  0 < x.2 ∨ probe x.1.1 = Some true.
#[global] Instance found_rows_dec probe x : Decision (found_rows probe x).
Proof. unfold found_rows. apply _. Defined.

(** Within the probe budget the two counts are exact. *)
Lemma probe_loop_exact probe l : ∀ k stuck w,
  (k + length l <= MAX_PARTITION_PROBES)%nat →
  probe_loop probe l k stuck w =
  (stuck ++ ((λ x, x.1.2) <$> filter (found_empty probe) l), (w + rowcount (found_rows probe) l)%nat).
Proof.
  unfold rowcount. induction l as [|[[nm age] live] l IH]; intros k stuck w Hk; simpl in *.
  { by rewrite app_nil_r, Nat.add_0_r. }
  rewrite !filter_cons. destruct (Z.ltb_spec 0 live) as [Hl|Hl].
  { rewrite IH by lia. rewrite decide_False by (intros [? _]; simpl in *; lia).
    rewrite decide_True by (left; simpl; lia). simpl. f_equal. lia. }
  rewrite (proj2 (Nat.ltb_lt _ _)) by lia.
  destruct (decide (found_empty probe (nm, age, live))) as [[_ Hp]|Hp];
    destruct (decide (found_rows probe (nm, age, live))) as [[?|Hq]|Hq]; simpl in *; try lia;
    rewrite ?Hp, ?Hq; rewrite ?IH by lia.
  - congruence.
  - by rewrite <-(assoc_L (++)).
  - f_equal. lia.
  - destruct (probe nm) as [[]|] eqn:E; [destruct Hq; by right|destruct Hp; by split|done].
Qed.

Lemma candidates_overdue rows grace now nm age live :
  (nm, age, live) ∈ (live_partition_candidates rows grace now).1 ↔
  ∃ r u, r ∈ rows ∧ _parse_upper_bound (cr_bound r) = Some u ∧ nm = cr_name r ∧
         live = default 0 (cr_live r) ∧ age = now - (u + grace) ∧ 0 < age.
Proof.
  unfold live_partition_candidates; simpl. rewrite elem_of_order_by, list_elem_of_omap. split.
  - intros (r & Hr & Hu). exists r. destruct (_parse_upper_bound (cr_bound r)) as [u|]; simpl in Hu; [|done].
    exists u. destruct (Z.ltb_spec 0 (now - (u + grace))); naive_solver.
  - intros (r & u & Hr & Hu & -> & -> & -> & Ha). exists r. split; [done|]. rewrite Hu. simpl.
    by rewrite (proj2 (Z.ltb_lt _ _) Ha).
Qed.

(** The health verdict. Without metrics the report is unknown, never ok. With metrics it is
    never unknown, and it is degraded exactly when one of the five limits is breached: the age of
    the oldest horizon holder, the xid age of a slot or standby, the dead-tuple ratio of a table
    with enough dead tuples, the rotation lag, or a live partition that stayed past its deadline. *)
Theorem health_verdict t m rotation live :
  hr_status (check_horizon t None rotation live) = UNKNOWN ∧
  hr_status (check_horizon t (Some m) rotation live) ≠ UNKNOWN ∧
  (hr_status (check_horizon t (Some m) rotation live) = DEGRADED ↔
    ((0 < max_xmin_age_seconds t)%Qc ∧ (max_xmin_age_seconds t < oldest_xmin_age_seconds m)%Qc) ∨
    0 < max_slot_xid_age t < slot_xid_age m ∨
    ((0 < max_dead_tuple_ratio t)%Qc ∧ (max_dead_tuple_ratio t < dead_tuple_ratio m)%Qc ∧
       min_dead_tuples t <= dead_tuples m) ∨
    rotation = Some DEGRADED ∨ lr_status <$> live = Some DEGRADED).
Proof.
  split; [done|]. simpl.
  destruct (assess_horizon_cases (Some (oldest_xmin_age_seconds m)) (Some (dead_tuple_ratio m)) t
    (Some (dead_tuples m)) (Some (slot_xid_age m))) as [Hu Hd].
  set (a := assess_horizon _ _ _ _ _) in *.
  assert (a ≠ UNKNOWN) by (intros (? & _)%Hu; done).
  split; [by repeat case_decide|]. 
  assert (a = DEGRADED ↔
    ((0 < max_xmin_age_seconds t)%Qc ∧ (max_xmin_age_seconds t < oldest_xmin_age_seconds m)%Qc) ∨
    0 < max_slot_xid_age t < slot_xid_age m ∨
    ((0 < max_dead_tuple_ratio t)%Qc ∧ (max_dead_tuple_ratio t < dead_tuple_ratio m)%Qc ∧
       min_dead_tuples t <= dead_tuples m)) as Ha by (rewrite Hd; clear; naive_solver).
  clearbody a. repeat case_decide; simpl; tauto.
Qed.

Lemma assess_live_partitions_spec ages limit :
  assess_live_partitions ages limit = DEGRADED ↔ 0 < limit ∧ ∃ a, a ∈ ages ∧ limit < a.
Proof.
  unfold assess_live_partitions. destruct (Z.ltb_spec 0 limit) as [Hl|Hl]; simpl; [|naive_solver lia].
  destruct (existsb (λ age, limit <? age) ages) eqn:He.
  - apply existsb_exists in He as (a & Ha & Hlt%Z.ltb_lt). apply list_elem_of_In in Ha. naive_solver.
  - split; [done|]. intros (_ & a & Ha & Hlt). assert (existsb (λ age, limit <? age) ages = true); [|congruence].
    apply existsb_exists. exists a. split; [by apply list_elem_of_In|by apply Z.ltb_lt].
Qed.

(** Overdue live partitions. As long as at most ten partitions are overdue (the probe budget),
    the report is degraded exactly when a partition past its deadline, without estimated rows and
    found empty by its probe, is older than the limit; a partition with rows never degrades it. *)
Theorem stuck_partitions_reported grace limit rows probe now r :
  check_live_partitions (Some grace) limit (Some rows) probe now = Some r → 0 < grace →
  ((live_partition_candidates rows grace now).2 <= MAX_PARTITION_PROBES)%nat →
  (lr_status r = DEGRADED ↔
    0 < lr_threshold r ∧ ∃ c u, c ∈ rows ∧ _parse_upper_bound (cr_bound c) = Some u ∧
      default 0 (cr_live c) <= 0 ∧ probe (cr_name c) = Some false ∧
      u + grace < now ∧ lr_threshold r < now - (u + grace)).
Proof.
  unfold check_live_partitions. intros Hr Hg Hlen. destruct rows as [|r0 rows0]; [done|].
  set (rows := r0 :: rows0) in *. rewrite (proj2 (Z.eqb_neq grace 0)) in Hr by lia.
  destruct (live_partition_candidates rows grace now) as [overdue n] eqn:Hc.
  assert (length overdue = n) as Hn.
  { unfold live_partition_candidates in Hc. injection Hc as <- <-. unfold order_by.
    by rewrite merge_sort_Permutation. }
  rewrite probe_loop_exact in Hr by (simpl in *; lia). simpl in Hr. injection Hr as <-. simpl.
  rewrite assess_live_partitions_spec. apply and_iff_compat_l.
  assert (overdue = (live_partition_candidates rows grace now).1) as -> by (by rewrite Hc).
  split.
  - intros (a & Ha & Hlt). apply list_elem_of_fmap in Ha as ([[nm age] live] & -> & Hin).
    apply list_elem_of_filter in Hin as [[Hl Hp] Hin].
    apply candidates_overdue in Hin as (c & u & Hcr & Hu & -> & -> & -> & Hage). simpl in *.
    exists c, u. split_and!; [done..|lia|done].
  - intros (c & u & Hcr & Hu & Hl & Hp & Hage & Hlt). exists (now - (u + grace)). split; [|done].
    apply list_elem_of_fmap. exists (cr_name c, now - (u + grace), default 0 (cr_live c)).
    split; [done|]. apply list_elem_of_filter. split; [done|]. apply candidates_overdue.
    exists c, u. split_and!; [done..|lia].
Qed.

Definition demo_catalog : list catalog_row :=
  [mkCatalogRow (NOther "default") BDefault (Some 3);
   mkCatalogRow (NMinute 0) (BRange 0 (seconds 60)) (Some 0);
   mkCatalogRow (NMinute 1) (BRange (seconds 60) (seconds 120)) (Some 7)].

Lemma stuck_partitions_reported_witness :
  ∃ r, check_live_partitions (Some (seconds 60)) None (Some demo_catalog) (λ _, Some false)
         (seconds 3600) = Some r ∧ lr_status r = DEGRADED.
Proof.
  eexists. split; [vm_compute; reflexivity|].
  refine (proj2 (stuck_partitions_reported (seconds 60) None demo_catalog (λ _, Some false) (seconds 3600) _
    _ _ _) _); [vm_compute; reflexivity|done|vm_compute; lia|].
  split; [done|]. exists (mkCatalogRow (NMinute 0) (BRange 0 (seconds 60)) (Some 0)), (seconds 60).
  split; [right; left|]. by vm_compute.
Defined.
