(* ===== verification/Claiming.v ===== *)
(** * The framework-agnostic claim (core/claiming.py)

    [claim_next_job_with_queue_priority] scans pages of candidates, checks tag limits and
    dependencies and claims the first job that passes. It is written against the abstract backend
    of compat; so is this model: [ClaimBackend] has the backend calls as functions on a world [W],
    [ClaimLaws] what the scan relies on, and the theorems are proved for every backend that obeys
    them. [Django] is the backend that uses this scan ([DjangoClaim] discharges the laws). *)

From S2P Require Import Prelude PyString Models Retry RateLimit.
#[local] Open Scope string_scope.
#[local] Open Scope list_scope.
#[local] Open Scope Z_scope.

(** Exceptions of the backend: a conflict with another worker ([ConcurrentModificationError],
    [JobFencingError]) or anything else. *)
Inductive backend_error : Type :=
  | LostRace
  | BackendError.

Definition _is_lost_race (e : backend_error) : bool :=
  match e with LostRace => true | BackendError => false end.

(** [W] is the database, [J] a candidate as [get_claimable_jobs] returns it, [H] the handle of a
    claim. *)
Class ClaimBackend (W J H : Type) : Type := {
  cb_id : J → Z;
  cb_tags : J → list string;
  cb_has_dependencies : J → bool;
  cb_ttl : J → option Z;
  cb_expired : W → list J;
  cb_expire : J → string → string → W → W * result backend_error bool;
  cb_claimable : nat → list Z → W → W * list J;
  cb_tag_locks : list string → W → bool;
  cb_running_with_tag : string → W → Z;
  cb_started_with_tag_since : string → Z → W → Z;
  cb_dependencies_met : J → W → bool * list Z * bool;
  cb_fail_waiting : J → string → string → W → W * result backend_error unit;
  cb_block : J → W → W;
  cb_claim : J → W → W * option H;
}.

Section Claiming.
Context {W J H : Type} `{CB : ClaimBackend W J H}.
(** [now] and the configured limits *)
Context (now : Z) (tag_limits : list (string * Z)) (tag_rate_limits : list (string * string)).

Definition assoc_get {A} (k : string) (l : list (string * A)) : option A :=
  snd <$> head (filter (λ p, p.1 = k) l).

(** [limit <= running] for the tag of one iteration *)
Definition tag_full (tag : string) (w : W) : bool :=
  match assoc_get tag tag_limits with
  | None => false
  | Some limit => limit <=? cb_running_with_tag tag w
  end.

Definition check_tag_concurrency_limits (j : J) (w : W) : bool :=
  forallb (λ tag, negb (tag_full tag w)) (cb_tags j).

(** An invalid rate limit is logged and ignored. *)
Definition tag_too_fast (tag : string) (w : W) : bool :=
  match assoc_get tag tag_rate_limits with
  | None => false
  | Some s =>
      if decide (s = "") then false
      else match parse_rate_limit s with
           | Err _ => false
           | Ok (count, window) => count <=? cb_started_with_tag_since tag (now - window) w
           end
  end.

Definition check_tag_rate_limits (j : J) (w : W) : bool :=
  forallb (λ tag, negb (tag_too_fast tag w)) (cb_tags j).

Inductive dependency_outcome : Type := DepMet | DepPending | DepFailed | DepSkip.

(** [dependency_state]: a job with a failed dependency is failed here. *)
Definition dependency_state (j : J) (w : W) : W * result backend_error dependency_outcome :=
  if negb (cb_has_dependencies j) then (w, Ok DepMet)
  else
    let r := cb_dependencies_met j w in
    if match r with (_, [], false) => false | _ => true end then
      match cb_fail_waiting j (String.append "Dependencies failed: " (py_str_list r.1.2))
              "dependency_failed" w with
      | (w', Ok _) => (w', Ok DepFailed)
      | (w', Err e) => if _is_lost_race e then (w', Ok DepSkip) else (w', Err e)
      end
    else if r.1.1 then (w, Ok DepMet) else (w, Ok DepPending).

Definition check_job_dependencies (j : J) (w : W) : W * result backend_error bool :=
  match dependency_state j w with
  | (w', Ok DepMet) => (w', Ok true)
  | (w', Ok _) => (w', Ok false)
  | (w', Err e) => (w', Err e)
  end.

Definition expiry_text (j : J) : string :=
  String.append "Job expired after "
    (String.append (match cb_ttl j with Some t => py_str_int t | None => "None" end) "s in queue").

Fixpoint expire_loop (jobs : list J) (count : nat) (w : W) : W * result backend_error nat :=
  match jobs with
  | [] => (w, Ok count)
  | j :: jobs =>
      match cb_expire j (expiry_text j) "expired" w with
      | (w', Ok true) => expire_loop jobs (S count) w'
      | (w', Ok false) => expire_loop jobs count w'
      | (w', Err e) => if _is_lost_race e then expire_loop jobs count w' else (w', Err e)
      end
  end.

Definition expire_ttl_jobs (w : W) : W * result backend_error nat := expire_loop (cb_expired w) 0 w.

Definition limited (j : J) : list string :=
  filter (λ t, t ∈ tag_rate_limits.*1 ∨ t ∈ tag_limits.*1) (cb_tags j).

(** The checks before the dependencies: tag locks, concurrency, rate. *)
Definition tags_allow (j : J) (w : W) : bool :=
  (match limited j with [] => true | ts => cb_tag_locks (merge_sort String.le ts) w end)
  && check_tag_concurrency_limits j w && check_tag_rate_limits j w.

Fixpoint _claim_from_candidates (candidates : list J) (w : W)
    : W * result backend_error (option (J * H)) :=
  match candidates with
  | [] => (w, Ok None)
  | j :: candidates =>
      if negb (tags_allow j w) then _claim_from_candidates candidates w
      else
        match dependency_state j w with
        | (w1, Err e) => (w1, Err e)
        | (w1, Ok DepPending) => _claim_from_candidates candidates (cb_block j w1)
        | (w1, Ok DepMet) =>
            match cb_claim j w1 with
            | (w2, Some h) => (w2, Ok (Some (j, h)))
            | (w2, None) => _claim_from_candidates candidates w2
            end
        | (w1, Ok _) => _claim_from_candidates candidates w1
        end
  end.

Inductive claim_result : Type :=
  | Claimed (j : J) (h : H)
  | NothingToClaim
  | ClaimRaised (e : backend_error)
  | ClaimNoFuel.

Fixpoint claim_pages (fuel : nat) (page : nat) (seen : list Z) (w : W) : W * claim_result :=
  match fuel with
  | O => (w, ClaimNoFuel)
  | S fuel =>
      let '(w1, found) := cb_claimable page seen w in
      let candidates := filter (λ j, cb_id j ∉ seen) found in
      match candidates with
      | [] => (w1, NothingToClaim)
      | _ =>
          match _claim_from_candidates candidates w1 with
          | (w2, Ok (Some (j, h))) => (w2, Claimed j h)
          | (w2, Ok None) => claim_pages fuel page (seen ++ (cb_id <$> candidates)) w2
          | (w2, Err e) => (w2, ClaimRaised e)
          end
      end
  end.

Definition claim_next_job_with_queue_priority (fuel max_attempts : nat) (w : W) : W * claim_result :=
  match expire_ttl_jobs w with
  | (w1, Err e) => (w1, ClaimRaised e)
  | (w1, Ok _) => claim_pages fuel max_attempts [] w1
  end.

(** ** The interface

    [ok]: the states the backend works in. [pool w]: the ids a page may name; the calls of the scan
    only take ids out of it. [known w j]: the candidate is still what the page said of it. *)
Class ClaimLaws (ok : W → Prop) (pool : W → list Z) (known : W → J → Prop) (step : relation W) : Prop := {
  cl_refl : ∀ w, ok w → step w w;
  cl_trans : ∀ w1 w2 w3, step w1 w2 → step w2 w3 → step w1 w3;
  cl_ok : ∀ w w', step w w' → ok w';
  cl_pool : ∀ w w', step w w' → pool w' ⊆ pool w;
  cl_known : ∀ w w' j, step w w' → known w j → known w' j;
  cl_page : ∀ n seen w w' js, ok w → cb_claimable n seen w = (w', js) →
    step w w' ∧ ∀ j, j ∈ js → cb_id j ∈ pool w ∧ known w' j;
  cl_fail : ∀ j e r w, ok w → known w j →
    step w (cb_fail_waiting j e r w).1 ∧ (cb_fail_waiting j e r w).2 ≠ Err BackendError;
  cl_expire : ∀ j e r w, ok w → known w j →
    step w (cb_expire j e r w).1 ∧ (cb_expire j e r w).2 ≠ Err BackendError;
  cl_expired : ∀ w j, ok w → j ∈ cb_expired w → known w j;
  cl_block : ∀ j w, ok w → known w j → step w (cb_block j w);
  cl_none : ∀ j w w', ok w → known w j → cb_claim j w = (w', None) → step w w';
}.

Section laws.
Context {ok : W → Prop} {pool : W → list Z} {known : W → J → Prop} {step : relation W}.
Context `{CL : !ClaimLaws ok pool known step}.
#[local] Set Default Proof Using "Type CL".

Lemma dependency_state_step j w w' r :
  ok w → known w j → dependency_state j w = (w', r) →
  step w w' ∧ (∀ e, r ≠ Err e) ∧ (r = Ok DepMet → w' = w ∧
    (cb_has_dependencies j = true → cb_dependencies_met j w = (true, [], false))).
Proof.
  intros Ho Hk. unfold dependency_state. destruct (cb_has_dependencies j); simpl.
  2:{ intros [= <- <-]. split_and!; [by apply cl_refl|done..]. }
  destruct (cb_dependencies_met j w) as [[met failed] other] eqn:Hd.
  destruct failed as [|f failed]; [destruct other|]; simpl.
  2:{ destruct met; intros [= <- <-]; (split_and!; [by apply cl_refl|done..]). }
  all: destruct (cb_fail_waiting j _ "dependency_failed" w) as [w1 [[]|e]] eqn:Hf;
    match type of Hf with cb_fail_waiting _ ?err ?reason _ = _ =>
      destruct (cl_fail j err reason w Ho Hk) as [Hs He]; rewrite Hf in Hs, He; simpl in Hs, He end;
    [|destruct e]; intros [= <- <-]; try done; (split_and!; done).
Qed.

(** A scan of a page that claims nothing is a step; one that claims stops at the first candidate
    that passes: the candidates before it alone claim nothing and lead to the state it is claimed
    in. *)
Lemma claim_from_candidates_spec candidates : ∀ w w' r,
  ok w → (∀ j, j ∈ candidates → known w j) → _claim_from_candidates candidates w = (w', r) →
  match r with
  | Ok (Some (j, h)) => ∃ l1 l2 w0, candidates = l1 ++ j :: l2 ∧
      _claim_from_candidates l1 w = (w0, Ok None) ∧ step w w0 ∧ known w0 j ∧
      tags_allow j w0 = true ∧
      (cb_has_dependencies j = true → cb_dependencies_met j w0 = (true, [], false)) ∧
      cb_claim j w0 = (w', Some h)
  | Ok None => step w w'
  | Err _ => False
  end.
Proof.
  induction candidates as [|j l IH]; intros w w' r Ho Hk; simpl.
  { intros [= <- <-]. by apply cl_refl. }
  assert (known w j) as Hkj by (apply Hk; by left).
  assert (∀ w1 r, step w w1 → _claim_from_candidates l w1 = (w', r) →
    (∀ l1, _claim_from_candidates (j :: l1) w = _claim_from_candidates l1 w1) →
    match r with
    | Ok (Some (j', h)) => ∃ l1 l2 w0, j :: l = l1 ++ j' :: l2 ∧
        _claim_from_candidates l1 w = (w0, Ok None) ∧ step w w0 ∧ known w0 j' ∧
        tags_allow j' w0 = true ∧
        (cb_has_dependencies j' = true → cb_dependencies_met j' w0 = (true, [], false)) ∧
        cb_claim j' w0 = (w', Some h)
    | Ok None => step w w'
    | Err _ => False
    end) as Hnext.
  { intros w1 r1 Hs Hc Hskip. specialize (IH w1 w' r1 (cl_ok _ _ Hs)).
    assert (∀ j, j ∈ l → known w1 j) as Hk1 by (intros; eapply cl_known; [done|]; apply Hk; by right).
    specialize (IH Hk1 Hc). destruct r1 as [[[j' h]|]|e]; [|by eapply cl_trans|done].
    destruct IH as (l1 & l2 & w0 & -> & Hn & Hs0 & Hk0 & Ht & Hd & Hcl).
    exists (j :: l1), l2, w0. split_and!; [done|by rewrite Hskip|by eapply cl_trans|done..]. }
  destruct (tags_allow j w) eqn:Ht; simpl.
  2:{ intros Hc. apply (Hnext w r); [by apply cl_refl|done|]. intros l1. simpl. by rewrite Ht. }
  destruct (dependency_state j w) as [w1 d] eqn:Hd.
  destruct (dependency_state_step j w w1 d Ho Hkj Hd) as (Hs1 & Hne & Hmet).
  destruct d as [d|e]; [|by destruct (Hne e)]. destruct d.
  - destruct (Hmet eq_refl) as [-> Hm]. destruct (cb_claim j w) as [w2 [h|]] eqn:Hcl.
    + intros [= <- <-]. exists [], l, w. split_and!; [done|done|by apply cl_refl|done..].
    + intros Hc. apply (Hnext w2 r); [by eapply cl_none|done|]. intros l1. simpl. by rewrite Ht, Hd, Hcl.
  - intros Hc. apply (Hnext (cb_block j w1) r); [|done|].
    + eapply cl_trans; [done|]. apply cl_block; [by eapply cl_ok|by eapply cl_known].
    + intros l1. simpl. by rewrite Ht, Hd.
  - intros Hc. apply (Hnext w1 r); [done..|]. intros l1. simpl. by rewrite Ht, Hd.
  - intros Hc. apply (Hnext w1 r); [done..|]. intros l1. simpl. by rewrite Ht, Hd.
Qed.

(** Ids a page can still bring up. *)
Definition unseen (seen : list Z) (w : W) : nat :=
  length (filter (λ i, i ∉ seen) (remove_dups (pool w))).

Lemma unseen_less (seen new p p' : list Z) x :
  p' ⊆ p → x ∈ p → x ∉ seen → x ∈ new →
  (length (filter (λ i, i ∉ seen ++ new) (remove_dups p')) <
   length (filter (λ i, i ∉ seen) (remove_dups p)))%nat.
Proof.
  intros Hp Hx Hs Hn.
  assert (length (x :: filter (λ i, i ∉ seen ++ new) (remove_dups p')) <=
          length (filter (λ i, i ∉ seen) (remove_dups p)))%nat; [|simpl in *; lia].
  apply submseteq_length, NoDup_submseteq.
  - apply NoDup_cons. split; [|apply NoDup_filter, NoDup_remove_dups].
    rewrite list_elem_of_filter, elem_of_app. tauto.
  - intros y [->|Hy]%elem_of_cons; rewrite list_elem_of_filter, elem_of_remove_dups; [done|].
    apply list_elem_of_filter in Hy as [Hy Hy']. rewrite elem_of_remove_dups in Hy'.
    rewrite elem_of_app in Hy. split; [tauto|auto].
Qed.

Lemma claim_pages_spec fuel page : ∀ seen w w' r,
  ok w → (unseen seen w < fuel)%nat → claim_pages fuel page seen w = (w', r) →
  match r with
  | Claimed j h => ∃ w0, step w w0 ∧ known w0 j ∧ tags_allow j w0 = true ∧
      (cb_has_dependencies j = true → cb_dependencies_met j w0 = (true, [], false)) ∧
      cb_claim j w0 = (w', Some h)
  | NothingToClaim => step w w'
  | ClaimRaised _ | ClaimNoFuel => False
  end.
Proof.
  induction fuel as [|fuel IH]; intros seen w w' r Ho Hf; simpl; [lia|].
  destruct (cb_claimable page seen w) as [w1 found] eqn:Hp.
  destruct (cl_page _ _ _ _ _ Ho Hp) as [Hs1 Hfound].
  destruct (filter (λ j, cb_id j ∉ seen) found) as [|j0 l] eqn:Hcand.
  { by intros [= <- <-]. }
  assert (∀ j, j ∈ j0 :: l → j ∈ found ∧ cb_id j ∉ seen) as Hin.
  { intros j. rewrite <-Hcand. intros [? ?]%list_elem_of_filter. done. }
  destruct (_claim_from_candidates (j0 :: l) w1) as [w2 r1] eqn:Hc.
  pose proof (claim_from_candidates_spec (j0 :: l) w1 w2 r1 (cl_ok _ _ Hs1)
    (λ j Hj, proj2 (Hfound j (proj1 (Hin j Hj)))) Hc) as Hspec.
  destruct r1 as [[[j h]|]|e].
  - intros [= <- <-]. destruct Hspec as (_ & _ & w0 & _ & _ & Hs0 & Hk & Ht & Hd & Hcl).
    exists w0. split; [by eapply cl_trans|done].
  - intros Hgo. pose proof (cl_trans _ _ _ Hs1 Hspec) as Hs2.
    apply IH in Hgo; [|by eapply cl_ok|].
    + destruct r as [j h| | |]; [|by eapply cl_trans|done..].
      destruct Hgo as (w0 & Hs0 & Hrest). exists w0. split; [by eapply cl_trans|done].
    + destruct (Hin j0) as [Hj0 Hn0]; [by left|]. destruct (Hfound j0 Hj0) as [Hpool _].
      assert (unseen (seen ++ (cb_id <$> j0 :: l)) w2 < unseen seen w)%nat; [|lia].
      apply (unseen_less seen _ (pool w) (pool w2) (cb_id j0)); [by apply cl_pool|done|done|].
      apply list_elem_of_fmap_2. by left.
  - done.
Qed.

Lemma expire_loop_step jobs : ∀ k w, ok w → (∀ j, j ∈ jobs → known w j) →
  step w (expire_loop jobs k w).1 ∧ ∀ e, (expire_loop jobs k w).2 ≠ Err e.
Proof.
  induction jobs as [|j jobs IH]; intros k w Ho Hk; simpl; [split; [by apply cl_refl|done]|].
  destruct (cl_expire j (expiry_text j) "expired" w Ho (Hk j (list_elem_of_here _ _))) as [Hs He].
  destruct (cb_expire j _ "expired" w) as [w1 r]. simpl in Hs, He.
  assert (∀ j, j ∈ jobs → known w1 j) by (intros; eapply cl_known; [done|]; apply Hk; by right).
  assert (∀ k, step w (expire_loop jobs k w1).1 ∧ ∀ e, (expire_loop jobs k w1).2 ≠ Err e) as Hgo.
  { intros k'. destruct (IH k' w1) as [? ?]; [by eapply cl_ok|done|]. split; [by eapply cl_trans|done]. }
  destruct r as [[]|[]]; simpl; [apply Hgo..|done].
Qed.

End laws.

(** The shared claim scan. For every backend that obeys the laws: with fuel for every id of the
    pool the scan returns (a page always brings up an id it has not seen, and the ids only become
    fewer); what it claims passed the tag locks, the concurrency and rate limits and the dependency
    check in the very state it was claimed in; what it does besides is made of steps of the
    backend; and no exception escapes it, a lost race being skipped. *)
Lemma claim_next_spec ok pool known step `{CL : !ClaimLaws ok pool known step} fuel page w w' r :
  ok w → (length (remove_dups (pool w)) < fuel)%nat →
  claim_next_job_with_queue_priority fuel page w = (w', r) →
  match r with
  | Claimed j h => ∃ w0, step w w0 ∧ known w0 j ∧ tags_allow j w0 = true ∧
      (cb_has_dependencies j = true → cb_dependencies_met j w0 = (true, [], false)) ∧
      cb_claim j w0 = (w', Some h)
  | NothingToClaim => step w w'
  | ClaimRaised _ | ClaimNoFuel => False
  end.
Proof.
  intros Ho Hf. unfold claim_next_job_with_queue_priority.
  destruct (expire_loop_step (cb_expired w) 0 w Ho (λ j, cl_expired w j Ho)) as [Hs He].
  unfold expire_ttl_jobs.
  destruct (expire_loop (cb_expired w) 0 w) as [w1 [n|e]]; simpl in Hs, He; [|by destruct (He e)].
  intros Hc. apply claim_pages_spec in Hc; [|by eapply cl_ok|].
  - destruct r as [j h| | |]; [|by eapply cl_trans|done..].
    destruct Hc as (w0 & Hs0 & Hrest). exists w0. split; [by eapply cl_trans|done].
  - eapply Nat.le_lt_trans; [|exact Hf]. unfold unseen. etrans; [apply length_filter|].
    apply submseteq_length, NoDup_submseteq; [apply NoDup_remove_dups|]. intros x.
    rewrite !elem_of_remove_dups. by apply (cl_pool w w1 Hs).
Qed.

End Claiming.
