(* ===== verification/Django.v ===== *)
(** * The Django integration (django_sqlery)

    The Django models and backend work on the same tables as the standalone backend, through the
    ORM: ready.py (entries, blocked set, release of dependents), history.py (the move into
    history), models.py ([JobAttempt], [QueuedJob.mark_success], [mark_failed],
    [fail_dependent_jobs], [check_dependencies_met], [save]), db_compat.py ([judge_claim]) and the
    operations of backend.py around them. They are modelled on the [store] of [Store]; definitions
    keep the names of the Python functions, so the standalone counterparts are written qualified.

    [webhook_url] tells which jobs have a webhook (a column the shared row does not carry): such a
    job stays in the live table when it finishes, until the delivery resolves. A dependency value
    that is not a number is never found (the ORM refuses it or compares it unequal). *)

From S2P Require Import Prelude Sql PyString Models Retry Attempts Ready History Store StoreInv Dependents Claim Complete.
#[local] Open Scope string_scope.
#[local] Open Scope Z_scope.

(** ** ready.py *)

(** Ids among [job_ids] that have an open attempt. *)
Definition running_ids (st : store) (job_ids : list Z) : list Z :=
  filter (λ i, i ∈ job_ids) (at_job_id <$> filter (λ a, at_finished_at a = None) (attempts st)).

Definition entry_for (j : queued_job) (slot : Z) : job_ready :=
  {| re_slot := slot; re_job_id := j_id j; re_queue_name := js_queue_name (j_spec j);
     re_priority := js_priority (j_spec j); re_created_at := j_created_at j;
     re_scheduled_at := js_scheduled_at (j_spec j) |}.

Definition add (ev : env) (jobs : list queued_job) (fresh : bool) (st : store) : store :=
  let jobs :=
    if fresh then jobs
    else let running := running_ids st (j_id <$> jobs) in filter (λ j, j_id j ∉ running) jobs in
  match jobs with
  | [] => st
  | _ => with_ready (insert_all_nothing ready_key (ready st)
                       ((λ j, entry_for j (e_slot ev)) <$> jobs)) st
  end.

(** [wait=False] leaves entries alone that another transaction holds locked. *)
Definition remove (ids : list Z) (st : store) : store :=
  with_blocked (delete_where (λ b, bl_job_id b ∈ ids) (blocked st))
    (with_ready (delete_where (λ e, re_slot e ∈ SLOTS ∧ re_job_id e ∈ ids) (ready st)) st).

Definition remove_nowait (ev : env) (ids : list Z) (st : store) : store :=
  with_blocked (delete_where (λ b, bl_job_id b ∈ ids) (blocked st))
    (with_ready (delete_where (λ e, re_slot e ∈ SLOTS ∧ re_job_id e ∈ ids ∧
                   e_entry_locked ev (re_job_id e) = false) (ready st)) st).

(** The entries of a job before its row is saved; [true]: an entry was updated. *)
Definition before_save (j : queued_job) (st : store) : store * bool :=
  if decide (j_status j = Queued)
  then (update_ready j st, bool_decide (0 < rowcount (entry_of [j_id j]) (ready st))%nat)
  else (remove [j_id j] st, false).

Definition after_save (ev : env) (j : queued_job) (adding entry_updated : bool) (st : store) : store :=
  if negb (bool_decide (j_status j = Queued)) || entry_updated then st
  else if adding || negb (exists_where (λ b, bl_job_id b = j_id j) (blocked st))
  then add ev [j] adding st
  else st.

(** ** models.py: attempts *)

Definition open_new (ev : env) (j : queued_job) (worker : option Z) (st : store)
    : store * AttemptHandle := _open_attempt ev (j_id j) worker st.

Definition close (ev : env) (h : AttemptHandle) (o : attempt_outcome) (st : store)
    : store * result store_error unit :=
  (with_attempts (update_where (exact_open h) (close_attempt (e_now ev) o) (attempts st)) st,
   decide_close (rowcount (exact_open h) (attempts st)) h).

Definition close_open (ev : env) (id : Z) (o : attempt_outcome) (st : store) : store * nat :=
  (with_attempts (update_where (open_for id) (close_attempt (e_now ev) o) (attempts st)) st,
   rowcount (open_for id) (attempts st)).

(** ** history.py *)

(** [INSERT INTO history .. SELECT], then [DELETE], both with the same WHERE clause. *)
Definition move (ev : env) (id : Z) (created : time) (status : job_status) (v : move_values)
    (expected : option Z) (require_status : option (list job_status))
    (require_idle close_attempts : bool) (st : store) : store * result store_error bool :=
  let f := {| fe_created_at := Some created; fe_version := expected; fe_status := require_status;
              fe_idle := require_idle |} in
  let rows := filter (move_where st id f) (live st) in
  let inserted := with_history (history st ++ (history_row (e_now ev) (attempts st) status v <$> rows)) st in
  if decide (length rows = 1%nat) then
    let moved := with_live (delete_where (move_where st id f) (live st)) inserted in
    (if close_attempts
     then with_attempts (update_where (open_for id)
            (close_attempt (e_now ev) (if decide (status = Success) then OSuccess else OAbandoned))
            (attempts moved)) moved
     else moved, Ok true)
  else (inserted, Ok false).

(** ** models.py: dependencies *)

Definition dependency_key (v : json) : option Z := match v with JNum n => Some n | _ => None end.

(** The dependencies no job is found for; a value that is no number counts as one. *)
Definition missing_dependencies (st : store) (deps : list json) : list Z * bool :=
  (filter (λ d, anywhere_by_id st d = None) (omap dependency_key deps),
   existsb (λ v, if dependency_key v then false else true) deps).

Fixpoint dependencies_loop (st : store) (deps : list queued_job) (failed : list Z)
    : bool * list Z :=
  match deps with
  | [] => match failed with [] => (true, []) | _ => (false, failed) end
  | dep :: deps =>
      let dep := follow_retries (latest_retry st) MAX_CHAIN_HOPS dep in
      match j_status dep with
      | Success => dependencies_loop st deps failed
      | Failed => dependencies_loop st deps (failed ++ [j_id dep])
      | _ => (false, [])
      end
  end.

(** [(all_met, failed)]; the boolean of the third component is a missing non-numeric value. *)
Definition check_dependencies_met (st : store) (j : queued_job) : bool * list Z * bool :=
  match js_dependencies (j_spec j) with
  | [] => (true, [], false)
  | deps =>
      match missing_dependencies st deps with
      | ([], false) =>
          (dependencies_loop st
             (filter (λ d, j_id d ∈ omap dependency_key deps) (job_all st)) [], false)
      | (missing, other) => (false, missing, other)
      end
  end.

Definition deps_failed (r : bool * list Z * bool) : bool :=
  match r with (_, [], false) => false | _ => true end.

(** ** models.py: completion *)

Inductive django_error : Type :=
  | ConcurrentModificationError
  | FencingError
  | NoFuel.

Definition clip2000 (s : string) : string := String.substring 0 2000 s.

(** [_attempt_columns] of an object that shows its open attempt, and [started_at] after it. *)
Definition shown_started (j : queued_job) (a : option job_attempt) : option time :=
  coalesce (at_claimed_at <$> a) (jr_started_at (j_run j)).

Definition dj_record_run (j : queued_job) (a : option job_attempt) (now : time)
    (status : job_status) (output error : string) : list run_record :=
  let started := shown_started j a in
  jr_runs (j_run j) ++
    [ {| rr_attempt_number := js_retry_count (j_spec j);
         rr_started_at := coalesce (jr_started_at (j_run j)) started;
         rr_finished_at := Some now; rr_status := status;
         rr_duration := (λ s, now - s) <$> started;
         rr_output := clip2000 output; rr_error := clip2000 error |} ].

Definition final_values (j : queued_job) (a : option job_attempt) (now : time)
    (status : job_status) (output error traceback reason : string) : move_values :=
  let '(s, w, p, c) := attempt_values a in
  {| mv_finished_at := Some now;
     mv_duration := Some ((λ s, now - s) <$> shown_started j a);
     mv_output := if decide (status = Success) then Some output else None;
     mv_error := if decide (status = Success) then None else Some error;
     mv_traceback := if decide (status = Success) then None else Some traceback;
     mv_termination_reason := if decide (status = Success) then None else Some reason;
     mv_runs := Some (dj_record_run j a now status output error);
     mv_started_at := s; mv_worker_id := w; mv_worker_pid := p; mv_child_pid := c |}.

(** [update_in_place(status, version + 1, values)] of the row with the fences of the caller *)
Definition update_in_place (id : Z) (f : fences) (status : job_status) (v : move_values)
    (st : store) : store * nat :=
  (with_live (update_where (move_where st id f)
                (λ j, with_run (apply_values status v (j_run j)) j) (live st)) st,
   rowcount (move_where st id f) (live st)).

(** [_close_attempt] of a completion *)
Definition dj_close_attempt (ev : env) (id : Z) (attempt : option AttemptHandle)
    (o : attempt_outcome) (st : store) : store * result store_error unit :=
  match attempt with
  | Some h => close ev h o st
  | None => ((close_open ev id (unfenced_outcome o) st).1, Ok tt)
  end.

(** [_release_worker]: only if the worker still points at this job. *)
Definition _release_worker (ev : env) (worker : option Z) (id : Z) (st : store) : store :=
  match worker with
  | None => st
  | Some w =>
      with_workers (update_where (λ r, w_id r = w ∧ w_current_job_id r = Some id)
        (λ r, {| w_id := w_id r; w_node_id := w_node_id r; w_pid := w_pid r; w_status := Idle;
                 w_current_job_id := None; w_jobs_processed := w_jobs_processed r; w_last_heartbeat := e_now ev |})
        (workers st)) st
  end.

(** Waiting jobs that name [id] among their dependencies. *)
Definition dependent_jobs (st : store) (id : Z) : list queued_job :=
  filter (λ j, waiting_clause (attempts st) j = true ∧
               Some id ∈ (dependency_key <$> js_dependencies (j_spec j))) (live st).

(** The loop of [fail_dependent_jobs]: a lost race is skipped. *)
Definition fail_dependents_loop (fail : queued_job → store → store * result django_error unit)
    (deps : list queued_job) (st : store) : store * result django_error unit :=
  foldl (λ acc dep,
    match acc with
    | (s, Err e) => (s, Err e)
    | (s, Ok _) =>
        match fail dep s with
        | (s', Err ConcurrentModificationError) => (s', Ok tt)
        | r => r
        end
    end) (st, Ok tt) deps.

Section Django.
Context (webhook_url : Z → bool).

(** The transaction of [mark_failed]. [shown] is the open attempt the object shows. *)
Definition failed_txn (ev : env) (j : queued_job) (error traceback reason : string)
    (attempt : option AttemptHandle) (idle_only : bool) (st : store)
    : store * result django_error unit :=
  let shown := if idle_only then None else open_attempt_of (attempts st) (j_id j) in
  let v := final_values j shown (e_now ev) Failed "" error traceback reason in
  let f := {| fe_created_at := Some (j_created_at j); fe_version := Some (j_version j);
              fe_status := None; fe_idle := idle_only |} in
  let was_queued := idle_only || (bool_decide (j_status j = Queued) && negb (if shown then true else false)) in
  let st1 := if was_queued then remove [j_id j] st else st in
  let '(st2, closed) := if idle_only then (st1, Ok tt) else dj_close_attempt ev (j_id j) attempt OFailed st1 in
  match closed with
  | Err _ => (st, Err FencingError)
  | Ok _ =>
      if is_retry_pending (Some reason) || webhook_url (j_id j) then
        match update_in_place (j_id j) f Failed v st2 with
        | (st3, 1%nat) => (st3, Ok tt)
        | _ => (st, Err ConcurrentModificationError)
        end
      else
        match move ev (j_id j) (j_created_at j) Failed v (Some (j_version j)) None idle_only true st2 with
        | (st3, Ok true) => (st3, Ok tt)
        | _ => (st, Err ConcurrentModificationError)
        end
  end.

(** [mark_failed] and [fail_dependent_jobs]: after the transaction the worker is released and the
    waiting jobs that depend on this one are failed in turn, a lost race being skipped. *)
Fixpoint mark_failed (fuel : nat) (ev : env) (j : queued_job) (error traceback reason : string)
    (attempt : option AttemptHandle) (idle_only : bool) (st : store)
    : store * result django_error unit :=
  match fuel with
  | O => (st, Err NoFuel)
  | S fuel =>
      match failed_txn ev j error traceback reason attempt idle_only st with
      | (st1, Err e) => (st1, Err e)
      | (st1, Ok _) =>
          let worker := match (if idle_only then None else open_attempt_of (attempts st) (j_id j)) with
                        | Some a => at_worker_id a
                        | None => jr_worker_id (j_run j)
                        end in
          let st2 := _release_worker ev worker (j_id j) st1 in
          fail_dependents_loop (λ dep, mark_failed fuel ev dep
              (String.append "Dependency failed: job " (py_str_int (j_id j))) ""
              "dependency_failed" None true) (dependent_jobs st2 (j_id j)) st2
      end
  end.

(** Every failure but the first is of a job that waits and then waits no more, so one step more
    than the number of live jobs is enough ([mark_failed_total]). *)
Definition mark_failed_now (ev : env) (j : queued_job) (error traceback reason : string)
    (attempt : option AttemptHandle) (idle_only : bool) (st : store)
    : store * result django_error unit :=
  mark_failed (S (S (length (live st)))) ev j error traceback reason attempt idle_only st.

(** The transaction of [mark_success]. *)
Definition success_txn (ev : env) (j : queued_job) (output : string)
    (attempt : option AttemptHandle) (st : store) : store * result django_error unit :=
  let shown := open_attempt_of (attempts st) (j_id j) in
  let v := final_values j shown (e_now ev) Success output "" "" "" in
  let f := {| fe_created_at := Some (j_created_at j); fe_version := Some (j_version j);
              fe_status := None; fe_idle := false |} in
  match dj_close_attempt ev (j_id j) attempt OSuccess st with
  | (_, Err _) => (st, Err FencingError)
  | (st1, Ok _) =>
      if webhook_url (j_id j) then
        match update_in_place (j_id j) f Success v st1 with
        | (st2, 1%nat) => (st2, Ok tt)
        | _ => (st, Err ConcurrentModificationError)
        end
      else
        match move ev (j_id j) (j_created_at j) Success v (Some (j_version j)) None false
                (if attempt then false else true) st1 with
        | (st2, Ok true) => (st2, Ok tt)
        | _ => (st, Err ConcurrentModificationError)
        end
  end.

(** ** ready.py: the blocked set *)

Definition recheck_blocked (ev : env) (id : Z) (created : time) (st : store)
    : store * result django_error recheck_outcome :=
  let drop := with_blocked (delete_where (λ b, bl_job_id b = id) (blocked st)) st in
  match job_by_key st id created with
  | None => (drop, Ok RGone)
  | Some j =>
      if negb (bool_decide (j_status j = Queued)) || bool_decide (id ∈ running_ids st [id])
      then (drop, Ok RGone)
      else
        let r := check_dependencies_met st j in
        if deps_failed r then
          match mark_failed_now ev j (String.append "Dependencies failed: " (py_str_list r.1.2)) ""
                  "dependency_failed" None true st with
          | (st', Ok _) => (st', Ok RFailed)
          | (_, Err ConcurrentModificationError) => (st, Ok RGone)
          | (_, Err e) => (st, Err e)
          end
        else if negb r.1.1 then (st, Ok RBlocked)
        else (add ev [j] false drop, Ok RReady)
  end.

(** [block]: the re-check runs after the surrounding transaction committed. *)
Definition block (ev : env) (j : queued_job) (st : store) : store * option (Z * time) :=
  match dependency_ids (j_spec j) with
  | [] => (st, None)
  | deps =>
      if decide (rowcount (λ e, re_slot e ∈ SLOTS ∧ re_job_id e = j_id j) (ready st) < 1)%nat
      then (st, None)
      else
        (with_blocked (insert_all_nothing blocked_key (blocked st)
           ((λ d, {| bl_job_id := j_id j; bl_dependency_id := d; bl_created_at := j_created_at j;
                     bl_blocked_at := e_now ev |}) <$> deps))
           (with_ready (delete_where (λ e, re_slot e ∈ SLOTS ∧ re_job_id e = j_id j) (ready st)) st),
         Some (j_id j, j_created_at j))
  end.

(** ** db_compat.py and backend.py: the claim *)

Inductive claim_judgement : Type := JOk | JKeep | JRestore.

Definition judge_claim (ev : env) (j : queued_job) (st : store) : claim_judgement :=
  match job_by_key st (j_id j) (j_created_at j) with
  | None => JKeep
  | Some row =>
      if e_row_locked ev (j_id j) then JRestore
      else
        let running := open_attempt_exists (attempts st) (j_id j) in
        match claim_verdict (Some (j_status row)) (Some (j_version row)) (Some (j_version j)) running with
        | VOk => JOk
        | VStale => if negb (bool_decide (j_status row = Queued)) || running then JKeep else JRestore
        end
  end.

(** [slot] is the slot of the entry the candidate was read through. *)
Definition atomic_claim_job (ev : env) (j : queued_job) (slot : option Z) (worker : option Z)
    (st : store) : store * option AttemptHandle :=
  let slots := match slot with Some s => [s] | None => SLOTS end in
  let mine e := re_slot e ∈ slots ∧ re_job_id e = j_id j in
  if decide (rowcount mine (ready st) < 1)%nat then (st, None)
  else
    let st1 := with_ready (delete_where mine (ready st)) st in
    match judge_claim ev j st1 with
    | JOk => let '(st2, h) := open_new ev j worker st1 in (st2, Some h)
    | JKeep => (st1, None)
    | JRestore => (st, None)
    end.

(** [ORDER BY queue_priority DESC, priority DESC, created_at, job_id] *)
Definition weighted_le (weights : list (string * Z)) (queues : list string) (a b : job_ready) : Prop :=
  let w e := default 0 (snd <$> first_where (λ p, p.1 = re_queue_name e ∧ p.1 ∈ queues) weights) in
  w b < w a ∨ (w a = w b ∧ entry_le a b).
#[global] Instance weighted_le_dec weights queues a b : Decision (weighted_le weights queues a b).
Proof. unfold weighted_le. apply _. Defined.

(** The row behind an entry: by both columns of the key, else by the id alone. *)
Definition entry_job (st : store) (e : job_ready) : option queued_job :=
  match job_by_key st (re_job_id e) (re_created_at e) with
  | Some j => Some j
  | None => job_by_id st (re_job_id e)
  end.

Definition entry_usable (st : store) (e : job_ready) : bool :=
  match entry_job st e with
  | Some j => bool_decide (j_status j = Queued)
              && negb (open_attempt_exists (attempts st) (re_job_id e))
  | None => false
  end.

(** The candidates of one page, each with the slot of its entry, and the stale entries removed. *)
Definition get_claimable_jobs (ev : env) (queues : list string) (weights : list (string * Z))
    (limit : nat) (exclude_ids : list Z) (st : store) : store * list (queued_job * Z) :=
  let entries := take limit (order_by (weighted_le weights queues)
    (filter (λ e, entry_due queues (e_now ev) e ∧ re_job_id e ∉ exclude_ids ∧
                  e_entry_locked ev (re_job_id e) = false) (ready st))) in
  let stale := re_job_id <$> filter (λ e, entry_usable st e = false) entries in
  (match stale with [] => st | _ => remove stale st end,
   omap (λ e, (λ j, (j, re_slot e)) <$> entry_job st e) (filter (λ e, entry_usable st e = true) entries)).

Definition get_expired_ttl_jobs (ev : env) (st : store) : list queued_job :=
  filter (λ j, waiting_clause (attempts st) j = true ∧
    match js_ttl (j_spec j) with
    | Some t => j_created_at j + seconds t <? e_now ev
    | None => false
    end = true) (live st).

Definition expire_queued_job (ev : env) (j : queued_job) (error reason : string) (st : store)
    : store * result django_error bool :=
  match mark_failed_now ev j error "" reason None true st with
  | (st', Ok _) => (st', Ok true)
  | (st', Err ConcurrentModificationError) => (st', Ok false)
  | (st', Err e) => (st', Err e)
  end.

Definition count_running_with_tag (st : store) (tag : string) : Z :=
  Z.of_nat (rowcount (λ j, running_clause (attempts st) j = true ∧ tag ∈ js_tags (j_spec j)) (live st)).

Definition count_started_with_tag_since (st : store) (tag : string) (threshold : time) : Z :=
  _count_tag_in_session st tag [Running; Success; Failed] (Some threshold).

(** ** Other operations of the backend *)

Definition release_job (ev : env) (id : Z) (st : store) : store :=
  match first_where (λ j, j_id j = id ∧ j_status j = Queued) (live st) with
  | None => st
  | Some j =>
      let '(st1, closed) := close_open ev id OAbandoned st in
      if decide (closed < 1)%nat then st else add ev [j] false st1
  end.

(** The transaction of [cancel_job] on a live job; its dependents are released afterwards. *)
Definition cancel_txn (ev : env) (id : Z) (st : store) : store * bool :=
  match first_where (λ j, j_id j = id ∧ waiting_clause (attempts st) j = true) (live st) with
  | None => (st, false)
  | Some j =>
      match move ev id (j_created_at j) Failed
              {| mv_finished_at := None; mv_duration := None; mv_output := None;
                 mv_error := Some "Cancelled by user"; mv_traceback := None;
                 mv_termination_reason := None; mv_runs := None; mv_started_at := None;
                 mv_worker_id := None; mv_worker_pid := None; mv_child_pid := None |}
              None (Some [Queued]) true true (remove [id] st) with
      | (st', Ok true) => (st', true)
      | _ => (st, false)
      end
  end.

Definition settle_retry_pending (ev : env) (id : Z) (st : store) : store * bool :=
  match first_where (λ j, j_id j = id ∧ j_status j = Failed) (live st) with
  | None => (st, false)
  | Some j =>
      match move ev id (j_created_at j) Failed
              (reason_values (settled_termination_reason (Some (jr_termination_reason (j_run j)))))
              None (Some [Failed]) false true st with
      | (st', Ok true) => (st', true)
      | (st', _) => (st', false)
      end
  end.

Definition claim_job_by_id (ev : env) (id : Z) (worker : option Z) (st : store)
    : store * option (queued_job * AttemptHandle) :=
  if e_entry_locked ev id && exists_where (entry_of [id]) (ready st) then (st, None)
  else
    match first_where (λ j, j_id j = id ∧ waiting_clause (attempts st) j = true) (live st) with
    | None => (st, None)
    | Some j =>
        let st1 := remove [id] st in
        match judge_claim ev j st1 with
        | JOk => let '(st2, h) := open_new ev j worker st1 in (st2, Some (_as_running j h, h))
        | _ => (st, None)
        end
    end.

End Django.
