(* ===== verification/DjangoInv.v ===== *)
(** * What the Django operations do to the store

    The equations with the standalone operations (entries, the move into history, the release of a
    claim), what a failure of a waiting job and of its dependents preserves, and that the failure
    cascade ends. *)

From S2P Require Import Prelude Sql PyString Models Retry Attempts Ready History Store StoreInv Dependents Claim Complete Django.
#[local] Open Scope string_scope.
#[local] Open Scope list_scope.
#[local] Open Scope Z_scope.

(** ** Equations with the standalone backend *)

Lemma remove_drops ids st : remove ids st = _drop_entries ids st.
Proof. reflexivity. Qed.

Lemma elem_of_running_ids st ids i : i ∈ running_ids st ids ↔ i ∈ ids ∧ _is_running st i = true.
Proof.
  unfold running_ids. rewrite list_elem_of_filter, list_elem_of_fmap, is_running_true.
  split.
  - intros [Hi (a & -> & [Ho Ha]%list_elem_of_filter)]. split; [done|]. by exists a.
  - intros [Hi (a & Ha & Hj & Ho)]. split; [done|]. exists a. split; [done|]. by apply list_elem_of_filter.
Qed.

Lemma running_ids_single st id : bool_decide (id ∈ running_ids st [id]) = _is_running st id.
Proof.
  destruct (_is_running st id) eqn:Hrun; [apply bool_decide_true|apply bool_decide_false];
    rewrite elem_of_running_ids, Hrun, list_elem_of_singleton; [done|by intros [_ ?]].
Qed.

Lemma add_writes ev jobs fresh st : add ev jobs fresh st = write_ready ev jobs fresh st.
Proof.
  unfold add, write_ready.
  assert ((if fresh then jobs else filter (λ j, j_id j ∉ running_ids st (j_id <$> jobs)) jobs) =
    (if fresh then jobs else filter (λ j, _is_running st (j_id j) = false) jobs)) as ->.
  { destruct fresh; [done|]. apply filter_iff_on. intros j Hj. rewrite elem_of_running_ids.
    assert (j_id j ∈ j_id <$> jobs) by (by apply list_elem_of_fmap_2).
    destruct (_is_running st (j_id j)); split; intros H'; try done; [by destruct H'|by intros [_ ?]]. }
  destruct (if fresh then jobs else _) as [|j l]; [|done]. by destruct st.
Qed.

(** [move] is the terminal transition of the standalone backend. *)
Lemma move_finishes ev id created status v expected rs idle st :
  wf st →
  move ev id created status v expected rs idle true st =
  _finish_in ev id status v
    {| fe_created_at := Some created; fe_version := expected; fe_status := rs; fe_idle := idle |} st.
Proof.
  intros Hwf. set (f := {| fe_created_at := _ |}).
  destruct (finish_in_cases ev id status v f st Hwf) as [(j & Hj & Hm & Heq)|[Hn Heq]];
    unfold _finish_in, move in *; fold f.
  - destruct (filter (move_where st id f) (live st)) as [|j' [|j'' l]] eqn:Hf; try done.
  - rewrite (filter_none (move_where st id f) (live st)) by done. simpl. f_equal. rewrite app_nil_r.
    by destruct st.
Qed.

Lemma release_job_same ev id st : wf st → Django.release_job ev id st = Complete.release_job ev id st.
Proof.
  intros Hwf. unfold Django.release_job, Complete.release_job, close_open.
  destruct (job_by_id st id) as [j|] eqn:Hj.
  - apply job_by_id_Some in Hj as [Hl Hid]; [|done].
    destruct (first_where (λ j, j_id j = id ∧ j_status j = Queued) (live st)) as [j'|] eqn:Hf.
    + apply first_where_Some in Hf as (Hl' & Hid' & Hs').
      assert (j' = j) as -> by (eapply live_inj; [done|done|done|congruence]).
      rewrite bool_decide_true by done. simpl. case_decide; [done|]. by rewrite add_writes.
    + rewrite first_where_None in Hf. rewrite bool_decide_false; [done|]. intros Hs. by apply (Hf j Hl).
  - rewrite job_by_id_None in Hj.
    destruct (first_where (λ j, j_id j = id ∧ j_status j = Queued) (live st)) as [j'|] eqn:Hf; [|done].
    apply first_where_Some in Hf as (Hl' & Hid' & _). by destruct (Hj j' Hl').
Qed.

(** The cancellation of a live job is that of the standalone backend before its dependents are
    released. *)
Lemma cancel_txn_same ev id st :
  wf st →
  match cancel_txn ev id st with
  | (st', true) => cancel_job ev id st = (_release_dependents_quietly ev id None st', Ok true)
  | (st', false) => st' = st ∧ cancel_job ev id st = cancel_staged ev id st
  end.
Proof.
  intros Hwf. unfold cancel_txn, cancel_job.
  destruct (first_where _ (live st)) as [j|]; [|done].
  rewrite move_finishes, remove_drops by (by apply wf_drop_entries). unfold _drop_entries.
  match goal with |- context [_finish_in ?e ?i ?s ?v ?f ?st1] =>
    destruct (finish_in_cases e i s v f st1) as [(j' & _ & _ & ->)|[_ ->]] end; [|done|done].
  by apply wf_delete_blocked, wf_delete_ready.
Qed.

(** ** What a failure preserves *)

(** Nothing new runs or waits, rows keep their identity, and a changed row has a higher version. *)
Record dstep (X : list Z) (st st' : store) : Prop := {
  ds_sound : sound X st st';
  ds_ready : ready st' ⊆ ready st;
  ds_attempts : attempts st' = attempts st;
  ds_seq : attempt_seq st' = attempt_seq st;
  ds_rows : ∀ j', j' ∈ live st' → ∃ j, j ∈ live st ∧ j_id j' = j_id j ∧ j_spec j' = j_spec j ∧
    (j' = j ∨ (j_version j < j_version j' ∧ j_status j' ≠ Queued));
  ds_ids : job_ids st' ⊆ job_ids st;
  ds_kept : ∀ j, j ∈ live st → j_status j ≠ Queued → j ∈ live st';
}.

(** A job object read while the job was queued: the row is still that one or has moved on. *)
Definition reads (st : store) (j : queued_job) : Prop :=
  j_status j = Queued ∧ ∀ j', j' ∈ live st → j_id j' = j_id j →
    j_spec j' = j_spec j ∧ (j' = j ∨ j_version j < j_version j').

Section dstep.
Context {X : list Z}.

Lemma dstep_refl st : inv X st → dstep X st st.
Proof. intros Hi. split; [by apply sound_refl|done..| |done|done]. intros j Hj. exists j. auto. Qed.

Lemma dstep_trans s1 s2 s3 : dstep X s1 s2 → dstep X s2 s3 → dstep X s1 s3.
Proof.
  intros [S1 R1 A1 Q1 L1 I1 K1] [S2 R2 A2 Q2 L2 I2 K2].
  split; [by eapply sound_trans|by etrans|congruence..| |by etrans|by auto].
  intros j3 Hj3. destruct (L2 j3 Hj3) as (j2 & Hj2 & Hid2 & Hsp2 & Hv2).
  destruct (L1 j2 Hj2) as (j1 & Hj1 & Hid1 & Hsp1 & Hv1). exists j1.
  split_and!; [done|congruence..|]. destruct Hv2 as [->|[Hv2 Hs2]]; [done|]. right. split; [|done].
  destruct Hv1 as [->|[Hv1 _]]; lia.
Qed.

Lemma dstep_inv st st' : dstep X st st' → inv X st'.
Proof. intros H. apply H. Qed.

Lemma dstep_reads st st' j : dstep X st st' → reads st j → reads st' j.
Proof.
  intros Hd [Hs Hr]. split; [done|]. intros j' Hj' Hid.
  destruct (ds_rows _ _ _ Hd j' Hj') as (j0 & Hj0 & Hid0 & Hsp0 & Hv0).
  destruct (Hr j0 Hj0) as [Hsp Hv]; [congruence|]. split; [congruence|].
  destruct Hv0 as [->|[Hv0 _]]; [done|]. right. destruct Hv as [->|]; lia.
Qed.

Lemma dstep_waiting st st' j : dstep X st st' → waiting st' j → waiting st j.
Proof.
  intros Hd (Hj & Hs & Hr). destruct (ds_rows _ _ _ Hd j Hj) as (j0 & Hj0 & _ & _ & [->|[_ ?]]); [|done].
  split_and!; [done..|]. by rewrite <-Hr; unfold _is_running; rewrite (ds_attempts _ _ _ Hd).
Qed.

Lemma waiting_clause_waiting st j :
  j ∈ live st → waiting_clause (attempts st) j = true → waiting st j.
Proof.
  unfold waiting_clause, waiting, _is_running. intros Hj [Hs%bool_decide_eq_true Hr%negb_true_iff]%andb_true_iff.
  by split_and!.
Qed.

Lemma waiting_reads st j : wf st → waiting st j → reads st j.
Proof.
  intros Hwf (Hj & Hs & _). split; [done|]. intros j' Hj' Hid.
  rewrite (live_inj st Hwf j' j Hj' Hj Hid). auto.
Qed.

(** The entries of a job that goes with them, and a change of the worker table. *)
Lemma dstep_workers st w : inv X st → dstep X st (with_workers w st).
Proof.
  intros [Hwf Hc]. split; [|done..| |done|done].
  - split; [split|by apply evolves_entries]; [by destruct Hwf; split|]. exact Hc.
  - intros j Hj. exists j. auto.
Qed.

Lemma release_worker_dstep ev w id st : inv X st → dstep X st (_release_worker ev w id st).
Proof. intros Hi. destruct w; [by apply dstep_workers|by apply dstep_refl]. Qed.
End dstep.

(** The jobs that wait, of which a failure leaves one less. *)
Definition waiting_jobs (st : store) : list queued_job :=
  filter (λ j, waiting_clause (attempts st) j = true) (live st).

Lemma elem_of_waiting_jobs st j : j ∈ waiting_jobs st ↔ waiting st j.
Proof.
  unfold waiting_jobs, waiting_clause, waiting, _is_running. rewrite list_elem_of_filter.
  rewrite andb_true_iff, bool_decide_eq_true, negb_true_iff. tauto.
Qed.

Lemma dstep_fewer X st st' j :
  dstep X st st' → wf st' → waiting st j → ¬ waiting st' j →
  (length (waiting_jobs st') < length (waiting_jobs st))%nat.
Proof.
  intros Hd Hwf' Hw Hn. assert (length (j :: waiting_jobs st') <= length (waiting_jobs st))%nat; [|simpl in *; lia].
  apply submseteq_length, NoDup_submseteq.
  - apply NoDup_cons. split; [by rewrite elem_of_waiting_jobs|]. apply NoDup_filter.
    eapply NoDup_fmap_1, wf_live_ids, Hwf'.
  - intros x [->|Hx]%elem_of_cons; rewrite ?elem_of_waiting_jobs in *; [done|]. by eapply dstep_waiting.
Qed.

Lemma dstep_not_more X st st' : dstep X st st' → wf st' →
  (length (waiting_jobs st') <= length (waiting_jobs st))%nat.
Proof.
  intros Hd Hwf'. apply submseteq_length, NoDup_submseteq.
  - apply NoDup_filter. eapply NoDup_fmap_1, wf_live_ids, Hwf'.
  - intros x. rewrite !elem_of_waiting_jobs. by eapply dstep_waiting.
Qed.

(** ** Failing a waiting job *)

Section fail.
Context {X : list Z} (webhook_url : Z → bool) (ev : env).
#[local] Set Default Proof Using "Type".

Lemma update_in_place_dstep id f v st st' :
  inv (id :: X) st → (∀ row, row ∈ live st → move_where st id f row → j_status row = Queued) →
  update_in_place id f Failed v st = (st', 1%nat) →
  (∃ row, row ∈ live st ∧ move_where st id f row) ∧ dstep X st st' ∧ ∀ j, waiting st' j → j_id j ≠ id.
Proof.
  intros [Hwf Hc] Hqd H. unfold update_in_place in H. injection H as <- Hn.
  assert (∃ row, row ∈ live st ∧ move_where st id f row) as (row & Hrow & Hm)
    by (apply (rowcount_pos (move_where st id f)); lia).
  set (g := λ j, with_run (apply_values Failed v (j_run j)) j).
  assert (∀ j', j' ∈ update_where (move_where st id f) g (live st) →
    ∃ j, j ∈ live st ∧ j_id j' = j_id j ∧ j_spec j' = j_spec j ∧
      ((j' = j ∧ j_id j ≠ id) ∨ (j_version j < j_version j' ∧ j_status j' ≠ Queued))) as Hrows.
  { intros j' (j & Hj & ->)%elem_of_update_where. exists j. split; [done|]. case_decide as Hmj; simpl.
    - split_and!; [done..|]. right. split; [lia|done].
    - split_and!; [done..|]. left. split; [done|]. intros Hid. apply Hmj.
      by rewrite (live_inj st Hwf j row Hj Hrow (eq_trans Hid (eq_sym (proj1 Hm)))). }
  assert (∀ j, waiting (with_live (update_where (move_where st id f) g (live st)) st) j → j ∈ live st ∧ j_id j ≠ id) as Hwait.
  { intros j (Hj & Hs & _). destruct (Hrows j Hj) as (j0 & Hj0 & _ & _ & [[-> ?]|[_ ?]]); done. }
  split; [by exists row|]. split; [split|].
  - split; [split|].
    + by apply wf_update_live.
    + apply (covered_frame _ _ _ _ Hc). intros j Hw HX. destruct (Hwait j Hw) as [Hj Hne]. right.
      destruct Hw as (_ & Hs & Hr). split; [by rewrite not_elem_of_cons|]. split; [|done]. by exists j.
    + by apply evolves_update_live.
  - done.
  - done.
  - done.
  - intros j' Hj'. destruct (Hrows j' Hj') as (j & ? & ? & ? & [[-> _]|?]); exists j; auto.
  - by apply job_ids_update_live.
  - intros j Hj Hs. apply elem_of_update_where. exists j. split; [done|]. case_decide; [|done].
    by destruct Hs; apply Hqd.
  - intros j Hw. by apply Hwait.
Qed.

Lemma finish_in_dstep id v f st st' :
  inv (id :: X) st → fe_idle f = true →
  (∀ row, row ∈ live st → move_where st id f row → j_status row = Queued) → _finish_in ev id Failed v f st = (st', Ok true) →
  (∃ row, row ∈ live st ∧ move_where st id f row) ∧ dstep X st st' ∧ ∀ j, waiting st' j → j_id j ≠ id.
Proof.
  intros [Hwf Hc] Hidle Hqd Hf. pose proof Hf as Hf1. pose proof Hf as Hf2. pose proof Hf as Hf3. pose proof Hf as Hf4.
  apply (finish_in_true (X:=X)) in Hf as (? & ? & ?); [|done..].
  apply finish_in_idle_attempts in Hf1 as [Ha Hq]; [|done..].
  pose proof (finish_in_ids _ _ _ _ _ _ _ _ Hf2) as Hids. apply finish_in_subset in Hf2. pose proof (finish_in_ready _ _ _ _ _ _ _ _ Hf3) as Hr.
  split; [|split].
  - destruct (finish_in_cases ev id Failed v f st Hwf) as [(j & ? & ? & _)|[_ Heq]]; [by exists j|congruence].
  - split; [split; [split|]; done|by rewrite Hr|done|done| |done|]; [intros j Hj; exists j; auto|].
    intros j Hj Hs. destruct (finish_in_cases ev id Failed v f st Hwf) as [(row & Hrow & Hm & Heq)|[_ Heq]];
      [|congruence]. rewrite Heq in Hf4. injection Hf4 as <-. apply finished_live; [done..|]. split; [done|].
    intros Hid. destruct Hs. apply Hqd; [done|].
    by rewrite (live_inj st Hwf j row Hj Hrow (eq_trans Hid (eq_sym (proj1 Hm)))).
  - intros j (Hj & _) Hid. by apply (finish_in_gone _ _ _ _ _ _ _ Hwf Hf4 j).
Qed.

Lemma inv_remove id st : inv X st → inv (id :: X) (remove [id] st).
Proof.
  intros [Hwf Hc]. split; [by apply wf_drop_entries|]. by apply covered_drop_entries.
Qed.

Lemma dstep_after_remove id st st' : dstep X (remove [id] st) st' → dstep X st st'.
Proof.
  intros [[Hi He] Hr Ha Hq Hl Hids Hk]. split; [|..|by eauto|done|done].
  - split; [done|]. etrans; [apply (drop_entries_job [id])|done].
  - intros e [He' _]%Hr%elem_of_delete_where. done.
  - done.
  - done.
Qed.

(** The transaction either fails the row that was read, which then waits no more, or loses the race
    and changes nothing. *)
Lemma failed_txn_idle j error traceback reason st st' r :
  inv X st → reads st j → failed_txn webhook_url ev j error traceback reason None true st = (st', r) →
  (r = Ok tt ∧ dstep X st st' ∧ (∀ x, waiting st' x → j_id x ≠ j_id j) ∧
     ∃ row, row ∈ live st ∧ j_id row = j_id j ∧ j_version row = j_version j ∧
       _is_running st (j_id j) = false) ∨
  (r = Err ConcurrentModificationError ∧ st' = st).
Proof.
  intros Hi Hrd. unfold failed_txn. cbn [orb]. pose proof (inv_remove (j_id j) st Hi) as Hi1.
  set (f := {| fe_created_at := Some (j_created_at j) |}).
  set (v := final_values _ _ _ _ _ _ _ _).
  assert (∀ row, row ∈ live st ∧ move_where (remove [j_id j] st) (j_id j) f row →
    ∃ row, row ∈ live st ∧ j_id row = j_id j ∧ j_version row = j_version j ∧ _is_running st (j_id j) = false) as Hrow.
  { intros row [Hl (Hid & _ & Hv & _ & Hr)]. exists row. split_and!; [done|done|by symmetry|].
    rewrite <-Hid. by apply Hr. }
  assert (∀ row, row ∈ live (remove [j_id j] st) → move_where (remove [j_id j] st) (j_id j) f row →
    j_status row = Queued) as Hqd.
  { intros row Hl (Hid & _ & Hv & _). simpl in Hv. destruct (proj2 Hrd row Hl Hid) as [_ [->|]]; [apply Hrd|lia]. }
  destruct (is_retry_pending (Some reason) || webhook_url (j_id j)).
  - destruct (update_in_place (j_id j) f Failed v (remove [j_id j] st)) as [st3 n] eqn:Hu.
    destruct n as [|[|n]]; try (intros [= <- <-]; by right). intros [= <- <-]. left.
    apply update_in_place_dstep in Hu as ((row & Hrw) & Hd & Hw); [|done..]. split_and!; [done| |done|by apply (Hrow row)].
    by eapply dstep_after_remove.
  - rewrite move_finishes by apply Hi1. fold f.
    destruct (_finish_in ev (j_id j) Failed v f (remove [j_id j] st)) as [st3 [[]|e]] eqn:Hf;
      try (intros [= <- <-]; by right). intros [= <- <-]. left.
    apply finish_in_dstep in Hf as ((row & Hrw) & Hd & Hw); [|done..]. split_and!; [done| |done|by apply (Hrow row)].
    by eapply dstep_after_remove.
Qed.

(** A waiting job that was read as it is fails. *)
Lemma failed_txn_waiting j error traceback reason st :
  wf st → waiting st j →
  ∃ st', failed_txn webhook_url ev j error traceback reason None true st = (st', Ok tt).
Proof.
  intros Hwf (Hj & _ & Hr). unfold failed_txn. cbn [orb].
  set (f := {| fe_created_at := Some (j_created_at j) |}). set (v := final_values _ _ _ _ _ _ _ _).
  set (st1 := remove [j_id j] st). assert (wf st1) as Hwf1 by (by apply wf_drop_entries).
  assert (move_where st1 (j_id j) f j) as Hm by (split_and!; by simpl).
  assert (filter (move_where st1 (j_id j) f) (live st1) = [j]) as Hf.
  { apply filter_unique; [eapply NoDup_fmap_1, wf_live_ids, Hwf1|done|done|].
    intros x Hx [Hid _]. by eapply live_inj. }
  destruct (is_retry_pending (Some reason) || webhook_url (j_id j)).
  - unfold update_in_place, rowcount. rewrite Hf. by eexists.
  - unfold move. fold f. rewrite Hf. by eexists.
Qed.

(** The loop over the dependents: each waiting one is failed, and none of them waits afterwards. *)
Lemma fail_dependents_spec fail deps st :
  inv X st → (∀ x, x ∈ deps → waiting st x) →
  (∀ s x s' r, dstep X st s → x ∈ deps → fail x s = (s', r) →
     dstep X s s' ∧ (r = Ok tt ∨ (r = Err ConcurrentModificationError ∧ s' = s)) ∧
     (r = Ok tt → ∀ y, waiting s' y → j_id y ≠ j_id x) ∧ (waiting s x → r = Ok tt)) →
  ∃ st', fail_dependents_loop fail deps st = (st', Ok tt) ∧ dstep X st st' ∧
    ∀ x, x ∈ deps → ∀ y, waiting st' y → j_id y ≠ j_id x.
Proof.
  intros Hi Hw Hfail. unfold fail_dependents_loop.
  match goal with |- ∃ _, foldl ?F _ _ = _ ∧ _ => set (F0 := F) end.
  assert (∀ l s, dstep X st s → l ⊆ deps →
    ∃ s', foldl F0 (s, Ok tt) l = (s', Ok tt) ∧ dstep X s s' ∧
      ∀ x, x ∈ l → ∀ y, waiting s' y → j_id y ≠ j_id x) as Hfold; [|by apply Hfold; [apply dstep_refl|]].
  induction l as [|x l IH]; intros s Hs Hsub; simpl.
  { exists s. split_and!; [done|by eapply dstep_refl, dstep_inv|]. by intros x ?%elem_of_nil. }
  assert (x ∈ deps) as Hx by (apply Hsub, list_elem_of_here).
  assert (l ⊆ deps) as Hl by (intros y Hy; apply Hsub; by right).
  destruct (fail x s) as [s1 r] eqn:Hf. destruct (Hfail s x s1 r Hs Hx Hf) as (Hd & Hr & Hgone & Hok).
  destruct (IH s1) as (s' & Heq & Hd' & Hrest); [by eapply dstep_trans|done|].
  exists s'. split_and!.
  - destruct Hr as [->|[-> ->]]; done.
  - by eapply dstep_trans.
  - intros y [->|Hy]%elem_of_cons z Hz Hid; [|by eapply Hrest].
    assert (waiting s1 z) as Hz1 by (by eapply dstep_waiting).
    destruct Hr as [->|[-> ->]]; [by apply (Hgone eq_refl z)|].
    assert (z = x) as ->; [|by specialize (Hok Hz1)].
    eapply live_inj; [apply Hi|eapply dstep_waiting; [exact Hs|done]|by apply Hw|done].
Qed.

(** The cascade: with more fuel than waiting jobs it ends, raises nothing but a lost race at its
    root, and only fails jobs. *)
Lemma mark_failed_idle fuel : ∀ j error traceback reason st st' r,
  inv X st → reads st j → (length (waiting_jobs st) < fuel)%nat →
  mark_failed webhook_url fuel ev j error traceback reason None true st = (st', r) →
  dstep X st st' ∧ (r = Ok tt ∨ (r = Err ConcurrentModificationError ∧ st' = st)) ∧
  (r = Ok tt → ∀ x, waiting st' x → j_id x ≠ j_id j) ∧ (waiting st j → r = Ok tt).
Proof.
  induction fuel as [|fuel IH]; intros j error traceback reason st st' r Hi Hr Hfuel; [lia|]. simpl.
  destruct (failed_txn webhook_url ev j error traceback reason None true st) as [st1 r1] eqn:Hf.
  pose proof Hf as Hf'. apply failed_txn_idle in Hf' as [(-> & Hd & Hw & row & Hrow & Hid & Hv & Hrun)|[-> ->]]; [| |done..].
  2:{ intros [= <- <-]. split_and!; [by apply dstep_refl|by right|done|]. intros Hwj.
      destruct (failed_txn_waiting j error traceback reason st (proj1 Hi) Hwj) as [? Heq]. congruence. }
  assert (row = j) as -> by (destruct (proj2 Hr row Hrow Hid) as [_ [->|]]; [done|lia]).
  pose proof (release_worker_dstep ev (jr_worker_id (j_run j)) (j_id j) st1 (dstep_inv _ _ Hd)) as Hd2.
  set (st2 := _release_worker ev (jr_worker_id (j_run j)) (j_id j) st1) in *.
  assert (dstep X st st2) as Hd3 by (by eapply dstep_trans).
  assert (inv X st2) as Hi2 by (by eapply dstep_inv).
  assert (∀ x, waiting st2 x → j_id x ≠ j_id j) as Hgone.
  { intros x Hx. apply Hw. by eapply dstep_waiting. }
  assert (length (waiting_jobs st2) < length (waiting_jobs st))%nat as Hless.
  { apply (dstep_fewer X st st2 j); [done|by eapply inv_wf| |by intros ?%Hgone].
    split_and!; [done|by apply Hr|done]. }
  clearbody st2.
  match goal with |- fail_dependents_loop ?f ?d _ = _ → _ => destruct (fail_dependents_spec f d st2) as (s' & -> & Hs' & _) end.
  - done.
  - intros x [[Hx _] Hl]%list_elem_of_filter. by apply waiting_clause_waiting.
  - intros s x s1 r1 Hs Hx Hm. pose proof (dstep_not_more X st2 s Hs (inv_wf X _ (dstep_inv _ _ Hs))).
    apply IH in Hm; [done|by eapply dstep_inv| |lia]. eapply dstep_reads; [exact Hs|].
    apply list_elem_of_filter in Hx as [[Hx _] Hl]. eapply waiting_reads; [by eapply inv_wf|by apply waiting_clause_waiting].
  - intros [= <- <-]. split_and!; [by eapply dstep_trans|by left| |done]. intros _ x Hx.
    apply Hgone. by eapply dstep_waiting.
Qed.

Lemma length_waiting_jobs st : (length (waiting_jobs st) <= length (live st))%nat.
Proof. apply length_filter. Qed.

Lemma mark_failed_now_idle j error traceback reason st st' r :
  inv X st → reads st j →
  mark_failed_now webhook_url ev j error traceback reason None true st = (st', r) →
  dstep X st st' ∧ (r = Ok tt ∨ (r = Err ConcurrentModificationError ∧ st' = st)) ∧
  (r = Ok tt → ∀ x, waiting st' x → j_id x ≠ j_id j) ∧ (waiting st j → r = Ok tt).
Proof.
  intros Hi Hr. apply mark_failed_idle; [done..|]. pose proof (length_waiting_jobs st). lia.
Qed.
End fail.
