(* ===== verification/DjangoClaim.v ===== *)
(** * The claim of the Django backend (django_sqlery/backend.py over core/claiming.py)

    [DjangoBackend.claim_job] runs the shared scan of [Claiming] over the Django operations. The
    world of the scan is the store and the re-checks that run once the claim transaction has
    committed. The laws of [ClaimLaws] are discharged here. *)

From S2P Require Import Prelude Sql PyString Models Retry RateLimit Attempts Ready History Store StoreInv Dependents Claim Complete Demo Queue Outcomes Limits Claiming Django DjangoInv.
From stdpp Require Import gmap.
#[local] Open Scope string_scope.
#[local] Open Scope list_scope.
#[local] Open Scope Z_scope.

Record dj_world : Type := mkWorld {
  dw_store : store;
  dw_recheck : list (Z * time);
}.

Section backend.
Context (webhook_url : Z → bool) (ev : env) (queues : list string) (weights : list (string * Z)).
Context (worker : option Z).

(** The exceptions of [mark_failed] as the scan tells them apart. *)
Definition as_backend_error (e : django_error) : backend_error :=
  match e with ConcurrentModificationError | FencingError => LostRace | NoFuel => BackendError end.

Definition dj_fail_waiting (c : queued_job * Z) (error reason : string) (w : dj_world)
    : dj_world * result backend_error unit :=
  match mark_failed_now webhook_url ev c.1 error "" reason None true (dw_store w) with
  | (st, Ok _) => (mkWorld st (dw_recheck w), Ok tt)
  | (st, Err e) => (mkWorld st (dw_recheck w), Err (as_backend_error e))
  end.

Definition dj_expire (c : queued_job * Z) (error reason : string) (w : dj_world)
    : dj_world * result backend_error bool :=
  match Django.expire_queued_job webhook_url ev c.1 error reason (dw_store w) with
  | (st, Ok b) => (mkWorld st (dw_recheck w), Ok b)
  | (st, Err e) => (mkWorld st (dw_recheck w), Err (as_backend_error e))
  end.

#[global] Instance django_backend : ClaimBackend dj_world (queued_job * Z) AttemptHandle := {|
  cb_id c := j_id c.1;
  cb_tags c := js_tags (j_spec c.1);
  cb_has_dependencies c := match js_dependencies (j_spec c.1) with [] => false | _ => true end;
  cb_ttl c := js_ttl (j_spec c.1);
  cb_expired w := (λ j, (j, 0)) <$> Django.get_expired_ttl_jobs ev (dw_store w);
  cb_expire := dj_expire;
  cb_claimable n seen w :=
    let '(st, js) := Django.get_claimable_jobs ev queues weights n seen (dw_store w) in
    (mkWorld st (dw_recheck w), js);
  cb_tag_locks tags w := forallb (e_tag_lock ev) tags;
  cb_running_with_tag tag w := count_running_with_tag (dw_store w) tag;
  cb_started_with_tag_since tag t w := count_started_with_tag_since (dw_store w) tag t;
  cb_dependencies_met c w := check_dependencies_met (dw_store w) c.1;
  cb_fail_waiting := dj_fail_waiting;
  cb_block c w :=
    let '(st, r) := Django.block ev c.1 (dw_store w) in mkWorld st (dw_recheck w ++ option_list r);
  cb_claim c w :=
    let '(st, h) := Django.atomic_claim_job ev c.1 (Some c.2) worker (dw_store w) in
    (mkWorld st (dw_recheck w), h);
|}.

(** The row of the worker that claimed: busy on the job, with a fresh heartbeat. *)
Definition mark_worker_busy (id : Z) (st : store) : store :=
  match worker with
  | None => st
  | Some w =>
      with_workers (update_where (λ r, w_id r = w)
        (λ r, {| w_id := w_id r; w_node_id := w_node_id r; w_pid := w_pid r; w_status := Busy;
                 w_current_job_id := Some id; w_jobs_processed := w_jobs_processed r; w_last_heartbeat := e_now ev |})
        (workers st)) st
  end.

(** [DjangoBackend.claim_job] with a resolved worker: the scan, the worker row, then, after the
    commit, the re-checks of the jobs it blocked. One unit of fuel per ready entry, and one. *)
Definition dj_claim_job (tag_limits : list (string * Z)) (tag_rate_limits : list (string * string))
    (max_attempts : nat) (st : store) : store * claim_result :=
  let '(w, r) := claim_next_job_with_queue_priority (e_now ev) tag_limits tag_rate_limits
                   (S (length (ready st))) max_attempts (mkWorld st []) in
  let st1 := match r with Claimed c h => mark_worker_busy (j_id c.1) (dw_store w) | _ => dw_store w end in
  (foldl (λ s '(id, created), (recheck_blocked webhook_url ev id created s).1) st1 (dw_recheck w), r).

(** ** The laws *)

Definition dj_ok (w : dj_world) : Prop :=
  inv [] (dw_store w) ∧ Forall (row_ok (dw_store w)) (dw_recheck w).
Definition dj_pool (w : dj_world) : list Z := re_job_id <$> ready (dw_store w).
Definition dj_known (w : dj_world) (c : queued_job * Z) : Prop := reads (dw_store w) c.1.
Definition dj_step (w w' : dj_world) : Prop :=
  dstep [] (dw_store w) (dw_store w') ∧ Forall (row_ok (dw_store w')) (dw_recheck w').

Lemma dstep_row_ok X st st' row : dstep X st st' → row_ok st row → row_ok st' row.
Proof using Type.
  intros Hd Hr j' Hj' Hid. destruct (ds_rows _ _ _ Hd j' Hj') as (j & Hj & Hij & Hsp & _).
  rewrite Hsp. apply Hr; [done|congruence].
Qed.

(** A step of the store that records no re-check. *)
Lemma dj_step_keep w st : dj_ok w → dstep [] (dw_store w) st → dj_step w (mkWorld st (dw_recheck w)).
Proof using Type.
  intros [_ Hr] Hd. split; [done|]. simpl. eapply Forall_impl; [exact Hr|]. intros row. by eapply dstep_row_ok.
Qed.

Lemma reads_live st j : wf st → j ∈ live st → j_status j = Queued → reads st j.
Proof.
  intros Hwf Hj Hs. split; [done|]. intros j' Hj' Hid.
  rewrite (live_inj st Hwf j' j Hj' Hj Hid). auto.
Qed.

Lemma reads_knows st j : reads st j → knows st j.
Proof. intros [_ Hr] j' Hj' Hid. by apply Hr. Qed.

Lemma block_dstep j st : inv [] st → knows st j → dstep [] st (Django.block ev j st).1.
Proof using Type.
  intros Hi Hk. pose proof Hi as [Hwf Hc]. unfold Django.block.
  destruct (dependency_ids (j_spec j)) as [|d deps] eqn:Hd; [by apply dstep_refl|].
  case_decide; [by apply dstep_refl|].
  assert (delete_where (λ e, re_slot e ∈ SLOTS ∧ re_job_id e = j_id j) (ready st) =
          delete_where (entry_of [j_id j]) (ready st)) as Heq.
  { apply filter_iff_on. intros e _. unfold entry_of. by rewrite list_elem_of_singleton. }
  set (st1 := (_, _).1). assert (insert_blocked j (e_now ev) (delete_ready [j_id j] st) = Some st1) as Hins.
  { unfold insert_blocked, blocked_rows, st1. rewrite Hd. simpl. by rewrite Heq. }
  split.
  - split; [split|by apply evolves_entries].
    + eapply wf_insert_blocked; [by apply wf_delete_ready| |done]. done.
    + eapply covered_insert_blocked; [done|]. by apply (covered_delete_ready [_] []).
  - simpl. intros e [He _]%elem_of_delete_where. done.
  - done.
  - done.
  - intros x Hx. exists x. auto.
  - done.
  - done.
Qed.

Lemma entry_job_Some st e j : wf st → entry_job st e = Some j → j ∈ live st ∧ j_id j = re_job_id e.
Proof.
  intros Hwf. unfold entry_job. destruct (job_by_key st (re_job_id e) (re_created_at e)) as [j'|] eqn:Hk.
  - intros [= ->]. apply job_by_key_Some in Hk as (? & ? & _); done.
  - by intros ?%job_by_id_Some.
Qed.

Lemma entry_usable_waiting st e j :
  wf st → waiting st j → j_id j = re_job_id e → entry_usable st e = true.
Proof.
  intros Hwf (Hj & Hs & Hr) Hid. unfold entry_usable.
  assert (entry_job st e = Some j) as ->.
  { destruct (entry_job st e) as [j'|] eqn:Hl.
    - destruct (entry_job_Some st e j' Hwf Hl) as [Hj' Hid']. f_equal. eapply live_inj; [done..|congruence].
    - unfold entry_job in Hl. destruct (job_by_key st _ _); [done|]. rewrite job_by_id_None in Hl.
      by destruct (Hl j Hj). }
  rewrite bool_decide_true by done. rewrite <-Hid. unfold _is_running in Hr. by rewrite Hr.
Qed.

Lemma page_dstep n seen st st' js :
  inv [] st → Django.get_claimable_jobs ev queues weights n seen st = (st', js) →
  dstep [] st st' ∧ ∀ c, c ∈ js → j_id c.1 ∈ re_job_id <$> ready st ∧ reads st' c.1.
Proof using Type.
  intros Hi. pose proof Hi as [Hwf Hc]. unfold Django.get_claimable_jobs.
  set (entries := take n _).
  assert (∀ e, e ∈ entries → e ∈ ready st) as Hent.
  { intros e He%elem_of_take. destruct He as (i & He%list_elem_of_lookup_2 & _).
    apply elem_of_order_by, list_elem_of_filter in He. by apply He. }
  set (stale := re_job_id <$> _). intros [= <- <-].
  assert (dstep [] st (match stale with [] => st | _ => Django.remove stale st end)) as Hd.
  { destruct stale as [|i l] eqn:Hst; [by apply dstep_refl|]. rewrite <-Hst. clear Hst.
    assert (∀ j, waiting st j → j_id j ∉ stale) as Hns.
    { intros j Hj (e & Hid & [He _]%list_elem_of_filter)%list_elem_of_fmap.
      by rewrite (entry_usable_waiting st e j Hwf Hj Hid) in He. }
    split.
    - split; [split|by apply evolves_entries].
      + by apply wf_drop_entries.
      + intros j Hj. right. destruct (Hc j Hj) as [[]%elem_of_nil|[(e & He & Hid)|(b & Hb & Hid)]]; [left|right].
        * exists e. split; [|done]. simpl. apply elem_of_delete_where. split; [done|]. intros [_ Hin].
          apply (Hns j Hj). by rewrite <-Hid.
        * exists b. split; [|done]. simpl. apply elem_of_delete_where. split; [done|]. intros Hin.
          apply (Hns j Hj). by rewrite <-Hid.
    - simpl. intros e [He _]%elem_of_delete_where. done.
    - done.
    - done.
    - intros x Hx. exists x. auto.
    - done.
    - done. }
  split; [done|]. intros c Hcin. apply list_elem_of_omap in Hcin as (e & [Hu He]%list_elem_of_filter & Hce).
  destruct (entry_job st e) as [j|] eqn:Hl; [|done]. injection Hce as <-. simpl.
  destruct (entry_job_Some st e j Hwf Hl) as [Hj Hid]. split; [rewrite Hid; by apply list_elem_of_fmap_2, Hent|].
  eapply dstep_reads; [exact Hd|]. apply reads_live; [done..|]. unfold entry_usable in Hu. rewrite Hl in Hu.
  by apply andb_true_iff in Hu as [?%bool_decide_eq_true _].
Qed.

(** What an atomic claim does: it takes the row it was given, which waits, or nothing. *)
Lemma dj_atomic_claim_spec j slot st st' r :
  inv [] st → reads st j → Django.atomic_claim_job ev j slot worker st = (st', r) →
  match r with
  | None => dstep [] st st'
  | Some h => waiting st j ∧ e_row_locked ev (j_id j) = false ∧
      ∃ st1, dstep [j_id j] st st1 ∧ live st1 = live st ∧ _open_attempt ev (j_id j) worker st1 = (st', h) ∧
        ∃ e, e ∈ ready st ∧ re_job_id e = j_id j
  end.
Proof using Type.
  intros Hi Hrd. pose proof Hi as [Hwf Hc]. unfold Django.atomic_claim_job.
  set (mine := λ e, re_slot e ∈ _ ∧ _). case_decide as Hn; [intros [= <- <-]; by apply dstep_refl|].
  set (st1 := with_ready _ st).
  assert (wf st1) as Hwf1 by (by apply wf_delete_ready_rows).
  assert (covered_except [j_id j] st1) as Hc1.
  { intros x Hx. destruct (decide (j_id x = j_id j)) as [->|Hne]; [left; by left|right].
    destruct (Hc x Hx) as [[]%elem_of_nil|[(e & He & Hid)|Hb]]; [left|by right].
    exists e. split; [|done]. simpl. apply elem_of_delete_where. split; [done|]. intros [_ Hej]. congruence. }
  assert (∀ x, x ∈ ready st1 → x ∈ ready st) as Hrdy by (by intros x [? _]%elem_of_delete_where).
  unfold judge_claim. destruct (job_by_key st1 (j_id j) (j_created_at j)) as [row|] eqn:Hrow.
  - apply job_by_key_Some in Hrow as (Hl & Hid & _); [|done].
    destruct (e_row_locked ev (j_id j)) eqn:Hlock; [intros [= <- <-]; by apply dstep_refl|].
    destruct (claim_verdict _ _ _ _) eqn:Hv.
    + apply claim_verdict_ok in Hv as (Hs & Hr & Hver). injection Hs as Hs. simpl in Hver.
      assert (row = j) as ->.
      { destruct (proj2 Hrd row Hl Hid) as [_ [->|Hlt]]; [done|]. lia. }
      unfold open_new. destruct (_open_attempt ev (j_id j) worker st1) as [st2 h] eqn:Ho.
      intros [= <- <-]. split; [split_and!; done|]. split; [done|]. exists st1. split; [split|split; [done|split; [done|]]].
      * split; [by split|by apply evolves_entries].
      * intros x. apply Hrdy.
      * done.
      * done.
      * intros x Hx. exists x. auto.
      * done.
      * done.
      * assert (0 < rowcount mine (ready st))%nat as Hpos by lia.
        apply rowcount_pos in Hpos as (e & He & _ & Hej). by exists e.
    + destruct (negb (bool_decide (j_status row = Queued)) || open_attempt_exists (attempts st1) (j_id j)) eqn:Hk;
        intros [= <- <-]; [|by apply dstep_refl].
      assert (∀ x, waiting st1 x → j_id x ≠ j_id j) as Hnw.
      { rewrite <-Hid. eapply not_waiting; [done|done|done|]. by rewrite Hid. }
      split; [split; [split; [done|]|by apply evolves_entries]|intros x; apply Hrdy|done|done| |done|done].
      * by apply (covered_drop_idle (j_id j)).
      * intros x Hx. exists x. auto.
  - intros [= <- <-]. rewrite job_by_key_None in Hrow.
    split; [split; [split; [done|]|by apply evolves_entries]|intros x; apply Hrdy|done|done| |done|done].
    + apply (covered_drop_idle (j_id j)); [|done]. intros x (Hx & _ & _) Hid.
      apply (Hrow x Hx). split; [done|]. by rewrite (proj1 (proj2 Hrd x Hx Hid)).
    + intros x Hx. exists x. auto.
Qed.

#[global] Instance django_laws : ClaimLaws dj_ok dj_pool dj_known dj_step.
Proof using Type.
  split.
  - intros w [Ho Hr]. split; [by apply dstep_refl|done].
  - intros w1 w2 w3 [H1 _] [H2 ?]. split; [by eapply dstep_trans|done].
  - intros w w' [Hd ?]. split; [by eapply dstep_inv|done].
  - intros w w' [Hs _] i (e & -> & He)%list_elem_of_fmap. apply list_elem_of_fmap_2. by apply Hs.
  - intros w w' c [Hs _]. by eapply dstep_reads.
  - intros n seen w w' js Ho. cbn [cb_claimable django_backend].
    destruct (Django.get_claimable_jobs ev queues weights n seen (dw_store w)) as [st1 js1] eqn:Hp.
    intros [= <- <-]. apply page_dstep in Hp as [Hd Hjs]; [|apply Ho]. split; [|exact Hjs].
    by apply dj_step_keep.
  - intros c e r w Ho Hk. simpl. unfold dj_fail_waiting.
    destruct (mark_failed_now webhook_url ev c.1 e "" r None true (dw_store w)) as [st1 r1] eqn:Hm.
    apply (mark_failed_now_idle (X:=[])) in Hm as (Hd & Hr & _); [|apply Ho|done].
    destruct Hr as [->|[-> ->]]; (split; [by apply dj_step_keep|simpl; discriminate]).
  - intros c e r w Ho Hk. simpl. unfold dj_expire, Django.expire_queued_job.
    destruct (mark_failed_now webhook_url ev c.1 e "" r None true (dw_store w)) as [st1 r1] eqn:Hm.
    apply (mark_failed_now_idle (X:=[])) in Hm as (Hd & Hr & _); [|apply Ho|done].
    destruct Hr as [->|[-> ->]]; (split; [by apply dj_step_keep|simpl; discriminate]).
  - intros w c [Ho _] (j & -> & Hj)%list_elem_of_fmap. apply list_elem_of_filter in Hj as [[Hw _] Hj].
    apply reads_live; [apply Ho|done|]. by apply andb_true_iff in Hw as [?%bool_decide_eq_true _].
  - intros c w Ho Hk. simpl. pose proof (reads_knows _ _ Hk) as Hkn.
    pose proof (block_dstep c.1 (dw_store w) (proj1 Ho) Hkn) as Hb.
    destruct (Django.block ev c.1 (dw_store w)) as [st1 r] eqn:Hbl. simpl in Hb.
    destruct (dj_step_keep w st1 Ho Hb) as [_ Hrows]. split; [done|]. simpl. apply Forall_app. split; [done|].
    destruct r as [[id cr]|]; [|by apply Forall_nil]. apply Forall_singleton.
    assert ((id, cr) = (j_id c.1, j_created_at c.1)) as [= -> ->].
    { unfold Django.block in Hbl. destruct (dependency_ids _); [done|]. case_decide; [done|]. congruence. }
    intros j Hj Hid. destruct (ds_rows _ _ _ Hb j Hj) as (j0 & Hj0 & Hid0 & Hsp & _).
    rewrite Hsp. by rewrite (Hkn j0 Hj0 (eq_trans (eq_sym Hid0) Hid)).
  - intros c w w' Ho Hk. simpl.
    destruct (Django.atomic_claim_job ev c.1 (Some c.2) worker (dw_store w)) as [st1 r] eqn:Hcl.
    intros [= <- ->]. apply dj_step_keep; [done|]. by apply dj_atomic_claim_spec in Hcl; [|apply Ho|].
Qed.

(** ** After the claim: the worker row and the re-checks *)

(** A step that may also make jobs ready. *)
Record dquiet (X : list Z) (st st' : store) : Prop := {
  dq_sound : sound X st st';
  dq_attempts : attempts st' = attempts st;
  dq_rows : ∀ j', j' ∈ live st' → ∃ j, j ∈ live st ∧ j_id j' = j_id j ∧ j_spec j' = j_spec j ∧
    (j' = j ∨ j_status j' ≠ Queued);
  dq_ids : job_ids st' ⊆ job_ids st;
  dq_kept : ∀ j, j ∈ live st → j_status j ≠ Queued → j ∈ live st';
}.

Lemma dquiet_refl X st : inv X st → dquiet X st st.
Proof using Type. intros Hi. split; [by apply sound_refl|done| |done|done]. intros j Hj. exists j. auto. Qed.

Lemma dquiet_trans X s1 s2 s3 : dquiet X s1 s2 → dquiet X s2 s3 → dquiet X s1 s3.
Proof using Type.
  intros [S1 A1 L1 I1 K1] [S2 A2 L2 I2 K2]. split; [by eapply sound_trans|congruence| |by etrans|by auto].
  intros j3 Hj3. destruct (L2 j3 Hj3) as (j2 & Hj2 & ? & ? & [->|?]);
    [by destruct (L1 j2 Hj2) as (j1 & Hj1 & ? & ? & ?); exists j1|].
  destruct (L1 j2 Hj2) as (j1 & Hj1 & ? & ? & _). exists j1. split_and!; [done|congruence..|by right].
Qed.

Lemma dstep_dquiet X st st' : dstep X st st' → dquiet X st st'.
Proof using Type.
  intros [S _ A _ L I K]. split; [done..| |done|done]. intros j' Hj'.
  destruct (L j' Hj') as (j & ? & ? & ? & [?|[_ ?]]); exists j; auto.
Qed.

Lemma mark_worker_busy_dquiet X id st : inv X st → dquiet X st (mark_worker_busy id st).
Proof using Type.
  intros Hi. unfold mark_worker_busy. destruct worker; [by apply dstep_dquiet, dstep_workers|by apply dquiet_refl].
Qed.

Lemma mark_worker_busy_live id st : live (mark_worker_busy id st) = live st.
Proof using Type. unfold mark_worker_busy. by destruct worker. Qed.

(** The blocked rows of a job that does not wait go, and a job that waits becomes ready. *)
Lemma drop_blocked_list id st :
  with_blocked (delete_where (λ b, bl_job_id b = id) (blocked st)) st = delete_blocked [id] st.
Proof using Type.
  unfold delete_blocked. f_equal. apply filter_iff_on. intros b _. by rewrite list_elem_of_singleton.
Qed.

Lemma drop_blocked_sound X id st :
  inv X st → (∀ j, waiting st j → j_id j ≠ id) → sound X st (delete_blocked [id] st).
Proof using Type.
  intros [Hwf Hc] Hn. split; [split|by apply evolves_entries].
  - by apply wf_delete_blocked.
  - apply (covered_drop_idle id); [done|]. by apply (covered_delete_blocked [id] X).
Qed.

Lemma ready_again_sound (Hev : env_ok ev) X j st :
  inv X st → waiting st j → sound X st (add ev [j] false (delete_blocked [j_id j] st)).
Proof using Type.
  intros [Hwf Hc] Hw. rewrite add_writes. split; [split|by apply evolves_entries].
  - apply wf_write_ready; [done|by apply wf_delete_blocked|].
    intros j' ->%list_elem_of_singleton. apply knows_live; [by apply wf_delete_blocked|apply Hw].
  - apply covered_write_ready. by apply (covered_delete_blocked [j_id j] X).
Qed.

Lemma recheck_gone st id created :
  wf st → row_ok st (id, created) → job_by_key st id created = None → ∀ j, waiting st j → j_id j ≠ id.
Proof using Type.
  intros Hwf Hrow Hk j (Hj & _ & _) Hid. rewrite job_by_key_None in Hk. apply (Hk j Hj).
  split; [done|]. by apply Hrow.
Qed.

Lemma recheck_blocked_dquiet (Hev : env_ok ev) X id created st :
  inv X st → row_ok st (id, created) →
  dquiet X st (Django.recheck_blocked webhook_url ev id created st).1.
Proof using Type.
  intros Hi Hrow. pose proof Hi as [Hwf Hc]. unfold Django.recheck_blocked.
  rewrite drop_blocked_list, running_ids_single.
  assert ((∀ j, waiting st j → j_id j ≠ id) → dquiet X st (delete_blocked [id] st)) as Hgone.
  { intros Hn. split; [by apply drop_blocked_sound|done|by intros x Hx; exists x; auto|done|done]. }
  destruct (job_by_key st id created) as [j|] eqn:Hk; [|by eapply Hgone, recheck_gone].
  pose proof Hk as (Hl & Hid & _)%job_by_key_Some; [|done].
  destruct (negb (bool_decide (j_status j = Queued)) || _is_running st id) eqn:Hidle;
    [apply Hgone; by eapply not_waiting|].
  destruct (waiting_by_key _ _ _ _ Hwf Hk Hidle) as (Hw & _ & _).
  destruct (deps_failed _); [|destruct (negb (check_dependencies_met st j).1.1)]; [|by apply dquiet_refl|].
  - destruct (mark_failed_now _ _ _ _ _ _ _ _ _) as [st1 r1] eqn:Hm.
    apply (mark_failed_now_idle (X:=X)) in Hm as (Hd & Hr & _); [|done|apply reads_live; [done|apply Hw..]].
    destruct Hr as [->|[-> ->]]; [by apply dstep_dquiet|by apply dquiet_refl].
  - rewrite <-Hid. split; [by apply ready_again_sound|..]; simpl; rewrite add_writes;
      [reflexivity|by intros x Hx; exists x; auto|done|done].
Qed.

Lemma rechecks_dquiet (Hev : env_ok ev) X rows : ∀ st,
  inv X st → Forall (row_ok st) rows →
  dquiet X st (foldl (λ s '(id, created), (Django.recheck_blocked webhook_url ev id created s).1) st rows).
Proof using Type.
  induction rows as [|[id cr] rows IH]; intros st Hi Hr; simpl; [by apply dquiet_refl|].
  apply Forall_cons in Hr as [Hrow Hr].
  pose proof (recheck_blocked_dquiet Hev X id cr st Hi Hrow) as Hd. eapply dquiet_trans; [exact Hd|].
  apply IH; [apply Hd|]. eapply Forall_impl; [exact Hr|]. intros row Ho j' Hj' Hid'.
  destruct (dq_rows _ _ _ Hd j' Hj') as (j & Hj & Hij & Hsp & _). rewrite Hsp. apply Ho; [done|congruence].
Qed.

Lemma fuel_enough st : (length (remove_dups (dj_pool (mkWorld st []))) < S (length (ready st)))%nat.
Proof using Type.
  assert (length (remove_dups (dj_pool (mkWorld st []))) <= length (dj_pool (mkWorld st [])))%nat as H.
  { apply submseteq_length, NoDup_submseteq; [apply NoDup_remove_dups|]. intros x. by rewrite elem_of_remove_dups. }
  unfold dj_pool in *. rewrite length_fmap in H. simpl in *. lia.
Qed.

(** The job claimed, from the claim transaction to the end of the re-checks. *)
Lemma claimed_dquiet st0 st1 st2 st' j h :
  waiting st0 j → dstep [j_id j] st0 st1 → live st1 = live st0 → _open_attempt ev (j_id j) worker st1 = (st2, h) →
  (inv [] st2 → live st2 = live st0 → dquiet [] st2 st') →
  sound [] st0 st' ∧ ∃ a, attempts st' = attempts st0 ++ [a] ∧ at_id a = h_id h ∧ at_token a = h_token h ∧
    open_for (j_id j) a ∧ ∀ b, b ∈ attempts st' → open_for (j_id j) b → b = a.
Proof using Type.
  intros (Hj & Hs & Hr) Hd Hl Ho Hq. destruct (ds_sound _ _ _ Hd) as [[Hwf1 Hc1] He1].
  assert (sound [] st0 st2) as Hs2.
  { pose proof (open_attempt_sound (X:=[]) ev (j_id j) worker st0 st1 Hwf1 Hc1 He1) as H. rewrite Ho in H.
    apply H; [unfold _is_running in *; by rewrite (ds_attempts _ _ _ Hd)|]. exists j. by rewrite Hl. }
  specialize (Hq (proj1 Hs2)). assert (live st2 = live st0) as Hl2 by (by injection Ho as <- _).
  specialize (Hq Hl2). assert (sound [] st0 st') as Hs' by (eapply sound_trans; [exact Hs2|intros _; apply Hq]).
  split; [done|]. injection Ho as <- <-. eexists. rewrite (dq_attempts _ _ _ Hq). simpl.
  rewrite (ds_attempts _ _ _ Hd). split_and!; [done..|]. intros b Hb Hob.
  eapply (wf_one_open st' (proj1 (proj1 Hs'))); [|..|done|];
    rewrite ?(dq_attempts _ _ _ Hq); simpl; rewrite ?(ds_attempts _ _ _ Hd); [done| |done].
  apply elem_of_app. right. by apply list_elem_of_singleton.
Qed.

(** The claim, taken apart: the scan up to the state the job is claimed in, the claim itself, the
    worker row and the re-checks. *)
Lemma dj_claim_spec (Hev : env_ok ev) tag_limits tag_rate_limits page st st' r :
  inv [] st → dj_claim_job tag_limits tag_rate_limits page st = (st', r) →
  match r with
  | NothingToClaim => dquiet [] st st'
  | Claimed c h => ∃ w0 st1 st2, dstep [] st (dw_store w0) ∧ waiting (dw_store w0) c.1 ∧
      e_row_locked ev (j_id c.1) = false ∧
      tags_allow (e_now ev) tag_limits tag_rate_limits c w0 = true ∧
      check_dependencies_met (dw_store w0) c.1 = (true, [], false) ∧
      dstep [j_id c.1] (dw_store w0) st1 ∧ live st1 = live (dw_store w0) ∧
      _open_attempt ev (j_id c.1) worker st1 = (st2, h) ∧
      (inv [] st2 → live st2 = live (dw_store w0) → dquiet [] st2 st')
  | _ => False
  end.
Proof using Type.
  intros Hi. unfold dj_claim_job.
  destruct (claim_next_job_with_queue_priority (e_now ev) tag_limits tag_rate_limits
    (S (length (ready st))) page (mkWorld st [])) as [w r1] eqn:Hc. intros [= <- <-].
  apply (claim_next_spec _ _ _ dj_ok dj_pool dj_known dj_step) in Hc;
    [|by split; [|apply Forall_nil]|apply fuel_enough].
  destruct r1 as [c h| |e|]; [|..|done|done].
  2:{ destruct Hc as [Hd Hrows].
      pose proof (rechecks_dquiet Hev [] (dw_recheck w) (dw_store w) (dstep_inv _ _ Hd) Hrows) as Hq.
      apply (dquiet_trans _ st) in Hq; [done|by apply dstep_dquiet]. }
  destruct Hc as (w0 & [Hd Hrows] & Hk & Ht & Hdep & Hcl). cbn [cb_claim django_backend] in Hcl.
  destruct (Django.atomic_claim_job ev c.1 (Some c.2) worker (dw_store w0)) as [st2 h'] eqn:Hat.
  injection Hcl as <- ->. cbn [dw_store dw_recheck] in *.
  apply dj_atomic_claim_spec in Hat as (Hw & Hlock & st1 & Hd1 & Hl1 & Ho & _); [|by eapply dstep_inv|done].
  exists w0, st1, st2. split_and!; try done.
  - cbn [cb_has_dependencies cb_dependencies_met django_backend] in Hdep. unfold check_dependencies_met in *.
    destruct (js_dependencies (j_spec c.1)); [done|by apply Hdep].
  - intros Hi2 Hl2. eapply dquiet_trans; [by apply (mark_worker_busy_dquiet [] (j_id c.1))|].
    apply rechecks_dquiet; [done|apply mark_worker_busy_dquiet, Hi2|].
    eapply Forall_impl; [exact Hrows|]. intros row Hrow j. rewrite mark_worker_busy_live, Hl2. apply Hrow.
Qed.

(** The claim of the Django backend. From a store that satisfies the invariant the claim returns:
    no exception and no endless scan. It either claims nothing, and then no attempt changes, or
    claims one candidate. That job was queued with nobody running it, its row not locked by another
    worker, and passed the tag limits and the dependency check in the state it was claimed in; a
    single attempt is added, the one of the returned handle, and it is the only open attempt of the
    job. Jobs that expired, failed or were blocked on the way, and the jobs re-checked after the
    commit, leave the invariant: no waiting job is lost. *)
Theorem dj_claim_sound (Hev : env_ok ev) tag_limits tag_rate_limits page st st' r :
  inv [] st → dj_claim_job tag_limits tag_rate_limits page st = (st', r) →
  sound [] st st' ∧
  match r with
  | NothingToClaim => attempts st' = attempts st
  | Claimed c h => ∃ w0 a, dstep [] st (dw_store w0) ∧ waiting (dw_store w0) c.1 ∧ waiting st c.1 ∧
      e_row_locked ev (j_id c.1) = false ∧
      tags_allow (e_now ev) tag_limits tag_rate_limits c w0 = true ∧
      check_dependencies_met (dw_store w0) c.1 = (true, [], false) ∧
      attempts st' = attempts st ++ [a] ∧ at_id a = h_id h ∧ at_token a = h_token h ∧
      open_for (j_id c.1) a ∧ ∀ b, b ∈ attempts st' → open_for (j_id c.1) b → b = a
  | _ => False
  end.
Proof using Type.
  intros Hi Hc. apply dj_claim_spec in Hc; [|done..]. destruct r as [c h| | |]; [|split; apply Hc|done..].
  destruct Hc as (w0 & st1 & st2 & Hd & Hw & Hlock & Ht & Hdep & Hd1 & Hl1 & Ho & Hq).
  destruct (claimed_dquiet _ _ _ _ _ _ Hw Hd1 Hl1 Ho Hq) as [Hs (a & Ha & ? & ? & ? & ?)].
  split; [eapply sound_trans; [apply Hd|by intros _]|].
  exists w0, a. rewrite <-(ds_attempts _ _ _ Hd). split_and!; [done|done|by eapply dstep_waiting|done..].
Qed.

Lemma dquiet_passes st st' i : wf st → dquiet [] st st' → passes (phase_of st i) (phase_of st' i).
Proof using Type.
  intros Hwf [[[Hwf' _] He] Ha Hl Hids]. apply still_passes; [done..|].
  intros j' Hj'. destruct (Hl j' Hj') as (j & ? & ? & _ & ?). by exists j.
Qed.

(** C36: the Django backend implements the claim of the abstract queue, the same the standalone
    backend implements: it takes at most one job, one that waits, and makes it run under an attempt
    no job had; any other job keeps its phase or, if it does not run, is failed with its
    dependencies or its time to live. *)
Theorem dj_claim_refines (Hev : env_ok ev) tag_limits tag_rate_limits page st st' r :
  inv [] st → dj_claim_job tag_limits tag_rate_limits page st = (st', r) →
  spec_claim (phase_of st)
    match r with Claimed c h => Some (j_id c.1, h_id h) | _ => None end (phase_of st').
Proof using Type.
  intros Hi Hc. pose proof Hi as [Hwf _]. apply dj_claim_spec in Hc; [|done..].
  destruct r as [c h| | |]; [|intros i; by apply dquiet_passes|done..].
  destruct Hc as (w0 & st1 & st2 & Hd & Hw & _ & _ & _ & Hd1 & Hl1 & Ho & Hq).
  destruct (claimed_dquiet _ _ st2 st2 _ _ Hw Hd1 Hl1 Ho (λ Hi2 _, dquiet_refl [] _ Hi2)) as [[Hi2 _] _].
  assert (live st2 = live (dw_store w0)) as Hl2 by (by injection Ho as <- _). specialize (Hq Hi2 Hl2).
  pose proof (dstep_dquiet _ _ _ Hd) as Hq0. pose proof (dstep_dquiet _ _ _ Hd1) as Hq1.
  destruct (ds_sound _ _ _ Hd1) as [[Hwf1 _] _]. destruct (dstep_inv _ _ Hd) as [Hwf0 _].
  assert (waiting st1 c.1) as Hw1.
  { destruct Hw as (Hj & Hs & Hr). split_and!; [by rewrite Hl1|done|]. unfold _is_running.
    by rewrite (ds_attempts _ _ _ Hd1). }
  apply (spec_claim_between _ (phase_of st1) (phase_of st2)).
  - intros i. etrans; [by apply (dquiet_passes st (dw_store w0))|].
    apply still_passes; [done..|apply Hd1|apply Hq1|apply Hq1|]. rewrite Hl1. intros j Hj. exists j. auto.
  - by apply (open_attempt_phase ev c.1 worker st1 st2 h Hwf1 (proj1 Hi2)).
  - apply phase_of_iff; [done|]. exists c.1. split; [by eapply dstep_waiting|done].
  - intros i. by apply dquiet_passes; [apply Hi2|].
Qed.

End backend.

(** Jobs 11 and 12 of the demo store: 12 depends on 11, is blocked, and 11 is claimed. *)
#[local] Abbreviation dj_demo_claim :=
  (dj_claim_job (λ _, false) (demo_env 3000) ["default"] [] (Some 1) [] [] 10 demo_two).

Lemma dj_demo_claim_result :
  dj_demo_claim.2 = Claimed (demo_job, 0) demo_handle ∧ (bl_job_id <$> blocked dj_demo_claim.1) = [12].
Proof. vm_compute. done. Qed.

Lemma dj_claim_sound_witness :
  sound [] demo_two dj_demo_claim.1 ∧
  ∃ a, attempts dj_demo_claim.1 = attempts demo_two ++ [a] ∧ at_id a = h_id demo_handle.
Proof.
  pose proof dj_demo_claim_result as [Hres _]. destruct dj_demo_claim as [st' r] eqn:E.
  simpl in Hres. subst r.
  pose proof (dj_claim_sound (λ _, false) (demo_env 3000) ["default"] [] (Some 1) (demo_env_ok 3000)
    [] [] 10 demo_two st' _ demo_two_inv E) as [Hs Hr].
  destruct Hr as (st0 & a & _ & _ & _ & _ & _ & _ & Ha & Hid & _). split; [exact Hs|]. by exists a.
Defined.

Lemma dj_claim_refines_witness :
  spec_claim (phase_of demo_two) (Some (11, 1)) (phase_of dj_demo_claim.1) ∧
  phase_of dj_demo_claim.1 11 = Some (PRunning 1) ∧ phase_of dj_demo_claim.1 12 = Some PWaiting.
Proof.
  split; [|vm_compute; done]. pose proof dj_demo_claim_result as [Hres _].
  destruct dj_demo_claim as [st' r] eqn:E. simpl in Hres. subst r.
  exact (dj_claim_refines (λ _, false) (demo_env 3000) ["default"] [] (Some 1) (demo_env_ok 3000)
    [] [] 10 demo_two st' _ demo_two_inv E).
Defined.

(** Ten entries of jobs that are gone stand before the entry of a job that can run. *)
Definition gone_entries : list job_ready :=
  (λ i, {| re_slot := 0; re_job_id := i; re_queue_name := "default"; re_priority := 10;
           re_created_at := 500; re_scheduled_at := None |}) <$> seqZ 101 10.

Definition dj_stale : store := with_ready (gone_entries ++ ready demo_one) demo_one.

#[local] Abbreviation dj_stale_claim :=
  (dj_claim_job (λ _, false) (demo_env 3000) ["default"] [] (Some 1) [] [] 10 dj_stale).

(** A page of nothing but stale entries ends the scan, although a runnable job stands behind it: the
    claim reports nothing to do and only the next one, the stale entries being gone, takes the job. *)
Theorem stale_page_ends_scan :
  waiting_clause (attempts dj_stale) demo_job = true ∧ 11 ∈ re_job_id <$> ready dj_stale ∧
  dj_stale_claim.2 = NothingToClaim ∧ (re_job_id <$> ready dj_stale_claim.1) = [11] ∧
  (dj_claim_job (λ _, false) (demo_env 3000) ["default"] [] (Some 1) [] [] 10 dj_stale_claim.1).2 =
    Claimed (demo_job, 0) demo_handle.
Proof.
  split_and!; [vm_compute; reflexivity|apply (bool_decide_unpack _); vm_compute; exact I|vm_compute; reflexivity..].
Qed.
