(* ===== verification/Webhook.v ===== *)
(** * Delivery of webhooks

    django_sqlery/webhooks.py with what it calls: [send_webhook], [send_webhook_with_retry],
    [retry_failed_webhooks], the move of a finished job into history once its delivery is resolved
    (models.py [settle_finished], history.py [settle]), the release of dependents (ready.py) and
    [mark_success] as a whole. A job with a webhook stays in the live table when it finishes: the
    columns of its delivery are the [hook] of the job, beside the [store]. The HTTP client is an
    argument, and the world records each request it is given. *)

From S2P Require Import Prelude Sql PyString Url Ssrf Models Retry Attempts Ready History Store StoreInv Dependents Claim Complete Demo Outcomes Sweep Executor Django DjangoInv DjangoClaim.
From stdpp Require Import gmap.
#[local] Open Scope string_scope.
#[local] Open Scope list_scope.
#[local] Open Scope Z_scope.

(** ** State *)

Record hook : Type := {
  h_url : chars;
  h_events : list string;
  h_status : option string;
  h_retries : Z;
  h_max_retries : Z;
}.

(** One request: the job it is sent for, the URL it goes to and its [Host] header. *)
Record post : Type := { p_job : Z; p_url : chars; p_host : chars }.

Record world : Type := {
  w_store : store;
  w_hooks : gmap Z hook;
  w_posts : list post;
}.

Definition with_store (st : store) (w : world) : world :=
  {| w_store := st; w_hooks := w_hooks w; w_posts := w_posts w |}.
Definition with_hook (id : Z) (h : hook) (w : world) : world :=
  {| w_store := w_store w; w_hooks := <[id := h]> (w_hooks w); w_posts := w_posts w |}.
Definition with_post (p : post) (w : world) : world :=
  {| w_store := w_store w; w_hooks := w_hooks w; w_posts := w_posts w ++ [p] |}.

(** [w'] after the transaction it ran in, which began in [w], was rolled back: requests stay sent. *)
Definition rolled_back (w w' : world) : world :=
  {| w_store := w_store w; w_hooks := w_hooks w; w_posts := w_posts w' |}.

Definition with_status (s : string) (h : hook) : hook :=
  {| h_url := h_url h; h_events := h_events h; h_status := Some s; h_retries := h_retries h;
     h_max_retries := h_max_retries h |}.
Definition with_failure (h : hook) : hook :=
  {| h_url := h_url h; h_events := h_events h; h_status := h_status h; h_retries := h_retries h + 1;
     h_max_retries := h_max_retries h |}.

(** What escapes: an error of the store, the [ValueError] of [urlparse], what the resolver raised, or
    the [DatabaseError] of a save of a row that is gone. *)
Inductive delivery_error : Type :=
  | StoreRaised (e : django_error)
  | MalformedUrl
  | ResolverRaised
  | DatabaseError.

Inductive http_outcome : Type := HttpStatus (code : Z) | HttpRaises.

(** The jobs with a webhook, as the operations on the store ask for them. *)
Definition has_webhook (w : world) (id : Z) : bool :=
  match w_hooks w !! id with Some h => negb (bool_decide (h_url h = [])) | None => false end.

(** ** ready.py, history.py and models.py: what a delivery runs and is run by *)

(** A failure of a waiting job sends its webhook, whose delivery settles the job and releases its
    dependents, which may fail again: [fail] is that failure. *)
Section release.
Context (ev : env) (fail : queued_job → string → string → world → world * result delivery_error unit).

Definition recheck_hooked (id : Z) (created : time) (w : world)
    : world * result delivery_error recheck_outcome :=
  let st := w_store w in
  let drop := with_blocked (delete_where (λ b, bl_job_id b = id) (blocked st)) st in
  match job_by_key st id created with
  | None => (with_store drop w, Ok RGone)
  | Some j =>
      if negb (bool_decide (j_status j = Queued)) || bool_decide (id ∈ running_ids st [id])
      then (with_store drop w, Ok RGone)
      else
        let r := check_dependencies_met st j in
        if deps_failed r then
          match fail j (String.append "Dependencies failed: " (py_str_list r.1.2)) "dependency_failed" w with
          | (w', Ok _) => (w', Ok RFailed)
          | (w', Err (StoreRaised ConcurrentModificationError)) => (w', Ok RGone)
          | (w', Err e) => (rolled_back w w', Err e)
          end
        else if negb r.1.1 then (w, Ok RBlocked)
        else (with_store (add ev [j] false drop) w, Ok RReady)
  end.

Fixpoint recheck_rows (rows : list (Z * time)) (work : list (Z * option Z)) (released : Z) (w : world)
    : world * result delivery_error (list (Z * option Z) * Z) :=
  match rows with
  | [] => (w, Ok (work, released))
  | (id, created) :: rows =>
      match recheck_hooked id created w with
      | (w', Err e) => (w', Err e)
      | (w', Ok RReady) => recheck_rows rows work (released + 1) w'
      | (w', Ok RFailed) => recheck_rows rows ((id, None) :: work) released w'
      | (w', Ok _) => recheck_rows rows work released w'
      end
  end.

Fixpoint dj_release_loop (fuel : nat) (work : list (Z * option Z)) (seen : list Z) (released : Z)
    (w : world) : world * result delivery_error Z :=
  match work with
  | [] => (w, Ok released)
  | (current, parent) :: work =>
      match fuel with
      | O => (w, Err (StoreRaised NoFuel))
      | S fuel =>
          if decide (current ∈ seen) then dj_release_loop fuel work seen released w
          else
            match recheck_rows (_dependents_of (w_store w) current parent) work released w with
            | (w', Err e) => (w', Err e)
            | (w', Ok (work', released')) => dj_release_loop fuel work' (current :: seen) released' w'
            end
      end
  end.

(** Every push failed a job that waited, so one step more than there are live jobs is enough
    ([dj_release_done]). *)
Definition dj_release_dependents (id : Z) (parent : option Z) (w : world) : world * result delivery_error Z :=
  dj_release_loop (S (length (live (w_store w)))) [(id, parent)] [] 0 w.

Definition release_dependents_quietly (id : Z) (parent : option Z) (w : world) : world :=
  (dj_release_dependents id parent w).1.

Definition settle (j : queued_job) (status : option job_status) (st : store) : store * result store_error bool :=
  Django.move ev (j_id j) (j_created_at j) (default (j_status j) status) no_values None (Some [j_status j])
    false true st.

Definition settle_finished (j : queued_job) (w : world) : world * bool :=
  if negb (is_terminal (Some (j_status j))) then (w, false)
  else
    match settle j None (w_store w) with
    | (st1, Ok true) => (release_dependents_quietly (j_id j) (j_parent j) (with_store st1 w), true)
    | (st1, Ok false) => (with_store st1 w, false)
    | (_, Err _) => (w, false)
    end.

Definition _settle (j : queued_job) (w : world) : world := (settle_finished j w).1.
End release.

(** ** webhooks.py *)

Section delivery.
Context (getaddrinfo : chars → dns_answer) (httpx : bool).
Context (client : chars → chars → http_outcome) (ev : env).

(** [job.save(update_fields=...)] of columns of the delivery *)
Definition save_hook (id : Z) (h : hook) (w : world) : world * result delivery_error unit :=
  match job_by_id (w_store w) id with
  | Some _ => (with_hook id h w, Ok tt)
  | None => (w, Err DatabaseError)
  end.

(** The job object carries its hook; the new one is returned. *)
Definition send_webhook (id : Z) (h : hook) (event : string) (w : world)
    : world * hook * result delivery_error bool :=
  if bool_decide (h_url h = []) then (w, h, Ok true)
  else if negb (bool_decide (event ∈ h_events h)) then (w, h, Ok true)
  else
    match resolve_webhook_url getaddrinfo (h_url h) false with
    | Err (WebhookURLBlocked _) => (w, h, Ok false)
    | Err UrlInvalid => (w, h, Err MalformedUrl)
    | Err ResolverRaises => (w, h, Err ResolverRaised)
    | Ok target =>
        if negb httpx then (w, h, Ok false)
        else
          match pin_url (h_url h) target with
          | None => (w, h, Ok false)
          | Some (url, host) =>
              let w1 := with_post {| p_job := id; p_url := url; p_host := host |} w in
              match client url host with
              | HttpRaises => (w1, h, Ok false)
              | HttpStatus code =>
                  if decide (code ∈ [200; 201; 202; 204]) then
                    let h1 := with_status "sent" h in
                    match save_hook id h1 w1 with
                    | (w2, Ok _) => (w2, h1, Ok true)
                    | (w2, Err _) => (w2, h1, Ok false)
                    end
                  else (w1, h, Ok false)
              end
          end
    end.

Definition send_webhook_with_retry (fail : queued_job → string → string → world → world * result delivery_error unit)
    (j : queued_job) (h : hook) (event : string) (w : world)
    : world * result delivery_error bool :=
  if bool_decide (h_url h = []) then (w, Ok true)
  else
    let '(w0, h0, saved) :=
      if decide (h_retries h = 0) then
        let h0 := with_status "pending" h in
        let '(w0, r) := save_hook (j_id j) h0 w in (w0, h0, r)
      else (w, h, Ok tt) in
    match saved with
    | Err e => (w0, Err e)
    | Ok _ =>
        match send_webhook (j_id j) h0 event w0 with
        | (w1, _, Err e) => (w1, Err e)
        | (w1, _, Ok true) => (_settle ev fail j w1, Ok true)
        | (w1, h1, Ok false) =>
            let h2 := with_failure h1 in
            match save_hook (j_id j) h2 w1 with
            | (w2, Err e) => (w2, Err e)
            | (w2, Ok _) =>
                if h_retries h2 <? h_max_retries h2 then
                  match save_hook (j_id j) (with_status "pending" h2) w2 with
                  | (w3, Err e) => (w3, Err e)
                  | (w3, Ok _) => (w3, Ok false)
                  end
                else
                  match save_hook (j_id j) (with_status "failed" h2) w2 with
                  | (w3, Err e) => (w3, Err e)
                  | (w3, Ok _) => (_settle ev fail j w3, Ok false)
                  end
            end
        end
    end.

(** ** models.py: completion with its webhook *)

(** The loop of [fail_dependent_jobs]: a lost race is skipped, any other error ends it. *)
Definition fail_dependents_hooked (fail : queued_job → world → world * result delivery_error unit)
    (deps : list queued_job) (w : world) : world * result delivery_error unit :=
  foldl (λ acc dep,
    match acc with
    | (w, Err e) => (w, Err e)
    | (w, Ok _) =>
        match fail dep w with
        | (w', Err (StoreRaised ConcurrentModificationError)) => (w', Ok tt)
        | r => r
        end
    end) (w, Ok tt) deps.

(** The webhook at the end of a completion: the job object has the status it ended with. *)
Definition notify (fail : queued_job → string → string → world → world * result delivery_error unit)
    (j : queued_job) (event : string) (w : world) : world * result delivery_error unit :=
  match w_hooks w !! j_id j with
  | Some h =>
      if bool_decide (h_url h = []) then (w, Ok tt)
      else
        match send_webhook_with_retry fail (default j (job_by_id (w_store w) (j_id j))) h event w with
        | (w', Ok _) => (w', Ok tt)
        | (w', Err e) => (w', Err e)
        end
  | None => (w, Ok tt)
  end.

Definition worker_of (w : world) (j : queued_job) (idle_only : bool) : option Z :=
  match (if idle_only then None else open_attempt_of (attempts (w_store w)) (j_id j)) with
  | Some a => at_worker_id a
  | None => jr_worker_id (j_run j)
  end.

(** [mark_failed] to its end: the dependents are failed, then the webhook is sent. *)
Fixpoint mark_failed_hooked (fuel : nat) (j : queued_job) (error traceback reason : string)
    (attempt : option AttemptHandle) (idle_only : bool) (w : world) : world * result delivery_error unit :=
  match fuel with
  | O => (w, Err (StoreRaised NoFuel))
  | S fuel =>
      match failed_txn (has_webhook w) ev j error traceback reason attempt idle_only (w_store w) with
      | (_, Err e) => (w, Err (StoreRaised e))
      | (st1, Ok _) =>
          let w2 := with_store (Django._release_worker ev (worker_of w j idle_only) (j_id j) st1) w in
          let fail := λ dep error reason, mark_failed_hooked fuel dep error "" reason None true in
          match fail_dependents_hooked (λ dep, fail dep
                  (String.append "Dependency failed: job " (py_str_int (j_id j))) "dependency_failed")
                  (dependent_jobs (w_store w2) (j_id j)) w2 with
          | (w3, Err e) => (w3, Err e)
          | (w3, Ok _) => notify fail j "failure" w3
          end
      end
  end.

(** Failures nest only for jobs that wait and then wait no more, so the live jobs bound the depth
    ([mark_failed_hooked_idle]). *)
Definition fail_waiting_job (w : world) (j : queued_job) (error reason : string)
    : world → world * result delivery_error unit :=
  mark_failed_hooked (S (length (live (w_store w)))) j error "" reason None true.

(** [mark_success] to its end. *)
Definition mark_success_hooked (j : queued_job) (output : string) (attempt : option AttemptHandle) (w : world)
    : world * result delivery_error unit :=
  match success_txn (has_webhook w) ev j output attempt (w_store w) with
  | (_, Err e) => (w, Err (StoreRaised e))
  | (st1, Ok _) =>
      let w1 := with_store (Django._release_worker ev (worker_of w j false) (j_id j) st1) w in
      let w2 := release_dependents_quietly ev (fail_waiting_job w1) (j_id j) (j_parent j) w1 in
      notify (fail_waiting_job w2) j "success" w2
  end.

(** ** The periodic retry *)

Record retry_stats : Type := { rs_total : Z; rs_success : Z; rs_failed : Z; rs_skipped : Z }.

Definition event_of (s : job_status) : option string :=
  match s with Success => Some "success" | Failed => Some "failure" | _ => None end.

Definition pending_hook (h : hook) : Prop := h_status h = Some "pending" ∧ h_retries h < h_max_retries h.
#[global] Instance pending_hook_dec h : Decision (pending_hook h).
Proof. unfold pending_hook. apply _. Defined.

(** The jobs to retry, each with its hook as the query read it. *)
Definition jobs_to_retry (w : world) : list (queued_job * hook) :=
  omap (λ j, h ← w_hooks w !! j_id j; if decide (pending_hook h) then Some (j, h) else None) (live (w_store w)).

Fixpoint retry_loop (jobs : list (queued_job * hook)) (s : retry_stats) (w : world)
    : world * result delivery_error retry_stats :=
  match jobs with
  | [] => (w, Ok s)
  | (j, h) :: jobs =>
      match event_of (j_status j) with
      | None => retry_loop jobs {| rs_total := rs_total s + 1; rs_success := rs_success s; rs_failed := rs_failed s;
                                   rs_skipped := rs_skipped s + 1 |} w
      | Some event =>
          match send_webhook_with_retry (fail_waiting_job w) j h event w with
          | (w1, Err e) => (w1, Err e)
          | (w1, Ok b) =>
              retry_loop jobs {| rs_total := rs_total s + 1; rs_success := rs_success s + (if b then 1 else 0);
                                 rs_failed := rs_failed s + (if b then 0 else 1); rs_skipped := rs_skipped s |} w1
          end
      end
  end.

Definition retry_failed_webhooks (w : world) : world * result delivery_error retry_stats :=
  retry_loop (jobs_to_retry w) {| rs_total := 0; rs_success := 0; rs_failed := 0; rs_skipped := 0 |} w.


(** ** history.py: the settle sweep *)

(** A delivery that is still being retried keeps its job where it is. *)
Definition delivery_open (h : option hook) : bool :=
  match h with
  | Some h => negb (bool_decide (h_url h = [])) && bool_decide (pending_hook h)
  | None => false
  end.

(** One stray row, with its delivery as the query read it; [true] when it moved. *)
Definition settle_stray (e : queued_job * option hook) (w : world) : world * result store_error bool :=
  let '(j, h) := e in
  if delivery_open h then (w, Ok false)
  else
    match settle_status (j_status j) (Some (jr_termination_reason (j_run j)))
            (has_retry_child (w_store w) (j_id j)) with
    | None => (w, Ok false)
    | Some status =>
        if is_retry_pending (Some (jr_termination_reason (j_run j))) then (w, Ok false)
        else
          match Django.move ev (j_id j) (j_created_at j) status
                  (reason_values (settled_termination_reason (Some (jr_termination_reason (j_run j)))))
                  None (Some [j_status j]) false true (w_store w) with
          | (st', Ok true) =>
              (release_dependents_quietly ev (fail_waiting_job w) (j_id j) (j_parent j) (with_store st' w), Ok true)
          | (_, r) => (w, r)
          end
    end.

Fixpoint settle_strays (strays : list (queued_job * option hook)) (moved : Z) (w : world) : world * Z :=
  match strays with
  | [] => (w, moved)
  | e :: strays =>
      match settle_stray e w with
      | (w', Ok b) => settle_strays strays (if b then moved + 1 else moved) w'
      | (w', Err _) => (w', moved)
      end
  end.

Definition strays (limit : nat) (grace : Z) (w : world) : list (queued_job * option hook) :=
  (λ j, (j, w_hooks w !! j_id j)) <$> stray_terminal limit (e_now ev - grace) (w_store w).

Definition settle_sweep (limit : nat) (grace : Z) (w : world) : world * Z :=
  settle_strays (strays limit grace w) 0 w.
End delivery.

(** ** What a delivery and its cascades leave alone *)

(** A step that fails waiting jobs and resolves their deliveries, and those of the jobs in [E]. *)
Record cascade (E : list Z) (w w' : world) : Prop := {
  ca_sound : sound [] (w_store w) (w_store w');
  ca_waiting : ∀ j, waiting (w_store w') j → waiting (w_store w) j;
  ca_rows : ∀ j', j' ∈ live (w_store w') → ∃ j, j ∈ live (w_store w) ∧ j_id j' = j_id j ∧
    j_spec j' = j_spec j ∧ (j' = j ∨ j_version j < j_version j');
  ca_kept : ∀ j, j ∈ live (w_store w) → j_status j ≠ Queued → j_id j ∉ E → j ∈ live (w_store w');
  ca_urls : ∀ i, h_url <$> (w_hooks w' !! i) = h_url <$> (w_hooks w !! i);
  ca_hooks : ∀ i, i ∉ E → (∀ j, waiting (w_store w) j → j_id j ≠ i) → w_hooks w' !! i = w_hooks w !! i;
  ca_posts : ∃ ps, w_posts w' = w_posts w ++ ps ∧
    ∀ p, p ∈ ps → p_job p ∈ E ∨ ∃ j, waiting (w_store w) j ∧ j_id j = p_job p;
}.

Abbreviation holds w := (inv [] (w_store w)).

Lemma cascade_inv E w w' : cascade E w w' → holds w'.
Proof. intros H. apply H. Qed.

Lemma cascade_store st w :
  sound [] (w_store w) st → live st = live (w_store w) → attempts st = attempts (w_store w) →
  cascade [] w (with_store st w).
Proof.
  intros Hs Hl Ha. split; simpl; rewrite ?Hl; try done.
  - intros j (Hj & Hq & Hr). unfold _is_running in *. rewrite Hl in Hj. rewrite Ha in Hr. by split_and!.
  - intros j Hj. exists j. auto.
  - exists []. rewrite app_nil_r. split; [done|]. by intros p ?%elem_of_nil.
Qed.

Lemma cascade_refl E w : holds w → cascade E w w.
Proof.
  intros Hi. split; try done; [by intros j Hj; exists j; auto|].
  exists []. rewrite app_nil_r. split; [done|]. by intros p ?%elem_of_nil.
Qed.

Lemma cascade_trans E w1 w2 w3 : cascade E w1 w2 → cascade E w2 w3 → cascade E w1 w3.
Proof.
  intros [S1 W1 R1 K1 U1 H1 (ps1 & P1 & Q1)] [S2 W2 R2 K2 U2 H2 (ps2 & P2 & Q2)].
  split; [by eapply sound_trans|by auto| |by auto|congruence| |].
  - intros j3 Hj3. destruct (R2 j3 Hj3) as (j2 & Hj2 & ? & ? & Hv2). destruct (R1 j2 Hj2) as (j1 & Hj1 & ? & ? & Hv1).
    exists j1. split_and!; [done|congruence..|]. destruct Hv2 as [->|], Hv1 as [->|]; auto; right; lia.
  - intros i Hi Hn. rewrite H2, H1; auto.
  - exists (ps1 ++ ps2). rewrite P2, P1, app_assoc. split; [done|]. intros p [Hp|Hp]%elem_of_app; [by apply Q1|].
    destruct (Q2 p Hp) as [|(j & Hj & ?)]; [by left|right; exists j; auto].
Qed.

Lemma cascade_mono E E' w w' : E ⊆ E' → cascade E w w' → cascade E' w w'.
Proof.
  intros HE [S W R K U H (ps & P & Q)]. split; try done.
  - intros j Hj Hs Hn. apply K; [done..|]. by intros ?%HE.
  - intros i Hi Hn. apply H; [by intros ?%HE|done].
  - exists ps. split; [done|]. intros p Hp. destruct (Q p Hp) as [?%HE|]; [by left|by right].
Qed.

Lemma cascade_weaken E w w' : cascade [] w w' → cascade E w w'.
Proof. apply cascade_mono. by intros ? ?%elem_of_nil. Qed.

(** The deliveries of a job that waited at the start. *)
Lemma cascade_absorb i w w' j :
  holds w → waiting (w_store w) j → j_id j = i → cascade [i] w w' → cascade [] w w'.
Proof.
  intros [Hwf _] Hw Hid [S W R K U H (ps & P & Q)]. split; try done.
  - intros x Hx Hs _. apply K; [done..|]. intros Hx'%list_elem_of_singleton. apply Hs.
    rewrite (live_inj _ Hwf x j Hx (proj1 Hw)) by congruence. apply Hw.
  - intros i' _ Hn. apply H; [|done]. intros ->%list_elem_of_singleton. by apply (Hn j).
  - exists ps. split; [done|]. intros p Hp. right. destruct (Q p Hp) as [->%list_elem_of_singleton|?]; [|done].
    by exists j.
Qed.

Lemma dstep_cascade w st : dstep [] (w_store w) st → cascade [] w (with_store st w).
Proof.
  intros Hd. split; simpl; try done.
  - apply Hd.
  - intros j. by apply (dstep_waiting (X:=[])).
  - intros j' Hj'. destruct (ds_rows _ _ _ Hd j' Hj') as (j & ? & ? & ? & [->|[? _]]); exists j; auto.
  - intros j Hj Hs _. by eapply ds_kept.
  - exists []. rewrite app_nil_r. split; [done|]. by intros p ?%elem_of_nil.
Qed.

Lemma cascade_reads E w w' j : cascade E w w' → reads (w_store w) j → reads (w_store w') j.
Proof.
  intros Hc [Hs Hr]. split; [done|]. intros j' Hj' Hid.
  destruct (ca_rows _ _ _ Hc j' Hj') as (j0 & Hj0 & Hid0 & Hsp0 & Hv0).
  destruct (Hr j0 Hj0) as [Hsp Hv]; [congruence|]. split; [congruence|].
  destruct Hv0 as [->|Hv0]; [done|]. right. destruct Hv as [->|]; lia.
Qed.

Lemma cascade_row_ok E w w' row : cascade E w w' → row_ok (w_store w) row → row_ok (w_store w') row.
Proof.
  intros Hc Ho j' Hj' Hid. destruct (ca_rows _ _ _ Hc j' Hj') as (j & Hj & Hij & Hsp & _).
  rewrite Hsp. apply Ho; [done|congruence].
Qed.

Lemma cascade_not_more E w w' : cascade E w w' →
  (length (waiting_jobs (w_store w')) <= length (waiting_jobs (w_store w)))%nat.
Proof.
  intros Hc. apply submseteq_length, NoDup_submseteq.
  - apply NoDup_filter. eapply NoDup_fmap_1, wf_live_ids, Hc.
  - intros x. rewrite !elem_of_waiting_jobs. apply Hc.
Qed.

Lemma cascade_fewer E w w' j :
  cascade E w w' → waiting (w_store w) j → (∀ x, waiting (w_store w') x → j_id x ≠ j_id j) →
  (length (waiting_jobs (w_store w')) < length (waiting_jobs (w_store w)))%nat.
Proof.
  intros Hc Hw Hn.
  assert (length (j :: waiting_jobs (w_store w')) <= length (waiting_jobs (w_store w)))%nat; [|simpl in *; lia].
  apply submseteq_length, NoDup_submseteq.
  - apply NoDup_cons. split; [rewrite elem_of_waiting_jobs; by intros ?%Hn|]. apply NoDup_filter.
    eapply NoDup_fmap_1, wf_live_ids, Hc.
  - intros x [->|Hx]%elem_of_cons; rewrite ?elem_of_waiting_jobs in *; [done|]. by apply Hc.
Qed.

Lemma cascade_has_webhook E w w' i : cascade E w w' → has_webhook w' i = has_webhook w i.
Proof.
  intros Hc. pose proof (ca_urls _ _ _ Hc i) as Hu. unfold has_webhook.
  destruct (w_hooks w' !! i) as [h'|], (w_hooks w !! i) as [h|]; try done. by injection Hu as ->.
Qed.

(** ** The release of dependents *)

Section release_facts.
Context (getaddrinfo : chars → dns_answer) (ev : env) (Hev : env_ok ev).

(** The guard answers for the URL, with a target or a refusal: it raises nothing else. *)
Definition answers (l : chars) : Prop :=
  match resolve_webhook_url getaddrinfo l false with Err UrlInvalid | Err ResolverRaises => False | _ => True end.

Definition calm (w : world) : Prop := ∀ i h, w_hooks w !! i = Some h → answers (h_url h).

Lemma cascade_calm E w w' : cascade E w w' → calm w → calm w'.
Proof using Type.
  intros Hc Ha i h Hi. pose proof (ca_urls _ _ _ Hc i) as Hu. rewrite Hi in Hu.
  destruct (w_hooks w !! i) as [h0|] eqn:H0; [|done]. injection Hu as ->. by eapply Ha.
Qed.

(** A failure that behaves while fewer than [n] jobs wait. *)
Definition fails_well (n : nat) (fail : queued_job → string → string → world → world * result delivery_error unit)
    : Prop :=
  ∀ j error reason w w' r, holds w → calm w → reads (w_store w) j → (length (waiting_jobs (w_store w)) < n)%nat →
  fail j error reason w = (w', r) →
  cascade [] w w' ∧ (r = Ok tt ∨ (r = Err (StoreRaised ConcurrentModificationError) ∧ w' = w)) ∧
  (r = Ok tt → ∀ x, waiting (w_store w') x → j_id x ≠ j_id j) ∧ (waiting (w_store w) j → r = Ok tt).

Context (n : nat) (fail : queued_job → string → string → world → world * result delivery_error unit).
Context (Hfail : fails_well n fail).

Lemma recheck_hooked_step id created w :
  holds w → calm w → row_ok (w_store w) (id, created) → (length (waiting_jobs (w_store w)) < n)%nat →
  ∃ w' o, recheck_hooked ev fail id created w = (w', Ok o) ∧ cascade [] w w' ∧
    (o = RFailed → length (waiting_jobs (w_store w')) < length (waiting_jobs (w_store w)))%nat.
Proof using Hev Hfail.
  intros Hi Ha Hrow Hn. pose proof Hi as [Hwf _]. unfold recheck_hooked.
  rewrite drop_blocked_list, running_ids_single.
  assert ((∀ j, waiting (w_store w) j → j_id j ≠ id) →
    cascade [] w (with_store (delete_blocked [id] (w_store w)) w)) as Hgone.
  { intros Hno. by apply cascade_store; [apply drop_blocked_sound|..]. }
  destruct (job_by_key (w_store w) id created) as [j|] eqn:Hk; cycle 1.
  { do 2 eexists. split; [done|]. split; [|done]. by eapply Hgone, recheck_gone. }
  pose proof Hk as (Hl & Hid & _)%job_by_key_Some; [|done].
  destruct (negb (bool_decide (j_status j = Queued)) || _is_running (w_store w) id) eqn:Hidle.
  { do 2 eexists. split; [done|]. split; [|done]. apply Hgone. by eapply not_waiting. }
  destruct (waiting_by_key _ _ _ _ Hwf Hk Hidle) as (Hw & _ & _).
  destruct (deps_failed _); [|destruct (negb (check_dependencies_met (w_store w) j).1.1)].
  - destruct (fail _ _ _ w) as [w1 r1] eqn:Hf.
    apply Hfail in Hf as (Hc & _ & Hno & Hok); [|done|done|apply reads_live; [done|apply Hw..]|done].
    rewrite (Hok Hw). do 2 eexists. split; [done|]. split; [done|]. intros _.
    eapply cascade_fewer; [done..|]. by apply Hno, Hok.
  - do 2 eexists. split; [done|]. split; [by apply cascade_refl|done].
  - do 2 eexists. split; [done|]. split; [|done]. rewrite <-Hid.
    apply cascade_store; [by apply ready_again_sound|..]; by rewrite add_writes.
Qed.

Lemma recheck_rows_step rows : ∀ work released w,
  holds w → calm w → Forall (row_ok (w_store w)) rows → (length (waiting_jobs (w_store w)) < n)%nat →
  ∃ w' work' released', recheck_rows ev fail rows work released w = (w', Ok (work', released')) ∧
    cascade [] w w' ∧
    (length work' + length (waiting_jobs (w_store w')) <= length work + length (waiting_jobs (w_store w)))%nat.
Proof using Hev Hfail.
  induction rows as [|[id created] rows IH]; intros work released w Hi Ha Hrows Hn; simpl.
  { do 3 eexists. split; [done|]. split; [by apply cascade_refl|done]. }
  apply Forall_cons in Hrows as [Hrow Hrows].
  destruct (recheck_hooked_step id created w) as (w1 & o & -> & Hc & Hless); [done..|].
  pose proof (cascade_not_more _ _ _ Hc) as Hle.
  assert (∀ work released, ∃ w' work' released', recheck_rows ev fail rows work released w1 = (w', Ok (work', released')) ∧
    cascade [] w w' ∧
    (length work' + length (waiting_jobs (w_store w')) <= length work + length (waiting_jobs (w_store w1)))%nat) as Hrest.
  { intros work0 released0. destruct (IH work0 released0 w1) as (w' & work' & rel' & Heq & Hc' & Hlen);
      [by eapply cascade_inv|by eapply cascade_calm| |lia|].
    - eapply Forall_impl; [exact Hrows|]. intros row. by eapply cascade_row_ok.
    - do 3 eexists. split; [exact Heq|]. split; [by eapply cascade_trans|done]. }
  destruct o.
  - destruct (Hrest work (released + 1)) as (w' & work' & rel' & -> & ? & ?). do 3 eexists. split_and!; [done..|lia].
  - specialize (Hless eq_refl). destruct (Hrest ((id, None) :: work) released) as (w' & work' & rel' & -> & ? & ?).
    do 3 eexists. simpl in *. split_and!; [done..|lia].
  - destruct (Hrest work released) as (w' & work' & rel' & -> & ? & ?). do 3 eexists. split_and!; [done..|lia].
  - destruct (Hrest work released) as (w' & work' & rel' & -> & ? & ?). do 3 eexists. split_and!; [done..|lia].
Qed.

(** The work stack and the jobs that wait bound the loop together. *)
Lemma dj_release_loop_step fuel : ∀ work seen released w,
  holds w → calm w → (length (waiting_jobs (w_store w)) < n)%nat →
  (length work + length (waiting_jobs (w_store w)) <= fuel)%nat →
  ∃ w' k, dj_release_loop ev fail fuel work seen released w = (w', Ok k) ∧ cascade [] w w'.
Proof using Hev Hfail.
  induction fuel as [|fuel IH]; intros [|[id parent] work] seen released w Hi Ha Hn Hfuel; simpl in *;
    try (do 2 eexists; split; [done|by apply cascade_refl]); [lia|].
  case_decide; [apply IH; [done..|lia]|].
  destruct (recheck_rows_step (_dependents_of (w_store w) id parent) work released w)
    as (w1 & work1 & rel1 & -> & Hc & Hlen); [done|done|by apply dependents_rows_ok, Hi|done|].
  pose proof (cascade_not_more _ _ _ Hc) as Hle.
  destruct (IH work1 (id :: seen) rel1 w1) as (w2 & k & -> & Hc2);
    [by eapply cascade_inv|by eapply cascade_calm|lia|lia|].
  do 2 eexists. split; [done|by eapply cascade_trans].
Qed.

Lemma dj_release_done id parent w :
  holds w → calm w → (length (waiting_jobs (w_store w)) < n)%nat →
  ∃ w' k, dj_release_dependents ev fail id parent w = (w', Ok k) ∧ cascade [] w w'.
Proof using Hev Hfail.
  intros Hi Ha Hn. apply dj_release_loop_step; [done..|]. pose proof (length_waiting_jobs (w_store w)). simpl. lia.
Qed.

Lemma release_quietly_cascade id parent w :
  holds w → calm w → (length (waiting_jobs (w_store w)) < n)%nat →
  cascade [] w (release_dependents_quietly ev fail id parent w).
Proof using Hev Hfail.
  intros Hi Ha Hn. unfold release_dependents_quietly.
  by destruct (dj_release_done id parent w) as (w' & k & -> & Hc).
Qed.

(** ** The settled job *)

Definition my_posts (i : Z) (w : world) : list post := filter (λ p, p_job p = i) (w_posts w).

(** The job has left the live table and history has it with status [s]; [settled] is with the status
    it finished with. *)
Definition settled_as (s : job_status) (j : queued_job) (w : world) : Prop :=
  (∀ x, x ∈ live (w_store w) → j_id x ≠ j_id j) ∧
  ∃ row, history_by_id (w_store w) (j_id j) = Some row ∧ j_status row = s ∧ j_spec row = j_spec j.

Definition settled (j : queued_job) (w : world) : Prop := settled_as (j_status j) j w.

Lemma settled_cascade s j E w w' : holds w → cascade E w w' → settled_as s j w → settled_as s j w'.
Proof using Type.
  intros [Hwf _] Hc [Hl (row & Hrow & Hs & Hsp)]. pose proof (cascade_inv _ _ _ Hc) as [Hwf' _].
  apply history_by_id_Some in Hrow as [Hr Hid]; [|done].
  assert (row ∈ history (w_store w')) as Hr' by (eapply elem_of_prefix; [exact Hr|apply Hc]).
  split.
  - intros x Hx ?. eapply (wf_disjoint _ Hwf' x row); [done..|congruence].
  - exists row. split; [|done]. by apply history_by_id_Some.
Qed.

Lemma my_posts_app i w ps : filter (λ p, p_job p = i) (w_posts w ++ ps) = my_posts i w ++ filter (λ p, p_job p = i) ps.
Proof using Type. apply filter_app. Qed.

Lemma cascade_posts E w w' i :
  i ∉ E → (∀ j, waiting (w_store w) j → j_id j ≠ i) → cascade E w w' → my_posts i w' = my_posts i w.
Proof using Type.
  intros Hi Hn Hc. destruct (ca_posts _ _ _ Hc) as (ps & Hp & Hq). unfold my_posts at 1.
  rewrite Hp, my_posts_app, filter_none, app_nil_r; [done|]. intros p Hin Hj.
  destruct (Hq p Hin) as [?|(j & Hw & ?)]; [congruence|]. apply (Hn j Hw). congruence.
Qed.

Lemma moved_cascade w j s v :
  holds w → j ∈ live (w_store w) → is_terminal (Some s) = true →
  ∃ st, Django.move ev (j_id j) (j_created_at j) s v None (Some [j_status j]) false true (w_store w) = (st, Ok true) ∧
    cascade [j_id j] w (with_store st w) ∧ settled_as s j (with_store st w).
Proof using Type.
  intros Hi Hj Ht. pose proof Hi as [Hwf _]. rewrite move_finishes by done.
  set (f := {| fe_created_at := _ |}).
  assert (∃ st, _finish_in ev (j_id j) s v f (w_store w) = (st, Ok true)) as [st Hs].
  { destruct (finish_in_cases ev (j_id j) s v f _ Hwf) as [(? & _ & _ & ->)|[Hn _]]; [by eexists|].
    destruct (Hn j Hj). split; [done|]. split_and!; try done. by apply list_elem_of_here. }
  exists st. split; [done|].
  pose proof (finish_in_sound (X:=[]) ev (j_id j) s v f _ Hi Ht) as Hsd. rewrite Hs in Hsd. simpl in Hsd.
  pose proof (finish_in_records _ _ _ _ _ _ _ Hwf Ht Hs) as (row & Hrow & Hm & Hl & Hh).
  assert (row = j) as -> by (eapply live_inj; [done|done|done|apply Hm]).
  split; [|split; [intros x Hx; by apply Hl in Hx as [_ ?]|eexists; split; [exact Hh|done]]].
  split; simpl; try done.
  - intros x (Hx & Hq & Hr). apply Hl in Hx as [Hx Hne]. split_and!; [done..|]. rewrite <-Hr. symmetry.
    destruct (finish_in_cases ev (j_id j) s v f _ Hwf) as [(? & _ & _ & E)|[_ E]];
      rewrite E in Hs; [|done]. injection Hs as <-.
    by apply (is_running_close (open_for (j_id j)) _ _ (w_store w) (j_id j)); [intros a _ []|].
  - intros x Hx. apply Hl in Hx as [Hx _]. exists x. auto.
  - intros x Hx _ Hne. apply Hl. split; [done|]. by rewrite list_elem_of_singleton in Hne.
  - exists []. rewrite app_nil_r. split; [done|]. by intros p ?%elem_of_nil.
Qed.

(** The move of a finished job and the release of its dependents. *)
Lemma move_release_step w j s v st :
  holds w → calm w → j ∈ live (w_store w) → is_terminal (Some s) = true →
  (length (waiting_jobs (w_store w)) < n)%nat →
  Django.move ev (j_id j) (j_created_at j) s v None (Some [j_status j]) false true (w_store w) = (st, Ok true) →
  let w' := release_dependents_quietly ev fail (j_id j) (j_parent j) (with_store st w) in
  cascade [j_id j] w w' ∧ settled_as s j w' ∧ w_hooks w' !! j_id j = w_hooks w !! j_id j ∧
  my_posts (j_id j) w' = my_posts (j_id j) w.
Proof using Hev Hfail.
  intros Hi Ha Hj Ht Hn Hs w'. destruct (moved_cascade w j s v Hi Hj Ht) as (st' & Hs' & Hc & Hd).
  rewrite Hs in Hs'. injection Hs' as <-.
  assert (cascade [] (with_store st w) w') as Hc2.
  { apply release_quietly_cascade; [by eapply cascade_inv|by eapply cascade_calm|].
    pose proof (cascade_not_more _ _ _ Hc). lia. }
  assert (∀ x, waiting (w_store (with_store st w)) x → j_id x ≠ j_id j) as Hno.
  { intros x [Hx _]. by apply Hd. }
  split_and!.
  - eapply cascade_trans; [exact Hc|by apply cascade_weaken].
  - apply (settled_cascade s j [] (with_store st w)); [by eapply cascade_inv, Hc|done..].
  - rewrite (ca_hooks _ _ _ Hc2); [done|by intros ?%elem_of_nil|done].
  - rewrite (cascade_posts [] (with_store st w) w'); [done|by intros ?%elem_of_nil|done..].
Qed.

Lemma settle_step j w :
  holds w → calm w → j ∈ live (w_store w) → is_terminal (Some (j_status j)) = true →
  (length (waiting_jobs (w_store w)) < n)%nat →
  cascade [j_id j] w (_settle ev fail j w) ∧ settled j (_settle ev fail j w) ∧
  w_hooks (_settle ev fail j w) !! j_id j = w_hooks w !! j_id j ∧
  my_posts (j_id j) (_settle ev fail j w) = my_posts (j_id j) w.
Proof using Hev Hfail.
  intros Hi Ha Hj Ht Hn. unfold _settle, settle_finished. rewrite Ht. cbn [negb].
  destruct (moved_cascade w j (j_status j) no_values Hi Hj Ht) as (st & Hs & _). unfold settle. simpl. rewrite Hs.
  by apply (move_release_step w j (j_status j) no_values).
Qed.

(** ** One attempt to deliver *)

Context (httpx : bool) (client : chars → chars → http_outcome).

(** The request goes to the address the guard checked, under the name of the URL. *)
Definition pinned (l : chars) (p : post) : Prop :=
  ∃ t, resolve_webhook_url getaddrinfo l false = Ok t ∧ pin_url l t = Some (p_url p, p_host p).

Definition delivered_status (event : string) (h : hook) : hook :=
  if decide (event ∈ h_events h) then with_status "sent" h else h.

Lemma save_hook_live id h w j :
  job_by_id (w_store w) id = Some j → save_hook id h w = (with_hook id h w, Ok tt).
Proof using Type. unfold save_hook. by intros ->. Qed.

(** At most one request, pinned; the status is written when it was sent. *)
Lemma send_webhook_cases id h event w j :
  job_by_id (w_store w) id = Some j → w_hooks w !! id = Some h → h_url h ≠ [] → answers (h_url h) →
  ∃ (b : bool) (ps : list post), send_webhook getaddrinfo httpx client id h event w =
    ({| w_store := w_store w;
        w_hooks := (if b then <[id := delivered_status event h]> (w_hooks w) else w_hooks w);
        w_posts := w_posts w ++ ps |}, if b then delivered_status event h else h, Ok b) ∧
    (length ps <= 1)%nat ∧ Forall (λ p, p_job p = id ∧ pinned (h_url h) p) ps.
Proof using Type.
  intros Hj Hh Hu Ha. unfold send_webhook. rewrite bool_decide_eq_false_2 by done. unfold delivered_status.
  assert (w = {| w_store := w_store w; w_hooks := w_hooks w; w_posts := w_posts w ++ [] |}) as Hw
    by (rewrite app_nil_r; by destruct w).
  case_bool_decide as He; cbn [negb]; cycle 1.
  { exists true, []. rewrite decide_False, insert_id, <-Hw by done. by split_and!; [|simpl; lia|]. }
  unfold answers in Ha. destruct (resolve_webhook_url getaddrinfo (h_url h) false) as [t|[]] eqn:Hr; try done; cycle 1.
  { exists false, []. rewrite <-Hw. by split_and!; [|simpl; lia|]. }
  destruct httpx; cbn [negb]; cycle 1.
  { exists false, []. rewrite <-Hw. by split_and!; [|simpl; lia|]. }
  destruct (pin_url (h_url h) t) as [[url host]|] eqn:Hp; cycle 1.
  { exists false, []. rewrite <-Hw. by split_and!; [|simpl; lia|]. }
  assert (Forall (λ p, p_job p = id ∧ pinned (h_url h) p) [{| p_job := id; p_url := url; p_host := host |}]) as Hps.
  { apply Forall_singleton. split; [done|]. by exists t. }
  destruct (client url host) as [code|]; [case_decide|].
  - eexists true, _. rewrite decide_True by done. rewrite (save_hook_live _ _ _ j) by done.
    split_and!; [reflexivity|simpl; lia|exact Hps].
  - eexists false, _. split_and!; [reflexivity|simpl; lia|exact Hps].
  - eexists false, _. split_and!; [reflexivity|simpl; lia|exact Hps].
Qed.

(** A change of the delivery columns of one job, and requests for it. *)
Lemma hook_cascade id h h' ps w :
  holds w → w_hooks w !! id = Some h → h_url h' = h_url h → Forall (λ p, p_job p = id) ps →
  cascade [id] w {| w_store := w_store w; w_hooks := <[id := h']> (w_hooks w); w_posts := w_posts w ++ ps |}.
Proof using Type.
  intros Hi Hh Hu Hps. split; simpl; try done.
  - intros x Hx. exists x. auto.
  - intros i. destruct (decide (i = id)) as [->|Hne]; [|by rewrite lookup_insert_ne].
    rewrite lookup_insert_eq, Hh. simpl. by rewrite Hu.
  - intros i Hi' _. rewrite lookup_insert_ne; [done|]. intros <-. apply Hi'. by apply list_elem_of_here.
  - exists ps. split; [done|]. intros p Hp. left. rewrite Forall_forall in Hps. rewrite (Hps p Hp). apply list_elem_of_here.
Qed.

Lemma url_of_delivered event h : h_url (delivered_status event h) = h_url h.
Proof using Type. unfold delivered_status. by case_decide. Qed.

(** What one attempt leaves of its job: the delivery is resolved, and the job in history, or it is
    pending with one failure more. *)
Record tried (j : queued_job) (h : hook) (event : string) (w w' : world) (b : bool) (h' : hook)
    (ps : list post) : Prop := {
  tr_hook : w_hooks w' !! j_id j = Some h';
  tr_fixed : h_url h' = h_url h ∧ h_events h' = h_events h ∧ h_max_retries h' = h_max_retries h;
  tr_posts : my_posts (j_id j) w' = my_posts (j_id j) w ++ ps;
  tr_few : (length ps <= 1)%nat;
  tr_pinned : Forall (pinned (h_url h)) ps;
  tr_outcome :
    if b then settled j w' ∧ h_retries h' = h_retries h ∧
      (event ∈ h_events h → h_status h' = Some "sent")
    else h_retries h' = h_retries h + 1 ∧
      if h_retries h' <? h_max_retries h'
      then j ∈ live (w_store w') ∧ h_status h' = Some "pending"
      else settled j w' ∧ h_status h' = Some "failed";
}.

Definition attempted (j : queued_job) (h : hook) (event : string) (w w' : world) (b : bool) (h' : hook)
    (ps : list post) : Prop :=
  cascade [j_id j] w w' ∧ tried j h event w w' b h' ps.

Lemma my_posts_own i w w' ps :
  w_posts w' = w_posts w ++ ps → Forall (λ p, p_job p = i) ps → my_posts i w' = my_posts i w ++ ps.
Proof using Type.
  intros Hp Hps. unfold my_posts at 1. rewrite Hp, my_posts_app. f_equal. clear Hp. induction Hps as [|p ps Hid _ IH]; [done|].
  rewrite filter_cons_True by done. by rewrite IH.
Qed.

Lemma attempt_settles j h event (b : bool) h' ps w w1 :
  holds w → calm w → j ∈ live (w_store w) → is_terminal (Some (j_status j)) = true →
  (length (waiting_jobs (w_store w)) < n)%nat → w_hooks w !! j_id j = Some h →
  h_url h' = h_url h → h_events h' = h_events h → h_max_retries h' = h_max_retries h →
  (length ps <= 1)%nat → Forall (λ p, p_job p = j_id j ∧ pinned (h_url h) p) ps →
  w1 = {| w_store := w_store w; w_hooks := <[j_id j := h']> (w_hooks w); w_posts := w_posts w ++ ps |} →
  (if b then h_retries h' = h_retries h ∧ (event ∈ h_events h → h_status h' = Some "sent")
   else h_retries h' = h_retries h + 1 ∧ h_max_retries h' <= h_retries h' ∧ h_status h' = Some "failed") →
  attempted j h event w (_settle ev fail j w1) b h' ps.
Proof using Hev Hfail.
  intros Hi Ha Hj Ht Hn Hh Hu Hev' Hmax Hlen Hps Hw1 Hout.
  assert (Forall (λ p, p_job p = j_id j) ps) as Hown by (eapply Forall_impl; [exact Hps|]; by intros p [? _]).
  pose proof (hook_cascade _ _ h' ps w Hi Hh Hu Hown) as Hc1. rewrite <-Hw1 in Hc1.
  assert (w_store w1 = w_store w ∧ w_hooks w1 !! j_id j = Some h' ∧ w_posts w1 = w_posts w ++ ps) as (Hs1 & Hh1 & Hp1).
  { rewrite Hw1. simpl. by rewrite lookup_insert_eq. }
  destruct (settle_step j w1) as (Hc & Hd & Hhk & Hpo); [by eapply cascade_inv|by eapply cascade_calm|by rewrite Hs1|done|by rewrite Hs1|].
  split; [by eapply cascade_trans|]. split.
  - congruence.
  - done.
  - rewrite Hpo. by apply my_posts_own.
  - done.
  - eapply Forall_impl; [exact Hps|]. by intros p [_ ?].
  - destruct b; [by destruct Hout|]. destruct Hout as (? & ? & ?). split; [done|].
    destruct (Z.ltb_spec (h_retries h') (h_max_retries h')); [lia|done].
Qed.

Lemma send_with_retry_attempts j h event w :
  holds w → calm w → j ∈ live (w_store w) → is_terminal (Some (j_status j)) = true →
  (length (waiting_jobs (w_store w)) < n)%nat → w_hooks w !! j_id j = Some h → h_url h ≠ [] →
  ∃ w' b h' ps, send_webhook_with_retry getaddrinfo httpx client ev fail j h event w = (w', Ok b) ∧
    attempted j h event w w' b h' ps.
Proof using Hev Hfail.
  intros Hi Ha Hj Ht Hn Hh Hu. unfold send_webhook_with_retry. rewrite bool_decide_eq_false_2 by done.
  assert (job_by_id (w_store w) (j_id j) = Some j) as Hjb by (by apply job_by_id_Some; [apply Hi|]).
  set (h0 := if decide (h_retries h = 0) then with_status "pending" h else h).
  set (w0 := {| w_store := w_store w; w_hooks := <[j_id j := h0]> (w_hooks w); w_posts := w_posts w |}).
  assert (h_url h0 = h_url h ∧ h_events h0 = h_events h ∧ h_max_retries h0 = h_max_retries h ∧
    h_retries h0 = h_retries h) as (Hu0 & He0 & Hm0 & Hr0) by (subst h0; by case_decide).
  assert ((if decide (h_retries h = 0)
           then let '(w0, r) := save_hook (j_id j) (with_status "pending" h) w in (w0, with_status "pending" h, r)
           else (w, h, Ok tt)) = (w0, h0, Ok tt)) as ->.
  { subst w0 h0. case_decide; [by rewrite (save_hook_live _ _ _ j)|].
    rewrite insert_id by done. by destruct w. }
  destruct (send_webhook_cases (j_id j) h0 event w0 j) as (b & ps & -> & Hlen & Hps);
    [done|by apply lookup_insert_eq|congruence|rewrite Hu0; by eapply Ha|].
  rewrite Hu0 in Hps. cbn [w_store w_hooks w_posts w0]. destruct b.
  - do 4 eexists. split; [done|]. eapply attempt_settles with (h' := delivered_status event h0); try done.
    + by rewrite url_of_delivered.
    + unfold delivered_status. by case_decide.
    + unfold delivered_status. by case_decide.
    + by rewrite insert_insert_eq.
    + unfold delivered_status. case_decide; [done|]. split; [done|]. rewrite <-He0. done.
  - set (w1 := {| w_store := w_store w; w_hooks := <[j_id j := h0]> (w_hooks w); w_posts := w_posts w ++ ps |}).
    rewrite !(save_hook_live _ _ _ j) by done. cbn [h_retries h_max_retries with_failure].
    destruct (Z.ltb_spec (h_retries h0 + 1) (h_max_retries h0)) as [Hlt|Hge].
    + do 4 eexists. split; [done|]. unfold with_hook. simpl. rewrite !insert_insert_eq.
      assert (Forall (λ p, p_job p = j_id j) ps) as Hown by (eapply Forall_impl; [exact Hps|]; by intros p [? _]).
      split; [by eapply hook_cascade|]. split; [simpl; by rewrite lookup_insert_eq|by split_and!|by apply my_posts_own|done| |].
      * eapply Forall_impl; [exact Hps|]. by intros p [_ ?].
      * simpl. split; [lia|]. destruct (Z.ltb_spec (h_retries h0 + 1) (h_max_retries h0)); [done|lia].
    + do 4 eexists. split; [done|].
      eapply attempt_settles with (h' := with_status "failed" (with_failure h0)); try done.
      * unfold with_hook. simpl. by rewrite !insert_insert_eq.
      * simpl. split_and!; [lia|lia|done].
Qed.
End release_facts.

(** ** The cascade of failures *)

Section cascade_facts.
Context (getaddrinfo : chars → dns_answer) (httpx : bool) (client : chars → chars → http_outcome).
Context (ev : env) (Hev : env_ok ev).

Lemma fail_dependents_hooked_spec n fail (message : string) deps w :
  fails_well getaddrinfo n fail → holds w → calm getaddrinfo w → (length (waiting_jobs (w_store w)) < n)%nat →
  (∀ x, x ∈ deps → waiting (w_store w) x) →
  ∃ w', fail_dependents_hooked (λ dep, fail dep message "dependency_failed") deps w = (w', Ok tt) ∧ cascade [] w w'.
Proof using Type.
  intros Hfail Hi Ha Hn Hw. unfold fail_dependents_hooked.
  match goal with |- ∃ _, foldl ?F _ _ = _ ∧ _ => set (F0 := F) end.
  assert (∀ l v, cascade [] w v → l ⊆ deps →
    ∃ v', foldl F0 (v, Ok tt) l = (v', Ok tt) ∧ cascade [] w v') as Hfold; [|by apply Hfold; [apply cascade_refl|]].
  induction l as [|x l IH]; intros v Hv Hsub; simpl; [by exists v|].
  assert (x ∈ deps) as Hx by (apply Hsub, list_elem_of_here).
  assert (l ⊆ deps) as Hl by (intros y Hy; apply Hsub; by right).
  destruct (fail x message "dependency_failed" v) as [v1 r] eqn:Hf.
  pose proof (cascade_not_more _ _ _ Hv) as Hle.
  apply Hfail in Hf as (Hd & Hr & _).
  - destruct (IH v1) as (v' & Heq & Hv'); [by eapply cascade_trans|done|].
    exists v'. split; [|done]. destruct Hr as [->|[-> ->]]; done.
  - by eapply cascade_inv.
  - by eapply cascade_calm.
  - eapply cascade_reads; [exact Hv|]. apply waiting_reads; [apply Hi|by apply Hw].
  - lia.
Qed.

(** A waiting job with a webhook is failed where it is. *)
Lemma failed_txn_in_place webhook_url j error traceback reason st st' :
  wf st → waiting st j → webhook_url (j_id j) = true →
  failed_txn webhook_url ev j error traceback reason None true st = (st', Ok tt) →
  ∃ j', j' ∈ live st' ∧ j_id j' = j_id j ∧ j_status j' = Failed.
Proof using Type.
  intros Hwf (Hj & Hq & Hr) Hhook. unfold failed_txn. cbn [orb]. rewrite Hhook, orb_true_r.
  set (f := {| fe_created_at := Some (j_created_at j) |}). set (v := final_values _ _ _ _ _ _ _ _).
  unfold update_in_place. destruct (rowcount _ _) as [|[|k]]; try done. intros [= <-].
  eexists. split; [apply elem_of_update_where; exists j; split; [exact Hj|reflexivity]|].
  rewrite decide_True; [done|]. by split_and!; simpl.
Qed.

Lemma mark_failed_hooked_idle fuel :
  fails_well getaddrinfo fuel
    (λ j error reason, mark_failed_hooked getaddrinfo httpx client ev fuel j error "" reason None true).
Proof using Hev.
  induction fuel as [|fuel IH]; intros j error reason w w' r Hi Ha Hr Hfuel; [lia|]. cbn [mark_failed_hooked].
  destruct (failed_txn (has_webhook w) ev j error "" reason None true (w_store w)) as [st1 r1] eqn:Hf.
  pose proof Hf as Hf'.
  apply (failed_txn_idle (X:=[])) in Hf' as [(-> & Hd & Hgone & row & Hrow & Hid & Hv & Hrun)|[-> ->]]; [| |done..].
  2:{ intros [= <- <-]. split_and!; [by apply cascade_refl|by right|done|]. intros Hwj.
      destruct (failed_txn_waiting (has_webhook w) ev j error "" reason _ (proj1 Hi) Hwj) as [? Heq]. congruence. }
  assert (row = j) as -> by (destruct (proj2 Hr row Hrow Hid) as [_ [->|]]; [done|lia]).
  assert (waiting (w_store w) j) as Hwj by (by split_and!; [|apply Hr|]).
  pose proof (release_worker_dstep (X:=[]) ev (worker_of w j true) (j_id j) st1 (dstep_inv _ _ Hd)) as Hd2.
  assert (live (Django._release_worker ev (worker_of w j true) (j_id j) st1) = live st1) as Hl2
    by (by destruct (worker_of w j true)).
  set (w2 := with_store (Django._release_worker ev (worker_of w j true) (j_id j) st1) w) in *.
  assert (cascade [] w w2) as Hc2 by (by apply dstep_cascade; eapply dstep_trans).
  assert (∀ x, waiting (w_store w2) x → j_id x ≠ j_id j) as Hno.
  { intros x Hx. apply Hgone. by eapply (dstep_waiting (X:=[])). }
  pose proof (cascade_fewer _ _ _ _ Hc2 Hwj Hno) as Hless.
  edestruct (fail_dependents_hooked_spec fuel _ (String.append "Dependency failed: job " (py_str_int (j_id j)))
    (dependent_jobs (w_store w2) (j_id j)) w2 IH) as (w3 & -> & Hc3);
    [by eapply cascade_inv|by eapply cascade_calm|lia| |].
  { intros x [[Hx _] Hl]%list_elem_of_filter. by apply waiting_clause_waiting. }
  pose proof (cascade_trans _ _ _ _ Hc2 Hc3) as Hc.
  assert (∀ x, waiting (w_store w3) x → j_id x ≠ j_id j) as Hno3 by (intros x Hx; by apply Hno, Hc3).
  assert (∃ w4, notify getaddrinfo httpx client ev
      (λ dep error reason, mark_failed_hooked getaddrinfo httpx client ev fuel dep error "" reason None true)
      j "failure" w3 = (w4, Ok tt) ∧ cascade [j_id j] w3 w4) as (w4 & -> & Hc4).
  { unfold notify. assert (w_hooks w3 !! j_id j = w_hooks w !! j_id j) as ->.
    { rewrite (ca_hooks _ _ _ Hc3); [done|by intros ?%elem_of_nil|done]. }
    destruct (w_hooks w !! j_id j) as [h|] eqn:Hh.
    2:{ exists w3. split; [done|]. apply cascade_weaken, cascade_refl. by eapply cascade_inv. }
    case_bool_decide as Hu.
    { exists w3. split; [done|]. apply cascade_weaken, cascade_refl. by eapply cascade_inv. }
    apply failed_txn_in_place in Hf as (j' & Hj' & Hid' & Hst'); [|apply Hi|done|].
    2:{ unfold has_webhook. rewrite Hh. by rewrite bool_decide_eq_false_2. }
    assert (j' ∈ live (w_store w3)) as Hl3.
    { eapply ca_kept; [exact Hc3|by simpl; rewrite Hl2|by rewrite Hst'|by intros ?%elem_of_nil]. }
    assert (job_by_id (w_store w3) (j_id j) = Some j') as -> by (apply job_by_id_Some; [eapply cascade_inv, Hc3|done]).
    simpl. pose proof (cascade_not_more _ _ _ Hc3).
    destruct (send_with_retry_attempts getaddrinfo ev Hev fuel _ IH httpx client j' h "failure" w3)
      as (w4 & b & h' & ps & -> & Hat).
    - by eapply cascade_inv.
    - by eapply cascade_calm.
    - done.
    - by rewrite Hst'.
    - lia.
    - rewrite Hid'. rewrite (ca_hooks _ _ _ Hc3); [done|by intros ?%elem_of_nil|done].
    - done.
    - exists w4. split; [done|]. rewrite <-Hid'. apply Hat. }
  intros [= <- <-]. split_and!; [|by left| |done].
  - apply (cascade_absorb (j_id j) _ _ j); [done..|]. eapply cascade_trans; [by apply cascade_weaken|done].
  - intros _ x Hx. apply Hno3. by eapply ca_waiting.
Qed.

Lemma fail_waiting_job_well w :
  fails_well getaddrinfo (S (length (live (w_store w)))) (fail_waiting_job getaddrinfo httpx client ev w).
Proof using Hev. apply mark_failed_hooked_idle. Qed.

(** One attempt, as the periodic retry makes it. *)
Lemma retry_attempts j h event w :
  holds w → calm getaddrinfo w → j ∈ live (w_store w) → is_terminal (Some (j_status j)) = true →
  w_hooks w !! j_id j = Some h → h_url h ≠ [] →
  ∃ w' b h' ps, send_webhook_with_retry getaddrinfo httpx client ev
      (fail_waiting_job getaddrinfo httpx client ev w) j h event w = (w', Ok b) ∧
    attempted getaddrinfo j h event w w' b h' ps.
Proof using Hev.
  intros Hi Ha Hj Ht Hh Hu. eapply send_with_retry_attempts; try done; [apply fail_waiting_job_well|].
  pose proof (length_waiting_jobs (w_store w)). lia.
Qed.
End cascade_facts.

(** ** The rounds of retries *)

(** What a round of [retry_failed_webhooks] runs with. *)
Record round : Type := {
  ro_dns : chars → dns_answer;
  ro_client : chars → chars → http_outcome;
  ro_env : env;
}.

(** A round that raises leaves what it did. *)
Definition retry_rounds (httpx : bool) (rounds : list round) (w : world) : world :=
  foldl (λ w r, (retry_failed_webhooks (ro_dns r) httpx (ro_client r) (ro_env r) w).1) w rounds.

Section tried_facts.
Context {getaddrinfo : chars → dns_answer}.

Lemma finished_not_waiting w j : holds w → j ∈ live (w_store w) → j_status j ≠ Queued →
  ∀ x, waiting (w_store w) x → j_id x ≠ j_id j.
Proof using Type.
  intros [Hwf _] Hj Hs x (Hx & Hq & _) Hid. by rewrite (live_inj _ Hwf x j Hx Hj Hid) in Hq.
Qed.

Lemma tried_before j h event E w0 w w' b h' ps :
  holds w0 → j ∈ live (w_store w0) → j_status j ≠ Queued → cascade E w0 w → j_id j ∉ E →
  tried getaddrinfo j h event w w' b h' ps → tried getaddrinfo j h event w0 w' b h' ps.
Proof using Type.
  intros Hi Hj Hs Hc HE [Hh Hf Hp Hl Hps Ho]. split; try done.
  rewrite Hp. f_equal. eapply cascade_posts; [done| |done]. by apply finished_not_waiting.
Qed.

Lemma tried_after j h event E w w' w'' b h' ps :
  holds w' → j_status j ≠ Queued → cascade E w' w'' → j_id j ∉ E →
  tried getaddrinfo j h event w w' b h' ps → tried getaddrinfo j h event w w'' b h' ps.
Proof using Type.
  intros Hi Hs Hc HE [Hh Hf Hp Hl Hps Ho].
  assert (∀ x, waiting (w_store w') x → j_id x ≠ j_id j) as Hn.
  { assert (settled j w' ∨ j ∈ live (w_store w')) as [Hd|Hj].
    - destruct b; [by left; apply Ho|]. destruct Ho as [_ Ho]. case_match; [right|left]; apply Ho.
    - intros x [Hx _]. by apply Hd.
    - by apply finished_not_waiting. }
  split; try done.
  - by rewrite (ca_hooks _ _ _ Hc).
  - rewrite <-Hp. by eapply cascade_posts.
  - destruct b; [destruct Ho as [? ?]; split; [by eapply settled_cascade|done]|].
    destruct Ho as [? Ho]. split; [done|]. destruct (h_retries h' <? h_max_retries h'); destruct Ho as [? ?]; (split; [|done]).
    + by eapply ca_kept.
    + by eapply settled_cascade.
Qed.
End tried_facts.

Section rounds.
Context (httpx : bool).

Section one_round.
Context (getaddrinfo : chars → dns_answer) (client : chars → chars → http_outcome) (ev : env) (Hev : env_ok ev).

Lemma retry_loop_step jobs : ∀ s w,
  holds w → calm getaddrinfo w → NoDup (j_id ∘ fst <$> jobs) →
  (∀ j h, (j, h) ∈ jobs → is_Some (event_of (j_status j)) → j ∈ live (w_store w) ∧ w_hooks w !! j_id j = Some h) →
  ∃ w' s', retry_loop getaddrinfo httpx client ev jobs s w = (w', Ok s') ∧
    cascade (j_id ∘ fst <$> jobs) w w' ∧
    ∀ j h event, (j, h) ∈ jobs → event_of (j_status j) = Some event → h_url h ≠ [] →
      ∃ b h' ps, tried getaddrinfo j h event w w' b h' ps.
Proof using Hev.
  induction jobs as [|[j h] jobs IH]; intros s w Hi Ha Hnd Hok; simpl.
  { do 2 eexists. split; [done|]. split; [by apply cascade_refl|]. by intros ? ? ? ?%elem_of_nil. }
  apply NoDup_cons in Hnd as [Hnj Hnd]. simpl in Hnj.
  assert (jobs ⊆ (j, h) :: jobs) as Hsub by (intros e He; by right).
  assert (∀ s, event_of (j_status j) = None ∨ h_url h = [] →
    ∃ w' s', retry_loop getaddrinfo httpx client ev jobs s w = (w', Ok s') ∧
    cascade (j_id ∘ fst <$> (j, h) :: jobs) w w' ∧
    ∀ j1 h1 event, (j1, h1) ∈ (j, h) :: jobs → event_of (j_status j1) = Some event → h_url h1 ≠ [] →
      ∃ b h' ps, tried getaddrinfo j1 h1 event w w' b h' ps) as Hskip.
  { intros s0 Hno. destruct (IH s0 w Hi Ha Hnd) as (w' & s' & Heq & Hc & Hall);
      [intros j1 h1 Hin; by apply Hok, Hsub|]. do 2 eexists. split; [exact Heq|].
    split; [eapply cascade_mono, Hc; intros i ?; by right|].
    intros j1 h1 event [[= -> ->]|Hin]%elem_of_cons He Hu; [destruct Hno; congruence|by eapply Hall]. }
  destruct (event_of (j_status j)) as [event|] eqn:He; [|by apply Hskip; left].
  destruct (decide (h_url h = [])) as [Hu|Hu].
  { unfold send_webhook_with_retry. rewrite bool_decide_eq_true_2 by done. apply Hskip. by right. }
  destruct (Hok j h) as [Hj Hh]; [by left|by rewrite He|].
  assert (∀ x ev, event_of (j_status x) = Some ev →
    j_status x ≠ Queued ∧ is_terminal (Some (j_status x)) = true) as Hfin.
  { intros x ev0. by destruct (j_status x). }
  destruct (Hfin _ _ He) as [Hs Ht].
  destruct (retry_attempts getaddrinfo httpx client ev Hev j h event w) as (w1 & b & h' & ps & -> & Hc & Htr); [done..|].
  pose proof (cascade_inv _ _ _ Hc) as Hi1.
  destruct (IH {| rs_total := rs_total s + 1; rs_success := rs_success s + (if b then 1 else 0);
                  rs_failed := rs_failed s + (if b then 0 else 1); rs_skipped := rs_skipped s |} w1)
    as (w' & s' & Heq & Hc' & Hall); [done|by eapply cascade_calm|done| |].
  { intros j1 h1 Hin [ev1 He1]. destruct (Hok j1 h1) as [Hj1 Hh1]; [by right|by rewrite He1|].
    assert (j_id j1 ∉ [j_id j]) as Hne.
    { intros Heq%list_elem_of_singleton. apply Hnj. rewrite <-Heq. by apply (list_elem_of_fmap_2 (j_id ∘ fst) jobs (j1, h1)). }
    destruct (Hfin _ _ He1) as [Hs1 _]. split; [by eapply ca_kept|].
    rewrite (ca_hooks _ _ _ Hc); [done..|]. by apply finished_not_waiting. }
  do 2 eexists. split; [exact Heq|]. split.
  { eapply cascade_trans; [eapply cascade_mono, Hc|eapply cascade_mono, Hc'].
    - intros i ->%list_elem_of_singleton. by left.
    - intros i ?. by right. }
  intros j1 h1 event1 [[= -> ->]|Hin]%elem_of_cons He1 Hu1.
  - rewrite He1 in He. injection He as ->. exists b, h', ps. by eapply tried_after.
  - destruct (Hall j1 h1 event1 Hin He1 Hu1) as (b1 & h1' & ps1 & Htr1). exists b1, h1', ps1.
    destruct (Hok j1 h1) as [Hj1 _]; [by right|by rewrite He1|]. destruct (Hfin _ _ He1) as [Hs1 _].
    eapply tried_before; [exact Hi|done|done|exact Hc| |done].
    intros Hid%list_elem_of_singleton. apply Hnj. rewrite <-Hid. by apply (list_elem_of_fmap_2 (j_id ∘ fst) jobs (j1, h1)).
Qed.

Lemma elem_of_jobs_to_retry w j h :
  (j, h) ∈ jobs_to_retry w ↔ j ∈ live (w_store w) ∧ w_hooks w !! j_id j = Some h ∧ pending_hook h.
Proof using Type.
  unfold jobs_to_retry. rewrite list_elem_of_omap. split.
  - intros (x & Hx & Hq). destruct (w_hooks w !! j_id x) as [h0|] eqn:Hh; [|done]. simpl in Hq.
    case_decide; [|done]. by injection Hq as -> ->.
  - intros (Hj & Hh & Hp). exists j. split; [done|]. rewrite Hh. simpl. by rewrite decide_True.
Qed.

Lemma jobs_to_retry_ids w : wf (w_store w) → NoDup (j_id ∘ fst <$> jobs_to_retry w).
Proof using Type.
  intros Hwf. unfold jobs_to_retry. pose proof (wf_live_ids _ Hwf) as Hnd.
  induction (live (w_store w)) as [|x l IH]; [constructor|]. apply NoDup_cons in Hnd as [Hx Hnd]. specialize (IH Hnd).
  simpl. destruct (w_hooks w !! j_id x) as [h|]; simpl; [|done]. case_decide; [|done]. simpl.
  apply NoDup_cons. split; [|done]. intros ([y hy] & Hid & Hy)%list_elem_of_fmap. simpl in Hid. apply Hx.
  apply list_elem_of_omap in Hy as (z & Hz & Hq). rewrite Hid. destruct (w_hooks w !! j_id z); [|done]. simpl in Hq.
  case_decide; [|done]. injection Hq as -> _. by apply list_elem_of_fmap_2.
Qed.

(** A round never raises when the guard answers for every URL, and it tries each pending delivery of
    a finished job once. *)
Lemma round_step w :
  holds w → calm getaddrinfo w →
  ∃ w' s, retry_failed_webhooks getaddrinfo httpx client ev w = (w', Ok s) ∧
    cascade (j_id ∘ fst <$> jobs_to_retry w) w w' ∧
    ∀ j h event, (j, h) ∈ jobs_to_retry w → event_of (j_status j) = Some event → h_url h ≠ [] →
      ∃ b h' ps, tried getaddrinfo j h event w w' b h' ps.
Proof using Hev.
  intros Hi Ha. unfold retry_failed_webhooks. apply retry_loop_step; [done..|apply jobs_to_retry_ids, Hi|].
  intros j h (? & ? & _)%elem_of_jobs_to_retry _. done.
Qed.
End one_round.

Definition good_round (w : world) (r : round) : Prop := env_ok (ro_env r) ∧ calm (ro_dns r) w.

Lemma good_round_after E w w' r : cascade E w w' → good_round w r → good_round w' r.
Proof using Type. intros Hc [He Ha]. split; [done|]. by eapply cascade_calm. Qed.

Lemma good_rounds_after E w w' rs : cascade E w w' → Forall (good_round w) rs → Forall (good_round w') rs.
Proof using Type. intros Hc Hg. eapply Forall_impl; [exact Hg|]. intros r. by eapply good_round_after. Qed.

(** A settled job has no row to retry. *)
Lemma rounds_settled j rounds : ∀ w,
  holds w → Forall (good_round w) rounds → settled j w →
  settled j (retry_rounds httpx rounds w) ∧
  w_hooks (retry_rounds httpx rounds w) !! j_id j = w_hooks w !! j_id j ∧
  my_posts (j_id j) (retry_rounds httpx rounds w) = my_posts (j_id j) w.
Proof using Type.
  induction rounds as [|r rounds IH]; intros w Hi Hg Hd; [done|].
  apply Forall_cons in Hg as [[Hev Ha] Hg]. cbn [retry_rounds foldl].
  destruct (round_step (ro_dns r) (ro_client r) (ro_env r) Hev w) as (w1 & s & -> & Hc & _); [done..|]. cbn [fst].
  assert (j_id j ∉ (j_id ∘ fst <$> jobs_to_retry w)) as HE.
  { intros ([x h] & Hid & (Hx & _)%elem_of_jobs_to_retry)%list_elem_of_fmap. by apply (proj1 Hd x). }
  assert (∀ x, waiting (w_store w) x → j_id x ≠ j_id j) as Hno by (intros x [Hx _]; by apply Hd).
  destruct (IH w1) as (? & Hh & Hp); [by eapply cascade_inv|by eapply good_rounds_after|by eapply settled_cascade|].
  split; [done|]. unfold retry_rounds in *. rewrite Hh, Hp. split.
  - by apply (ca_hooks _ _ _ Hc).
  - by eapply cascade_posts.
Qed.

Definition resolved (h : hook) (event : string) : Prop :=
  (h_retries h = h_max_retries h ∧ h_status h = Some "failed") ∨
  (h_retries h < h_max_retries h ∧ (event ∈ h_events h → h_status h = Some "sent")).

End rounds.

(** ** The settle sweep *)

Section sweep.
Context (getaddrinfo : chars → dns_answer) (httpx : bool) (client : chars → chars → http_outcome).
Context (ev : env) (Hev : env_ok ev).

(** What the sweep leaves alone: an open delivery, and a failure that owes its retry. *)
Definition stays (e : queued_job * option hook) : bool :=
  delivery_open e.2 || is_retry_pending (Some (jr_termination_reason (j_run e.1))).

(** A row the sweep may move enters history with one of these. *)
Definition final_status (s s' : job_status) : Prop :=
  s' = s ∨ (s = Failed ∧ s' = Archived).

Lemma settle_stray_step e w :
  holds w → calm getaddrinfo w → e.1 ∈ live (w_store w) → is_terminal (Some (j_status e.1)) = true →
  ∃ w', settle_stray getaddrinfo httpx client ev e w = (w', Ok (negb (stays e))) ∧ cascade [j_id e.1] w w' ∧
    if stays e then w' = w else ∃ s, final_status (j_status e.1) s ∧ settled_as s e.1 w'.
Proof using Hev.
  destruct e as [j h]. intros Hi Ha Hj Ht. simpl in Hj, Ht. unfold settle_stray, stays. cbn [fst snd].
  destruct (delivery_open h); cbn [orb negb]; [exists w; split_and!; [done|by apply cascade_refl|done]|].
  set (reason := Some (jr_termination_reason (j_run j))).
  destruct (is_retry_pending reason) eqn:Hr; cbn [negb].
  { exists w. split_and!; [|by apply cascade_refl|done]. by destruct (settle_status _ _ _). }
  assert (∃ s, settle_status (j_status j) reason (has_retry_child (w_store w) (j_id j)) = Some s ∧
    is_terminal (Some s) = true ∧ final_status (j_status j) s) as (s & -> & Hs & Hf).
  { unfold final_status, settle_status. rewrite Hr.
    destruct (j_status j); try done; [by exists Success; auto| |by exists Archived; auto].
    destruct (has_retry_child _ _); eexists; split_and!; try done; auto. }
  destruct (moved_cascade ev w j s (reason_values (settled_termination_reason reason)) Hi Hj Hs) as (st & Hm & _).
  rewrite Hm. eexists. split; [done|].
  eapply (move_release_step getaddrinfo ev Hev _ _ (fail_waiting_job_well getaddrinfo httpx client ev Hev w)) in Hm
    as (? & ? & _); [by split; [|exists s]|done..|].
  pose proof (length_waiting_jobs (w_store w)). lia.
Qed.

Lemma settle_strays_step l : ∀ moved w,
  holds w → calm getaddrinfo w → NoDup (j_id ∘ fst <$> l) →
  (∀ e, e ∈ l → e.1 ∈ live (w_store w) ∧ is_terminal (Some (j_status e.1)) = true) →
  ∃ w', settle_strays getaddrinfo httpx client ev l moved w =
      (w', moved + Z.of_nat (length (filter (λ e, stays e = false) l))) ∧
    cascade (j_id ∘ fst <$> filter (λ e, stays e = false) l) w w' ∧
    ∀ e, e ∈ l → stays e = false → ∃ s, final_status (j_status e.1) s ∧ settled_as s e.1 w'.
Proof using Hev.
  induction l as [|e l IH]; intros moved w Hi Ha Hnd Hok; simpl.
  { exists w. split; [f_equal; lia|]. split; [by apply cascade_refl|]. by intros e ?%elem_of_nil. }
  apply NoDup_cons in Hnd as [Hne Hnd]. destruct (Hok e) as [Hj Ht]; [by left|].
  destruct (settle_stray_step e w Hi Ha Hj Ht) as (w1 & -> & Hc & Hres).
  assert (∀ x, x ∈ l → x.1 ∈ live (w_store w1) ∧ is_terminal (Some (j_status x.1)) = true) as Hok1.
  { intros x Hx. destruct (Hok x) as [Hjx Htx]; [by right|]. split; [|done]. eapply ca_kept; [exact Hc|done| |].
    - intros Hq. by rewrite Hq in Htx.
    - intros Hid%list_elem_of_singleton. apply Hne. apply list_elem_of_fmap. by exists x. }
  destruct (IH (if negb (stays e) then moved + 1 else moved) w1) as (w' & -> & Hc' & Hall);
    [by eapply cascade_inv|by eapply cascade_calm|done|done|].
  exists w'. rewrite filter_cons. destruct (stays e) eqn:Hst; simpl.
  - subst w1. split_and!; [done|done|].
    intros x [->|Hx]%elem_of_cons Hs; [congruence|by apply Hall].
  - split; [f_equal; lia|]. split.
    { eapply cascade_trans; [eapply cascade_mono, Hc|eapply cascade_mono, Hc'].
      - intros i ->%list_elem_of_singleton. by left.
      - intros i ?. by right. }
    intros x [->|Hx]%elem_of_cons Hs; [|by apply Hall]. destruct Hres as (s & Hf & Hd). exists s. split; [done|].
    eapply settled_cascade; [eapply cascade_inv, Hc|exact Hc'|done].
Qed.

(** The settle sweep of the Django integration moves what is finished and nothing that is not
    resolved. In a state of the invariant, with the guard answering for the URLs, of the page it reads
    it moves each row into history, with its status or as archived once a retry of it exists, except
    those whose delivery is still being retried and those that owe a retry; it counts exactly the rows
    it moved. Every other finished live row stays where it is, and so does its delivery: no request
    is made for it. *)
Theorem settle_sweep_exact limit grace w :
  holds w → calm getaddrinfo w →
  let page := strays ev limit grace w in
  ∃ w', settle_sweep getaddrinfo httpx client ev limit grace w =
      (w', Z.of_nat (length (filter (λ e, stays e = false) page))) ∧ holds w' ∧
    (∀ e, e ∈ page → stays e = false → ∃ s, final_status (j_status e.1) s ∧ settled_as s e.1 w') ∧
    (∀ j, j ∈ live (w_store w) → j_status j ≠ Queued →
       (∀ h, (j, h) ∈ page → stays (j, h) = true) →
       j ∈ live (w_store w') ∧ w_hooks w' !! j_id j = w_hooks w !! j_id j ∧ my_posts (j_id j) w' = my_posts (j_id j) w).
Proof using Hev.
  intros Hi Ha page. unfold settle_sweep. fold page.
  assert (∀ j h, (j, h) ∈ page → j ∈ live (w_store w) ∧ is_terminal (Some (j_status j)) = true) as Hpage.
  { intros j h Hjh. apply list_elem_of_fmap in Hjh as (x & [= -> ->] & Hx). unfold stray_terminal in Hx.
    apply elem_of_take in Hx as (i & Hx%list_elem_of_lookup_2 & _).
    apply elem_of_order_by, list_elem_of_filter in Hx as ((Ht & _) & Hx). split; [done|].
    by apply bool_decide_eq_true. }
  assert (NoDup (j_id ∘ fst <$> page)) as Hnd.
  { assert ((j_id ∘ fst <$> page) = (j_id <$> stray_terminal limit (e_now ev - grace) (w_store w))) as ->
      by (unfold page, strays; by rewrite <-list_fmap_compose).
    eapply sublist_NoDup; [|apply fmap_sublist, sublist_take]. unfold order_by.
    rewrite (merge_sort_Permutation oldest_first). eapply sublist_NoDup; [apply Hi|apply fmap_sublist, sublist_filter]. }
  destruct (settle_strays_step page 0 w Hi Ha Hnd) as (w' & -> & Hc & Hall); [by intros [j h]; apply Hpage|].
  exists w'. split; [done|]. split; [by eapply cascade_inv|]. split; [done|].
  intros j Hj Hs Hst.
  assert (j_id j ∉ (j_id ∘ fst <$> filter (λ e, stays e = false) page)) as HE.
  { intros ([x h] & Hid & [Hx Hin]%list_elem_of_filter)%list_elem_of_fmap. simpl in Hid.
    destruct (Hpage x h Hin) as [Hl _]. assert (x = j) as -> by (eapply live_inj; [apply Hi|done|done|done]).
    by rewrite Hst in Hx. }
  pose proof (finished_not_waiting w j Hi Hj Hs). split_and!.
  - by eapply ca_kept.
  - by apply (ca_hooks _ _ _ Hc).
  - by eapply cascade_posts.
Qed.
End sweep.

(** ** Without webhooks *)

Lemma failed_txn_err webhook_url ev j error tb reason attempt idle st st' e :
  failed_txn webhook_url ev j error tb reason attempt idle st = (st', Err e) → st' = st.
Proof.
  unfold failed_txn. destruct (if idle then _ else dj_close_attempt _ _ _ _ _) as [st2 [[]|]]; [|congruence].
  destruct (_ || _).
  - destruct (update_in_place _ _ _ _ _) as [? [|[|]]]; congruence.
  - destruct (move _ _ _ _ _ _ _ _ _ _) as [? [[]|]]; congruence.
Qed.

(** A step on the store, as a step on the world. *)
Definition lifted {A} (w : world) (p : store * result django_error A) : world * result delivery_error A :=
  (with_store p.1 w, match p.2 with Ok a => Ok a | Err e => Err (StoreRaised e) end).

(** Where no job has a webhook, [mark_failed] to its end is the transaction and the cascade of
    Django.v. *)
Theorem no_webhooks_mark_failed getaddrinfo httpx client ev fuel :
  ∀ j error tb reason attempt idle w, (∀ i, has_webhook w i = false) →
  mark_failed_hooked getaddrinfo httpx client ev fuel j error tb reason attempt idle w =
  lifted w (mark_failed (has_webhook w) fuel ev j error tb reason attempt idle (w_store w)).
Proof.
  induction fuel as [|fuel IH]; intros j error tb reason attempt idle w Hn; [by destruct w|].
  cbn [mark_failed_hooked mark_failed].
  destruct (failed_txn (has_webhook w) ev j error tb reason attempt idle (w_store w)) as [st1 [[]|e]] eqn:Hf;
    [|apply failed_txn_err in Hf as ->; by destruct w].
  unfold worker_of. set (st2 := Django._release_worker _ _ _ _).
  set (message := String.append _ _).
  assert (∀ deps st, fail_dependents_hooked (λ dep, mark_failed_hooked getaddrinfo httpx client ev fuel dep message ""
      "dependency_failed" None true) deps (with_store st w) =
    lifted w (fail_dependents_loop (λ dep, mark_failed (has_webhook w) fuel ev dep message "" "dependency_failed" None true)
      deps st)) as ->.
  { intros deps st. unfold fail_dependents_hooked, fail_dependents_loop.
    change (with_store st w, @Ok delivery_error unit tt) with (lifted w (st, @Ok django_error unit tt)).
    generalize (st, @Ok django_error unit tt). induction deps as [|dep deps IHd]; intros [s r]; [done|]. simpl.
    rewrite <-IHd. f_equal. destruct r as [[]|e]; simpl; [|done]. rewrite IH by apply Hn. simpl.
    by destruct (mark_failed _ fuel ev dep message "" "dependency_failed" None true s) as [s' [[]|[]]]. }
  simpl. destruct (fail_dependents_loop _ _ _) as [st3 [[]|e]]; [|done]. unfold lifted, notify. simpl.
  specialize (Hn (j_id j)). unfold has_webhook in Hn. destruct (w_hooks w !! j_id j); [|done].
  apply negb_false_iff in Hn. by rewrite Hn.
Qed.

(** ** Concrete runs *)

Definition demo_hook (url : string) : hook :=
  {| h_url := to_chars url; h_events := ["success"; "failure"]; h_status := Some "pending"; h_retries := 0;
     h_max_retries := 3 |}.

Definition no_dns (host : chars) : dns_answer := GaiError.

Definition demo_round (code now : Z) : round :=
  {| ro_dns := no_dns; ro_client := λ _ _, HttpStatus code; ro_env := demo_env now |}.

(** Job 11 was cancelled while it waited; its delivery is pending. *)
Definition demo_finished : store :=
  (mark_failed_now (λ _, true) (demo_env 4000) demo_job "cancelled" "" "cancelled" None true demo_one).1.
Definition demo_finished_job : queued_job := default demo_job (job_by_id demo_finished 11).

Definition demo_world : world :=
  {| w_store := demo_finished; w_hooks := {[11 := demo_hook "https://93.184.216.34/hook"]}; w_posts := [] |}.

Lemma demo_finished_inv : inv [] demo_finished.
Proof.
  assert (waiting demo_one demo_job) as Hw by (split_and!; [apply list_elem_of_here|done|vm_compute; reflexivity]).
  unfold demo_finished.
  destruct (mark_failed_now (λ _, true) (demo_env 4000) demo_job "cancelled" "" "cancelled" None true demo_one) as [s r] eqn:E.
  apply (mark_failed_now_idle (X:=[])) in E as [Hd _]; [by eapply dstep_inv|apply demo_one_inv|].
  apply waiting_reads; [apply demo_one_inv|done].
Qed.

Lemma demo_calm : calm no_dns demo_world.
Proof.
  intros i h. unfold demo_world. simpl. rewrite lookup_singleton_Some. intros [_ <-]. by vm_compute.
Qed.

Lemma demo_good_round code now : good_round demo_world (demo_round code now).
Proof. split; [apply demo_env_ok|apply demo_calm]. Qed.


(** Two refusals and a success: the third try is the last, and it is sent. *)
Example demo_rounds :
  let w := retry_rounds true [demo_round 500 5000; demo_round 500 6000; demo_round 200 7000] demo_world in
  (h_status <$> (w_hooks w !! 11)) = Some (Some "sent") ∧ length (w_posts w) = 3%nat ∧
  live (w_store w) = [] ∧ ((λ j, j_status j) <$> history_by_id (w_store w) 11) = Some Failed.
Proof. vm_compute. done. Qed.

Definition demo_delivered : world :=
  {| w_store := demo_finished;
     w_hooks := {[11 := with_status "sent" (demo_hook "https://93.184.216.34/hook")]}; w_posts := [] |}.

Lemma settle_sweep_exact_witness :
  ∃ w', settle_sweep no_dns true (λ _ _, HttpStatus 200) (demo_env 9000) 10 0 demo_delivered = (w', 1) ∧ holds w'.
Proof.
  destruct (settle_sweep_exact no_dns true (λ _ _, HttpStatus 200) (demo_env 9000) (demo_env_ok 9000) 10 0 demo_delivered)
    as (w' & Hs & Hi & _).
  - apply demo_finished_inv.
  - intros i h. unfold demo_delivered. simpl. rewrite lookup_singleton_Some. intros [_ <-]. by vm_compute.
  - exists w'. split; [rewrite Hs; reflexivity|exact Hi].
Defined.

(** Jobs 11 and 12 failed while they waited, and the URL of 11 is one that [urlparse] refuses. *)
Definition demo_stuck : world :=
  {| w_store := (mark_failed_now (λ _, true) (demo_env 4000) demo_job "cancelled" "" "cancelled" None true demo_two).1;
     w_hooks := <[11 := demo_hook "http://[::1/hook"]> {[12 := demo_hook "https://93.184.216.34/hook"]};
     w_posts := [] |}.

(** One URL that does not parse ends every round: however often [retry_failed_webhooks] runs, with a
    server that accepts everything, the delivery of the next job is never tried. *)
Theorem malformed_url_starves_rest rounds :
  Forall (λ r, ∃ now, r = demo_round 200 now) rounds →
  retry_rounds true rounds demo_stuck = demo_stuck ∧ w_posts demo_stuck = [] ∧
  (j_id <$> (jobs_to_retry demo_stuck).*1) = [11; 12] ∧
  (retry_failed_webhooks no_dns true (λ _ _, HttpStatus 200) (demo_env 5000) demo_stuck).2 = Err MalformedUrl.
Proof.
  intros Hr. split; [|vm_compute; done].
  induction Hr as [|r rounds (now & ->) _ IH]; [done|]. cbn [retry_rounds foldl].
  assert ((retry_failed_webhooks (ro_dns (demo_round 200 now)) true (ro_client (demo_round 200 now))
    (ro_env (demo_round 200 now)) demo_stuck).1 = demo_stuck) as -> by (vm_compute; reflexivity).
  exact IH.
Qed.

(** A running job with a webhook fails and its retry is owed. *)
Definition demo_owed : world * result delivery_error unit :=
  mark_failed_hooked no_dns true (λ _ _, HttpStatus 200) (demo_env 4000) 10 demo_job "boom" ""
    "retry_pending:exception" (Some demo_handle) false
    {| w_store := demo_claimed; w_hooks := {[11 := demo_hook "https://93.184.216.34/hook"]}; w_posts := [] |}.

(** The delivered failure is settled at once, before the retry exists: the row is in history with its
    marker, so the recovery of lost retries does not see it and [settle_retry_pending] finds no row
    whose marker it could clear. *)
Theorem delivered_failure_keeps_marker :
  let st := w_store demo_owed.1 in
  demo_owed.2 = Ok tt ∧ job_by_id st 11 = None ∧
  ((λ j, jr_termination_reason (j_run j)) <$> history_by_id st 11) = Some "retry_pending:exception" ∧
  get_jobs_pending_retry (demo_env 9000000000) 0 100 st = [] ∧
  Django.settle_retry_pending (demo_env 5000) 11 st = (st, false).
Proof. vm_compute. done. Qed.
