(* ===== verification/DjangoAgree.v ===== *)
(** * The two backends agree

    Where the Django integration and the standalone backend write the same transition, the two
    models are proved equal on every well-formed store: the transaction of a completion, the
    release of a claim, a cancellation, and the answer whether the dependencies of a job are met.
    Where they differ, the theorems say how: a failure in the Django integration reaches the
    dependents of the job even while its retry is owed. *)

From S2P Require Import Prelude Sql PyString Models Retry Attempts Ready History Store StoreInv Dependents Claim Complete Demo Outcomes Limits Django DjangoInv.
#[local] Open Scope string_scope.
#[local] Open Scope list_scope.
#[local] Open Scope Z_scope.

(** ** Dependencies *)

Lemma dependencies_loop_met st deps : ∀ failed,
  dependencies_loop st deps failed = (true, []) ↔
  failed = [] ∧ Forall (λ x, j_status (follow_retries (latest_retry st) MAX_CHAIN_HOPS x) = Success) deps.
Proof.
  induction deps as [|x deps IH]; intros failed; cbn [dependencies_loop].
  - rewrite Forall_nil. by destruct failed; intuition.
  - rewrite Forall_cons. destruct (j_status (follow_retries _ _ x)) eqn:Hs; rewrite ?IH.
    all: try (split; [intros [=]|intros [_ [? _]]; congruence]).
    + tauto.
    + split; [intros [[_ [=]]%app_nil _]|intros [_ [? _]]; congruence].
Qed.

(** The dependencies of the job are numbers, as every API that creates jobs writes them. *)
Definition numeric_dependencies (j : queued_job) : Prop :=
  Forall (λ v, is_Some (dependency_key v)) (js_dependencies (j_spec j)).

Lemma numeric_ids j d :
  numeric_dependencies j →
  d ∈ dependency_ids (j_spec j) ↔ d ∈ omap dependency_key (js_dependencies (j_spec j)).
Proof.
  intros Hn. unfold dependency_ids. rewrite dependency_ids_go_elem, list_elem_of_omap.
  rewrite elem_of_nil. unfold numeric_dependencies in Hn. rewrite Forall_forall in Hn. split.
  - intros [[]|(r & Hr & Hi)]. exists r. split; [done|]. specialize (Hn r Hr). by destruct r, Hn.
  - intros (r & Hr & Hi). right. exists r. split; [done|]. by destruct r.
Qed.

(** The two backends agree on when a job may run. For a job whose dependencies are job ids, the
    Django check answers that all of them are met exactly when the standalone judgement does: every
    id belongs to a job, live or finished, whose newest retry succeeded. *)
Theorem dependencies_met_agree st j :
  wf st → numeric_dependencies j →
  (check_dependencies_met st j = (true, [], false) ↔
     dv_state (_judge_dependencies st (dependency_ids (j_spec j))) = MET) ∧
  (check_dependencies_met st j = (true, [], false) ↔
     ∀ d, d ∈ dependency_ids (j_spec j) → dependency_met st d).
Proof.
  intros Hwf Hn. rewrite judge_met, Forall_forall by done.
  assert (check_dependencies_met st j = (true, [], false) ↔
    ∀ d, d ∈ dependency_ids (j_spec j) → dependency_met st d) as Hiff; [|by rewrite Hiff].
  setoid_rewrite numeric_ids; [|done]. unfold check_dependencies_met.
  destruct (js_dependencies (j_spec j)) as [|v0 vs] eqn:Hdeps.
  { split; [|done]. intros _ d (? & []%elem_of_nil & _)%list_elem_of_omap. }
  rewrite <-Hdeps. unfold missing_dependencies.
  assert (existsb (λ v, if dependency_key v then false else true) (js_dependencies (j_spec j)) = false) as ->.
  { apply not_true_iff_false. intros (v & Hv & Hk)%existsb_exists. unfold numeric_dependencies in Hn.
    rewrite Forall_forall in Hn. destruct (Hn v) as [? Hs]; [by apply list_elem_of_In|]. by rewrite Hs in Hk. }
  set (ids := omap dependency_key (js_dependencies (j_spec j))).
  destruct (filter (λ d, anywhere_by_id st d = None) ids) as [|d l] eqn:Hf.
  - assert (∀ d, d ∈ ids → ∃ x, x ∈ job_all st ∧ j_id x = d) as Hfound.
    { intros d Hd. destruct (anywhere_by_id st d) as [x|] eqn:Hx.
      - apply anywhere_by_id_Some in Hx as [? ?]; [|done]. by exists x.
      - assert (d ∈ filter (λ d, anywhere_by_id st d = None) ids) as Hin by (by apply list_elem_of_filter).
        rewrite Hf in Hin. by apply elem_of_nil in Hin. }
    trans (dependencies_loop st (filter (λ d, j_id d ∈ ids) (job_all st)) [] = (true, [])).
    { destruct (dependencies_loop _ _ _); split; congruence. }
    rewrite dependencies_loop_met, Forall_forall. setoid_rewrite list_elem_of_filter. split.
    + intros [_ Hall] d Hd. destruct (Hfound d Hd) as (x & Hx & <-). exists x. split_and!; auto.
    + intros Hmet. split; [done|]. intros x [Hxd Hx]. destruct (Hmet _ Hxd) as (y & Hy & Hyd & Hs).
      by assert (x = y) as -> by (eapply (NoDup_fmap_inj j_id (job_all st)); [by apply job_all_ids|done..]).
  - split; [done|]. intros Hmet. exfalso.
    assert (d ∈ filter (λ d, anywhere_by_id st d = None) ids) as [Hnone Hd]%list_elem_of_filter
      by (rewrite Hf; apply list_elem_of_here).
    destruct (Hmet d Hd) as (x & Hx & Hid & _). rewrite anywhere_by_id_None in Hnone. by destruct (Hnone x Hx).
Qed.

(** ** The transaction of a completion *)

(** The entry of the job a completion works on names its row, so the [created_at] fence of the
    Django integration adds nothing to the id. *)
Lemma move_where_created st id f created j :
  (∀ row, row ∈ live st → j_id row = id → j_created_at row = created) → j ∈ live st →
  move_where st id {| fe_created_at := Some created; fe_version := fe_version f;
                      fe_status := fe_status f; fe_idle := fe_idle f |} j
  ↔ move_where st id {| fe_created_at := None; fe_version := fe_version f;
                      fe_status := fe_status f; fe_idle := fe_idle f |} j.
Proof.
  intros Hc Hj. unfold move_where. simpl. split; [tauto|]. intros (Hid & _ & Hr).
  split; [done|]. split; [symmetry; by apply Hc|done].
Qed.

Lemma finish_in_created ev id status v f created st :
  (∀ row, row ∈ live st → j_id row = id → j_created_at row = created) →
  _finish_in ev id status v {| fe_created_at := Some created; fe_version := fe_version f;
    fe_status := fe_status f; fe_idle := fe_idle f |} st =
  _finish_in ev id status v {| fe_created_at := None; fe_version := fe_version f;
    fe_status := fe_status f; fe_idle := fe_idle f |} st.
Proof.
  intros Hc. unfold _finish_in.
  rewrite (filter_iff_on _ _ (live st) (λ j Hj, move_where_created st id f created j Hc Hj)).
  by rewrite (delete_where_iff _ _ (live st) (λ j Hj, move_where_created st id f created j Hc Hj)).
Qed.

Lemma close_stragglers_none id status now st :
  (∀ a, a ∈ attempts st → ¬ open_for id a) → close_stragglers id status now st = st.
Proof.
  intros Hn. unfold close_stragglers. rewrite update_where_none by done. by destruct st.
Qed.

(** With no attempt left open, the move closes none, whether it is asked to or not. *)
Lemma move_no_close ev id created status v expected rs idle st :
  (∀ a, a ∈ attempts st → ¬ open_for id a) →
  move ev id created status v expected rs idle false st = move ev id created status v expected rs idle true st.
Proof.
  intros Hn. unfold move. case_decide; [|done]. f_equal.
  set (m := with_live _ _). assert (attempts m = attempts st) as Ha by done.
  clearbody m. rewrite Ha, update_where_none, <-Ha by done. by destruct m.
Qed.

(** What the two transactions report is the same. *)
Definition same_outcome (dj : store * result django_error unit) (sa : store * result store_error bool) : Prop :=
  dj.1 = sa.1 ∧ (dj.2 = Ok tt ↔ sa.2 = Ok true).

Lemma close_attempt_same ev id attempt o st : dj_close_attempt ev id attempt o st = _close_attempt ev id attempt o st.
Proof. by destruct attempt. Qed.

(** Closing leaves the live table alone and the job without an open attempt. *)
Lemma closed_attempt ev j attempt o st st1 :
  inv [] st → handle_for st (j_id j) attempt → _close_attempt ev (j_id j) attempt o st = (st1, Ok tt) →
  wf st1 ∧ live st1 = live st ∧ ∀ a, a ∈ attempts st1 → ¬ open_for (j_id j) a.
Proof.
  intros Hi Hh Hc. pose proof (close_attempt_step (X:=[]) ev (j_id j) attempt o st st1 (Ok tt) Hi Hh Hc)
    as (Hwf1 & _ & _ & Hl). split_and!; [done..|].
  destruct attempt as [h|]; [by eapply closed_none_open; [apply Hi|..]|by eapply unfenced_none_open].
Qed.

Lemma completion_move_same ev j status v attempt o flag st :
  inv [] st → knows st j → handle_for st (j_id j) attempt → owes_retry status v = false →
  same_outcome
    match dj_close_attempt ev (j_id j) attempt o st with
    | (_, Err _) => (st, Err FencingError)
    | (st1, Ok _) =>
        match move ev (j_id j) (j_created_at j) status v (Some (j_version j)) None false flag st1 with
        | (st2, Ok true) => (st2, Ok tt)
        | _ => (st, Err ConcurrentModificationError)
        end
    end
    (completion_txn ev (j_id j) (Some (j_version j)) status v attempt o st).
Proof.
  intros Hi Hk Hh Ho. unfold completion_txn. rewrite close_attempt_same.
  destruct (_close_attempt ev (j_id j) attempt o st) as [st1 [[]|e]] eqn:Hc; [|by split].
  destruct (closed_attempt ev j attempt o st st1 Hi Hh Hc) as (Hwf1 & Hl & Hn).
  assert (move ev (j_id j) (j_created_at j) status v (Some (j_version j)) None false flag st1 =
          _finish_in ev (j_id j) status v (version_fences (Some (j_version j))) st1) as ->.
  { transitivity (move ev (j_id j) (j_created_at j) status v (Some (j_version j)) None false true st1).
    - destruct flag; [done|by apply move_no_close].
    - rewrite move_finishes by done.
      apply (finish_in_created ev (j_id j) status v (version_fences (Some (j_version j))) (j_created_at j) st1).
      intros row Hrow Hid. rewrite Hl in Hrow. by rewrite (Hk row Hrow Hid). }
  unfold completion_write. rewrite Ho.
  by destruct (_finish_in ev (j_id j) status v _ st1) as [st2 [[]|]].
Qed.

(** At most one live row carries an id. *)
Lemma rowcount_id (P : queued_job → Prop) {HD : ∀ j, Decision (P j)} id st :
  wf st → (∀ j, P j → j_id j = id) → (rowcount P (live st) <= 1)%nat.
Proof.
  intros Hwf HP. unfold rowcount. destruct (filter P (live st)) as [|j [|j' l]] eqn:Hf; simpl; [lia..|].
  assert (NoDup (filter P (live st))) as Hn by (eapply NoDup_filter, NoDup_fmap_1, wf_live_ids, Hwf).
  rewrite Hf in Hn. apply NoDup_cons in Hn as [Hj _]. exfalso. apply Hj.
  assert (j ∈ filter P (live st) ∧ j' ∈ filter P (live st)) as [[Hp Hl]%list_elem_of_filter [Hp' Hl']%list_elem_of_filter]
    by (rewrite Hf; split; [apply list_elem_of_here|apply elem_of_cons; right; apply list_elem_of_here]).
  rewrite (live_inj st Hwf j j' Hl Hl'); [apply list_elem_of_here|]. by rewrite (HP j Hp), (HP j' Hp').
Qed.

Lemma completion_owed_same ev j v attempt st :
  inv [] st → knows st j → handle_for st (j_id j) attempt → owes_retry Failed v = true →
  same_outcome
    match dj_close_attempt ev (j_id j) attempt OFailed st with
    | (_, Err _) => (st, Err FencingError)
    | (st1, Ok _) =>
        match update_in_place (j_id j) {| fe_created_at := Some (j_created_at j);
                fe_version := Some (j_version j); fe_status := None; fe_idle := false |} Failed v st1 with
        | (st2, 1%nat) => (st2, Ok tt)
        | _ => (st, Err ConcurrentModificationError)
        end
    end
    (completion_txn ev (j_id j) (Some (j_version j)) Failed v attempt OFailed st).
Proof.
  intros Hi Hk Hh Ho. unfold completion_txn. rewrite close_attempt_same.
  destruct (_close_attempt ev (j_id j) attempt OFailed st) as [st1 [[]|e]] eqn:Hc; [|by split].
  destruct (closed_attempt ev j attempt OFailed st st1 Hi Hh Hc) as (Hwf1 & Hl & _).
  unfold completion_write, update_in_place. rewrite Ho. set (f := {| fe_created_at := _ |}).
  assert (∀ row, row ∈ live st1 → move_where st1 (j_id j) f row ↔ version_fence (j_id j) (Some (j_version j)) row) as Hiff.
  { intros row Hrow. unfold move_where, version_fence, f; simpl. split; [tauto|]. intros [Hid ?].
    split_and!; try done. rewrite Hl in Hrow. by rewrite (Hk row Hrow Hid). }
  assert (rowcount (move_where st1 (j_id j) f) (live st1) =
    rowcount (version_fence (j_id j) (Some (j_version j))) (live st1)) as ->
    by (unfold rowcount; by rewrite (filter_iff_on _ _ _ Hiff)).
  set (g := λ j, with_run _ j).
  assert (update_where (move_where st1 (j_id j) f) g (live st1) =
    update_where (version_fence (j_id j) (Some (j_version j))) g (live st1)) as ->.
  { unfold update_where. apply map_ext_in. intros row Hrow%list_elem_of_In. pose proof (Hiff row Hrow).
    repeat case_decide; tauto. }
  pose proof (rowcount_id (version_fence (j_id j) (Some (j_version j))) (j_id j) st1 Hwf1 (λ x Hx, proj1 Hx)).
  destruct (rowcount _ _) as [|[|]]; [|done|lia]. by split.
Qed.

Lemma success_txn_same webhook_url ev st j a output attempt :
  inv [] st → knows st j → webhook_url (j_id j) = false → handle_for st (j_id j) attempt →
  open_attempt_of (attempts st) (j_id j) = Some a →
  same_outcome (success_txn webhook_url ev j output attempt st)
    (completion_txn ev (j_id j) (Some (j_version j)) Success
       (final_values j (Some a) (e_now ev) Success output "" "" "") attempt OSuccess st).
Proof.
  intros Hi Hk Hwh Hh Ha. unfold success_txn. rewrite Ha, Hwh. by apply completion_move_same.
Qed.

Lemma failed_txn_same webhook_url ev st j a error tb reason attempt :
  inv [] st → knows st j → webhook_url (j_id j) = false → handle_for st (j_id j) attempt →
  open_attempt_of (attempts st) (j_id j) = Some a →
  same_outcome (failed_txn webhook_url ev j error tb reason attempt false st)
    (completion_txn ev (j_id j) (Some (j_version j)) Failed
       (final_values j (Some a) (e_now ev) Failed "" error tb reason) attempt OFailed st).
Proof.
  intros Hi Hk Hwh Hh Ha. unfold failed_txn. rewrite Ha, Hwh, orb_false_r. cbn [orb]. rewrite andb_false_r.
  assert (owes_retry Failed (final_values j (Some a) (e_now ev) Failed "" error tb reason)
          = is_retry_pending (Some reason)) as Ho by done.
  destruct (is_retry_pending (Some reason)) eqn:Hp.
  - by apply completion_owed_same.
  - by apply completion_move_same.
Qed.


(** ** What else the backends share *)

(** Entries, claims and cancellations are handled alike. On every well-formed store making jobs
    ready and taking their entries away, giving a claim back, moving a job into history and
    cancelling a waiting job write the same rows in the Django integration as in the standalone
    backend (a cancellation there goes on to release the dependents of the job). *)
Theorem queue_writes_agree ev st :
  wf st →
  (∀ jobs fresh, add ev jobs fresh st = write_ready ev jobs fresh st) ∧
  (∀ ids, Django.remove ids st = _drop_entries ids st) ∧
  (∀ id, Django.release_job ev id st = Complete.release_job ev id st) ∧
  (∀ id created status v expected rs idle,
     move ev id created status v expected rs idle true st =
     _finish_in ev id status v {| fe_created_at := Some created; fe_version := expected;
       fe_status := rs; fe_idle := idle |} st) ∧
  (∀ id, match cancel_txn ev id st with
         | (st', true) => cancel_job ev id st = (_release_dependents_quietly ev id None st', Ok true)
         | (st', false) => st' = st ∧ cancel_job ev id st = cancel_staged ev id st
         end).
Proof.
  intros Hwf. split_and!; intros.
  - apply add_writes.
  - apply remove_drops.
  - by apply release_job_same.
  - by apply move_finishes.
  - by apply cancel_txn_same.
Qed.

(** ** The failure of a running job reaches its dependents *)

Lemma completion_txn_length ev id expected status v attempt o st st' :
  completion_txn ev id expected status v attempt o st = (st', Ok true) →
  (length (live st') <= length (live st))%nat.
Proof.
  unfold completion_txn. destruct (_close_attempt ev id attempt o st) as [st1 [[]|]] eqn:Hc; [|done].
  assert (live st1 = live st) as <- by (by destruct attempt; [injection Hc as <- _|injection Hc as <-]).
  unfold completion_write. destruct (owes_retry status v).
  - destruct (bool_decide _); [|by destruct expected]. intros [= <-]. unfold update_where. simpl.
    by rewrite length_fmap.
  - destruct (_finish_in ev id status v _ st1) as [st2 [[]|]] eqn:Hf; [|by destruct expected|done].
    intros [= <-]. pose proof (finish_in_true_length _ _ _ _ _ _ _ Hf). lia.
Qed.

Lemma failed_txn_errors webhook_url ev j error tb reason attempt idle st st' e :
  failed_txn webhook_url ev j error tb reason attempt idle st = (st', Err e) →
  e = FencingError ∨ e = ConcurrentModificationError.
Proof.
  unfold failed_txn. destruct (if idle then _ else dj_close_attempt _ _ _ _ _) as [st2 [[]|]];
    [|intros [= _ <-]; by left].
  destruct (_ || _).
  - destruct (update_in_place _ _ _ _ _) as [? [|[|]]]; intros [= _ <-]; by right.
  - destruct (move _ _ _ _ _ _ _ _ _ _) as [? [[]|]]; intros [= _ <-]; by right.
Qed.

(** With fuel for every live job the dependents of a job are failed, all of them. *)
Lemma dependent_jobs_failed webhook_url ev id fuel st :
  inv [] st → (length (live st) < fuel)%nat →
  ∃ st', fail_dependents_loop (λ dep, mark_failed webhook_url fuel ev dep
      (String.append "Dependency failed: job " (py_str_int id)) "" "dependency_failed" None true)
      (dependent_jobs st id) st = (st', Ok tt) ∧ dstep [] st st' ∧
    ∀ x, waiting st' x → Some id ∉ (dependency_key <$> js_dependencies (j_spec x)).
Proof.
  intros Hi Hfuel.
  match goal with |- ∃ _, fail_dependents_loop ?f ?d _ = _ ∧ _ =>
    destruct (fail_dependents_spec (X:=[]) f d st) as (s' & -> & Hd & Hgone) end.
  - done.
  - intros x [[Hx _] Hl]%list_elem_of_filter. by apply waiting_clause_waiting.
  - intros s x s1 r1 Hs Hx Hm. pose proof (dstep_not_more [] st s Hs (inv_wf [] _ (dstep_inv _ _ Hs))).
    pose proof (length_waiting_jobs st).
    apply (mark_failed_idle (X:=[])) in Hm; [done|by eapply dstep_inv| |lia]. eapply dstep_reads; [exact Hs|].
    apply list_elem_of_filter in Hx as [[Hx _] Hl]. apply waiting_reads; [apply Hi|by apply waiting_clause_waiting].
  - exists s'. split_and!; [done..|]. intros x Hx Hdep.
    pose proof (dstep_waiting _ _ _ Hd Hx) as (Hl & Hs & Hr). refine (Hgone x _ x Hx eq_refl).
    apply list_elem_of_filter. split; [|done]. split; [|done]. unfold waiting_clause.
    rewrite bool_decide_true by done. unfold _is_running in Hr. by rewrite Hr.
Qed.


(** ** Concrete runs

    Job 11 of the demo store runs and job 12 waits on it; 11 fails with a retry owed. *)
#[local] Abbreviation owed_django :=
  (mark_failed_now (λ _, false) (demo_env 4000) demo_job "boom" "" "retry_pending:error"
     (Some demo_handle) false demo_claimed).

#[local] Abbreviation owed_standalone :=
  (mark_job_failed (demo_env 4000) (FLive demo_job) 11 "boom" "" "retry_pending:error" (Some 0)
     (Some demo_handle) demo_claimed).

(** The backends differ on a dependency whose retry is owed. The standalone backend leaves job 12
    waiting and judges its dependency pending; the Django integration fails job 12 for good together
    with job 11, and judges the dependency of the state the standalone backend leaves as failed. *)
Theorem owed_retry_differs :
  (j_id <$> history owed_standalone.1) = [] ∧ waiting_clause (attempts owed_standalone.1) demo_job2 = true ∧
  dv_state (_judge_dependencies owed_standalone.1 [11]) = PENDING ∧
  check_dependencies_met owed_standalone.1 demo_job2 = (false, [11], false) ∧
  owed_django.2 = Ok tt ∧ (j_id <$> history owed_django.1) = [12] ∧
  ((λ j, j_status j) <$> history owed_django.1) = [Failed] ∧ (j_id <$> live owed_django.1) = [11].
Proof. vm_compute. done. Qed.

Lemma demo_job_known : knows demo_claimed demo_job.
Proof.
  intros j. rewrite demo_claimed_live. intros [->| ->%list_elem_of_singleton]%elem_of_cons; [done|].
  by intros Hid.
Qed.

Lemma demo_handle_for : handle_for demo_claimed 11 (Some demo_handle).
Proof. intros a. rewrite demo_claimed_attempts. by intros ->%list_elem_of_singleton. Qed.

Lemma demo_open_attempt : open_attempt_of (attempts demo_claimed) 11 = Some demo_attempt.
Proof. vm_compute. reflexivity. Qed.

Lemma dependencies_met_agree_witness :
  check_dependencies_met demo_between demo_job2 = (true, [], false) ∧
  dv_state (_judge_dependencies demo_between (dependency_ids (j_spec demo_job2))) = MET.
Proof.
  assert (check_dependencies_met demo_between demo_job2 = (true, [], false)) as Hd by (vm_compute; reflexivity).
  split; [exact Hd|].
  apply (dependencies_met_agree demo_between demo_job2 (proj1 demo_between_inv)); [|exact Hd].
  apply Forall_singleton. by exists 11.
Defined.


Lemma queue_writes_agree_witness :
  Django.release_job (demo_env 4000) 11 demo_claimed = Complete.release_job (demo_env 4000) 11 demo_claimed ∧
  (re_job_id <$> ready (Django.release_job (demo_env 4000) 11 demo_claimed)) = [11].
Proof.
  split; [|vm_compute; reflexivity].
  destruct (queue_writes_agree (demo_env 4000) demo_claimed (proj1 demo_claimed_inv)) as (_ & _ & H & _). apply H.
Defined.

